(* ===== verification/_CoqProject ===== *)
-Q . S2P
Prelude.v
CxxString.v
Effects.v
Threads.v
Sockets.v
RecvBuf.v
Barrier.v
Uri.v
Atomese.v
Samples.v
ListUtils.v
SimpleStorage.v
SimpleIO.v
SimpleSafety.v
SimpleThreads.v
SimpleSync.v
SimpleTalk.v
SimpleHomes.v
SimpleGuards.v
SimpleSpec.v
SimpleFetch.v
SimpleStore.v
SimpleLife.v
SimpleFrames.v
Msg.v
Channel.v
ChannelFacts.v
ChannelSafety.v
ChannelSocket.v
ChannelSync.v
ChannelUp.v
FdTable.v
SimpleRaces.v
ThreadTalk.v
Storage.v
StorageFacts.v
StorageQueue.v
StorageSteps.v
StorageSafety.v
StorageReplies.v
StorageDrain.v
StorageFetch.v
PersistSCM.v
SampleServer.v
SampleNet.v
SimpleWitness.v
StorageWitness.v
StepsWitness.v
ThreadsWitness.v
