(* ===== verification/Prelude.v ===== *)
(** * Verification of the CogServer storage clients

    The repository implements two AtomSpace storage nodes that talk to a
    CogServer over a TCP socket with S-expressions, one per line.

    - [CogSimpleStorage] (src/opencog/persist/cog-simple/) has one socket and
      one mutex: every call writes its command and reads the reply before it
      returns.
    - [CogStorage] (src/opencog/persist/cog-storage/) hands its commands to a
      [CogChannel], which keeps them in a buffer drained by writer threads;
      each thread has its own socket, and replies go to callbacks.

    Both compile in ListUtils.cc (src/opencog/persist/cog-common/), which
    decodes the association lists of a reply.  CogSimplePersistSCM.cc and
    CogPersistSCM.cc are the old-style Scheme commands that open and close one
    node of either kind.

    ** Foundations

    - [Prelude]: strings as lists of 8-bit characters, lists, shared tactics,
      the hint databases [cog], [keeps] and [cog_rw].
    - [CxxString]: [size_t] modulo 2^64, [npos], the [std::string] searches,
      [substr], [compare].
    - [Effects]: the monad [M S A] of C++ code.  The state survives an
      exception.  An [outcome] is a return, an exception, undefined behaviour, a
      lock of a mutex the thread already holds, or a loop out of fuel.
      [noexcept] is a destructor: an exception that leaves it ends the program.
      [wp] carries the proofs; [keeps] is its invariant form, [stays] the same
      for the returns and exceptions only, and [moves] the two-state form;
      [blind] says that an operation does not depend on a part of its state.
    - [Threads]: operations as the text of what a thread does ([code], with the
      scopes of its lock guards), and pools of threads that share an object.
      [run] reads a text as one thread's operation, [flatten] as the actions
      between which other threads run, [turn] is one action; [exec_alone] says
      that the two readings agree.  Two threads whose next actions access the same
      part, one of them to write, are in a data race ([race]).  Threads that respect an order of the mutexes
      own each mutex one at a time ([locks_run]), are never all blocked
      ([no_deadlock]) and cannot take turns for ever ([turns_end]).
    - [Sockets], [Atomese]: what the sources call and this repository does not
      define, as classes over abstract states.  [Sockets] is the system calls
      over a [World], and the order of evaluation C++ leaves open; [Atomese] is the AtomSpace and [Sexpr] over a [Heap] of
      atoms.  Their only built-in laws are that [recv] stays in its buffer and
      that an atom's outgoing set is older than the atom.

    ** The single-socket client

    - [RecvBuf]: the body of [do_recv] of both clients; the buffer is an array
      with checked reads ([scrub], [recv_loop]).
    - [Barrier], [Uri]: the barrier message with its generator and its
      [snprintf]; the check of a URI and its host and port.
    - [ListUtils]: [ro_decode_alist].
    - [SimpleStorage]: CogSimpleStorage.cc.  The record [CogSimpleStorage] has
      the members of the class under their names, the world, the atoms, the
      calling thread's random generator, and the history [_trace] of what
      crossed the socket and whether [_mtx] was held.
    - [SimpleIO]: CogSimpleIO.cc, an operation per function, with its locks.

    Its theorems:
    - [SimpleSafety]: [simple_op] is any public operation and [session] any
      sequence of them, with any arguments.  Both mutexes are free after every
      call, and none blocks on itself or meets undefined behaviour unless it is to
      store an atom that is in no AtomSpace, which is undefined in multi-space
      mode ([homeless_store_undefined]); the traffic of the I/O calls is under the
      lock, that of the proxy calls is not.
    - [SimpleSync]: against a CogServer that answers exactly the commands that
      have a reply ([SyncServer]) and greets each connection ([Descriptors]), no
      session of calls leaves a reply unread; and what a second
      thread's [proxy_open], which takes no lock, does to a reply under way.
    - [SimpleSpec]: [does] gives the outcome, the atoms and the traffic of a
      run; its rules compute the operations.
    - [SimpleFetch]: loading an atom, a value, a query, an incoming set or an
      AtomSpace has exactly the effect of a reference function on the atoms
      ([adopt_ref], [alist_ref], [fetch_ref]).
    - [SimpleStore]: the messages of the storing calls, in order; frames are
      sent once, the caches only grow until [kill_data] empties them.
    - [SimpleFrames]: through any session the frame caches agree with the names
      of the frames ([FrameLaws] is the decoders' part of it).
    - [SimpleLife]: the URIs accepted, the endpoints named, what [open], [close]
      and the destructor leave behind on each exit, the barrier identifiers.

    ** The single-socket client, shared by threads

    CogSimpleIO.cc locks each send-receive pair, so that several threads can
    share one socket.

    - [SimpleThreads]: the locking calls once more, as texts: one action per
      access to a member, call of the library, [do_send] or [do_recv], with the
      lock guards of the source; each action declares the members it accesses.
      [op_same] proves each text equal to the operation of [SimpleIO].
    - [SimpleTalk]: [polite] is what every call does with the socket and the
      mutexes.  Any number of threads with any calls hold one conversation with
      the CogServer ([one_conversation]), one at a time ([one_at_the_socket]);
      and an undisturbed thread performs the operation ([calls_are_operations]).
    - [SimpleHomes]: with atoms that are in AtomSpaces, no thread meets undefined
      behaviour by itself, and all calls return, unless a loop of the decoders
      outruns its fuel ([all_calls_return]).
    - [SimpleGuards]: what the actions declare to access is all they access, and
      which mutex they hold for it.  Threads may race on [_multi_space], which no
      mutex guards, and on the frame maps, which two mutexes guard, and on nothing
      else ([threads_undefined_only_races]); [ThreadsWitness] reaches both races.
    - [SimpleRaces]: what the mutexes do not cover: two threads in [open].

    ** The multi-threaded client

    - [Msg]: the queued message, its sequence counter and [operator<].  The
      [async_buffer] is the class [AsyncBuffer]; [AsyncBufferLaws] says that an
      insertion keeps what is queued unless an equal message is there, that a
      writer can take an element while there is one, that a flush lets writers
      take turns ([turn]), that a barrier has the queue emptied by turns and then
      its message sent by each writer, and that either fails only in a writer.
      An invariant of the turns is then one of flushes and barriers
      ([run_barrier_keeps]).
    - [Channel]: CogChannel.h and CogChannel.cc.  The record [process] holds
      what the threads share: the sockets by thread, the channels by number, the
      global counter, the world, the atoms.  Operations take their channel and
      the thread that runs them; [destroy] and [thread_exit] are the destructors
      of the channel and of a thread's socket.
    - [Storage]: CogStorage.cc and CogIO.cc.  Callbacks are the constructors of
      [client_callback], run by [run_callback].
    - [ChannelFacts], [ChannelSocket]: [sent m s s'] says that [m] was sent
      between two states, [grows], [holds], [no_loss] and [progress] what calls,
      openings and writers do to the queue, [all_queued] a property of what is in
      it; what a barrier delivers, and in which order; reassembly of replies;
      what the [thread_local] sockets cost.
    - [ChannelSafety], [StorageSafety]: [ReadyClient] is the interface between a
      channel and its client, the packets each callback can take; any
      [channel_op] of a channel with such a client, and any turn of a writer, is
      free of undefined behaviour.  [CogStorage] is such a client, and
      [storage_session] any sequence of its calls, turns, destructors and
      endings of threads.  The one undefined behaviour of its operations is the
      test of an uninitialised pointer in [getAtom]; the argument [junk] is what
      is there, [None] being what the language says and [Some] what a compiled
      program may find ([getAtom_unknown_undefined]).
    - [StorageFacts], [StorageQueue]: the message each request queues, the same
      text in both clients, the fences of [kill_data], [set_proxy] and
      [storeAtomSpace], and the callbacks against the reference functions of
      [SimpleFetch].
    - [ChannelSync], [StorageReplies], [StorageFetch]: against [SyncServer], over
      descriptors that do not share replies ([Descriptors]), no interleaving
      leaves a reply unread; the callback of a request runs on its own reply;
      and the values and lists asked for have arrived when a barrier returns,
      with the follow-up requests that the callbacks queue.
    - [StorageSteps]: [step] is one move of the process, a call that queues, a
      client thread's own exchange, a writer's turn, an opening, the stop of the
      writers of an empty queue, or the end of a thread, on any channel.  Each
      operation of [CogStorage] is a sequence of steps, so what holds of all
      sequences holds whatever other threads do around and during a call.
    - [ChannelUp], [StorageDrain]: the turns of the writers of a channel always
      come to an end ([turns_terminate], by the number of list requests queued
      and then the length of the queue); on a network that stays up ([UpServer])
      they end with an empty queue ([queue_drains]).
    - [ThreadTalk]: [micro] cuts further, into single sends and reads; each
      thread still reads the reply to its own command.
    - [FdTable]: descriptors opened and closed by both clients.
    - [PersistSCM]: the Scheme commands over an interface to the node
      ([StorageNodes], [OpenContract]), the slot left behind by each outcome;
      and the constructors, which register the commands with [Guile].

    ** Samples and witnesses

    [Samples], [SampleServer] and [SampleNet] are small concrete instances of
    the classes, on which [SimpleWitness], [StorageWitness], [StepsWitness] and
    [ThreadsWitness] evaluate every property that has a hypothesis.

    ** Fuel

    The loops whose length depends on input ([recv_loop], [alist_loop], the
    two [atom_list_loop]) and the recursion of [cacheFrame] take fuel. A chunk
    per turn is enough for [recv_loop], a pair per turn for [alist_loop], an
    atom per turn for [atom_list_loop]; the functional theorems ask for that
    much and conclude a return or an exception of the library, never [NoFuel].
    Atoms have a rank, their outgoing sets a smaller one, and [cacheFrame]
    takes its fuel from it. [queue_drains] asks for one turn of [recv_loop] at
    least, for the prompt, and for what the replies need. The safety theorems
    hold for any fuel. The one loop that has no bound is [ro_decode_alist] on
    a list that begins with two pairs and has no dot, which is proved to outrun
    any fuel.

    ** What is assumed

    Laws are separate classes, and each theorem names those it needs:
    [WellBehaved] (the AtomSpace library returns or throws), [CodecLaws] (the
    decoders invert the encoders in any context), [ListLaws] (the same for a
    list of atoms and [get_next_expr]), [FrameLaws] (the decoders enter frames
    under their names), [HomesStay] (an atom stays in an AtomSpace),
    [SyncServer] (one line for each command that is answered), [Descriptors]
    (a reply comes on the descriptor of its command, and a new connection is
    greeted in one piece), [UpServer] (connections succeed and stay open),
    [FdTable] (which calls open and close descriptors), [AsyncBufferLaws],
    [OpenContract], [Guile].

    ** What is not modelled

    - Interleaving below single sends and reads: an access of the buffer, a
      callback, and a send that opens its socket, with the greeting, are atomic;
      so is the opening of a channel, with its probe.  A channel is closed as one
      step when its queue is empty: a request that another thread queues between
      the last barrier of [close] and the stop of the writers is left out.
    - Deadlocks among the threads inside the [async_buffer], and whether the
      system lets a writer run: the buffer takes its turns in any order.
    - What follows an exception in a writer thread: it ends the program, so only
      turns that return are steps.
    - In an object shared by threads: the steps inside one library call, one
      [ro_decode_alist], one [do_send] or one [do_recv], which are single actions
      of [SimpleThreads]; [close] and the proxy calls, which lock nothing
      ([proxy_open_steals_reply] is two threads).  A data race is undefined
      behaviour, and [race] says where threads come to one; a run of the pool that
      goes on after a race is what a sequentially consistent machine does, and the
      other theorems on pools say nothing else of it.
    - In the multi-threaded client: data races between writers.  The static
      [_fid_map] of [decode_atom_list] is one member of [process], and callbacks
      take effect one after the other.
    - The random generator of the single-socket client is part of its object in
      [SimpleStorage]; in a pool each thread has its own.
    - The [USE_GUILE_INSTEAD] code, compiled out; [getFrame], declared and never
      defined; the order in which objects are destroyed at the program's end.
    - The Scheme modules, the node factories, whose macro is another
      repository's, the generated atom types, the tests and the examples. *)
From Stdlib Require Export ZArith Lia Ascii.
From Stdlib Require Import String.
From stdpp Require Export list gmap strings.

(** ** Characters and strings

    A C++ [std::string] is a list of 8-bit characters: it may hold NUL bytes,
    and its length is explicit.  String literals are written with Rocq's
    string syntax and turned into lists by [lit]. *)
Abbreviation str := (list ascii).

Definition lit (s : string) : str := list_ascii_of_string s.

(** The newline, the NUL byte and the ASCII "synchronous idle" (0x16). *)
Definition nl : ascii := "010"%char.
Definition nul : ascii := "000"%char.
Definition syn : ascii := ascii_of_nat 22.

Arguments lit : simpl never.

Declare Scope cog_scope.
Delimit Scope cog_scope with cog.

(** The characters of a literal, in messages built by concatenation. *)
Notation "'$' s" := (lit s) (at level 1, s at level 0, only parsing) : cog_scope.

#[export] Instance ascii_eq_dec : EqDecision ascii := ascii_dec.

(** [chareq a b] is the C++ test [a == b] on characters. *)
Definition chareq (a b : ascii) : bool := bool_decide (a = b).

Arguments chareq : simpl never.

Lemma chareq_true a b : chareq a b = true <-> a = b.
Proof. unfold chareq. by rewrite bool_decide_eq_true. Qed.

Lemma chareq_false a b : chareq a b = false <-> a <> b.
Proof. unfold chareq. by rewrite bool_decide_eq_false. Qed.

Lemma chareq_refl a : chareq a a = true.
Proof. by apply chareq_true. Qed.

(** ** C strings

    [c_str s] is what a callee reads through [s.c_str()]: the characters up to
    the first NUL. *)
Fixpoint c_str (s : str) : str :=
  match s with
  | [] => []
  | c :: s' => if chareq c nul then [] else c :: c_str s'
  end.

Lemma c_str_id s : Forall (.≠ nul) s -> c_str s = s.
Proof.
  induction 1 as [|c s Hc _ IH]; [done|]. simpl.
  apply chareq_false in Hc. by rewrite Hc, IH.
Qed.

Lemma c_str_app s t : Forall (.≠ nul) s -> c_str (s ++ t) = s ++ c_str t.
Proof.
  induction 1 as [|c s Hc _ IH]; [done|]. simpl.
  apply chareq_false in Hc. by rewrite Hc, IH.
Qed.

Lemma c_str_no_nul s : Forall (.≠ nul) (c_str s).
Proof.
  induction s as [|c s IH]; simpl; [constructor|].
  destruct (chareq c nul) eqn:E; constructor; [|done].
  by apply chareq_false.
Qed.

Lemma c_str_idemp s : c_str (c_str s) = c_str s.
Proof. apply c_str_id, c_str_no_nul. Qed.

(** ** List lemmas shared by the components *)

Lemma app_cons_inv {A} (P : A -> Prop) (a b a' b' : list A) (c c' : A) :
  a ++ c :: b = a' ++ c' :: b' ->
  Forall P a -> ~ P c -> Forall P a' -> ~ P c' ->
  a = a' /\ c = c' /\ b = b'.
Proof.
  revert a'. induction a as [|x a IH]; intros [|y a'] Heq Ha Hc Ha' Hc';
    simplify_eq/=; [done|..].
  - by inversion Ha'.
  - by inversion Ha.
  - inversion Ha; inversion Ha'; subst.
    edestruct (IH a') as (-> & -> & ->); eauto.
Qed.

(** ** Hint databases

    [cog] closes side conditions by lemmas, [cog_rw] simplifies strings, and
    [keeps] holds the lemmas that an operation keeps an invariant. *)
Create HintDb cog.
Create HintDb keeps.
Create Rewrite HintDb cog_rw.
#[export] Hint Resolve c_str_id c_str_no_nul : cog.
#[export] Hint Rewrite @length_app @app_nil_r : cog_rw.

#[export] Hint Extern 5 => discriminate : keeps.

(** ** Tactics *)

(** Split a conjunction goal and solve what the database solves. *)
Ltac split_cog := repeat split; eauto with cog; try done; try lia.

(** Destruct the discriminee of a match of the goal, keeping the equation. *)
Ltac case_match_goal :=
  match goal with
  | |- context [match ?x with _ => _ end] =>
      lazymatch x with context [match _ with _ => _ end] => fail | _ => destruct x eqn:? end
  end.
