(* ===== verification/CxxString.v ===== *)
(** * std::string and size_t

    The parts of the C++ standard library the clients use on strings: [size_t]
    arithmetic modulo 2^64, [npos], [find], [rfind], [find_first_of],
    [find_first_not_of], [substr] and [compare].  Positions are [Z], since
    the sources pass [npos] through arithmetic. *)
From S2P Require Import Prelude.

(** ** size_t *)

Definition size_mod : Z := 2 ^ 64.
Definition npos : Z := size_mod - 1.
Definition wadd (a b : Z) : Z := (a + b) mod size_mod.
Definition wsub (a b : Z) : Z := (a - b) mod size_mod.

Definition size (s : str) : Z := Z.of_nat (length s).

(** A string that fits in memory: every position is below [npos]. *)
Definition fits (s : str) : Prop := (size s < 2 ^ 63)%Z.

Lemma size_nonneg s : (0 <= size s)%Z.
Proof. unfold size. lia. Qed.

Lemma size_app s t : size (s ++ t) = (size s + size t)%Z.
Proof. unfold size. rewrite length_app. lia. Qed.

Lemma size_cons c s : size (c :: s) = (1 + size s)%Z.
Proof. unfold size. simpl. lia. Qed.

Lemma drop_size pre s : drop (Z.to_nat (size pre)) (pre ++ s) = s.
Proof. unfold size. by rewrite Nat2Z.id, drop_app_length. Qed.

Lemma size_nil : size [] = 0%Z.
Proof. done. Qed.

Lemma wadd_small a b : (0 <= a + b < size_mod)%Z -> wadd a b = (a + b)%Z.
Proof. intros. by apply Z.mod_small. Qed.

Lemma wsub_small a b : (0 <= a - b < size_mod)%Z -> wsub a b = (a - b)%Z.
Proof. intros. by apply Z.mod_small. Qed.

(** Adding to [npos] wraps: [npos + n = n - 1]. *)
Lemma wadd_npos n : (0 < n < size_mod)%Z -> wadd npos n = (n - 1)%Z.
Proof.
  intros Hn. unfold wadd, npos.
  replace (size_mod - 1 + n)%Z with ((n - 1) + 1 * size_mod)%Z by lia.
  rewrite Z.mod_add by (unfold size_mod; lia). apply Z.mod_small. lia.
Qed.

#[export] Hint Rewrite size_app size_cons size_nil : cog_rw.
#[export] Hint Resolve size_nonneg : cog.

(** ** Searching for a character *)

(** The least index whose character satisfies [p]. *)
Fixpoint index_of (p : ascii -> bool) (s : str) : option nat :=
  match s with
  | [] => None
  | c :: s' => if p c then Some 0 else S <$> index_of p s'
  end.

(** The greatest one. *)
Fixpoint last_index_of (p : ascii -> bool) (s : str) : option nat :=
  match s with
  | [] => None
  | c :: s' =>
      match last_index_of p s' with
      | Some i => Some (S i)
      | None => if p c then Some 0 else None
      end
  end.

Definition pos_of (o : option nat) : Z :=
  match o with Some i => Z.of_nat i | None => npos end.

(** [find_if p s pos] searches from [pos]; [npos] when nothing is found or when
    [pos] is past the end. *)
Definition find_if (p : ascii -> bool) (s : str) (pos : Z) : Z :=
  if (size s <=? pos)%Z then npos
  else match index_of p (drop (Z.to_nat pos) s) with
       | Some i => (pos + Z.of_nat i)%Z
       | None => npos
       end.

Definition find (c : ascii) (s : str) (pos : Z) : Z := find_if (chareq c) s pos.
Definition rfind (c : ascii) (s : str) : Z := pos_of (last_index_of (chareq c) s).

Definition char_in (set : str) (c : ascii) : bool := bool_decide (c ∈ set).
Definition find_first_of (set s : str) (pos : Z) : Z := find_if (char_in set) s pos.
Definition find_first_not_of (set s : str) (pos : Z) : Z :=
  find_if (fun c => negb (char_in set c)) s pos.

Lemma index_of_Some p s i :
  index_of p s = Some i <->
  exists a c b, s = a ++ c :: b /\ length a = i /\ p c = true /\
                Forall (fun x => p x = false) a.
Proof.
  revert i. induction s as [|x s IH]; intros i; simpl.
  - split; [done|]. intros (a & c & b & Heq & _). by destruct a.
  - destruct (p x) eqn:Hx.
    + split.
      * intros [= <-]. exists [], x, s. split_cog.
      * intros (a & c & b & Heq & <- & Hc & Ha). destruct a as [|y a]; [done|].
        simplify_eq/=. inversion Ha. congruence.
    + rewrite fmap_Some. setoid_rewrite IH. split.
      * intros (j & (a & c & b & -> & <- & Hc & Ha) & ->).
        exists (x :: a), c, b. split_cog.
      * intros (a & c & b & Heq & <- & Hc & Ha).
        destruct a as [|y a]; simplify_eq/=; [congruence|].
        inversion Ha; subst. exists (length a). split_cog.
        exists a, c, b. split_cog.
Qed.

Lemma index_of_None p s :
  index_of p s = None <-> Forall (fun x => p x = false) s.
Proof.
  induction s as [|x s IH]; simpl; [split; [constructor|done]|].
  destruct (p x) eqn:Hx.
  - split; [done|]. inversion 1. congruence.
  - rewrite fmap_None, IH, Forall_cons. tauto.
Qed.

Lemma index_of_app p a c b :
  Forall (fun x => p x = false) a -> p c = true ->
  index_of p (a ++ c :: b) = Some (length a).
Proof. intros. apply index_of_Some. eexists a, c, b. split_cog. Qed.

Lemma last_index_of_app p a c b :
  p c = true -> Forall (fun x => p x = false) b ->
  last_index_of p (a ++ c :: b) = Some (length a).
Proof.
  intros Hc Hb.
  assert (last_index_of p b = None) as Hn.
  { induction Hb as [|x b Hx _ IH]; simpl; [done|]. by rewrite IH, Hx. }
  induction a as [|x a IH]; simpl; [by rewrite Hn, Hc|]. by rewrite IH.
Qed.

(** ** Laws of [find_if] at a known offset *)

Lemma find_if_at p pre a c b :
  Forall (fun x => p x = false) a -> p c = true ->
  find_if p (pre ++ a ++ c :: b) (size pre) = (size pre + size a)%Z.
Proof.
  intros Ha Hc. unfold find_if.
  rewrite (proj2 (Z.leb_gt _ _)) by (autorewrite with cog_rw; pose proof (size_nonneg a); pose proof (size_nonneg b); lia).
  rewrite drop_size.
  rewrite index_of_app by done. done.
Qed.

Lemma find_if_here p pre c b :
  p c = true -> find_if p (pre ++ c :: b) (size pre) = size pre.
Proof.
  intros Hc. etrans; [apply (find_if_at p pre [] c b); done|]. apply Z.add_0_r.
Qed.

Lemma find_if_none p pre s :
  Forall (fun x => p x = false) s -> find_if p (pre ++ s) (size pre) = npos.
Proof.
  intros Hs. unfold find_if. case_match; [done|].
  rewrite drop_size.
  by rewrite (proj2 (index_of_None p s)).
Qed.

Lemma find_if_at0 p a c b :
  Forall (fun x => p x = false) a -> p c = true -> find_if p (a ++ c :: b) 0 = size a.
Proof. apply (find_if_at p []). Qed.

Lemma find_if_here0 p c b : p c = true -> find_if p (c :: b) 0 = 0%Z.
Proof. apply (find_if_here p []). Qed.

Lemma find_if_none0 p s : Forall (fun x => p x = false) s -> find_if p s 0 = npos.
Proof. apply (find_if_none p []). Qed.

(** Skipping a character that is not searched for. *)
Lemma find_if_skip p pre c t :
  p c = false ->
  find_if p (pre ++ c :: t) (size pre) = find_if p ((pre ++ [c]) ++ t) (size (pre ++ [c])).
Proof.
  intros Hc. unfold find_if. rewrite !drop_size. cbn [index_of]. rewrite Hc.
  rewrite !size_app, size_cons. change (size [c]) with 1%Z. pose proof (size_nonneg t).
  rewrite (proj2 (Z.leb_gt _ _)) by lia.
  destruct (index_of p t) as [i|] eqn:Hi; simpl.
  - rewrite (proj2 (Z.leb_gt _ _)); [lia|].
    destruct t; [done|]. rewrite size_cons. pose proof (size_nonneg t). lia.
  - by case_match.
Qed.

Lemma find_if_past p s pos : (size s <= pos)%Z -> find_if p s pos = npos.
Proof. intros H. unfold find_if. by rewrite (proj2 (Z.leb_le _ _)). Qed.

(** What a successful search means, and its bounds. *)
Lemma find_if_split p s pos r :
  (0 <= pos)%Z -> fits s -> find_if p s pos = r -> r <> npos ->
  exists pre a c b, s = pre ++ a ++ c :: b /\ size pre = pos /\
    r = (pos + size a)%Z /\ p c = true /\ Forall (fun x => p x = false) a.
Proof.
  intros Hpos Hfit <-. unfold find_if.
  destruct (size s <=? pos)%Z eqn:Hle; [done|]. apply Z.leb_gt in Hle.
  destruct (index_of p (drop (Z.to_nat pos) s)) as [i|] eqn:Hi; [|done].
  intros _. apply index_of_Some in Hi as (a & c & b & Heq & <- & Hc & Ha).
  exists (take (Z.to_nat pos) s), a, c, b. repeat split; try done.
  - by rewrite <- Heq, take_drop.
  - unfold size in *. rewrite length_take. lia.
Qed.

Lemma find_if_bound p s pos :
  (0 <= pos)%Z -> fits s -> find_if p s pos = npos \/
  (pos <= find_if p s pos < size s)%Z.
Proof.
  intros Hpos Hfit. destruct (decide (find_if p s pos = npos)) as [|Hne]; [by left|right].
  destruct (find_if_split p s pos _ Hpos Hfit eq_refl Hne)
    as (pre & a & c & b & -> & <- & -> & _).
  autorewrite with cog_rw. pose proof (size_nonneg a). pose proof (size_nonneg b). lia.
Qed.

(** A position found is a position of the string. *)
Lemma find_if_lookup p s pos :
  (0 <= pos)%Z -> find_if p s pos <> npos -> is_Some (s !! Z.to_nat (find_if p s pos)).
Proof.
  intros Hpos. unfold find_if. case_match eqn:Hle; [done|]. apply Z.leb_gt in Hle.
  destruct (index_of p (drop (Z.to_nat pos) s)) as [i|] eqn:Hi; [|done]. intros _.
  apply index_of_Some in Hi as (a & c & b & Heq & <- & _).
  exists c. rewrite <- (take_drop (Z.to_nat pos) s), Heq.
  rewrite lookup_app_r by (rewrite length_take; unfold size in Hle; lia).
  rewrite length_take, Nat.min_l by (unfold size in Hle; lia).
  replace (Z.to_nat (pos + Z.of_nat (length a)) - Z.to_nat pos) with (length a) by lia.
  by apply list_lookup_middle.
Qed.

(** ** Substrings *)

(** [s.substr(pos, n)]: [None] is [std::out_of_range]. *)
Definition substr (s : str) (pos n : Z) : option str :=
  if (size s <? pos)%Z then None
  else Some (take (Z.to_nat (Z.min n (size s - pos))) (drop (Z.to_nat pos) s)).

(** [s.substr(pos)]. *)
Definition substr_from (s : str) (pos : Z) : option str := substr s pos npos.

Lemma substr_at pre s t : substr (pre ++ s ++ t) (size pre) (size s) = Some s.
Proof.
  unfold substr. rewrite (proj2 (Z.ltb_ge _ _))
    by (autorewrite with cog_rw; pose proof (size_nonneg s); pose proof (size_nonneg t); lia).
  f_equal. rewrite drop_size.
  rewrite Z.min_l by (autorewrite with cog_rw; pose proof (size_nonneg t); lia).
  unfold size. by rewrite Nat2Z.id, take_app_length.
Qed.

Lemma substr_at0 s t : substr (s ++ t) 0 (size s) = Some s.
Proof. apply (substr_at []). Qed.

Lemma substr_from_at pre s : fits (pre ++ s) -> substr_from (pre ++ s) (size pre) = Some s.
Proof.
  intros Hfit. unfold fits in Hfit. rewrite size_app in Hfit.
  unfold substr_from, substr. rewrite (proj2 (Z.ltb_ge _ _))
    by (autorewrite with cog_rw; pose proof (size_nonneg s); lia).
  f_equal. rewrite drop_size.
  apply take_ge. rewrite size_app. pose proof (size_nonneg pre).
  unfold npos, size_mod. unfold size in *. lia.
Qed.

(** ** Searching for a substring *)

Definition is_prefix (pat s : str) : bool := bool_decide (take (length pat) s = pat).

Fixpoint index_of_sub (pat s : str) : option nat :=
  if is_prefix pat s then Some 0
  else match s with
       | [] => None
       | _ :: s' => S <$> index_of_sub pat s'
       end.

(** [s.find(pat, pos)]. *)
Definition find_sub (pat s : str) (pos : Z) : Z :=
  if (size s <? pos)%Z then npos
  else match index_of_sub pat (drop (Z.to_nat pos) s) with
       | Some i => (pos + Z.of_nat i)%Z
       | None => npos
       end.

Lemma is_prefix_app pat s : is_prefix pat (pat ++ s) = true.
Proof. apply bool_decide_eq_true. by rewrite take_app_length. Qed.

Lemma index_of_sub_prefix pat s : is_prefix pat s = true -> index_of_sub pat s = Some 0.
Proof. intros H. destruct s; simpl; by rewrite H. Qed.

Lemma find_sub_at pat pre t : find_sub pat (pre ++ pat ++ t) (size pre) = size pre.
Proof.
  unfold find_sub. rewrite (proj2 (Z.ltb_ge _ _))
    by (autorewrite with cog_rw; pose proof (size_nonneg pat); pose proof (size_nonneg t); lia).
  rewrite drop_size.
  rewrite index_of_sub_prefix by apply is_prefix_app. lia.
Qed.

Lemma index_of_sub_drop pat s n : index_of_sub pat s = None -> index_of_sub pat (drop n s) = None.
Proof.
  revert n. induction s as [|c s IH]; intros [|n] Hn; simpl in *; try done.
  destruct (is_prefix pat (c :: s)); [done|]. apply fmap_None in Hn. auto.
Qed.

Lemma find_sub_none pat s pos : index_of_sub pat s = None -> find_sub pat s pos = npos.
Proof.
  intros Hn. unfold find_sub. case_match; [done|]. by rewrite index_of_sub_drop.
Qed.

(** ** Comparison *)

(** [s.compare(0, n, t) == 0]: the first [n] characters of [s] are [t], with
    the same length. *)
Definition compare_eq (s : str) (n : nat) (t : str) : bool := bool_decide (take n s = t).

(** [strncmp(s, t, n) == 0] on C strings, for [n] the length of [t]. *)
Definition strncmp_eq (s t : str) : bool := bool_decide (take (length t) (c_str s) = t).

Lemma compare_eq_length s n t :
  compare_eq s n t = true -> length t = min n (length s).
Proof. intros <-%bool_decide_eq_true. apply length_take. Qed.

(** ** Lexicographic order

    [a < b] on [std::string]: characters compared as unsigned bytes. *)
Fixpoint str_ltb (a b : str) : bool :=
  match a, b with
  | [], _ :: _ => true
  | x :: a', y :: b' =>
      if chareq x y then str_ltb a' b'
      else (N_of_ascii x <? N_of_ascii y)%N
  | _, [] => false
  end.

Lemma chareq_sym a b : chareq a b = chareq b a.
Proof. unfold chareq. apply bool_decide_ext. naive_solver. Qed.

Lemma N_of_ascii_inj a b : N_of_ascii a = N_of_ascii b -> a = b.
Proof.
  intros H. by rewrite <- (ascii_N_embedding a), <- (ascii_N_embedding b), H.
Qed.

Lemma str_ltb_irrefl a : str_ltb a a = false.
Proof. induction a as [|x a IH]; simpl; [done|]. by rewrite chareq_refl. Qed.

Lemma str_ltb_trans a b c :
  str_ltb a b = true -> str_ltb b c = true -> str_ltb a c = true.
Proof.
  revert b c. induction a as [|x a IH]; intros [|y b] [|z c]; simpl; try done.
  destruct (chareq x y) eqn:Hxy; [apply chareq_true in Hxy as ->; case_match; [apply IH|done]|].
  destruct (chareq y z) eqn:Hyz; [apply chareq_true in Hyz as ->; by rewrite Hxy|].
  intros H1%N.ltb_lt H2%N.ltb_lt.
  destruct (chareq x z) eqn:Hxz; [apply chareq_true in Hxz as ->; lia|].
  apply N.ltb_lt. lia.
Qed.

Lemma str_ltb_total a b : str_ltb a b = false -> str_ltb b a = false -> a = b.
Proof.
  revert b. induction a as [|x a IH]; intros [|y b]; simpl; try done.
  rewrite (chareq_sym y x). destruct (chareq x y) eqn:Hxy.
  - apply chareq_true in Hxy as ->. intros. f_equal. auto.
  - intros H1%N.ltb_ge H2%N.ltb_ge. apply chareq_false in Hxy.
    destruct Hxy. apply N_of_ascii_inj. lia.
Qed.
