(* ===== verification/Effects.v ===== *)
(** * Effects of the C++ code

    A C++ operation reads and writes its object's state, may throw, and may
    misbehave.  [M S A] is a state monad whose state survives an exception, as
    in C++; [outcome] separates normal return, a thrown exception, undefined
    behaviour, blocking on a mutex the thread already holds, and running out of
    the fuel that bounds a loop.  The weakest precondition [wp] and its rules
    carry the proofs. *)
From S2P Require Import Prelude.

(** ** Outcomes *)

(** The arguments of a [printf]-style exception message. *)
Inductive fmt_arg :=
| FStr (s : str)
| FInt (z : Z).

Inductive exn :=
| IOException (fmt : string) (args : list fmt_arg)
| SyntaxException (fmt : string) (args : list fmt_arg)
| RuntimeException (fmt : string)
| OutOfRange                (* std::out_of_range *)
| ForeignException (code : nat)  (* thrown by a callee outside this repository *).

Inductive outcome (A : Type) :=
| Ok (a : A)
| Throw (e : exn)
| Undef       (* undefined behaviour *)
| Deadlock    (* locking a std::mutex this thread already holds *)
| NoFuel      (* the loop has not ended within the given number of turns *).
Arguments Ok {A} a.
Arguments Throw {A} e.
Arguments Undef {A}.
Arguments Deadlock {A}.
Arguments NoFuel {A}.

#[export] Instance fmt_arg_eq_dec : EqDecision fmt_arg.
Proof. solve_decision. Defined.
#[export] Instance exn_eq_dec : EqDecision exn.
Proof. solve_decision. Defined.

#[export] Instance outcome_ret : MRet outcome := fun A a => Ok a.
#[export] Instance outcome_bind : MBind outcome := fun A B f m =>
  match m with
  | Ok a => f a
  | Throw e => Throw e
  | Undef => Undef
  | Deadlock => Deadlock
  | NoFuel => NoFuel
  end.

Definition othrow {A} (e : exn) : outcome A := Throw e.

(** [or_throw e o] throws [e] when [o] is absent. *)
Definition or_throw {A} (e : exn) (o : option A) : outcome A :=
  match o with Some a => Ok a | None => Throw e end.

(** ** The monad *)

Definition M (S A : Type) : Type := S -> outcome A * S.

#[export] Instance M_ret {S} : MRet (M S) := fun A a s => (Ok a, s).
#[export] Instance M_bind {S} : MBind (M S) := fun A B f m s =>
  match m s with
  | (Ok a, s') => f a s'
  | (Throw e, s') => (Throw e, s')
  | (Undef, s') => (Undef, s')
  | (Deadlock, s') => (Deadlock, s')
  | (NoFuel, s') => (NoFuel, s')
  end.

Section ops.
Context {S : Type}.

Definition throw {A} (e : exn) : M S A := fun s => (Throw e, s).
Definition undef {A} : M S A := fun s => (Undef, s).
Definition deadlock {A} : M S A := fun s => (Deadlock, s).
Definition nofuel {A} : M S A := fun s => (NoFuel, s).
Definition gets {A} (f : S -> A) : M S A := fun s => (Ok (f s), s).
Definition modify (f : S -> S) : M S unit := fun s => (Ok tt, f s).
Definition lift_outcome {A} (o : outcome A) : M S A := fun s => (o, s).

(** [when b m]: [if (b) m]. *)
Definition when (b : bool) (m : M S unit) : M S unit := if b then m else mret tt.

(** [for (x : xs) f(x)]. *)
Fixpoint for_each {A} (f : A -> M S unit) (xs : list A) : M S unit :=
  match xs with
  | [] => mret tt
  | x :: xs' => f x ;; for_each f xs'
  end.

(** [try { m } catch (const IOException&) { h; throw; }]. *)
Definition on_ioexception {A} (m : M S A) (h : M S unit) : M S A := fun s =>
  match m s with
  | (Throw (IOException f args), s') =>
      (_ ← h; throw (IOException f args)) s'
  | r => r
  end.
End ops.

(** A destructor is [noexcept]: an exception that leaves it ends the program. *)
Inductive fate := Finished | Terminated.

Definition noexcept {S} (m : M S unit) : M S fate := fun s =>
  match m s with
  | (Ok _, s') => (Ok Finished, s')
  | (Throw _, s') => (Ok Terminated, s')
  | (Undef, s') => (Undef, s')
  | (Deadlock, s') => (Deadlock, s')
  | (NoFuel, s') => (NoFuel, s')
  end.

(** ** Parts of the state

    Code shared by several classes runs on any state that has the part it
    needs: the operating system, or the atoms. *)
Class Has (X S : Type) := {
  the : S -> X;
  put : X -> S -> S;
}.

Class HasLaws (X S : Type) `{Has X S} := {
  the_put : forall x s, the (put x s) = x;
  put_put : forall x y s, put x (put y s) = put x s;
  put_the : forall s, put (the s) s = s;
}.
#[export] Hint Rewrite @the_put @put_put @put_the using typeclasses eauto : cog_rw.

(** Run an operation of the part [X]. *)
Definition on {X S A} `{Has X S} (f : X -> outcome A * X) : M S A := fun s =>
  let '(o, x) := f (the s) in (o, put x s).

(** The same for a total one. *)
Definition on_pure {X S A} `{Has X S} (f : X -> A * X) : M S A := fun s =>
  let '(a, x) := f (the s) in (Ok a, put x s).

(** ** Equations of the monad *)

Lemma bind_ext {S A B} (m : M S A) (f g : A -> M S B) s :
  (forall a s', m s = (Ok a, s') -> f a s' = g a s') -> (m ≫= f) s = (m ≫= g) s.
Proof. unfold mbind, M_bind. intros H. destruct (m s) as [[] ?]; auto. Qed.

Lemma bind_ok {S A B} (m : M S A) (f : A -> M S B) s a s' :
  m s = (Ok a, s') -> (m ≫= f) s = f a s'.
Proof. unfold mbind, M_bind. by intros ->. Qed.

Lemma bind_ext' {S A B} (m m' : M S A) (f : A -> M S B) s :
  m s = m' s -> (m ≫= f) s = (m' ≫= f) s.
Proof. unfold mbind, M_bind. by intros ->. Qed.

Lemma bind_inv {S A B} (m : M S A) (f : A -> M S B) s b s' :
  (m ≫= f) s = (Ok b, s') -> exists a s1, m s = (Ok a, s1) /\ f a s1 = (Ok b, s').
Proof. unfold mbind, M_bind. destruct (m s) as [[a|e| | |] s1]; try done. eauto. Qed.

Lemma bind_throw {S A B} (m : M S A) (f : A -> M S B) s e s' :
  m s = (Throw e, s') -> (m ≫= f) s = (Throw e, s').
Proof. unfold mbind, M_bind. by intros ->. Qed.

(** Reading the part [X] without changing it. *)
Lemma on_same {X S A} `{HasLaws X S} (f : X -> outcome A * X) s o :
  f (the s) = (o, the s) -> on f s = (o, s).
Proof. unfold on. intros ->. by rewrite put_the. Qed.

(** ** Mutexes

    [held] says whether this thread holds the mutex.  A [std::mutex] is not
    recursive; a [std::lock_guard] releases it on every exit from its scope. *)
Class Mutex (S : Type) := {
  held : S -> bool;
  set_held : bool -> S -> S;
}.

Definition with_lock {S A} (mx : Mutex S) (body : M S A) : M S A := fun s =>
  if held s then (Deadlock, s)
  else let '(o, s') := body (set_held true s) in (o, set_held false s').

Lemma with_lock_run {S A} (mx : Mutex S) (m : M S A) s o s' :
  held s = false -> m (set_held true s) = (o, s') -> with_lock mx m s = (o, set_held false s').
Proof. unfold with_lock. by intros -> ->. Qed.

(** ** Weakest preconditions

    [wp N m Q E s]: run from [s], [m] returns a value and a state in [Q], or
    throws with [E]; it never meets undefined behaviour nor blocks on its own
    mutex; and [N] must hold if its fuel does not suffice, so [wp False]
    states termination. *)
Definition wp {S A} (N : Prop) (m : M S A) (Q : A -> S -> Prop)
  (E : exn -> S -> Prop) (s : S) : Prop :=
  match m s with
  | (Ok a, s') => Q a s'
  | (Throw e, s') => E e s'
  | (NoFuel, _) => N
  | (Undef, _) | (Deadlock, _) => False
  end.

Section wp.
Context {S : Type}.
Implicit Types (s : S) (N : Prop).

Lemma wp_ret {A} N (a : A) Q E s : Q a s -> wp N (mret a) Q E s.
Proof. done. Qed.

Lemma wp_throw {A} N e (Q : A -> S -> Prop) (E : exn -> S -> Prop) s :
  E e s -> wp N (throw e) Q E s.
Proof. done. Qed.

Lemma wp_bind {A B} N (m : M S A) (f : A -> M S B) Q E s :
  wp N m (fun a => wp N (f a) Q E) E s -> wp N (m ≫= f) Q E s.
Proof.
  unfold wp, mbind, M_bind. by destruct (m s) as [[] ?].
Qed.

Lemma wp_mono {A} N (m : M S A) (Q Q' : A -> S -> Prop) (E E' : exn -> S -> Prop) s :
  wp N m Q E s -> (forall a s', Q a s' -> Q' a s') ->
  (forall e s', E e s' -> E' e s') -> wp N m Q' E' s.
Proof. unfold wp. destruct (m s) as [[] ?]; eauto. Qed.

(** Facts about one run, put together. *)
Lemma wp_both {A} N N1 N2 (m : M S A) (Q1 Q2 : A -> S -> Prop) (E1 E2 : exn -> S -> Prop) s :
  wp N1 m Q1 E1 s -> wp N2 m Q2 E2 s -> (N1 -> N2 -> N) ->
  wp N m (fun a s' => Q1 a s' /\ Q2 a s') (fun e s' => E1 e s' /\ E2 e s') s.
Proof. unfold wp. destruct (m s) as [[] ?]; auto. Qed.

Lemma wp_conj {A} N (m : M S A) (Q1 Q2 : A -> S -> Prop) (E1 E2 : exn -> S -> Prop) s :
  wp N m Q1 E1 s -> wp N m Q2 E2 s ->
  wp N m (fun a s' => Q1 a s' /\ Q2 a s') (fun e s' => E1 e s' /\ E2 e s') s.
Proof. intros H1 H2. by eapply wp_both. Qed.

Lemma wp_weaken {A} N (m : M S A) Q E s : wp False m Q E s -> wp N m Q E s.
Proof. unfold wp. destruct (m s) as [[] ?]; done. Qed.

Lemma wp_gets {A} N (f : S -> A) Q E s : Q (f s) s -> wp N (gets f) Q E s.
Proof. done. Qed.

Lemma wp_modify N (f : S -> S) Q E s : Q tt (f s) -> wp N (modify f) Q E s.
Proof. done. Qed.

Lemma wp_when N b (m : M S unit) Q E s :
  (b = true -> wp N m Q E s) -> (b = false -> Q tt s) -> wp N (when b m) Q E s.
Proof. destruct b; simpl; eauto using wp_ret. Qed.

(** A loop over a list keeps an invariant. *)
Lemma wp_for_each {A} N (f : A -> M S unit) (I : S -> Prop) E xs s :
  I s -> (forall x s', x ∈ xs -> I s' -> wp N (f x) (fun _ => I) E s') ->
  wp N (for_each f xs) (fun _ => I) E s.
Proof.
  revert s. induction xs as [|x xs IH]; intros s Hs Hf; simpl; [done|].
  apply wp_bind. eapply wp_mono; [apply Hf; [set_solver|done]| |done].
  intros [] s' Hs'. apply IH; [done|]. intros. apply Hf; [set_solver|done].
Qed.

Lemma wp_on {X A} `{Has X S} N (f : X -> outcome A * X) Q E s :
  (forall x, f (the s) = (Undef, x) -> False) ->
  (forall x, f (the s) = (Deadlock, x) -> False) ->
  (forall x, f (the s) = (NoFuel, x) -> N) ->
  (forall a x, f (the s) = (Ok a, x) -> Q a (put x s)) ->
  (forall e x, f (the s) = (Throw e, x) -> E e (put x s)) ->
  wp N (on f) Q E s.
Proof. unfold wp, on. intros. destruct (f (the s)) as [[] ?]; eauto. Qed.

Lemma wp_on_pure {X A} `{Has X S} N (f : X -> A * X) Q E s :
  (forall a x, f (the s) = (a, x) -> Q a (put x s)) -> wp N (on_pure f) Q E s.
Proof. unfold wp, on_pure. intros. destruct (f (the s)); eauto. Qed.

Lemma wp_with_lock {A} N (mx : Mutex S) (m : M S A) Q E s :
  held s = false ->
  wp N m (fun a s' => Q a (set_held false s')) (fun e s' => E e (set_held false s'))
    (set_held true s) ->
  wp N (with_lock mx m) Q E s.
Proof.
  unfold wp, with_lock. intros ->. by destruct (m (set_held true s)) as [[] ?].
Qed.

Lemma wp_on_ioexception {A} N (m : M S A) (h : M S unit) Q (E : exn -> S -> Prop) s :
  wp N m Q (fun e s' => match e with
                        | IOException _ _ => wp N h (fun _ s'' => E e s'') E s'
                        | _ => E e s'
                        end) s ->
  wp N (on_ioexception m h) Q E s.
Proof.
  unfold wp, on_ioexception. destruct (m s) as [[a|e| | |] s1]; try done.
  destruct e; try done. unfold mbind, M_bind. by destruct (h s1) as [[[]|e| | |] s2].
Qed.

(** A result of the operation satisfies what [wp] promises. *)
Lemma wp_ok {A} N (m : M S A) Q E s a s' : wp N m Q E s -> m s = (Ok a, s') -> Q a s'.
Proof. unfold wp. intros Hw Heq. by rewrite Heq in Hw. Qed.
End wp.

(** It ended, other than by returning. *)
Definition fails {A} (o : outcome A) : Prop :=
  match o with Ok _ | NoFuel => False | _ => True end.

(** ** Invariants

    [keeps I m]: from a state in [I], [m] ends in [I] however it ends, without
    undefined behaviour and without blocking on its own mutexes. *)
Definition keeps {S A} (I : S -> Prop) (m : M S A) : Prop :=
  forall s, I s -> wp True m (fun _ => I) (fun _ => I) s.

Section keeps.
Context {S : Type}.
Implicit Types (I : S -> Prop).

Lemma keeps_ret {A} I (a : A) : keeps I (mret a).
Proof. by intros s. Qed.
Lemma keeps_throw {A} I e : keeps I (throw (A := A) e).
Proof. by intros s. Qed.
Lemma keeps_nofuel {A} I : keeps I (nofuel (A := A)).
Proof. by intros s. Qed.
Lemma keeps_gets {A} I (f : S -> A) : keeps I (gets f).
Proof. by intros s. Qed.
Lemma keeps_modify I (f : S -> S) : (forall s, I s -> I (f s)) -> keeps I (modify f).
Proof. intros H s Hs. by apply H. Qed.
Lemma keeps_bind {A B} I (m : M S A) (f : A -> M S B) :
  keeps I m -> (forall a, keeps I (f a)) -> keeps I (m ≫= f).
Proof.
  intros Hm Hf s Hs. apply wp_bind. eapply wp_mono; [by apply Hm| |done].
  intros a s' Hs'. by apply Hf.
Qed.
Lemma keeps_when I b (m : M S unit) : (b = true -> keeps I m) -> keeps I (when b m).
Proof. destruct b; intros H; [by apply H|apply keeps_ret]. Qed.
Lemma keeps_for_each {A} I (f : A -> M S unit) xs :
  (forall x, x ∈ xs -> keeps I (f x)) -> keeps I (for_each f xs).
Proof. intros H s Hs. apply wp_for_each; [done|]. intros x s' Hx. by apply H. Qed.
Lemma keeps_on_pure {X A} `{Has X S} I (f : X -> A * X) :
  (forall x s, I s -> I (put x s)) -> keeps I (on_pure f).
Proof. intros Hp s Hs. apply wp_on_pure. intros a x _. by apply Hp. Qed.
Lemma keeps_on_ioexception {A} I (m : M S A) (h : M S unit) :
  keeps I m -> keeps I h -> keeps I (on_ioexception m h).
Proof.
  intros Hm Hh s Hs. apply wp_on_ioexception. eapply wp_mono; [by apply Hm|done|].
  intros [] s' Hs'; try done. by apply Hh.
Qed.
Lemma keeps_noexcept I (m : M S unit) : keeps I m -> keeps I (noexcept m).
Proof. intros Hm s Hs. specialize (Hm s Hs). unfold wp, noexcept in *. by destruct (m s) as [[] ?]. Qed.
(** Narrowing the invariant to the states at hand. *)
Lemma keeps_pre {A} I (m : M S A) (P : Prop) :
  (forall s, I s -> P) -> (P -> keeps I m) -> keeps I m.
Proof. intros HP Hm s Hs. by apply Hm; [eapply HP|]. Qed.
End keeps.

(** [stays I m]: if [m] returns or throws, it ends in [I]; nothing is said of
    the other outcomes, which [keeps] rules out. *)
Definition stays {S A} (I : S -> Prop) (m : M S A) : Prop :=
  forall s, I s -> match m s with (Ok _, s') | (Throw _, s') => I s' | _ => True end.

Section stays.
Context {S : Type}.
Implicit Types (I : S -> Prop).

Lemma wp_stays {A} I (m : M S A) :
  (forall s, I s -> wp True m (fun _ => I) (fun _ => I) s) -> stays I m.
Proof. intros H s Hs. specialize (H s Hs). unfold wp in H. by destruct (m s) as [[] ?]. Qed.
Lemma stays_ret {A} I (a : A) : stays I (mret a).
Proof. by intros s. Qed.
Lemma stays_throw {A} I e : stays I (throw (A := A) e).
Proof. by intros s. Qed.
Lemma stays_nofuel {A} I : stays I (nofuel (A := A)).
Proof. by intros s. Qed.
Lemma stays_undef {A} I : stays I (undef (A := A)).
Proof. by intros s. Qed.
Lemma stays_gets {A} I (f : S -> A) : stays I (gets f).
Proof. by intros s. Qed.
Lemma stays_modify I (f : S -> S) : (forall s, I s -> I (f s)) -> stays I (modify f).
Proof. intros H s Hs. by apply H. Qed.
Lemma stays_bind {A B} I (m : M S A) (f : A -> M S B) :
  stays I m -> (forall a, stays I (f a)) -> stays I (m ≫= f).
Proof.
  intros Hm Hf s Hs. specialize (Hm s Hs). unfold mbind, M_bind.
  destruct (m s) as [[] s']; try done. by apply Hf.
Qed.
Lemma stays_assoc {A B C} I (m : M S A) (f : A -> M S B) (k : B -> M S C) :
  stays I (m ≫= f) -> (forall b, stays I (k b)) -> stays I (m ≫= (fun a => f a ≫= k)).
Proof.
  intros Hm Hk s Hs. specialize (Hm s Hs). unfold mbind, M_bind in *.
  destruct (m s) as [[a|e| | |] s']; try done.
  destruct (f a s') as [[b|e| | |] s'']; try done. by apply Hk.
Qed.
Lemma stays_when I b (m : M S unit) : (b = true -> stays I m) -> stays I (when b m).
Proof. destruct b; intros H; [by apply H|apply stays_ret]. Qed.
Lemma stays_for_each {A} I (f : A -> M S unit) xs :
  (forall x, x ∈ xs -> stays I (f x)) -> stays I (for_each f xs).
Proof.
  induction xs as [|x xs IH]; intros H; simpl; [apply stays_ret|].
  apply stays_bind; [|intros _]; [apply H|apply IH; intros; apply H]; set_solver.
Qed.
Lemma stays_on_pure {X A} `{Has X S} I (f : X -> A * X) :
  (forall x s, I s -> I (put x s)) -> stays I (on_pure f).
Proof. intros Hp s Hs. unfold on_pure. destruct (f (the s)). by apply Hp. Qed.
Lemma stays_on {X A} `{Has X S} I (f : X -> outcome A * X) :
  (forall x s, I s -> I (put x s)) -> stays I (on f).
Proof. intros Hp s Hs. unfold on. destruct (f (the s)) as [[] ?]; try done; by apply Hp. Qed.
Lemma stays_lift {A} I (o : outcome A) : stays I (lift_outcome o).
Proof. intros s Hs. unfold lift_outcome. by destruct o. Qed.
Lemma stays_on_ioexception {A} I (m : M S A) (h : M S unit) :
  stays I m -> stays I h -> stays I (on_ioexception m h).
Proof.
  intros Hm Hh s Hs. specialize (Hm s Hs). unfold on_ioexception, mbind, M_bind, throw.
  destruct (m s) as [[a|[]| | |] s1]; try done. specialize (Hh s1 Hm).
  by destruct (h s1) as [[] s2].
Qed.
Lemma stays_with_lock {A} I (mx : Mutex S) (m : M S A) :
  (forall b s, I s -> I (set_held b s)) -> stays I m -> stays I (with_lock mx m).
Proof.
  intros Hset Hm s Hs. unfold with_lock. destruct (held s); [done|].
  specialize (Hm (set_held true s) (Hset _ _ Hs)).
  destruct (m (set_held true s)) as [[] ?]; try done; by apply Hset.
Qed.
Lemma stays_and {A} I J (m : M S A) :
  stays I m -> stays J m -> stays (fun s => I s /\ J s) m.
Proof.
  intros H1 H2 s [Hs1 Hs2]. specialize (H1 s Hs1). specialize (H2 s Hs2).
  by destruct (m s) as [[] ?].
Qed.
End stays.

(** One syntax-directed step of a [stays] proof. *)
Ltac stays_step :=
  lazymatch goal with
  | |- stays _ (mret _) => apply stays_ret
  | |- stays _ (throw _) => apply stays_throw
  | |- stays _ nofuel => apply stays_nofuel
  | |- stays _ undef => apply stays_undef
  | |- stays _ (gets _) => apply stays_gets
  | |- stays _ (modify _) => apply stays_modify; intros; done
  | |- stays _ (mbind _ _) => apply stays_bind; [|intros]
  | |- stays _ (when _ _) => apply stays_when; intros
  | |- stays _ (for_each _ _) => apply stays_for_each; intros
  | |- stays _ (on_pure _) => apply stays_on_pure; intros; done
  | |- stays _ (on _) => apply stays_on; intros; done
  | |- stays _ (lift_outcome _) => apply stays_lift
  | |- stays _ (on_ioexception _ _) => apply stays_on_ioexception
  | |- stays _ (with_lock _ _) => apply stays_with_lock; [intros; done|]
  | |- stays _ (if ?b then _ else _) => destruct b
  | |- stays _ (match ?x with _ => _ end) => destruct x
  end.

(** [moves R m]: when [m] returns or throws, its state has moved along [R]. *)
Definition moves {S A} (R : S -> S -> Prop) (m : M S A) : Prop :=
  forall s, match m s with (Ok _, s') | (Throw _, s') => R s s' | _ => True end.

Section moves.
Context {S : Type} (R : S -> S -> Prop) {HR : PreOrder R}.

Lemma moves_ok {A} (m : M S A) s a s' : moves R m -> m s = (Ok a, s') -> R s s'.
Proof. intros Hm Hrun. specialize (Hm s). by rewrite Hrun in Hm. Qed.
Lemma moves_stays {A} I (m : M S A) :
  (forall s s', R s s' -> I s -> I s') -> moves R m -> stays I m.
Proof. intros HI Hm s Hs. specialize (Hm s). destruct (m s) as [[] ?]; eauto. Qed.
Lemma moves_ret {A} (a : A) : moves R (mret a).
Proof. intros s. change (R s s). done. Qed.
Lemma moves_throw {A} e : moves R (throw (A := A) e).
Proof. intros s. change (R s s). done. Qed.
Lemma moves_nofuel {A} : moves R (nofuel (A := A)).
Proof. by intros s. Qed.
Lemma moves_undef {A} : moves R (undef (A := A)).
Proof. by intros s. Qed.
Lemma moves_gets {A} (f : S -> A) : moves R (gets f).
Proof. intros s. change (R s s). done. Qed.
Lemma moves_modify (f : S -> S) : (forall s, R s (f s)) -> moves R (modify f).
Proof. intros H s. apply H. Qed.
Lemma moves_bind {A B} (m : M S A) (f : A -> M S B) :
  moves R m -> (forall a, moves R (f a)) -> moves R (m ≫= f).
Proof.
  intros Hm Hf s. specialize (Hm s). unfold mbind, M_bind.
  destruct (m s) as [[a|e| | |] s1]; try done. specialize (Hf a s1).
  destruct (f a s1) as [[b|e| | |] s2]; try done; by etrans.
Qed.
Lemma moves_when b (m : M S unit) : (b = true -> moves R m) -> moves R (when b m).
Proof. destruct b; intros H; [by apply H|apply moves_ret]. Qed.
Lemma moves_for_each {A} (f : A -> M S unit) xs :
  (forall x, moves R (f x)) -> moves R (for_each f xs).
Proof.
  intros H. induction xs as [|x xs IH]; simpl; [apply moves_ret|]. by apply moves_bind.
Qed.
Lemma moves_on_pure {X A} `{Has X S} (f : X -> A * X) :
  (forall x s, R s (put x s)) -> moves R (on_pure f).
Proof. intros Hp s. unfold on_pure. destruct (f (the s)). apply Hp. Qed.
Lemma moves_on {X A} `{Has X S} (f : X -> outcome A * X) :
  (forall x s, R s (put x s)) -> moves R (on f).
Proof. intros Hp s. unfold on. destruct (f (the s)) as [[] ?]; done. Qed.
Lemma moves_lift {A} (o : outcome A) : moves R (lift_outcome o).
Proof. intros s. unfold lift_outcome. by destruct o. Qed.
Lemma moves_on_ioexception {A} (m : M S A) (h : M S unit) :
  moves R m -> moves R h -> moves R (on_ioexception m h).
Proof.
  intros Hm Hh s. specialize (Hm s). unfold on_ioexception, mbind, M_bind, throw.
  destruct (m s) as [[a|[]| | |] s1]; try done. specialize (Hh s1).
  destruct (h s1) as [[] s2]; try done; by etrans.
Qed.
End moves.

Lemma moves_mono {S A} (R R' : S -> S -> Prop) (m : M S A) :
  (forall s s', R s s' -> R' s s') -> moves R m -> moves R' m.
Proof. intros HR Hm s. specialize (Hm s). destruct (m s) as [[] ?]; auto. Qed.

(** One syntax-directed step of a [moves] proof. *)
Ltac moves_step :=
  lazymatch goal with
  | |- moves _ (mret _) => apply moves_ret; typeclasses eauto
  | |- moves _ (throw _) => apply moves_throw; typeclasses eauto
  | |- moves _ nofuel => apply moves_nofuel
  | |- moves _ undef => apply moves_undef
  | |- moves _ (gets _) => apply moves_gets; typeclasses eauto
  | |- moves _ (modify _) => apply moves_modify; intros
  | |- moves _ (mbind _ _) => apply moves_bind; [typeclasses eauto| |intros]
  | |- moves _ (when _ _) => apply moves_when; [typeclasses eauto|intros]
  | |- moves _ (for_each _ _) => apply moves_for_each; [typeclasses eauto|intros]
  | |- moves _ (on_pure _) => apply moves_on_pure; intros
  | |- moves _ (on _) => apply moves_on; intros
  | |- moves _ (lift_outcome _) => apply moves_lift; typeclasses eauto
  | |- moves _ (on_ioexception _ _) => apply moves_on_ioexception; [typeclasses eauto|..]
  | |- moves _ (if ?b then _ else _) => destruct b
  | |- moves _ (match ?x with _ => _ end) => destruct x
  end.

(** [blind g m]: [m] neither looks at nor changes what [g] changes. *)
Definition blind {S A} (g : S -> S) (m : M S A) : Prop :=
  forall s, m (g s) = let '(o, s') := m s in (o, g s').

Section blind.
Context {S : Type} (g : S -> S).

Lemma blind_ret {A} (a : A) : blind g (mret a).
Proof. by intros s. Qed.
Lemma blind_throw {A} e : blind g (throw (A := A) e).
Proof. by intros s. Qed.
Lemma blind_nofuel {A} : blind g (nofuel (A := A)).
Proof. by intros s. Qed.
Lemma blind_undef {A} : blind g (undef (A := A)).
Proof. by intros s. Qed.
Lemma blind_lift {A} (o : outcome A) : blind g (lift_outcome o).
Proof. by intros s. Qed.
Lemma blind_gets {A} (f : S -> A) : (forall s, f (g s) = f s) -> blind g (gets f).
Proof. intros Hf s. unfold gets. by rewrite Hf. Qed.
Lemma blind_modify (f : S -> S) : (forall s, f (g s) = g (f s)) -> blind g (modify f).
Proof. intros Hf s. unfold modify. by rewrite Hf. Qed.
Lemma blind_bind {A B} (m : M S A) (f : A -> M S B) :
  blind g m -> (forall a, blind g (f a)) -> blind g (m ≫= f).
Proof.
  intros Hm Hf s. unfold mbind, M_bind. rewrite Hm.
  destruct (m s) as [[a|e| | |] s1]; try done. apply Hf.
Qed.
Lemma blind_on {X A} `{Has X S} (f : X -> outcome A * X) :
  (forall s, the (g s) = the s) -> (forall x s, put x (g s) = g (put x s)) -> blind g (on f).
Proof. intros H1 H2 s. unfold on. rewrite H1. destruct (f (the s)) as [o x]. by rewrite H2. Qed.
Lemma blind_on_pure {X A} `{Has X S} (f : X -> A * X) :
  (forall s, the (g s) = the s) -> (forall x s, put x (g s) = g (put x s)) -> blind g (on_pure f).
Proof. intros H1 H2 s. unfold on_pure. rewrite H1. destruct (f (the s)) as [o x]. by rewrite H2. Qed.
End blind.

(** One syntax-directed step of a [blind] proof. *)
Ltac blind_step :=
  lazymatch goal with
  | |- blind _ (mret _) => apply blind_ret
  | |- blind _ (throw _) => apply blind_throw
  | |- blind _ nofuel => apply blind_nofuel
  | |- blind _ undef => apply blind_undef
  | |- blind _ (lift_outcome _) => apply blind_lift
  | |- blind _ (gets _) => apply blind_gets; intros
  | |- blind _ (modify _) => apply blind_modify; intros
  | |- blind _ (mbind _ _) => apply blind_bind; [|intros]
  | |- blind _ (on _) => apply blind_on; intros
  | |- blind _ (on_pure _) => apply blind_on_pure; intros
  | |- blind _ (if ?b then _ else _) => destruct b
  | |- blind _ (match ?x with _ => _ end) => destruct x
  end.

#[export] Hint Resolve wp_ret wp_throw wp_gets wp_modify : cog.

(** One symbolic step of a straight-line operation, chosen by the head of the
    operation. *)
Ltac wp_step :=
  lazymatch goal with
  | |- wp _ (mret _) _ _ _ => apply wp_ret
  | |- wp _ (throw _) _ _ _ => apply wp_throw
  | |- wp _ (gets _) _ _ _ => apply wp_gets
  | |- wp _ (modify _) _ _ _ => apply wp_modify
  | |- wp _ (mbind _ _) _ _ _ => apply wp_bind
  | |- wp _ (when _ _) _ _ _ => apply wp_when; intro
  end.
