(* ===== verification/Threads.v ===== *)
(** * Threads that share an object

    The operations of an object that several threads call at once.  [code] is
    the text of an operation: its actions, in the order of the source, with the
    scopes of its lock guards.  [run] reads it as the operation of one thread
    alone; [flatten] as the sequence of actions, acquisitions and releases a
    thread goes through, between which other threads may run.  A [pool] is the
    shared object with the threads; a [turn] is one action of one thread.

    A thread that throws releases the locks of the guards it leaves, innermost
    first, and is then free for its next call. *)
From S2P Require Import Prelude CxxString Effects.

Section code.
Context {E : Type -> Type} {L : Type}.

(** ** Operations *)

(** [Locked l c] is [{ std::lock_guard lck(l); c }]. *)
Inductive code (A : Type) : Type :=
| Ret (a : A)
| Do (e : E A)
| Bind {B : Type} (c : code B) (k : B -> code A)
| Locked (l : L) (c : code A).

(** What a thread has still to do. *)
Inductive prog : Type :=
| Return
| Act {B : Type} (e : E B) (k : B -> prog)
| Lock (l : L) (k : prog)
| Unlock (l : L) (k : prog).

Fixpoint flatten {A} (c : code A) : (A -> prog) -> prog :=
  match c with
  | Ret _ a => fun k => k a
  | Do _ e => fun k => Act e k
  | Bind _ c f => fun k => flatten c (fun b => flatten (f b) k)
  | Locked _ l c => fun k => Lock l (flatten c (fun a => Unlock l (k a)))
  end.
End code.
Arguments code : clear implicits.
Arguments prog : clear implicits.
Arguments Ret {E L A} a.
Arguments Do {E L A} e.
Arguments Bind {E L A B} c k.
Arguments Locked {E L A} l c.

(** The notations of the monad, for the text of operations. *)
Declare Scope code_scope.
Delimit Scope code_scope with code.
Bind Scope code_scope with code.
Notation "x ← y ; z" := (Bind y (fun x => z)) : code_scope.
Notation "y ;; z" := (Bind y (fun _ => z)) : code_scope.

Definition cwhen {E L} (b : bool) (c : code E L unit) : code E L unit :=
  if b then c else Ret tt.

Fixpoint cfor_each {E L A} (f : A -> code E L unit) (xs : list A) : code E L unit :=
  match xs with
  | [] => Ret tt
  | x :: xs' => Bind (f x) (fun _ => cfor_each f xs')
  end.

(** ** The object

    What its actions do, and what of them is on record; its mutexes; and the
    part of the state that each thread has for itself ([thread_local]). *)
Class Handler (E : Type -> Type) (O S : Type) := {
  interp : forall {B}, E B -> M S B;
  observe : forall {B}, E B -> S -> B -> list O;
}.

Class Locks (L S : Type) := {
  mutex : L -> Mutex S;
  lock_rank : L -> nat;
}.

Class ThreadLocal (T S : Type) := {
  mine : S -> T;
  set_mine : T -> S -> S;
}.

Definition is_held {L S} `{Locks L S} (l : L) (s : S) : bool := @held _ (mutex l) s.
Definition mark {L S} `{Locks L S} (l : L) (b : bool) (s : S) : S := @set_held _ (mutex l) b s.

(** What the actions look at and change of the object, by its parts. *)
Inductive access (X : Type) := Reads (x : X) | Writes (x : X).
Arguments Reads {X} x.
Arguments Writes {X} x.

#[export] Instance access_eq_dec {X} `{!EqDecision X} : EqDecision (access X).
Proof. solve_decision. Defined.

Class Touches (E : Type -> Type) (X : Type) :=
  touched : forall {B}, E B -> list (access X).

(** Two accesses to [x], one of them a write. *)
Definition conflict {X} (x : X) (a b : access X) : Prop :=
  a = Writes x /\ (b = Reads x \/ b = Writes x) \/ a = Reads x /\ b = Writes x.

(** The mutexes are apart from each other, and from the thread-local part. *)
Class LockLaws (L T S : Type) `{Locks L S} `{ThreadLocal T S} : Prop := {
  held_mark : forall l b s, is_held l (mark l b s) = b;
  held_mark_ne : forall l l' b s, l <> l' -> is_held l (mark l' b s) = is_held l s;
  held_mine : forall l t s, is_held l (set_mine t s) = is_held l s;
  mine_mark : forall l b s, mine (mark l b s) = mine s;
  set_mine_mine : forall s, set_mine (mine s) s = s;
  rank_bounded : exists n, forall l, lock_rank l < n;
}.

(** ** One thread alone *)

Section alone.
Context {E : Type -> Type} {L O S : Type} `{HD : Handler E O S} `{LK : Locks L S}.

Fixpoint run {A} (c : code E L A) : M S A :=
  match c with
  | Ret a => mret a
  | Do e => interp e
  | Bind c k => run c ≫= (fun b => run (k b))
  | Locked l c => with_lock (mutex l) (run c)
  end.

(** The guards left by an exception, innermost first. *)
Fixpoint unlock_all (ls : list L) (s : S) : S :=
  match ls with [] => s | l :: ls => unlock_all ls (mark l false s) end.

(** The actions of a thread one after the other, [ls] being the locks held. *)
Fixpoint exec (ls : list L) (p : prog E L) : M S unit := fun s =>
  match p with
  | Return => (Ok tt, s)
  | Act e k =>
      match interp e s with
      | (Ok b, s') => exec ls (k b) s'
      | (Throw x, s') => (Throw x, unlock_all ls s')
      | (Undef, s') => (Undef, unlock_all ls s')
      | (Deadlock, s') => (Deadlock, unlock_all ls s')
      | (NoFuel, s') => (NoFuel, unlock_all ls s')
      end
  | Lock l k => if is_held l s then (Deadlock, unlock_all ls s) else exec (l :: ls) k (mark l true s)
  | Unlock l k => exec (tail ls) k (mark l false s)
  end.

(** Flattening is faithful: undisturbed, the actions of an operation make up
    the operation. *)
Lemma exec_flatten {A} (c : code E L A) : forall ls k s,
  exec ls (flatten c k) s =
  match run c s with
  | (Ok a, s') => exec ls (k a) s'
  | (Throw x, s') => (Throw x, unlock_all ls s')
  | (Undef, s') => (Undef, unlock_all ls s')
  | (Deadlock, s') => (Deadlock, unlock_all ls s')
  | (NoFuel, s') => (NoFuel, unlock_all ls s')
  end.
Proof.
  induction c as [A a|A e|A B c IHc k0 IHk|A l c IH]; intros ls k s; cbn [flatten run exec].
  - done.
  - by destruct (interp e s) as [[] ?].
  - rewrite IHc. unfold mbind, M_bind. destruct (run c s) as [[] ?]; try done.
  - unfold with_lock. fold (is_held l s). destruct (is_held l s); [done|].
    fold (mark l true s). rewrite IH. by destruct (run c (mark l true s)) as [[] ?].
Qed.

Lemma run_when b (c : code E L unit) s : run (cwhen b c) s = when b (run c) s.
Proof. by destruct b. Qed.

Lemma run_for_each {A} (f : A -> code E L unit) (g : A -> M S unit) xs : forall s,
  (forall x s, run (f x) s = g x s) -> run (cfor_each f xs) s = for_each g xs s.
Proof.
  induction xs as [|x xs IH]; intros s Hf; [done|].
  change (run (cfor_each f (x :: xs)) s) with ((run (f x) ≫= (fun _ => run (cfor_each f xs))) s).
  cbn [for_each].
  unfold mbind, M_bind. rewrite Hf. destruct (g x s) as [[] ?]; try done. by apply IH.
Qed.
End alone.

(** ** Many threads *)

Section pool.
Context {E : Type -> Type} {L O T S : Type}.
Context `{HD : Handler E O S} `{LK : Locks L S} `{TL : ThreadLocal T S}.
Abbreviation prog := (prog E L).

Inductive job :=
| Idle
| Running (p : prog)
| Unwinding (e : exn).

Record thread := mkThread {
  own : T;
  holds : list L;        (* innermost guard first *)
  doing : job;
}.

Record pool := mkPool {
  shared : S;
  threads : list thread;
}.

(** One action of a thread, or none: the thread is idle, or waits for a mutex,
    or its action does not come to an end or is undefined. *)
Definition turn (t : thread) (s : S) : option (list O * thread * S) :=
  match t.(doing) with
  | Idle => None
  | Running Return => Some ([], mkThread t.(own) t.(holds) Idle, s)
  | Running (Act e k) =>
      match interp e (set_mine t.(own) s) with
      | (Ok b, s') => Some (observe e s b, mkThread (mine s') t.(holds) (Running (k b)), s')
      | (Throw x, s') => Some ([], mkThread (mine s') t.(holds) (Unwinding x), s')
      | _ => None
      end
  | Running (Lock l k) =>
      if is_held l s then None
      else Some ([], mkThread t.(own) (l :: t.(holds)) (Running k), mark l true s)
  | Running (Unlock l k) =>
      Some ([], mkThread t.(own) (tail t.(holds)) (Running k), mark l false s)
  | Unwinding e =>
      match t.(holds) with
      | [] => Some ([], mkThread t.(own) [] Idle, s)
      | l :: ls => Some ([], mkThread t.(own) ls (Unwinding e), mark l false s)
      end
  end.

Definition tagged (i : nat) (os : list O) : list (nat * O) := map (pair i) os.

Definition take_turn (i : nat) (p : pool) : option (list (nat * O) * pool) :=
  match p.(threads) !! i with
  | Some t =>
      match turn t p.(shared) with
      | Some (os, t', s') => Some (tagged i os, mkPool s' (<[i := t']> p.(threads)))
      | None => None
      end
  | None => None
  end.

(** An idle thread makes a call. *)
Definition call (i : nat) (pr : prog) (p : pool) : option pool :=
  match p.(threads) !! i with
  | Some (mkThread x ls Idle) =>
      Some (mkPool p.(shared) (<[i := mkThread x ls (Running pr)]> p.(threads)))
  | _ => None
  end.

(** [calls s] are the operations the threads may call when the object is in the
    state [s], in any order, the choice depending on anything. *)
Inductive runs (calls : S -> prog -> Prop) (p : pool) : list (nat * O) -> pool -> Prop :=
| runs_start : runs calls p [] p
| runs_turn tr p1 i os p2 :
    runs calls p tr p1 -> take_turn i p1 = Some (os, p2) -> runs calls p (tr ++ os) p2
| runs_call tr p1 i pr p2 :
    runs calls p tr p1 -> calls p1.(shared) pr -> call i pr p1 = Some p2 -> runs calls p tr p2.

(** The same by a list of moves, for the evaluation of examples. *)
Inductive move := Turn (i : nat) | Call (i : nat) (pr : prog).

Fixpoint play (ms : list move) (p : pool) : option (list (nat * O) * pool) :=
  match ms with
  | [] => Some ([], p)
  | Turn i :: ms =>
      match take_turn i p with
      | Some (os, p1) =>
          match play ms p1 with Some (tr, p2) => Some (os ++ tr, p2) | None => None end
      | None => None
      end
  | Call i pr :: ms => match call i pr p with Some p1 => play ms p1 | None => None end
  end.

Definition only (calls : S -> prog -> Prop) (m : move) : Prop :=
  match m with Turn _ => True | Call _ pr => forall s, calls s pr end.

Lemma play_runs calls p0 ms : forall p1 tr0 tr p2,
  Forall (only calls) ms -> runs calls p0 tr0 p1 -> play ms p1 = Some (tr, p2) ->
  runs calls p0 (tr0 ++ tr) p2.
Proof.
  induction ms as [|[i|i pr] ms IH]; intros p1 tr0 tr p2 Hms Hr Hp; cbn [play] in Hp.
  - injection Hp as <- <-. by rewrite app_nil_r.
  - inversion Hms; subst. destruct (take_turn i p1) as [[os q]|] eqn:Ht; [|done].
    destruct (play ms q) as [[tr' q2]|] eqn:Hq; [|done]. injection Hp as <- <-.
    rewrite app_assoc. eapply IH; [done| |exact Hq]. by eapply runs_turn.
  - inversion Hms; subst. destruct (call i pr p1) as [q|] eqn:Hc; [|done].
    eapply IH; [done| |exact Hp]. by eapply runs_call.
Qed.

(** ** Data races

    Two threads race on a part of the object if both access it next, one of them
    to write, with nothing between them that orders the two.  Data races are
    undefined; a run that goes on after one is what a sequentially consistent
    machine does. *)
Definition accesses_next {X} `{Touches E X} (t : thread) : list (access X) :=
  match t.(doing) with Running (Act e _) => touched e | _ => [] end.

Definition race {X} `{Touches E X} (x : X) (p : pool) (i j : nat) : Prop :=
  i <> j /\ exists t u a b, p.(threads) !! i = Some t /\ p.(threads) !! j = Some u /\
    a ∈ accesses_next t /\ b ∈ accesses_next u /\ conflict x a b.

Lemma runs_mono (calls calls' : S -> prog -> Prop) p tr p' :
  (forall s pr, calls s pr -> calls' s pr) -> runs calls p tr p' -> runs calls' p tr p'.
Proof.
  intros Hc. induction 1; [apply runs_start|by eapply runs_turn|by eapply runs_call; [|apply Hc|]].
Qed.

(** The turns alone, without new calls. *)
Definition some_turn (p p' : pool) : Prop := exists i os, take_turn i p = Some (os, p').

Lemma runs_turns calls p tr p1 p2 :
  runs calls p tr p1 -> rtc some_turn p1 p2 -> exists tr', runs calls p tr' p2.
Proof.
  intros Hr Hs. revert tr Hr. induction Hs as [q|q1 q2 q3 (i & os & Ht) _ IH]; intros tr Hr; [eauto|].
  eapply IH, runs_turn; done.
Qed.

Lemma take_turn_inv i p os p' :
  take_turn i p = Some (os, p') ->
  exists t os' t' s', p.(threads) !! i = Some t /\ turn t p.(shared) = Some (os', t', s') /\
    os = tagged i os' /\ p' = mkPool s' (<[i := t']> p.(threads)).
Proof.
  unfold take_turn. destruct (threads p !! i) as [t|] eqn:Ht; [|done].
  destruct (turn t (shared p)) as [[[os' t'] s']|] eqn:Hu; [|done]. intros [= <- <-]. eauto 10.
Qed.

Lemma call_inv i pr p p' :
  call i pr p = Some p' ->
  exists t, p.(threads) !! i = Some t /\ t.(doing) = Idle /\
    p' = mkPool p.(shared) (<[i := mkThread t.(own) t.(holds) (Running pr)]> p.(threads)).
Proof.
  unfold call. destruct (threads p !! i) as [[x ls []]|] eqn:Ht; try done.
  intros [= <-]. by exists (mkThread x ls Idle).
Qed.
End pool.
Arguments job : clear implicits.
Arguments thread : clear implicits.
Arguments pool : clear implicits.
Arguments move : clear implicits.

(** ** The discipline of locks

    [ordered ls p]: a thread that holds [ls] and goes on with [p] takes every
    further lock above the ones it holds, releases the innermost first, ends
    with none, and its actions leave the mutexes alone. *)
Section discipline.
Context {E : Type -> Type} {L O T S : Type}.
Context `{HD : Handler E O S} `{LK : Locks L S} `{TL : ThreadLocal T S} `{LL : !LockLaws L T S} `{!EqDecision L}.
Abbreviation prog := (prog E L).
Abbreviation thread := (thread E L T).
Abbreviation pool := (pool E L T S).

Definition same_locks (s s' : S) : Prop := forall l, is_held l s' = is_held l s.

#[export] Instance same_locks_order : PreOrder same_locks.
Proof. split; [by intros s l|]. intros s1 s2 s3 H1 H2 l. by rewrite H2, H1. Qed.

Definition outranks (l : L) (ls : list L) : Prop := forall l', l' ∈ ls -> lock_rank l' < lock_rank l.

Fixpoint ordered (ls : list L) (p : prog) : Prop :=
  match p with
  | Return => ls = []
  | Act e k => moves same_locks (interp e) /\ forall b, ordered ls (k b)
  | Lock l k => outranks l ls /\ ordered (l :: ls) k
  | Unlock l k => (exists ls', ls = l :: ls') /\ ordered (tail ls) k
  end.

(** [thread_ok]: a thread holds each lock once, and follows the discipline. *)
Definition thread_ok (t : thread) : Prop :=
  NoDup t.(holds) /\
  match t.(doing) with
  | Idle => t.(holds) = []
  | Running p => ordered t.(holds) p
  | Unwinding _ => True
  end.

Definition has_lock (p : pool) (i : nat) (l : L) : Prop :=
  exists t, p.(threads) !! i = Some t /\ l ∈ t.(holds).

(** A mutex is held exactly if a thread holds it, and by one thread. *)
Definition exclusive (p : pool) : Prop :=
  (forall i j l, has_lock p i l -> has_lock p j l -> i = j) /\
  (forall l, is_held l p.(shared) = true <-> exists i, has_lock p i l).

Definition locks_ok (p : pool) : Prop :=
  (forall i t, p.(threads) !! i = Some t -> thread_ok t) /\ exclusive p.

Lemma outranks_fresh l ls : outranks l ls -> l ∉ ls.
Proof. intros Ha Hl. apply Ha in Hl. lia. Qed.

Lemma has_lock_insert (p : pool) s i t t' j l :
  p.(threads) !! i = Some t ->
  has_lock (mkPool s (<[i := t']> p.(threads))) j l <->
  (if decide (j = i) then l ∈ t'.(holds) else has_lock p j l).
Proof.
  intros Hi. unfold has_lock. cbn [threads].
  assert (i < length p.(threads)) as Hlt by (by eapply lookup_lt_Some).
  destruct (decide (j = i)) as [->|Hne].
  - rewrite list_lookup_insert_eq by done. split; [by intros (? & [= <-] & ?)|eauto].
  - by rewrite list_lookup_insert_ne by done.
Qed.

(** What a turn does to the locks: nothing, one is taken, or one given back. *)
Inductive lock_change (s : S) : list L -> list L -> S -> Prop :=
| change_none ls s' : (forall l, is_held l s' = is_held l s) -> lock_change s ls ls s'
| change_take ls l : is_held l s = false -> lock_change s ls (l :: ls) (mark l true s)
| change_give ls l : lock_change s (l :: ls) ls (mark l false s).

Lemma act_change {B} (e : E B) x ls s o s' :
  moves same_locks (interp e) -> interp e (set_mine x s) = (o, s') ->
  match o with Ok _ | Throw _ => True | _ => False end -> lock_change s ls ls s'.
Proof.
  intros Hm H Ho. apply change_none. intros l. rewrite <- (held_mine l x s).
  specialize (Hm (set_mine x s)). rewrite H in Hm. by destruct o; try apply Hm.
Qed.

Lemma turn_change t s os t' s' :
  thread_ok t -> turn t s = Some (os, t', s') ->
  lock_change s t.(holds) t'.(holds) s' /\ thread_ok t'.
Proof.
  intros [Hnd Ht] Hu. destruct t as [x ls [|[|B e k|l k|l k]|e]]; cbn in *; try done.
  - injection Hu as <- <- <-. by split; [apply change_none|].
  - destruct (interp e (set_mine x s)) as [[b|y| | |] s1] eqn:Hi; try done;
      injection Hu as <- <- <-; destruct Ht as [Hm Ht];
      (split; [by eapply act_change|]); by split; [|try apply Ht].
  - destruct (is_held l s) eqn:Hl; [done|]. injection Hu as <- <- <-. destruct Ht as [Ha Ho].
    split; [by apply change_take|]. split; [|done]. constructor; [by apply outranks_fresh|done].
  - injection Hu as <- <- <-. destruct Ht as [[ls' ->] Ho]. apply NoDup_cons in Hnd as [_ Hnd].
    by split; [apply change_give|].
  - destruct ls as [|l ls]; injection Hu as <- <- <-; [by split; [apply change_none|]|].
    apply NoDup_cons in Hnd as [_ Hnd]. by split; [apply change_give|].
Qed.

Lemma has_lock_other (p : pool) s i t t' j l :
  p.(threads) !! i = Some t -> j <> i ->
  has_lock (mkPool s (<[i := t']> p.(threads))) j l <-> has_lock p j l.
Proof. intros Hi Hne. rewrite has_lock_insert by done. by rewrite decide_False. Qed.

Lemma has_lock_this (p : pool) s i t t' l :
  p.(threads) !! i = Some t ->
  has_lock (mkPool s (<[i := t']> p.(threads))) i l <-> l ∈ t'.(holds).
Proof. intros Hi. rewrite has_lock_insert by done. by rewrite decide_True. Qed.

(** The same for one lock. *)
Inductive moved (l : L) (s : S) (ls ls' : list L) (s' : S) : Prop :=
| moved_not : is_held l s' = is_held l s -> (l ∈ ls' <-> l ∈ ls) -> moved l s ls ls' s'
| moved_in : is_held l s = false -> is_held l s' = true -> l ∈ ls' -> moved l s ls ls' s'
| moved_out : l ∈ ls -> l ∉ ls' -> is_held l s' = false -> moved l s ls ls' s'.

Lemma change_moved l s ls ls' s' : NoDup ls -> lock_change s ls ls' s' -> moved l s ls ls' s'.
Proof.
  intros Hnd Hc. revert Hnd. destruct Hc as [ls s0 H|ls l0 H|ls l0]; intros Hnd; [by apply moved_not|..];
    destruct (decide (l = l0)) as [->|Hne].
  - apply moved_in; [done|apply held_mark|left].
  - apply moved_not; [by apply held_mark_ne|]. by rewrite elem_of_cons; intuition.
  - apply NoDup_cons in Hnd as [Hn _]. apply moved_out; [left|done|apply held_mark].
  - apply moved_not; [by apply held_mark_ne|]. by rewrite elem_of_cons; intuition.
Qed.

Lemma exclusive_change (p : pool) i t t' s' :
  exclusive p -> p.(threads) !! i = Some t -> NoDup t.(holds) ->
  lock_change p.(shared) t.(holds) t'.(holds) s' ->
  exclusive (mkPool s' (<[i := t']> p.(threads))).
Proof.
  intros [Hu Hh] Hi Hnd Hc.
  assert (forall l, has_lock p i l <-> l ∈ t.(holds)) as Hown.
  { intros l. split; [by intros (? & [= <-]%(eq_trans (eq_sym Hi)) & ?)|by exists t]. }
  split.
  - assert (forall j l, j <> i -> l ∈ t'.(holds) -> has_lock p j l -> False) as Hx.
    { intros j l Hj Hl Hp. destruct (change_moved l _ _ _ _ Hnd Hc) as [_ Ho|Hf _ _|_ Hn _]; [|..|done].
      - by apply Hj, (Hu _ _ l), Hown, Ho.
      - assert (is_held l p.(shared) = true) by (apply Hh; eauto). congruence. }
    intros j k l. rewrite !(has_lock_insert p s' i t t') by done.
    destruct (decide (j = i)) as [->|], (decide (k = i)) as [->|]; intros H1 H2; try done.
    + by destruct (Hx k l).
    + by destruct (Hx j l).
    + by apply (Hu j k l).
  - intros l. cbn [shared]. destruct (change_moved l _ _ _ _ Hnd Hc) as [Hs Ho|_ Hs Hl|Hl Hn Hs]; rewrite Hs.
    + rewrite Hh. apply exist_proper. intros j. rewrite (has_lock_insert p s' i t t') by done.
      destruct (decide (j = i)) as [->|]; [|done]. by rewrite Hown, Ho.
    + split; [|done]. intros _. exists i. by apply (has_lock_this p s' i t).
    + split; [done|]. intros [j Hj]. rewrite (has_lock_insert p s' i t t') in Hj by done.
      destruct (decide (j = i)) as [->|Hne]; [done|]. destruct Hne. by apply (Hu _ _ l), Hown.
Qed.

Lemma locks_insert (p : pool) i t t' s' :
  locks_ok p -> p.(threads) !! i = Some t -> thread_ok t' ->
  lock_change p.(shared) t.(holds) t'.(holds) s' ->
  locks_ok (mkPool s' (<[i := t']> p.(threads))).
Proof.
  intros [Ht He] Hi Ht' Hc. split; [|eapply exclusive_change; [done..|by apply (Ht i)|done]].
  intros j u. cbn [threads]. rewrite list_lookup_insert_Some. intros [(-> & -> & _)|[_ Hj]]; [done|].
  by apply (Ht j).
Qed.

Lemma locks_turn i (p : pool) os p' : locks_ok p -> take_turn i p = Some (os, p') -> locks_ok p'.
Proof.
  intros Hp (t & os' & t' & s' & Hi & Hu & _ & ->)%take_turn_inv.
  destruct (turn_change _ _ _ _ _ (proj1 Hp i t Hi) Hu) as [Hc Ht']. by eapply locks_insert.
Qed.

Lemma locks_call i pr (p p' : pool) :
  locks_ok p -> ordered [] pr -> call i pr p = Some p' -> locks_ok p'.
Proof.
  intros Hp Hpr (t & Hi & Hd & ->)%call_inv. pose proof (proj1 Hp i t Hi) as [Hnd Ht].
  rewrite Hd in Ht. apply (locks_insert p i t); [done|done| |by apply change_none].
  split; cbn; rewrite Ht; [constructor|done].
Qed.

(** Any number of threads, in any order. *)
Lemma locks_run (calls : S -> prog -> Prop) (p : pool) tr p' :
  (forall s pr, calls s pr -> ordered [] pr) -> locks_ok p -> runs calls p tr p' -> locks_ok p'.
Proof.
  intros Hc Hp. induction 1; [done|by eapply locks_turn|by eapply locks_call; [|eapply Hc|]].
Qed.

(** ** No deadlock *)

(** A thread that has something to do, whose next action is an action of the
    object that does not end or is undefined. *)
Definition misbehaves (t : thread) (s : S) : Prop :=
  match t.(doing) with
  | Running (Act e k) =>
      match (interp e (set_mine t.(own) s)).1 with Ok _ | Throw _ => False | _ => True end
  | _ => False
  end.

Lemma turn_none t s :
  turn t s = None ->
  t.(doing) = Idle \/ misbehaves t s \/
  exists l k, t.(doing) = Running (Lock l k) /\ is_held l s = true.
Proof.
  unfold turn, misbehaves. destruct t as [x ls [|[|B e k|l k|l k]|e]]; cbn; try done.
  - by left.
  - destruct (interp e (set_mine x s)) as [[] ?]; try done; by right; left.
  - destruct (is_held l s) eqn:Hl; [|done]. right; right. eauto.
  - by destruct ls.
Qed.

Definition stuck (p : pool) : Prop := forall i, take_turn i p = None.

Lemma stuck_turn (p : pool) i t : stuck p -> p.(threads) !! i = Some t -> turn t p.(shared) = None.
Proof.
  intros Hs Hi. specialize (Hs i). unfold take_turn in Hs. rewrite Hi in Hs.
  by destruct (turn t (shared p)) as [[[? ?] ?]|].
Qed.

(** A thread that waits for a lock waits for one that waits for a higher lock,
    and the ranks are bounded. *)
Lemma no_wait (p : pool) :
  locks_ok p -> stuck p ->
  (forall i t, p.(threads) !! i = Some t -> ~ misbehaves t p.(shared)) ->
  forall n i t l k, p.(threads) !! i = Some t -> t.(doing) = Running (Lock l k) ->
    (forall l', lock_rank l' < lock_rank l + n) -> is_held l p.(shared) = true -> False.
Proof.
  intros [Hok [_ Hh]] Hs Hm. induction n as [|n IH]; intros i t l k Hi Hd Hn Hl.
  { specialize (Hn l). lia. }
  apply Hh in Hl as (j & u & Hj & Hl). destruct (Hok j u Hj) as [_ Hu].
  destruct (turn_none _ _ (stuck_turn p j u Hs Hj)) as [Hd'|[Hm'|(l' & k' & Hd' & Hl')]].
  - rewrite Hd' in Hu. rewrite Hu in Hl. by apply elem_of_nil in Hl.
  - by destruct (Hm j u Hj).
  - rewrite Hd' in Hu. destruct Hu as [Ha _]. apply Ha in Hl.
    apply (IH j u l' k' Hj Hd'); [|done]. intros l0. specialize (Hn l0). lia.
Qed.

#[export] Instance misbehaves_dec t s : Decision (misbehaves t s).
Proof.
  unfold misbehaves. destruct (doing t) as [|[|B e k|l k|l k]|]; try exact False_dec.
  destruct (interp e (set_mine (own t) s)).1; solve [exact True_dec | exact False_dec].
Defined.

Lemma no_deadlock (p : pool) :
  locks_ok p -> stuck p ->
  (forall i t, p.(threads) !! i = Some t -> t.(doing) = Idle) \/
  exists i t, p.(threads) !! i = Some t /\ misbehaves t p.(shared).
Proof.
  intros Hok Hs. destruct (decide (Exists (fun t => misbehaves t p.(shared)) p.(threads))) as [Hm|Hm].
  { right. apply Exists_exists in Hm as (t & [i Hi]%list_elem_of_lookup & Hm). eauto. }
  left. intros i t Hi.
  assert (forall j u, p.(threads) !! j = Some u -> ~ misbehaves u p.(shared)) as Hn.
  { intros j u Hj Hu. apply Hm, Exists_exists. exists u. by split; [eapply list_elem_of_lookup_2|]. }
  destruct (turn_none _ _ (stuck_turn p i t Hs Hi)) as [Hd|[Hm'|(l & k & Hd & Hl)]]; [done|..].
  - by destruct (Hn i t Hi).
  - destruct rank_bounded as [n Hb]. edestruct (no_wait p Hok Hs Hn n i t l k); [done..| |done].
    intros l'. specialize (Hb l'). lia.
Qed.

(** ** Every call comes to an end *)

(** A turn takes a thread nearer to its end. *)
Definition turned (t' t : thread) : Prop := exists s os s', turn t s = Some (os, t', s').

Lemma idle_acc x ls : Acc turned (mkThread x ls Idle).
Proof. constructor. by intros t' (s & os & s' & Hu). Qed.

Lemma unwinding_acc e ls : forall x, Acc turned (mkThread x ls (Unwinding e)).
Proof.
  induction ls as [|l ls IH]; intros x; constructor; intros t' (s & os & s' & Hu); injection Hu as _ <- _;
    [apply idle_acc|apply IH].
Qed.

Lemma running_acc p : forall x ls, Acc turned (mkThread x ls (Running p)).
Proof.
  induction p as [|B e k IH|l k IH|l k IH]; intros x ls; constructor; intros t' (s & os & s' & Hu);
    cbn in Hu.
  - injection Hu as _ <- _. apply idle_acc.
  - destruct (interp e (set_mine x s)) as [[b|y| | |] s1]; try discriminate Hu;
      injection Hu as _ <- _; [apply IH|apply unwinding_acc].
  - destruct (is_held l s); [discriminate Hu|]. injection Hu as _ <- _. apply IH.
  - injection Hu as _ <- _. apply IH.
Qed.

Lemma thread_acc t : Acc turned t.
Proof. destruct t as [x ls [|p|e]]; [apply idle_acc|apply running_acc|apply unwinding_acc]. Qed.

(** One thread of a list takes a turn. *)
Definition one_turned (ts' ts : list thread) : Prop :=
  exists i t t', ts !! i = Some t /\ turned t' t /\ ts' = <[i := t']> ts.

Lemma one_turned_acc ts : Acc one_turned ts.
Proof.
  induction ts as [|t ts IH]; [constructor; intros ts' (i & t & t' & Hi & _); done|].
  revert ts IH. induction (thread_acc t) as [t _ IHt]. intros ts IHts.
  induction IHts as [ts Hts IHts]. constructor. intros ts' ([|i] & u & u' & Hi & Hu & ->).
  - injection Hi as ->. apply IHt; [done|]. by constructor.
  - apply IHts. by exists i, u, u'.
Qed.

Lemma turns_end (p : pool) : Acc (fun p' p : pool => some_turn p p') p.
Proof.
  destruct p as [s ts]. revert s. induction (one_turned_acc ts) as [ts _ IH]. intros s.
  constructor. intros p' (i & os & (t & os' & t' & s' & Hi & Hu & _ & ->)%take_turn_inv).
  apply IH. exists i, t, t'. split_and!; [done|by exists s, os', s'|done].
Qed.

(** ** A thread that is not disturbed *)

Definition alone (s : S) (ls : list L) (j : job E L) : pool := mkPool s [mkThread (mine s) ls j].

Lemma alone_turn s ls j os ls' j' s' :
  turn (mkThread (mine s) ls j) s = Some (os, mkThread (mine s') ls' j', s') ->
  some_turn (alone s ls j) (alone s' ls' j').
Proof. intros Hu. exists 0, (tagged 0 os). unfold take_turn, alone. cbn [threads lookup list_lookup shared]. by rewrite Hu. Qed.

Lemma unwind_alone e ls : forall s,
  rtc some_turn (alone s ls (Unwinding e)) (alone (unlock_all ls s) [] Idle).
Proof.
  induction ls as [|l ls IH]; intros s; [by eapply rtc_once, alone_turn|].
  eapply rtc_l; [|apply IH]. eapply alone_turn. cbn. by rewrite mine_mark.
Qed.

Lemma exec_alone p : forall ls s o s',
  ordered ls p -> exec ls p s = (o, s') -> match o with Ok _ | Throw _ => True | _ => False end ->
  rtc some_turn (alone s ls (Running p)) (alone s' [] Idle).
Proof.
  induction p as [|B e k IH|l k IH|l k IH]; intros ls s o s' Hord Hx Ho; cbn [exec ordered] in Hx, Hord.
  - injection Hx as _ <-. rewrite Hord. by eapply rtc_once, alone_turn.
  - destruct Hord as [_ Hord]. destruct (interp e s) as [[b|x| | |] s1] eqn:Hi;
      try (injection Hx as <- <-); try by destruct Ho.
    + eapply rtc_l; [|by eapply IH]. eapply alone_turn. cbn. by rewrite set_mine_mine, Hi.
    + eapply rtc_l; [|apply unwind_alone]. eapply alone_turn. cbn. by rewrite set_mine_mine, Hi.
  - destruct Hord as [_ Hord]. destruct (is_held l s) eqn:Hl; [injection Hx as <- <-; by destruct Ho|].
    eapply rtc_l; [|by eapply IH]. eapply alone_turn. cbn. by rewrite Hl, mine_mark.
  - destruct Hord as [_ Hord]. eapply rtc_l; [|by eapply IH]. eapply alone_turn. cbn. by rewrite mine_mark.
Qed.
End discipline.
