(* ===== verification/Sockets.v ===== *)
(** * The operating system's sockets

    The socket calls the clients make ([getaddrinfo], [socket], [connect],
    [setsockopt], [send], [recv], [close]) are not part of this repository:
    they are the operations of a class over an abstract state [World], which
    holds the kernel, the network and the CogServer at its other end, and what
    C++ leaves to its implementation.  The one law of the class bounds what
    [recv] may return. *)
From S2P Require Import Prelude Effects.

(** What [recv] reports: an error, the end of the stream, or some bytes. *)
Inductive recv_result :=
| RecvError
| RecvEof
| RecvData (d : str).

Inductive sockopt := TCP_NODELAY | TCP_QUICKACK.

Class Sockets (World : Type) := {
  (** an entry of the list [getaddrinfo] returns *)
  addrinfo : Type;
  sys_getaddrinfo : str -> str -> World -> (Z * list addrinfo) * World;
  sys_freeaddrinfo : list addrinfo -> World -> World;
  sys_socket : addrinfo -> World -> Z * World;
  sys_connect : Z -> addrinfo -> World -> Z * World;
  sys_setsockopt : Z -> sockopt -> World -> Z * World;
  (** descriptor, bytes, [MSG_NOSIGNAL] *)
  sys_send : Z -> str -> bool -> World -> Z * World;
  (** descriptor, size of the buffer *)
  sys_recv : Z -> nat -> World -> recv_result * World;
  sys_close : Z -> World -> World;
  sys_errno : World -> Z;
  strerror : Z -> str;
  (** is the left operand of [|] evaluated first this time? *)
  left_first : World -> bool;

  (** [recv] writes at least one byte and at most the buffer's size. *)
  sys_recv_bound : forall fd n w d w',
    sys_recv fd n w = (RecvData d, w') -> 1 <= length d <= n;
}.

(** [recvs fd n w cs w']: successive calls of [recv] on [fd] return the chunks
    [cs], taking the world from [w] to [w']. *)
Inductive recvs `{Sockets World} (fd : Z) (n : nat) : World -> list str -> World -> Prop :=
| recvs_nil w : recvs fd n w [] w
| recvs_cons w d w1 ds w2 :
    sys_recv fd n w = (RecvData d, w1) -> recvs fd n w1 ds w2 ->
    recvs fd n w (d :: ds) w2.

#[export] Hint Constructors recvs : cog.
