(* ===== verification/RecvBuf.v ===== *)
(** * Reading a reply from the socket

    The body of [do_recv], which the two clients share up to the size of the
    buffer: the pointer code that removes the "synchronous idle" bytes around a
    chunk, and the loop that collects chunks until one ends in a newline.  The
    buffer is an array whose reads are checked, so that an access outside it is
    undefined behaviour. *)
From S2P Require Import Prelude CxxString Effects Sockets.

(** ** The receive buffer *)

(** [char buf[4097]] after [recv] wrote [len] bytes and [buf[len] = 0]: only the
    first [len + 1] entries are initialised, and reading any other is
    undefined. *)
Definition peek (buf : str) (i : Z) : outcome ascii :=
  if (i <? 0)%Z then Undef
  else match buf !! Z.to_nat i with Some c => Ok c | None => Undef end.

Definition poke (buf : str) (i : Z) (c : ascii) : outcome str :=
  if (0 <=? i)%Z && (i <? size buf)%Z then Ok (<[Z.to_nat i := c]> buf) else Undef.

(** [while (0x16 == pbf[0] and (pbf-buf < len)) pbf++;] from [pbf = buf + p]. *)
Fixpoint skip_lead (fuel : nat) (buf : str) (p len : Z) : outcome Z :=
  match fuel with
  | 0 => NoFuel
  | S fuel =>
      c ← peek buf p;
      if chareq c syn && (p <? len)%Z then skip_lead fuel buf (p + 1)%Z len
      else Ok p
  end.

(** [while (0x16 == buf[len-1] and 0 < len) { len--; buf[len] = 0; }] *)
Fixpoint trim_tail (fuel : nat) (buf : str) (len : Z) : outcome (str * Z) :=
  match fuel with
  | 0 => NoFuel
  | S fuel =>
      c ← peek buf (len - 1)%Z;
      if chareq c syn && (0 <? len)%Z then
        buf' ← poke buf (len - 1)%Z nul;
        trim_tail fuel buf' (len - 1)%Z
      else Ok (buf, len)
  end.

(** The first [if]: where [pbf] ends, and whether the chunk is all idle bytes,
    in which case the code says [continue]. *)
Definition lead (fuel : nat) (buf : str) (len : Z) : outcome (bool * Z) :=
  c0 ← peek buf 0%Z;
  pbf ← (if chareq c0 syn then skip_lead fuel buf 1%Z len else Ok 0%Z);
  Ok (chareq c0 syn && (pbf =? len)%Z, pbf).

(** The second [if]: the buffer and [len] after it, and whether [len] is 0. *)
Definition tail (fuel : nat) (buf : str) (len : Z) : outcome (bool * (str * Z)) :=
  cl ← peek buf (len - 1)%Z;
  if chareq cl syn then
    buf' ← poke buf (len - 1)%Z nul;
    r ← trim_tail fuel buf' (len - 1)%Z;
    Ok ((r.2 =? 0)%Z, r)
  else Ok (false, (buf, len)).

(** One chunk [d]: [None] is [continue], otherwise the C string at [pbf] and
    whether [buf[len-1]] is a newline. *)
Definition scrub (d : str) : outcome (option (str * bool)) :=
  let fuel := S (length d) in
  l ← lead fuel (d ++ [nul]) (size d);
  let '(idle, pbf) := l in
  if idle : bool then Ok None
  else
    t ← tail fuel (d ++ [nul]) (size d);
    let '(idle, (buf, len)) := t in
    if idle : bool then Ok None
    else
      last ← peek buf (len - 1)%Z;
      Ok (Some (c_str (drop (Z.to_nat pbf) buf), chareq last nl)).

(** ** Reference: what a chunk carries *)

(** The chunk without its leading and trailing idle bytes. *)
Fixpoint drop_idle (d : str) : str :=
  match d with
  | c :: d' => if chareq c syn then drop_idle d' else d
  | [] => []
  end.

Definition strip (d : str) : str := rev (drop_idle (rev (drop_idle d))).

Definition ends_nl (d : str) : bool :=
  match last d with Some c => chareq c nl | None => false end.

(** What [scrub] should compute. *)
Definition scrub_ref (d : str) : option (str * bool) :=
  match strip d with
  | [] => None
  | core => Some (c_str core, ends_nl core)
  end.

(** Every chunk is idle bytes, a core, idle bytes. *)
Abbreviation idles n := (replicate n syn).

Definition core_ok (k : str) : Prop :=
  head k <> Some syn /\ last k <> Some syn.

Lemma drop_idle_idles n k : drop_idle (idles n ++ k) = drop_idle k.
Proof. by induction n. Qed.

Lemma drop_idle_id k : head k <> Some syn -> drop_idle k = k.
Proof.
  destruct k as [|c k]; [done|]. simpl. intros Hc.
  assert (chareq c syn = false) as -> by (apply chareq_false; congruence). done.
Qed.

Lemma idles_rev n : rev (idles n) = idles n.
Proof. induction n as [|n IH]; [done|]. simpl. by rewrite IH, <- replicate_S_end. Qed.

Lemma strip_core a k b : core_ok k -> strip (idles a ++ k ++ idles b) = k.
Proof.
  intros [Hh Hl]. unfold strip. rewrite drop_idle_idles.
  destruct k as [|c k] using rev_ind.
  - simpl. rewrite <- (app_nil_r (idles b)), drop_idle_idles. done.
  - clear IHk. rewrite (drop_idle_id ((k ++ [c]) ++ _))
      by (rewrite <- app_assoc; destruct k; exact Hh).
    rewrite rev_app_distr, idles_rev, drop_idle_idles, rev_app_distr.
    rewrite (drop_idle_id (rev [c] ++ _)) by (rewrite last_snoc in Hl; simpl; congruence).
    simpl. by rewrite rev_involutive.
Qed.

Lemma split_lead d : exists a k, d = idles a ++ k /\ head k <> Some syn.
Proof.
  induction d as [|c d (a & k & -> & Hk)]; [by exists 0, []|].
  destruct (decide (c = syn)) as [->|Hc].
  - by exists (S a), k.
  - exists 0, (c :: idles a ++ k). split; [done|]. simpl. congruence.
Qed.

Lemma split_tail d : exists k b, d = k ++ idles b /\ last k <> Some syn.
Proof.
  induction d as [|c d (k & b & -> & Hk)] using rev_ind; [by exists [], 0|].
  destruct (decide (c = syn)) as [->|Hc].
  - exists k, (S b). by rewrite <- app_assoc, replicate_S_end.
  - exists ((k ++ idles b) ++ [c]), 0. split; [by rewrite app_nil_r|].
    rewrite last_snoc. congruence.
Qed.

Lemma chunk_split d : exists a k b, d = idles a ++ k ++ idles b /\ core_ok k.
Proof.
  destruct (split_lead d) as (a & k1 & -> & H1).
  destruct (split_tail k1) as (k & b & -> & H2).
  exists a, k, b. split; [done|]. split; [|done].
  intros Heq. destruct k as [|c k]; [done|]. done.
Qed.

(** ** The pointer code computes the reference *)

Lemma peek_at pre c post i : i = size pre -> peek (pre ++ c :: post) i = Ok c.
Proof.
  intros ->. unfold peek. rewrite (proj2 (Z.ltb_ge _ _)) by apply size_nonneg.
  unfold size. by rewrite Nat2Z.id, list_lookup_middle.
Qed.

Lemma poke_at pre c post i x :
  i = size pre -> poke (pre ++ c :: post) i x = Ok (pre ++ x :: post).
Proof.
  intros ->. unfold poke. rewrite (proj2 (Z.leb_le _ _)) by apply size_nonneg.
  rewrite (proj2 (Z.ltb_lt _ _)) by (autorewrite with cog_rw; pose proof (size_nonneg post); lia).
  simpl. unfold size. by rewrite Nat2Z.id, insert_app_r_alt, Nat.sub_diag by done.
Qed.

Lemma size_idles n : size (idles n) = Z.of_nat n.
Proof. unfold size. by rewrite length_replicate. Qed.
#[export] Hint Rewrite size_idles : cog_rw.

(** The leading loop stops at the core, or at the NUL behind a chunk of idle
    bytes; it never reads past that NUL. *)
Lemma skip_lead_spec m : forall fuel done c rest len,
  m < fuel -> c <> syn -> (size done + Z.of_nat m <= len)%Z ->
  skip_lead fuel (done ++ idles m ++ c :: rest) (size done) len
  = Ok (size done + Z.of_nat m)%Z.
Proof.
  induction m as [|m IH]; intros [|fuel] pre c rest len Hf Hc Hlen; try lia; simpl.
  - rewrite (peek_at pre c rest) by done. simpl.
    rewrite (proj2 (chareq_false c syn)) by done. simpl. f_equal. lia.
  - rewrite (peek_at pre syn) by done. simpl.
    rewrite (proj2 (Z.ltb_lt _ _)) by lia.
    replace (pre ++ syn :: idles m ++ c :: rest) with ((pre ++ [syn]) ++ idles m ++ c :: rest)
      by by rewrite <- app_assoc.
    replace (size pre + 1)%Z with (size (pre ++ [syn])) by (autorewrite with cog_rw; lia).
    rewrite IH by (autorewrite with cog_rw; lia || done).
    autorewrite with cog_rw. f_equal. lia.
Qed.

(** The trailing loop stops at the last byte of the core: [len] stays positive,
    so [buf[len-1]] is never [buf[-1]]. *)
Lemma trim_tail_spec m : forall fuel pre c tail len,
  m < fuel -> c <> syn -> len = (size pre + 1 + Z.of_nat m)%Z ->
  trim_tail fuel (pre ++ c :: idles m ++ tail) len
  = Ok (pre ++ c :: replicate m nul ++ tail, (size pre + 1)%Z).
Proof.
  induction m as [|m IH]; intros [|fuel] pre c tail len Hf Hc ->; try lia; cbn [trim_tail].
  - rewrite (peek_at pre c) by (simpl; lia). simpl.
    rewrite (proj2 (chareq_false c syn)) by done. simpl. by rewrite Z.add_0_r.
  - pose proof (size_nonneg pre).
    replace (pre ++ c :: idles (S m) ++ tail) with ((pre ++ c :: idles m) ++ syn :: tail)
      by (rewrite replicate_S_end, <- !app_assoc; done).
    rewrite (peek_at (pre ++ c :: idles m) syn)
      by (autorewrite with cog_rw; lia).
    cbn [mbind outcome_bind]. rewrite chareq_refl, (proj2 (Z.ltb_lt _ _)) by lia.
    cbn [andb]. rewrite (poke_at (pre ++ c :: idles m) syn)
      by (autorewrite with cog_rw; lia).
    cbn [mbind outcome_bind]. rewrite <- app_assoc, <- app_comm_cons.
    rewrite IH by (lia || done). do 3 f_equal.
    by rewrite replicate_S_end, <- app_assoc.
Qed.

Lemma c_str_nul k t : c_str (k ++ nul :: t) = c_str k.
Proof. induction k as [|c k IH]; simpl; [done|]. by rewrite IH. Qed.

Lemma scrub_idle n : scrub (idles (S n)) = Ok None.
Proof.
  unfold scrub, lead. replace (peek _ 0%Z) with (Ok syn) by done.
  cbn [mbind outcome_bind]. rewrite chareq_refl. change 1%Z with (size [syn]).
  change (idles (S n) ++ [nul]) with ([syn] ++ idles n ++ [nul]).
  rewrite skip_lead_spec; [| |done|].
  - cbn [mbind outcome_bind andb]. rewrite (proj2 (Z.eqb_eq _ _)); [done|].
    autorewrite with cog_rw. lia.
  - rewrite length_replicate. lia.
  - autorewrite with cog_rw. lia.
Qed.

(** The leading part: [pbf] ends at the first byte of the core. *)
Lemma lead_spec a h rest len fuel :
  h <> syn -> (Z.of_nat a < len)%Z -> a <= fuel ->
  lead fuel (idles a ++ h :: rest) len = Ok (false, Z.of_nat a).
Proof.
  intros Hh Hlen Hf. unfold lead. destruct a as [|a].
  - replace (peek _ 0%Z) with (Ok h) by done. cbn [mbind outcome_bind].
    by rewrite (proj2 (chareq_false h syn)).
  - replace (peek _ 0%Z) with (Ok syn) by done. cbn [mbind outcome_bind]. rewrite chareq_refl.
    change 1%Z with (size [syn]).
    change (idles (S a) ++ h :: rest) with ([syn] ++ idles a ++ h :: rest).
    rewrite skip_lead_spec by (done || autorewrite with cog_rw; lia).
    cbn [mbind outcome_bind andb]. rewrite (proj2 (Z.eqb_neq _ _))
      by (autorewrite with cog_rw; lia).
    autorewrite with cog_rw. do 2 f_equal. lia.
Qed.

(** The trailing part: [buf[len-1]] is the last byte [c] of the core, and a NUL
    follows it. *)
Lemma tail_spec pre c b fuel :
  c <> syn -> b <= fuel ->
  exists rest, tail fuel ((pre ++ c :: idles b) ++ [nul]) (size (pre ++ c :: idles b))
    = Ok (false, (pre ++ c :: nul :: rest, (size pre + 1)%Z)).
Proof.
  intros Hc Hf. unfold tail. destruct b as [|b].
  - exists []. rewrite <- app_assoc. change ((c :: idles 0) ++ [nul]) with (c :: [nul]).
    rewrite (peek_at pre c) by (autorewrite with cog_rw; lia). cbn [mbind outcome_bind].
    rewrite (proj2 (chareq_false c syn)) by done. do 3 f_equal.
    autorewrite with cog_rw. lia.
  - exists (replicate b nul ++ [nul]).
    assert ((pre ++ c :: idles (S b)) ++ [nul] = (pre ++ c :: idles b) ++ syn :: [nul]) as ->.
    { rewrite replicate_S_end, <- !app_assoc, <- !app_comm_cons, <- app_assoc. done. }
    assert (size (pre ++ c :: idles (S b)) - 1 = size (pre ++ c :: idles b))%Z as ->.
    { autorewrite with cog_rw. lia. }
    rewrite (peek_at _ syn) by done. cbn [mbind outcome_bind]. rewrite chareq_refl.
    rewrite (poke_at _ syn) by done. cbn [mbind outcome_bind].
    rewrite <- app_assoc, <- app_comm_cons, trim_tail_spec;
      [|lia|done|autorewrite with cog_rw; lia].
    cbn [mbind outcome_bind snd]. rewrite (proj2 (Z.eqb_neq _ _))
      by (pose proof (size_nonneg pre); lia).
    change (nul :: [nul]) with ([nul] ++ [nul]).
    by rewrite (app_assoc (replicate b nul)), <- replicate_cons_app at 1.
Qed.

Lemma ends_nl_snoc k c : ends_nl (k ++ [c]) = chareq c nl.
Proof. unfold ends_nl. by rewrite last_snoc. Qed.

(** A chunk with a core. *)
Lemma scrub_core d a k b :
  d = idles a ++ k ++ idles b -> core_ok k -> k <> [] ->
  scrub d = Ok (Some (c_str k, ends_nl k)).
Proof.
  intros Hd [Hh Hl] Hne. unfold scrub.
  assert (a <= length d /\ b <= length d /\ (Z.of_nat a < size d)%Z) as (Ha & Hb & Haz).
  { unfold size. rewrite Hd, !length_app, !length_replicate.
    destruct k; simpl; [done|lia]. }
  destruct (exists_last Hne) as (k0 & c & Hk).
  assert (c <> syn) as Hc by (rewrite Hk, last_snoc in Hl; congruence).
  assert (lead (S (length d)) (d ++ [nul]) (size d) = Ok (false, Z.of_nat a)) as ->.
  { destruct k as [|h k]; [done|]. rewrite Hd at 2. rewrite <- app_assoc.
    apply lead_spec; [simpl in Hh; congruence|done|lia]. }
  cbn [mbind outcome_bind].
  assert (d = (idles a ++ k0) ++ c :: idles b) as Hd2.
  { by rewrite Hd, Hk, <- !app_assoc. }
  destruct (tail_spec (idles a ++ k0) c b (S (length d)) Hc) as [rest Ht]; [lia|].
  rewrite <- Hd2 in Ht. rewrite Ht. cbn [mbind outcome_bind].
  rewrite (peek_at _ c) by lia. cbn [mbind outcome_bind].
  rewrite <- app_assoc, Nat2Z.id, drop_app_length' by (by rewrite length_replicate).
  rewrite Hk, ends_nl_snoc.
  change (k0 ++ c :: nul :: rest) with (k0 ++ [c] ++ nul :: rest).
  by rewrite app_assoc, c_str_nul.
Qed.

Lemma scrub_spec d : d <> [] -> scrub d = Ok (scrub_ref d).
Proof.
  intros Hd. destruct (chunk_split d) as (a & k & b & -> & Hk).
  unfold scrub_ref. rewrite strip_core by done. destruct k as [|c k].
  - rewrite app_nil_l, <- replicate_add in *. destruct (a + b) as [|n]; [done|].
    apply scrub_idle.
  - by rewrite (scrub_core _ a (c :: k) b) by done.
Qed.

(** ** The receive loop *)

Section loop.
Context {W S : Type} `{!Sockets W} `{!Has W S}.
(** the descriptor read, the size of the buffer, and what happens at the end
    of the stream *)
Context (fd_of : S -> Z) (bufsize : nat) (on_eof : M S unit).

(** [throw IOException(TRACE_INFO, fmt, strerror(errno))] *)
Definition talk_error (m : str) : exn :=
  IOException "Unable to talk to cogserver: %s" [FStr m].
Definition closed_error : exn :=
  IOException "Cogserver unexpectedly closed connection" [].

Definition throw_errno {A} (fmt : string) : M S A :=
  e ← gets (fun s => sys_errno (the s));
  throw (IOException fmt [FStr (strerror e)]).

Fixpoint recv_loop (fuel : nat) (garbage first_time : bool) (rb : str) : M S str :=
  match fuel with
  | 0 => nofuel
  | Datatypes.S fuel =>
      fd ← gets fd_of;
      r ← on_pure (sys_recv fd bufsize);
      match r with
      | RecvError => throw_errno "Unable to talk to cogserver: %s"
      | RecvEof =>
          on_eof;;
          throw closed_error
      | RecvData d =>
          o ← lift_outcome (scrub d);
          match o with
          | None => recv_loop fuel garbage first_time rb
          | Some (pbf, ends) =>
              if first_time && (ends || garbage) then mret pbf
              else if ends : bool then mret (rb ++ pbf)
              else recv_loop fuel garbage false (rb ++ pbf)
          end
      end
  end.
End loop.

(** ** Messages and the chunks that carry them *)

(** A reply: a body without newline, NUL or idle bytes, and a newline. *)
Definition plain (body : str) : Prop :=
  Forall (fun c => c <> nl /\ c <> nul /\ c <> syn) body.

(** [carries cs m]: the chunks [cs] hold the message [m], cut anywhere and with
    idle bytes around each piece, and the last piece is not idle. *)
Definition carries (cs : list str) (m : str) : Prop :=
  exists cs' c, cs = cs' ++ [c] /\ strip c <> [] /\ concat (map strip cs) = m.

Lemma carries_cons c c' cs m :
  carries (c :: c' :: cs) m <-> exists m', m = strip c ++ m' /\ carries (c' :: cs) m'.
Proof.
  split.
  - intros (ks & k & Heq & Hk & <-). destruct ks as [|x ks]; [done|].
    injection Heq as <- Heq. exists (concat (map strip (c' :: cs))). split; [done|].
    by exists ks, k.
  - intros (m' & -> & ks & k & Heq & Hk & <-).
    exists (c :: ks), k. by rewrite Heq.
Qed.

Lemma ends_nl_plain k : Forall (.≠ nl) k -> ends_nl k = false.
Proof.
  intros Hk. unfold ends_nl. destruct (last k) as [c|] eqn:Hl; [|done].
  apply last_Some in Hl as [k' ->]. apply Forall_app in Hk as [_ Hk].
  inversion Hk; subst. by apply chareq_false.
Qed.

Lemma plain_app a b : plain (a ++ b) <-> plain a /\ plain b.
Proof. apply Forall_app. Qed.

Lemma plain_no_nl k : plain k -> Forall (.≠ nl) k.
Proof. intros Hk. eapply Forall_impl; [exact Hk|]. simpl. tauto. Qed.

Lemma plain_c_str k : plain k -> c_str k = k.
Proof. intros Hk. apply c_str_id. eapply Forall_impl; [exact Hk|]. simpl. tauto. Qed.

Lemma plain_c_str_nl k : plain k -> c_str (k ++ [nl]) = k ++ [nl].
Proof. intros Hk. apply c_str_id, Forall_app. split; [|by repeat constructor].
  eapply Forall_impl; [exact Hk|]. simpl. tauto. Qed.
#[export] Hint Resolve plain_no_nl plain_c_str ends_nl_plain : cog.

(** A non-last piece of a message is a prefix of its body. *)
Lemma piece_prefix p m body :
  p ++ m = body ++ [nl] -> m <> [] -> exists m0, body = p ++ m0 /\ m = m0 ++ [nl].
Proof.
  intros Heq Hm. destruct (exists_last Hm) as (m0 & c & ->).
  rewrite app_assoc in Heq. apply app_inj_tail in Heq as [<- <-]. by exists m0.
Qed.

Lemma carries_not_nil cs m : carries cs m -> m <> [].
Proof.
  intros (ks & k & -> & Hk & <-) Hnil. rewrite map_app, concat_app in Hnil.
  apply app_eq_nil in Hnil as [_ Hnil]. simpl in Hnil. by rewrite app_nil_r in Hnil.
Qed.

(** What the code makes of one chunk of a message. *)
Lemma scrub_piece c m body :
  plain body -> c <> [] -> strip c ++ m = body ++ [nl] -> m <> [] ->
  scrub c = Ok (match strip c with [] => None | k => Some (k, false) end).
Proof.
  intros Hb Hc Heq Hm. rewrite scrub_spec by done. unfold scrub_ref.
  destruct (piece_prefix _ _ _ Heq Hm) as (m0 & -> & ->).
  apply plain_app in Hb as [Hb _]. destruct (strip c) as [|x k]; [done|].
  by rewrite plain_c_str, ends_nl_plain by auto with cog.
Qed.

Section loop_spec.
Context {W S : Type} `{!Sockets W} `{!Has W S} `{!HasLaws W S}.
Context (fd_of : S -> Z) (bufsize : nat) (on_eof : M S unit).
Context (Hfd : forall w s, fd_of (put w s) = fd_of s).
Let loop := recv_loop fd_of bufsize on_eof.

Lemma recv_data fuel garbage first rb s d w1 :
  sys_recv (fd_of s) bufsize (the s) = (RecvData d, w1) ->
  loop (Datatypes.S fuel) garbage first rb s =
  match scrub d with
  | Ok None => loop fuel garbage first rb (put w1 s)
  | Ok (Some (pbf, ends)) =>
      if first && (ends || garbage) then (Ok pbf, put w1 s)
      else if ends : bool then (Ok (rb ++ pbf), put w1 s)
      else loop fuel garbage false (rb ++ pbf) (put w1 s)
  | Throw e => (Throw e, put w1 s)
  | Undef => (Undef, put w1 s)
  | Deadlock => (Deadlock, put w1 s)
  | NoFuel => (NoFuel, put w1 s)
  end.
Proof.
  intros Hr. unfold loop. simpl.
  unfold mbind, M_bind, gets, on_pure, lift_outcome. rewrite Hr.
  destruct (scrub d) as [[[pbf ends]|]| | | |]; try done.
  by destruct (first && (ends || garbage)), ends.
Qed.

(** However the reply is cut into chunks, and with idle bytes around the
    pieces, the loop returns exactly the reply and reads exactly its chunks. *)
Lemma recv_loop_reply cs : forall fuel first rb s w' body,
  recvs (fd_of s) bufsize (the s) cs w' -> carries cs (body ++ [nl]) -> plain body ->
  length cs <= fuel -> (first = true -> rb = []) ->
  loop fuel false first rb s = (Ok (rb ++ body ++ [nl]), put w' s).
Proof.
  induction cs as [|c cs IH]; intros [|fuel] first rb s w' body Hr Hc Hb Hf Hfirst;
    simpl in Hf; try lia.
  { destruct Hc as ([|] & ? & ? & ?); done. }
  { destruct Hc as ([|] & ? & ? & ?); done. }
  inversion Hr as [|w0 d w1 ds w2 Hr1 Hr2]; subst. rewrite (recv_data _ _ _ _ _ _ _ Hr1).
  assert (c <> []) as Hcne.
  { intros ->. apply sys_recv_bound in Hr1. simpl in Hr1. lia. }
  destruct cs as [|c' cs].
  - inversion Hr2; subst. destruct Hc as (ks & k & Heq & Hk & Hm).
    destruct ks as [|? [|]]; simplify_eq/=. rewrite app_nil_r in Hm.
    rewrite scrub_spec by done. unfold scrub_ref. rewrite Hm.
    destruct (body ++ [nl]) eqn:E; [by destruct body|]. rewrite <- E.
    rewrite plain_c_str_nl, ends_nl_snoc, chareq_refl by done. simpl.
    destruct first; simpl; [by rewrite Hfirst|done].
  - apply carries_cons in Hc as (m & Heq & Hc).
    pose proof (carries_not_nil _ _ Hc) as Hm.
    rewrite (scrub_piece c m body) by done.
    destruct (piece_prefix _ _ _ (eq_sym Heq) Hm) as (m0 & -> & ->).
    apply plain_app in Hb as [_ Hb].
    destruct (strip c) as [|x k] eqn:Hs.
    + simpl. rewrite (IH _ _ _ _ w' m0) by (rewrite ?Hfd, ?the_put; auto with lia).
      by rewrite put_put.
    + rewrite andb_false_r. rewrite (IH _ _ _ _ w' m0)
        by (rewrite ?Hfd, ?the_put; auto with lia; done).
      by rewrite put_put, <- !app_assoc.
Qed.
End loop_spec.

(** ** Safety of the loop

    Whatever the network delivers, the loop keeps an invariant that the world
    and the end-of-stream action keep, and it never leaves the buffer. *)
Section loop_safe.
Context {W S : Type} `{!Sockets W} `{!Has W S}.
Context (fd_of : S -> Z) (bufsize : nat) (on_eof : M S unit).
Context (I : S -> Prop) (E : exn -> S -> Prop).
Context (Hput : forall r w s, I s -> sys_recv (fd_of s) bufsize (the s) = (r, w) -> I (put w s)).
Context (HE : forall m s, I s -> E (talk_error m) s).
Context (Heof : forall s, I s -> wp True on_eof (fun _ s' => E closed_error s') E s).

Lemma recv_loop_safe fuel : forall garbage first rb s,
  I s -> wp True (recv_loop fd_of bufsize on_eof fuel garbage first rb) (fun _ => I) E s.
Proof.
  induction fuel as [|fuel IH]; intros garbage first rb s Hs; simpl; [done|].
  wp_step. wp_step. wp_step. apply wp_on_pure. intros r w Hr.
  assert (I (put w s)) as Hs' by eauto.
  destruct r as [| |d].
  - unfold throw_errno. repeat wp_step. by apply HE.
  - wp_step. eapply wp_mono; [by apply Heof| |done]. intros [] s2 Hs2. wp_step. apply Hs2.
  - wp_step. assert (d <> []) as Hd.
    { intros ->. apply sys_recv_bound in Hr. simpl in Hr. lia. }
    unfold lift_outcome, wp at 1. rewrite scrub_spec by done.
    destruct (scrub_ref d) as [[pbf ends]|]; [|by apply IH].
    destruct (first && (ends || garbage)); [done|].
    destruct ends; [done|]. by apply IH.
Qed.
End loop_safe.

Lemma recv_loop_keeps {W S} `{!Sockets W} `{!Has W S} (I : S -> Prop) fd_of bufsize
    (on_eof : M S unit) fuel garbage first rb :
  (forall (w : W) s, I s -> I (put w s)) -> keeps I on_eof ->
  keeps I (recv_loop fd_of bufsize on_eof fuel garbage first rb).
Proof.
  intros Hput Heof s Hs. apply recv_loop_safe; [by auto|done| |done].
  intros s' Hs'. by apply Heof.
Qed.

Lemma recv_loop_moves {W S} `{!Sockets W} `{!Has W S} (R : S -> S -> Prop) `{!PreOrder R}
    fd_of bufsize on_eof fuel : forall garbage first rb,
  (forall (w : W) s, R s (put w s)) -> moves R on_eof ->
  moves R (recv_loop fd_of bufsize on_eof fuel garbage first rb).
Proof.
  intros garbage first rb Hput Heof. revert garbage first rb.
  induction fuel as [|fuel IH]; intros garbage first rb; cbn [recv_loop];
    unfold throw_errno; repeat first [moves_step | apply IH | apply Heof | apply Hput].
Qed.

Lemma recv_loop_blind {W S} `{!Sockets W} `{!Has W S} (g : S -> S) fd_of bufsize on_eof fuel :
  forall garbage first rb,
  (forall s, the (g s) = (the s : W)) -> (forall (w : W) s, put w (g s) = g (put w s)) ->
  (forall s, fd_of (g s) = fd_of s) -> blind g on_eof ->
  blind g (recv_loop fd_of bufsize on_eof fuel garbage first rb).
Proof.
  intros garbage first rb H1 H2 H3 Heof. revert garbage first rb.
  induction fuel as [|fuel IH]; intros garbage first rb; cbn [recv_loop];
    unfold throw_errno;
    repeat first [blind_step | apply IH | apply Heof | apply H3 | apply H1 | apply H2 | by rewrite H1].
Qed.
