(* ===== verification/Barrier.v ===== *)
(** * Barrier messages

    [barrier()] of both clients draws two numbers from a thread-local
    [std::minstd_rand], packs them into a 64-bit identifier, and formats the
    message with [snprintf] into a 64-byte array.  The generator and the
    formatting are the C++ standard library's. *)
From S2P Require Import Prelude CxxString.

(** ** std::minstd_rand *)

Definition minstd_m : Z := 2147483647.
Definition minstd_next (x : Z) : Z := (48271 * x) mod minstd_m.
Definition minstd_seed (seed : Z) : Z :=
  if (seed mod minstd_m =? 0)%Z then 1%Z else (seed mod minstd_m)%Z.

(** The generator's states, which are also its outputs. *)
Definition minstd_ok (x : Z) : Prop := (1 <= x < minstd_m)%Z.

Lemma minstd_seed_ok seed : minstd_ok (minstd_seed seed).
Proof.
  unfold minstd_ok, minstd_seed. pose proof (Z.mod_pos_bound seed minstd_m eq_refl).
  destruct (Z.eqb_spec (seed mod minstd_m) 0); unfold minstd_m in *; lia.
Qed.

(** The modulus is prime, so the generator never reaches 0: 48271 has an
    inverse modulo 2^31 - 1. *)
Lemma minstd_next_ok x : minstd_ok x -> minstd_ok (minstd_next x).
Proof.
  unfold minstd_ok, minstd_next. intros Hx.
  pose proof (Z.mod_pos_bound (48271 * x) minstd_m eq_refl) as Hb.
  enough ((48271 * x) mod minstd_m <> 0)%Z by lia. intros H0.
  assert ((1899818559 * (48271 * x)) mod minstd_m = x)%Z as Hinv.
  { replace (1899818559 * (48271 * x))%Z with (x + x * 42704 * minstd_m)%Z
      by (unfold minstd_m; lia).
    rewrite Z.mod_add by done. apply Z.mod_small. lia. }
  rewrite <- Z.mul_mod_idemp_r, H0, Z.mul_0_r, Z.mod_0_l in Hinv by done. lia.
Qed.

(** ** The identifier *)

(** [(uint64_t(a) << 32) | b] on 64-bit unsigned integers, for the two draws
    [a] and [b]. *)
Definition barrier_id (a b : Z) : Z :=
  Z.lor (Z.shiftl a 32 mod size_mod) b mod size_mod.

(** Two calls [rng() << 32 | rng()]: which operand the first draw goes to is
    unspecified. *)
Definition barrier_rnd (left : bool) (first second : Z) : Z :=
  if left then barrier_id first second else barrier_id second first.

Lemma lor_disjoint a b : (0 <= a)%Z -> (0 <= b < 2 ^ 32)%Z ->
  Z.lor (Z.shiftl a 32) b = (a * 2 ^ 32 + b)%Z.
Proof.
  intros Ha Hb. rewrite <- Z.shiftl_mul_pow2 by lia. symmetry.
  assert (Z.land (Z.shiftl a 32) b = 0%Z) as Hl.
  { apply Z.bits_inj'. intros n Hn. rewrite Z.land_spec, Z.bits_0.
    destruct (Z.lt_ge_cases n 32).
    - by rewrite Z.shiftl_spec_low by lia.
    - assert (Z.log2 b < n)%Z.
      { destruct (decide (b = 0%Z)) as [->|]; [simpl; lia|].
        apply Z.lt_le_trans with 32%Z; [apply Z.log2_lt_pow2; lia|lia]. }
      rewrite (Z.bits_above_log2 b n) by lia. apply andb_false_r. }
  rewrite Z.add_nocarry_lxor by done. by apply Z.lxor_lor.
Qed.

Lemma barrier_id_val a b :
  minstd_ok a -> minstd_ok b -> barrier_id a b = (a * 2 ^ 32 + b)%Z.
Proof.
  unfold minstd_ok, minstd_m, barrier_id, size_mod. intros Ha Hb.
  rewrite Z.shiftl_mul_pow2 by lia. rewrite (Z.mod_small (a * _)) by lia.
  rewrite <- Z.shiftl_mul_pow2 at 1 by lia. rewrite lor_disjoint by lia. apply Z.mod_small. lia.
Qed.

Lemma barrier_rnd_range l a b :
  minstd_ok a -> minstd_ok b -> (0 <= barrier_rnd l a b < size_mod)%Z.
Proof.
  intros Ha Hb. destruct l; cbn; rewrite barrier_id_val by done; unfold minstd_ok, minstd_m, size_mod in *; lia.
Qed.

(** Whichever operands go first, the identifier holds both draws. *)
Lemma barrier_rnd_inj l l' a b a' b' :
  minstd_ok a -> minstd_ok b -> minstd_ok a' -> minstd_ok b' ->
  barrier_rnd l a b = barrier_rnd l' a' b' -> a = a' /\ b = b' \/ a = b' /\ b = a'.
Proof.
  intros Ha Hb Ha' Hb' Heq.
  assert (forall x y z u, minstd_ok x -> minstd_ok y -> minstd_ok z -> minstd_ok u ->
    (x * 2 ^ 32 + y = z * 2 ^ 32 + u)%Z -> x = z /\ y = u) as H.
  { unfold minstd_ok, minstd_m. intros. lia. }
  destruct l, l'; cbn in Heq; rewrite !barrier_id_val in Heq by done; apply H in Heq; tauto.
Qed.

(** ** printf *)

Definition hex_digit (d : Z) : ascii :=
  nth (Z.to_nat d) (lit "0123456789abcdef") "0"%char.

(** The [n] low hexadecimal digits of [z], most significant first. *)
Fixpoint hex_digits (n : nat) (z : Z) : str :=
  match n with
  | 0 => []
  | S n => hex_digits n (z / 16)%Z ++ [hex_digit (z mod 16)%Z]
  end.

(** [%016lx] of a 64-bit unsigned integer: 16 digits always suffice. *)
Definition fmt_016lx (z : Z) : str := hex_digits 16 (z mod size_mod).

(** [snprintf(msg, n, ...)]: at most [n - 1] characters and a NUL, read back as
    a C string. *)
Definition snprintf (n : nat) (s : str) : str := c_str (take (n - 1) s).

Definition dq : ascii := ascii_of_nat 34.

(** The barrier message for [n] participants: (cog-barrier n, the identifier
    in double quotes, a closing parenthesis and a newline. *)
Definition barrier_text (n : str) (rnd : Z) : str :=
  lit "(cog-barrier " ++ n ++ lit " " ++ [dq] ++ fmt_016lx rnd ++ [dq] ++ lit ")" ++ [nl].

Lemma hex_digit_inj a b :
  (0 <= a < 16)%Z -> (0 <= b < 16)%Z -> hex_digit a = hex_digit b -> a = b.
Proof.
  intros Ha Hb. 
  assert (forall n m, n < 16 -> m < 16 ->
    bool_decide (nth n (lit "0123456789abcdef") "0"%char =
    nth m (lit "0123456789abcdef") "0"%char) = true -> n = m) as H.
  { intros n m Hn Hm. do 16 (destruct n as [|n]; [do 16 (destruct m as [|m]; [done|]); lia|]). lia. }
  intros Heq. unfold hex_digit in Heq.
  apply Z2Nat.inj; [lia..|]. apply H; [lia..|]. by apply bool_decide_eq_true.
Qed.

Lemma hex_digits_length n : forall z, length (hex_digits n z) = n.
Proof. induction n as [|n IH]; intros z; simpl; [done|]. rewrite length_app, IH. simpl. lia. Qed.

Lemma hex_digits_inj n : forall a b,
  hex_digits n a = hex_digits n b -> (a mod 16 ^ Z.of_nat n = b mod 16 ^ Z.of_nat n)%Z.
Proof.
  induction n as [|n IH]; intros a b Heq; simpl in Heq.
  - by rewrite !Z.mod_1_r.
  - apply app_inj_tail in Heq as [H1 H2]. apply IH in H1.
    apply hex_digit_inj in H2; [|by apply Z.mod_pos_bound..].
    rewrite Nat2Z.inj_succ, Z.pow_succ_r by lia.
    rewrite !Z.rem_mul_r by lia. lia.
Qed.

Lemma hex_digit_plain d : hex_digit d <> nul.
Proof.
  unfold hex_digit. destruct (Z.to_nat d) as [|n]; [done|].
  do 15 (destruct n as [|n]; [done|]). by destruct n.
Qed.

Lemma hex_digits_plain n : forall z, Forall (.≠ nul) (hex_digits n z).
Proof.
  induction n as [|n IH]; intros z; simpl; [constructor|].
  apply Forall_app. split; [done|]. repeat constructor. apply hex_digit_plain.
Qed.

Lemma fmt_016lx_length z : length (fmt_016lx z) = 16.
Proof. apply hex_digits_length. Qed.

Lemma fmt_016lx_inj a b :
  (0 <= a < size_mod)%Z -> (0 <= b < size_mod)%Z -> fmt_016lx a = fmt_016lx b -> a = b.
Proof.
  intros Ha Hb Heq. apply hex_digits_inj in Heq.
  change (16 ^ Z.of_nat 16)%Z with size_mod in Heq.
  by rewrite !Z.mod_mod, !Z.mod_small in Heq.
Qed.

(** The array is large enough for a one-digit count. *)
Lemma snprintf_barrier c rnd :
  c <> nul -> snprintf 64 (barrier_text [c] rnd) = barrier_text [c] rnd.
Proof.
  intros Hc. unfold snprintf. rewrite take_ge.
  - apply c_str_id. unfold barrier_text. rewrite !Forall_app.
    repeat split; try (by repeat constructor). apply hex_digits_plain.
  - unfold barrier_text. autorewrite with cog_rw. rewrite fmt_016lx_length. simpl. lia.
Qed.

Lemma barrier_text_inj n a b :
  (0 <= a < size_mod)%Z -> (0 <= b < size_mod)%Z ->
  barrier_text n a = barrier_text n b -> a = b.
Proof.
  intros Ha Hb Heq. unfold barrier_text in Heq.
  do 4 apply app_inv_head in Heq.
  apply app_inj_1 in Heq as [Heq _]; [|by rewrite !fmt_016lx_length].
  by apply fmt_016lx_inj.
Qed.
