(* ===== verification/Uri.v ===== *)
(** * Connection URIs

    Both clients take a URI of the form [cog://host/path] or
    [cog://host:port/path].  The pieces of code they share: the check of the
    scheme and of connection arguments, and the extraction of the host and the
    port that [getaddrinfo] resolves.  The URI grammar the sources document is
    the reference. *)
From S2P Require Import Prelude CxxString Effects.

Definition scheme : str := lit "cog://".
Definition colon : ascii := ":"%char.
Definition slash : ascii := "/"%char.
Definition qmark : ascii := "?"%char.
Definition amp : ascii := "&"%char.

(** [URIX_LEN] is [sizeof("cog://") - 1]. *)
Definition URIX_LEN : Z := 6.

Lemma size_scheme : size scheme = URIX_LEN.
Proof. done. Qed.

Definition unknown_uri (uri : str) : exn := IOException "Unknown URI '%s'\n" [FStr uri].
Definition unknown_config (pcfg : str) : exn :=
  IOException "Unknown configuration %s" [FStr pcfg].

(** The arguments after the question mark: every one is refused, the first one
    by the first turn of the loop, the only one after the loop. *)
Definition refuse_args {A} (args : str) : outcome A :=
  let pamp := find amp args 0 in
  if (pamp =? npos)%Z then Throw (unknown_config args)
  else
    pcfg ← or_throw OutOfRange (substr args 0 pamp);
    Throw (unknown_config pcfg).

Definition DEFAULT_COGSERVER_PORT : str := lit "17001".

(** [host = text; slash = host.find_first_of(":/"); if (npos != slash) host =
    host.substr(0, slash)], for the text after the scheme. *)
Definition host_of (host : str) : outcome str :=
  let slash := find_first_of [colon; slash] host 0 in
  if (slash =? npos)%Z then Ok host
  else or_throw OutOfRange (substr host 0 slash).

(** The port: what follows the first colon of the URI found after the host, up
    to a slash. *)
Definition port_of (uri host : str) : outcome str :=
  let col := find colon uri (wadd URIX_LEN (size host)) in
  if (col =? npos)%Z then Ok DEFAULT_COGSERVER_PORT
  else
    port ← or_throw OutOfRange (substr_from uri (wadd col 1));
    let sl := find slash port 0 in
    if (sl =? npos)%Z then Ok port
    else or_throw OutOfRange (substr port 0 sl).

(** ** Reference *)

(** The prefix of [s] without characters in [p], and the rest. *)
Fixpoint before (p : ascii -> bool) (s : str) : str :=
  match s with
  | [] => []
  | c :: s' => if p c then [] else c :: before p s'
  end.

Definition rest_after (p : ascii -> bool) (s : str) : str := drop (length (before p s)) s.

Definition is_sep (c : ascii) : bool := char_in [colon; slash] c.

(** The port of a URI, given what follows the host: [None] when no colon is
    left. *)
Definition port_ref (rest : str) : str :=
  match rest_after (chareq colon) rest with
  | _ :: q => before (chareq slash) q
  | [] => DEFAULT_COGSERVER_PORT
  end.

Lemma before_split p s :
  s = before p s ++ rest_after p s /\ Forall (fun c => p c = false) (before p s) /\
  (rest_after p s = [] \/ exists c r, rest_after p s = c :: r /\ p c = true).
Proof.
  unfold rest_after. induction s as [|c s (H1 & H2 & H3)]; simpl.
  - split_cog.
  - destruct (p c) eqn:Hc; simpl.
    + split_cog.
    + split; [by f_equal|]. split; [by constructor|done].
Qed.

Lemma before_app p a c b :
  Forall (fun c => p c = false) a -> p c = true -> before p (a ++ c :: b) = a.
Proof. induction 1 as [|x a Hx _ IH]; simpl; intros Hc; [by rewrite Hc|]. by rewrite Hx, IH. Qed.

Lemma before_all p a : Forall (fun c => p c = false) a -> before p a = a.
Proof. induction 1 as [|x a Hx _ IH]; simpl; [done|]. by rewrite Hx, IH. Qed.

(** Cutting a string at the first character in [p], as the sources do it. *)
Lemma cut_spec p s :
  fits s ->
  (if (find_if p s 0 =? npos)%Z then Ok s else or_throw OutOfRange (substr s 0 (find_if p s 0)))
  = Ok (before p s).
Proof.
  intros Hfit. destruct (before_split p s) as (Heq & Hb & [Hr | (c & r & Hr & Hc)]);
    rewrite Hr in Heq.
  - rewrite app_nil_r in Heq. rewrite find_if_none0 by congruence. simpl. congruence.
  - assert (find_if p s 0 = size (before p s)) as Hf.
    { rewrite Heq at 1. by apply find_if_at0. }
    rewrite Hf, (proj2 (Z.eqb_neq _ _)).
    + rewrite Heq at 1. by rewrite substr_at0.
    + unfold fits in Hfit. rewrite Heq in Hfit. autorewrite with cog_rw in *.
      pose proof (size_nonneg r). unfold npos, size_mod in *. lia.
Qed.

Lemma host_of_spec t : fits t -> host_of t = Ok (before is_sep t).
Proof. intros. by apply cut_spec. Qed.

Lemma size_before p s : (size (before p s) <= size s)%Z.
Proof.
  destruct (before_split p s) as (Heq & _). rewrite Heq at 2. rewrite size_app.
  pose proof (size_nonneg (rest_after p s)). lia.
Qed.

(** The port extraction, for a URI that starts with the scheme and the host. *)
Lemma port_of_spec host rest :
  fits (scheme ++ host ++ rest) ->
  port_of (scheme ++ host ++ rest) host = Ok (port_ref rest).
Proof.
  intros Hfit. unfold port_of, port_ref. unfold fits in Hfit.
  pose proof (size_nonneg host). pose proof (size_nonneg rest).
  rewrite !size_app, size_scheme in Hfit. unfold URIX_LEN in Hfit.
  assert (wadd URIX_LEN (size host) = size (scheme ++ host)) as ->.
  { rewrite wadd_small, size_app, size_scheme by (unfold URIX_LEN, size_mod; lia). done. }
  rewrite app_assoc.
  destruct (before_split (chareq colon) rest) as (Heq & Hb & [Hr | (c & q & Hr & Hc)]);
    rewrite Hr in *.
  - rewrite app_nil_r in Heq. unfold find. rewrite find_if_none by congruence. done.
  - apply chareq_true in Hc as <-. rewrite Heq.
    assert (size rest = size (before (chareq colon) rest) + 1 + size q)%Z as Hsz.
    { rewrite Heq at 1. autorewrite with cog_rw. lia. }
    pose proof (size_nonneg (before (chareq colon) rest)). pose proof (size_nonneg q).
    unfold find. rewrite !find_if_at by (done || apply chareq_refl).
    rewrite (proj2 (Z.eqb_neq _ _))
      by (rewrite size_app, size_scheme; unfold npos, size_mod, URIX_LEN; lia).
    rewrite wadd_small by (rewrite size_app, size_scheme; unfold size_mod, URIX_LEN; lia).
    set (h := (scheme ++ host) ++ before (chareq colon) rest).
    replace ((scheme ++ host) ++ before (chareq colon) rest ++ colon :: q)
      with ((h ++ [colon]) ++ q) by (unfold h; by rewrite <- !app_assoc).
    replace (size (scheme ++ host) + size (before (chareq colon) rest) + 1)%Z
      with (size (h ++ [colon])) by (unfold h; autorewrite with cog_rw; lia).
    rewrite substr_from_at
      by (unfold fits, h; rewrite !size_app, size_scheme; unfold URIX_LEN;
          change (size [colon]) with 1%Z; lia).
    simpl. apply cut_spec. unfold fits. lia.
Qed.

(** [refuse_args] always throws, and names the text before the first
    ampersand. *)
Lemma refuse_args_spec {A} args :
  fits args ->
  refuse_args (A := A) args = Throw (unknown_config (before (chareq amp) args)).
Proof.
  intros Hfit. pose proof (cut_spec (chareq amp) args Hfit) as Hc.
  unfold refuse_args, find. destruct (_ =? npos)%Z.
  - by injection Hc as <-.
  - unfold or_throw in *. destruct (substr _ _ _); [|done]. by injection Hc as ->.
Qed.

(** A C string that starts with the scheme. *)
Lemma strncmp_scheme u :
  strncmp_eq u scheme = true <-> exists t, c_str u = scheme ++ t.
Proof.
  unfold strncmp_eq. rewrite bool_decide_eq_true. split.
  - intros H. exists (drop (length scheme) (c_str u)). by rewrite <- H at 1; rewrite take_drop.
  - intros [t ->]. by rewrite take_app_length.
Qed.

Lemma find_qmark u : fits u ->
  find qmark u 0 = npos <-> qmark ∉ u.
Proof.
  intros Hfit. unfold find. split.
  - intros Hn Hin. destruct (before_split (chareq qmark) u) as (Heq & Hb & [Hr|(c & r & Hr & Hc)]).
    + rewrite Hr, app_nil_r in Heq. rewrite Heq in Hin.
      eapply Forall_forall in Hb; [|exact Hin]. simpl in Hb. by rewrite chareq_refl in Hb.
    + rewrite Hr in Heq. unfold fits in Hfit.
      rewrite Heq, find_if_at0 in Hn by done. rewrite Heq in Hfit.
      autorewrite with cog_rw in Hfit. pose proof (size_nonneg r).
      unfold npos, size_mod in Hn. lia.
  - intros Hn. apply find_if_none0. apply Forall_forall. intros x Hx.
    apply chareq_false. by intros <-.
Qed.
