(* ===== verification/Atomese.v ===== *)
(** * Atoms, values and their S-expressions

    The AtomSpace, the atoms and the S-expression codec ([Sexpr]) come from
    the atomspace and atomspace-storage repositories.  They are the operations
    of a class over an abstract state [Heap], which holds the atoms, their
    values and the AtomSpaces they are in; every operation that may throw
    returns an [outcome].  The laws the codec obeys are separate classes, which
    only the theorems that need them assume. *)
From S2P Require Import Prelude CxxString Effects.

Class Atomese (Heap : Type) := {
  (** [Handle], non-null; [AtomSpace*], non-null; [ValuePtr], maybe null *)
  Handle : Type;
  AtomSpace : Type;
  Value : Type;
  AtomType : Type;
  Handle_eq_dec :: EqDecision Handle;
  Handle_countable :: Countable Handle;
  AtomSpace_eq_dec :: EqDecision AtomSpace;

  (** immutable parts of an atom *)
  get_type : Handle -> AtomType;
  is_node : Handle -> bool;
  get_name : Handle -> str;
  getOutgoingSet : Handle -> list Handle;
  getTypeName : AtomType -> str;
  (** the outgoing set of an atom exists before the atom *)
  rank : Handle -> nat;
  rank_outgoing : forall h o, o ∈ getOutgoingSet h -> rank o < rank h;
  (** an AtomSpace is an atom *)
  HandleCast : AtomSpace -> Handle;

  (** mutable parts *)
  getAtomSpace : Handle -> Heap -> option AtomSpace;
  haveValues : Handle -> Heap -> bool;
  getValue : Handle -> Handle -> Heap -> Value;
  setValue : Handle -> Handle -> Value -> Heap -> Heap;
  add_nocheck : option AtomSpace -> Handle -> Heap -> outcome Handle * Heap;
  as_add_atoms : AtomSpace -> Value -> Heap -> outcome Value * Heap;
  sexpr_add_atoms : AtomSpace -> Value -> Heap -> outcome Value * Heap;
  (** [get_handles_by_type(all, ATOM, true)] *)
  get_all_handles : AtomSpace -> Heap -> list Handle;

  (** encoders; the flag is [multi_space] *)
  encode_atom : Handle -> bool -> Heap -> str;
  encode_value : Value -> Heap -> str;
  encode_atom_values : Handle -> Heap -> str;
  encode_frame : option Handle -> Heap -> outcome str;

  (** decoders; they return the position they leave in [pos] *)
  decode_atom : str -> Z -> Heap -> outcome (Handle * Z) * Heap;
  (** the ones that are given the cache of frame identifiers write to it *)
  decode_atom_lr : str -> Z -> Z -> Z -> gmap str Handle * Heap ->
    outcome Handle * (gmap str Handle * Heap);
  decode_value : str -> Z -> Heap -> outcome (Value * Z) * Heap;
  decode_frame : option Handle -> str -> Z -> gmap str Handle * Heap ->
    outcome Handle * (gmap str Handle * Heap);
  (** [get_next_expr(s, l, r, line)]: the count of open parentheses and the new
      [l] and [r] *)
  get_next_expr : str -> Z -> Z -> Z -> outcome (Z * (Z * Z));
}.

(** ** Laws of the codec *)

(** An outcome of library code: a value or a C++ exception. *)
Definition proper {A} (o : outcome A) : Prop :=
  (exists a, o = Ok a) \/ (exists e, o = Throw e).

(** The library returns or throws; it does not hang, crash, or run forever. *)
Class WellBehaved {Heap} (AT : Atomese Heap) : Prop := {
  add_nocheck_proper : forall a h w, proper (add_nocheck a h w).1;
  as_add_atoms_proper : forall a v w, proper (as_add_atoms a v w).1;
  sexpr_add_atoms_proper : forall a v w, proper (sexpr_add_atoms a v w).1;
  encode_frame_proper : forall h w, proper (encode_frame (Some h) w);
  decode_atom_proper : forall s p w, proper (decode_atom s p w).1;
  decode_atom_lr_proper : forall s l r n x, proper (decode_atom_lr s l r n x).1;
  decode_value_proper : forall s p w, proper (decode_value s p w).1;
  decode_frame_proper : forall h s p x, proper (decode_frame h s p x).1;
  get_next_expr_proper : forall s l r n, proper (get_next_expr s l r n);
}.

(** The decoders invert the encoders in any context, and stop just behind the
    expression.  An atom is a value, so [Sexpr::decode_value] reads atoms too. *)
Class CodecLaws {Heap} (AT : Atomese Heap) : Prop := {
  decode_encode_atom : forall h b w0 w pre post,
    decode_atom (pre ++ encode_atom h b w0 ++ post) (size pre) w
    = (Ok (h, (size pre + size (encode_atom h b w0))%Z), w);
  decode_encode_value : forall v w0 w pre post,
    decode_value (pre ++ encode_value v w0 ++ post) (size pre) w
    = (Ok (v, (size pre + size (encode_value v w0))%Z), w);
  decode_value_atom : forall h b w0 w pre post, exists v,
    decode_value (pre ++ encode_atom h b w0 ++ post) (size pre) w
    = (Ok (v, (size pre + size (encode_atom h b w0))%Z), w);
  (** an encoded atom starts with a parenthesis and has no spaced dot *)
  encode_atom_paren : forall h b w, exists s, encode_atom h b w = "("%char :: s;
}.

(** Running library code never gets stuck. *)
Lemma wp_on_proper {S X A} `{Has X S} N (f : X -> outcome A * X) Q E (s : S) :
  proper (f (the s)).1 ->
  (forall a x, f (the s) = (Ok a, x) -> Q a (put x s)) ->
  (forall e x, f (the s) = (Throw e, x) -> E e (put x s)) ->
  wp N (on f) Q E s.
Proof.
  intros Hp HQ HE. apply wp_on; [..|done|done]; intros x Hx; rewrite Hx in Hp;
    destruct Hp as [[] | []]; done.
Qed.

Lemma wp_lift_proper {S A} N (o : outcome A) Q E (s : S) :
  proper o -> (forall a, o = Ok a -> Q a s) -> (forall e, o = Throw e -> E e s) ->
  wp N (lift_outcome o) Q E s.
Proof. intros [[a ->]|[e ->]] HQ HE; [by apply HQ|by apply HE]. Qed.

Lemma keeps_on {S X A} `{Has X S} (I : S -> Prop) (f : X -> outcome A * X) :
  (forall x, proper (f x).1) -> (forall x s, I s -> I (put x s)) -> keeps I (on f).
Proof. intros Hf Hp s Hs. apply wp_on_proper; [apply Hf|..]; intros; by apply Hp. Qed.

Lemma keeps_lift {S A} (I : S -> Prop) (o : outcome A) :
  proper o -> keeps I (lift_outcome o).
Proof. intros Ho s Hs. by apply wp_lift_proper. Qed.

Lemma or_throw_proper {A} e (o : option A) : proper (or_throw e o).
Proof. destruct o; [left|right]; eauto. Qed.

#[export] Hint Resolve add_nocheck_proper as_add_atoms_proper sexpr_add_atoms_proper
  encode_frame_proper decode_atom_proper decode_atom_lr_proper decode_value_proper
  decode_frame_proper get_next_expr_proper or_throw_proper : cog.

(** One syntax-directed step of the proof that an operation keeps an invariant. *)
Ltac keeps_step :=
  lazymatch goal with
  | |- keeps _ (mret _) => apply keeps_ret
  | |- keeps _ (throw _) => apply keeps_throw
  | |- keeps _ nofuel => apply keeps_nofuel
  | |- keeps _ (gets _) => apply keeps_gets
  | |- keeps _ (modify _) =>
      let s := fresh "s" in let Hs := fresh "Hs" in
      apply keeps_modify; intros s Hs; eauto with cog
  | |- keeps _ (mbind _ _) => apply keeps_bind; [|intros]
  | |- keeps _ (when _ _) => apply keeps_when; intros
  | |- keeps _ (for_each _ _) => apply keeps_for_each; intros
  | |- keeps _ (on_pure _) => apply keeps_on_pure; eauto with cog
  | |- keeps _ (on _) => apply keeps_on; eauto with cog
  | |- keeps _ (lift_outcome _) => apply keeps_lift; eauto with cog
  | |- keeps _ (on_ioexception _ _) => apply keeps_on_ioexception
  | |- keeps _ (noexcept _) => apply keeps_noexcept
  | |- keeps _ (if ?b then _ else _) => destruct b
  | |- keeps _ (match ?x with _ => _ end) => destruct x
  end.
