(* ===== verification/Samples.v ===== *)
(** * Sample parameters

    A small concrete network and a small concrete atom store, which instantiate
    the classes [Sockets] and [Atomese] and satisfy all their laws.  The
    witnesses of the development evaluate its definitions on them; they model
    no code of the repository. *)
From S2P Require Import Prelude CxxString Effects Sockets Atomese.

(** ** A network with one scripted server

    The server answers every message by the chunks [net_answer] gives; all
    descriptors share one inbox. *)
Record net := mkNet {
  net_inbox : list str;
  net_answer : str -> list str;
  net_sent : list (Z * str);
  net_up : bool;                (* does [connect] succeed? *)
  net_broken : bool;            (* does [send] fail? *)
  net_fd : Z;                   (* the next descriptor *)
  net_closed : list Z;          (* the calls of [close] *)
}.

Definition net_recv (fd : Z) (n : nat) (w : net) : recv_result * net :=
  match w.(net_inbox) with
  | [] => (RecvEof, w)
  | d :: ds =>
      if decide (1 <= length d <= n)
      then (RecvData d, mkNet ds w.(net_answer) w.(net_sent) w.(net_up) w.(net_broken) w.(net_fd) w.(net_closed))
      else (RecvError, w)
  end.

Definition net_send (fd : Z) (m : str) (nosignal : bool) (w : net) : Z * net :=
  if w.(net_broken) || (fd <? 0)%Z then ((-1)%Z, w)
  else (size m, mkNet (w.(net_inbox) ++ w.(net_answer) m) w.(net_answer)
                  (w.(net_sent) ++ [(fd, m)]) w.(net_up) w.(net_broken) w.(net_fd) w.(net_closed)).

#[export] Program Instance net_sockets : Sockets net := {|
  addrinfo := unit;
  sys_getaddrinfo host port w :=
    if decide (host = []) then (((-2)%Z, []), w) else ((0%Z, [tt]), w);
  sys_freeaddrinfo _ w := w;
  sys_socket _ w := (w.(net_fd),
    mkNet w.(net_inbox) w.(net_answer) w.(net_sent) w.(net_up) w.(net_broken)
      (w.(net_fd) + 1)%Z w.(net_closed));
  sys_connect _ _ w := (if w.(net_up) then 0%Z else (-1)%Z, w);
  sys_setsockopt _ _ w := (0%Z, w);
  sys_send := net_send;
  sys_recv := net_recv;
  sys_close fd w :=
    mkNet w.(net_inbox) w.(net_answer) w.(net_sent) w.(net_up) w.(net_broken) w.(net_fd)
      (w.(net_closed) ++ [fd]);
  sys_errno _ := 111%Z;
  strerror _ := lit "error";
  left_first _ := true;
|}.
Next Obligation.
  intros fd n [[|d ds] ans snt up br k cl] d' w'; unfold net_recv; simpl; [done|].
  case_decide; [|done]. by intros [= <- _].
Qed.

(** ** Atoms that are numbers

    Atom number [n] is written as n letters a in parentheses, behind a tag that
    tells atoms, atoms with their frame, and values apart.  Odd atoms are links
    to the atom before them. *)
Definition letters (n : nat) : str := replicate n "a"%char.
Definition tag_frame : str := ["m"%char].
Definition tag_value : str := ["v"%char].

Definition code (tag : str) (n : nat) : str := "("%char :: tag ++ letters n ++ [")"%char].

Fixpoint count_letters (s : str) : nat :=
  match s with
  | c :: s' => if chareq c "a" then S (count_letters s') else 0
  | [] => 0
  end.

Definition tag_length (s : str) : nat :=
  match s with c :: _ => if chareq c "m" || chareq c "v" then 1 else 0 | [] => 0 end.

Definition parse_code (s : str) (pos : Z) : outcome (nat * Z) :=
  match drop (Z.to_nat pos) s with
  | c :: t =>
      if chareq c "(" then
        let k := tag_length t in
        let n := count_letters (drop k t) in
        match drop n (drop k t) with
        | c' :: _ => if chareq c' ")" then Ok (n, (pos + 2 + Z.of_nat k + Z.of_nat n)%Z)
                     else Throw (ForeignException 1)
        | [] => Throw (ForeignException 1)
        end
      else Throw (ForeignException 1)
  | [] => Throw (ForeignException 1)
  end.

Record store := mkStore {
  st_values : gmap (nat * nat) nat;
  st_homes : gmap nat nat;
  st_spaces : gmap nat (list nat);
}.

Definition st_set (h k v : nat) (w : store) : store :=
  mkStore (<[(h, k) := v]> w.(st_values)) w.(st_homes) w.(st_spaces).

Definition st_add (a : option nat) (h : nat) (w : store) : outcome nat * store :=
  match a with
  | None => (Throw (ForeignException 2), w)
  | Some a =>
      match w.(st_homes) !! h with
      | Some _ => (Ok h, w)
      | None => (Ok h, mkStore w.(st_values) (<[h := a]> w.(st_homes))
                         (<[a := default [] (w.(st_spaces) !! a) ++ [h]]> w.(st_spaces)))
      end
  end.

(** A frame is entered under its name. *)
Definition st_decode_frame (s : str) (p : Z) (x : gmap str nat * store)
    : outcome nat * (gmap str nat * store) :=
  match parse_code s p with
  | Ok np => (Ok np.1, (<[letters np.1 := np.1]> x.1, x.2))
  | Throw e => (Throw e, x)
  | _ => (Throw (ForeignException 1), x)
  end.

Definition next_expr (s : str) (l r : Z) : Z * (Z * Z) :=
  match drop (Z.to_nat l) s with
  | c :: t =>
      match index_of (chareq ")") t with
      | Some i =>
          if chareq c "(" && (l <? r)%Z then (0%Z, (l, (l + 1 + Z.of_nat i)%Z))
          else (0%Z, (r, r))
      | None => (0%Z, (r, r))
      end
  | [] => (0%Z, (r, r))
  end.

#[export] Program Instance store_atomese : Atomese store := {|
  Handle := nat;
  AtomSpace := nat;
  Value := nat;
  AtomType := bool;
  get_type n := Nat.even n;
  is_node n := Nat.even n;
  get_name n := letters n;
  getOutgoingSet n := if Nat.odd n then [n - 1] else [];
  getTypeName b := if b : bool then lit "Concept" else lit "List";
  rank n := n;
  HandleCast a := a;
  getAtomSpace h w := w.(st_homes) !! h;
  haveValues h w := bool_decide (Exists (fun kv => kv.1.1 = h) (map_to_list w.(st_values)));
  getValue h k w := default 0 (w.(st_values) !! (h, k));
  setValue h k v w := st_set h k v w;
  add_nocheck := st_add;
  as_add_atoms a v w := (Ok v, w);
  sexpr_add_atoms a v w := (Ok v, w);
  get_all_handles a w := default [] (w.(st_spaces) !! a);
  encode_atom n multi w := code (if multi : bool then tag_frame else []) n;
  encode_value v w := code tag_value v;
  encode_atom_values h w :=
    "("%char :: concat (map (fun kv => if decide (kv.1.1 = h)
      then "("%char :: code [] kv.1.2 ++ lit " . " ++ code tag_value kv.2 ++ [")"%char]
      else []) (map_to_list w.(st_values))) ++ [")"%char];
  encode_frame h w :=
    match h with Some h => Ok (code [] h) | None => Undef end;
  decode_atom s p w := (parse_code s p, w);
  decode_atom_lr s l r n x := (np ← parse_code s l; Ok np.1, x);
  decode_value s p w := (parse_code s p, w);
  decode_frame h s p x := st_decode_frame s p x;
  get_next_expr s l r n := Ok (next_expr s l r);
|}.
Next Obligation.
  intros h o. simpl. destruct (Nat.odd h) eqn:Ho; [|by inversion 1].
  destruct h; [done|]. intros ->%list_elem_of_singleton. lia.
Qed.

(** ** The laws *)

Lemma count_letters_app n c s :
  c <> "a"%char -> count_letters (letters n ++ c :: s) = n.
Proof.
  intros Hc. unfold letters. induction n as [|n IH]; simpl.
  - by rewrite (proj2 (chareq_false c "a")).
  - f_equal. exact IH.
Qed.

Lemma tag_length_none n s : tag_length (letters n ++ ")"%char :: s) = 0.
Proof. by destruct n. Qed.

Lemma parse_code_spec tag n pre post :
  tag = [] \/ tag = tag_frame \/ tag = tag_value ->
  parse_code (pre ++ code tag n ++ post) (size pre)
  = Ok (n, (size pre + size (code tag n))%Z).
Proof.
  intros Htag. unfold parse_code. rewrite drop_size.
  assert (code tag n ++ post = "("%char :: tag ++ letters n ++ ")"%char :: post) as ->.
  { unfold code. simpl. by rewrite <- !app_assoc. }
  rewrite chareq_refl.
  assert (tag_length (tag ++ letters n ++ ")"%char :: post) = length tag) as ->.
  { destruct Htag as [->|[->| ->]]; [apply tag_length_none|done|done]. }
  rewrite drop_app_length, count_letters_app by done.
  rewrite drop_app_length' by (unfold letters; by rewrite length_replicate).
  cbn [chareq]. rewrite chareq_refl. do 2 f_equal. unfold code, letters.
  rewrite size_cons, !size_app. unfold size. rewrite length_replicate. simpl. lia.
Qed.

Lemma parse_code_proper s p : proper (parse_code s p).
Proof.
  unfold parse_code. repeat case_match; try (by left; eauto); by right; eauto.
Qed.

Lemma proper_bind {A B} (o : outcome A) (f : A -> outcome B) :
  proper o -> (forall a, proper (f a)) -> proper (o ≫= f).
Proof. intros [[a ->]|[e ->]] Hf; [apply Hf|right; by exists e]. Qed.

Lemma proper_ok {A} (a : A) : proper (Ok a).
Proof. left. by exists a. Qed.

#[export] Instance store_well_behaved : WellBehaved store_atomese.
Proof.
  split; intros; simpl; try apply proper_ok; try apply parse_code_proper.
  - unfold st_add. repeat case_match; try apply proper_ok. right. eauto.
  - apply proper_bind; [apply parse_code_proper|]. intros. apply proper_ok.
  - unfold st_decode_frame. destruct (parse_code s p); first [apply proper_ok | right; eauto].
Qed.

#[export] Instance store_codec : CodecLaws store_atomese.
Proof.
  split; intros.
  - refine (f_equal (fun o => (o, w)) (parse_code_spec _ _ pre post _)).
    destruct b; auto.
  - refine (f_equal (fun o => (o, w)) (parse_code_spec _ _ pre post _)). auto.
  - exists h. refine (f_equal (fun o => (o, w)) (parse_code_spec _ _ pre post _)).
    destruct b; auto.
  - unfold encode_atom; simpl. unfold code. eauto.
Qed.
