(* ===== verification/ListUtils.v ===== *)
(** * ListUtils.cc: decoding association lists

    [ro_decode_alist] is compiled into both client classes.  It decodes
    ((KEY . VALUE)(KEY2 . VALUE2)...) and stores the pairs on an atom.  It is
    stated over any state that has the atoms. *)
From S2P Require Import Prelude CxxString Effects Atomese.

Definition lparen : ascii := "("%char.
Definition rparen : ascii := ")"%char.
Definition blanks : str := [" "%char; nl; ascii_of_nat 9].
Definition dot : str := lit " . ".

Section ListUtils.
Context {Heap S : Type} {AT : Atomese Heap} `{!Has Heap S}.

(** The body of the loop after the two decodes: give the key and the value a
    home, and put the value on the atom. *)
Definition store_kv (as_ : option AtomSpace) (atom key : Handle) (val : Value) : M S unit :=
  match as_ with
  | Some a =>
      key ← on (add_nocheck (Some a) key);
      val ← on (as_add_atoms a val);
      on_pure (fun w => (tt, setValue atom key val w));;
      _ ← on (add_nocheck (Some a) atom);
      mret tt
  | None => on_pure (fun w => (tt, setValue atom key val w))
  end.

(** [while (npos != pos and pos < totlen) {...}].  The position after the dot
    is computed without looking whether a dot was found. *)
Fixpoint alist_loop (fuel : nat) (as_ : option AtomSpace) (atom : Handle)
    (alist : str) (totlen pos : Z) : M S unit :=
  match fuel with
  | 0 => nofuel
  | Datatypes.S fuel =>
      if negb (pos =? npos)%Z && (pos <? totlen)%Z then
        kp ← on (decode_atom alist (wadd pos 1));
        let pos := wadd (find_sub dot alist kp.2) 3 in
        vp ← on (decode_value alist pos);
        store_kv as_ atom kp.1 vp.1;;
        alist_loop fuel as_ atom alist totlen (find lparen alist vp.2)
      else mret tt
  end.

(** A [char] passed to [%x] is a signed integer. *)
Definition char_int (c : ascii) : Z :=
  let n := Z.of_nat (nat_of_ascii c) in if (n <? 128)%Z then n else (n - 256)%Z.

Definition bad_alist (alist : str) (pos : Z) (c : ascii) : exn :=
  SyntaxException "Badly formed alist: %lu/%lu 0x%x >>%s<<"
    [FInt pos; FInt (size alist); FInt (char_int c);
     FStr (c_str (drop (Z.to_nat pos) alist))].

Definition ro_decode_alist (fuel : nat) (as_ : option AtomSpace) (atom : Handle)
    (alist : str) : M S unit :=
  as_ ← (match as_ with
         | None => gets (fun s => getAtomSpace atom (the s))
         | Some a => mret (Some a)
         end);
  let pos := find_first_not_of blanks alist 0 in
  if (pos =? npos)%Z then mret tt
  else
    match alist !! Z.to_nat pos with
    | None => undef
    | Some c =>
        if negb (chareq lparen c) then throw (bad_alist alist pos c)
        else
          let pos := wadd pos 1 in
          alist_loop fuel as_ atom alist (size alist) (find lparen alist pos)
    end.
End ListUtils.

(** ** The text of an association list *)

Section text.
Context {Heap : Type} {AT : Atomese Heap}.

Definition pair_text (w : Heap) (kv : Handle * Value) : str :=
  lparen :: encode_atom kv.1 false w ++ dot ++ encode_value kv.2 w ++ [rparen].

Definition alist_text (w : Heap) (kvs : list (Handle * Value)) : str :=
  lparen :: concat (map (pair_text w) kvs) ++ [rparen; nl].
End text.

Section roundtrip.
Context {Heap S : Type} {AT : Atomese Heap} `{!Has Heap S}.
Context `{!HasLaws Heap S} {CL : CodecLaws AT}.

(** One pair of the list: the loop decodes it, stores it, and goes on behind
    it. *)
Lemma alist_loop_pair fuel as_ atom pre kv rest w (s : S) alist :
  alist = pre ++ pair_text w kv ++ rest -> fits alist ->
  alist_loop (Datatypes.S fuel) as_ atom alist (size alist) (size pre) s =
  (store_kv as_ atom kv.1 kv.2;;
   alist_loop fuel as_ atom alist (size alist)
     (find lparen alist (size (pre ++ pair_text w kv)))) s.
Proof.
  intros Hal Hfit. destruct kv as [k v].
  set (p1 := pre ++ [lparen]). set (ek := encode_atom k false w).
  set (ev := encode_value v w).
  assert (pre ++ pair_text w (k, v) = (((p1 ++ ek) ++ dot) ++ ev) ++ [rparen]) as Epre.
  { unfold p1, pair_text. by rewrite <- !app_assoc. }
  assert (alist = (((p1 ++ ek) ++ dot) ++ ev) ++ rparen :: rest) as E4.
  { rewrite Hal, app_assoc, Epre. by rewrite <- !app_assoc. }
  assert (alist = p1 ++ ek ++ (dot ++ ev ++ rparen :: rest)) as E1.
  { rewrite E4. by rewrite <- !app_assoc. }
  assert (alist = (p1 ++ ek) ++ dot ++ (ev ++ rparen :: rest)) as E2.
  { rewrite E4. by rewrite <- !app_assoc. }
  assert (alist = ((p1 ++ ek) ++ dot) ++ ev ++ (rparen :: rest)) as E3.
  { rewrite E4. by rewrite <- !app_assoc. }
  assert (size alist = size pre + 1 + size ek + 3 + size ev + 1 + size rest)%Z as Hsz.
  { rewrite E4. unfold p1. autorewrite with cog_rw. change (size dot) with 3%Z. lia. }
  pose proof (size_nonneg pre). pose proof (size_nonneg ek). pose proof (size_nonneg ev).
  pose proof (size_nonneg rest). unfold fits in Hfit.
  cbn [alist_loop].
  rewrite (proj2 (Z.eqb_neq _ _)) by (unfold npos, size_mod; lia).
  rewrite (proj2 (Z.ltb_lt _ _)) by lia. cbn [negb andb].
  rewrite wadd_small by (unfold size_mod; lia).
  replace (size pre + 1)%Z with (size p1) by (unfold p1; by rewrite size_app).
  erewrite bind_ok.
  2: { apply on_same. rewrite E1. apply decode_encode_atom. }
  cbn [fst snd]. fold ek. rewrite <- (size_app p1 ek).
  assert (find_sub dot alist (size (p1 ++ ek)) = size (p1 ++ ek)) as ->.
  { rewrite E2. apply find_sub_at. }
  rewrite wadd_small by (unfold p1, size_mod; rewrite !size_app; change (size [lparen]) with 1%Z; lia).
  replace (size (p1 ++ ek) + 3)%Z with (size ((p1 ++ ek) ++ dot)) by (by rewrite size_app).
  erewrite bind_ok.
  2: { apply on_same. rewrite E3. apply decode_encode_value. }
  cbn [fst snd]. fold ev. rewrite <- (size_app ((p1 ++ ek) ++ dot) ev).
  assert (find lparen alist (size (((p1 ++ ek) ++ dot) ++ ev))
          = find lparen alist (size (pre ++ pair_text w (k, v)))) as ->; [|done].
  rewrite Epre. unfold find. rewrite E4, find_if_skip by done. by rewrite <- !app_assoc.
Qed.

Lemma alist_loop_pairs as_ atom w kvs : forall fuel pre (s : S) alist,
  length kvs < fuel -> alist = pre ++ concat (map (pair_text w) kvs) ++ [rparen; nl] ->
  fits alist ->
  alist_loop fuel as_ atom alist (size alist) (find lparen alist (size pre)) s
  = for_each (fun kv => store_kv as_ atom kv.1 kv.2) kvs s.
Proof.
  induction kvs as [|kv kvs IH]; intros [|fuel] pre s alist Hf Hal Hfit; simpl in Hf; try lia.
  - cbn [concat map app] in Hal. rewrite Hal. unfold find.
    rewrite find_if_none by (repeat constructor). done.
  - cbn [concat map] in Hal. rewrite <- app_assoc in Hal.
    assert (find lparen alist (size pre) = size pre) as ->.
    { rewrite Hal. unfold find, pair_text. rewrite <- !app_comm_cons.
      by apply find_if_here. }
    rewrite (alist_loop_pair _ _ _ _ kv _ w _ _ Hal Hfit). cbn [for_each].
    apply bind_ext. intros _ s' _. apply IH; [lia| |done].
    by rewrite Hal, <- app_assoc.
Qed.

Lemma ro_decode_alist_text fuel as_ atom w kvs (s : S) :
  length kvs < fuel -> fits (alist_text w kvs) ->
  ro_decode_alist fuel as_ atom (alist_text w kvs) s =
  for_each (fun kv => store_kv
    (match as_ with Some a => Some a | None => getAtomSpace atom (the s) end)
    atom kv.1 kv.2) kvs s.
Proof.
  intros Hf Hfit. unfold ro_decode_alist.
  erewrite (bind_ok _ _ _ (match as_ with Some a => Some a | None => _ end)) by by destruct as_.
  set (home := match as_ with Some a => Some a | None => _ end).
  unfold find_first_not_of.
  replace (find_if _ (alist_text w kvs) 0) with 0%Z by (symmetry; by apply find_if_here0).
  change (alist_text w kvs !! Z.to_nat 0) with (Some lparen).
  change (0 =? npos)%Z with false. cbv beta iota. rewrite chareq_refl. cbn [negb].
  by apply (alist_loop_pairs home atom w kvs fuel [lparen]).
Qed.

(** C24. Decoding inverts printing: on the text of any list of pairs,
    [ro_decode_alist] does exactly what storing the pairs one by one does, in
    their order, with every key and value added to the given AtomSpace (or to
    the atom's own one when none is given), exceptions included; and one turn
    of the loop per pair suffices. *)
Theorem ro_decode_alist_roundtrip fuel as_ atom w kvs (s : S) :
  length kvs < fuel -> fits (alist_text w kvs) ->
  ro_decode_alist fuel as_ atom (alist_text w kvs) s =
  for_each (fun kv => store_kv
    (match as_ with Some a => Some a | None => getAtomSpace atom (the s) end)
    atom kv.1 kv.2) kvs s.
Proof. apply ro_decode_alist_text. Qed.

(** ** A reply without the dot *)

(** ((A)(B)...: a reply that begins with two pairs without dot and value. *)
Definition dotless_text (w : Heap) (a b : Handle) (rest : str) : str :=
  [lparen; lparen] ++ encode_atom a false w ++ [rparen; lparen] ++ encode_atom b false w ++ rest.

(** One turn of the loop on it, at either pair: no dot is found, so the value
    is decoded at offset 2, and the loop resumes behind the first atom. *)
Lemma dotless_turn fuel as_ atom w a b rest pre c post (s : S) alist :
  alist = dotless_text w a b rest -> fits alist -> index_of_sub dot alist = None ->
  alist = pre ++ lparen :: encode_atom c false w ++ post ->
  exists v,
  alist_loop (Datatypes.S fuel) as_ atom alist (size alist) (size pre) s =
  (store_kv as_ atom c v;;
   alist_loop fuel as_ atom alist (size alist)
     (size ([lparen; lparen] ++ encode_atom a false w ++ [rparen]))) s.
Proof.
  intros Hd Hfit Hdot Hpre.
  destruct (decode_value_atom (AT := AT) a false w (the s) [lparen; lparen]
    ([rparen; lparen] ++ encode_atom b false w ++ rest)) as [v Hv].
  exists v. cbn [alist_loop].
  assert (size alist = size pre + 1 + size (encode_atom c false w) + size post)%Z as Hsz.
  { rewrite Hpre. autorewrite with cog_rw. lia. }
  pose proof (size_nonneg pre). pose proof (size_nonneg post).
  pose proof (size_nonneg (encode_atom c false w)). unfold fits in Hfit.
  assert (0 < size (encode_atom c false w))%Z.
  { destruct (encode_atom_paren (AT := AT) c false w) as [x ->]. rewrite size_cons.
    pose proof (size_nonneg x). lia. }
  rewrite (proj2 (Z.eqb_neq _ _)) by (unfold npos, size_mod; lia).
  rewrite (proj2 (Z.ltb_lt _ _)) by lia. cbn [negb andb].
  rewrite wadd_small by (unfold size_mod; lia).
  erewrite bind_ok.
  2: { apply on_same. rewrite Hpre.
       replace (size pre + 1)%Z with (size (pre ++ [lparen])) by (by rewrite size_app).
       replace (pre ++ lparen :: encode_atom c false w ++ post)
         with ((pre ++ [lparen]) ++ encode_atom c false w ++ post) by (by rewrite <- app_assoc).
       apply decode_encode_atom. }
  cbn [fst snd]. rewrite find_sub_none by done.
  change (wadd npos 3) with (size [lparen; lparen]).
  erewrite bind_ok. 2: { apply on_same. rewrite Hd. exact Hv. }
  cbn [fst snd].
  assert (find lparen alist (size [lparen; lparen] + size (encode_atom a false w))
    = size ([lparen; lparen] ++ encode_atom a false w ++ [rparen])) as ->; [|done].
  rewrite <- size_app, Hd. unfold find, dotless_text. rewrite app_assoc.
  etrans; [by apply (find_if_skip _ _ rparen (lparen :: _))|].
  rewrite (app_assoc [lparen; lparen]). by apply find_if_here.
Qed.

(** C39. A reply that begins with two pairs without dot and value, ((A)(B)...,
    and has no dot behind them either, makes [ro_decode_alist] run forever:
    [find] returns [npos], adding 3 wraps to offset 2, so the loop decodes the
    text at offset 2 as the value and resumes at the second pair, turn after
    turn.  No fuel suffices, whatever follows the two pairs, and whether or not
    there is an AtomSpace for the atoms to join, as long as storing a pair does
    not throw. *)
Theorem ro_decode_alist_dotless_diverges fuel as_ atom w a b rest (s : S) :
  let home := match as_ with Some x => Some x | None => getAtomSpace atom (the s) end in
  fits (dotless_text w a b rest) -> index_of_sub dot (dotless_text w a b rest) = None ->
  (forall k v s', (store_kv home atom k v s').1 = Ok tt) ->
  (ro_decode_alist fuel as_ atom (dotless_text w a b rest) s).1 = NoFuel.
Proof.
  intros home Hfit Hdot Hstore. unfold ro_decode_alist.
  erewrite (bind_ok _ _ _ home) by by destruct as_.
  set (alist := dotless_text w a b rest) in *.
  unfold find_first_not_of.
  replace (find_if _ alist 0) with 0%Z by (symmetry; by apply find_if_here0).
  change (alist !! Z.to_nat 0) with (Some lparen).
  change (0 =? npos)%Z with false. cbv beta iota. rewrite chareq_refl. cbn [negb].
  replace (find lparen alist (wadd 0 1)) with (size [lparen])
    by (symmetry; by apply (find_if_here _ [lparen])).
  assert (forall k v (m : M S unit) s', (forall s1, (m s1).1 = NoFuel) ->
    ((store_kv home atom k v;; m) s').1 = NoFuel) as Hgo.
  { intros k v m s' Hm. specialize (Hstore k v s').
    destruct (store_kv home atom k v s') as [o s1] eqn:Hs. cbn in Hstore. subst o.
    by rewrite (bind_ok _ _ _ _ _ Hs). }
  assert (forall f s', (alist_loop f home atom alist (size alist)
    (size ([lparen; lparen] ++ encode_atom a false w ++ [rparen])) s').1 = NoFuel) as Hloop.
  { induction f as [|f IH]; intros s'; [done|].
    edestruct (dotless_turn f home atom w a b rest) as [v ->]; [done..| |by apply Hgo].
    unfold alist, dotless_text. by rewrite <- !app_assoc. }
  destruct fuel as [|fuel]; [done|].
  edestruct (dotless_turn fuel home atom w a b rest [lparen] a) as [v ->]; [done..|].
  by apply Hgo.
Qed.
End roundtrip.

(** ** Safety *)

Section safe.
Context {Heap S : Type} {AT : Atomese Heap} `{!Has Heap S} {WB : WellBehaved AT}.
Context (I : S -> Prop) (Hput : forall (x : Heap) s, I s -> I (put x s)).

Lemma store_kv_keeps as_ atom k v : keeps I (store_kv as_ atom k v).
Proof.
  destruct as_; simpl; [|by apply keeps_on_pure].
  repeat first [apply keeps_bind; intros | apply keeps_on | apply keeps_on_pure
               | apply keeps_ret]; auto with cog.
Qed.

Lemma alist_loop_keeps fuel as_ atom alist totlen : forall pos,
  keeps I (alist_loop fuel as_ atom alist totlen pos).
Proof.
  induction fuel as [|fuel IH]; intros pos; simpl; [apply keeps_nofuel|].
  case_match; [|apply keeps_ret].
  repeat first [apply keeps_bind; intros | apply keeps_on | apply store_kv_keeps | apply IH];
    auto with cog.
Qed.

Lemma ro_decode_alist_keeps fuel as_ atom alist :
  keeps I (ro_decode_alist fuel as_ atom alist).
Proof.
  unfold ro_decode_alist. apply keeps_bind; [destruct as_; apply keeps_ret || apply keeps_gets|].
  intros home. case_match eqn:Hn; [apply keeps_ret|]. apply Z.eqb_neq in Hn.
  destruct (find_if_lookup _ _ _ (Z.le_refl 0) Hn) as [c Hc].
  unfold find_first_not_of. rewrite Hc.
  destruct (negb (chareq lparen c)); [apply keeps_throw|]. apply alist_loop_keeps.
Qed.
End safe.

Lemma ro_decode_alist_moves {Heap S} {AT : Atomese Heap} `{!Has Heap S} (R : S -> S -> Prop)
    `{!PreOrder R} fuel as_ atom alist :
  (forall (x : Heap) s, R s (put x s)) -> moves R (ro_decode_alist fuel as_ atom alist).
Proof.
  intros Hput. unfold ro_decode_alist.
  repeat first [moves_step | apply Hput].
  generalize (find lparen alist (wadd (find_first_not_of blanks alist 0) 1)) as pos.
  generalize fuel as n. induction n as [|n IH]; intros pos; cbn [alist_loop]; unfold store_kv;
    repeat first [moves_step | apply Hput | apply IH].
Qed.

Lemma alist_loop_blind {Heap S} {AT : Atomese Heap} `{!Has Heap S} (g : S -> S) as_ atom alist totlen
    fuel : forall pos,
  (forall s, the (g s) = (the s : Heap)) -> (forall (x : Heap) s, put x (g s) = g (put x s)) ->
  blind g (alist_loop fuel as_ atom alist totlen pos).
Proof.
  intros pos H1 H2. revert pos. induction fuel as [|fuel IH]; intros pos; cbn [alist_loop];
    unfold store_kv; repeat first [blind_step | apply IH | apply H1 | apply H2].
Qed.

Lemma ro_decode_alist_blind {Heap S} {AT : Atomese Heap} `{!Has Heap S} (g : S -> S)
    fuel as_ atom alist :
  (forall s, the (g s) = (the s : Heap)) -> (forall (x : Heap) s, put x (g s) = g (put x s)) ->
  blind g (ro_decode_alist fuel as_ atom alist).
Proof.
  intros H1 H2. unfold ro_decode_alist.
  repeat first [apply alist_loop_blind | blind_step | by rewrite H1]; done.
Qed.
