(* ===== verification/SimpleStorage.v ===== *)
(** * CogSimpleStorage.cc: the single-socket client

    The state of a [CogSimpleStorage] object, its constructor, [open],
    [close], the proxy calls, [do_send], [do_recv] and [barrier].

    The state holds the members of the class, the world behind the socket, the
    atoms, the thread's random generator, and one history variable: [_trace]
    lists the [do_send] and [do_recv] calls that succeeded, oldest first, each
    with whether [_mtx] was held.  No operation reads the trace. *)
From S2P Require Import Prelude CxxString Effects Sockets RecvBuf Barrier Uri Atomese.

Inductive io_event :=
| IoSend (locked : bool) (m : str)
| IoRecv (locked : bool) (r : str).

Section SimpleStorage.
Context {W Heap : Type} `{SK : Sockets W} {AT : Atomese Heap}.

Record CogSimpleStorage := mkSimple {
  world : W;
  heap : Heap;
  _name : str;                         (* StorageNode: the URI as given *)
  _atom_space : option AtomSpace;      (* StorageNode: where the node lives *)
  _uri : str;
  _sockfd : Z;
  _multi_space : bool;
  _frame_map : gmap Handle str;
  _fid_map : gmap str Handle;
  _mtx : bool;                         (* held by this thread *)
  _mtx_frame : bool;
  rng : Z;                             (* thread_local std::minstd_rand *)
  _trace : list io_event;
}.

Definition set_world (w : W) (s : CogSimpleStorage) : CogSimpleStorage :=
  mkSimple w s.(heap) s.(_name) s.(_atom_space) s.(_uri) s.(_sockfd) s.(_multi_space)
    s.(_frame_map) s.(_fid_map) s.(_mtx) s.(_mtx_frame) s.(rng) s.(_trace).
Definition set_heap (h : Heap) (s : CogSimpleStorage) : CogSimpleStorage :=
  mkSimple s.(world) h s.(_name) s.(_atom_space) s.(_uri) s.(_sockfd) s.(_multi_space)
    s.(_frame_map) s.(_fid_map) s.(_mtx) s.(_mtx_frame) s.(rng) s.(_trace).
Definition set_sockfd (fd : Z) (s : CogSimpleStorage) : CogSimpleStorage :=
  mkSimple s.(world) s.(heap) s.(_name) s.(_atom_space) s.(_uri) fd s.(_multi_space)
    s.(_frame_map) s.(_fid_map) s.(_mtx) s.(_mtx_frame) s.(rng) s.(_trace).
Definition set_multi (b : bool) (s : CogSimpleStorage) : CogSimpleStorage :=
  mkSimple s.(world) s.(heap) s.(_name) s.(_atom_space) s.(_uri) s.(_sockfd) b
    s.(_frame_map) s.(_fid_map) s.(_mtx) s.(_mtx_frame) s.(rng) s.(_trace).
Definition set_frames (fm : gmap Handle str) (im : gmap str Handle)
    (s : CogSimpleStorage) : CogSimpleStorage :=
  mkSimple s.(world) s.(heap) s.(_name) s.(_atom_space) s.(_uri) s.(_sockfd)
    s.(_multi_space) fm im s.(_mtx) s.(_mtx_frame) s.(rng) s.(_trace).
Definition set_mtx (b : bool) (s : CogSimpleStorage) : CogSimpleStorage :=
  mkSimple s.(world) s.(heap) s.(_name) s.(_atom_space) s.(_uri) s.(_sockfd)
    s.(_multi_space) s.(_frame_map) s.(_fid_map) b s.(_mtx_frame) s.(rng) s.(_trace).
Definition set_mtx_frame (b : bool) (s : CogSimpleStorage) : CogSimpleStorage :=
  mkSimple s.(world) s.(heap) s.(_name) s.(_atom_space) s.(_uri) s.(_sockfd)
    s.(_multi_space) s.(_frame_map) s.(_fid_map) s.(_mtx) b s.(rng) s.(_trace).
Definition set_rng (r : Z) (s : CogSimpleStorage) : CogSimpleStorage :=
  mkSimple s.(world) s.(heap) s.(_name) s.(_atom_space) s.(_uri) s.(_sockfd)
    s.(_multi_space) s.(_frame_map) s.(_fid_map) s.(_mtx) s.(_mtx_frame) r s.(_trace).
Definition add_trace (e : io_event) (s : CogSimpleStorage) : CogSimpleStorage :=
  mkSimple s.(world) s.(heap) s.(_name) s.(_atom_space) s.(_uri) s.(_sockfd)
    s.(_multi_space) s.(_frame_map) s.(_fid_map) s.(_mtx) s.(_mtx_frame) s.(rng)
    (s.(_trace) ++ [e]).

#[export] Instance simple_world : Has W CogSimpleStorage :=
  {| the := world; put := set_world |}.
#[export] Instance simple_heap : Has Heap CogSimpleStorage :=
  {| the := heap; put := set_heap |}.
#[export] Instance simple_world_laws : HasLaws W CogSimpleStorage.
Proof. split; by intros; repeat match goal with s : CogSimpleStorage |- _ => destruct s end. Qed.
#[export] Instance simple_heap_laws : HasLaws Heap CogSimpleStorage.
Proof. split; by intros; repeat match goal with s : CogSimpleStorage |- _ => destruct s end. Qed.

(** The frame identifiers with the atoms, for the decoders that take both. *)
#[export] Instance simple_fids : Has (gmap str Handle * Heap) CogSimpleStorage :=
  {| the := fun s => (s.(_fid_map), s.(heap));
     put := fun x s => set_frames s.(_frame_map) x.1 (set_heap x.2 s) |}.
#[export] Instance simple_fids_laws : HasLaws (gmap str Handle * Heap) CogSimpleStorage.
Proof.
  split; intros; repeat match goal with
    | s : CogSimpleStorage |- _ => destruct s
    | x : (gmap str Handle * Heap)%type |- _ => destruct x
    end; done.
Qed.

Definition mtx : Mutex CogSimpleStorage := {| held := _mtx; set_held := set_mtx |}.
Definition mtx_frame : Mutex CogSimpleStorage :=
  {| held := _mtx_frame; set_held := set_mtx_frame |}.

Abbreviation Simple := (M CogSimpleStorage).

(** ** Construction *)

(** [init(_name.c_str())]: the [_uri] of the new object. *)
Definition init (uri : str) : outcome str :=
  if negb (strncmp_eq uri scheme) then Throw (unknown_uri (c_str uri))
  else
    let _uri := c_str uri in
    let parg := find qmark _uri 0 in
    if negb (parg =? npos)%Z then
      args ← or_throw OutOfRange (substr_from _uri (wadd parg 1));
      _ ← or_throw OutOfRange (substr _uri 0 parg);
      refuse_args args
    else Ok _uri.

(** The constructor; the AtomSpace is set when the node is put in one. *)
Definition construct (w : W) (h : Heap) (seed : Z) (home : option AtomSpace)
    (uri : str) : outcome CogSimpleStorage :=
  u ← init uri;
  Ok (mkSimple w h uri home u (-1)%Z false ∅ ∅ false false (minstd_seed seed) []).

(** The two constructors of the node class, which pass the URI on. *)
Definition CogSimpleStorageNode := construct.

(** ** Sending and receiving *)

Definition connected : Simple bool := gets (fun s => (0 <? s.(_sockfd))%Z).

Definition not_connected : exn := IOException "Not connected to cogserver!" [].

Definition do_send (m : str) : Simple unit :=
  c ← connected;
  if negb c then throw not_connected
  else
    fd ← gets _sockfd;
    rc ← on_pure (sys_send fd m false);
    if (rc <? 0)%Z then throw_errno "Unable to talk to cogserver: %s"
    else modify (fun s => add_trace (IoSend s.(_mtx) m) s).

(** At the end of the stream: [unistd_close(_sockfd); _sockfd = 0;]. *)
Definition on_eof : Simple unit :=
  fd ← gets _sockfd;
  on_pure (fun w => (tt, sys_close fd w));;
  modify (set_sockfd 0%Z).

Context (fuel : nat).

Definition do_recv (garbage : bool) : Simple str :=
  c ← connected;
  if negb c then throw not_connected
  else
    r ← recv_loop _sockfd 4096 on_eof fuel garbage true [];
    modify (fun s => add_trace (IoRecv s.(_mtx) r) s);;
    mret r.

(** ** Barrier *)

Definition draw : Simple Z :=
  modify (fun s => set_rng (minstd_next s.(rng)) s);;
  gets rng.

(** [(uint64_t(rng()) << 32) | rng()] *)
Definition draw_rnd : Simple Z :=
  first ← draw;
  second ← draw;
  left ← gets (fun s => left_first s.(world));
  mret (barrier_rnd left first second).

Definition barrier : Simple unit :=
  rnd ← draw_rnd;
  let msg := snprintf 64 (barrier_text (lit "1") rnd) in
  with_lock mtx (do_send msg).

(** ** Proxies, open and close *)

Definition proxy_open : Simple unit :=
  do_send (lit "(cog-proxy-open)" ++ [nl]);;
  _ ← do_recv false;
  mret tt.

Definition proxy_close : Simple unit :=
  barrier;;
  do_send (lit "(cog-proxy-close)" ++ [nl]);;
  _ ← do_recv false;
  mret tt.

(** The host and port of [open]. *)
Definition endpoint (uri : str) : outcome (str * str) :=
  let p := c_str uri in
  host ← (if (size p <? URIX_LEN)%Z then Undef
          else host_of (drop (Z.to_nat URIX_LEN) p));
  port ← port_of uri host;
  Ok (host, port).

(** The loop over the addresses: [None] when none answers, with the last
    [errno] of [connect]. *)
Fixpoint connect_loop (ps : list addrinfo) (norr : Z) : Simple (bool * Z) :=
  match ps with
  | [] => mret (false, norr)
  | p :: ps' =>
      fd ← on_pure (sys_socket p);
      modify (set_sockfd fd);;
      if (fd <? 0)%Z then connect_loop ps' norr
      else
        rc ← on_pure (sys_connect fd p);
        if (rc =? 0)%Z then mret (true, norr)
        else
          norr ← gets (fun s => sys_errno s.(world));
          on_pure (fun w => (tt, sys_close fd w));;
          modify (set_sockfd (-1)%Z);;
          connect_loop ps' norr
  end.

(** What [open] does under its lock.  A failing [setsockopt] only prints a
    message to stderr. *)
Definition open_locked : Simple unit :=
  uri ← gets _uri;
  hp ← lift_outcome (endpoint uri);
  let '(host, port) := hp in
  gai ← on_pure (sys_getaddrinfo (c_str host) (c_str port));
  let '(rc, servinfo) := gai in
  if negb (rc =? 0)%Z then
    throw (IOException "Unknown host %s: %s" [FStr host; FStr (strerror rc)])
  else
    found ← connect_loop servinfo 0;
    on_pure (fun w => (tt, sys_freeaddrinfo servinfo w));;
    if negb found.1 then
      throw (IOException "Unable to connect to host %s: %s"
               [FStr host; FStr (strerror found.2)])
    else
      fd ← gets _sockfd;
      _ ← on_pure (sys_setsockopt fd TCP_NODELAY);
      _ ← on_pure (sys_setsockopt fd TCP_QUICKACK);
      rc ← on_pure (sys_send fd (lit "sexpr" ++ [nl]) false);
      if (rc <? 0)%Z then
        e ← gets (fun s => sys_errno s.(world));
        throw (IOException "Unable to talk to cogserver at host %s: %s"
                 [FStr host; FStr (strerror e)])
      else
        _ ← do_recv true;
        mret tt.

Definition open : Simple unit :=
  c ← connected;
  if c : bool then mret tt else with_lock mtx open_locked.

Definition close : Simple unit :=
  c ← connected;
  when c (
    proxy_close;;
    fd ← gets _sockfd;
    on_pure (fun w => (tt, sys_close fd w)));;
  modify (set_sockfd (-1)%Z).

(** The destructor. *)
Definition destroy : Simple fate := noexcept close.

Definition monitor : Simple str :=
  gets (fun s => lit "Connected to " ++ s.(_uri) ++ [nl]).
End SimpleStorage.

(** ** The URI of an object *)

Section uri.
Context {Heap : Type} {AT : Atomese Heap}.

(** What the constructor leaves in [_uri]. *)
Definition uri_ok (u : str) : Prop :=
  fits u /\ Forall (.≠ nul) u /\ (exists t, u = scheme ++ t) /\ qmark ∉ u.

Lemma endpoint_spec t :
  fits (scheme ++ t) -> Forall (.≠ nul) t ->
  endpoint (scheme ++ t) = Ok (before is_sep t, port_ref (rest_after is_sep t)).
Proof.
  intros Hfit Hnul. unfold endpoint.
  rewrite c_str_id by (apply Forall_app; split; [by repeat constructor|done]).
  rewrite (proj2 (Z.ltb_ge _ _)) by (rewrite size_app, size_scheme; pose proof (size_nonneg t); lia).
  change (Z.to_nat URIX_LEN) with (length scheme). rewrite drop_app_length.
  rewrite host_of_spec.
  - cbn [mbind outcome_bind]. destruct (before_split is_sep t) as (Ht & _).
    assert (port_of (scheme ++ t) (before is_sep t) = Ok (port_ref (rest_after is_sep t))) as ->;
      [|done].
    rewrite Ht at 1. apply port_of_spec. by rewrite <- Ht.
  - unfold fits in *. rewrite size_app, size_scheme in Hfit. unfold URIX_LEN in Hfit. lia.
Qed.

Lemma endpoint_ok u : uri_ok u -> exists hp, endpoint u = Ok hp.
Proof.
  intros (Hfit & Hnul & [t ->] & _). apply Forall_app in Hnul as [_ Hnul].
  rewrite endpoint_spec by done. eauto.
Qed.
End uri.

(** ** What a send and a receive change

    A send changes the world and the trace; a receive also closes the
    descriptor when the stream has ended. *)
Section frame.
Context {W Heap : Type} {SK : Sockets W} {AT : Atomese Heap}.
Implicit Types (s : CogSimpleStorage (W := W) (Heap := Heap)).

Definition sent (m : str) s (w : W) := add_trace (IoSend s.(_mtx) m) (set_world w s).
Definition received (r : str) s (w : W) := add_trace (IoRecv s.(_mtx) r) (set_world w s).

Lemma set_world_id s : set_world s.(world) s = s.
Proof. by destruct s. Qed.

Lemma do_send_run m s rc w :
  (0 < s.(_sockfd))%Z -> sys_send s.(_sockfd) m false s.(world) = (rc, w) -> (0 <= rc)%Z ->
  do_send m s = (Ok tt, sent m s w).
Proof.
  intros Hfd Hsend Hrc. unfold do_send, connected, mbind, M_bind, gets, on_pure.
  rewrite (proj2 (Z.ltb_lt _ _)) by done. cbn [negb]. change (the s) with (world s).
  rewrite Hsend. by rewrite (proj2 (Z.ltb_ge _ _)).
Qed.

Lemma do_send_wp N m s (Q : unit -> CogSimpleStorage -> Prop) (E : exn -> CogSimpleStorage -> Prop) :
  (forall w, Q tt (sent m s w)) ->
  (forall e w, E e (set_world w s)) ->
  wp N (do_send m) Q E s.
Proof.
  intros HQ HE. unfold do_send. apply wp_bind, wp_gets.
  destruct (0 <? _sockfd s)%Z; simpl.
  - repeat wp_step. apply wp_on_pure. intros rc w _. destruct (rc <? 0)%Z.
    + unfold throw_errno. repeat wp_step. apply HE.
    + wp_step. apply HQ.
  - wp_step. rewrite <- (set_world_id s). apply HE.
Qed.

Lemma do_recv_wp fuel garbage s (Q : str -> CogSimpleStorage -> Prop)
    (E : exn -> CogSimpleStorage -> Prop) :
  (forall r w, (0 < s.(_sockfd))%Z -> Q r (received r s w)) ->
  ((s.(_sockfd) <= 0)%Z -> E not_connected s) ->
  (forall m w, (0 < s.(_sockfd))%Z -> E (talk_error m) (set_world w s)) ->
  (forall w, (0 < s.(_sockfd))%Z -> E closed_error (set_sockfd 0%Z (set_world w s))) ->
  wp True (do_recv fuel garbage) Q E s.
Proof.
  intros HQ HE HE1 HE0. unfold do_recv. apply wp_bind, wp_gets.
  destruct (0 <? _sockfd s)%Z eqn:Hc; simpl; [|wp_step; apply HE; by apply Z.ltb_ge].
  apply Z.ltb_lt in Hc. apply wp_bind.
  eapply (wp_mono _ _ (fun _ s' => exists w, s' = set_world w s) _ E); [| |done].
  - apply recv_loop_safe.
    + intros r' w' s' [w ->] _. by exists w'.
    + intros m s' [w ->]. by apply HE1.
    + intros s' [w ->]. unfold on_eof. repeat wp_step. apply wp_on_pure.
      intros [] w' _. wp_step. by apply HE0.
    + exists (world s). by rewrite set_world_id.
  - intros r s' [w ->]. repeat wp_step. by apply HQ.
Qed.
End frame.
