(* ===== verification/SimpleIO.v ===== *)
(** * CogSimpleIO.cc: storing and fetching with one socket

    Every operation of [CogSimpleStorage] that moves atoms: the text of its
    messages, its replies and what it does to the atoms, with the locks of each
    call.  Messages end in a newline; the ones a CogServer answers are followed
    by a [do_recv] inside the same critical section. *)
From S2P Require Import Prelude CxxString Effects Sockets RecvBuf Barrier Uri Atomese.
From S2P Require Import ListUtils SimpleStorage.

Section SimpleIO.
Context {W Heap : Type} {SK : Sockets W} {AT : Atomese Heap} (fuel : nat).
Abbreviation Simple := (M (CogSimpleStorage (W := W) (Heap := Heap))).

(** ** Frames *)

(** [cacheFrame]: the outgoing set first, then the frame itself, into both
    maps; [insert] does not overwrite.  [depth] bounds the recursion. *)
Definition frame_shorty (name : str) : str :=
  lit "(AtomSpace " ++ [dq] ++ name ++ [dq] ++ lit ")".

Definition insert_new {K V} `{Countable K} (k : K) (v : V) (m : gmap K V) : gmap K V :=
  match m !! k with Some _ => m | None => <[k := v]> m end.

Fixpoint cacheFrame (depth : nat) (hasp : Handle) : Simple unit :=
  match depth with
  | 0 => nofuel
  | S depth =>
      for_each (cacheFrame depth) (getOutgoingSet hasp);;
      let name := get_name hasp in
      let shorty := frame_shorty name in
      with_lock mtx_frame
        (modify (fun s => set_frames (insert_new hasp shorty s.(_frame_map))
                            (insert_new name hasp s.(_fid_map)) s))
  end.

Definition frame_text (f : str) : str :=
  lit "(define *-bogus-top-space-* " ++ f ++ lit ")" ++ [nl].

(** [writeFrame(hasp)]: the cached short form, or send the frame, cache it,
    and return the short form.  The null handle is [None]. *)
Definition writeFrame (hasp : option Handle) : Simple str :=
  it ← with_lock mtx_frame
         (gets (fun s => match hasp with
                         | Some h => s.(_frame_map) !! h
                         | None => None
                         end));
  match it with
  | Some shorty => mret shorty
  | None =>
      modify (set_multi true);;
      w ← gets heap;
      f ← lift_outcome (encode_frame hasp w);
      with_lock mtx (do_send (frame_text f));;
      match hasp with
      | None => undef
      | Some h =>
          cacheFrame (S (rank h)) h;;
          mret (frame_shorty (get_name h))
      end
  end.

Definition writeFrame_as (a : option AtomSpace) : Simple str :=
  writeFrame (HandleCast <$> a).

(** ** Storing *)

(** The guard that turns multi-space mode on; [storeAtom] alone also asks
    that the node be in an AtomSpace. *)
Definition set_multi_if (needs_home : bool) (h : Handle) : Simple unit :=
  multi ← gets _multi_space;
  home ← gets _atom_space;
  hs ← gets (fun s => getAtomSpace h s.(heap));
  when (negb multi && (negb needs_home || bool_decide (home <> None))
        && bool_decide (hs <> home)) (modify (set_multi true)).

Definition write_frame_if (h : Handle) : Simple unit :=
  multi ← gets _multi_space;
  if multi : bool then
    hs ← gets (fun s => getAtomSpace h s.(heap));
    _ ← writeFrame_as hs;
    mret tt
  else mret tt.

Definition tv_clobber : str :=
  lit "(Predicate " ++ [dq] ++ lit "*-TruthValueKey-*" ++ [dq] ++ lit ") #f)".

Definition store_text (h : Handle) (multi : bool) (w : Heap) : str :=
  if haveValues h w then
    lit "(cog-set-values! " ++ encode_atom h multi w ++ encode_atom_values h w ++
    lit ")" ++ [nl]
  else
    lit "(cog-set-value! " ++ encode_atom h multi w ++ tv_clobber ++ [nl].

Definition storeAtom (h : Handle) : Simple unit :=
  set_multi_if true h;;
  write_frame_if h;;
  multi ← gets _multi_space;
  w ← gets heap;
  with_lock mtx (do_send (store_text h multi w)).

Definition storeValue (h key : Handle) : Simple unit :=
  set_multi_if false h;;
  write_frame_if h;;
  multi ← gets _multi_space;
  w ← gets heap;
  let msg := lit "(cog-set-value! " ++ encode_atom h false w ++ encode_atom key multi w ++
             encode_value (getValue h key w) w ++ lit ")" ++ [nl] in
  with_lock mtx (do_send msg).

Definition updateValue (h key : Handle) (delta : Value) : Simple unit :=
  set_multi_if false h;;
  write_frame_if h;;
  multi ← gets _multi_space;
  w ← gets heap;
  let msg := lit "(cog-update-value! " ++ encode_atom h false w ++ encode_atom key multi w ++
             encode_value delta w ++ lit ")" ++ [nl] in
  with_lock mtx (do_send msg).

Definition set_proxy (h : Handle) : Simple unit :=
  storeAtom h;;
  w ← gets heap;
  let msg := lit "(cog-set-proxy! " ++ encode_atom h false w ++ lit ")" ++ [nl] in
  with_lock mtx (
    do_send msg;;
    _ ← do_recv fuel false;
    mret tt).

(** ** Loading values *)

(** Put a decoded value on an atom; the atoms inside it join the AtomSpace of
    [owner]. *)
Definition adopt_value (owner key : Handle) (vp : Value) : Simple unit :=
  as_ ← gets (fun s => getAtomSpace owner s.(heap));
  vp ← (match as_ with
        | Some a => on (sexpr_add_atoms a vp)
        | None => mret vp
        end);
  on_pure (fun w => (tt, setValue owner key vp w)).

Definition loadValue (h key : Handle) : Simple unit :=
  w ← gets heap;
  let msg := lit "(cog-value " ++ encode_atom h false w ++ encode_atom key false w ++
             lit ")" ++ [nl] in
  with_lock mtx (
    do_send msg;;
    rply ← do_recv fuel false;
    vp ← on (decode_value rply 0);
    adopt_value h key vp.1).

Definition removeAtom (frame : option AtomSpace) (h : Handle) (recursive : bool) : Simple unit :=
  w ← gets heap;
  let msg :=
    if recursive then lit "(cog-extract-recursive! " ++ encode_atom h false w ++ lit ")" ++ [nl]
    else lit "(cog-extract! " ++ encode_atom h false w ++ lit ")" ++ [nl] in
  with_lock mtx (
    do_send msg;;
    _ ← do_recv fuel false;
    mret tt).

(** ** Fetching atoms *)

(** The name of an atom in a request: its type, and its quoted name or its
    outgoing set. *)
Definition typena (h : Handle) (w : Heap) : str :=
  getTypeName (get_type h) ++ lit " " ++
  (if is_node h then [dq] ++ get_name h ++ [dq]
   else concat (map (fun ho => encode_atom ho false w) (getOutgoingSet h))).

Definition iknow (h : Handle) (w : Heap) : str :=
  (if is_node h then lit "(cog-node '" else lit "(cog-link '") ++
  typena h w ++ lit ")" ++ [nl].

Definition get_keys (h : Handle) (w : Heap) : str :=
  lit "(cog-keys->alist (" ++ typena h w ++ lit "))" ++ [nl].

Definition getAtom (h : Handle) : Simple unit :=
  w ← gets heap;
  with_lock mtx (
    do_send (iknow h w);;
    msg ← do_recv fuel false;
    if compare_eq msg 2 (lit "()") then mret tt
    else
      do_send (get_keys h w);;
      msg ← do_recv fuel false;
      home ← gets _atom_space;
      ro_decode_alist fuel home h msg).

(** The loop of [decode_atom_list]: bracket an expression, decode it, give it
    a home, and fetch its keys. *)
Fixpoint atom_list_loop (n : nat) (table : option AtomSpace) (expr : str)
    (l r end_ : Z) : Simple unit :=
  match n with
  | 0 => nofuel
  | S n =>
      nx ← lift_outcome (get_next_expr expr l r 0);
      let '(pcnt, (l, r)) := nx in
      if (l =? r)%Z then mret tt
      else if (0 <? pcnt)%Z then mret tt
      else
        h0 ← on (decode_atom_lr expr l r 0);
        hs ← gets (fun s => getAtomSpace h0 s.(heap));
        h ← (if bool_decide (hs = None) then on (add_nocheck table h0) else mret h0);
        e ← lift_outcome (or_throw OutOfRange (substr expr l (wadd (wsub r l) 1)));
        do_send (lit "(cog-keys->alist " ++ e ++ lit ")" ++ [nl]);;
        msg ← do_recv fuel false;
        ro_decode_alist fuel table h msg;;
        atom_list_loop n table expr (wadd r 1) end_ end_
  end.

Definition decode_atom_list (table : option AtomSpace) : Simple unit :=
  expr ← do_recv fuel false;
  let l := wadd (find lparen expr 0) 1 in
  let end_ := rfind rparen expr in
  if (l =? end_)%Z then mret tt
  else atom_list_loop fuel table expr l end_ end_.

(** A request whose reply is a list of atoms. *)
Definition request_atoms (table : option AtomSpace) (msg : str) : Simple unit :=
  do_send msg;;
  decode_atom_list table.

Definition fetchIncomingSet (table : option AtomSpace) (h : Handle) : Simple unit :=
  w ← gets heap;
  let atom := lit "(cog-incoming-set " ++ encode_atom h false w ++ lit ")" ++ [nl] in
  with_lock mtx (request_atoms table atom).

Definition fetchIncomingByType (table : option AtomSpace) (h : Handle) (t : AtomType)
    : Simple unit :=
  w ← gets heap;
  let msg := lit "(cog-incoming-by-type " ++ encode_atom h false w ++ lit " '" ++
             getTypeName t ++ lit ")" ++ [nl] in
  with_lock mtx (request_atoms table msg).

Definition loadAtomSpace (table : option AtomSpace) : Simple unit :=
  with_lock mtx (
    request_atoms table (lit "(cog-get-atoms 'Node #t)" ++ [nl]);;
    request_atoms table (lit "(cog-get-atoms 'Link #t)" ++ [nl])).

Definition loadType (table : option AtomSpace) (t : AtomType) : Simple unit :=
  let msg := lit "(cog-get-atoms '" ++ getTypeName t ++ lit ")" ++ [nl] in
  with_lock mtx (request_atoms table msg).

(** ** Whole spaces, deletion and queries *)

Definition storeAtomSpace (table : AtomSpace) : Simple unit :=
  all_atoms ← gets (fun s => get_all_handles table s.(heap));
  for_each storeAtom all_atoms.

Definition kill_data : Simple unit :=
  with_lock mtx (
    do_send (lit "(cog-atomspace-clear)" ++ [nl]);;
    _ ← do_recv fuel false;
    modify (set_multi false);;
    with_lock mtx_frame (modify (set_frames ∅ ∅))).

Definition query_text (query key : Handle) (meta : option Handle) (fresh : bool)
    (w : Heap) : str :=
  lit "(cog-execute-cache! " ++ encode_atom query false w ++ encode_atom key false w ++
  (match meta with
   | Some m => encode_atom m false w ++ (if fresh then lit " #t" else [])
   | None => []
   end) ++ lit ")" ++ [nl].

Definition runQuery (query key : Handle) (meta : option Handle) (fresh : bool)
    : Simple unit :=
  w ← gets heap;
  rply ← with_lock mtx (
    do_send (query_text query key meta fresh w);;
    do_recv fuel false);
  vp ← on (decode_value rply 0);
  adopt_value query key vp.1.

(** ** The frame graph *)

Definition storeFrameDAG (top : option AtomSpace) : Simple unit :=
  _ ← writeFrame_as top;
  modify (set_multi true).

(** [for (pr : _fid_map) _frame_map.insert({pr.second, shorty})] *)
Definition recache (fids : gmap str Handle) (fm : gmap Handle str) : gmap Handle str :=
  foldl (fun fm pr => insert_new pr.2 (frame_shorty pr.1) fm) fm (map_to_list fids).

Definition loadFrameDAG : Simple (list Handle) :=
  modify (set_multi true);;
  with_lock mtx (
    do_send (lit "(cog-atomspace)" ++ [nl]);;
    rply ← do_recv fuel false;
    if (size rply <? 5)%Z then mret []
    else
      top ← on (decode_frame None rply 0);
      modify (fun s => set_frames (recache s.(_fid_map) s.(_frame_map)) s.(_fid_map) s);;
      mret [top]).
End SimpleIO.
