(* ===== verification/SimpleSafety.v ===== *)
(** * The single-socket client never blocks itself

    Every public operation of [CogSimpleStorage], from a state where this
    thread holds neither mutex: it never locks a mutex it already holds, never
    leaves the bounds of its receive buffer nor meets other undefined behaviour,
    and both mutexes are free again afterwards, whether it returns or throws.
    The operations of CogSimpleIO.cc send and receive only while they hold
    [_mtx]; the proxy calls do not. *)
From S2P Require Import Prelude CxxString Effects Sockets RecvBuf Barrier Uri Atomese.
From S2P Require Import ListUtils SimpleStorage SimpleIO.

(** ** The public operations *)

Section ops.
Context {W Heap : Type} {SK : Sockets W} {AT : Atomese Heap} (fuel : nat).
Abbreviation Simple := (M (CogSimpleStorage (W := W) (Heap := Heap))).

Inductive simple_op :=
| OpOpen
| OpClose
| OpProxyOpen
| OpProxyClose
| OpSetProxy (h : Handle)
| OpBarrier
| OpStoreAtom (h : Handle)
| OpStoreValue (h key : Handle)
| OpUpdateValue (h key : Handle) (delta : Value)
| OpLoadValue (h key : Handle)
| OpRemoveAtom (frame : option AtomSpace) (h : Handle) (recursive : bool)
| OpGetAtom (h : Handle)
| OpFetchIncomingSet (table : option AtomSpace) (h : Handle)
| OpFetchIncomingByType (table : option AtomSpace) (h : Handle) (t : AtomType)
| OpLoadAtomSpace (table : option AtomSpace)
| OpLoadType (table : option AtomSpace) (t : AtomType)
| OpStoreAtomSpace (table : AtomSpace)
| OpKillData
| OpRunQuery (query key : Handle) (meta : option Handle) (fresh : bool)
| OpStoreFrameDAG (top : AtomSpace)
| OpLoadFrameDAG.

Definition run_op (o : simple_op) : Simple unit :=
  match o with
  | OpOpen => open fuel
  | OpClose => close fuel
  | OpProxyOpen => proxy_open fuel
  | OpProxyClose => proxy_close fuel
  | OpSetProxy h => set_proxy fuel h
  | OpBarrier => barrier
  | OpStoreAtom h => storeAtom h
  | OpStoreValue h key => storeValue h key
  | OpUpdateValue h key delta => updateValue h key delta
  | OpLoadValue h key => loadValue fuel h key
  | OpRemoveAtom frame h recursive => removeAtom fuel frame h recursive
  | OpGetAtom h => getAtom fuel h
  | OpFetchIncomingSet table h => fetchIncomingSet fuel table h
  | OpFetchIncomingByType table h t => fetchIncomingByType fuel table h t
  | OpLoadAtomSpace table => loadAtomSpace fuel table
  | OpLoadType table t => loadType fuel table t
  | OpStoreAtomSpace table => storeAtomSpace table
  | OpKillData => kill_data fuel
  | OpRunQuery query key meta fresh => runQuery fuel query key meta fresh
  | OpStoreFrameDAG top => storeFrameDAG (Some top)
  | OpLoadFrameDAG => _ ← loadFrameDAG fuel; mret tt
  end.

(** The operations that store need atoms that are in some AtomSpace. *)
Definition homed (w : Heap) (h : Handle) : Prop := getAtomSpace h w <> None.

Definition op_pre (o : simple_op) (w : Heap) : Prop :=
  match o with
  | OpSetProxy h | OpStoreAtom h | OpStoreValue h _ | OpUpdateValue h _ _ => homed w h
  | OpStoreAtomSpace table => forall h, h ∈ get_all_handles table w -> homed w h
  | _ => True
  end.

(** The operations of CogSimpleIO.cc, and [barrier]. *)
Definition locked_op (o : simple_op) : bool :=
  match o with
  | OpOpen | OpClose | OpProxyOpen | OpProxyClose => false
  | _ => true
  end.

Definition event_locked (e : io_event) : bool :=
  match e with IoSend b _ => b | IoRecv b _ => b end.
End ops.

(** ** The invariant *)

Section inv.
Context {W Heap : Type} {SK : Sockets W} {AT : Atomese Heap} {WB : WellBehaved AT}.
Abbreviation St := (CogSimpleStorage (W := W) (Heap := Heap)).

Definition all_locked (s : St) : Prop := Forall (fun e => event_locked e = true) s.(_trace).

(** [m] and [f] say which mutexes are held; [q] asks that all traffic so far
    was under [_mtx]; [hh] pins the atoms. *)
Definition Inv (m f q : bool) (hh : option Heap) (s : St) : Prop :=
  s.(_mtx) = m /\ s.(_mtx_frame) = f /\ (q = true -> all_locked s) /\
  (forall h, hh = Some h -> s.(heap) = h) /\ uri_ok s.(_uri).

Lemma inv_world m f q hh (w : W) s : Inv m f q hh s -> Inv m f q hh (put w s).
Proof. done. Qed.
Lemma inv_sockfd m f q hh fd s : Inv m f q hh s -> Inv m f q hh (set_sockfd fd s).
Proof. done. Qed.
Lemma inv_multi m f q hh b s : Inv m f q hh s -> Inv m f q hh (set_multi b s).
Proof. done. Qed.
Lemma inv_frames m f q hh fm im s : Inv m f q hh s -> Inv m f q hh (set_frames fm im s).
Proof. done. Qed.
Lemma inv_rng m f q hh r s : Inv m f q hh s -> Inv m f q hh (set_rng r s).
Proof. done. Qed.
Lemma inv_heap m f q (w : Heap) s : Inv m f q None s -> Inv m f q None (put w s).
Proof. intros (? & ? & ? & _ & ?). unfold Inv. by split_and!. Qed.
Lemma inv_fids (m f q : bool) (x : gmap str Handle * Heap) s : Inv m f q None s -> Inv m f q None (put x s).
Proof. intros (? & ? & ? & _ & ?). unfold Inv. by split_and!. Qed.
Lemma inv_trace m f q hh e s :
  Inv m f q hh s -> (q = true -> event_locked e = true) -> Inv m f q hh (add_trace e s).
Proof.
  intros (? & ? & Hq & ? & ?) He. unfold Inv. split_and!; try done. intros ->.
  unfold all_locked. simpl. apply Forall_app. split; [by apply Hq|]. constructor; auto.
Qed.
Hint Resolve inv_world inv_sockfd inv_multi inv_frames inv_rng inv_heap inv_fids : cog.

Lemma keeps_lock m f q hh {A} (body : M St A) :
  m = false -> keeps (Inv true f q hh) body -> keeps (Inv m f q hh) (with_lock mtx body).
Proof.
  intros -> Hb s (? & ? & ? & ? & ?). apply wp_with_lock; [done|].
  eapply wp_mono; [by apply Hb| |]; intros ? s' (? & ? & ? & ? & ?); done.
Qed.

Lemma keeps_lock_frame m f q hh {A} (body : M St A) :
  f = false -> keeps (Inv m true q hh) body -> keeps (Inv m f q hh) (with_lock mtx_frame body).
Proof.
  intros -> Hb s (? & ? & ? & ? & ?). apply wp_with_lock; [done|].
  eapply wp_mono; [by apply Hb| |]; intros ? s' (? & ? & ? & ? & ?); done.
Qed.

(** The syntax-directed proof that an operation keeps [Inv]. *)
Ltac inv_step :=
  lazymatch goal with
  | |- keeps _ connected => apply keeps_gets
  | |- keeps _ (with_lock mtx _) => apply keeps_lock; [done|]
  | |- keeps _ (with_lock mtx_frame _) => apply keeps_lock_frame; [done|]
  | |- keeps _ (throw_errno _) => unfold throw_errno
  | _ => keeps_step
  end.
Ltac keeps_auto := repeat first [inv_step | solve [eauto with keeps]].

Lemma do_send_keeps m f q hh msg :
  (q = true -> m = true) -> keeps (Inv m f q hh) (do_send msg).
Proof.
  intros Hq. unfold do_send. keeps_auto.
  apply inv_trace; [done|]. intros ->. destruct Hs as (-> & _). by apply Hq.
Qed.

Lemma do_recv_keeps m f q hh fuel garbage :
  (q = true -> m = true) -> keeps (Inv m f q hh) (do_recv fuel garbage).
Proof.
  intros Hq. unfold do_recv. keeps_auto.
  - apply recv_loop_keeps; [by auto with cog|]. unfold on_eof. keeps_auto.
  - apply inv_trace; [done|]. intros ->. destruct Hs as (-> & _). by apply Hq.
Qed.
Hint Resolve do_send_keeps do_recv_keeps : keeps.

Lemma barrier_keeps f q hh : keeps (Inv false f q hh) barrier.
Proof. unfold barrier, draw_rnd, draw. keeps_auto. Qed.
Hint Resolve barrier_keeps : keeps.

Lemma proxy_open_keeps m f hh fuel : keeps (Inv m f false hh) (proxy_open fuel).
Proof. unfold proxy_open. keeps_auto. Qed.

Lemma proxy_close_keeps f hh fuel : keeps (Inv false f false hh) (proxy_close fuel).
Proof. unfold proxy_close. keeps_auto. Qed.
Hint Resolve proxy_open_keeps proxy_close_keeps : keeps.

Lemma close_keeps f hh fuel : keeps (Inv false f false hh) (close fuel).
Proof. unfold close. keeps_auto. Qed.

Lemma connect_loop_keeps m f q hh ps : forall norr,
  keeps (Inv m f q hh) (connect_loop ps norr).
Proof. induction ps as [|p ps IH]; intros norr; simpl; keeps_auto; apply IH. Qed.
Hint Resolve connect_loop_keeps : keeps.

(** Reading and cutting the URI succeeds for the URI of an object. *)
Lemma parse_keeps m f q hh {A} (k : str * str -> M St A) :
  (forall hp, keeps (Inv m f q hh) (k hp)) ->
  keeps (Inv m f q hh) (u ← gets _uri; hp ← lift_outcome (endpoint u); k hp).
Proof.
  intros Hk s Hs. apply wp_bind, wp_gets, wp_bind.
  destruct (endpoint_ok (_uri s)) as [hp Hhp]; [by destruct Hs as (? & ? & ? & ? & ?)|].
  unfold lift_outcome, wp. rewrite Hhp. by apply Hk.
Qed.

Lemma open_keeps f hh fuel : keeps (Inv false f false hh) (open fuel).
Proof.
  unfold open, open_locked. apply keeps_bind; [apply keeps_gets|]. intros []; [apply keeps_ret|].
  apply keeps_lock; [done|]. apply parse_keeps. intros [host port]. keeps_auto.
Qed.

(** *** Frames *)

Lemma cacheFrame_keeps m q hh depth : forall h,
  keeps (Inv m false q hh) (cacheFrame depth h).
Proof. induction depth as [|depth IH]; intros h; simpl; keeps_auto; apply IH. Qed.
Hint Resolve cacheFrame_keeps : keeps.

Lemma writeFrame_keeps q hh h : keeps (Inv false false q hh) (writeFrame (Some h)).
Proof. unfold writeFrame. keeps_auto. Qed.
Hint Resolve writeFrame_keeps : keeps.

Lemma storeFrameDAG_keeps q hh top : keeps (Inv false false q hh) (storeFrameDAG (Some top)).
Proof. unfold storeFrameDAG, writeFrame_as. simpl. keeps_auto. Qed.

(** *** Storing: the atoms are pinned, so a homed atom stays homed *)

Lemma write_frame_if_keeps q w h :
  homed w h -> keeps (Inv false false q (Some w)) (write_frame_if h).
Proof.
  intros Hh s Hs. unfold write_frame_if. apply wp_bind, wp_gets.
  destruct (_multi_space s); [|by apply wp_ret]. apply wp_bind, wp_gets.
  destruct Hs as (H1 & H2 & H3 & H4 & H5). rewrite (H4 w eq_refl).
  unfold homed in Hh. destruct (getAtomSpace h w) as [a|]; [|done].
  assert (keeps (Inv false false q (Some w)) (_ ← writeFrame_as (Some a); mret ())) as Hk.
  { unfold writeFrame_as. simpl. keeps_auto. }
  by apply Hk.
Qed.
Hint Resolve write_frame_if_keeps : keeps.

Lemma set_multi_if_keeps m f q hh b h : keeps (Inv m f q hh) (set_multi_if b h).
Proof. unfold set_multi_if. keeps_auto. Qed.
Hint Resolve set_multi_if_keeps : keeps.

Lemma storeAtom_keeps q w h : homed w h -> keeps (Inv false false q (Some w)) (storeAtom h).
Proof. intros Hh. unfold storeAtom. keeps_auto. Qed.
Hint Resolve storeAtom_keeps : keeps.

Lemma storeValue_keeps q w h key :
  homed w h -> keeps (Inv false false q (Some w)) (storeValue h key).
Proof. intros Hh. unfold storeValue. keeps_auto. Qed.

Lemma updateValue_keeps q w h key delta :
  homed w h -> keeps (Inv false false q (Some w)) (updateValue h key delta).
Proof. intros Hh. unfold updateValue. keeps_auto. Qed.

Lemma set_proxy_keeps fuel q w h :
  homed w h -> keeps (Inv false false q (Some w)) (set_proxy fuel h).
Proof. intros Hh. unfold set_proxy. keeps_auto. Qed.

Lemma storeAtomSpace_keeps q w table :
  (forall h, h ∈ get_all_handles table w -> homed w h) ->
  keeps (Inv false false q (Some w)) (storeAtomSpace table).
Proof.
  intros Hh s Hs. unfold storeAtomSpace. apply wp_bind, wp_gets.
  assert (heap s = w) as -> by (destruct Hs as (? & ? & ? & H & ?); by apply H).
  revert s Hs. apply keeps_for_each. eauto with keeps.
Qed.

(** *** Loading *)

Lemma adopt_value_keeps m f q owner key vp : keeps (Inv m f q None) (adopt_value owner key vp).
Proof. unfold adopt_value. keeps_auto. Qed.

Lemma ro_decode_keeps fuel m f q as_ h msg :
  keeps (Inv m f q None) (ro_decode_alist fuel as_ h msg).
Proof. apply ro_decode_alist_keeps. eauto with cog. Qed.
Hint Resolve adopt_value_keeps ro_decode_keeps : keeps.

Lemma atom_list_loop_keeps fuel n table expr end_ f q : forall l r,
  keeps (Inv true f q None) (atom_list_loop fuel n table expr l r end_).
Proof. induction n as [|n IH]; intros l r; simpl; keeps_auto; apply IH. Qed.
Hint Resolve atom_list_loop_keeps : keeps.

Lemma request_atoms_keeps fuel table msg f q :
  keeps (Inv true f q None) (request_atoms fuel table msg).
Proof. unfold request_atoms, decode_atom_list. keeps_auto. Qed.
Hint Resolve request_atoms_keeps : keeps.

Lemma loadValue_keeps fuel q h key : keeps (Inv false false q None) (loadValue fuel h key).
Proof. unfold loadValue. keeps_auto. Qed.
Lemma removeAtom_keeps fuel q frame h rec : keeps (Inv false false q None) (removeAtom fuel frame h rec).
Proof. unfold removeAtom. keeps_auto. Qed.
Lemma getAtom_keeps fuel q h : keeps (Inv false false q None) (getAtom fuel h).
Proof. unfold getAtom. keeps_auto. Qed.
Lemma fetchIncomingSet_keeps fuel q table h : keeps (Inv false false q None) (fetchIncomingSet fuel table h).
Proof. unfold fetchIncomingSet. keeps_auto. Qed.
Lemma fetchIncomingByType_keeps fuel q table h t : keeps (Inv false false q None) (fetchIncomingByType fuel table h t).
Proof. unfold fetchIncomingByType. keeps_auto. Qed.
Lemma loadAtomSpace_keeps fuel q table : keeps (Inv false false q None) (loadAtomSpace fuel table).
Proof. unfold loadAtomSpace. keeps_auto. Qed.
Lemma loadType_keeps fuel q table t : keeps (Inv false false q None) (loadType fuel table t).
Proof. unfold loadType. keeps_auto. Qed.
Lemma kill_data_keeps fuel q : keeps (Inv false false q None) (kill_data fuel).
Proof. unfold kill_data. keeps_auto. Qed.
Lemma runQuery_keeps fuel q query key meta fresh : keeps (Inv false false q None) (runQuery fuel query key meta fresh).
Proof. unfold runQuery. keeps_auto. Qed.
Lemma loadFrameDAG_keeps fuel q : keeps (Inv false false q None) (loadFrameDAG fuel).
Proof. unfold loadFrameDAG. keeps_auto. Qed.
Hint Resolve proxy_open_keeps proxy_close_keeps close_keeps open_keeps loadValue_keeps
  removeAtom_keeps getAtom_keeps fetchIncomingSet_keeps fetchIncomingByType_keeps
  loadAtomSpace_keeps loadType_keeps kill_data_keeps runQuery_keeps loadFrameDAG_keeps
  storeFrameDAG_keeps : keeps.
Hint Resolve storeValue_keeps updateValue_keeps set_proxy_keeps storeAtomSpace_keeps : keeps.

Lemma inv_unpin m f q hh s : Inv m f q hh s -> Inv m f q None s.
Proof. intros (? & ? & ? & _ & ?). unfold Inv. by split_and!. Qed.

Lemma keeps_unpin {A} q w (mm : M St A) s :
  keeps (Inv false false q (Some w)) mm -> Inv false false q (Some w) s ->
  wp True mm (fun _ => Inv false false q None) (fun _ => Inv false false q None) s.
Proof. intros Hk Hs. eapply wp_mono; [by apply Hk|..]; intros ? ?; apply inv_unpin. Qed.

(** Every operation keeps the invariant. *)
Lemma run_op_keeps fuel o q s :
  op_pre o s.(heap) -> (q = true -> locked_op o = true) ->
  Inv false false q None s ->
  wp True (run_op fuel o) (fun _ => Inv false false q None)
    (fun _ => Inv false false q None) s.
Proof.
  intros Hpre Hq Hs.
  assert (Inv false false q (Some s.(heap)) s) as Hs'.
  { destruct Hs as (? & ? & ? & _ & ?). unfold Inv. split_and!; try done. by intros h [= ->]. }
  destruct o; simpl in Hq, Hpre |- *;
    try (destruct q; [by specialize (Hq eq_refl)|]);
    try (eapply keeps_unpin; [|exact Hs']; solve [eauto with keeps]);
    try (match goal with |- wp True ?m _ _ _ =>
      enough (keeps (Inv false false q None) m) as Hk by (by apply Hk) end;
      solve [eauto with keeps]).
  assert (keeps (Inv false false q None) (_ ← loadFrameDAG fuel; mret tt)) as Hk.
  { apply keeps_bind; [eauto with keeps|]. intros. apply keeps_ret. }
  by apply Hk.
Qed.

(** *** Whatever the arguments

    An operation that returns or throws has kept the invariant, also when it
    stored atoms that are in no AtomSpace. *)
Lemma keeps_stays {A} I (mm : M St A) : keeps I mm -> stays I mm.
Proof. apply wp_stays. Qed.

Lemma stays_inv_lock q {A} (body : M St A) :
  stays (Inv true false q None) body -> stays (Inv false false q None) (with_lock mtx body).
Proof.
  intros Hb s (H1 & H2 & H3 & _ & H5). unfold with_lock. cbn. rewrite H1.
  assert (Inv true false q None (set_mtx true s)) as Hs by done.
  specialize (Hb _ Hs). destruct (body (set_mtx true s)) as [[] ?]; try done; by destruct Hb as (? & ? & ? & ? & ?).
Qed.

Lemma writeFrame_stays_inv q h : stays (Inv false false q None) (writeFrame h).
Proof.
  destruct h as [h|]; [by apply keeps_stays, writeFrame_keeps|].
  unfold writeFrame. apply stays_bind; [apply keeps_stays; keeps_auto|]. intros [t|]; [apply stays_ret|].
  apply stays_bind; [apply keeps_stays; keeps_auto|]. intros _.
  apply stays_bind; [apply stays_gets|]. intros w. apply stays_bind; [apply stays_lift|]. intros t.
  apply stays_bind; [apply keeps_stays; keeps_auto|]. intros _. apply stays_undef.
Qed.

Lemma write_frame_if_stays q h : stays (Inv false false q None) (write_frame_if h).
Proof.
  unfold write_frame_if. apply stays_bind; [apply stays_gets|]. intros []; [|apply stays_ret].
  apply stays_bind; [apply stays_gets|]. intros hs. apply stays_bind; [apply writeFrame_stays_inv|].
  intros t. apply stays_ret.
Qed.

(** The common part of the storing operations. *)
Lemma store_stays {A} q b h (k : bool -> Heap -> M St A) :
  (forall multi w, keeps (Inv false false q None) (k multi w)) ->
  stays (Inv false false q None)
    (set_multi_if b h;; write_frame_if h;; multi ← gets _multi_space; w ← gets heap; k multi w).
Proof.
  intros Hk. apply stays_bind; [apply keeps_stays, set_multi_if_keeps|]. intros _.
  apply stays_bind; [apply write_frame_if_stays|]. intros _.
  apply keeps_stays. apply keeps_bind; [apply keeps_gets|]. intros multi.
  apply keeps_bind; [apply keeps_gets|]. intros w. apply Hk.
Qed.

Lemma storeAtom_stays_inv q h : stays (Inv false false q None) (storeAtom h).
Proof. apply store_stays. intros multi w. keeps_auto. Qed.

Lemma run_op_frees fuel o q :
  (q = true -> locked_op o = true) -> stays (Inv false false q None) (run_op fuel o).
Proof.
  intros Hq.
  assert ((forall w, op_pre o w) -> stays (Inv false false q None) (run_op fuel o)) as Hk.
  { intros Hpre. apply keeps_stays. intros s Hs. by apply run_op_keeps. }
  destruct o; cbn [run_op] in *; try (apply Hk; by intros w).
  - apply stays_bind; [apply storeAtom_stays_inv|]. intros _. apply keeps_stays. cbv zeta. keeps_auto.
  - apply storeAtom_stays_inv.
  - apply store_stays. intros multi w. cbv zeta. keeps_auto.
  - apply store_stays. intros multi w. cbv zeta. keeps_auto.
  - apply stays_bind; [apply stays_gets|]. intros hs. apply stays_for_each. intros h _.
    apply storeAtom_stays_inv.
Qed.

(** ** The properties *)

(** The states a client object goes through: it starts with both mutexes free
    and the URI its constructor accepted, and every public operation may be
    called, with any arguments and whatever the previous ones threw. *)
Inductive session (fuel : nat) : St -> St -> Prop :=
| session_start s : session fuel s s
| session_step s s1 o r s2 :
    session fuel s s1 -> run_op fuel o s1 = (r, s2) -> proper r -> session fuel s s2.

(** C1. In any state a session of calls can reach, whatever their arguments,
    both mutexes are free after every call that returns or throws.  And no
    operation blocks on a mutex the calling thread holds, runs out of its
    buffer's bounds, or meets other undefined behaviour, unless it is told to
    store an atom that is in no AtomSpace: the only other outcomes are a return,
    an exception, or a loop still running.  ([homeless_store_undefined] is the
    exception.) *)
Theorem session_never_stuck fuel s s1 o :
  s.(_mtx) = false -> s.(_mtx_frame) = false -> uri_ok s.(_uri) -> session fuel s s1 ->
  match run_op fuel o s1 with
  | (Ok _, s2) | (Throw _, s2) => s2.(_mtx) = false /\ s2.(_mtx_frame) = false
  | (Undef, _) | (Deadlock, _) => ~ op_pre o s1.(heap)
  | (NoFuel, _) => True
  end.
Proof.
  intros H1 H2 H3 Hses.
  assert (Inv false false false None s1) as Hs1.
  { induction Hses as [s|s s1 o' r s2 _ IH Hrun Hr]; [by unfold Inv; split_and!|].
    pose proof (run_op_frees fuel o' false ltac:(done) s1 (IH H1 H2 H3)) as Hw.
    rewrite Hrun in Hw. destruct Hr as [[? ->]|[? ->]]; done. }
  pose proof (run_op_frees fuel o false ltac:(done) s1 Hs1) as Hst.
  pose proof (fun Hpre => run_op_keeps fuel o false s1 Hpre ltac:(done) Hs1) as Hk. unfold wp in Hk.
  destruct (run_op fuel o s1) as [[a|e| | |] s2]; try done; by destruct Hst as (? & ? & _).
Qed.

(** What the exception is: in multi-space mode the AtomSpace of the atom is
    handed to [writeFrame] unseen, whose encoder dereferences the null pointer. *)
Theorem homeless_store_undefined h s :
  s.(_multi_space) = true -> s.(_mtx_frame) = false ->
  getAtomSpace h s.(heap) = None -> encode_frame None s.(heap) = Undef ->
  (storeAtom h s).1 = Undef.
Proof.
  intros Hmu Hf Hh Henc. unfold storeAtom, set_multi_if, write_frame_if, writeFrame_as, writeFrame.
  unfold mbind, M_bind, gets, modify, lift_outcome, with_lock. cbn. rewrite Hmu. cbn. rewrite Hmu, Hh. cbn.
  rewrite Hf. cbn. by rewrite Henc.
Qed.

(** The operations of CogSimpleIO.cc and [barrier] do all their sending
    and receiving while they hold [_mtx], so that no other thread's message
    comes between a request and its reply. *)
Theorem io_under_lock fuel o s :
  locked_op o = true -> op_pre o s.(heap) ->
  s.(_mtx) = false -> s.(_mtx_frame) = false -> uri_ok s.(_uri) -> all_locked s ->
  wp True (run_op fuel o) (fun _ => all_locked) (fun _ => all_locked) s.
Proof.
  intros Hl Hpre H1 H2 H3 H4.
  eapply wp_mono; [apply (run_op_keeps fuel o true s); [done|done|by unfold Inv; split_and!]| |];
    intros ? s' (_ & _ & Hq & _); by apply Hq.
Qed.

(** [proxy_open] and [proxy_close] do not: whenever they return, their
    request and its reply have crossed the socket without [_mtx], contrary to
    the rule that each call locks its send-receive pair. *)
Theorem proxy_calls_unlocked fuel s s' :
  s.(_mtx) = false ->
  (proxy_open fuel s = (Ok tt, s') ->
   exists r, s'.(_trace) = s.(_trace) ++
     [IoSend false (lit "(cog-proxy-open)" ++ [nl]); IoRecv false r]) /\
  (proxy_close fuel s = (Ok tt, s') ->
   exists m r, s'.(_trace) = s.(_trace) ++
     [IoSend true m; IoSend false (lit "(cog-proxy-close)" ++ [nl]); IoRecv false r]).
Proof.
  intros Hm. split; intros Hrun; pattern s' in |- *;
    match goal with |- ?P s' =>
      enough (wp True _ (fun _ => P) (fun _ _ => True) s) as Hw
        by exact (wp_ok _ _ _ _ _ _ _ Hw Hrun)
    end; cbv beta.
  - unfold proxy_open. apply wp_bind, do_send_wp; [intros w|done].
    apply wp_bind, do_recv_wp; [intros r w' _|done..]. wp_step.
    exists r. simpl. by rewrite Hm, <- app_assoc.
  - unfold proxy_close, barrier, draw_rnd, draw. repeat wp_step.
    apply wp_with_lock; [done|]. apply do_send_wp; [intros w|done]. wp_step.
    apply do_send_wp; [intros w1|done]. wp_step.
    apply do_recv_wp; [intros r w2 _|done..]. wp_step.
    do 2 eexists. simpl. by rewrite <- !app_assoc.
Qed.
End inv.
