(* ===== verification/SimpleThreads.v ===== *)
(** * The single-socket client, called from many threads

    CogSimpleIO.cc and [barrier] once more, as the actions of a thread between
    which other threads may run: each access to a member, each call of the
    AtomSpace library, each [do_send] and each [do_recv] is one action, and the
    lock guards are where the source has them.  [op_alone] proves that the
    actions make up the operations of [SimpleIO].

    Each action declares which members of the object it reads and writes, so that
    two threads that access the same member at once are seen ([race]).  A decoder
    that writes through a reference to [_fid_map] is one action, a writing access
    to it; and so is [ro_decode_alist], which only touches atoms.  The atoms are
    the AtomSpace library's, which is thread-safe. *)
From S2P Require Import Prelude CxxString Effects Threads Sockets RecvBuf Barrier Uri Atomese.
From S2P Require Import ListUtils SimpleStorage SimpleIO SimpleSafety.

(** The mutexes of the class; [kill_data] takes the second inside the first. *)
Inductive simple_lock := LMtx | LMtxFrame.

#[export] Instance simple_lock_eq_dec : EqDecision simple_lock.
Proof. solve_decision. Defined.

(** The parts of the object that its threads share: [_sockfd] with the connection
    behind it, and the members the frames need. *)
Inductive member := MSock | MHome | MMulti | MFrameMap | MFidMap.

#[export] Instance member_eq_dec : EqDecision member.
Proof. solve_decision. Defined.

(** A [Loop] is work of the decoders that may run out of fuel. *)
Inductive duty := Step | Loop.

(** What crosses the socket, for the record: a message, with the world it was
    sent in, and a reply. *)
Inductive comm (W : Type) :=
| Said (m : str) (w : W)
| Heard (r : str).
Arguments Said {W} m w.
Arguments Heard {W} r.

Section threads.
Context {W Heap : Type} {SK : Sockets W} {AT : Atomese Heap} (fuel : nat).
Abbreviation St := (CogSimpleStorage (W := W) (Heap := Heap)).

Inductive act : Type -> Type :=
| ASend (m : str) : act unit
| ARecv (garbage : bool) : act str
| ADo {B : Type} (d : duty) (acc : list (access member)) (f : M St B) : act B.

#[export] Instance simple_locks : Locks simple_lock St := {|
  mutex := fun l => match l with LMtx => mtx | LMtxFrame => mtx_frame end;
  lock_rank := fun l => match l with LMtx => 0 | LMtxFrame => 1 end;
|}.

(** The generator of barrier identifiers is [thread_local]. *)
#[export] Instance simple_local : ThreadLocal Z St := {| mine := rng; set_mine := set_rng |}.

#[export] Instance simple_lock_laws : LockLaws simple_lock Z St.
Proof.
  split.
  - by intros [] [] [].
  - by intros [] [] b []; intros; try congruence.
  - by intros [] t [].
  - by intros [] b [].
  - by intros [].
  - exists 2. intros []; cbn; lia.
Qed.

#[export] Instance simple_handler : Handler act (comm W) St := {|
  interp := fun B e =>
    match e in act B return M St B with
    | ASend m => do_send m
    | ARecv g => do_recv fuel g
    | ADo _ _ f => f
    end;
  observe := fun B e s =>
    match e in act B return B -> list (comm W) with
    | ASend m => fun _ => [Said m s.(world)]
    | ARecv _ => fun r => [Heard r]
    | ADo _ _ _ => fun _ => []
    end;
|}.

(** Sending and receiving use the connection, and may give it up. *)
#[export] Instance simple_touches : Touches act member := fun B e =>
  match e with
  | ASend _ | ARecv _ => [Writes MSock]
  | ADo _ acc _ => acc
  end.

Abbreviation Code := (code act simple_lock).
Definition say (m : str) : Code unit := Do (ASend m).
Definition hear : Code str := Do (ARecv false).
Definition get {B} (acc : list (access member)) (f : St -> B) : Code B := Do (ADo Step acc (gets f)).
Definition set (m : member) (f : St -> St) : Code unit := Do (ADo Step [Writes m] (modify f)).
Definition work {B} (f : M St B) : Code B := Do (ADo Step [] f).
(** A decoder that is given [_fid_map]. *)
Definition work_fids {B} (f : M St B) : Code B := Do (ADo Step [Writes MFidMap] f).
Definition loop {B} (f : M St B) : Code B := Do (ADo Loop [] f).

Definition get_heap : Code Heap := get [] heap.
Definition get_home : Code (option AtomSpace) := get [Reads MHome] _atom_space.
Definition get_multi : Code bool := get [Reads MMulti] _multi_space.
Definition put_multi (b : bool) : Code unit := set MMulti (set_multi b).
Definition put_frame_map (f : gmap Handle str -> gmap Handle str) : Code unit :=
  set MFrameMap (fun s => set_frames (f s.(_frame_map)) s.(_fid_map) s).
Definition put_fid_map (f : gmap str Handle -> gmap str Handle) : Code unit :=
  set MFidMap (fun s => set_frames s.(_frame_map) (f s.(_fid_map)) s).

Local Open Scope code_scope.

(** ** Frames and stores *)

Fixpoint cacheFrame_code (depth : nat) (hasp : Handle) : Code unit :=
  match depth with
  | 0 => work nofuel
  | S depth =>
      cfor_each (cacheFrame_code depth) (getOutgoingSet hasp);;
      let name := get_name hasp in
      let shorty := frame_shorty name in
      Locked LMtxFrame
        (put_frame_map (insert_new hasp shorty);;
         put_fid_map (insert_new name hasp))
  end.

Definition writeFrame_code (hasp : option Handle) : Code str :=
  it ← Locked LMtxFrame
         (get [Reads MFrameMap] (fun s => match hasp with
                                          | Some h => s.(_frame_map) !! h
                                          | None => None
                                          end));
  match it with
  | Some shorty => Ret shorty
  | None =>
      put_multi true;;
      w ← get_heap;
      f ← work (lift_outcome (encode_frame hasp w));
      Locked LMtx (say (frame_text f));;
      match hasp with
      | None => work undef
      | Some h =>
          cacheFrame_code (S (rank h)) h;;
          Ret (frame_shorty (get_name h))
      end
  end.

Definition set_multi_code (needs_home : bool) (h : Handle) : Code unit :=
  multi ← get_multi;
  home ← get_home;
  hs ← get [] (fun s => getAtomSpace h s.(heap));
  cwhen (negb multi && (negb needs_home || bool_decide (home <> None))
         && bool_decide (hs <> home)) (put_multi true).

Definition write_frame_code (h : Handle) : Code unit :=
  multi ← get_multi;
  if multi : bool then
    hs ← get [] (fun s => getAtomSpace h s.(heap));
    _ ← writeFrame_code (HandleCast <$> hs);
    Ret tt
  else Ret tt.

(** The common part of the storing calls: [_multi_space] is read again for the
    text of the message. *)
Definition store_with (needs_home : bool) (h : Handle) (msg : bool -> Heap -> str) : Code unit :=
  set_multi_code needs_home h;;
  write_frame_code h;;
  multi ← get_multi;
  w ← get_heap;
  Locked LMtx (say (msg multi w)).

Definition storeAtom_code (h : Handle) : Code unit := store_with true h (store_text h).

Definition storeValue_code (h key : Handle) : Code unit :=
  store_with false h (fun multi w =>
    lit "(cog-set-value! " ++ encode_atom h false w ++ encode_atom key multi w ++
    encode_value (getValue h key w) w ++ lit ")" ++ [nl]).

Definition updateValue_code (h key : Handle) (delta : Value) : Code unit :=
  store_with false h (fun multi w =>
    lit "(cog-update-value! " ++ encode_atom h false w ++ encode_atom key multi w ++
    encode_value delta w ++ lit ")" ++ [nl]).

Definition storeAtomSpace_code (table : AtomSpace) : Code unit :=
  all_atoms ← get [] (fun s => get_all_handles table s.(heap));
  cfor_each storeAtom_code all_atoms.

Definition storeFrameDAG_code (top : option AtomSpace) : Code unit :=
  _ ← writeFrame_code (HandleCast <$> top);
  put_multi true.

Definition barrier_code : Code unit :=
  rnd ← work draw_rnd;
  Locked LMtx (say (snprintf 64 (barrier_text (lit "1") rnd))).

(** ** Requests *)

Definition set_proxy_code (h : Handle) : Code unit :=
  storeAtom_code h;;
  w ← get_heap;
  let msg := lit "(cog-set-proxy! " ++ encode_atom h false w ++ lit ")" ++ [nl] in
  Locked LMtx (
    say msg;;
    _ ← hear;
    Ret tt).

Definition loadValue_code (h key : Handle) : Code unit :=
  w ← get_heap;
  let msg := lit "(cog-value " ++ encode_atom h false w ++ encode_atom key false w ++
             lit ")" ++ [nl] in
  Locked LMtx (
    say msg;;
    rply ← hear;
    vp ← work (on (decode_value rply 0));
    work (adopt_value h key vp.1)).

Definition removeAtom_code (frame : option AtomSpace) (h : Handle) (recursive : bool) : Code unit :=
  w ← get_heap;
  let msg :=
    if recursive then lit "(cog-extract-recursive! " ++ encode_atom h false w ++ lit ")" ++ [nl]
    else lit "(cog-extract! " ++ encode_atom h false w ++ lit ")" ++ [nl] in
  Locked LMtx (
    say msg;;
    _ ← hear;
    Ret tt).

Definition getAtom_code (h : Handle) : Code unit :=
  w ← get_heap;
  Locked LMtx (
    say (iknow h w);;
    msg ← hear;
    if compare_eq msg 2 (lit "()") then Ret tt
    else
      say (get_keys h w);;
      msg ← hear;
      home ← get_home;
      loop (ro_decode_alist fuel home h msg)).

Fixpoint atom_list_code (n : nat) (table : option AtomSpace) (expr : str)
    (l r end_ : Z) : Code unit :=
  match n with
  | 0 => loop nofuel
  | S n =>
      nx ← work (lift_outcome (get_next_expr expr l r 0));
      let '(pcnt, (l, r)) := nx in
      if (l =? r)%Z then Ret tt
      else if (0 <? pcnt)%Z then Ret tt
      else
        h0 ← work_fids (on (decode_atom_lr expr l r 0));
        hs ← get [] (fun s => getAtomSpace h0 s.(heap));
        h ← (if bool_decide (hs = None) then work (on (add_nocheck table h0)) else Ret h0);
        e ← work (lift_outcome (or_throw OutOfRange (substr expr l (wadd (wsub r l) 1))));
        say (lit "(cog-keys->alist " ++ e ++ lit ")" ++ [nl]);;
        msg ← hear;
        loop (ro_decode_alist fuel table h msg);;
        atom_list_code n table expr (wadd r 1) end_ end_
  end.

Definition request_atoms_code (table : option AtomSpace) (msg : str) : Code unit :=
  say msg;;
  expr ← hear;
  let l := wadd (find lparen expr 0) 1 in
  let end_ := rfind rparen expr in
  if (l =? end_)%Z then Ret tt
  else atom_list_code fuel table expr l end_ end_.

Definition fetchIncomingSet_code (table : option AtomSpace) (h : Handle) : Code unit :=
  w ← get_heap;
  let atom := lit "(cog-incoming-set " ++ encode_atom h false w ++ lit ")" ++ [nl] in
  Locked LMtx (request_atoms_code table atom).

Definition fetchIncomingByType_code (table : option AtomSpace) (h : Handle) (t : AtomType)
    : Code unit :=
  w ← get_heap;
  let msg := lit "(cog-incoming-by-type " ++ encode_atom h false w ++ lit " '" ++
             getTypeName t ++ lit ")" ++ [nl] in
  Locked LMtx (request_atoms_code table msg).

Definition loadAtomSpace_code (table : option AtomSpace) : Code unit :=
  Locked LMtx (
    request_atoms_code table (lit "(cog-get-atoms 'Node #t)" ++ [nl]);;
    request_atoms_code table (lit "(cog-get-atoms 'Link #t)" ++ [nl])).

Definition loadType_code (table : option AtomSpace) (t : AtomType) : Code unit :=
  let msg := lit "(cog-get-atoms '" ++ getTypeName t ++ lit ")" ++ [nl] in
  Locked LMtx (request_atoms_code table msg).

Definition kill_data_code : Code unit :=
  Locked LMtx (
    say (lit "(cog-atomspace-clear)" ++ [nl]);;
    _ ← hear;
    put_multi false;;
    Locked LMtxFrame (put_frame_map (fun _ => ∅);; put_fid_map (fun _ => ∅))).

Definition runQuery_code (query key : Handle) (meta : option Handle) (fresh : bool) : Code unit :=
  w ← get_heap;
  rply ← Locked LMtx (
    say (query_text query key meta fresh w);;
    hear);
  vp ← work (on (decode_value rply 0));
  work (adopt_value query key vp.1).

Definition loadFrameDAG_code : Code (list Handle) :=
  put_multi true;;
  Locked LMtx (
    say (lit "(cog-atomspace)" ++ [nl]);;
    rply ← hear;
    if (size rply <? 5)%Z then Ret []
    else
      top ← work_fids (on (decode_frame None rply 0));
      fids ← get [Reads MFidMap] _fid_map;
      put_frame_map (recache fids);;
      Ret [top]).

(** [open]: the connection is looked at before the lock is taken. *)
Definition open_code : Code unit :=
  c ← Do (ADo Step [Reads MSock] connected);
  if c : bool then Ret tt else Locked LMtx (Do (ADo Loop [Writes MSock] (open_locked fuel))).

(** The calls that talk under the lock; the proxy calls and [close] do not, and
    [open] is apart. *)
Definition op_code (o : simple_op) : option (Code unit) :=
  match o with
  | OpOpen | OpClose | OpProxyOpen | OpProxyClose => None
  | OpSetProxy h => Some (set_proxy_code h)
  | OpBarrier => Some barrier_code
  | OpStoreAtom h => Some (storeAtom_code h)
  | OpStoreValue h key => Some (storeValue_code h key)
  | OpUpdateValue h key delta => Some (updateValue_code h key delta)
  | OpLoadValue h key => Some (loadValue_code h key)
  | OpRemoveAtom frame h recursive => Some (removeAtom_code frame h recursive)
  | OpGetAtom h => Some (getAtom_code h)
  | OpFetchIncomingSet table h => Some (fetchIncomingSet_code table h)
  | OpFetchIncomingByType table h t => Some (fetchIncomingByType_code table h t)
  | OpLoadAtomSpace table => Some (loadAtomSpace_code table)
  | OpLoadType table t => Some (loadType_code table t)
  | OpStoreAtomSpace table => Some (storeAtomSpace_code table)
  | OpKillData => Some kill_data_code
  | OpRunQuery query key meta fresh => Some (runQuery_code query key meta fresh)
  | OpStoreFrameDAG top => Some (storeFrameDAG_code (Some top))
  | OpLoadFrameDAG => Some (_ ← loadFrameDAG_code; Ret tt)
  end.

(** ** One thread alone *)

Definition same {A} (c : Code A) (m : M St A) : Prop := forall s, run c s = m s.

Lemma same_bind {A B} (c : Code A) (k : A -> Code B) m f :
  same c m -> (forall a, same (k a) (f a)) -> same (Bind c k) (m ≫= f).
Proof.
  intros Hc Hk s. cbn [run]. unfold mbind, M_bind. rewrite Hc.
  destruct (m s) as [[a|e| | |] s1]; try reflexivity. apply Hk.
Qed.

Lemma same_lock {A} l (c : Code A) m : same c m -> same (Locked l c) (with_lock (mutex l) m).
Proof. intros Hc s. cbn [run]. unfold with_lock. by rewrite Hc. Qed.

Lemma same_when b (c : Code unit) m : same c m -> same (cwhen b c) (when b m).
Proof. intros Hc. destruct b; [exact Hc|]. by intros s. Qed.

Lemma same_each {A} (f : A -> Code unit) g xs :
  (forall x, same (f x) (g x)) -> same (cfor_each f xs) (for_each g xs).
Proof. intros Hf s. by apply run_for_each. Qed.

(** The notations of both sides correspond. *)
Ltac same_step :=
  lazymatch goal with
  | |- same (Bind _ _) (mbind _ _) => apply same_bind; [|intros]
  | |- same (Locked LMtx _) _ => apply (same_lock LMtx)
  | |- same (Locked LMtxFrame _) _ => apply (same_lock LMtxFrame)
  | |- same (cwhen _ _) _ => apply same_when
  | |- same (cfor_each _ _) _ => apply same_each; intros
  | |- same (if ?b then _ else _) _ => destruct b
  | |- same (match ?x with _ => _ end) _ => destruct x
  end.
Ltac same_auto := repeat first [same_step | solve [eauto with cog] | (intros ?s; reflexivity)].

Lemma cacheFrame_same depth : forall h, same (cacheFrame_code depth h) (cacheFrame depth h).
Proof. induction depth as [|depth IH]; intros h; cbn [cacheFrame_code cacheFrame]; same_auto. Qed.
Hint Resolve cacheFrame_same : cog.

Lemma writeFrame_same h : same (writeFrame_code h) (writeFrame h).
Proof. unfold writeFrame_code, writeFrame. same_auto. Qed.
Hint Resolve writeFrame_same : cog.

Lemma store_same b h msg :
  same (store_with b h msg)
    (set_multi_if b h;; write_frame_if h;; multi ← gets _multi_space; w ← gets heap;
     with_lock mtx (do_send (msg multi w)))%stdpp.
Proof.
  unfold store_with, set_multi_code, write_frame_code, set_multi_if, write_frame_if, writeFrame_as.
  same_auto.
Qed.

Lemma storeAtom_same h : same (storeAtom_code h) (storeAtom h).
Proof. apply store_same. Qed.
Hint Resolve storeAtom_same : cog.

Lemma storeValue_same h key : same (storeValue_code h key) (storeValue h key).
Proof. apply store_same. Qed.

Lemma updateValue_same h key delta : same (updateValue_code h key delta) (updateValue h key delta).
Proof. apply store_same. Qed.

Lemma set_proxy_same h : same (set_proxy_code h) (set_proxy fuel h).
Proof. unfold set_proxy_code, set_proxy. same_auto. Qed.

Lemma loadValue_same h key : same (loadValue_code h key) (loadValue fuel h key).
Proof. unfold loadValue_code, loadValue. same_auto. Qed.

Lemma getAtom_same h : same (getAtom_code h) (getAtom fuel h).
Proof. unfold getAtom_code, getAtom. same_auto. Qed.

Lemma atom_list_same n table expr end_ : forall l r,
  same (atom_list_code n table expr l r end_) (atom_list_loop fuel n table expr l r end_).
Proof.
  induction n as [|n IH]; intros l r; cbn [atom_list_code atom_list_loop]; [same_auto|].
  same_auto.
Qed.
Hint Resolve atom_list_same : cog.

Lemma request_atoms_same table msg : same (request_atoms_code table msg) (request_atoms fuel table msg).
Proof. unfold request_atoms_code, request_atoms, decode_atom_list. cbv zeta. same_auto. Qed.
Hint Resolve request_atoms_same : cog.

Lemma loadFrameDAG_same : same loadFrameDAG_code (loadFrameDAG fuel).
Proof. unfold loadFrameDAG_code, loadFrameDAG. same_auto. Qed.
Hint Resolve storeValue_same updateValue_same set_proxy_same loadValue_same getAtom_same
  loadFrameDAG_same : cog.

Lemma op_same o c : op_code o = Some c -> same c (run_op fuel o).
Proof.
  destruct o; cbn [op_code run_op]; intros [= <-]; auto with cog;
    unfold removeAtom_code, removeAtom, fetchIncomingSet_code, fetchIncomingSet,
      fetchIncomingByType_code, fetchIncomingByType, loadAtomSpace_code, loadAtomSpace,
      loadType_code, loadType, kill_data_code, kill_data, runQuery_code, runQuery,
      storeFrameDAG_code, storeFrameDAG, writeFrame_as, storeAtomSpace_code, storeAtomSpace,
      barrier_code, barrier; same_auto.
Qed.

Lemma open_same : same open_code (open fuel).
Proof. unfold open_code, open. same_auto. Qed.
End threads.
