(* ===== verification/SimpleSync.v ===== *)
(** * Requests and replies stay paired

    The socket carries one conversation: a CogServer answers some commands by
    one line and others not at all, and the client must read exactly the lines
    it is owed.  [SyncServer] states what a CogServer answers, [Descriptors] how
    it greets and what the system keeps apart; under them no session of calls
    leaves an unread reply behind, and each operation that reads gets the reply
    to its own request.  A second thread in [proxy_open] can break that. *)
From S2P Require Import Prelude CxxString Effects Sockets RecvBuf Barrier Uri Atomese.
From S2P Require Import ListUtils SimpleStorage SimpleIO SimpleSafety.

(** ** The server *)

(** The commands a CogServer does not answer. *)
Definition silent_commands : list str :=
  [lit "(cog-set-value! "; lit "(cog-set-values! "; lit "(cog-update-value! ";
   lit "(cog-barrier "; lit "(define "].

Definition is_silent (m : str) : bool := existsb (fun p => is_prefix p m) silent_commands.

(** An S-expression with a reply.  What is sent while a connection is set up is
    neither. *)
Definition expects_reply (m : str) : bool := is_prefix [lparen] m && negb (is_silent m).

(** [inbox fd w]: the chunks the network will deliver on [fd].  A command that
    is answered adds the chunks of one plain line, [answer m w]; a silent one
    adds nothing.  Chunks fit the receive buffer, and a line takes at most
    [max_chunks] of them. *)
Class SyncServer {W} (SK : Sockets W) (max_chunks : nat) := {
  inbox : Z -> W -> list str;
  answer : str -> W -> str;
  recv_inbox : forall fd n w d ds, 4096 <= n -> inbox fd w = d :: ds ->
    exists w', sys_recv fd n w = (RecvData d, w') /\ inbox fd w' = ds;
  answer_plain : forall m w, plain (answer m w);
  send_answered : forall fd m nosignal w rc w',
    sys_send fd m nosignal w = (rc, w') -> (0 <= rc)%Z -> expects_reply m = true ->
    exists cs, inbox fd w' = inbox fd w ++ cs /\ carries cs (answer m w ++ [nl]) /\
               length cs <= max_chunks;
  send_silent : forall fd m nosignal w rc w',
    sys_send fd m nosignal w = (rc, w') -> (rc < 0)%Z \/ is_silent m = true ->
    inbox fd w' = inbox fd w;
}.

(** [w'] has the unread replies of [w], except perhaps on [fd]. *)
Definition same_but {W} {SK : Sockets W} {n} {SS : SyncServer SK n} (fd : Z) (w w' : W) : Prop :=
  forall fd', fd' <> fd -> inbox fd' w' = inbox fd' w.

Definition same_inbox {W} {SK : Sockets W} {n} {SS : SyncServer SK n} (w w' : W) : Prop :=
  forall fd, inbox fd w' = inbox fd w.

(** Descriptors do not share replies; a new connection has nothing to read, nor
    has a closed or an invalid descriptor; the CogServer answers the first
    command, [sexpr], by its prompt, in one piece. *)
Class Descriptors {W} (SK : Sockets W) {n} (SS : SyncServer SK n) : Prop := {
  send_others : forall fd m b w rc w', sys_send fd m b w = (rc, w') -> same_but fd w w';
  recv_others : forall fd k w r w', sys_recv fd k w = (r, w') -> same_but fd w w';
  connect_others : forall fd p w rc w', sys_connect fd p w = (rc, w') -> same_but fd w w';
  close_others : forall fd w, same_but fd w (sys_close fd w);
  socket_inbox : forall p w, same_inbox w (sys_socket p w).2;
  getaddrinfo_inbox : forall h p w, same_inbox w (sys_getaddrinfo h p w).2;
  freeaddrinfo_inbox : forall i w, same_inbox w (sys_freeaddrinfo i w);
  setsockopt_inbox : forall fd o w, same_inbox w (sys_setsockopt fd o w).2;
  connected_empty : forall fd p w w', sys_connect fd p w = (0%Z, w') -> inbox fd w' = [];
  closed_empty : forall fd w, inbox fd (sys_close fd w) = [];
  invalid_empty : forall fd w, (fd < 0)%Z -> inbox fd w = [];
  greeting : forall fd b w rc w',
    sys_send fd (lit "sexpr" ++ [nl]) b w = (rc, w') -> (0 <= rc)%Z -> inbox fd w = [] ->
    exists g, inbox fd w' = [g] /\ scrub_ref g <> None;
}.

(** The prompt is thrown away: one read with [garbage] takes one chunk. *)
Lemma recv_loop_prompt {W S} {SK : Sockets W} `{!Has W S} `{!HasLaws W S} {n} {SS : SyncServer SK n}
    (fd_of : S -> Z) bufsize (on_eof : M S unit) fuel (N : Prop) g (Q : str -> S -> Prop) E s :
  4096 <= bufsize -> (fuel = 0 -> N) -> inbox (fd_of s) (the s) = [g] -> scrub_ref g <> None ->
  (forall r w, sys_recv (fd_of s) bufsize (the s) = (RecvData g, w) -> inbox (fd_of s) w = [] ->
     Q r (put w s)) ->
  wp N (recv_loop fd_of bufsize on_eof fuel true true []) Q E s.
Proof.
  intros Hn HN Hin Hg HQ. destruct fuel as [|k]; [by apply HN|].
  destruct (recv_inbox _ bufsize _ g [] Hn Hin) as (w & Hr & Hw).
  unfold wp. rewrite (recv_data _ _ _ _ _ _ _ _ _ _ Hr).
  assert (g <> []) as Hne by (apply sys_recv_bound in Hr; intros ->; simpl in Hr; lia).
  rewrite scrub_spec by done. destruct (scrub_ref g) as [[pbf ends]|]; [|done].
  rewrite orb_true_r. by apply HQ.
Qed.

Section sync.
Context {W Heap : Type} {SK : Sockets W} {AT : Atomese Heap}.
Context (fuel : nat) {SS : SyncServer SK fuel}.
Abbreviation St := (CogSimpleStorage (W := W) (Heap := Heap)).

(** No reply is unread. *)
Definition in_sync (s : St) : Prop := inbox s.(_sockfd) s.(world) = [].

Lemma inbox_recvs_rest n cs rest : forall fd w, 4096 <= n -> inbox fd w = cs ++ rest ->
  exists w', recvs fd n w cs w' /\ inbox fd w' = rest.
Proof.
  induction cs as [|c cs IH]; intros fd w Hn Hw; [eauto with cog|].
  destruct (recv_inbox fd n w c (cs ++ rest) Hn Hw) as (w1 & Hr & Hw1).
  destruct (IH fd w1 Hn Hw1) as (w' & Hrs & Hw'). eauto using recvs_cons.
Qed.

Lemma inbox_recvs n cs fd w : 4096 <= n -> inbox fd w = cs ->
  exists w', recvs fd n w cs w' /\ inbox fd w' = [].
Proof. intros Hn Hw. apply inbox_recvs_rest; [done|]. by rewrite app_nil_r. Qed.

(** Reading when at least one line is under way returns the first line. *)
Lemma do_recv_first s cs rest body :
  (0 < s.(_sockfd))%Z -> inbox s.(_sockfd) s.(world) = cs ++ rest ->
  carries cs (body ++ [nl]) -> plain body -> length cs <= fuel ->
  exists w, do_recv fuel false s = (Ok (body ++ [nl]), received (body ++ [nl]) s w) /\
    inbox s.(_sockfd) w = rest.
Proof.
  intros Hfd Hin Hc Hb Hl. destruct (inbox_recvs_rest 4096 cs rest _ _ (le_n _) Hin) as (w' & Hrs & Hw').
  exists w'. split; [|done]. unfold do_recv. erewrite bind_ok by done.
  rewrite (proj2 (Z.ltb_lt _ _)) by done. cbn [negb].
  erewrite bind_ok.
  2: { by apply (recv_loop_reply _sockfd 4096 on_eof ltac:(done) cs fuel true [] s w' body). }
  done.
Qed.

(** Reading when exactly one line is under way returns that line. *)
Lemma do_recv_line N s cs body (Q : str -> St -> Prop) E :
  (0 < s.(_sockfd))%Z -> inbox s.(_sockfd) s.(world) = cs ->
  carries cs (body ++ [nl]) -> plain body -> length cs <= fuel ->
  (forall w, inbox s.(_sockfd) w = [] -> Q (body ++ [nl]) (received (body ++ [nl]) s w)) ->
  wp N (do_recv fuel false) Q E s.
Proof.
  intros Hfd Hin Hc Hb Hl HQ.
  destruct (do_recv_first s cs [] body) as (w & Hrun & Hw); [done|by rewrite app_nil_r|done..|].
  unfold wp. rewrite Hrun. by apply HQ.
Qed.

(** A send that returns puts the reply behind what is unread. *)
Lemma do_send_answered m s s' :
  expects_reply m = true -> do_send m s = (Ok tt, s') ->
  exists cs, (0 < s.(_sockfd))%Z /\ s'.(_sockfd) = s.(_sockfd) /\
    inbox s.(_sockfd) s'.(world) = inbox s.(_sockfd) s.(world) ++ cs /\
    carries cs (answer m s.(world) ++ [nl]) /\ length cs <= fuel.
Proof.
  intros Hm. unfold do_send. intros (b & s0 & [= <- <-] & Hrun)%bind_inv.
  destruct (Z.ltb_spec 0 (_sockfd s)) as [Hfd|]; [|done]. cbn [negb] in Hrun.
  apply bind_inv in Hrun as (fd & s0 & [= <- <-] & Hrun). apply bind_inv in Hrun as (rc & s1 & H1 & Hrun).
  unfold on_pure in H1. change (the s) with (world s) in H1.
  destruct (sys_send (_sockfd s) m false (world s)) as [rc' w] eqn:Hsend. injection H1 as <- <-.
  destruct (Z.ltb_spec rc' 0) as [|Hrc]; [by apply bind_inv in Hrun as (? & ? & _ & ?)|].
  injection Hrun as <-. destruct (send_answered _ _ _ _ _ _ Hsend Hrc Hm) as (cs & H1 & H2 & H3).
  by exists cs.
Qed.

(** A request and its reply. *)
Lemma request_wp N m s (Q : str -> St -> Prop) E :
  expects_reply m = true -> in_sync s ->
  (forall w w', (0 < s.(_sockfd))%Z -> inbox s.(_sockfd) w' = [] ->
     Q (answer m s.(world) ++ [nl])
       (received (answer m s.(world) ++ [nl]) (sent m s w) w')) ->
  (forall e w, inbox s.(_sockfd) w = [] -> E e (set_world w s)) ->
  wp N (do_send m;; do_recv fuel false) Q E s.
Proof.
  intros Hm Hs HQ HE. unfold in_sync in Hs. unfold do_send. do 2 apply wp_bind. apply wp_gets.
  destruct (0 <? _sockfd s)%Z eqn:Hfd; simpl.
  2: { wp_step. rewrite <- (set_world_id s). by apply HE. }
  apply Z.ltb_lt in Hfd. apply wp_bind, wp_gets, wp_bind, wp_on_pure.
  intros rc w Hsend. destruct (rc <? 0)%Z eqn:Hrc.
  - apply Z.ltb_lt in Hrc. unfold throw_errno. repeat wp_step. apply HE.
    rewrite (send_silent _ _ _ _ _ _ Hsend) by auto. done.
  - apply Z.ltb_ge in Hrc. wp_step.
    destruct (send_answered _ _ _ _ _ _ Hsend Hrc Hm) as (cs & Hcs & Hc & Hl).
    change (the s) with (world s) in *. rewrite Hs in Hcs. eapply (do_recv_line N _ cs (answer m (world s))); try done.
    + apply answer_plain.
    + intros w' Hw'. by apply (HQ w w').
Qed.

(** ** Every operation keeps the conversation in step *)

Lemma request_stays {A} m (k : str -> M St A) :
  expects_reply m = true -> (forall r, stays in_sync (k r)) ->
  stays in_sync (do_send m;; (do_recv fuel false ≫= k)).
Proof.
  intros Hm Hk. apply stays_assoc; [|done]. apply wp_stays. intros s Hs.
  apply request_wp; [done|done|..]; intros; done.
Qed.

Lemma request_stays_ret m :
  expects_reply m = true -> stays in_sync (do_send m;; do_recv fuel false).
Proof.
  intros Hm. apply wp_stays. intros s Hs. apply request_wp; [done|done|..]; intros; done.
Qed.

Lemma silent_stays m : is_silent m = true -> stays in_sync (do_send m).
Proof.
  intros Hm. apply wp_stays. intros s Hs. unfold do_send. apply wp_bind, wp_gets.
  destruct (0 <? _sockfd s)%Z; simpl; [|by wp_step].
  apply wp_bind, wp_gets, wp_bind, wp_on_pure. intros rc w Hsend.
  assert (in_sync (put w s)) as Hs'.
  { unfold in_sync. simpl. rewrite (send_silent _ _ _ _ _ _ Hsend) by auto. exact Hs. }
  destruct (rc <? 0)%Z; [unfold throw_errno|]; repeat wp_step; done.
Qed.

(** A send with its reply first, then the generic step. *)
Ltac sync_step :=
  lazymatch goal with
  | |- stays _ (do_send _;; (do_recv _ _ ≫= _)) => apply request_stays; [try case_match; done|intros]
  | |- stays _ (do_send _;; do_recv _ _) => apply request_stays_ret; done
  | |- stays _ (do_send _) => apply silent_stays; done
  | _ => stays_step
  end.
Ltac stays_auto := repeat first [sync_step | solve [eauto with keeps]].

Lemma cacheFrame_stays depth : forall h, stays in_sync (cacheFrame depth h).
Proof. induction depth as [|depth IH]; intros h; simpl; stays_auto; apply IH. Qed.
Hint Resolve cacheFrame_stays : keeps.

Lemma writeFrame_stays h : stays in_sync (writeFrame h).
Proof. unfold writeFrame. stays_auto. Qed.
Hint Resolve writeFrame_stays : keeps.

Lemma storeAtom_stays h : stays in_sync (storeAtom h).
Proof.
  unfold storeAtom, set_multi_if, write_frame_if, writeFrame_as. stays_auto.
  apply silent_stays. unfold store_text. by destruct (haveValues _ _).
Qed.
Hint Resolve storeAtom_stays : keeps.

Lemma ro_decode_stays as_ h msg : stays in_sync (ro_decode_alist fuel as_ h msg).
Proof.
  unfold ro_decode_alist. stays_auto.
  generalize (find lparen msg (wadd (find_first_not_of blanks msg 0) 1)).
  generalize fuel at 1. induction fuel0 as [|n IH]; intros pos; simpl; unfold store_kv; stays_auto; apply IH.
Qed.
Hint Resolve ro_decode_stays : keeps.

Lemma storeValue_stays h key : stays in_sync (storeValue h key).
Proof. unfold storeValue, set_multi_if, write_frame_if, writeFrame_as. stays_auto. Qed.

Lemma updateValue_stays h key delta : stays in_sync (updateValue h key delta).
Proof. unfold updateValue, set_multi_if, write_frame_if, writeFrame_as. stays_auto. Qed.

Lemma set_proxy_stays h : stays in_sync (set_proxy fuel h).
Proof. unfold set_proxy. stays_auto. Qed.

Lemma adopt_value_stays owner key vp : stays in_sync (adopt_value owner key vp).
Proof. unfold adopt_value. stays_auto. Qed.
Hint Resolve adopt_value_stays : keeps.

Lemma atom_list_stays n table expr end_ : forall l r,
  stays in_sync (atom_list_loop fuel n table expr l r end_).
Proof. induction n as [|n IH]; intros l r; simpl; stays_auto; apply IH. Qed.
Hint Resolve atom_list_stays : keeps.

Lemma request_atoms_stays table msg :
  expects_reply msg = true -> stays in_sync (request_atoms fuel table msg).
Proof.
  intros Hm. unfold request_atoms, decode_atom_list. apply request_stays; [done|].
  intros r. cbv zeta. stays_auto.
Qed.

Lemma barrier_stays : stays in_sync barrier.
Proof. unfold barrier, draw_rnd, draw. stays_auto. Qed.
Hint Resolve barrier_stays : keeps.

Lemma run_op_stays o :
  o <> OpOpen -> o <> OpClose -> stays in_sync (run_op fuel o).
Proof.
  intros Ho Hc. destruct o; try done; cbn [run_op];
    unfold proxy_open, proxy_close, loadValue, removeAtom, getAtom, fetchIncomingSet,
      fetchIncomingByType, loadAtomSpace, loadType, storeAtomSpace, kill_data, runQuery,
      storeFrameDAG, loadFrameDAG, iknow, writeFrame_as;
    eauto using storeValue_stays, updateValue_stays, set_proxy_stays with keeps;
    repeat first [apply request_atoms_stays; done | sync_step | solve [eauto with keeps]].
Qed.

(** *** Opening and closing *)

Section open.
Context {DS : Descriptors SK SS}.
Context (socket_nonzero : forall p w, (sys_socket p w).1 <> 0%Z).

Lemma stays_quiet {A} (f : W -> A * W) :
  (forall w, same_inbox w (f w).2) -> stays in_sync (on_pure f).
Proof.
  intros Hf s Hs. unfold on_pure. pose proof (Hf s.(world) s.(_sockfd)) as H.
  change (the s) with (world s). destruct (f (world s)) as [a w]. unfold in_sync in *.
  cbn in *. by rewrite H.
Qed.

(** A connected descriptor has nothing to read; without one, neither. *)
Lemma connect_loop_stays ps : forall norr s, in_sync s ->
  wp False (connect_loop ps norr)
    (fun r s' => in_sync s' /\ (r.1 = true -> (0 < s'.(_sockfd))%Z)) (fun _ _ => False) s.
Proof.
  induction ps as [|p ps IH]; intros norr s Hs; cbn [connect_loop]; [by apply wp_ret|].
  wp_step. apply wp_on_pure. intros fd w Hw. wp_step. wp_step.
  pose proof (socket_nonzero p s.(world)) as Hnz. change (the s) with (world s) in Hw. rewrite Hw in Hnz.
  cbn [fst] in Hnz. destruct (Z.ltb_spec fd 0) as [Hfd|Hfd]; [apply IH; by apply invalid_empty|].
  wp_step. apply wp_on_pure. intros rc w1 Hc. destruct (Z.eqb_spec rc 0) as [->|Hrc].
  - apply wp_ret. split; [by eapply connected_empty|]. cbn. lia.
  - wp_step. wp_step. wp_step. apply wp_on_pure. intros [] w2 [= <-]. wp_step. wp_step. apply IH.
    by apply invalid_empty.
Qed.

(** The greeting and its prompt. *)
Lemma greet_stays host s :
  in_sync s -> (0 < s.(_sockfd))%Z ->
  wp True (fd ← gets _sockfd;
           _ ← on_pure (sys_setsockopt fd TCP_NODELAY);
           _ ← on_pure (sys_setsockopt fd TCP_QUICKACK);
           rc ← on_pure (sys_send fd (lit "sexpr" ++ [nl]) false);
           if (rc <? 0)%Z then
             e ← gets (fun s => sys_errno s.(world));
             throw (IOException "Unable to talk to cogserver at host %s: %s"
                      [FStr host; FStr (strerror e)])
           else
             _ ← do_recv fuel true;
             mret tt) (fun _ => in_sync) (fun _ => in_sync) s.
Proof.
  unfold in_sync. intros Hs Hfd. wp_step. wp_step. set (fd := _sockfd s) in *.
  wp_step. apply wp_on_pure. intros rc1 w1 H1. wp_step. apply wp_on_pure. intros rc2 w2 H2.
  wp_step. apply wp_on_pure. intros rc w3 H3. change (the ?x) with (world x) in *.
  change (world (put ?w ?x)) with w in *.
  assert (inbox fd w2 = []) as Hw2.
  { pose proof (setsockopt_inbox fd TCP_NODELAY (world s) fd) as A. rewrite H1 in A.
    pose proof (setsockopt_inbox fd TCP_QUICKACK w1 fd) as B. rewrite H2 in B. cbn [snd] in *. congruence. }
  destruct (Z.ltb_spec rc 0) as [Hrc|Hrc].
  { repeat wp_step. cbn. rewrite (send_silent _ _ _ _ _ _ H3) by auto. exact Hw2. }
  destruct (greeting _ _ _ _ _ H3 Hrc Hw2) as (g & Hg & Hscrub).
  unfold do_recv, connected. do 3 wp_step.
  match goal with |- context [(0 <? ?f)%Z] => change f with fd end.
  rewrite (proj2 (Z.ltb_lt 0 fd)) by done. cbn [negb]. wp_step.
  apply (recv_loop_prompt _sockfd 4096 (on_eof (W := W)) fuel True g); [lia|done|exact Hg|done|].
  intros r w4 _ Hw4. repeat wp_step. exact Hw4.
Qed.

Lemma open_stays : stays in_sync (open fuel).
Proof.
  unfold open, open_locked, connected. stays_step; [stays_step|]. destruct a; [stays_step|].
  apply stays_with_lock; [done|]. stays_step; [stays_step|]. stays_step; [stays_step|].
  destruct a0 as [host port]. apply stays_bind.
  { apply stays_quiet. intros w. apply getaddrinfo_inbox. }
  intros [rc i]. destruct (negb _); [stays_step|]. apply wp_stays. intros s Hs.
  apply wp_bind. eapply wp_mono; [apply wp_weaken, connect_loop_stays, Hs| |done].
  intros [found norr] s1 [H1 Hfd]. wp_step. apply wp_on_pure. intros [] w [= <-].
  assert (in_sync (set_world (sys_freeaddrinfo i s1.(world)) s1)) as H2.
  { unfold in_sync. cbn. by rewrite (freeaddrinfo_inbox i (world s1)). }
  destruct found; cbn [fst snd negb]; [|by wp_step]. apply greet_stays; [done|]. by apply Hfd.
Qed.

Lemma close_stays : stays in_sync (close fuel).
Proof.
  unfold close, connected. stays_step; [stays_step|]. intros s Hs.
  pose proof (run_op_stays OpProxyClose ltac:(done) ltac:(done) s Hs) as Hp. cbn [run_op] in Hp.
  unfold when. destruct a.
  - unfold mbind at 1, M_bind at 1. unfold mbind at 1, M_bind at 1.
    destruct (proxy_close fuel s) as [[[]|e| | |] s1]; try done.
    cbn. by apply invalid_empty.
  - cbn. by apply invalid_empty.
Qed.

(** C8. Against a CogServer that greets and answers as [SyncServer] and [Descriptors]
    say, no session of public operations, opening and closing included, leaves a
    reply unread on the socket, whatever the operations threw: a conversation in
    step stays in step.  So every reply an operation reads is the reply to its
    own request. *)
Theorem operations_stay_in_sync s s' : session fuel s s' -> in_sync s -> in_sync s'.
Proof.
  induction 1 as [s|s s1 o r s2 _ IH Hrun Hr]; intros Hs; [done|]. specialize (IH Hs).
  assert (stays in_sync (run_op fuel o)) as H.
  { clear Hrun. destruct o;
      first [apply open_stays | apply close_stays | by apply run_op_stays]. }
  specialize (H s1 IH). rewrite Hrun in H. by destruct Hr as [[? ->]|[? ->]].
Qed.
End open.

(** ** Two threads on one socket *)

(** C28. [proxy_open] takes no lock.  When one thread has sent a request and
    another one calls [proxy_open] before the first has read its reply, then
    [proxy_open] reads, and throws away, the reply of the first thread, which
    then gets the reply meant for [proxy_open]. *)
Theorem proxy_open_steals_reply m s s1 s2 :
  in_sync s -> expects_reply m = true ->
  do_send m s = (Ok tt, s1) -> proxy_open fuel s1 = (Ok tt, s2) ->
  exists s1' w s3,
    do_send (lit "(cog-proxy-open)" ++ [nl]) s1 = (Ok tt, s1') /\
    do_recv fuel false s1' = (Ok (answer m s.(world) ++ [nl]), s2) /\
    do_recv fuel false s2 = (Ok (answer (lit "(cog-proxy-open)" ++ [nl]) w ++ [nl]), s3).
Proof.
  unfold in_sync, proxy_open. intros Hs Hm H1 ([] & s1' & H2 & Hrun)%bind_inv.
  apply bind_inv in Hrun as (r & s2' & H3 & [= <-]).
  destruct (do_send_answered _ _ _ Hm H1) as (cs1 & Hfd & F1 & I1 & C1 & L1).
  destruct (do_send_answered (lit "(cog-proxy-open)" ++ [nl]) s1 s1' eq_refl H2) as (cs2 & _ & F2 & I2 & C2 & L2).
  rewrite Hs in I1. rewrite F1, I1 in I2. cbn [app] in I2.
  destruct (do_recv_first s1' cs1 cs2 (answer m (world s))) as (w1 & Hr1 & Hi1);
    [by rewrite F2, F1|by rewrite F2, F1|done|apply answer_plain|done|].
  rewrite H3 in Hr1. injection Hr1 as -> ->.
  destruct (do_recv_first (received (answer m (world s) ++ [nl]) s1' w1) cs2 []
    (answer (lit "(cog-proxy-open)" ++ [nl]) (world s1))) as (w2 & Hr2 & _);
    [cbn; by rewrite F2, F1|cbn; by rewrite app_nil_r|done|apply answer_plain|done|].
  exists s1'. do 2 eexists. split_and!; [done|exact H3|exact Hr2].
Qed.
End sync.
