(* ===== verification/SimpleTalk.v ===== *)
(** * Many threads on one socket

    CogSimpleIO.cc lets several threads share a [CogSimpleStorage]: each call
    locks its send-receive pair.  Here any number of threads make any calls,
    their actions interleaved in any way.  One thread at a time talks to the
    CogServer, every reply goes to the thread whose message it answers, and no set
    of threads blocks itself. *)
From S2P Require Import Prelude CxxString Effects Threads Sockets RecvBuf Barrier Uri Atomese.
From S2P Require Import ListUtils SimpleStorage SimpleIO SimpleSafety SimpleSync SimpleThreads.

Section talk.
Context {W Heap : Type} {SK : Sockets W} {AT : Atomese Heap}.
Context (fuel : nat) {SS : SyncServer SK fuel}.
Abbreviation St := (CogSimpleStorage (W := W) (Heap := Heap)).
Abbreviation Code := (code (act (W := W) (Heap := Heap)) simple_lock).
Abbreviation Prog := (prog (act (W := W) (Heap := Heap)) simple_lock).
#[local] Existing Instance simple_handler.
Abbreviation handler := (simple_handler (Heap := Heap) fuel).

(** ** The discipline of a call *)

(** What does not touch the socket or the mutexes. *)
Definition same_wire (s s' : St) : Prop :=
  s'.(world) = s.(world) /\ s'.(_sockfd) = s.(_sockfd) /\
  s'.(_mtx) = s.(_mtx) /\ s'.(_mtx_frame) = s.(_mtx_frame).

#[export] Instance same_wire_order : PreOrder same_wire.
Proof. split; [by intros s|]. intros ? ? ? (? & ? & ? & ?) (? & ? & ? & ?). repeat split; congruence. Qed.

(** [polite ls wait p]: a thread that holds [ls], and waits for a reply if
    [wait], goes on with [p].  It sends and receives under [_mtx]; after a
    message that is answered it does nothing before it has the reply; and it
    keeps the order of the locks. *)
Fixpoint polite (ls : list simple_lock) (wait : bool) (p : Prog) : Prop :=
  match p with
  | Return => ls = [] /\ wait = false
  | Act e k =>
      match e in act B return (B -> bool -> Prop) -> Prop with
      | ASend m => fun next =>
          LMtx ∈ ls /\ wait = false /\
          (expects_reply m = true /\ next tt true \/ is_silent m = true /\ next tt false)
      | ARecv garbage => fun next =>
          LMtx ∈ ls /\ wait = true /\ garbage = false /\ forall r, next r false
      | ADo _ _ f => fun next => wait = false /\ moves same_wire f /\ forall b, next b false
      end (fun b w => polite ls w (k b))
  | Lock l k =>
      wait = false /\ outranks (S := St) l ls /\ polite (l :: ls) false k
  | Unlock l k =>
      wait = false /\ (exists ls', ls = l :: ls') /\ polite (List.tl ls) false k
  end.

Lemma do_send_locks m : moves (same_locks (L := simple_lock)) (do_send (Heap := Heap) m).
Proof. unfold do_send, connected, throw_errno. repeat moves_step; by intros []. Qed.

Lemma do_recv_locks g : moves (same_locks (L := simple_lock)) (do_recv (Heap := Heap) fuel g).
Proof.
  unfold do_recv, connected.
  repeat first [apply recv_loop_moves; [typeclasses eauto|by intros ? ? []|unfold on_eof]
               | moves_step | by intros []].
Qed.

Lemma polite_ordered p : forall ls wait, polite ls wait p -> ordered (HD := handler) ls p.
Proof.
  induction p as [|B e k IH|l k IH|l k IH]; intros ls wait; cbn [polite ordered].
  - by intros [].
  - destruct e as [m|g|B d acc f].
    + intros (_ & _ & Hk). split; [apply do_send_locks|]. intros []. destruct Hk as [[_ Hk]|[_ Hk]]; by eapply IH.
    + intros (_ & _ & _ & Hk). split; [apply do_recv_locks|]. intros r. by eapply IH.
    + intros (_ & Hf & Hk). split; [|intros b; by eapply IH].
      revert Hf. apply moves_mono. by intros s s' (_ & _ & H1 & H2) [].
  - intros (_ & Ha & Hk). split; [done|]. by eapply IH.
  - intros (_ & Hl & Hk). split; [done|]. by eapply IH.
Qed.

(** ** Every call follows the discipline

    [obeys ls c]: run while [ls] is held and no reply is awaited, [c] follows the
    discipline if what comes after it does. *)
Definition obeys {A} (ls : list simple_lock) (c : Code A) : Prop :=
  forall K, (forall a, polite ls false (K a)) -> polite ls false (flatten c K).

Lemma obeys_ret {A} ls (a : A) : obeys ls (Ret a).
Proof. intros K HK. apply HK. Qed.

Lemma obeys_bind {A B} ls (c : Code A) (f : A -> Code B) :
  obeys ls c -> (forall a, obeys ls (f a)) -> obeys ls (Bind c f).
Proof. intros Hc Hf K HK. apply Hc. intros a. by apply Hf. Qed.

Lemma obeys_work {B} ls d acc (f : M St B) : moves same_wire f -> obeys ls (Do (ADo d acc f)).
Proof. intros Hf K HK. by split. Qed.

Lemma obeys_lock {A} ls l (c : Code A) :
  outranks (S := St) l ls -> obeys (l :: ls) c -> obeys ls (Locked l c).
Proof.
  intros Hl Hc K HK. split; [done|]. split; [done|]. apply Hc. intros a.
  split; [done|]. split; [by exists ls|]. apply HK.
Qed.

Lemma obeys_tell ls m : LMtx ∈ ls -> is_silent m = true -> obeys ls (say m).
Proof. intros Hl Hm K HK. split; [done|]. split; [done|]. right. split; [done|]. apply HK. Qed.

(** A message with its reply. *)
Lemma obeys_ask {A} ls m (f : str -> Code A) :
  LMtx ∈ ls -> expects_reply m = true -> (forall r, obeys ls (f r)) ->
  obeys ls (Bind (say m) (fun _ => Bind hear f)).
Proof.
  intros Hl Hm Hf K HK. split; [done|]. split; [done|]. left. split; [done|].
  split; [done|]. split; [done|]. split; [done|]. intros r. by apply Hf.
Qed.

Lemma obeys_ask_ret ls m :
  LMtx ∈ ls -> expects_reply m = true -> obeys ls (Bind (say m) (fun _ => hear)).
Proof.
  intros Hl Hm K HK. split; [done|]. split; [done|]. left. split; [done|].
  split; [done|]. split; [done|]. split; [done|]. intros r. apply HK.
Qed.

Lemma obeys_when ls b (c : Code unit) : obeys ls c -> obeys ls (cwhen b c).
Proof. intros Hc. destruct b; [done|apply obeys_ret]. Qed.

Lemma obeys_each {A} ls (f : A -> Code unit) xs : (forall x, obeys ls (f x)) -> obeys ls (cfor_each f xs).
Proof. intros Hf. induction xs; [apply obeys_ret|]. by apply obeys_bind. Qed.

Lemma lowest ls : ls = [] -> outranks (S := St) LMtx ls.
Proof. intros -> l' H. by apply elem_of_nil in H. Qed.

Lemma higher ls : LMtxFrame ∉ ls -> outranks (S := St) LMtxFrame ls.
Proof. intros Hn [] H; cbn; [lia|done]. Qed.

Ltac wire_step :=
  lazymatch goal with
  | |- moves _ (adopt_value _ _ _) => unfold adopt_value
  | |- moves _ draw_rnd => unfold draw_rnd, draw
  | |- same_wire _ _ => by repeat split
  | _ => moves_step
  end.
Ltac obeys_step :=
  lazymatch goal with
  | |- obeys _ (Ret _) => apply obeys_ret
  | |- obeys _ (Bind (say _) (fun _ => Bind hear _)) =>
      apply obeys_ask; [set_solver|try case_match; done|intros]
  | |- obeys _ (Bind (say _) (fun _ => hear)) => apply obeys_ask_ret; [set_solver|done]
  | |- obeys _ (say _) => apply obeys_tell; [set_solver|try done]
  | |- obeys _ (Bind _ _) => apply obeys_bind; [|intros]
  | |- obeys _ (Locked LMtx _) => apply obeys_lock; [by apply lowest|]
  | |- obeys _ (Locked LMtxFrame _) => apply obeys_lock; [apply higher; set_solver|]
  | |- obeys _ (cwhen _ _) => apply obeys_when
  | |- obeys _ (cfor_each _ _) => apply obeys_each; intros
  | |- obeys _ (if ?b then _ else _) => destruct b
  | |- obeys _ (match ?x with _ => _ end) => destruct x
  | |- obeys _ (get _ _) => apply obeys_work
  | |- obeys _ (set _ _) => apply obeys_work
  | |- obeys _ (work _) => apply obeys_work
  | |- obeys _ (work_fids _) => apply obeys_work
  | |- obeys _ (loop _) => apply obeys_work
  | |- obeys _ (put_multi _) => apply obeys_work
  | |- obeys _ (put_frame_map _) => apply obeys_work
  | |- obeys _ (put_fid_map _) => apply obeys_work
  | |- obeys _ get_heap => apply obeys_work
  | |- obeys _ get_home => apply obeys_work
  | |- obeys _ get_multi => apply obeys_work
  | |- moves _ _ => wire_step
  | |- same_wire _ _ => wire_step
  end.
Ltac obeys_auto := repeat first [obeys_step | solve [eauto with keeps]].

Lemma cacheFrame_obeys depth : forall ls h, LMtxFrame ∉ ls -> obeys ls (cacheFrame_code depth h).
Proof. induction depth as [|depth IH]; intros ls h Hl; cbn [cacheFrame_code]; cbv zeta; obeys_auto. Qed.
Hint Resolve cacheFrame_obeys : keeps.

Lemma writeFrame_obeys h : obeys [] (writeFrame_code h).
Proof. unfold writeFrame_code. obeys_auto. apply cacheFrame_obeys. set_solver. Qed.
Hint Resolve writeFrame_obeys : keeps.

Lemma store_obeys b h msg :
  (forall multi w, is_silent (msg multi w) = true) -> obeys [] (store_with b h msg).
Proof.
  intros Hm. unfold store_with, set_multi_code, write_frame_code. obeys_auto.
Qed.

Lemma storeAtom_obeys h : obeys [] (storeAtom_code h).
Proof. apply store_obeys. intros multi w. unfold store_text. by destruct (haveValues h w). Qed.
Hint Resolve storeAtom_obeys : keeps.

Lemma ro_decode_wire as_ h msg : moves same_wire (ro_decode_alist fuel as_ h msg).
Proof. apply ro_decode_alist_moves; [typeclasses eauto|]. by repeat split. Qed.
Hint Resolve ro_decode_wire : keeps.

Lemma atom_list_obeys n table expr end_ : forall l r,
  obeys [LMtx] (atom_list_code fuel n table expr l r end_).
Proof. induction n as [|n IH]; intros l r; cbn [atom_list_code]; obeys_auto. Qed.
Hint Resolve atom_list_obeys : keeps.

Lemma request_atoms_obeys table msg :
  expects_reply msg = true -> obeys [LMtx] (request_atoms_code fuel table msg).
Proof. intros Hm. unfold request_atoms_code. apply obeys_ask; [set_solver|done|]. intros r. obeys_auto. Qed.

Lemma op_obeys o c : op_code fuel o = Some c -> obeys [] c.
Proof.
  destruct o; cbn [op_code]; intros [= <-];
    unfold set_proxy_code, barrier_code, storeValue_code, updateValue_code, loadValue_code,
      removeAtom_code, getAtom_code, fetchIncomingSet_code, fetchIncomingByType_code,
      loadAtomSpace_code, loadType_code, storeAtomSpace_code, kill_data_code, runQuery_code,
      storeFrameDAG_code, loadFrameDAG_code, iknow; cbv zeta;
    repeat first [apply request_atoms_obeys; done | apply store_obeys; done | obeys_step
                 | solve [eauto with keeps]].
Qed.

(** ** The conversation *)

Abbreviation Event := (nat * comm W)%type.
Abbreviation Thread := (thread (act (W := W) (Heap := Heap)) simple_lock Z).
Abbreviation Pool := (pool (act (W := W) (Heap := Heap)) simple_lock Z St).

(** What has crossed the socket: messages without a reply, and messages followed
    at once by the reply to them, read by the thread that sent them. *)
Inductive paired : list Event -> Prop :=
| paired_nil : paired []
| paired_tell tr i m w :
    paired tr -> is_silent m = true -> paired (tr ++ [(i, Said m w)])
| paired_ask tr i m w :
    paired tr -> expects_reply m = true ->
    paired (tr ++ [(i, Said m w); (i, Heard (answer m w ++ [nl]))]).

(** At any moment one reply at most is still to be read. *)
Definition conversation (tr : list Event) : Prop :=
  paired tr \/
  exists tr0 i m w, tr = tr0 ++ [(i, Said m w)] /\ paired tr0 /\ expects_reply m = true.

Definition waits (t : Thread) (wait : bool) : Prop :=
  match t.(doing) with Running p => polite t.(holds) wait p | _ => wait = false end.

(** The reply to [m] is under way, and nothing else. *)
Definition under_way (m : str) (w : W) (s : St) : Prop :=
  (0 < s.(_sockfd))%Z /\
  exists cs, inbox s.(_sockfd) s.(world) = cs /\ carries cs (answer m w ++ [nl]) /\ length cs <= fuel.

Inductive talking (tr : list Event) (p : Pool) : Prop :=
| talking_quiet :
    paired tr -> in_sync fuel p.(shared) ->
    (forall i t, p.(threads) !! i = Some t -> waits t false) -> talking tr p
| talking_wait i tr0 m w :
    tr = tr0 ++ [(i, Said m w)] -> paired tr0 -> expects_reply m = true ->
    under_way m w p.(shared) -> has_lock p i LMtx ->
    (forall j t, p.(threads) !! j = Some t -> waits t (bool_decide (j = i))) -> talking tr p.

(** *** What a turn of a thread that awaits nothing does *)

Definition same_socket (s s' : St) : Prop :=
  s'.(world) = s.(world) /\ s'.(_sockfd) = s.(_sockfd).

Inductive uttered (t : Thread) (s : St) : list (comm W) -> Thread -> St -> Prop :=
| uttered_nothing t' s' : waits t' false -> same_socket s s' -> uttered t s [] t' s'
| uttered_message m t' s' :
    LMtx ∈ t.(holds) -> LMtx ∈ t'.(holds) -> do_send m (set_rng t.(own) s) = (Ok tt, s') ->
    (expects_reply m = true /\ waits t' true \/ is_silent m = true /\ waits t' false) ->
    uttered t s [Said m s.(world)] t' s'
| uttered_failed m e t' s' :
    LMtx ∈ t.(holds) -> do_send m (set_rng t.(own) s) = (Throw e, s') -> waits t' false ->
    uttered t s [] t' s'.

Lemma turn_utters (t : Thread) s os t' s' :
  waits t false -> turn (HD := handler) t s = Some (os, t', s') -> uttered t s os t' s'.
Proof.
  unfold waits. destruct t as [x ls [|[|B e k|l k|l k]|e]]; cbn; intros Hw Hu; try done.
  - injection Hu as <- <- <-. by apply uttered_nothing.
  - destruct e as [m|g|B d acc f]; cbn in *.
    + destruct Hw as (Hl & _ & Hk).
      destruct (do_send m (set_rng x s)) as [[[]|e| | |] s1] eqn:Hs; try discriminate Hu;
        injection Hu as <- <- <-; [by apply uttered_message|by eapply (uttered_failed _ _ m)].
    + by destruct Hw as (_ & ? & _).
    + destruct Hw as (_ & Hf & Hk). specialize (Hf (set_rng x s)).
      destruct (f (set_rng x s)) as [[b|e| | |] s1] eqn:Hs; try discriminate Hu;
        injection Hu as <- <- <-; destruct Hf as (H1 & H2 & _);
        (apply uttered_nothing; [solve [done | apply Hk]|done]).
  - destruct Hw as (_ & _ & Hk). destruct (is_held l s); [discriminate Hu|].
    injection Hu as <- <- <-. apply uttered_nothing; [done|by destruct l].
  - destruct Hw as (_ & _ & Hk). injection Hu as <- <- <-. apply uttered_nothing; [done|by destruct l].
  - destruct ls as [|l ls]; injection Hu as <- <- <-; apply uttered_nothing; try done. by destruct l.
Qed.

(** *** The thread that waits reads its reply *)

Lemma turn_hears (t : Thread) m w s os t' s' :
  waits t true -> under_way m w s -> turn (HD := handler) t s = Some (os, t', s') ->
  os = [Heard (answer m w ++ [nl])] /\ waits t' false /\ in_sync fuel s'.
Proof.
  unfold waits. destruct t as [x ls [|[|B e k|l k|l k]|e]]; cbn; intros Hw (Hfd & cs & Hin & Hc & Hl) Hu;
    try done; try (by destruct Hw as [? ?]).
  destruct e as [m'|g|B d acc f]; cbn in *; [by destruct Hw as (_ & ? & _)| |by destruct Hw as (? & _)].
  destruct Hw as (_ & _ & -> & Hk).
  destruct (do_recv_first fuel (set_rng x s) cs [] (answer m w)) as (w' & Hr & Hw');
    [done|by rewrite app_nil_r|done|apply answer_plain|done|].
  rewrite Hr in Hu. injection Hu as <- <- <-. split; [done|]. split; [apply Hk|exact Hw'].
Qed.

(** *** The pool *)

(** A send that throws has left nothing to read. *)
Lemma send_failed m s e s' : do_send m s = (Throw e, s') -> in_sync fuel s -> in_sync fuel s'.
Proof.
  intros Hs Hi. unfold in_sync in *.
  assert (wp True (do_send m) (fun _ _ => True) (fun _ s' => inbox s'.(_sockfd) s'.(world) = []) s) as Hw.
  { unfold do_send. apply wp_bind, wp_gets. destruct (0 <? _sockfd s)%Z; simpl; [|by wp_step].
    apply wp_bind, wp_gets, wp_bind, wp_on_pure. intros rc w Hsend.
    destruct (Z.ltb_spec rc 0); [|by wp_step]. unfold throw_errno. repeat wp_step.
    cbn. by rewrite (send_silent _ _ _ _ _ _ Hsend) by auto. }
  unfold wp in Hw. by rewrite Hs in Hw.
Qed.

Lemma answer_under_way m s s' :
  expects_reply m = true -> in_sync fuel s -> do_send m s = (Ok tt, s') -> under_way m s.(world) s'.
Proof.
  intros Hm Hi Hs. destruct (do_send_answered fuel m s s' Hm Hs) as (cs & Hfd & Hf & Hin & Hc & Hl).
  unfold in_sync in Hi. rewrite Hi in Hin. split; [by rewrite Hf|]. exists cs. by rewrite Hf.
Qed.

Lemma waits_insert (p : Pool) (s : St) i t' (b : nat -> bool) :
  waits t' (b i) -> (forall j t, j <> i -> p.(threads) !! j = Some t -> waits t (b j)) ->
  forall j t, (mkPool s (<[i := t']> p.(threads)) : Pool).(threads) !! j = Some t -> waits t (b j).
Proof.
  intros Ht Hp j t. cbn [threads]. rewrite list_lookup_insert_Some.
  intros [(-> & -> & _)|[Hne Hj]]; [done|]. by apply Hp.
Qed.

Lemma quiet_turn tr (p : Pool) i os p' :
  paired tr -> in_sync fuel p.(shared) ->
  (forall i t, p.(threads) !! i = Some t -> waits t false) ->
  take_turn (HD := handler) i p = Some (os, p') -> talking (tr ++ os) p'.
Proof.
  intros Hp Hs Hw (t & os' & t' & s' & Hi & Hu & -> & ->)%take_turn_inv.
  pose proof (waits_insert p s' i t' (fun _ => false)) as Hall. cbn beta in Hall.
  destruct (turn_utters _ _ _ _ _ (Hw i t Hi) Hu) as [t' s' Ht [H1 H2]|m t' s' Hl Hl' Hsend Hc|m e t' s' Hl Hsend Ht];
    cbn [tagged map]; rewrite ?app_nil_r.
  - apply talking_quiet; [done|cbn; unfold in_sync in *; by rewrite H1, H2|].
    apply Hall; [done|]. intros j u _. apply Hw.
  - destruct Hc as [[Hm Ht]|[Hm Ht]].
    + eapply (talking_wait _ _ i tr m); [done..| | |].
      * exact (answer_under_way m (set_rng (own t) (shared p)) s' Hm Hs Hsend).
      * by apply (has_lock_this p s' i t).
      * apply waits_insert; [by rewrite bool_decide_true|]. intros j u Hne Hj.
        rewrite bool_decide_false by done. by eapply Hw.
    + apply talking_quiet; [by apply paired_tell| |].
      * pose proof (silent_stays fuel m Hm (set_rng (own t) (shared p)) Hs) as Hst. by rewrite Hsend in Hst.
      * apply Hall; [done|]. intros j u _. apply Hw.
  - apply talking_quiet; [done|exact (send_failed m (set_rng (own t) (shared p)) e s' Hsend Hs)|]. apply Hall; [done|]. intros j u _. apply Hw.
Qed.

Lemma waiting_turn tr0 m w (p : Pool) i j os p' :
  locks_ok (HD := handler) p -> paired tr0 -> expects_reply m = true ->
  under_way m w p.(shared) -> has_lock p i LMtx ->
  (forall j t, p.(threads) !! j = Some t -> waits t (bool_decide (j = i))) ->
  take_turn (HD := handler) j p = Some (os, p') -> talking ((tr0 ++ [(i, Said m w)]) ++ os) p'.
Proof.
  intros [Hok [Hex _]] Hp Hm Huw Hl Hw (t & os' & t' & s' & Hj & Hu & -> & ->)%take_turn_inv.
  pose proof (Hw j t Hj) as Hwj. destruct (decide (j = i)) as [->|Hne].
  - rewrite bool_decide_true in Hwj by done.
    destruct (turn_hears _ _ _ _ _ _ _ Hwj Huw Hu) as (-> & Ht & Hs).
    apply talking_quiet; [|done|].
    + rewrite <- app_assoc. by apply paired_ask.
    + intros k u. cbn [threads]. rewrite list_lookup_insert_Some. intros [(-> & -> & _)|[Hk Hu']]; [done|].
      specialize (Hw k u Hu'). by rewrite bool_decide_false in Hw.
  - rewrite bool_decide_false in Hwj by done.
    destruct (turn_utters _ _ _ _ _ Hwj Hu) as [t' s' Ht [H1 H2]|m' t' s' Hl' _ _ _|m' e t' s' Hl' _ _];
      [|by destruct Hne; apply (Hex _ _ LMtx); [exists t|]..].
    cbn [tagged map]. rewrite app_nil_r. eapply (talking_wait _ _ i tr0 m w); [done..| | |].
    + unfold under_way in *. cbn [shared]. by rewrite H1, H2.
    + by apply (has_lock_other p s' j t t' i LMtx Hj (not_eq_sym Hne)).
    + apply waits_insert; [by rewrite bool_decide_false|]. intros k u _. apply Hw.
Qed.

Lemma call_waits tr i (c : Code unit) (p p' : Pool) :
  obeys [] c -> talking tr p -> (forall i t, p.(threads) !! i = Some t -> thread_ok (HD := handler) t) ->
  call i (flatten c (fun _ => Return)) p = Some p' -> talking tr p'.
Proof.
  intros Hc Ht Hok (t & Hi & Hd & ->)%call_inv.
  pose proof (Hok i t Hi) as [_ Hh]. rewrite Hd in Hh.
  assert (waits (mkThread t.(own) t.(holds) (Running (flatten c (fun _ => Return)))) false) as Hw'.
  { cbn. rewrite Hh. by apply Hc. }
  destruct Ht as [Hp Hs Hw|k tr0 m w -> Hp Hm Hu Hl Hw].
  - apply talking_quiet; [done|done|].
    apply (waits_insert p _ i _ (fun _ => false)); [done|]. intros j u _. apply Hw.
  - assert (i <> k) as Hne.
    { intros ->. specialize (Hw k t Hi). unfold waits in Hw. rewrite Hd, bool_decide_true in Hw; done. }
    eapply (talking_wait _ _ k tr0 m w); [done..| |].
    + by apply (has_lock_other p _ i t _ k LMtx Hi (not_eq_sym Hne)).
    + apply (waits_insert p _ i _ (fun j => bool_decide (j = k))); [by rewrite bool_decide_false|].
      intros j u _. apply Hw.
Qed.

(** ** The properties *)

(** The calls of the class that lock, with any arguments. *)
Definition simple_call (_ : St) (pr : Prog) : Prop :=
  exists o c, op_code fuel o = Some c /\ pr = flatten c (fun _ => Return).

(** No call is under way. *)
Definition at_rest (p : Pool) : Prop :=
  (forall i t, p.(threads) !! i = Some t -> t.(doing) = Idle /\ t.(holds) = []) /\
  p.(shared).(_mtx) = false /\ p.(shared).(_mtx_frame) = false.

Lemma rest_locks (p : Pool) : at_rest p -> locks_ok (HD := handler) p.
Proof.
  intros (Ht & H1 & H2). assert (forall i l, ~ has_lock p i l) as Hn.
  { intros i l (t & Hi & Hl). destruct (Ht i t Hi) as [_ Hh]. rewrite Hh in Hl. by apply elem_of_nil in Hl. }
  split; [|split].
  - intros i t Hi. destruct (Ht i t Hi) as [Hd Hh]. split; rewrite ?Hd, Hh; [constructor|done].
  - intros i j l Hl. by destruct (Hn i l).
  - intros []; cbn; [rewrite H1|rewrite H2]; (split; [done|]); intros [i Hi]; by destruct (Hn i _ Hi).
Qed.

Lemma call_ordered s pr : simple_call s pr -> ordered (HD := handler) [] pr.
Proof.
  intros (o & c & Hc & ->). apply (polite_ordered _ [] false). apply (op_obeys o c Hc).
  by intros [].
Qed.

Lemma locks_reachable (p : Pool) tr p' :
  at_rest p -> runs (HD := handler) simple_call p tr p' -> locks_ok (HD := handler) p'.
Proof. intros Hr. by apply locks_run; [apply call_ordered|apply rest_locks]. Qed.

Lemma talking_run (p : Pool) tr p' :
  at_rest p -> in_sync fuel p.(shared) -> runs (HD := handler) simple_call p tr p' -> talking tr p'.
Proof.
  intros Hr Hs Hrun. induction Hrun as [|tr p1 i os p2 Hrun IH Ht|tr p1 i pr p2 Hrun IH (o & c & Hc & ->) Hcall].
  - apply talking_quiet; [constructor|done|]. intros i t Hi. destruct Hr as [Ht _].
    unfold waits. by destruct (Ht i t Hi) as [-> _].
  - destruct IH as [Hp Hq Hw|k tr0 m w -> Hp Hm Hu Hl Hw]; [by eapply quiet_turn|].
    eapply waiting_turn; try done. by eapply locks_reachable.
  - eapply call_waits; [by apply (op_obeys o c Hc)|done| |done]. by apply (locks_reachable p tr).
Qed.

(** C16. The threads run the operations of the single-socket client: a call
    that returns or throws when a thread makes it alone is one of the calls of
    the pool, and its thread, when the others are idle, goes by turns to the same
    end, with the same effect on the object and on its random generator. *)
Theorem calls_are_operations o (s : St) r s' :
  locked_op o = true -> run_op fuel o s = (r, s') -> proper r ->
  exists c, op_code fuel o = Some c /\
    rtc (some_turn (HD := handler)) (alone s [] (Running (flatten c (fun _ => Return))))
      (alone s' [] Idle).
Proof.
  intros Ho Hrun Hr. destruct (op_code (W := W) fuel o) as [c|] eqn:Hc; [|by destruct o].
  exists c. split; [done|].
  apply (exec_alone (HD := handler) _ _ _ r); [| |by destruct Hr as [[? ->]|[? ->]]].
  - apply (call_ordered s). by exists o, c.
  - rewrite exec_flatten, (op_same fuel o c Hc), Hrun. by destruct Hr as [[[] ->]|[? ->]].
Qed.





(** C2. Any number of threads call a [CogSimpleStorage] at once, each any
    locking calls in any order, and their actions interleave in any way: what
    crosses the socket is one conversation.  A message that has a reply is
    followed at once by that reply, and the reply is read by the thread that
    sent the message; the thread that awaits one holds [_mtx]; and when none is
    awaited nothing is left unread. *)
Theorem one_conversation (p : Pool) tr p' :
  at_rest p -> in_sync fuel p.(shared) -> runs (HD := handler) simple_call p tr p' ->
  (paired tr /\ in_sync fuel p'.(shared)) \/
  (exists tr0 i m w, tr = tr0 ++ [(i, Said m w)] /\ paired tr0 /\ expects_reply m = true /\
                     has_lock p' i LMtx).
Proof.
  intros Hr Hs Hrun. destruct (talking_run p tr p' Hr Hs Hrun) as [Hp Hq _|i tr0 m w -> Hp Hm _ Hl _].
  - by left.
  - right. by exists tr0, i, m, w.
Qed.

(** The action a thread is at does not touch the socket, and neither returns nor
    throws. *)
Definition stuck_at_work (t : Thread) (s : St) : Prop :=
  match t.(doing) with
  | Running (Act e k) =>
      match e with
      | ADo _ _ f => match (f (set_rng t.(own) s)).1 with Ok _ | Throw _ => False | _ => True end
      | _ => False
      end
  | _ => False
  end.

Lemma send_behaves m s : match (do_send m s).1 with Ok _ | Throw _ => True | _ => False end.
Proof.
  assert (wp False (do_send m) (fun _ _ => True) (fun _ _ => True) s) as Hw by by apply do_send_wp.
  unfold wp in Hw. by destruct (do_send m s) as [[] ?].
Qed.

(** The socket never keeps a thread from going on. *)
Lemma misbehaves_work tr (p : Pool) i t :
  talking tr p -> p.(threads) !! i = Some t -> misbehaves (HD := handler) t p.(shared) ->
  stuck_at_work t p.(shared).
Proof.
  intros Ht Hi. destruct Ht as [_ _ Hw|k tr0 m w _ _ _ Hu _ Hw]; specialize (Hw i t Hi);
    unfold misbehaves, stuck_at_work, waits in *; destruct t as [x ls [|[|B e k0|l k0|l k0]|e]]; cbn in *; try done;
    destruct e as [m'|g|B d acc f]; try done; cbn in *.
  - pose proof (send_behaves m' (set_rng x (shared p))). by destruct (do_send _ _).1.
  - by destruct Hw as (_ & ? & _).
  - pose proof (send_behaves m' (set_rng x (shared p))). by destruct (do_send _ _).1.
  - destruct Hw as (_ & _ & -> & _). destruct Hu as (Hfd & cs & Hin & Hc & Hl).
    destruct (do_recv_first fuel (set_rng x (shared p)) cs [] (answer m w)) as (w' & Hr & _);
      [done|by rewrite app_nil_r|done|apply answer_plain|done|]. by rewrite Hr.
Qed.

(** Where no thread can take a turn, all calls are over and the mutexes are free,
    unless a thread is stuck in an action of its own. *)
Lemma stuck_pool (p : Pool) tr p' :
  at_rest p -> in_sync fuel p.(shared) -> runs (HD := handler) simple_call p tr p' ->
  stuck (HD := handler) p' ->
  at_rest p' \/ exists i t, p'.(threads) !! i = Some t /\ stuck_at_work t p'.(shared).
Proof.
  intros Hr Hs Hrun Hst. pose proof (locks_reachable _ _ _ Hr Hrun) as Hok.
  destruct (no_deadlock p' Hok Hst) as [Hidle|(i & t & Hi & Hm)].
  - left. assert (forall i t, threads p' !! i = Some t -> doing t = Idle /\ holds t = []) as Hall.
    { intros i t Hi. split; [by eapply Hidle|]. destruct Hok as [Hok _].
      destruct (Hok i t Hi) as [_ Hh]. by rewrite (Hidle i t Hi) in Hh. }
    split; [done|]. destruct Hok as [_ [_ Hh]].
    assert (forall l, is_held l (shared p') = false) as Hf.
    { intros l. destruct (is_held l (shared p')) eqn:Hl; [|done]. apply Hh in Hl as (i & t & Hi & Hl).
      destruct (Hall i t Hi) as [_ Hn]. rewrite Hn in Hl. by apply elem_of_nil in Hl. }
    split; [apply (Hf LMtx)|apply (Hf LMtxFrame)].
  - right. exists i, t. split; [done|].
    eapply misbehaves_work; [by apply (talking_run p tr p')|done..].
Qed.
End talk.
