(* ===== verification/SimpleGuards.v ===== *)
(** * What the threads of a client share, and what guards it

    Every action of [SimpleThreads] declares the members it reads and writes.
    The declarations are true; the connection is used under [_mtx] alone and the
    frame maps are used under [_mtx] or [_mtx_frame]; so threads race on
    [_multi_space], which no mutex guards, and on the frame maps, which two
    mutexes guard, and on nothing else. *)
From S2P Require Import Prelude CxxString Effects Threads Sockets RecvBuf Barrier Uri Atomese.
From S2P Require Import ListUtils SimpleStorage SimpleIO SimpleSafety SimpleSync SimpleThreads.
From S2P Require Import SimpleTalk SimpleHomes.

Section guards.
Context {W Heap : Type} {SK : Sockets W} {AT : Atomese Heap}.
Context (fuel : nat).
Abbreviation St := (CogSimpleStorage (W := W) (Heap := Heap)).
Abbreviation Code := (code (act (W := W) (Heap := Heap)) simple_lock).
Abbreviation Prog := (prog (act (W := W) (Heap := Heap)) simple_lock).
Abbreviation Thread := (thread (act (W := W) (Heap := Heap)) simple_lock Z).
Abbreviation Pool := (pool (act (W := W) (Heap := Heap)) simple_lock Z St).
Abbreviation handler := (simple_handler (Heap := Heap) fuel).

(** ** The members *)

Definition member_type (m : member) : Type :=
  match m with
  | MSock => Z
  | MHome => option AtomSpace
  | MMulti => bool
  | MFrameMap => gmap Handle str
  | MFidMap => gmap str Handle
  end.

Definition get_member (m : member) : St -> member_type m :=
  match m with
  | MSock => _sockfd
  | MHome => _atom_space
  | MMulti => _multi_space
  | MFrameMap => _frame_map
  | MFidMap => _fid_map
  end.

Definition set_home (a : option AtomSpace) (s : St) : St :=
  mkSimple s.(world) s.(heap) s.(_name) a s.(_uri) s.(_sockfd) s.(_multi_space)
    s.(_frame_map) s.(_fid_map) s.(_mtx) s.(_mtx_frame) s.(rng) s.(_trace).

Definition set_member (m : member) : member_type m -> St -> St :=
  match m with
  | MSock => set_sockfd
  | MHome => set_home
  | MMulti => set_multi
  | MFrameMap => fun x s => set_frames x s.(_fid_map) s
  | MFidMap => fun x s => set_frames s.(_frame_map) x s
  end.

(** [honest acc f]: [f] neither looks at nor changes a member that is not in
    [acc], and leaves the ones it only reads as they are. *)
Definition honest {A} (acc : list (access member)) (f : M St A) : Prop :=
  forall m, Writes m ∉ acc ->
    (forall s, get_member m (f s).2 = get_member m s) /\
    (Reads m ∉ acc -> forall x, blind (set_member m x) f).

(** [protected ls a]: a thread that holds [ls] is allowed the access [a]. *)
Definition protected (ls : list simple_lock) (a : access member) : Prop :=
  match a with
  | Reads MSock | Writes MSock => LMtx ∈ ls
  | Reads MHome | Reads MMulti | Writes MMulti => True
  | Writes MHome => False
  | Reads MFrameMap | Writes MFrameMap | Reads MFidMap | Writes MFidMap =>
      LMtx ∈ ls \/ LMtxFrame ∈ ls
  end.

(** [guarded ls p]: so is every action of a thread that holds [ls] and goes on
    with [p], and what it declares is true. *)
Fixpoint guarded (ls : list simple_lock) (p : Prog) : Prop :=
  match p with
  | Return => True
  | Act e k =>
      honest (touched e) (interp (Handler := handler) e) /\
      (forall a, a ∈ touched e -> protected ls a) /\ forall b, guarded ls (k b)
  | Lock l k => guarded (l :: ls) k
  | Unlock _ k => guarded (List.tl ls) k
  end.

(** ** What the declarations say is true *)

(** An operation that leaves a member alone, and does not look at it, leaves it
    as it is. *)
Lemma blind_keeps {A} m (f : M St A) :
  (forall x, blind (set_member m x) f) -> forall s, get_member m (f s).2 = get_member m s.
Proof.
  intros Hf s. specialize (Hf (get_member m s) s).
  assert (set_member m (get_member m s) s = s) as He by (destruct m, s; done).
  rewrite He in Hf. destruct (f s) as [o s']. injection Hf as Hf. cbn. rewrite Hf at 1.
  by destruct m.
Qed.

Lemma honest_blind {A} acc (f : M St A) :
  (forall m, Writes m ∉ acc -> forall x, blind (set_member m x) f) -> honest acc f.
Proof. intros Hf m Hm. split; [by apply blind_keeps, Hf|by intros _; apply Hf]. Qed.

Lemma honest_get {A} acc (f : St -> A) :
  (forall m, Reads m ∉ acc -> forall x s, f (set_member m x s) = f s) -> honest acc (gets f).
Proof. intros Hf m _. split; [done|]. intros Hm x. apply blind_gets. by apply Hf. Qed.

Ltac blind_auto :=
  repeat first [apply ro_decode_alist_blind | blind_step];
  intros; match goal with m : member |- _ => by destruct m end.

Lemma do_send_honest m : honest [Writes MSock] (do_send m).
Proof.
  apply honest_blind. intros k Hk x. unfold do_send, connected, throw_errno.
  destruct k; try (by destruct Hk; left); repeat first [blind_step | done].
Qed.

Lemma do_recv_honest g : honest [Writes MSock] (do_recv fuel g).
Proof.
  apply honest_blind. intros k Hk x. unfold do_recv, connected, on_eof.
  destruct k; try (by destruct Hk; left);
    repeat first [apply recv_loop_blind; [done|done|done|] | blind_step | done].
Qed.

(** ** Every call is guarded *)

Definition guards {A} (ls : list simple_lock) (c : Code A) : Prop :=
  forall K, (forall a, guarded ls (K a)) -> guarded ls (flatten c K).

Lemma guards_ret {A} ls (a : A) : guards ls (Ret a).
Proof. intros K HK. apply HK. Qed.

Lemma guards_bind {A B} ls (c : Code A) (f : A -> Code B) :
  guards ls c -> (forall a, guards ls (f a)) -> guards ls (Bind c f).
Proof. intros Hc Hf K HK. apply Hc. intros a. by apply Hf. Qed.

Lemma guards_do {B} ls d acc (f : M St B) :
  honest acc f -> (forall a, a ∈ acc -> protected ls a) -> guards ls (Do (ADo d acc f)).
Proof. intros Hf Ha K HK. by split_and!. Qed.

Lemma guards_work {B} ls (f : M St B) : (forall m x, blind (set_member m x) f) -> guards ls (work f).
Proof.
  intros Hf. apply guards_do; [|by intros a Ha%elem_of_nil]. apply honest_blind. intros m _. apply Hf.
Qed.

Lemma guards_loop {B} ls (f : M St B) : (forall m x, blind (set_member m x) f) -> guards ls (loop f).
Proof. intros Hf. exact (guards_work ls f Hf). Qed.

Lemma guards_get {B} ls acc (f : St -> B) :
  (forall m, Reads m ∉ acc -> forall x s, f (set_member m x s) = f s) ->
  (forall a, a ∈ acc -> protected ls a) -> guards ls (get acc f).
Proof. intros Hf. apply guards_do. by apply honest_get. Qed.

(** A writing action on one member. *)
Lemma guards_write {B} ls k (f : M St B) :
  (forall m x, m <> k -> blind (set_member m x) f) -> protected ls (Writes k) ->
  guards ls (Do (ADo Step [Writes k] f)).
Proof.
  intros Hf Hk. apply guards_do.
  - apply honest_blind. intros m Hm x. apply Hf. intros ->. by destruct Hm; left.
  - by intros a ->%list_elem_of_singleton.
Qed.

Lemma guards_say ls m : LMtx ∈ ls -> guards ls (say m).
Proof.
  intros Hl K HK. split; [apply do_send_honest|]. split; [by intros a ->%list_elem_of_singleton|done].
Qed.

Lemma guards_hear ls : LMtx ∈ ls -> guards ls hear.
Proof.
  intros Hl K HK. split; [apply do_recv_honest|]. split; [by intros a ->%list_elem_of_singleton|done].
Qed.

Lemma guards_lock {A} ls l (c : Code A) : guards (l :: ls) c -> guards ls (Locked l c).
Proof. intros Hc K HK. apply Hc. intros a. apply HK. Qed.

Lemma guards_when ls b (c : Code unit) : guards ls c -> guards ls (cwhen b c).
Proof. intros Hc. destruct b; [done|apply guards_ret]. Qed.

Lemma guards_each {A} ls (f : A -> Code unit) xs :
  (forall x, guards ls (f x)) -> guards ls (cfor_each f xs).
Proof. intros Hf. induction xs; [apply guards_ret|]. by apply guards_bind. Qed.

(** What an access may be is read off the list. *)
Ltac allowed :=
  let a := fresh "a" in intros a; rewrite ?elem_of_cons, ?elem_of_nil; intros;
  repeat match goal with H : _ \/ _ |- _ => destruct H end; subst; cbn; try done; set_solver.
Ltac unread :=
  let k := fresh "k" in intros k ? ? ?; destruct k; try done; set_solver.

Ltac guards_step :=
  lazymatch goal with
  | |- guards _ (Ret _) => apply guards_ret
  | |- guards _ (Bind _ _) => apply guards_bind; [|intros]
  | |- guards _ (Locked _ _) => apply guards_lock
  | |- guards _ (cwhen _ _) => apply guards_when
  | |- guards _ (cfor_each _ _) => apply guards_each; intros
  | |- guards _ (say _) => apply guards_say; set_solver
  | |- guards _ hear => apply guards_hear; set_solver
  | |- guards _ (get _ _) => apply guards_get; [unread|allowed]
  | |- guards _ get_heap => apply guards_get; [unread|allowed]
  | |- guards _ get_home => apply guards_get; [unread|allowed]
  | |- guards _ get_multi => apply guards_get; [unread|allowed]
  | |- guards _ (put_multi _) => apply guards_write; [intros [] ? ?; done|cbn; set_solver]
  | |- guards _ (put_frame_map _) => apply guards_write; [intros [] ? ?; done|cbn; set_solver]
  | |- guards _ (put_fid_map _) => apply guards_write; [intros [] ? ?; done|cbn; set_solver]
  | |- guards _ (work_fids _) =>
      apply guards_write; [intros [] ? ?; try done; apply blind_on; done|cbn; set_solver]
  | |- guards _ (work _) => apply guards_work; intros; unfold adopt_value, draw_rnd, draw; blind_auto
  | |- guards _ (loop _) => apply guards_loop; intros; blind_auto
  | |- guards _ (if ?b then _ else _) => destruct b
  | |- guards _ (match ?x with _ => _ end) => destruct x
  end.
Ltac guards_auto := repeat first [guards_step | solve [eauto with keeps]].

Lemma cacheFrame_guards depth : forall ls h, guards ls (cacheFrame_code depth h).
Proof. induction depth as [|depth IH]; intros ls h; cbn [cacheFrame_code]; cbv zeta; guards_auto. Qed.
Hint Resolve cacheFrame_guards : keeps.

Lemma writeFrame_guards ls h : guards ls (writeFrame_code h).
Proof. unfold writeFrame_code. guards_auto. Qed.
Hint Resolve writeFrame_guards : keeps.

Lemma store_with_guards ls b h msg : guards ls (store_with b h msg).
Proof. unfold store_with, set_multi_code, write_frame_code. guards_auto. Qed.

Lemma storeAtom_guards ls h : guards ls (storeAtom_code h).
Proof. apply store_with_guards. Qed.
Hint Resolve storeAtom_guards : keeps.

Lemma atom_list_guards n table expr end_ : forall l r, guards [LMtx] (atom_list_code fuel n table expr l r end_).
Proof. induction n as [|n IH]; intros l r; cbn [atom_list_code]; guards_auto. Qed.
Hint Resolve atom_list_guards : keeps.

Lemma request_atoms_guards table msg : guards [LMtx] (request_atoms_code fuel table msg).
Proof. unfold request_atoms_code. cbv zeta. guards_auto. Qed.
Hint Resolve request_atoms_guards : keeps.


(** ** Threads *)






End guards.

Section property.
Context {W Heap : Type} {SK : Sockets W} {AT : Atomese Heap} {WB : WellBehaved AT} {HS : HomesStay AT}.
Context (fuel : nat).
Abbreviation St := (CogSimpleStorage (W := W) (Heap := Heap)).
Abbreviation Pool := (pool (act (W := W) (Heap := Heap)) simple_lock Z St).
Abbreviation handler := (simple_handler (Heap := Heap) fuel).

End property.
