(* ===== verification/SimpleSpec.v ===== *)
(** * What the operations of the single-socket client do

    Over a network that delivers what is sent ([send_ok]) to a CogServer that
    answers as [SyncServer] says, each operation's messages, in order, and its
    effect on the atoms are computed exactly.  [does m s o h evs] states both:
    run from [s], [m] ends with [o], leaves the atoms [h], has sent and
    received [evs], and changes nothing else of the client. *)
From S2P Require Import Prelude CxxString Effects Sockets RecvBuf Barrier Uri Atomese.
From S2P Require Import ListUtils SimpleStorage SimpleIO SimpleSafety SimpleSync.

(** ** Running heap operations on a state that has the atoms *)

(** The atoms alone are a state too. *)
Definition self_has {X} : Has X X := {| the := fun x => x; put := fun x _ => x |}.
#[local] Existing Instance self_has.

Section on_run.
Context {Heap S : Type} {AT : Atomese Heap} `{HasLaws Heap S}.

Lemma on_run {A} (f : Heap -> outcome A * Heap) (s : S) :
  on f s = ((f (the s)).1, put (f (the s)).2 s).
Proof. unfold on. by destruct (f (the s)). Qed.

Lemma on_bind {A B} (m : M Heap A) (k : A -> M Heap B) (s : S) :
  on (m ≫= k) s = (on m ≫= fun a => on (k a)) s.
Proof.
  unfold on, mbind, M_bind. destruct (m (the s)) as [[a|e| | |] h]; try done.
  rewrite the_put. destruct (k a h) as [o h']. by rewrite put_put.
Qed.

Lemma on_ret {A} (a : A) (s : S) : on (mret (M := M Heap) a) s = (Ok a, s).
Proof. unfold on. simpl. by rewrite put_the. Qed.

Lemma on_for_each {A} (f : A -> M Heap unit) xs : forall s : S,
  on (for_each f xs) s = for_each (fun x => on (f x)) xs s.
Proof.
  induction xs as [|x xs IH]; intros s; cbn [for_each]; [apply on_ret|].
  rewrite on_bind. apply bind_ext. intros _ s' _. apply IH.
Qed.

Lemma on_on {A} (f : Heap -> outcome A * Heap) (s : S) :
  on (S := S) (on (S := Heap) f) s = on f s.
Proof. unfold on. simpl. by destruct (f (the s)). Qed.

Lemma on_bind_on {A B} (f : Heap -> outcome A * Heap) (k : A -> M Heap B) (k' : A -> M S B) s :
  (forall a s', on (k a) s' = k' a s') ->
  (on f ≫= k') s = on (on (S := Heap) f ≫= k) s.
Proof.
  intros Hk. rewrite on_bind. unfold mbind, M_bind. rewrite on_on.
  destruct (on f s) as [[a|e| | |] s']; by rewrite ?Hk.
Qed.

Lemma on_gets_bind {A B} (f : Heap -> A) (k : A -> M Heap B) (s : S) :
  on (gets f ≫= k) s = on (k (f (the s))) s.
Proof.
  rewrite on_bind. by rewrite (bind_ok _ _ s (f (the s)) s) by by apply on_same.
Qed.

Lemma on_ret_bind {A B} (a : A) (k : A -> M Heap B) (s : S) :
  on (mret a ≫= k) s = on (k a) s.
Proof. rewrite on_bind. by rewrite (bind_ok _ _ s a s) by apply on_ret. Qed.

(** Storing a pair touches only the atoms. *)
Lemma store_kv_on as_ atom k v (s : S) :
  store_kv as_ atom k v s = on (store_kv (S := Heap) as_ atom k v) s.
Proof.
  destruct as_ as [a|]; cbn [store_kv].
  - apply on_bind_on. intros k' s1. symmetry. apply on_bind_on. intros v' s2.
    rewrite on_bind. apply bind_ext. intros [] s3 _. symmetry.
    apply on_bind_on. intros ? s4. apply on_ret.
  - done.
Qed.
End on_run.

(** ** The effect of an operation *)

Section spec.
Context {W Heap : Type} {SK : Sockets W} {AT : Atomese Heap}.
Context (fuel : nat) {SS : SyncServer SK fuel}.
Context (send_ok : forall fd m b w, (0 <= (sys_send fd m b w).1)%Z).
Abbreviation St := (CogSimpleStorage (W := W) (Heap := Heap)).

(** Everything but the world, the atoms and the trace. *)
Definition same_client (s s' : St) : Prop :=
  s'.(_name) = s.(_name) /\ s'.(_atom_space) = s.(_atom_space) /\ s'.(_uri) = s.(_uri) /\
  s'.(_sockfd) = s.(_sockfd) /\ s'.(_multi_space) = s.(_multi_space) /\
  s'.(_frame_map) = s.(_frame_map) /\ s'.(_fid_map) = s.(_fid_map) /\
  s'.(_mtx) = s.(_mtx) /\ s'.(_mtx_frame) = s.(_mtx_frame) /\ s'.(rng) = s.(rng).

Definition does {A} (m : M St A) (s : St) (o : outcome A) (h : Heap)
    (evs : list io_event) : Prop :=
  exists s', m s = (o, s') /\ same_client s s' /\ s'.(heap) = h /\
    in_sync fuel s' /\ s'.(_trace) = s.(_trace) ++ evs.

(** A client ready for a request: connected, nothing unread. *)
Definition ready (s : St) : Prop := (0 < s.(_sockfd))%Z /\ in_sync fuel s.

Lemma same_client_refl s : same_client s s.
Proof. by unfold same_client. Qed.

Lemma same_client_trans s s1 s2 : same_client s s1 -> same_client s1 s2 -> same_client s s2.
Proof.
  unfold same_client. intros (?&?&?&?&?&?&?&?&?&?) (?&?&?&?&?&?&?&?&?&?).
  split_and!; congruence.
Qed.

Lemma ready_same s s' : ready s -> same_client s s' -> in_sync fuel s' -> ready s'.
Proof. intros [Hfd _] (_&_&_&Heq&_) Hs. split; [by rewrite Heq|done]. Qed.

Lemma does_ret {A} (a : A) s : ready s -> does (mret a) s (Ok a) s.(heap) [].
Proof. intros [_ Hs]. exists s. rewrite app_nil_r. split_and!; by try apply same_client_refl. Qed.

Lemma does_gets {A} (f : St -> A) s : ready s -> does (gets f) s (Ok (f s)) s.(heap) [].
Proof. intros [_ Hs]. exists s. rewrite app_nil_r. split_and!; by try apply same_client_refl. Qed.

Lemma does_bind {A B} (m : M St A) (k : A -> M St B) s a h1 e1 o h2 e2 :
  ready s -> does m s (Ok a) h1 e1 ->
  (forall s1, ready s1 -> same_client s s1 -> s1.(heap) = h1 -> does (k a) s1 o h2 e2) ->
  does (m ≫= k) s o h2 (e1 ++ e2).
Proof.
  intros Hr (s1 & Hm & Hc & Hh & Hs & Ht) Hk.
  destruct (Hk s1) as (s2 & Hk2 & Hc2 & Hh2 & Hs2 & Ht2); [by eapply ready_same|done|done|].
  exists s2. rewrite (bind_ok _ _ _ _ _ Hm). split_and!; try done.
  - by eapply same_client_trans.
  - by rewrite Ht2, Ht, <- app_assoc.
Qed.

Lemma does_bind_gets {A B} (f : St -> A) (k : A -> M St B) s o h e :
  does (k (f s)) s o h e -> does (gets f ≫= k) s o h e.
Proof. done. Qed.

(** An operation on the atoms, whatever it does. *)
Lemma does_on {A} (f : Heap -> outcome A * Heap) s :
  ready s -> does (on f) s (f s.(heap)).1 (f s.(heap)).2 [].
Proof.
  intros [_ Hs]. unfold does. rewrite on_run. exists (set_heap (f s.(heap)).2 s).
  rewrite app_nil_r. split_and!; by try apply same_client_refl.
Qed.

Lemma does_bind_on {A B} (f : Heap -> outcome A * Heap) (k : A -> M St B) s a h1 o h2 e :
  ready s -> f s.(heap) = (Ok a, h1) ->
  (forall s1, ready s1 -> same_client s s1 -> s1.(heap) = h1 -> does (k a) s1 o h2 e) ->
  does (on f ≫= k) s o h2 e.
Proof.
  intros Hr Hf Hk. apply (does_bind _ _ _ a h1 []); [done| |done].
  pose proof (does_on f s Hr) as Hd. by rewrite Hf in Hd.
Qed.

Lemma does_eq {A} (m m' : M St A) s o h e : m s = m' s -> does m' s o h e -> does m s o h e.
Proof. unfold does. by intros ->. Qed.

(** Composition: [m] does what [f] does to the atoms, [k] what [g] does. *)
Lemma does_bind_spec {A B} (m : M St A) (f : M Heap A) (g : A -> M Heap B) (k : A -> M St B) s :
  ready s -> (exists e, does m s (f s.(heap)).1 (f s.(heap)).2 e) ->
  (forall a s1, ready s1 -> same_client s s1 ->
     exists e, does (k a) s1 (g a s1.(heap)).1 (g a s1.(heap)).2 e) ->
  exists e, does (m ≫= k) s ((f ≫= g) s.(heap)).1 ((f ≫= g) s.(heap)).2 e.
Proof.
  intros Hr (e1 & s1 & Hm & Hc & Hh & Hs & Ht) Hk. unfold mbind at 2 3, M_bind.
  destruct (f s.(heap)) as [o h1]. cbn [fst snd] in Hm, Hh.
  destruct o as [a|x| | |];
    [|exists e1, s1; split; [unfold mbind, M_bind; by rewrite Hm|done]..].
  destruct (Hk a s1) as (e & s2 & Hd & Hc2 & Hh2 & Hs2 & Ht2); [by eapply ready_same|done|].
  rewrite Hh in *. eexists _, s2. split_and!; [|by eapply same_client_trans|done|done|].
  - etrans; [by apply bind_ok|done].
  - by rewrite Ht2, Ht, <- app_assoc.
Qed.

(** An operation on the atoms, then a step that does what [g] does. *)
Lemma does_bind_ref {A B} (f : M Heap A) (g : A -> M Heap B) (k : A -> M St B) s :
  ready s ->
  (forall a s1, ready s1 -> same_client s s1 ->
     exists e, does (k a) s1 (g a s1.(heap)).1 (g a s1.(heap)).2 e) ->
  exists e, does (on f ≫= k) s ((f ≫= g) s.(heap)).1 ((f ≫= g) s.(heap)).2 e.
Proof. intros Hr. apply does_bind_spec; [done|]. exists []. by apply does_on. Qed.

Lemma does_with_lock {A} (m : M St A) s o h e :
  s.(_mtx) = false -> does m (set_mtx true s) o h e -> does (with_lock mtx m) s o h e.
Proof.
  intros Hm (s' & Hrun & Hc & Hh & Hs & Ht). exists (set_mtx false s').
  unfold with_lock. simpl. rewrite Hm, Hrun. split_and!; try done.
  destruct Hc as (?&?&?&?&?&?&?&?&?&?). unfold same_client. by split_and!.
Qed.

(** A message the server does not answer. *)
Lemma does_send m s :
  ready s -> is_silent m = true ->
  does (do_send m) s (Ok tt) s.(heap) [IoSend s.(_mtx) m].
Proof.
  intros [Hfd Hs] Hm. destruct (sys_send s.(_sockfd) m false s.(world)) as [rc w] eqn:Hsend.
  exists (sent m s w). split_and!; try done.
  - pose proof (send_ok s.(_sockfd) m false s.(world)) as Hrc. rewrite Hsend in Hrc.
    by eapply do_send_run.
  - unfold in_sync. simpl. rewrite (send_silent _ _ _ _ _ _ Hsend) by auto. exact Hs.
Qed.

(** A request and its reply. *)
Lemma does_request m s :
  ready s -> expects_reply m = true ->
  does (do_send m;; do_recv fuel false) s (Ok (answer m s.(world) ++ [nl])) s.(heap)
    [IoSend s.(_mtx) m; IoRecv s.(_mtx) (answer m s.(world) ++ [nl])].
Proof.
  intros [Hfd Hs] Hm.
  enough (wp False (do_send m;; do_recv fuel false)
    (fun r s' => r = answer m s.(world) ++ [nl] /\ same_client s s' /\ heap s' = heap s /\
       in_sync fuel s' /\ _trace s' = _trace s ++ [IoSend s.(_mtx) m; IoRecv s.(_mtx) r])
    (fun _ _ => False) s) as Hw.
  { unfold wp in Hw. destruct ((do_send m;; do_recv fuel false) s) as [[r|e| | |] s'] eqn:Hrun;
      try done. destruct Hw as (-> & ? & ? & ? & ?). by exists s'. }
  apply wp_bind. destruct (sys_send s.(_sockfd) m false s.(world)) as [rc w] eqn:Hsend.
  pose proof (send_ok s.(_sockfd) m false s.(world)) as Hrc. rewrite Hsend in Hrc.
  unfold do_send. apply wp_bind, wp_gets. rewrite (proj2 (Z.ltb_lt _ _)) by done. cbn [negb].
  apply wp_bind, wp_gets, wp_bind, wp_on_pure. cbn [the simple_world]. rewrite Hsend.
  intros rc' w' [= <- <-]. cbn [fst] in Hrc. rewrite (proj2 (Z.ltb_ge _ _)) by done. apply wp_modify.
  destruct (send_answered _ _ _ _ _ _ Hsend Hrc Hm) as (cs & Hcs & Hc & Hl).
  unfold in_sync in Hs. rewrite Hs in Hcs. eapply (do_recv_line fuel _ _ cs (answer m (world s))); try done.
  - apply answer_plain.
  - intros w2 Hw2. split_and!; try done.
    exact (eq_sym (app_assoc s.(_trace) [IoSend _ _] [IoRecv _ _])).
Qed.

Lemma does_bind_request {A} m (k : str -> M St A) s o h e :
  ready s -> expects_reply m = true ->
  (forall s1, ready s1 -> same_client s s1 -> s1.(heap) = s.(heap) ->
     does (k (answer m s.(world) ++ [nl])) s1 o h e) ->
  does (do_send m;; (do_recv fuel false ≫= k)) s o h
    ([IoSend s.(_mtx) m; IoRecv s.(_mtx) (answer m s.(world) ++ [nl])] ++ e).
Proof.
  intros Hr Hm Hk. eapply (does_eq _ ((do_send m;; do_recv fuel false) ≫= k)).
  - unfold mbind, M_bind. by destruct (do_send m s) as [[] ?].
  - eapply does_bind; [done|by apply does_request|done].
Qed.

Lemma does_bind_request_ex {A} m (k : str -> M St A) s o h :
  ready s -> expects_reply m = true ->
  (forall s1, ready s1 -> same_client s s1 -> s1.(heap) = s.(heap) ->
     exists e, does (k (answer m s.(world) ++ [nl])) s1 o h e) ->
  exists e, does (do_send m;; (do_recv fuel false ≫= k)) s o h e.
Proof.
  intros Hr Hm Hk. destruct (does_request m s Hr Hm) as (s1 & Hrun & Hc & Hh & Hs & Ht).
  destruct (Hk s1) as (e & s2 & Hk2 & Hc2 & Hh2 & Hs2 & Ht2); [by eapply ready_same|done|done|].
  eexists _, s2. split_and!; [|by eapply same_client_trans|done|done|rewrite Ht2, Ht; by rewrite <- app_assoc].
  rewrite <- Hk2. etrans; [|exact (bind_ok _ k s _ s1 Hrun)].
  unfold mbind, M_bind. by destruct (do_send m s) as [[] ?].
Qed.
End spec.
