(* ===== verification/SimpleFetch.v ===== *)
(** * Loading values and atoms with the single-socket client

    What [loadValue], [runQuery], [getAtom], the incoming-set and the type
    fetches do to the atoms when the CogServer answers with well-formed
    S-expressions, against reference functions that work on the atoms alone. *)
From S2P Require Import Prelude CxxString Effects Sockets RecvBuf Barrier Uri Atomese.
From S2P Require Import ListUtils SimpleStorage SimpleIO SimpleSafety SimpleSync.
From S2P Require Import SimpleSpec.
#[local] Existing Instance self_has.

(** ** References *)

Section reference.
Context {Heap : Type} {AT : Atomese Heap}.

(** A value arrives for [owner]: the atoms in it join the AtomSpace of
    [owner]. *)
Definition adopt_ref (owner key : Handle) (v : Value) : M Heap unit :=
  as_ ← gets (getAtomSpace owner);
  v ← (match as_ with Some a => sexpr_add_atoms a v | None => mret v end);
  modify (setValue owner key v).

(** A list of keys and values arrives for [atom]. *)
Definition alist_ref (as_ : option AtomSpace) (atom : Handle) (kvs : list (Handle * Value))
    : M Heap unit :=
  home ← (match as_ with Some a => mret (Some a) | None => gets (getAtomSpace atom) end);
  for_each (fun kv => store_kv home atom kv.1 kv.2) kvs.

(** An atom arrives for [table], and then its keys and values. *)
Definition fetch_one (table : option AtomSpace) (kvs : Handle -> list (Handle * Value))
    (h0 : Handle) : M Heap unit :=
  hs ← gets (getAtomSpace h0);
  h ← (if bool_decide (hs = None) then add_nocheck table h0 else mret h0);
  alist_ref table h (kvs h0).

Definition fetch_ref table kvs (hs : list Handle) : M Heap unit :=
  for_each (fetch_one table kvs) hs.

(** The text of a list of atoms, and the request for the keys of one. *)
Definition list_text (w : Heap) (hs : list Handle) : str :=
  lparen :: concat (map (fun h => encode_atom h false w) hs) ++ [rparen; nl].

Definition keys_request (w : Heap) (h : Handle) : str :=
  lit "(cog-keys->alist " ++ encode_atom h false w ++ lit ")" ++ [nl].
End reference.

(** [Sexpr::get_next_expr] brackets the next expression, or leaves [l = r] at
    the end; [Sexpr::decode_atom] reads what it brackets, and an atom written
    without its frame adds no frame to the map. *)
Class ListLaws {Heap} (AT : Atomese Heap) : Prop := {
  next_expr_atom : forall h w pre post r n,
    (size pre + size (encode_atom h false w) <= r)%Z ->
    get_next_expr (pre ++ encode_atom h false w ++ post) (size pre) r n
    = Ok (0%Z, (size pre, (size pre + size (encode_atom h false w) - 1)%Z));
  next_expr_end : forall s r n, get_next_expr s r r n = Ok (0%Z, (r, r));
  decode_lr_atom : forall h w pre post n x,
    decode_atom_lr (pre ++ encode_atom h false w ++ post) (size pre)
      (size pre + size (encode_atom h false w) - 1)%Z n x = (Ok h, x);
  encode_atom_two : forall h w, (2 <= size (encode_atom h false w))%Z;
}.

(** On any state that has the atoms, decoding the text of a list of pairs is
    [alist_ref]. *)
Lemma alist_on_gen {Heap S} {AT : Atomese Heap} `{!Has Heap S, !HasLaws Heap S}
    {CL : CodecLaws AT} fuel as_ atom w kvs (s : S) :
  length kvs < fuel -> fits (alist_text w kvs) ->
  ro_decode_alist fuel as_ atom (alist_text w kvs) s = on (X := Heap) (alist_ref as_ atom kvs) s.
Proof.
  intros Hf Hfit. rewrite ro_decode_alist_text by done. unfold alist_ref.
  assert (forall home (s : S), for_each (fun kv => store_kv (Heap := Heap) home atom kv.1 kv.2) kvs s
    = on (X := Heap) (for_each (fun kv => store_kv (Heap := Heap) home atom kv.1 kv.2) kvs) s) as Hkv.
  { intros home s'. rewrite on_for_each. clear Hf Hfit. revert s'.
    induction kvs as [|kv kvs IH]; intros s'; cbn [for_each]; [done|].
    unfold mbind, M_bind. rewrite store_kv_on. by destruct (on _ s') as [[] ?]. }
  destruct as_ as [a|].
  - by rewrite on_ret_bind.
  - by rewrite on_gets_bind.
Qed.

(** ** The brackets of a list of atoms *)

Section brackets.
Context {Heap : Type} {AT : Atomese Heap} {LL : ListLaws AT}.

Lemma atom_list_text wl pre hs :
  pre ++ concat (map (fun h => encode_atom h false wl) hs) ++ [rparen; nl] =
  match hs with
  | [] => pre ++ [rparen; nl]
  | h :: hs => pre ++ encode_atom h false wl ++
               (concat (map (fun h => encode_atom h false wl) hs) ++ [rparen; nl])
  end.
Proof. destruct hs; cbn [map concat]; [done|]. by rewrite <- app_assoc. Qed.

Lemma list_text_size wl hs :
  size (list_text wl hs) = (size (concat (map (fun h => encode_atom h false wl) hs)) + 3)%Z.
Proof.
  unfold list_text. rewrite size_cons, size_app. change (size [rparen; nl]) with 2%Z. lia.
Qed.

Lemma list_text_left wl hs : wadd (find lparen (list_text wl hs) 0) 1 = size [lparen].
Proof. unfold find, list_text. by rewrite find_if_here0. Qed.

Lemma list_text_right wl hs : rfind rparen (list_text wl hs) = (size (list_text wl hs) - 2)%Z.
Proof.
  unfold rfind. set (body := concat (map (fun h => encode_atom h false wl) hs)).
  change (list_text wl hs) with ((lparen :: body) ++ rparen :: [nl]) at 1.
  rewrite last_index_of_app by (done || by repeat constructor).
  rewrite list_text_size. fold body. unfold pos_of, size. simpl. lia.
Qed.

Lemma list_text_empty wl hs : size [lparen] = (size (list_text wl hs) - 2)%Z -> hs = [].
Proof.
  rewrite list_text_size. change (size [lparen]) with 1%Z. destruct hs as [|h hs]; [done|].
  pose proof (encode_atom_two (AT := AT) h wl) as Htwo. cbn [map concat]. rewrite size_app.
  match goal with |- context [size (concat ?x)] => pose proof (size_nonneg (concat x)) end. lia.
Qed.
End brackets.

Section fetch.
Context {W Heap : Type} {SK : Sockets W} {AT : Atomese Heap} {CL : CodecLaws AT}.
Context (fuel : nat) {SS : SyncServer SK fuel}.
Context (send_ok : forall fd m b w, (0 <= (sys_send fd m b w).1)%Z).
Abbreviation St := (CogSimpleStorage (W := W) (Heap := Heap)).
Abbreviation does := (does fuel).
Abbreviation ready := (ready fuel).

Lemma adopt_value_on owner key v (s : St) :
  adopt_value owner key v s = on (adopt_ref owner key v) s.
Proof.
  unfold adopt_ref. rewrite on_gets_bind. change (the s) with (heap s).
  unfold adopt_value, gets, mbind at 1, M_bind at 1. destruct (getAtomSpace owner (heap s)) as [a|].
  - by rewrite on_bind.
  - by rewrite on_ret_bind.
Qed.

Lemma alist_on as_ atom w kvs (s : St) :
  length kvs < fuel -> fits (alist_text w kvs) ->
  ro_decode_alist fuel as_ atom (alist_text w kvs) s = on (alist_ref as_ atom kvs) s.
Proof. apply alist_on_gen. Qed.

(** ** Single values *)

Lemma reply_value m s key v owner wv :
  ready s -> expects_reply m = true -> answer m s.(world) = encode_value v wv ->
  does (do_send m;; (do_recv fuel false ≫= fun rply =>
        vp ← on (decode_value rply 0); adopt_value owner key vp.1)) s
    (adopt_ref owner key v s.(heap)).1 (adopt_ref owner key v s.(heap)).2
    [IoSend s.(_mtx) m; IoRecv s.(_mtx) (encode_value v wv ++ [nl])].
Proof.
  intros Hr Hm Ha. rewrite <- (app_nil_r [IoSend _ _; _]), <- Ha.
  apply does_bind_request; [done..|]. rewrite Ha.
  intros s1 Hr1 _ Hh1. eapply does_bind_on; [done|apply (decode_encode_value v wv _ [])|].
  intros s2 Hr2 _ Hh2. eapply does_eq; [apply adopt_value_on|].
  rewrite <- Hh1, <- Hh2. by apply does_on.
Qed.

(** C23. [loadValue] asks for one value under the lock, and puts exactly the
    value the CogServer returned on the atom, after the atoms inside it have
    joined the atom's AtomSpace; nothing else of the client changes. *)
Theorem loadValue_loads s h key v wv :
  let msg := lit "(cog-value " ++ encode_atom h false s.(heap) ++
             encode_atom key false s.(heap) ++ lit ")" ++ [nl] in
  ready s -> s.(_mtx) = false -> answer msg s.(world) = encode_value v wv ->
  does (loadValue fuel h key) s (adopt_ref h key v s.(heap)).1 (adopt_ref h key v s.(heap)).2
    [IoSend true msg; IoRecv true (encode_value v wv ++ [nl])].
Proof.
  intros msg Hr Hm Ha. apply does_bind_gets, does_with_lock; [done|].
  by apply (reply_value msg (set_mtx true s)).
Qed.
(** [runQuery] sends the query, its key and the optional metadata key, the
    freshness mark only when there is a metadata key, and puts the result on the
    query under the key; the lock covers the exchange only. *)
Theorem runQuery_caches s query key meta fresh v wv :
  let msg := query_text query key meta fresh s.(heap) in
  ready s -> s.(_mtx) = false -> answer msg s.(world) = encode_value v wv ->
  does (runQuery fuel query key meta fresh) s
    (adopt_ref query key v s.(heap)).1 (adopt_ref query key v s.(heap)).2
    [IoSend true msg; IoRecv true (encode_value v wv ++ [nl])].
Proof.
  intros msg Hr Hm Ha. apply does_bind_gets. rewrite <- (app_nil_r [IoSend _ _; _]), <- Ha.
  eapply does_bind; [done| |].
  - apply does_with_lock; [done|]. by apply (does_request fuel send_ok msg (set_mtx true s)).
  - intros s1 Hr1 _ Hh1. change (world (set_mtx true s)) with (world s). rewrite Ha.
    eapply does_bind_on; [done|apply (decode_encode_value v wv _ [])|].
    intros s2 Hr2 _ Hh2. eapply does_eq; [apply adopt_value_on|].
    change (heap (set_mtx true s)) with (heap s) in Hh1.
    rewrite <- Hh1, <- Hh2. by apply does_on.
Qed.

(** ** One atom *)

(** [getAtom] for an atom the CogServer does not have, which answers (),
    asks once and changes nothing. *)
Theorem getAtom_unknown s h :
  ready s -> s.(_mtx) = false -> answer (iknow h s.(heap)) s.(world) = lit "()" ->
  does (getAtom fuel h) s (Ok tt) s.(heap)
    [IoSend true (iknow h s.(heap)); IoRecv true (lit "()" ++ [nl])].
Proof.
  intros Hr Hm Ha. apply does_bind_gets, does_with_lock; [done|].
  rewrite <- (app_nil_r [IoSend _ _; _]), <- Ha.
  apply (does_bind_request fuel send_ok (iknow h s.(heap)) _ (set_mtx true s)); [done|..].
  { unfold iknow. by destruct (is_node h). }
  intros s1 Hr1 _ Hh1. change (world (set_mtx true s)) with (world s). rewrite Ha.
  change (heap (set_mtx true s)) with (heap s) in Hh1. rewrite <- Hh1. by apply does_ret.
Qed.

(** [getAtom] for an atom the CogServer has asks for the keys, and stores
    exactly the pairs of the reply on the atom; keys and values join the
    AtomSpace of the client, or the atom's own one when the client has none. *)
Theorem getAtom_known s h wk kvs :
  ready s -> s.(_mtx) = false ->
  compare_eq (answer (iknow h s.(heap)) s.(world) ++ [nl]) 2 (lit "()") = false ->
  (forall w, answer (get_keys h s.(heap)) w ++ [nl] = alist_text wk kvs) ->
  length kvs < fuel -> fits (alist_text wk kvs) ->
  does (getAtom fuel h) s (alist_ref s.(_atom_space) h kvs s.(heap)).1
    (alist_ref s.(_atom_space) h kvs s.(heap)).2
    [IoSend true (iknow h s.(heap));
     IoRecv true (answer (iknow h s.(heap)) s.(world) ++ [nl]);
     IoSend true (get_keys h s.(heap)); IoRecv true (alist_text wk kvs)].
Proof.
  intros Hr Hm Ha1 Ha2 Hl Hfit. set (home := s.(_atom_space)). apply does_bind_gets, does_with_lock; [done|].
  eapply (does_bind_request fuel send_ok (iknow h s.(heap)) _ (set_mtx true s) _ _ [_; _]); [done|..].
  { unfold iknow. by destruct (is_node h). }
  intros s1 Hr1 Hc1 Hh1. change (world (set_mtx true s)) with (world s). rewrite Ha1.
  assert (_mtx s1 = true /\ _atom_space s1 = home) as [Hl1 Has1]
    by (destruct Hc1 as (_&?&_&_&_&_&_&?&_); done).
  rewrite <- (Ha2 (world s1)), <- Hl1, <- (app_nil_r [IoSend _ _; _]).
  apply does_bind_request; [done..|]. rewrite Ha2. intros s2 Hr2 Hc2 Hh2.
  apply does_bind_gets. assert (_atom_space s2 = home) as ->.
  { rewrite <- Has1. by destruct Hc2 as (_&?&_). }
  eapply does_eq; [by apply alist_on|].
  assert (heap s = heap s2) as -> by (by rewrite Hh2, Hh1). by apply does_on.
Qed.

(** ** Lists of atoms *)
Context {LL : ListLaws AT}.

(** One turn of the loop, up to the point where the atom has its home. *)
Lemma atom_list_turn n table wl expr pre h rest (s : St) :
  expr = pre ++ encode_atom h false wl ++ rest -> fits expr -> (2 <= size rest)%Z ->
  atom_list_loop fuel (S n) table expr (size pre) (size expr - 2) (size expr - 2) s =
  (h' ← (if bool_decide (getAtomSpace h s.(heap) = None)
         then on (add_nocheck table h) else mret h);
   do_send (keys_request wl h);;
   msg ← do_recv fuel false;
   ro_decode_alist fuel table h' msg;;
   atom_list_loop fuel n table expr (size (pre ++ encode_atom h false wl))
     (size expr - 2) (size expr - 2)) s.
Proof.
  intros Hexpr Hfit Hrest. set (e := encode_atom h false wl) in *.
  pose proof (encode_atom_two (AT := AT) h wl) as Htwo. fold e in Htwo.
  pose proof (size_nonneg pre) as Hp.
  assert (size expr = size pre + size e + size rest)%Z as Hsz by (rewrite Hexpr, !size_app; lia).
  unfold fits in Hfit. cbn [atom_list_loop].
  assert (get_next_expr expr (size pre) (size expr - 2) 0
    = Ok (0%Z, (size pre, (size pre + size e - 1)%Z))) as ->.
  { rewrite Hexpr at 1. apply next_expr_atom. fold e. lia. }
  erewrite bind_ok by done. cbv beta iota.
  rewrite (proj2 (Z.eqb_neq _ _)) by lia. change (0 <? 0)%Z with false. cbv iota.
  erewrite bind_ok. 2: { apply on_same. rewrite Hexpr. apply decode_lr_atom. }
  erewrite bind_ok by done. apply bind_ext. intros h' s' _.
  assert (or_throw OutOfRange (substr expr (size pre) (wadd (wsub (size pre + size e - 1) (size pre)) 1))
    = Ok e) as ->.
  { rewrite wsub_small, wadd_small by (unfold size_mod; lia).
    replace (size pre + size e - 1 - size pre + 1)%Z with (size e) by lia.
    by rewrite Hexpr, substr_at. }
  erewrite bind_ok by done. unfold keys_request. fold e.
  rewrite wadd_small, size_app by (unfold size_mod; lia).
  by replace (size pre + size e - 1 + 1)%Z with (size pre + size e)%Z by lia.
Qed.

Lemma fetch_ref_cons table kvs h hs (hp : Heap) :
  fetch_ref table kvs (h :: hs) hp =
  ((if bool_decide (getAtomSpace h hp = None) then add_nocheck table h else mret h)
   ≫= fun h' => alist_ref table h' (kvs h) ≫= fun _ => fetch_ref table kvs hs) hp.
Proof.
  unfold fetch_ref. cbn [for_each]. set (rest := for_each _ hs).
  unfold fetch_one, mbind, M_bind, gets.
  case_bool_decide; [|done]. by destruct (add_nocheck table h hp) as [[] ?].
Qed.

(** The loop fetches the atoms that are left. *)
Lemma atom_list_loop_fetches table wl wk kvs expr hs : forall n pre s,
  ready s -> length hs < n ->
  (forall h w, h ∈ hs -> answer (keys_request wl h) w ++ [nl] = alist_text wk (kvs h)) ->
  (forall h, h ∈ hs -> length (kvs h) < fuel /\ fits (alist_text wk (kvs h))) ->
  expr = pre ++ concat (map (fun h => encode_atom h false wl) hs) ++ [rparen; nl] ->
  fits expr ->
  exists evs, does (atom_list_loop fuel n table expr (size pre) (size expr - 2) (size expr - 2)) s
    (fetch_ref table kvs hs s.(heap)).1 (fetch_ref table kvs hs s.(heap)).2 evs.
Proof.
  induction hs as [|h hs IH]; intros [|n] pre s Hr Hn Ha Hk Hexpr Hfit; simpl in Hn; try lia.
  - rewrite atom_list_text in Hexpr. exists []. cbn [atom_list_loop].
    assert (size pre = size expr - 2)%Z as ->.
    { rewrite Hexpr, size_app. change (size [rparen; nl]) with 2%Z. lia. }
    rewrite next_expr_end. eapply does_eq; [by apply bind_ok|]. cbv beta iota.
    rewrite Z.eqb_refl. by apply does_ret.
  - rewrite atom_list_text in Hexpr. rewrite fetch_ref_cons.
    set (home := (if bool_decide (getAtomSpace h s.(heap) = None)
      then add_nocheck table h else mret h) : M Heap Handle).
    set (rest := fun h' => alist_ref table h' (kvs h) ≫= fun _ => fetch_ref table kvs hs).
    assert (2 <= size (concat (map (fun h => encode_atom h false wl) hs) ++ [rparen; nl]))%Z as Hrest.
    { rewrite size_app. pose proof (size_nonneg (concat (map (fun h => encode_atom h false wl) hs))).
      change (size [rparen; nl]) with 2%Z. lia. }
    pose proof (atom_list_turn n table wl expr pre h _ s Hexpr Hfit Hrest) as Hturn.
    rewrite (bind_ext' _ (on home)) in Hturn
      by (unfold home; case_bool_decide; [done|by rewrite on_ret]).
    edestruct (does_bind_ref fuel home rest) as [e He];
      [exact Hr| |exists e; eapply does_eq; [exact Hturn|exact He]].
    intros h' s1 Hr1 _. unfold rest. clear Hturn.
    destruct (Hk h) as [Hkl Hkf]; [by constructor|].
    apply does_bind_request_ex; [done..|]. intros s2 Hr2 _ Hh2. rewrite Ha by constructor.
    rewrite <- Hh2.
    edestruct (does_bind_ref fuel (alist_ref table h' (kvs h)) (fun _ => fetch_ref table kvs hs)
      (fun _ => atom_list_loop fuel n table expr (size (pre ++ encode_atom h false wl))
        (size expr - 2) (size expr - 2)) s2 Hr2) as [e He].
    + intros [] s3 Hr3 _. apply IH; [done|lia|by auto using list_elem_of_further..| |done].
      rewrite Hexpr. by rewrite <- app_assoc.
    + exists e. eapply does_eq; [|exact He].
      unfold mbind, M_bind. by rewrite (alist_on table h' wk (kvs h) s2).
Qed.

(** What a CogServer that holds the atoms [hs] with the pairs [kvs] answers. *)
Definition serves (msg : str) (s : St) (hs : list Handle)
    (kvs : Handle -> list (Handle * Value)) : Prop :=
  exists wl wk,
    answer msg s.(world) ++ [nl] = list_text wl hs /\
    fits (list_text wl hs) /\ length hs < fuel /\
    (forall h w, h ∈ hs -> answer (keys_request wl h) w ++ [nl] = alist_text wk (kvs h)) /\
    (forall h, h ∈ hs -> length (kvs h) < fuel /\ fits (alist_text wk (kvs h))).

Lemma request_atoms_fetches table msg s hs kvs :
  ready s -> expects_reply msg = true -> serves msg s hs kvs ->
  exists evs, does (request_atoms fuel table msg) s
    (fetch_ref table kvs hs s.(heap)).1 (fetch_ref table kvs hs s.(heap)).2 evs.
Proof.
  intros Hr Hm (wl & wk & Ha & Hfit & Hl & Hkv & Hk).
  unfold request_atoms, decode_atom_list. apply does_bind_request_ex; [done..|].
  intros s1 Hr1 _ Hh1. rewrite Ha. rewrite list_text_left, list_text_right, <- Hh1.
  destruct (size [lparen] =? size (list_text wl hs) - 2)%Z eqn:Heq.
  - apply Z.eqb_eq in Heq. rewrite (list_text_empty wl hs Heq). exists []. by apply does_ret.
  - by apply (atom_list_loop_fetches table wl wk kvs (list_text wl hs) hs fuel [lparen]).
Qed.

(** C21. [fetchIncomingSet], from a CogServer that returns the atoms [hs] and
    their pairs [kvs], terminates and has exactly the effect of the reference
    loop: every atom of the reply, in order, joins the table unless it lives
    somewhere already, and then gets its keys and values. *)
Theorem fetchIncomingSet_fetches table s h hs kvs :
  let msg := lit "(cog-incoming-set " ++ encode_atom h false s.(heap) ++ lit ")" ++ [nl] in
  ready s -> s.(_mtx) = false -> serves msg s hs kvs ->
  exists evs, does (fetchIncomingSet fuel table h) s
    (fetch_ref table kvs hs s.(heap)).1 (fetch_ref table kvs hs s.(heap)).2 evs.
Proof.
  intros msg Hr Hm Hs. destruct (request_atoms_fetches table msg (set_mtx true s) hs kvs)
    as [evs Hd]; [done..|].
  exists evs. by apply does_bind_gets, does_with_lock.
Qed.

Lemma fetch_ref_app table kvs xs ys (hp : Heap) :
  fetch_ref table kvs (xs ++ ys) hp = (fetch_ref table kvs xs;; fetch_ref table kvs ys) hp.
Proof.
  unfold fetch_ref. revert hp. induction xs as [|x xs IH]; intros hp; [done|].
  cbn [app for_each]. unfold mbind, M_bind in *.
  destruct (fetch_one table kvs x hp) as [[] ?]; done || apply IH.
Qed.

(** C22. [loadAtomSpace] loads the nodes and then the links: its effect on the
    atoms is that of fetching the two lists one after the other, all of it
    within one critical section. *)
Theorem loadAtomSpace_loads table s nodes links kvs :
  ready s -> s.(_mtx) = false ->
  serves (lit "(cog-get-atoms 'Node #t)" ++ [nl]) s nodes kvs ->
  (forall s', serves (lit "(cog-get-atoms 'Link #t)" ++ [nl]) s' links kvs) ->
  exists evs, does (loadAtomSpace fuel table) s
    (fetch_ref table kvs (nodes ++ links) s.(heap)).1
    (fetch_ref table kvs (nodes ++ links) s.(heap)).2 evs.
Proof.
  intros Hr Hm Hn Hl. rewrite fetch_ref_app.
  destruct (does_bind_spec fuel (request_atoms fuel table (lit "(cog-get-atoms 'Node #t)" ++ [nl]))
    (fetch_ref table kvs nodes) (fun _ => fetch_ref table kvs links)
    (fun _ => request_atoms fuel table (lit "(cog-get-atoms 'Link #t)" ++ [nl])) (set_mtx true s))
    as [evs Hd]; [done|by apply request_atoms_fetches|..].
  - intros [] s1 Hr1 _. by apply request_atoms_fetches.
  - exists evs. by apply does_with_lock.
Qed.
End fetch.
