(* ===== verification/SimpleStore.v ===== *)
(** * Storing atoms and frames with the single-socket client

    The messages [storeAtom], [storeAtomSpace] and [writeFrame] send, in order;
    the frame caches; [kill_data]. *)
From S2P Require Import Prelude CxxString Effects Sockets RecvBuf Barrier Uri Atomese.
From S2P Require Import ListUtils SimpleStorage SimpleIO SimpleSafety SimpleSync.
From S2P Require Import SimpleSpec.

Section store.
Context {W Heap : Type} {SK : Sockets W} {AT : Atomese Heap}.
Context (fuel : nat) {SS : SyncServer SK fuel}.
Context (send_ok : forall fd m b w, (0 <= (sys_send fd m b w).1)%Z).
Abbreviation St := (CogSimpleStorage (W := W) (Heap := Heap)).
Abbreviation does := (does fuel).
Abbreviation ready := (ready fuel).

Lemma store_text_silent h multi w : is_silent (store_text h multi w) = true.
Proof. unfold store_text. by destruct (haveValues h w). Qed.

(** ** One AtomSpace *)

(** The client has not seen a second AtomSpace, and [h] is in the client's
    own one, or the client is in none. *)
Definition single_space (h : Handle) (s : St) : Prop :=
  s.(_multi_space) = false /\
  (s.(_atom_space) = None \/ getAtomSpace h s.(heap) = s.(_atom_space)).

Lemma storeAtom_single s h :
  ready s -> s.(_mtx) = false -> single_space h s ->
  does (storeAtom h) s (Ok tt) s.(heap) [IoSend true (store_text h false s.(heap))].
Proof.
  intros Hr Hm [Hmulti Hhome]. eapply does_eq.
  - unfold storeAtom. erewrite (bind_ok _ _ s tt s).
    2: { unfold set_multi_if, mbind, M_bind, gets. rewrite Hmulti. cbn [negb andb orb].
         destruct Hhome as [-> | ->]; [done|].
         rewrite (bool_decide_eq_false_2 (_atom_space s <> _atom_space s)) by congruence.
         by rewrite andb_false_r. }
    erewrite (bind_ok _ _ s tt s); [done|].
    unfold write_frame_if, mbind, M_bind, gets. by rewrite Hmulti.
  - apply does_bind_gets, does_bind_gets, does_with_lock; [done|]. rewrite Hmulti.
    apply (does_send fuel send_ok _ (set_mtx true s)); [done|]. apply store_text_silent.
Qed.

(** While one AtomSpace is involved, storing a whole AtomSpace sends one
    message per atom, in the order of [get_handles_by_type], each with all the
    atom's values, or with the placeholder that creates an atom without values;
    it reads nothing back and changes neither atoms nor caches. *)
Theorem storeAtomSpace_messages s table :
  ready s -> s.(_mtx) = false ->
  (forall h, h ∈ get_all_handles table s.(heap) -> single_space h s) ->
  does (storeAtomSpace table) s (Ok tt) s.(heap)
    (map (fun h => IoSend true (store_text h false s.(heap))) (get_all_handles table s.(heap))).
Proof.
  intros Hr Hm Hall. apply does_bind_gets. revert Hall.
  generalize (get_all_handles table s.(heap)) as hs. intros hs. revert s Hr Hm.
  induction hs as [|h hs IH]; intros s Hr Hm Hall; cbn [for_each map]; [by apply does_ret|].
  apply (does_bind fuel _ _ _ tt s.(heap) [_]); [done|apply storeAtom_single; try done; apply Hall; by constructor|].
  intros s1 Hr1 Hc Hh. rewrite <- Hh. apply IH; [done|by destruct Hc as (_&_&_&_&_&_&_&?&_); congruence|].
  intros x Hx. destruct (Hall x) as [H1 H2]; [by constructor|].
  destruct Hc as (_&E1&_&_&E2&_). unfold single_space. by rewrite E1, E2, Hh.
Qed.

(** ** Frames *)

(** [below h o]: [o] is [h] or in the transitive outgoing set of [h]. *)
Inductive below : Handle -> Handle -> Prop :=
| below_refl h : below h h
| below_step h o x : o ∈ getOutgoingSet h -> below o x -> below h x.

(** The caches after a call: they hold what they held, and more. *)
Definition caches_grow (s s' : St) : Prop :=
  s.(_frame_map) ⊆ s'.(_frame_map) /\ s.(_fid_map) ⊆ s'.(_fid_map).

(** Every frame below [h] has its short form cached and its name known. *)
Definition cached_below (h : Handle) (s : St) : Prop :=
  forall x, below h x -> is_Some (s.(_frame_map) !! x) /\ is_Some (s.(_fid_map) !! get_name x).

Lemma insert_new_subseteq {K V} `{Countable K} (k : K) (v : V) m : m ⊆ insert_new k v m.
Proof.
  unfold insert_new. destruct (m !! k) eqn:E; [done|]. by apply insert_subseteq.
Qed.

Lemma insert_new_some {K V} `{Countable K} (k : K) (v : V) m : is_Some (insert_new k v m !! k).
Proof. unfold insert_new. destruct (m !! k) eqn:E; [by rewrite E|]. rewrite lookup_insert_eq. eauto. Qed.

(** A state that differs in its caches only. *)
Definition only_caches (s s' : St) : Prop :=
  exists fm im, s' = set_frames fm im s.

Lemma cacheFrame_spec depth : forall h s,
  rank h < depth -> s.(_mtx_frame) = false ->
  wp False (cacheFrame depth h)
    (fun _ s' => only_caches s s' /\ caches_grow s s' /\ cached_below h s')
    (fun _ _ => False) s.
Proof.
  clear send_ok. induction depth as [|depth IH]; intros h s Hd Hf; [lia|]. cbn [cacheFrame].
  apply wp_bind.
  assert (forall os s0, (forall o, o ∈ os -> rank o < depth) -> s0.(_mtx_frame) = false ->
    wp False (for_each (cacheFrame depth) os)
      (fun _ s' => only_caches s0 s' /\ caches_grow s0 s' /\ forall o, o ∈ os -> cached_below o s')
      (fun _ _ => False) s0) as Hos.
  { induction os as [|o os IHos]; intros s0 Hos Hf0; cbn [for_each].
    - wp_step. split_and!; [by exists (_frame_map s0), (_fid_map s0); destruct s0|done|set_solver].
    - wp_step. eapply wp_mono; [apply IH; [apply Hos; by constructor|done]| |done].
      intros [] s1 ([fm [im ->]] & Hg1 & Hc1).
      eapply wp_mono; [apply IHos; [intros; apply Hos; by constructor|done]| |done].
      intros [] s2 ([fm2 [im2 ->]] & Hg2 & Hc2). split_and!.
      + by exists fm2, im2.
      + destruct Hg1, Hg2. split; by etrans.
      + intros x [->|Hx]%elem_of_cons; [|by apply Hc2].
        intros y Hy. destruct (Hc1 y Hy) as [[? H1] [? H2]]. destruct Hg2 as [G1 G2].
        split; eexists; eapply lookup_weaken; eauto. }
  eapply wp_mono; [apply (Hos (getOutgoingSet h) s)| |done].
  - intros o Ho. apply rank_outgoing in Ho. lia.
  - done.
  - intros [] s1 ([fm [im ->]] & Hg & Hc). apply wp_with_lock; [done|]. wp_step.
    cbn [set_held mtx_frame set_mtx_frame set_frames _frame_map _fid_map] in *.
    assert (caches_grow s (set_frames (insert_new h (frame_shorty (get_name h)) fm)
      (insert_new (get_name h) h im) s)) as Hg'.
    { destruct Hg. split; etrans; try done; apply insert_new_subseteq. }
    split_and!.
    + exists (insert_new h (frame_shorty (get_name h)) fm), (insert_new (get_name h) h im).
      unfold set_frames, set_mtx_frame. simpl. by rewrite Hf.
    + done.
    + intros x Hx. cbn. inversion Hx as [|? o ? Ho Hb]; subst.
      * split; apply insert_new_some.
      * destruct (Hc o Ho x Hb) as [[? H1] [? H2]].
        split; eexists; (eapply lookup_weaken; [done|]); apply insert_new_subseteq.
Qed.

(** [cacheFrame] terminates, with a depth of one more than the frame's
    rank, throws nothing, and leaves the frame and every frame below it cached
    under its short form and its name; entries that were there stay as they
    were, and nothing else of the client changes. *)
Theorem cacheFrame_caches_all h s :
  s.(_mtx_frame) = false ->
  exists s', cacheFrame (S (rank h)) h s = (Ok tt, s') /\
    only_caches s s' /\ caches_grow s s' /\ cached_below h s'.
Proof.
  intros Hf. pose proof (cacheFrame_spec (S (rank h)) h s (Nat.lt_succ_diag_r _) Hf) as Hw.
  unfold wp in Hw. destruct (cacheFrame (S (rank h)) h s) as [[[]|e| | |] s']; try done.
  by exists s'.
Qed.

Lemma writeFrame_cached h t s :
  s.(_mtx_frame) = false -> s.(_frame_map) !! h = Some t -> writeFrame (Some h) s = (Ok t, s).
Proof.
  intros Hf Hh. unfold writeFrame. erewrite (bind_ok _ _ s (Some t) s); [done|].
  unfold with_lock. simpl. rewrite Hf, Hh. destruct s. simpl in Hf. by rewrite <- Hf.
Qed.

Lemma writeFrame_new h f s :
  ready s -> s.(_mtx) = false -> s.(_mtx_frame) = false ->
  s.(_frame_map) !! h = None -> encode_frame (Some h) s.(heap) = Ok f ->
  exists s', writeFrame (Some h) s = (Ok (frame_shorty (get_name h)), s') /\
    s'.(_trace) = s.(_trace) ++ [IoSend true (frame_text f)] /\ s'.(heap) = s.(heap) /\
    s'.(_atom_space) = s.(_atom_space) /\
    s'.(_multi_space) = true /\ cached_below h s' /\ ready s' /\
    s'.(_mtx) = false /\ s'.(_mtx_frame) = false.
Proof.
  intros Hr Hm Hf Hh Henc.
  destruct (does_with_lock fuel (do_send (frame_text f)) (set_multi true s) _ _ _ Hm
    (does_send fuel send_ok (frame_text f) (set_mtx true (set_multi true s)) Hr eq_refl))
    as (s1 & Hrun & Hc & Hh1 & Hs1 & Ht1).
  pose proof (ready_same fuel (set_multi true s) s1 Hr Hc Hs1) as Hr1.
  destruct Hc as (_&C1&_&C2&C3&C4&C5&C6&C7&_).
  assert (s1.(_mtx_frame) = false) as Hf1 by (by rewrite C7).
  pose proof (cacheFrame_spec (S (rank h)) h s1 (Nat.lt_succ_diag_r _) Hf1) as Hw.
  unfold wp in Hw. destruct (cacheFrame (S (rank h)) h s1) as [[[]|e| | |] s2] eqn:Hcf; try done.
  destruct Hw as ([fm [im ->]] & _ & Hcb). exists (set_frames fm im s1). split.
  - unfold writeFrame. erewrite (bind_ok _ _ s None s).
    2: { unfold with_lock. simpl. rewrite Hf, Hh. destruct s. simpl in Hf. by rewrite <- Hf. }
    erewrite bind_ok by done. erewrite bind_ok by done. erewrite bind_ok.
    2: { unfold lift_outcome. cbn [heap set_multi]. by rewrite Henc. }
    erewrite bind_ok by exact Hrun. cbv beta iota. erewrite bind_ok by exact Hcf. done.
  - cbn. split_and!; try done. by rewrite C6.
Qed.

(** A frame is sent once: the first [writeFrame] of a frame sends its
    definition, caches it and everything below it and turns multi-space mode
    on; a second [writeFrame] of it, or of any frame below it, sends nothing
    and changes nothing. *)
Theorem writeFrame_sends_once h x f s :
  ready s -> s.(_mtx) = false -> s.(_mtx_frame) = false ->
  s.(_frame_map) !! h = None -> encode_frame (Some h) s.(heap) = Ok f -> below h x ->
  exists s1 t, writeFrame (Some h) s = (Ok (frame_shorty (get_name h)), s1) /\
    s1.(_trace) = s.(_trace) ++ [IoSend true (frame_text f)] /\
    s1.(_multi_space) = true /\ writeFrame (Some x) s1 = (Ok t, s1).
Proof.
  intros Hr Hm Hf Hh Henc Hx.
  destruct (writeFrame_new h f s Hr Hm Hf Hh Henc) as (s1 & Hrun & Ht & _ & _ & Hmu & Hcb & _ & _ & Hf1).
  destruct (Hcb x Hx) as [[t Hxt] _]. exists s1, t. split_and!; try done.
  by apply writeFrame_cached.
Qed.

(** The messages that define the frame [h]: none when it is cached already. *)
Definition definition_sent (h : Handle) (f : str) (s : St) : list io_event :=
  match s.(_frame_map) !! h with Some _ => [] | None => [IoSend true (frame_text f)] end.

(** The frame of an atom in multi-space mode: it is defined now, or was before. *)
Lemma write_frame_if_defines h a f s :
  ready s -> s.(_mtx) = false -> s.(_mtx_frame) = false -> s.(_multi_space) = true ->
  getAtomSpace h s.(heap) = Some a -> encode_frame (Some (HandleCast a)) s.(heap) = Ok f ->
  exists s', write_frame_if h s = (Ok tt, s') /\ ready s' /\ s'.(_mtx) = false /\
    s'.(_trace) = s.(_trace) ++ definition_sent (HandleCast a) f s /\
    s'.(_multi_space) = true /\ s'.(heap) = s.(heap) /\ is_Some (s'.(_frame_map) !! HandleCast a) /\
    (s.(_frame_map) !! HandleCast a = None -> cached_below (HandleCast a) s').
Proof.
  intros Hr Hm Hf Hmu Ha Henc.
  assert (forall t s', writeFrame (Some (HandleCast a)) s = (Ok t, s') -> write_frame_if h s = (Ok tt, s')) as Hw.
  { intros t s' Hrun. unfold write_frame_if. erewrite bind_ok by done. rewrite Hmu.
    erewrite bind_ok by done. unfold writeFrame_as. rewrite Ha. cbn [fmap option_fmap option_map].
    by erewrite bind_ok by exact Hrun. }
  unfold definition_sent. destruct (s.(_frame_map) !! HandleCast a) as [t|] eqn:Hc.
  - exists s. rewrite app_nil_r. split; [by eapply Hw, writeFrame_cached|]. rewrite Hc. by split_and!.
  - destruct (writeFrame_new (HandleCast a) f s) as (s1 & Hrun & Ht & Hh & _ & Hmu1 & Hcb & Hr1 & Hm1 & _);
      [done..|].
    exists s1. split_and!; try done; [by eapply Hw|]. by apply (Hcb (HandleCast a) (below_refl _)).
Qed.

(** C26. Storing an atom of another AtomSpace than the client's: the mode
    changes to multi-space; the atom's frame is defined first, unless it is in
    [_frame_map] already; and the atom is sent after it, written with its
    frame.  Afterwards the frame is cached, and when it was defined now, so are
    all frames below it. *)
Theorem storeAtom_other_space h a f s :
  ready s -> s.(_mtx) = false -> s.(_mtx_frame) = false ->
  s.(_atom_space) <> None -> getAtomSpace h s.(heap) = Some a -> s.(_atom_space) <> Some a ->
  encode_frame (Some (HandleCast a)) s.(heap) = Ok f ->
  exists s', storeAtom h s = (Ok tt, s') /\
    s'.(_trace) = s.(_trace) ++ definition_sent (HandleCast a) f s ++
                  [IoSend true (store_text h true s.(heap))] /\
    s'.(_multi_space) = true /\ s'.(heap) = s.(heap) /\ is_Some (s'.(_frame_map) !! HandleCast a) /\
    (s.(_frame_map) !! HandleCast a = None -> cached_below (HandleCast a) s').
Proof.
  intros Hr Hm Hf Hhome Ha Hother Henc.
  set (s0 := set_multi true s).
  assert (set_multi_if true h s = (Ok tt, s0)) as H0.
  { unfold set_multi_if, mbind, M_bind, gets. rewrite Ha.
    rewrite (bool_decide_eq_true_2 (Some a <> _atom_space s)) by congruence.
    rewrite (bool_decide_eq_true_2 (_atom_space s <> None)) by done.
    unfold s0, when. destruct (_multi_space s) eqn:E; [|done]. simpl.
    destruct s. simpl in E. by subst. }
  destruct (write_frame_if_defines h a f s0) as (s1 & Hrun & Hr1 & Hm1 & Ht & Hmu & Hh & Hin & Hcb); [done..|].
  destruct (does_with_lock fuel (do_send (store_text h true s1.(heap))) s1 _ _ _ Hm1
    (does_send fuel send_ok _ (set_mtx true s1) Hr1 (store_text_silent _ _ _)))
    as (s2 & Hrun2 & Hc & Hh2 & Hs2 & Ht2).
  exists s2. destruct Hc as (_&_&_&_&C1&C2&C3&_). split_and!.
  - unfold storeAtom. erewrite bind_ok by exact H0.
    erewrite bind_ok by exact Hrun. erewrite bind_ok by done. erewrite bind_ok by done.
    by rewrite Hmu.
  - rewrite Ht2, Ht. simpl. rewrite <- app_assoc, Hh. done.
  - congruence.
  - by rewrite Hh2.
  - by rewrite C2.
  - intros Hnew x Hx. rewrite C2, C3. by apply Hcb.
Qed.

(** [kill_data] clears the CogServer's AtomSpace, waits for the reply, and
    forgets all frames, so that later stores define them again. *)
Theorem kill_data_resets s :
  ready s -> s.(_mtx) = false -> s.(_mtx_frame) = false ->
  let msg := lit "(cog-atomspace-clear)" ++ [nl] in
  exists s', kill_data fuel s = (Ok tt, s') /\
    s'.(_trace) = s.(_trace) ++ [IoSend true msg; IoRecv true (answer msg s.(world) ++ [nl])] /\
    s'.(_multi_space) = false /\ s'.(_frame_map) = ∅ /\ s'.(_fid_map) = ∅ /\
    s'.(heap) = s.(heap) /\ ready s' /\ s'.(_mtx) = false /\ s'.(_mtx_frame) = false.
Proof.
  intros Hr Hm Hf msg.
  destruct (does_request fuel send_ok msg (set_mtx true s) Hr eq_refl)
    as (s1 & Hrun & Hc & Hh & Hs & Ht).
  pose proof (ready_same fuel (set_mtx true s) s1 Hr Hc Hs) as Hr1.
  destruct Hc as (_&_&_&_&_&_&_&_&C2&_).
  exists (set_mtx false (set_mtx_frame false (set_frames ∅ ∅ (set_multi false s1)))).
  split; [|split_and!; done].
  apply (with_lock_run mtx); [done|].
  set (k := fun _ : str => modify (set_multi false);; with_lock mtx_frame (modify (set_frames ∅ ∅))).
  change ((do_send msg;; (do_recv fuel false ≫= k)) (set_mtx true s) =
    (Ok tt, set_mtx_frame false (set_frames ∅ ∅ (set_multi false s1)))).
  etrans; [|etrans; [exact (bind_ok _ k _ _ s1 Hrun)|]].
  - unfold mbind, M_bind. by destruct (do_send msg _) as [[] ?].
  - unfold k. erewrite bind_ok by done. unfold with_lock. simpl. simpl in C2. by rewrite C2, Hf.
Qed.
End store.
