(* ===== verification/SimpleLife.v ===== *)
(** * Opening, closing and fencing with the single-socket client

    Which URIs the constructor accepts and what endpoint they name; what [open]
    and [close] leave behind when they return and when they throw; the barrier
    messages. *)
From S2P Require Import Prelude CxxString Effects Sockets RecvBuf Barrier Uri Atomese.
From S2P Require Import SimpleStorage.

(** ** URIs *)

Section uris.
Context {W Heap : Type} {SK : Sockets W} {AT : Atomese Heap}.

(** The constructor accepts exactly the URIs that start with cog:// and
    have no question mark, and keeps them as they are; a URI with another
    scheme, and any configuration argument, is refused with an IOException
    that names it (the first one, when there are several). *)
Theorem init_outcomes uri :
  fits (c_str uri) ->
  ((forall t, c_str uri <> scheme ++ t) -> init uri = Throw (unknown_uri (c_str uri))) /\
  (forall t, c_str uri = scheme ++ t -> qmark ∉ c_str uri -> init uri = Ok (c_str uri)) /\
  (forall t pre args, c_str uri = scheme ++ t -> c_str uri = pre ++ qmark :: args ->
     qmark ∉ pre -> init uri = Throw (unknown_config (before (chareq amp) args))).
Proof.
  intros Hfit. unfold init. split_and!.
  - intros Hn. destruct (strncmp_eq uri scheme) eqn:E; [|done].
    apply strncmp_scheme in E as [t Ht]. by destruct (Hn t).
  - intros t Ht Hq. rewrite (proj2 (strncmp_scheme uri)) by eauto. cbn [negb].
    apply find_qmark in Hq; [|done]. rewrite Hq. by rewrite Z.eqb_refl.
  - intros t pre args Ht Heq Hq. rewrite (proj2 (strncmp_scheme uri)) by eauto. cbn [negb].
    rewrite Heq in *. clear Ht. unfold fits in Hfit. rewrite size_app, size_cons in Hfit.
    pose proof (size_nonneg pre). pose proof (size_nonneg args).
    assert (find qmark (pre ++ qmark :: args) 0 = size pre) as ->.
    { apply find_if_at0; [|done]. apply Forall_forall. intros x Hx. apply chareq_false. by intros <-. }
    rewrite (proj2 (Z.eqb_neq _ _)) by (unfold npos, size_mod; lia). cbn [negb].
    rewrite wadd_small by (unfold size_mod; lia).
    replace (size pre + 1)%Z with (size (pre ++ [qmark])) by (by rewrite size_app).
    replace (pre ++ qmark :: args) with ((pre ++ [qmark]) ++ args) by (by rewrite <- app_assoc).
    rewrite substr_from_at by (unfold fits; rewrite !size_app; change (size [qmark]) with 1%Z; lia).
    cbn [mbind outcome_bind or_throw]. rewrite <- app_assoc, substr_at0. cbn [mbind outcome_bind or_throw].
    apply refuse_args_spec. unfold fits. lia.
Qed.

(** A part of a URI: no NUL and none of the characters of [seps]. *)
Definition clean (seps s : str) : Prop := Forall (fun c => c <> nul /\ c ∉ seps) s.

Lemma before_sep_app a c b :
  clean [colon; slash] a -> is_sep c = true -> before is_sep (a ++ c :: b) = a.
Proof.
  intros Ha Hc. apply before_app; [|done]. eapply Forall_impl; [exact Ha|].
  intros x [_ Hx]. by apply bool_decide_eq_false.
Qed.

Lemma rest_after_app p a c b :
  before p (a ++ c :: b) = a -> rest_after p (a ++ c :: b) = c :: b.
Proof. intros H. unfold rest_after. rewrite H. by rewrite drop_app_length. Qed.

Lemma clean_nul seps s : clean seps s -> Forall (.≠ nul) s.
Proof. intros H. eapply Forall_impl; [exact H|]. by intros x [? _]. Qed.

Lemma clean_before c s : clean [c] s -> before (chareq c) s = s.
Proof.
  intros H. apply before_all. eapply Forall_impl; [exact H|]. intros x [_ Hx].
  apply chareq_false. intros <-. apply Hx. by constructor.
Qed.

Lemma clean_before_app c s t : clean [c] s -> before (chareq c) (s ++ c :: t) = s.
Proof.
  intros H. apply before_app; [|apply chareq_refl]. eapply Forall_impl; [exact H|].
  intros x [_ Hx]. apply chareq_false. intros <-. apply Hx. by constructor.
Qed.

(** The documented forms of a URI name the endpoint they should: a host
    alone, a host and a name, a host, a port and a name; the port defaults to
    17001. *)
Theorem endpoint_documented host port name :
  fits (scheme ++ host ++ [colon] ++ port ++ [slash] ++ name) ->
  clean [colon; slash] host -> clean [slash] port -> clean [colon] name ->
  endpoint (scheme ++ host) = Ok (host, DEFAULT_COGSERVER_PORT) /\
  endpoint (scheme ++ host ++ [slash] ++ name) = Ok (host, DEFAULT_COGSERVER_PORT) /\
  endpoint (scheme ++ host ++ [colon] ++ port ++ [slash] ++ name) = Ok (host, port).
Proof.
  intros Hfit Hh Hp Hn. unfold fits in Hfit. rewrite !size_app in Hfit.
  pose proof (size_nonneg port). pose proof (size_nonneg name). pose proof (size_nonneg host).
  change (size [colon]) with 1%Z in Hfit. change (size [slash]) with 1%Z in Hfit.
  pose proof (clean_nul _ _ Hh). pose proof (clean_nul _ _ Hp). pose proof (clean_nul _ _ Hn).
  assert (Forall (fun c => is_sep c = false) host) as Hsep.
  { eapply Forall_impl; [exact Hh|]. intros x [_ Hx]. by apply bool_decide_eq_false. }
  split_and!; rewrite endpoint_spec
    by (unfold fits; rewrite ?size_app; change (size [colon]) with 1%Z || idtac;
        change (size [slash]) with 1%Z || idtac; rewrite ?size_app; try lia;
        try change (size [slash]) with 1%Z; try lia;
        rewrite ?Forall_app; repeat split; try done; by repeat constructor).
  - unfold rest_after. rewrite before_all by done. by rewrite drop_all.
  - simpl app. rewrite before_sep_app, rest_after_app by (done || by apply before_sep_app).
    do 2 f_equal. unfold port_ref.
    assert (rest_after (chareq colon) (slash :: name) = []) as ->; [|done].
    unfold rest_after. rewrite before_all.
    + by rewrite drop_all.
    + constructor; [done|]. eapply Forall_impl; [exact Hn|]. intros x [_ Hx].
      apply chareq_false. intros <-. apply Hx. by constructor.
  - simpl app. rewrite before_sep_app, rest_after_app by (done || by apply before_sep_app).
    do 2 f_equal. unfold port_ref.
    assert (rest_after (chareq colon) (colon :: port ++ slash :: name)
      = colon :: port ++ slash :: name) as -> by done.
    by apply clean_before_app.
Qed.

(** The port is searched for behind the host and to the end of the URI, so
    a colon inside the name is taken for the port separator: from
    cog://host/a:b the client connects to port b. *)
Theorem endpoint_colon_in_name host a b :
  fits (scheme ++ host ++ [slash] ++ a ++ [colon] ++ b) ->
  clean [colon; slash] host -> clean [colon] a -> clean [slash] b ->
  endpoint (scheme ++ host ++ [slash] ++ a ++ [colon] ++ b) = Ok (host, b).
Proof.
  intros Hfit Hh Ha Hb.
  pose proof (clean_nul _ _ Hh). pose proof (clean_nul _ _ Ha). pose proof (clean_nul _ _ Hb).
  rewrite endpoint_spec by (done || rewrite ?Forall_app; repeat split; try done; by repeat constructor).
  simpl app. rewrite before_sep_app, rest_after_app by (done || by apply before_sep_app).
  do 2 f_equal. unfold port_ref.
  assert (before (chareq colon) ((slash :: a) ++ colon :: b) = slash :: a) as Hbef.
  { apply before_app; [|apply chareq_refl]. constructor; [done|].
    eapply Forall_impl; [exact Ha|]. intros x [_ Hx]. apply chareq_false. intros <-.
    apply Hx. by constructor. }
  change (slash :: a ++ colon :: b) with ((slash :: a) ++ colon :: b).
  rewrite rest_after_app by done. by apply clean_before.
Qed.
End uris.

(** ** Barriers *)

(** One draw apart, or two, the generator does not repeat. *)
Lemma minstd_moves k x :
  (0 < k < minstd_m)%Z -> Z.gcd minstd_m k = 1%Z -> minstd_ok x -> ((x * (k + 1)) mod minstd_m)%Z <> x.
Proof.
  unfold minstd_ok. intros Hk Hg Hx Heq.
  assert (minstd_m | x * k)%Z as Hdiv.
  { apply Z.mod_divide; [done|]. replace (x * k)%Z with (x * (k + 1) - x)%Z by lia.
    rewrite Zminus_mod, Heq, (Z.mod_small x), Z.sub_diag by lia. done. }
  rewrite Z.mul_comm in Hdiv. apply Z.gauss in Hdiv; [|done].
  apply Z.divide_pos_le in Hdiv; lia.
Qed.

Lemma minstd_one_step x : minstd_ok x -> minstd_next x <> x.
Proof.
  intros Hx Heq. apply (minstd_moves 48270 x); [done|done|done|].
  by rewrite Z.mul_comm.
Qed.

Lemma minstd_two_steps x : minstd_ok x -> minstd_next (minstd_next x) <> x.
Proof.
  intros Hx Heq. unfold minstd_next in Heq. rewrite Zmult_mod_idemp_r in Heq.
  apply (minstd_moves ((48271 * 48271 - 1) mod minstd_m) x); [done|done|done|].
  rewrite <- Heq at 2. rewrite <- Zmult_mod_idemp_r, Zplus_mod_idemp_l, Zmult_mod_idemp_r. f_equal. lia.
Qed.

Section life.
Context {W Heap : Type} {SK : Sockets W} {AT : Atomese Heap}.
Abbreviation St := (CogSimpleStorage (W := W) (Heap := Heap)).

(** The identifier of the next barrier. *)
Definition next_id (s : St) : Z :=
  barrier_rnd (left_first s.(world)) (minstd_next s.(rng)) (minstd_next (minstd_next s.(rng))).

Lemma barrier_run s w rc :
  (0 < s.(_sockfd))%Z -> s.(_mtx) = false ->
  sys_send s.(_sockfd) (barrier_text (lit "1") (next_id s)) false s.(world) = (rc, w) ->
  (0 <= rc)%Z ->
  barrier s = (Ok tt, add_trace (IoSend true (barrier_text (lit "1") (next_id s)))
    (set_rng (minstd_next (minstd_next s.(rng))) (set_world w s))).
Proof.
  intros Hfd Hm Hsend Hrc. unfold barrier.
  set (s0 := set_rng (minstd_next (minstd_next s.(rng))) s).
  rewrite (bind_ok _ _ _ (next_id s) s0) by done.
  rewrite (with_lock_run mtx _ s0 (Ok tt) (sent (barrier_text (lit "1") (next_id s)) (set_mtx true s0) w)).
  - destruct s. simpl in Hm. by subst.
  - done.
  - change (lit "1") with ["1"%char]. rewrite snprintf_barrier by done.
    by eapply (do_send_run _ (set_mtx true s0)).
Qed.

(** C36. Each [barrier] sends one message under the lock, which fits the 64-byte
    array whole, and two consecutive barriers of a thread carry different
    identifiers, so that the CogServer cannot take one for the other. *)
Theorem barriers_distinct s :
  (forall fd m b w, (0 <= (sys_send fd m b w).1)%Z) ->
  (0 < s.(_sockfd))%Z -> s.(_mtx) = false -> minstd_ok s.(rng) ->
  exists s1 s2 m1 m2, barrier s = (Ok tt, s1) /\ barrier s1 = (Ok tt, s2) /\
    s2.(_trace) = s.(_trace) ++ [IoSend true m1; IoSend true m2] /\
    m1 = barrier_text (lit "1") (next_id s) /\ length m1 < 64 /\ m1 <> m2.
Proof.
  intros Hup Hfd Hm Hr.
  destruct (sys_send s.(_sockfd) (barrier_text (lit "1") (next_id s)) false s.(world)) as [rc w] eqn:H1.
  pose proof (Hup s.(_sockfd) (barrier_text (lit "1") (next_id s)) false s.(world)) as Hrc.
  rewrite H1 in Hrc.
  pose proof (barrier_run s w rc Hfd Hm H1 Hrc) as Hrun.
  set (s1 := add_trace _ _) in Hrun.
  destruct (sys_send s1.(_sockfd) (barrier_text (lit "1") (next_id s1)) false s1.(world))
    as [rc1 w1] eqn:H2.
  pose proof (Hup s1.(_sockfd) (barrier_text (lit "1") (next_id s1)) false s1.(world)) as Hrc1.
  rewrite H2 in Hrc1.
  pose proof (barrier_run s1 w1 rc1 Hfd Hm H2 Hrc1) as Hrun1.
  eexists _, _, _, _. split; [exact Hrun|]. split; [exact Hrun1|]. split_and!.
  - simpl. by rewrite <- app_assoc.
  - done.
  - unfold barrier_text. autorewrite with cog_rw. rewrite fmt_016lx_length. simpl. lia.
  - pose proof (minstd_next_ok _ Hr) as K1. pose proof (minstd_next_ok _ K1) as K2.
    pose proof (minstd_next_ok _ K2) as K3. pose proof (minstd_next_ok _ K3) as K4.
    intros Heq. apply barrier_text_inj in Heq.
    + apply barrier_rnd_inj in Heq as [[Heq _]|[_ Heq]]; try done; symmetry in Heq.
      * by apply (minstd_two_steps (minstd_next (rng s))).
      * by apply (minstd_one_step (minstd_next (minstd_next (rng s)))).
    + by apply barrier_rnd_range.
    + by apply barrier_rnd_range.
Qed.

(** ** Opening and closing *)

(** Descriptor 0 is taken in any process that has its standard input open. *)
Context (socket_nonzero : forall p w, (sys_socket p w).1 <> 0%Z).

Lemma connect_loop_spec ps : forall norr s,
  (s.(_sockfd) <= 0)%Z ->
  wp False (connect_loop ps norr)
    (fun r s' => if r.1 : bool then (0 < s'.(_sockfd))%Z else (s'.(_sockfd) <= 0)%Z)
    (fun _ _ => False) s.
Proof.
  induction ps as [|p ps IH]; intros norr s Hs; cbn [connect_loop]; [done|].
  wp_step. apply wp_on_pure. intros fd w Hsock.
  pose proof (socket_nonzero p s.(world)) as Hnz. change (the s) with (world s) in Hsock.
  rewrite Hsock in Hnz. cbn [fst] in Hnz. wp_step. wp_step.
  destruct (fd <? 0)%Z eqn:Hfd.
  - apply Z.ltb_lt in Hfd. apply IH. simpl. lia.
  - apply Z.ltb_ge in Hfd. wp_step. apply wp_on_pure. intros rc w1 _.
    destruct (rc =? 0)%Z; [wp_step; simpl; lia|].
    repeat wp_step. apply wp_on_pure. intros [] w2 _. repeat wp_step. apply IH. simpl. lia.
Qed.

(** How [open] may fail, by the message of its exception. *)
Inductive open_failure : exn -> St -> Prop :=
| fail_host host rc s' :
    (s'.(_sockfd) <= 0)%Z ->
    open_failure (IOException "Unknown host %s: %s" [FStr host; FStr rc]) s'
| fail_connect host e s' :
    (s'.(_sockfd) <= 0)%Z ->
    open_failure (IOException "Unable to connect to host %s: %s" [FStr host; FStr e]) s'
| fail_talk host e s' :
    (0 < s'.(_sockfd))%Z ->
    open_failure (IOException "Unable to talk to cogserver at host %s: %s" [FStr host; FStr e]) s'
| fail_prompt m s' : (0 < s'.(_sockfd))%Z -> open_failure (talk_error m) s'
| fail_closed s' : s'.(_sockfd) = 0%Z -> open_failure closed_error s'.

Lemma open_failure_unlocked e s : open_failure e s -> open_failure e (set_mtx false s).
Proof. by destruct 1; constructor. Qed.

Lemma open_spec fuel s :
  uri_ok s.(_uri) -> s.(_mtx) = false ->
  ((0 < s.(_sockfd))%Z -> open fuel s = (Ok tt, s)) /\
  ((s.(_sockfd) <= 0)%Z ->
   wp True (open fuel) (fun _ s' => (0 < s'.(_sockfd))%Z) open_failure s).
Proof.
  intros Huri Hm. split; intros Hfd.
  - unfold open, open_locked. rewrite (bind_ok _ _ s true s); [done|].
    unfold connected, gets. by rewrite (proj2 (Z.ltb_lt _ _)).
  - unfold open, open_locked. apply wp_bind, wp_gets. rewrite (proj2 (Z.ltb_ge _ _)) by done.
    apply wp_with_lock; [done|]. apply wp_bind, wp_gets, wp_bind.
    destruct (endpoint_ok s.(_uri) Huri) as [[host port] Hep].
    unfold wp, lift_outcome. change (_uri (set_held true s)) with (_uri s). rewrite Hep.
    apply wp_bind, wp_on_pure. intros [rc servinfo] w _.
    destruct (rc =? 0)%Z; cbn [negb]; [|by wp_step; constructor].
    wp_step. eapply wp_mono; [apply wp_weaken, connect_loop_spec; done| |done].
    intros [found norr] s1 Hs1. cbn [fst snd] in *. wp_step. apply wp_on_pure. intros [] w1 _.
    destruct found; cbn [negb]; [|by wp_step; constructor].
    repeat wp_step. apply wp_on_pure. intros rc1 w2 _. wp_step. apply wp_on_pure.
    intros rc2 w3 _. wp_step. apply wp_on_pure. intros rc3 w4 _.
    destruct (rc3 <? 0)%Z; [repeat wp_step; by constructor|].
    wp_step. apply do_recv_wp.
    + intros r w5 H. by wp_step.
    + intros H. cbn in H. lia.
    + intros m w5 H. by constructor.
    + intros w5 H. by constructor.
Qed.

(** C30. [open] on a closed client: if it returns, the client is connected; if
    no address is found or none answers, it throws and the client is not
    connected; if the CogServer closes the connection, likewise; but if sending
    the command or reading the prompt fails, it throws and the client counts as
    connected.  On a connected client it does nothing. *)
Theorem open_outcomes fuel s :
  uri_ok s.(_uri) -> s.(_mtx) = false ->
  ((0 < s.(_sockfd))%Z -> open fuel s = (Ok tt, s)) /\
  ((s.(_sockfd) <= 0)%Z ->
   wp True (open fuel) (fun _ s' => (0 < s'.(_sockfd))%Z) open_failure s).
Proof. apply open_spec. Qed.

Lemma close_spec fuel s :
  s.(_mtx) = false ->
  wp True (close fuel)
    (fun _ s' => s'.(_sockfd) = (-1)%Z /\
       ((0 < s.(_sockfd))%Z -> exists w, s'.(world) = sys_close s.(_sockfd) w) /\
       ((s.(_sockfd) <= 0)%Z -> s'.(world) = s.(world)))
    (fun e s' => (s'.(_sockfd) = s.(_sockfd) /\ (0 < s.(_sockfd))%Z) \/
       (s'.(_sockfd) = 0%Z /\ e = closed_error)) s.
Proof.
  intros Hm. unfold close. apply wp_bind, wp_gets.
  destruct (0 <? _sockfd s)%Z eqn:Hfd; wp_step.
  2: { cbn [when]. wp_step. wp_step. apply Z.ltb_ge in Hfd. split_and!; [done|lia|done]. }
  apply Z.ltb_lt in Hfd. cbn [when]. apply wp_bind. unfold proxy_close, barrier, draw_rnd, draw.
  repeat wp_step. apply wp_with_lock; [done|].
  apply do_send_wp; [intros w1|intros e w1; by left].
  wp_step. apply do_send_wp; [intros w2|intros e w2; by left]. wp_step.
  apply do_recv_wp; [intros r w3 _| intros H; cbn in H; lia|intros m w3 _; by left|
    intros w3 _; by right].
  repeat wp_step. apply wp_on_pure. intros [] w4 [= <-]. wp_step.
  split_and!; [done|eauto|]. intros ?. lia.
Qed.

(** [close] that returns leaves the client unconnected, and when it was
    connected the last thing it did to the world is to close its descriptor,
    after the proxy was told; when it throws, the client is still connected to
    the same descriptor, or the CogServer has closed the connection. *)
Theorem close_outcomes fuel s :
  s.(_mtx) = false ->
  wp True (close fuel)
    (fun _ s' => s'.(_sockfd) = (-1)%Z /\
       ((0 < s.(_sockfd))%Z -> exists w, s'.(world) = sys_close s.(_sockfd) w) /\
       ((s.(_sockfd) <= 0)%Z -> s'.(world) = s.(world)))
    (fun e s' => (s'.(_sockfd) = s.(_sockfd) /\ (0 < s.(_sockfd))%Z) \/
       (s'.(_sockfd) = 0%Z /\ e = closed_error)) s.
Proof. apply close_spec. Qed.

Lemma do_send_gone N m s :
  ((sys_send s.(_sockfd) m false s.(world)).1 < 0)%Z ->
  wp N (do_send m) (fun _ _ => False) (fun _ _ => True) s.
Proof.
  intros Hgone. unfold do_send. apply wp_bind, wp_gets.
  destruct (0 <? _sockfd s)%Z; cbn [negb]; [|by wp_step].
  repeat wp_step. apply wp_on_pure. intros rc w Hsend.
  change (the s) with (world s) in Hsend. rewrite Hsend in Hgone.
  rewrite (proj2 (Z.ltb_lt _ _)) by done. unfold throw_errno. by repeat wp_step.
Qed.

(** C31. Destroying a client: one that is not connected goes quietly; one that
    is connected is closed first, and when that throws the program ends.  So a
    program whose CogServer has gone away cannot drop a connected client: no
    send succeeds, and the destructor terminates it. *)
Theorem destroy_outcomes fuel s :
  s.(_mtx) = false ->
  ((s.(_sockfd) <= 0)%Z -> destroy fuel s = (Ok Finished, set_sockfd (-1)%Z s)) /\
  wp True (destroy fuel)
    (fun f s' => match f with
                 | Finished => s'.(_sockfd) = (-1)%Z
                 | Terminated => (0 < s.(_sockfd))%Z /\ exists e s1, close fuel s = (Throw e, s1)
                 end)
    (fun _ _ => False) s /\
  ((0 < s.(_sockfd))%Z -> (forall m, ((sys_send s.(_sockfd) m false s.(world)).1 < 0)%Z) ->
   exists s', destroy fuel s = (Ok Terminated, s')).
Proof.
  intros Hm. pose proof (close_spec fuel s Hm) as Hw. split_and!.
  - intros Hfd. unfold destroy, noexcept, close. erewrite bind_ok by done.
    by rewrite (proj2 (Z.ltb_ge _ _)).
  - unfold destroy, noexcept, wp in *. destruct (close fuel s) as [[[]|e| | |] s1] eqn:Hc; try done.
    + apply Hw.
    + split; [|eauto]. destruct (Z.ltb_spec 0 s.(_sockfd)) as [|Hfd]; [done|].
      unfold close in Hc. erewrite bind_ok in Hc by done. by rewrite (proj2 (Z.ltb_ge _ _)) in Hc.
  - intros Hfd Hgone. unfold destroy, noexcept.
    enough (wp False (close fuel) (fun _ _ => False) (fun _ _ => True) s) as Hc.
    { unfold wp in Hc. destruct (close fuel s) as [[[]|e| | |] s1]; try done. by exists s1. }
    unfold close. apply wp_bind, wp_gets. rewrite (proj2 (Z.ltb_lt _ _)) by done. cbn [when].
    apply wp_bind. unfold proxy_close, barrier, draw_rnd, draw. apply wp_bind. repeat wp_step.
    apply wp_with_lock; [done|]. eapply wp_mono; [apply do_send_gone, Hgone|done|done].
Qed.

Lemma open_returns_connected fuel s s' :
  uri_ok s.(_uri) -> s.(_mtx) = false -> open fuel s = (Ok tt, s') -> (0 < s'.(_sockfd))%Z.
Proof.
  intros Hu Hm Hrun. destruct (open_spec fuel s Hu Hm) as [H1 H2].
  destruct (Z.ltb_spec 0 s.(_sockfd)) as [H|H].
  - rewrite H1 in Hrun by done. by injection Hrun as <-.
  - specialize (H2 H). unfold wp in H2. by rewrite Hrun in H2.
Qed.

Lemma close_returns_closed fuel s s' :
  s.(_mtx) = false -> close fuel s = (Ok tt, s') -> s'.(_sockfd) = (-1)%Z.
Proof.
  intros Hm Hrun. pose proof (close_spec fuel s Hm) as Hw. unfold wp in Hw.
  rewrite Hrun in Hw. apply Hw.
Qed.

(** When the CogServer closes the connection, the client notices at the next
    read: it closes its descriptor once, throws, and is not connected, so that
    every later operation throws at once, without touching the network. *)
Theorem eof_disconnects fuel garbage s w :
  (0 < s.(_sockfd))%Z -> sys_recv s.(_sockfd) 4096 s.(world) = (RecvEof, w) -> 0 < fuel ->
  exists s', do_recv fuel garbage s = (Throw closed_error, s') /\
    s'.(world) = sys_close s.(_sockfd) w /\
    forall m, do_send m s' = (Throw not_connected, s').
Proof.
  intros Hfd Hrecv Hf. destruct fuel as [|fuel]; [lia|].
  exists (set_sockfd 0%Z (set_world (sys_close s.(_sockfd) w) (set_world w s))).
  split; [|done].
  unfold do_recv. rewrite (bind_ok _ _ s true s)
    by (unfold connected, gets; by rewrite (proj2 (Z.ltb_lt _ _))).
  cbn [negb]. apply bind_throw. cbn [recv_loop]. erewrite bind_ok by done.
  erewrite bind_ok. 2: { unfold on_pure. change (the s) with (world s). by rewrite Hrecv. }
  done.
Qed.
End life.
