(* ===== verification/SimpleFrames.v ===== *)
(** * The frame caches of the single-socket client

    [_frame_map] gives the short form under which a frame is named in a
    message, [_fid_map] the frame of a name.  Frames are cached when they are
    written, when a fetched atom is in one, and when the frame graph is loaded;
    the caches agree with the frames' own names throughout. *)
From S2P Require Import Prelude CxxString Effects Sockets RecvBuf Barrier Uri Atomese.
From S2P Require Import ListUtils SimpleStorage SimpleIO SimpleSafety.

(** Every name is mapped to a frame of that name. *)
Definition well_named {Heap} {AT : Atomese Heap} (fids : gmap str Handle) : Prop :=
  map_Forall (fun name h => get_name h = name) fids.

(** The frames the decoders meet are entered under their own names. *)
Class FrameLaws {Heap} (AT : Atomese Heap) : Prop := {
  decode_atom_lr_named : forall s l r n x,
    well_named x.1 -> well_named (decode_atom_lr s l r n x).2.1;
  decode_frame_named : forall top s p x,
    well_named x.1 -> well_named (decode_frame top s p x).2.1;
}.

Section frames.
Context {W Heap : Type} {SK : Sockets W} {AT : Atomese Heap} {FL : FrameLaws AT} (fuel : nat).
Abbreviation St := (CogSimpleStorage (W := W) (Heap := Heap)).

(** Short forms are made of the frame's own name. *)
Definition well_cached (fm : gmap Handle str) : Prop :=
  map_Forall (fun h t => t = frame_shorty (get_name h)) fm.

Definition frames_ok (s : St) : Prop :=
  well_cached s.(_frame_map) /\ well_named s.(_fid_map).

Lemma insert_new_forall {K V} `{Countable K} (P : K -> V -> Prop) k v (m : gmap K V) :
  P k v -> map_Forall P m -> map_Forall P (insert_new k v m).
Proof.
  intros Hk Hm. unfold insert_new. destruct (m !! k); [done|]. by apply map_Forall_insert_2.
Qed.

Lemma recache_ok fids fm : well_named fids -> well_cached fm -> well_cached (recache fids fm).
Proof.
  intros Hf%map_Forall_to_list. unfold recache. revert fm Hf.
  induction (map_to_list fids) as [|[name h] l IH]; intros fm Hf Hm; simpl; [done|].
  apply Forall_cons in Hf as [Hname Hf]. apply IH; [done|].
  apply insert_new_forall; [|done]. simpl in *. by rewrite Hname.
Qed.

(** ** Every operation keeps the caches consistent *)

Ltac frames_auto := repeat first [stays_step | solve [eauto with keeps]].

Lemma send_frames m : stays frames_ok (do_send (W := W) (Heap := Heap) m).
Proof. unfold do_send, connected, throw_errno. frames_auto. Qed.

Lemma recv_frames garbage : stays frames_ok (do_recv (W := W) (Heap := Heap) fuel garbage).
Proof.
  unfold do_recv, connected. apply stays_bind; [apply stays_gets|]. intros []; [|apply stays_throw].
  apply stays_bind; [|intros r; frames_auto].
  apply wp_stays. intros s Hs. by apply recv_loop_safe.
Qed.
Hint Resolve send_frames recv_frames : keeps.

Lemma cacheFrame_frames depth : forall h, stays frames_ok (cacheFrame (W := W) depth h).
Proof.
  induction depth as [|depth IH]; intros h; cbn [cacheFrame]; [apply stays_nofuel|].
  apply stays_bind; [apply stays_for_each; auto|intros _].
  apply stays_with_lock; [done|]. apply stays_modify. intros s [H1 H2].
  split; by apply insert_new_forall.
Qed.
Hint Resolve cacheFrame_frames : keeps.

Lemma writeFrame_frames h : stays frames_ok (writeFrame (W := W) h).
Proof. unfold writeFrame. frames_auto. Qed.
Hint Resolve writeFrame_frames : keeps.

Lemma write_if_frames h : stays frames_ok (write_frame_if (W := W) h).
Proof. unfold write_frame_if, writeFrame_as. frames_auto. Qed.

Lemma set_multi_frames b h : stays frames_ok (set_multi_if (W := W) b h).
Proof. unfold set_multi_if. frames_auto. Qed.
Hint Resolve write_if_frames set_multi_frames : keeps.

Lemma storeAtom_frames h : stays frames_ok (storeAtom (W := W) h).
Proof. unfold storeAtom. frames_auto. Qed.
Hint Resolve storeAtom_frames : keeps.

Lemma ro_decode_frames as_ h msg : stays frames_ok (ro_decode_alist (S := St) fuel as_ h msg).
Proof.
  unfold ro_decode_alist. frames_auto.
  generalize (find lparen msg (wadd (find_first_not_of blanks msg 0) 1)).
  generalize fuel at 1. induction fuel0 as [|n IH]; intros pos; simpl; unfold store_kv;
    frames_auto; apply IH.
Qed.
Hint Resolve ro_decode_frames : keeps.

(** A decoder that is given the frame identifiers, also when it throws. *)
Lemma stays_on_fids {A} (d : gmap str Handle * Heap -> outcome A * (gmap str Handle * Heap)) :
  (forall x, well_named x.1 -> well_named (d x).2.1) -> stays frames_ok (on (S := St) d).
Proof.
  intros Hd s [H1 H2]. unfold on. specialize (Hd (the s) H2).
  destruct (d (the s)) as [[] x]; try done; by split.
Qed.

Lemma atom_list_frames n table expr end_ : forall l r,
  stays frames_ok (atom_list_loop (W := W) fuel n table expr l r end_).
Proof.
  induction n as [|n IH]; intros l r; cbn [atom_list_loop]; [apply stays_nofuel|].
  apply stays_bind; [apply stays_lift|]. intros [pcnt [l' r']].
  destruct (l' =? r')%Z; [apply stays_ret|]. destruct (0 <? pcnt)%Z; [apply stays_ret|].
  apply stays_bind; [|intros h0; frames_auto; apply IH].
  apply stays_on_fids. intros x. apply decode_atom_lr_named.
Qed.
Hint Resolve atom_list_frames : keeps.

Lemma load_frames : stays frames_ok (loadFrameDAG (W := W) fuel).
Proof.
  unfold loadFrameDAG. apply stays_bind; [frames_auto|]. intros _.
  apply stays_with_lock; [done|]. apply stays_bind; [frames_auto|]. intros _.
  apply stays_bind; [frames_auto|]. intros rply. destruct (size rply <? 5)%Z; [apply stays_ret|].
  apply stays_bind; [|intros h; apply stays_bind; [|intros; apply stays_ret]].
  - apply stays_on_fids. intros x. apply decode_frame_named.
  - apply stays_modify. intros s [H1 H2]. split; [by apply recache_ok|done].
Qed.
Hint Resolve load_frames : keeps.

Lemma connect_frames ps : forall norr, stays frames_ok (connect_loop (Heap := Heap) ps norr).
Proof. induction ps as [|p ps IH]; intros norr; cbn [connect_loop]; frames_auto; apply IH. Qed.
Hint Resolve connect_frames : keeps.

Lemma run_op_frames o : stays frames_ok (run_op (W := W) fuel o).
Proof.
  destruct o; cbn [run_op];
    unfold open, open_locked, close, proxy_open, proxy_close, barrier, draw_rnd, draw, storeValue, updateValue,
      set_proxy, adopt_value, connected, loadValue, removeAtom, getAtom, fetchIncomingSet,
      fetchIncomingByType, loadAtomSpace, loadType, request_atoms, decode_atom_list,
      storeAtomSpace, kill_data, runQuery, storeFrameDAG, writeFrame_as;
    cbv zeta; unfold adopt_value; frames_auto.
  all: apply stays_modify; intros s _; split; apply map_Forall_empty.
Qed.

Lemma session_frames s s1 : session fuel s s1 -> frames_ok s -> frames_ok s1.
Proof.
  intros Hses Hs. induction Hses as [s|s s1 o r s2 _ IH Hrun Hr]; [done|].
  specialize (IH Hs). pose proof (run_op_frames o s1 IH) as H. rewrite Hrun in H.
  by destruct Hr as [[? ->]|[? ->]].
Qed.

Lemma frames_ok_empty s : s.(_frame_map) = ∅ -> s.(_fid_map) = ∅ -> frames_ok s.
Proof. intros H1 H2. unfold frames_ok. rewrite H1, H2. split; apply map_Forall_empty. Qed.

Lemma writeFrame_returns h s : 
  frames_ok s ->
  forall t s', writeFrame (W := W) (Some h) s = (Ok t, s') -> t = frame_shorty (get_name h).
Proof.
  intros [Hs _] t s' Hrun. unfold writeFrame in Hrun.
  apply bind_inv in Hrun as (it & s1 & H1 & Hrun).
  unfold with_lock in H1. destruct (held s); [done|]. injection H1 as <- <-.
  destruct (_frame_map s !! h) as [u|] eqn:Hu.
  - injection Hrun as <- _. by apply (Hs h u).
  - repeat (apply bind_inv in Hrun as (? & ? & _ & Hrun)). by injection Hrun as <- _.
Qed.

(** C27. After any session of a new client, whatever was stored, fetched, loaded,
    killed or thrown on the way, a frame is referred to by its own name:
    [writeFrame] returns no other short form, and the caches still agree with
    the names of the frames they hold. *)
Theorem writeFrame_names_frame s s1 h t s2 :
  s.(_frame_map) = ∅ -> s.(_fid_map) = ∅ -> session fuel s s1 ->
  writeFrame (Some h) s1 = (Ok t, s2) ->
  t = frame_shorty (get_name h) /\ frames_ok s2.
Proof.
  intros H1 H2 Hses Hrun. pose proof (session_frames s s1 Hses (frames_ok_empty s H1 H2)) as Hs.
  split; [by eapply writeFrame_returns|].
  pose proof (writeFrame_frames (Some h) s1 Hs) as H. by rewrite Hrun in H.
Qed.
End frames.
