(* ===== verification/Msg.v ===== *)
(** * CogChannel.h: the queued messages and their order

    [Msg] is what a [CogChannel] puts in its buffer.  The buffer itself, an
    [async_buffer] of the cogutil repository, is a parameter: a class with the
    operations the channel calls, and a class with the laws it relies on. *)
From S2P Require Import Prelude CxxString Effects.

(** ** Messages *)

Section Msg.
Context {Callback Data : Type}.

(** [client] and [callback] are set together or both null, so one field stands
    for them. *)
Record Msg := mkMsg {
  callback : option Callback;
  sequence : Z;
  noreply : bool;
  str_to_send : str;
  data : Data;
}.

(** [++_sequence_counter] on a [size_t]. *)
Definition count_up (c : Z) : Z := wadd c 1.

(** The constructor.  The comparison takes 19 characters of the message; the
    literal has 18. *)
Definition new_msg (cb : option Callback) (nr : bool) (s : str) (d : Data)
    (counter : Z) : Msg * Z :=
  if compare_eq s 19 (lit "(cog-update-value!") then
    (mkMsg cb (count_up counter) nr s d, count_up counter)
  else (mkMsg cb 0 nr s d, counter).

Lemma new_msg_fields cb nr s d n :
  let m := (new_msg cb nr s d n).1 in
  m.(callback) = cb /\ m.(noreply) = nr /\ m.(str_to_send) = s /\ m.(data) = d.
Proof. unfold new_msg. by destruct (compare_eq _ _ _). Qed.

(** [operator<] *)
Definition msg_ltb (a b : Msg) : bool :=
  if (a.(sequence) =? 0)%Z && (b.(sequence) =? 0)%Z
  then str_ltb a.(str_to_send) b.(str_to_send)
  else (b.(sequence) <? a.(sequence))%Z.

(** What a [std::set] takes for equal. *)
Definition msg_equiv (a b : Msg) : bool := negb (msg_ltb a b) && negb (msg_ltb b a).

(** [sequence] is a [size_t]. *)
Definition msg_ok (m : Msg) : Prop := (0 <= m.(sequence) < size_mod)%Z.

(** *** Order *)

Lemma msg_equiv_spec a b :
  msg_equiv a b = true <->
  a.(sequence) = b.(sequence) /\ (a.(sequence) = 0%Z -> a.(str_to_send) = b.(str_to_send)).
Proof.
  unfold msg_equiv, msg_ltb. rewrite (andb_comm (sequence b =? 0)%Z).
  destruct ((sequence a =? 0)%Z && (sequence b =? 0)%Z) eqn:E.
  - apply andb_true_iff in E as [Ha%Z.eqb_eq Hb%Z.eqb_eq]. rewrite andb_true_iff, !negb_true_iff.
    split.
    + intros [H1 H2]. split; [congruence|]. intros _. by apply str_ltb_total.
    + intros [_ H]. rewrite H by done. by rewrite !str_ltb_irrefl.
  - apply andb_false_iff in E. rewrite !Z.eqb_neq in E.
    rewrite andb_true_iff, !negb_true_iff, !Z.ltb_ge. split.
    + intros [H1 H2]. split; [lia|]. lia.
    + intros [-> _]. lia.
Qed.

(** C37. [operator<] is a strict weak order, as [std::set] demands: irreflexive
    and transitive, and incomparability is an equivalence; it holds for any mix
    of sequenced and plain messages. *)
Theorem msg_lt_strict_weak_order a b c :
  msg_ok a -> msg_ok b -> msg_ok c ->
  msg_ltb a a = false /\
  (msg_ltb a b = true -> msg_ltb b c = true -> msg_ltb a c = true) /\
  (msg_equiv a b = true -> msg_equiv b c = true -> msg_equiv a c = true).
Proof.
  unfold msg_ok. intros Ha Hb Hc. split_and!.
  - unfold msg_ltb. destruct (_ && _); [apply str_ltb_irrefl|apply Z.ltb_irrefl].
  - unfold msg_ltb.
    destruct (Z.eqb_spec (sequence a) 0), (Z.eqb_spec (sequence b) 0),
      (Z.eqb_spec (sequence c) 0); cbn [andb]; rewrite ?Z.ltb_lt; try lia.
    apply str_ltb_trans.
  - rewrite !msg_equiv_spec. intros [E1 S1] [E2 S2]. split; [congruence|].
    intros E. rewrite S1 by done. apply S2. congruence.
Qed.

(** *** Sequence numbers *)

Definition update_prefix : str := lit "(cog-update-value! ".

Lemma updates_not_sequenced_aux cb nr (d : Data) counter args :
  (new_msg cb nr (update_prefix ++ args) d counter).1.(sequence) = 0%Z /\
  (forall s, (new_msg cb nr s d counter).1.(sequence) <> 0%Z ->
     s = lit "(cog-update-value!").
Proof.
  split; [done|]. intros s. unfold new_msg.
  destruct (compare_eq s 19 (lit "(cog-update-value!")) eqn:E; [|done].
  intros _. pose proof (compare_eq_length _ _ _ E) as Hl.
  apply bool_decide_eq_true in E. change (length (lit "(cog-update-value!")) with 18 in Hl.
  rewrite <- E, take_ge; [done|]. lia.
Qed.
(** The constructor gives a sequence number to one text only, the bare
    18-character command: a real update, which has an argument, never gets one
    and is queued like an idempotent message. *)
Theorem updates_not_sequenced cb nr (d : Data) counter args :
  (new_msg cb nr (update_prefix ++ args) d counter).1.(sequence) = 0%Z /\
  (forall s, (new_msg cb nr s d counter).1.(sequence) <> 0%Z ->
     s = lit "(cog-update-value!").
Proof. apply updates_not_sequenced_aux. Qed.
End Msg.
Arguments Msg : clear implicits.

(** ** The buffer *)

(** [pending q] are the elements inserted and not yet taken by a writer thread,
    [writers q] the threads running; [buf_flush] and [buf_barrier] call the
    writer, with the thread that calls it, from inside. *)
Class AsyncBuffer (E Q : Type) := {
  pending : Q -> list E;
  writers : Q -> list nat;
  buf_insert : E -> Q -> Q;
  buf_open : nat -> Q -> Q;
  buf_close : Q -> Q;
  buf_clear_stats : Q -> Q;
  buf_flush : forall S, Has Q S -> (nat -> E -> M S unit) -> M S unit;
  buf_barrier : forall S, Has Q S -> (nat -> E -> M S unit) -> option E -> M S unit;
  (** the statistics it keeps, by name *)
  buf_stat : string -> Q -> str;
}.
Arguments buf_flush {E Q _} {S} {_}.
Arguments buf_barrier {E Q _} {S} {_}.

(** Writer thread [t] takes the element [e] and runs the writer on it, which
    ends with [o]; a [turn] is one that returns. *)
Definition turn_ends {E Q S} `{AsyncBuffer E Q, Has Q S} (writer : nat -> E -> M S unit)
    (t : nat) (e : E) (s : S) (o : outcome unit) (s1 : S) : Prop :=
  exists q, t ∈ writers (the s) /\ pending (the s) ≡ₚ e :: pending q /\
    writers q = writers (the s) /\ writer t e (put q s) = (o, s1).

Definition turn {E Q S} `{AsyncBuffer E Q, Has Q S} (writer : nat -> E -> M S unit)
    (t : nat) (e : E) (s s1 : S) : Prop := turn_ends writer t e s (Ok tt) s1.

Definition turns {E Q S} `{AsyncBuffer E Q, Has Q S} (writer : nat -> E -> M S unit)
    : S -> S -> Prop :=
  rtc (fun s s1 => exists t e, turn writer t e s s1).

(** The writers run until nothing is pending. *)
Definition drains {E Q S} `{AsyncBuffer E Q, Has Q S} (writer : nat -> E -> M S unit)
    (s s' : S) : Prop :=
  turns writer s s' /\ pending (the s') = [].

(** What the channel relies on: the buffer is a set ordered by [operator<], and
    a flush lets the writers run; a barrier returns only when every element has
    been through a writer, and its own message then goes through every writer;
    and both go wrong only where a writer does.  A writer can take an element while
    there is one; starting and stopping the writers makes no elements. *)
Class AsyncBufferLaws {Callback Data Q} (AB : AsyncBuffer (Msg Callback Data) Q) : Prop := {
  insert_fresh : forall m q,
    (forall x, x ∈ pending q -> msg_equiv m x = false) ->
    pending (buf_insert m q) ≡ₚ m :: pending q;
  insert_again : forall m x q,
    x ∈ pending q -> msg_equiv m x = true -> pending (buf_insert m q) = pending q;
  take_one : forall q, pending q <> [] ->
    exists m q', pending q ≡ₚ m :: pending q' /\ writers q' = writers q;
  insert_writers : forall m q, writers (buf_insert m q) = writers q;
  clear_stats_pending : forall q, pending (buf_clear_stats q) = pending q;
  clear_stats_writers : forall q, writers (buf_clear_stats q) = writers q;
  open_pending : forall n q, pending (buf_open n q) = pending q;
  close_pending : forall q x, x ∈ pending (buf_close q) -> x ∈ pending q;
  flush_turns : forall S (HS : Has Q S) writer s s',
    buf_flush writer s = (Ok tt, s') -> turns writer s s';
  barrier_drains : forall S (HS : Has Q S) writer block s s',
    buf_barrier writer block s = (Ok tt, s') ->
    exists s1, drains writer s s1 /\
      match block with
      | None => s' = s1
      | Some m => for_each (fun t => writer t m) (writers (the s1)) s1 = (Ok tt, s')
      end;
  flush_fails : forall S (HS : Has Q S) writer s o s',
    buf_flush writer s = (o, s') -> fails o ->
    exists s1 t e, turns writer s s1 /\ turn_ends writer t e s1 o s';
  barrier_fails : forall S (HS : Has Q S) writer block s o s',
    buf_barrier writer block s = (o, s') -> fails o ->
    exists s1, turns writer s s1 /\
      ((exists t e, turn_ends writer t e s1 o s') \/
       (exists m, block = Some m /\
          for_each (fun t => writer t m) (writers (the s1)) s1 = (o, s')));
}.

(** An insertion adds its message, or merges it with one that is pending. *)
Lemma insert_cases {Callback Data Q} {AB : AsyncBuffer (Msg Callback Data) Q} {AL : AsyncBufferLaws AB}
    (m : Msg Callback Data) (q : Q) :
  pending (buf_insert m q) ≡ₚ m :: pending q \/
  pending (buf_insert m q) = pending q /\ exists x, x ∈ pending q /\ msg_equiv m x = true.
Proof.
  destruct (decide (Exists (fun x => msg_equiv m x = true) (pending q))) as [Hd|Hd].
  - apply Exists_exists in Hd as (x & Hx & Heq). right. split; [by apply (insert_again m x)|eauto].
  - left. apply insert_fresh. intros x Hx. destruct (msg_equiv m x) eqn:E; [|done].
    destruct Hd. apply Exists_exists. eauto.
Qed.

Lemma insert_elem {Callback Data Q} {AB : AsyncBuffer (Msg Callback Data) Q} {AL : AsyncBufferLaws AB}
    (m x : Msg Callback Data) (q : Q) :
  x ∈ pending (buf_insert m q) -> x = m \/ x ∈ pending q.
Proof.
  destruct (insert_cases m q) as [Hp|[-> _]]; [|by right]. rewrite Hp. by intros H%elem_of_cons.
Qed.

(** An invariant that holds while the writers take elements and handle them
    holds when a flush or a barrier ends. *)
Section run_writers.
Context {Callback Data Q S : Type} {AB : AsyncBuffer (Msg Callback Data) Q}
  {AL : AsyncBufferLaws AB} (HS : Has Q S).
Context (writer : nat -> Msg Callback Data -> M S unit).
Context (I : S -> Prop) (good : Msg Callback Data -> Prop).
Context (Hgood : forall s m, I s -> m ∈ pending (the s) -> good m).
Context (Htake : forall s m q, I s -> pending (the s) ≡ₚ m :: pending q -> I (put q s)).
Context (Hwriter : forall t m, good m -> keeps I (writer t m)).

Lemma turn_wp t m s o s1 : turn_ends writer t m s o s1 -> I s ->
  wp True (fun _ => (o, s1)) (fun _ => I) (fun _ => I) s.
Proof.
  intros (q & _ & Hp & _ & Hrun) Hs.
  pose proof (Hwriter t m (Hgood s m Hs ltac:(rewrite Hp; by left)) (put q s)) as Hw.
  unfold wp in *. rewrite Hrun in Hw. exact (Hw (Htake s m q Hs Hp)).
Qed.

Lemma turns_keep s s' : turns writer s s' -> I s -> I s'.
Proof.
  induction 1 as [s|s s1 s2 (t & m & Ht) _ IH]; [done|].
  intros Hs. apply IH. exact (turn_wp _ _ _ _ _ Ht Hs).
Qed.

Lemma fences_keep m ts : good m -> keeps I (for_each (fun t => writer t m) ts).
Proof. intros Hm. apply keeps_for_each. intros t _. by apply Hwriter. Qed.

Lemma flush_keeps : keeps I (buf_flush writer).
Proof.
  intros s Hs. unfold wp. destruct (buf_flush writer s) as [o s'] eqn:Hrun.
  destruct o as [[]|e| | |]; try done; [by eapply turns_keep; [eapply flush_turns|]|..];
    destruct (flush_fails _ HS _ _ _ _ Hrun Logic.I) as (s1 & t & m & H1 & H2);
    exact (turn_wp _ _ _ _ _ H2 (turns_keep _ _ H1 Hs)).
Qed.

Lemma run_barrier_keeps block :
  (forall m, block = Some m -> good m) -> keeps I (buf_barrier writer block).
Proof.
  intros Hb s Hs. unfold wp. destruct (buf_barrier writer block s) as [o s'] eqn:Hrun.
  destruct o as [[]|e| | |]; try done.
  { destruct (barrier_drains _ HS _ _ _ _ Hrun) as (s1 & [H1 _] & H2).
    pose proof (turns_keep _ _ H1 Hs) as Hs1. destruct block as [m|]; [|by subst].
    pose proof (fences_keep m (writers (the s1)) (Hb m eq_refl) s1 Hs1) as Hw.
    unfold wp in Hw. by rewrite H2 in Hw. }
  all: destruct (barrier_fails _ HS _ _ _ _ _ Hrun Logic.I) as (s1 & H1 & [(t & m & H2)|(m & Hm & H2)]);
    pose proof (turns_keep _ _ H1 Hs) as Hs1; [exact (turn_wp _ _ _ _ _ H2 Hs1)|].
  all: pose proof (fences_keep m (writers (the s1)) (Hb m Hm) s1 Hs1) as Hw;
    unfold wp in Hw; by rewrite H2 in Hw.
Qed.
End run_writers.

(** ** Duplicates *)

Section dedup.
Context {Callback Data Q : Type} {AB : AsyncBuffer (Msg Callback Data) Q}
  {AL : AsyncBufferLaws AB}.

(** Two equal updates queued one after the other are merged: the second one
    adds nothing, so the CogServer applies the increment once. *)
Theorem equal_updates_merged (q : Q) (d d' : Data) counter args :
  let m := new_msg (Callback := Callback) None true (update_prefix ++ args) d counter in
  let m' := new_msg None true (update_prefix ++ args) d' m.2 in
  m.1 ∈ pending q -> pending (buf_insert m'.1 q) = pending q.
Proof. intros m m' Hin. apply (insert_again _ m.1); [done|]. by apply msg_equiv_spec. Qed.

(** Two requests with the same text are merged whatever their replies are
    for: the callback and the data of the second one, such as the AtomSpace to
    load into, are dropped. *)
Theorem equal_requests_merged (q : Q) cb cb' nr nr' (d d' : Data) counter s x :
  s <> lit "(cog-update-value!" ->
  x = (new_msg cb nr s d counter).1 -> x ∈ pending q ->
  pending (buf_insert (new_msg cb' nr' s d' counter).1 q) = pending q.
Proof.
  intros Hs -> Hin. apply (insert_again _ (new_msg cb nr s d counter).1); [done|].
  assert (forall cb nr (d : Data), new_msg (Callback := Callback) cb nr s d counter = (mkMsg cb 0 nr s d, counter)) as Hnew.
  { intros. unfold new_msg. destruct (compare_eq s 19 (lit "(cog-update-value!")) eqn:E; [|done].
    pose proof (compare_eq_length _ _ _ E) as Hl. apply bool_decide_eq_true in E.
    change (length (lit "(cog-update-value!")) with 18 in Hl.
    destruct Hs. rewrite <- E, take_ge; [done|]. lia. }
  rewrite !Hnew. by apply msg_equiv_spec.
Qed.
End dedup.
