(* ===== verification/Channel.v ===== *)
(** * CogChannel.cc: the multi-threaded channel

    A channel sends what is queued from several writer threads.  Each thread
    has one socket, a [static thread_local] object, so the sockets belong to
    the threads and not to the channels; the state of the model is therefore
    the whole process: the sockets and random generators by thread, the
    channels by number, the global message counter, the world and the atoms.
    Operations take the channel [c] they are called on and the thread [t] that
    calls.  The history variable [_wire] lists the successful [send] calls of
    [do_send]: thread, descriptor and text. *)
From stdpp Require Import pretty functions.
From S2P Require Import Prelude CxxString Effects Sockets RecvBuf Barrier Uri Atomese.
From S2P Require Import Msg.

Definition NTHREADS : nat := 4.

(** [thread_local struct tlso]; the owner is a channel. *)
Record tlso := mkTlso { _sockfd : Z; _owner : option nat }.

Section Channel.
Context {W Heap Static Callback Data Q : Type} {SK : Sockets W}.
Context {AB : AsyncBuffer (Msg Callback Data) Q}.

Record CogChannel := mkChannel {
  _uri : str;
  _host : str;
  _port : str;
  _servinfo : option (list addrinfo);
  _nsocks : Z;
  _msg_buffer : Q;
}.

Record process := mkProcess {
  world : W;
  heap : Heap;
  tls : nat -> tlso;
  rngs : nat -> Z;
  chans : nat -> CogChannel;
  _sequence_counter : Z;
  statics : Static;                    (* static variables of the client code *)
  _wire : list (nat * Z * str);
  _destroyed : list nat;               (* the channels that are no more *)
}.

Definition set_world (w : W) (s : process) : process :=
  mkProcess w s.(heap) s.(tls) s.(rngs) s.(chans) s.(_sequence_counter) s.(statics) s.(_wire)
    s.(_destroyed).
Definition set_heap (h : Heap) (s : process) : process :=
  mkProcess s.(world) h s.(tls) s.(rngs) s.(chans) s.(_sequence_counter) s.(statics) s.(_wire)
    s.(_destroyed).
Definition set_tls (t : nat) (x : tlso) (s : process) : process :=
  mkProcess s.(world) s.(heap) (<[t := x]> s.(tls)) s.(rngs) s.(chans) s.(_sequence_counter) s.(statics) s.(_wire)
    s.(_destroyed).
Definition set_rng (t : nat) (x : Z) (s : process) : process :=
  mkProcess s.(world) s.(heap) s.(tls) (<[t := x]> s.(rngs)) s.(chans) s.(_sequence_counter) s.(statics) s.(_wire)
    s.(_destroyed).
Definition set_chan (c : nat) (x : CogChannel) (s : process) : process :=
  mkProcess s.(world) s.(heap) s.(tls) s.(rngs) (<[c := x]> s.(chans)) s.(_sequence_counter) s.(statics) s.(_wire)
    s.(_destroyed).
Definition set_counter (n : Z) (s : process) : process :=
  mkProcess s.(world) s.(heap) s.(tls) s.(rngs) s.(chans) n s.(statics) s.(_wire)
    s.(_destroyed).
Definition set_statics (x : Static) (s : process) : process :=
  mkProcess s.(world) s.(heap) s.(tls) s.(rngs) s.(chans) s.(_sequence_counter) x s.(_wire)
    s.(_destroyed).
Definition add_wire (e : nat * Z * str) (s : process) : process :=
  mkProcess s.(world) s.(heap) s.(tls) s.(rngs) s.(chans) s.(_sequence_counter) s.(statics) (s.(_wire) ++ [e])
    s.(_destroyed).
Definition add_destroyed (c : nat) (s : process) : process :=
  mkProcess s.(world) s.(heap) s.(tls) s.(rngs) s.(chans) s.(_sequence_counter) s.(statics) s.(_wire)
    (c :: s.(_destroyed)).

Definition with_names (u h p : str) (x : CogChannel) : CogChannel :=
  mkChannel u h p x.(_servinfo) x.(_nsocks) x.(_msg_buffer).
Definition with_servinfo (i : option (list addrinfo)) (x : CogChannel) : CogChannel :=
  mkChannel x.(_uri) x.(_host) x.(_port) i x.(_nsocks) x.(_msg_buffer).
Definition with_nsocks (n : Z) (x : CogChannel) : CogChannel :=
  mkChannel x.(_uri) x.(_host) x.(_port) x.(_servinfo) n x.(_msg_buffer).
Definition with_buffer (q : Q) (x : CogChannel) : CogChannel :=
  mkChannel x.(_uri) x.(_host) x.(_port) x.(_servinfo) x.(_nsocks) q.

#[export] Instance process_world : Has W process := {| the := world; put := set_world |}.
#[export] Instance process_heap : Has Heap process := {| the := heap; put := set_heap |}.
#[export] Instance process_world_laws : HasLaws W process.
Proof. split; by intros; repeat match goal with s : process |- _ => destruct s end. Qed.
#[export] Instance process_heap_laws : HasLaws Heap process.
Proof. split; by intros; repeat match goal with s : process |- _ => destruct s end. Qed.

(** The static variables of the client with the atoms, for the decoders that
    take both. *)
#[export] Instance process_statics : Has (Static * Heap) process :=
  {| the := fun s => (s.(statics), s.(heap)); put := fun x s => set_statics x.1 (set_heap x.2 s) |}.
#[export] Instance process_statics_laws : HasLaws (Static * Heap) process.
Proof.
  split; intros; repeat match goal with
    | s : process |- _ => destruct s
    | x : (Static * Heap)%type |- _ => destruct x
    end; done.
Qed.

(** The buffer of channel [c] is a part of the process. *)
Definition buffer_of (c : nat) : Has Q process := {|
  the := fun s => (s.(chans) c).(_msg_buffer);
  put := fun q s => set_chan c (with_buffer q (s.(chans) c)) s;
|}.

Abbreviation Proc := (M process).

Definition get_chan (c : nat) : Proc CogChannel := gets (fun s => s.(chans) c).
Definition upd_chan (c : nat) (f : CogChannel -> CogChannel) : Proc unit :=
  modify (fun s => set_chan c (f (s.(chans) c)) s).
Definition get_sockfd (t : nat) : Proc Z := gets (fun s => (s.(tls) t).(_sockfd)).
Definition set_sockfd (t : nat) (fd : Z) : Proc unit :=
  modify (fun s => set_tls t (mkTlso fd (s.(tls) t).(_owner)) s).

(** The constructor; the buffer is made of its own constructor's result. *)
Definition new_channel (q : Q) : CogChannel := mkChannel [] [] [] None 0 q.

Context (fuel : nat).

(** ** Sending and receiving *)

(** At the end of the stream the descriptor is closed, but stays in [s]. *)
Definition on_eof (t : nat) : Proc unit :=
  fd ← get_sockfd t;
  on_pure (fun w => (tt, sys_close fd w)).

Definition no_open_socket : exn := IOException "No open socket!" [].

Definition do_recv (t : nat) (garbage : bool) : Proc str :=
  fd ← get_sockfd t;
  if (0 =? fd)%Z then throw no_open_socket
  else recv_loop (fun s => (s.(tls) t).(_sockfd)) (8 * 1024) (on_eof t) fuel garbage true [].

(** The loop over the addresses: the descriptor of the first one that answers,
    or none, with the last [errno] of [connect]. *)
Fixpoint connect_loop (ps : list addrinfo) (norr : Z) : Proc (option Z * Z) :=
  match ps with
  | [] => mret (None, norr)
  | p :: ps' =>
      sockfd ← on_pure (sys_socket p);
      if (sockfd <? 0)%Z then connect_loop ps' norr
      else
        rc ← on_pure (sys_connect sockfd p);
        if (rc =? 0)%Z then mret (Some sockfd, norr)
        else
          norr ← gets (fun s => sys_errno s.(world));
          on_pure (fun w => (tt, sys_close sockfd w));;
          connect_loop ps' norr
  end.

Definition open_sock (c t : nat) : Proc Z :=
  x ← get_chan c;
  match x.(_servinfo) with
  | None => mret (-1)%Z
  | Some servinfo =>
      found ← connect_loop servinfo 0;
      match found.1 with
      | None => throw (IOException "Unable to connect to host %s: %s"
                         [FStr x.(_host); FStr (strerror found.2)])
      | Some sockfd =>
          _ ← on_pure (sys_setsockopt sockfd TCP_NODELAY);
          _ ← on_pure (sys_setsockopt sockfd TCP_QUICKACK);
          rc ← on_pure (sys_send sockfd (lit "sexpr" ++ [nl]) false);
          if (rc <? 0)%Z then
            e ← gets (fun s => sys_errno s.(world));
            throw (IOException "Unable to talk to cogserver at host %s: %s"
                     [FStr x.(_host); FStr (strerror e)])
          else
            modify (set_tls t (mkTlso sockfd (Some c)));;
            _ ← do_recv t true;
            upd_chan c (fun x => with_nsocks (x.(_nsocks) + 1) x);;
            mret sockfd
      end
  end.

Definition do_send (c t : nat) (m : str) : Proc unit :=
  fd ← get_sockfd t;
  (if (0 =? fd)%Z then fd ← open_sock c t; set_sockfd t fd else mret tt);;
  fd ← get_sockfd t;
  rc ← on_pure (sys_send fd m true);
  if (rc <? 0)%Z then throw_errno "Unable to talk to cogserver: %s"
  else modify (add_wire (t, fd, m)).

(** ** The queue *)

(** Client code called back with a reply: by channel, thread, callback. *)
Context (run_callback : nat -> nat -> Callback -> str -> Data -> Proc unit).
(** [Data()] *)
Context (no_data : Data).

Definition enqueue_msg (c : nat) (cb : option Callback) (nr : bool) (m : str) (d : Data)
    : Proc unit :=
  n ← gets _sequence_counter;
  let block := new_msg cb nr m d n in
  modify (set_counter block.2);;
  upd_chan c (fun x => with_buffer (buf_insert block.1 x.(_msg_buffer)) x).

Definition enqueue (c : nat) (m : str) (d : Data) (handler : Callback) : Proc unit :=
  enqueue_msg c (Some handler) false m d.

Definition enqueue_noreply (c : nat) (m : str) : Proc unit :=
  enqueue_msg c None true m no_data.

Definition reply_handler (c t : nat) (m : Msg Callback Data) : Proc unit :=
  do_send c t m.(str_to_send);;
  if m.(noreply) then mret tt
  else
    reply ← do_recv t false;
    match m.(callback) with
    | Some cb => run_callback c t cb reply m.(data)
    | None => undef
    end.

(** [synchro] on a client's own thread; the handler returns the new data. *)
Definition synchro {A} (c t : nat) (m : str) (handler : str -> Proc A) : Proc A :=
  do_send c t m;;
  reply ← do_recv t false;
  handler reply.

Definition run_barrier (c : nat) (block : option (Msg Callback Data)) : Proc unit :=
  @buf_barrier _ _ AB _ (buffer_of c) (reply_handler c) block.

Definition draw (t : nat) : Proc Z :=
  modify (fun s => set_rng t (minstd_next (s.(rngs) t)) s);;
  gets (fun s => s.(rngs) t).

(** [(uint64_t(rng()) << 32) | rng()] *)
Definition draw_rnd (t : nat) : Proc Z :=
  first ← draw t;
  second ← draw t;
  left ← gets (fun s => left_first s.(world));
  mret (barrier_rnd left first second).

Definition barrier (c t : nat) : Proc unit :=
  rnd ← draw_rnd t;
  let msg := snprintf 64 (barrier_text (lit "4") rnd) in
  n ← gets _sequence_counter;
  let block := new_msg None true msg no_data n in
  modify (set_counter block.2);;
  run_barrier c (Some block.1).

Definition flush (c : nat) : Proc unit :=
  @buf_flush _ _ AB _ (buffer_of c) (reply_handler c).

(** ** Opening and closing *)

(** The loop over the arguments, which ignores them. *)
Fixpoint skip_args (n : nat) (args : str) : outcome unit :=
  match n with
  | 0 => NoFuel
  | S n =>
      let pamp := find amp args 0 in
      if (pamp =? npos)%Z then Ok tt
      else
        args ← or_throw OutOfRange (substr_from args (wadd pamp 1));
        skip_args n args
  end.

(** From the URI to [_uri], [_host] and [_port]: the host is cut from the
    argument, the port from [_uri], which has lost its arguments. *)
Definition parse_uri (uri : str) : outcome (str * (str * str)) :=
  let parg := find qmark uri 0 in
  _uri ← (if (parg =? npos)%Z then Ok uri
          else
            args ← or_throw OutOfRange (substr_from uri (wadd parg 1));
            u ← or_throw OutOfRange (substr uri 0 parg);
            _ ← skip_args (S (length args)) args;
            Ok u);
  h ← or_throw OutOfRange (substr_from uri URIX_LEN);
  _host ← host_of h;
  _port ← port_of _uri _host;
  Ok (_uri, (_host, _port)).

(** [if (0 != s._sockfd) { close(s._sockfd); s._sockfd = 0; }] *)
Definition drop_sock (t : nat) : Proc unit :=
  fd ← get_sockfd t;
  when (negb (0 =? fd)%Z) (
    on_pure (fun w => (tt, sys_close fd w));;
    set_sockfd t 0).

Definition free_servinfo (c : nat) : Proc unit :=
  x ← get_chan c;
  (match x.(_servinfo) with
   | Some i => on_pure (fun w => (tt, sys_freeaddrinfo i w))
   | None => mret tt
   end);;
  upd_chan c (with_servinfo None).

Definition open_connection (c t : nat) (uri : str) : Proc unit :=
  if negb (strncmp_eq uri scheme) then throw (unknown_uri (c_str uri))
  else
    p ← lift_outcome (parse_uri uri);
    let '(u, (host, port)) := p in
    upd_chan c (with_names u host port);;
    gai ← on_pure (sys_getaddrinfo (c_str host) (c_str port));
    let '(rc, srvinfo) := gai in
    if negb (rc =? 0)%Z then
      throw (IOException "Unknown host %s: %s" [FStr host; FStr (strerror rc)])
    else
      upd_chan c (with_servinfo (Some srvinfo));;
      on_ioexception
        (do_send c t (["."%char; nl; "."%char; nl]);;
         _ ← do_recv t true;
         mret tt)
        (free_servinfo c;; drop_sock t);;
      drop_sock t;;
      upd_chan c (fun x => with_buffer (buf_open NTHREADS x.(_msg_buffer)) x).

Definition connected (c : nat) : Proc bool :=
  gets (fun s => bool_decide (is_Some (s.(chans) c).(_servinfo))).

Definition close_connection (c : nat) : Proc unit :=
  run_barrier c None;;
  upd_chan c (fun x => with_buffer (buf_close x.(_msg_buffer)) x);;
  free_servinfo c.

(** ** The end of channels and threads

    The destructor, but for its being [noexcept].  [freeaddrinfo] of the null
    pointer [close_connection] leaves does nothing. *)
Definition destroy (c : nat) : Proc unit :=
  close_connection c;;
  free_servinfo c;;
  modify (add_destroyed c).

(** The destructor of [tlso], when thread [t] ends: the count of sockets is
    decremented through the pointer to the owner, which may be gone. *)
Definition thread_exit (t : nat) : Proc unit :=
  fd ← get_sockfd t;
  when (negb (fd =? 0)%Z) (
    on_pure (fun w => (tt, sys_close fd w));;
    s ← gets (fun s => s);
    match (s.(tls) t).(_owner) with
    | None => mret tt
    | Some c =>
        if bool_decide (c ∈ s.(_destroyed)) then undef
        else upd_chan c (fun x => with_nsocks (x.(_nsocks) - 1) x)
    end).

(** ** Statistics *)

Definition clear_stats (c : nat) : Proc unit :=
  upd_chan c (fun x => with_buffer (buf_clear_stats x.(_msg_buffer)) x).

Definition to_string (z : Z) : str := lit (pretty z).

Definition print_stats (c : nat) : Proc str :=
  x ← get_chan c;
  let q := fun name => buf_stat name x.(_msg_buffer) in
  mret (lit "Open socks: " ++ to_string x.(_nsocks) ++
        lit "  Connected to: " ++ x.(_uri) ++ [nl] ++
        lit "Queue size: " ++ q "size"%string ++
        lit "  Busy: " ++ q "busy_writers"%string ++ lit "/" ++
        to_string (Z.of_nat NTHREADS) ++ q "in_drain"%string ++ [nl] ++
        lit "Messages: " ++ q "item_count"%string ++
        lit "  Duplicates: " ++ q "duplicate_count"%string ++ [nl] ++
        lit "Flush count: " ++ q "flush_count"%string ++
        lit "  Drains: " ++ q "drain_count"%string ++ [nl] ++
        lit "Drain time (msec): " ++ q "drain_msec"%string ++
        lit "  Slowest (msec): " ++ q "drain_count"%string ++
        lit "  Concurrent: " ++ q "drain_concurrent"%string ++ [nl] ++
        lit "Low/High watermarks: " ++ q "low_watermark"%string ++ lit "/" ++
        q "high_watermark"%string ++
        lit "  Stalled: " ++ q "stalling"%string ++ [nl]).
End Channel.
