(* ===== verification/ChannelFacts.v ===== *)
(** * What a channel promises, and what the shared sockets cost

    The barrier of a channel delivers everything queued before it; replies are
    reassembled from any chunks; and the behaviours that follow from the sockets
    belonging to the threads. *)
From stdpp Require Import pretty functions.
From S2P Require Import Prelude CxxString Effects Sockets RecvBuf Barrier Uri Atomese.
From S2P Require Import Msg Channel.

Section facts.
Context {W Heap Static Callback Data Q : Type} {SK : Sockets W}.
Context {AB : AsyncBuffer (Msg Callback Data) Q}.
Abbreviation process := (Channel.process (W := W) (Heap := Heap) (Static := Static) (Q := Q)).
Implicit Types (s : process).
Context (fuel : nat).

(** ** What is sent between two states *)

(** [sent_by t m s s']: thread [t] sent [m] between [s] and [s']. *)
Definition sent_by (t : nat) (m : str) (s s' : process) : Prop :=
  exists w fd, s'.(_wire) = s.(_wire) ++ w /\ (t, fd, m) ∈ w.

Definition sent (m : str) (s s' : process) : Prop := exists t, sent_by t m s s'.

(** What was sent stays sent. *)
Definition later (s s' : process) : Prop := s.(_wire) `prefix_of` s'.(_wire).

#[export] Instance later_preorder : PreOrder later.
Proof. unfold later. split; [by intros s|intros s1 s2 s3 H1 H2; by etrans]. Qed.

Lemma later_same s s' : s'.(_wire) = s.(_wire) -> later s s'.
Proof. unfold later. by intros ->. Qed.
#[local] Hint Extern 0 (later _ _) => apply later_same; reflexivity : core.

Lemma sent_by_later t m s s1 s' : sent_by t m s s1 -> later s1 s' -> sent_by t m s s'.
Proof.
  intros (w & fd & Hw & Hin) [w' Hw']. exists (w ++ w'), fd.
  rewrite Hw', Hw, app_assoc. split; [done|]. apply elem_of_app. by left.
Qed.

Lemma sent_by_earlier t m s s1 s' : later s s1 -> sent_by t m s1 s' -> sent_by t m s s'.
Proof.
  intros [w' Hw'] (w & fd & Hw & Hin). exists (w' ++ w), fd.
  rewrite Hw, Hw', app_assoc. split; [done|]. apply elem_of_app. by right.
Qed.

Lemma sent_later m s s1 s' : sent m s s1 -> later s1 s' -> sent m s s'.
Proof. intros [t H] Hl. exists t. by eapply sent_by_later. Qed.

Lemma sent_earlier m s s1 s' : later s s1 -> sent m s1 s' -> sent m s s'.
Proof. intros Hl [t H]. exists t. by eapply sent_by_earlier. Qed.

(** ** Queue and wire only grow *)

Definition queued (c : nat) (s : process) : list (Msg Callback Data) :=
  pending (s.(chans) c).(_msg_buffer).

Definition same_writers (c : nat) (s s' : process) : Prop :=
  forall t, t ∈ writers (s.(chans) c).(_msg_buffer) <-> t ∈ writers (s'.(chans) c).(_msg_buffer).

(** Between two turns of the writers, nothing leaves the queue of channel [c]. *)
Definition grows (c : nat) (s s' : process) : Prop :=
  later s s' /\ (forall m, m ∈ queued c s -> m ∈ queued c s') /\ same_writers c s s'.

(** Between two turns, where writers may be started. *)
Definition holds (c : nat) (s s' : process) : Prop :=
  later s s' /\ forall m, m ∈ queued c s -> m ∈ queued c s'.

(** Nothing queued is lost: it is sent, or still queued. *)
Definition no_loss (c : nat) (s s' : process) : Prop :=
  later s s' /\ forall m, m ∈ queued c s -> m ∈ queued c s' \/ sent m.(str_to_send) s s'.

(** While the writers run, what leaves the queue is sent. *)
Definition progress (c : nat) (s s' : process) : Prop :=
  no_loss c s s' /\ same_writers c s s'.

#[export] Instance holds_preorder c : PreOrder (holds c).
Proof.
  split; [by intros s|]. intros s1 s2 s3 (A1 & A2) (B1 & B2). split; [by etrans|eauto].
Qed.

#[export] Instance no_loss_preorder c : PreOrder (no_loss c).
Proof.
  split; [intros s; split; [done|by left]|].
  intros s1 s2 s3 (A1 & A2) (B1 & B2). split; [by etrans|].
  intros m Hm. destruct (A2 m Hm) as [H|H]; [|right; by eapply sent_later].
  destruct (B2 m H) as [?|?]; [by left|right; by eapply sent_earlier].
Qed.

#[export] Instance grows_preorder c : PreOrder (grows c).
Proof.
  split; [by intros s|]. intros s1 s2 s3 (A1 & A2 & A3) (B1 & B2 & B3).
  split_and!; [by etrans|eauto|]. intros t. by rewrite (A3 t), (B3 t).
Qed.

#[export] Instance progress_preorder c : PreOrder (progress c).
Proof.
  split; [intros s; split; [done|by intros t]|].
  intros s1 s2 s3 (A1 & A2) (B1 & B2). split; [by etrans|].
  intros t. by rewrite (A2 t), (B2 t).
Qed.

Lemma grows_progress c s s' : grows c s s' -> progress c s s'.
Proof. intros (G1 & G2 & G3). split; [|done]. split; [done|]. intros m Hm. left. by apply G2. Qed.

Lemma grows_holds c s s' : grows c s s' -> holds c s s'.
Proof. by intros (G1 & G2 & _). Qed.

Lemma holds_no_loss c s s' : holds c s s' -> no_loss c s s'.
Proof. intros (G1 & G2). split; [done|]. intros m Hm. left. by apply G2. Qed.

Lemma grows_wire c e s : grows c s (add_wire e s).
Proof. split_and!; [by exists [e]|done|done]. Qed.

(** A change of a channel that leaves its buffer alone. *)
Lemma grows_chan c c' x s :
  x.(_msg_buffer) = (s.(chans) c').(_msg_buffer) -> grows c s (set_chan c' x s).
Proof.
  intros Hx. unfold grows, later, queued, same_writers. cbn [chans set_chan _wire].
  destruct (decide (c' = c)) as [->|Hne].
  - rewrite fn_lookup_insert, Hx. done.
  - by rewrite fn_lookup_insert_ne.
Qed.

Lemma grows_world c (w : W) (s : process) : grows c s (put w s).
Proof. done. Qed.
Lemma grows_heap c (w : Heap) (s : process) : grows c s (put w s).
Proof. done. Qed.
Lemma grows_tls c t x s : grows c s (set_tls t x s).
Proof. done. Qed.
Lemma grows_counter c n s : grows c s (set_counter n s).
Proof. done. Qed.
Lemma grows_statics c x s : grows c s (set_statics x s).
Proof. done. Qed.
Hint Resolve grows_wire grows_chan grows_world grows_heap grows_tls grows_counter : cog.

Lemma get_sockfd_moves c t : moves (grows c) (get_sockfd t).
Proof. unfold get_sockfd. moves_step. Qed.

Lemma do_recv_moves c t garbage : moves (grows c) (do_recv fuel t garbage).
Proof.
  unfold do_recv. moves_step; [apply get_sockfd_moves|]. moves_step; [moves_step|].
  apply recv_loop_moves; [typeclasses eauto|done|]. unfold on_eof.
  repeat first [apply get_sockfd_moves | moves_step | done].
Qed.

Lemma connect_loop_moves c ps : forall norr, moves (grows c) (connect_loop ps norr).
Proof.
  induction ps as [|p ps IH]; intros norr; cbn [connect_loop];
    repeat first [apply IH | moves_step | done].
Qed.

Lemma open_sock_moves c c' t : moves (grows c) (open_sock fuel c' t).
Proof.
  unfold open_sock, get_chan, upd_chan.
  repeat first [apply connect_loop_moves | apply do_recv_moves | moves_step | done | by apply grows_chan].
Qed.

Lemma do_send_moves c c' t m : moves (grows c) (do_send fuel c' t m).
Proof.
  unfold do_send, set_sockfd, throw_errno.
  repeat first [apply get_sockfd_moves | apply open_sock_moves | moves_step | done
               | apply grows_wire].
Qed.

(** A [do_send] that returns has put its text on the wire, behind whatever
    opening the socket put there. *)
Lemma do_send_wire c t m s s' : do_send fuel c t m s = (Ok tt, s') -> sent_by t m s s'.
Proof.
  unfold do_send. intros (fd0 & s1 & [= _ <-] & H)%bind_inv.
  apply bind_inv in H as ([] & s2 & Hopen & H).
  assert (later s s2) as [w Hw].
  { assert (moves (grows c) (if (0 =? fd0)%Z then fd ← open_sock fuel c t; set_sockfd t fd
      else mret tt)) as Hmv.
    { unfold set_sockfd. repeat first [apply open_sock_moves | moves_step | done]. }
    by apply (moves_ok _ _ _ _ _ Hmv Hopen). }
  apply bind_inv in H as (fd & s3 & [= _ <-] & H). apply bind_inv in H as (rc & s4 & Hsys & H).
  assert (_wire s4 = _wire s2) as H4.
  { unfold on_pure in Hsys. destruct (sys_send _ _ _ _) in Hsys. by injection Hsys as _ <-. }
  destruct (rc <? 0)%Z; [by apply bind_inv in H as (? & ? & _ & ?)|].
  injection H as <-. exists (w ++ [(t, fd, m)]), fd. simpl.
  rewrite H4, Hw, app_assoc. split; [done|]. apply elem_of_app. right. by constructor.
Qed.

(** ** Barriers *)
Context {AL : AsyncBufferLaws AB}.
Context (run_callback : nat -> nat -> Callback -> str -> Data -> M process unit).
Context (no_data : Data).

Lemma insert_moves c c' m :
  moves (grows c) (upd_chan c' (fun x => with_buffer (buf_insert m x.(_msg_buffer)) x)).
Proof.
  unfold upd_chan. moves_step. unfold grows, later, queued, same_writers.
  cbn [chans set_chan _wire].
  destruct (decide (c' = c)) as [->|Hne]; [|by rewrite fn_lookup_insert_ne].
  rewrite fn_lookup_insert. cbn [_msg_buffer with_buffer].
  set (q := _msg_buffer (chans s c)). split_and!; [done| |by rewrite insert_writers].
  intros x Hx. destruct (insert_cases m q) as [->|[-> _]]; [by right|done].
Qed.

Lemma enqueue_moves c c' cb nr m d : moves (grows c) (enqueue_msg (W := W) (Heap := Heap) (Static := Static) c' cb nr m d).
Proof. unfold enqueue_msg. repeat first [apply insert_moves | moves_step | done]. Qed.

Context (Hcb : forall c c' t cb r d, moves (grows c) (run_callback c' t cb r d)).

Lemma reply_handler_moves c c' t m : moves (grows c) (reply_handler fuel run_callback c' t m).
Proof.
  unfold reply_handler.
  repeat first [apply do_send_moves | apply do_recv_moves | apply Hcb | moves_step].
Qed.

Lemma reply_handler_wire c t m s s' :
  reply_handler fuel run_callback c t m s = (Ok tt, s') -> sent_by t m.(str_to_send) s s'.
Proof.
  unfold reply_handler. intros ([] & s1 & Hs & Hk)%bind_inv.
  eapply sent_by_later; [by eapply do_send_wire|].
  assert (moves (grows c) (if noreply m then mret () else
    reply ← do_recv fuel t false;
    match callback m with Some cb => run_callback c t cb reply (data m) | None => undef end)) as Hmv.
  { repeat first [apply do_recv_moves | apply Hcb | moves_step]. }
  by apply (moves_ok _ _ _ _ _ Hmv Hk).
Qed.

(** A turn of a writer, which takes [e] from the queue, is progress. *)
Lemma turn_progress c t e s s1 :
  turn (H0 := buffer_of c) (reply_handler fuel run_callback c) t e s s1 -> progress c s s1.
Proof.
  intros (q & _ & Hp & Hw & Hrun).
  pose proof (moves_ok _ _ _ _ _ (reply_handler_moves c c t e) Hrun) as (G1 & G2 & G3).
  apply reply_handler_wire in Hrun. cbn [the buffer_of] in Hp, Hw.
  unfold queued, same_writers in G2, G3. cbn [put buffer_of chans set_chan] in G2, G3.
  rewrite fn_lookup_insert in G2, G3. cbn [_msg_buffer with_buffer] in G2, G3.
  split; [split; [exact G1|]|].
  - unfold queued. intros m. rewrite Hp. intros [->|Hm]%elem_of_cons; [|left; by apply G2].
    right. by exists t.
  - intros t'. by rewrite <- G3, Hw.
Qed.

(** A turn on another channel adds to this one at most. *)
Lemma turn_progress_other c c' t e s s1 :
  c' <> c -> turn (H0 := buffer_of c') (reply_handler fuel run_callback c') t e s s1 ->
  progress c s s1.
Proof.
  intros Hne (q & _ & _ & _ & Hrun). apply grows_progress.
  etrans; [|exact (moves_ok _ _ _ _ _ (reply_handler_moves c c' t e) Hrun)].
  unfold grows, queued, same_writers. cbn [put buffer_of chans set_chan].
  rewrite fn_lookup_insert_ne by done. split_and!; [by apply later_same|done..].
Qed.

Lemma turns_progress c s s' :
  turns (H0 := buffer_of c) (reply_handler fuel run_callback c) s s' -> progress c s s'.
Proof.
  induction 1 as [s|s s1 s2 (t & e & H) _ IH]; [done|]. etrans; [by eapply turn_progress|done].
Qed.

Lemma for_each_delivers c b ts : forall s s',
  for_each (fun t => reply_handler fuel run_callback c t b) ts s = (Ok tt, s') ->
  grows c s s' /\ forall t, t ∈ ts -> sent_by t b.(str_to_send) s s'.
Proof.
  induction ts as [|t ts IH]; intros s s' Hrun; cbn [for_each] in Hrun.
  - injection Hrun as <-. split; [done|]. by intros t ?%elem_of_nil.
  - apply bind_inv in Hrun as ([] & s1 & H1 & Hrun).
    destruct (IH _ _ Hrun) as [Hg Hts].
    pose proof (moves_ok _ _ _ _ _ (reply_handler_moves c c t b) H1) as Hg1. split; [by etrans|].
    intros x [->|Hx]%elem_of_cons.
    + apply reply_handler_wire in H1. eapply sent_by_later; [done|apply Hg].
    + eapply sent_by_earlier; [apply Hg1|by apply Hts].
Qed.

(** A barrier drains the queue, and then sends its message from every writer. *)
Lemma run_barrier_delivers c block s s' :
  run_barrier fuel run_callback c block s = (Ok tt, s') ->
  exists s1, progress c s s1 /\ queued c s1 = [] /\ grows c s1 s' /\
    (forall b t, block = Some b -> t ∈ writers (s.(chans) c).(_msg_buffer) ->
       sent_by t b.(str_to_send) s1 s').
Proof.
  unfold run_barrier. intros (s1 & Hd & Hb)%(barrier_drains process (buffer_of c)).
  destruct Hd as [Hp%turns_progress Hq]. exists s1.
  destruct block as [b|]; [|subst; by split_and!].
  apply for_each_delivers in Hb as [Hg Hts]. split_and!; [done..|].
  intros b' t [= <-] Ht. apply Hts. cbn [the buffer_of]. by apply Hp.
Qed.

Lemma barrier_spec c t s s' :
  Channel.barrier fuel run_callback no_data c t s = (Ok tt, s') ->
  let id := barrier_rnd (left_first s.(world))
    (minstd_next (s.(rngs) t)) (minstd_next (minstd_next (s.(rngs) t))) in
  exists s1, later s s1 /\ later s1 s' /\
    (forall m, m ∈ queued c s -> sent m.(str_to_send) s s1) /\
    (forall t', t' ∈ writers (s.(chans) c).(_msg_buffer) ->
       sent_by t' (barrier_text (lit "4") id) s1 s').
Proof.
  intros Hrun id. unfold barrier, draw_rnd, draw in Hrun. change (lit "4") with ["4"%char] in Hrun.
  unfold mret, M_ret, mbind, M_bind, modify, gets in Hrun. cbn [rngs world set_rng] in Hrun.
  rewrite !fn_lookup_insert, snprintf_barrier in Hrun by done.
  apply run_barrier_delivers in Hrun as (s1 & [[P1 P2] _] & Hq & (G1 & _) & Hts).
  exists s1. split_and!; [done|done| |].
  - intros m Hm. destruct (P2 m Hm) as [H|H]; [|done]. rewrite Hq in H. by apply elem_of_nil in H.
  - intros t' Ht'. specialize (Hts _ t' eq_refl Ht').
    by rewrite (proj1 (proj2 (proj2 (new_msg_fields _ _ _ _ _)))) in Hts.
Qed.

(** ** Opening and closing *)

(** Changes of a channel that keep what is queued. *)
Lemma holds_chan c c' x s :
  (forall m, m ∈ pending (s.(chans) c').(_msg_buffer) -> m ∈ pending x.(_msg_buffer)) ->
  holds c s (set_chan c' x s).
Proof.
  intros Hx. unfold holds, queued. split; [done|]. cbn [chans set_chan].
  destruct (decide (c' = c)) as [->|Hne]; [by rewrite fn_lookup_insert|by rewrite fn_lookup_insert_ne].
Qed.

Lemma drop_sock_holds c t : moves (holds c) (drop_sock (W := W) (Heap := Heap) (Static := Static) (Q := Q) t).
Proof.
  unfold drop_sock, get_sockfd, set_sockfd. repeat first [moves_step | by apply grows_holds].
Qed.

Lemma free_servinfo_holds c c' :
  moves (holds c) (free_servinfo (W := W) (Heap := Heap) (Static := Static) (Q := Q) c').
Proof.
  unfold free_servinfo, get_chan, upd_chan.
  repeat first [moves_step | by apply grows_holds | by apply holds_chan].
Qed.

Lemma open_connection_holds c c' t uri : moves (holds c) (open_connection fuel c' t uri).
Proof.
  assert (forall A (m : M process A), moves (grows c) m -> moves (holds c) m) as Hg.
  { intros A m. apply moves_mono, grows_holds. }
  unfold open_connection, upd_chan.
  repeat first [apply free_servinfo_holds | apply drop_sock_holds | apply Hg, do_send_moves
    | apply Hg, do_recv_moves | moves_step | by apply grows_holds
    | apply holds_chan; cbn; by rewrite ?open_pending ].
Qed.

(** The writers of a channel are stopped when its queue is empty. *)
Definition stop_writers (c : nat) (s : process) : process :=
  set_chan c (with_buffer (buf_close (s.(chans) c).(_msg_buffer)) (s.(chans) c)) s.

Lemma stop_holds c c' s : queued c' s = [] -> holds c s (stop_writers c' s).
Proof.
  intros Hq. apply holds_chan. intros m Hm. unfold queued in Hq. rewrite Hq in Hm.
  by apply elem_of_nil in Hm.
Qed.

Lemma thread_exit_holds c t :
  moves (holds c) (thread_exit (W := W) (Heap := Heap) (Static := Static) (Q := Q) t).
Proof.
  unfold thread_exit, get_sockfd, upd_chan.
  repeat first [moves_step | by apply grows_holds | by apply holds_chan].
Qed.

(** ** A property of all that is queued *)

Definition all_queued (P : Msg Callback Data -> Prop) (s : process) : Prop :=
  forall c m, m ∈ queued c s -> P m.

Lemma all_queued_chan P c x s :
  (forall m, m ∈ pending x.(_msg_buffer) -> m ∈ queued c s) ->
  all_queued P s -> all_queued P (set_chan c x s).
Proof.
  intros Hx H c' m. unfold queued at 1. cbn [chans set_chan].
  destruct (decide (c = c')) as [->|Hne]; [rewrite fn_lookup_insert|rewrite fn_lookup_insert_ne by done].
  - intros Hm. by apply (H c'), Hx.
  - apply H.
Qed.

Lemma all_queued_insert P c m s :
  P m -> all_queued P s ->
  all_queued P (set_chan c (with_buffer (buf_insert m (s.(chans) c).(_msg_buffer)) (s.(chans) c)) s).
Proof.
  intros Hm H c' x. unfold queued. cbn [chans set_chan].
  destruct (decide (c = c')) as [->|Hne]; [|rewrite fn_lookup_insert_ne by done; apply H].
  rewrite fn_lookup_insert. cbn [_msg_buffer with_buffer]. set (q := _msg_buffer (chans s c')).
  destruct (insert_cases m q) as [->|[-> _]]; [|apply (H c')].
  intros [->|Hx]%elem_of_cons; [done|by apply (H c')].
Qed.

Lemma all_queued_take P c m (q : Q) s :
  pending (s.(chans) c).(_msg_buffer) ≡ₚ m :: pending q -> all_queued P s ->
  P m /\ all_queued P (put (Has := buffer_of c) q s).
Proof.
  intros Hp H. split; [apply (H c); unfold queued; rewrite Hp; by left|].
  apply all_queued_chan; [|done]. intros x Hx. unfold queued. rewrite Hp. by right.
Qed.

(** C14. A barrier that returns has delivered everything queued on its channel
    before it, and only then itself: what was sent during the call splits into
    a first part, with the text of each message that was pending, and a second
    part, with the barrier message from every writer thread. *)
Theorem barrier_delivers c t s s' :
  Channel.barrier fuel run_callback no_data c t s = (Ok tt, s') ->
  let id := barrier_rnd (left_first s.(world))
    (minstd_next (s.(rngs) t)) (minstd_next (minstd_next (s.(rngs) t))) in
  exists w1 w2, s'.(_wire) = s.(_wire) ++ w1 ++ w2 /\
    (forall m, m ∈ queued c s -> exists t' fd, (t', fd, m.(str_to_send)) ∈ w1) /\
    (forall t', t' ∈ writers (s.(chans) c).(_msg_buffer) ->
       exists fd, (t', fd, barrier_text (lit "4") id) ∈ w2).
Proof.
  intros Hrun id. destruct (barrier_spec c t s s' Hrun) as (s1 & [w1 Hw1] & [w2 Hw2] & Hm & Ht).
  exists w1, w2. split_and!.
  - by rewrite Hw2, Hw1, app_assoc.
  - intros m Hq. destruct (Hm m Hq) as (t' & w & fd & Hw & Hin). exists t', fd.
    rewrite Hw1 in Hw. by apply app_inv_head in Hw as ->.
  - intros t' Hq. destruct (Ht t' Hq) as (w & fd & Hw & Hin). exists fd.
    rewrite Hw2 in Hw. by apply app_inv_head in Hw as ->.
Qed.
End facts.

(** Steps that send nothing. *)
#[export] Hint Extern 0 (later _ _) => apply later_same; reflexivity : core.
