(* ===== verification/ChannelSafety.v ===== *)
(** * A channel with a safe client never meets undefined behaviour

    A writer thread dereferences the callback of the message it took, and the
    callback dereferences its packet.  [ReadyClient] is what a channel asks of
    its client: to say which packets a callback can take, and to keep, from its
    callbacks, to messages that can be handled.  Then no public operation of the
    channel, and no turn of a writer, goes outside the receive buffer, calls a
    null callback, or gives a callback a packet it cannot take. *)
From stdpp Require Import pretty functions.
From S2P Require Import Prelude CxxString Effects Sockets RecvBuf Barrier Uri Atomese.
From S2P Require Import Msg Channel ChannelFacts.

Section ready.
Context {W Heap Static Callback Data Q : Type} {SK : Sockets W}.
Context {AB : AsyncBuffer (Msg Callback Data) Q} {AL : AsyncBufferLaws AB}.
Context (fuel : nat).
Abbreviation process := (Channel.process (W := W) (Heap := Heap) (Static := Static) (Q := Q)).
Implicit Types (s : process).

(** ** The invariant *)

(** Whether a callback can take a packet. *)
Context (takes : Callback -> Data -> Prop).

Definition ready (m : Msg Callback Data) : Prop :=
  m.(noreply) = true \/ exists cb, m.(callback) = Some cb /\ takes cb m.(data).

Definition all_ready (s : process) : Prop := all_queued ready s.

Lemma ready_world (w : W) s : all_ready s -> all_ready (put w s).
Proof. done. Qed.
Lemma ready_heap (w : Heap) s : all_ready s -> all_ready (put w s).
Proof. done. Qed.
Lemma ready_tls t x s : all_ready s -> all_ready (set_tls t x s).
Proof. done. Qed.
Lemma ready_wire e s : all_ready s -> all_ready (add_wire e s).
Proof. done. Qed.
Lemma ready_counter n s : all_ready s -> all_ready (set_counter n s).
Proof. done. Qed.
Lemma ready_rng t n s : all_ready s -> all_ready (set_rng t n s).
Proof. done. Qed.
Lemma ready_statics x s : all_ready s -> all_ready (set_statics x s).
Proof. done. Qed.
Lemma ready_destroyed c s : all_ready s -> all_ready (add_destroyed c s).
Proof. done. Qed.
Lemma ready_chan c x s :
  (forall m, m ∈ pending x.(_msg_buffer) -> m ∈ pending (s.(chans) c).(_msg_buffer)) ->
  all_ready s -> all_ready (set_chan c x s).
Proof. apply all_queued_chan. Qed.
End ready.

#[export] Hint Resolve ready_world ready_heap ready_tls ready_wire ready_counter ready_rng
  ready_statics ready_destroyed : cog.
#[export] Hint Extern 2 (all_ready _ (set_chan _ _ _)) =>
  apply ready_chan; [cbn; rewrite ?open_pending, ?clear_stats_pending; auto using close_pending|] : cog.

(** The syntax-directed proof that an operation keeps it. *)
Ltac ready_step :=
  lazymatch goal with
  | |- keeps _ (recv_loop _ _ _ _ _ _ _) => apply recv_loop_keeps; [by auto with cog|]
  | |- keeps _ (get_sockfd _) => unfold get_sockfd
  | |- keeps _ (set_sockfd _ _) => unfold set_sockfd
  | |- keeps _ (get_chan _) => unfold get_chan
  | |- keeps _ (upd_chan _ _) => unfold upd_chan
  | |- keeps _ (throw_errno _) => unfold throw_errno
  | _ => keeps_step
  end.
Ltac ready_auto := repeat first [ready_step | solve [eauto with keeps]].

(** ** Talking and queueing *)

Section talk.
Context {W Heap Static Callback Data Q : Type} {SK : Sockets W}.
Context {AB : AsyncBuffer (Msg Callback Data) Q} {AL : AsyncBufferLaws AB}.
Context (fuel : nat) (takes : Callback -> Data -> Prop).
Abbreviation process := (Channel.process (W := W) (Heap := Heap) (Static := Static) (Q := Q)).
Abbreviation all_ready := (all_ready (W := W) (Heap := Heap) (Static := Static) takes).

Lemma do_recv_ready t garbage : keeps all_ready (do_recv fuel t garbage).
Proof. unfold do_recv, on_eof. ready_auto. Qed.

Lemma connect_loop_ready ps : forall norr, keeps all_ready (connect_loop ps norr).
Proof. induction ps as [|p ps IH]; intros norr; cbn [connect_loop]; ready_auto; apply IH. Qed.
Hint Resolve do_recv_ready connect_loop_ready : keeps.

Lemma do_send_ready c t m : keeps all_ready (do_send fuel c t m).
Proof. unfold do_send, open_sock. ready_auto. Qed.
Hint Resolve do_send_ready : keeps.

Lemma drop_sock_ready t : keeps all_ready (drop_sock t).
Proof. unfold drop_sock. ready_auto. Qed.

Lemma free_servinfo_ready c : keeps all_ready (free_servinfo c).
Proof. unfold free_servinfo. ready_auto. Qed.
Hint Resolve drop_sock_ready free_servinfo_ready : keeps.

Lemma open_connection_ready c t uri :
  proper (parse_uri uri) -> keeps all_ready (open_connection fuel c t uri).
Proof.
  intros Hp. unfold open_connection. destruct (negb _); [apply keeps_throw|].
  apply keeps_bind; [by apply keeps_lift|]. intros [u [host port]]. ready_auto.
Qed.

Lemma clear_stats_ready c : keeps all_ready (clear_stats c).
Proof. unfold clear_stats. ready_auto. Qed.

Lemma print_stats_ready c : keeps all_ready (print_stats c).
Proof. unfold print_stats. ready_auto. Qed.

Lemma thread_exit_ready t : stays all_ready (thread_exit t).
Proof.
  unfold thread_exit, get_sockfd, upd_chan. repeat stays_step. apply stays_modify.
  intros. by apply ready_chan.
Qed.

Lemma enqueue_msg_ready c cb nr m d :
  (nr = true \/ exists cb', cb = Some cb' /\ takes cb' d) ->
  keeps all_ready (enqueue_msg c cb nr m d).
Proof.
  intros Hr. unfold enqueue_msg, upd_chan. apply keeps_bind; [ready_auto|]. intros n. cbv zeta.
  apply keeps_bind; [ready_auto|]. intros _. apply keeps_modify. intros s Hs.
  apply all_queued_insert; [|done]. unfold ready.
  destruct (new_msg_fields cb nr m d n) as (-> & -> & _ & ->). exact Hr.
Qed.

Lemma all_ready_take c (s : process) m (q : Q) :
  all_ready s -> pending (the (Has := buffer_of c) s) ≡ₚ m :: pending q ->
  all_ready (put (Has := buffer_of c) q s).
Proof. intros Hs Hp. by apply (all_queued_take _ c m). Qed.

Lemma all_ready_pending c (s : process) m :
  all_ready s -> m ∈ pending (the (Has := buffer_of c) s) -> ready takes m.
Proof. intros Hs Hm. by apply (Hs c). Qed.
End talk.

#[export] Hint Resolve do_recv_ready do_send_ready drop_sock_ready free_servinfo_ready
  clear_stats_ready print_stats_ready : keeps.

(** ** The client *)

Class ReadyClient {W Heap Static Callback Data Q} {SK : Sockets W}
    {AB : AsyncBuffer (Msg Callback Data) Q}
    (run_callback : nat -> nat -> Callback -> str -> Data ->
      M (process (W := W) (Heap := Heap) (Static := Static) (Q := Q)) unit) := {
  takes : Callback -> Data -> Prop;
  callback_ready : forall c t cb reply d,
    takes cb d -> keeps (all_ready takes) (run_callback c t cb reply d);
}.

(** The public operations of a channel. *)
Inductive channel_op {Callback Data : Type} :=
| ChOpenConnection (uri : str)
| ChCloseConnection
| ChEnqueue (m : str) (d : Data) (handler : Callback)
| ChEnqueueNoreply (m : str)
| ChSynchro (m : str)
| ChBarrier
| ChFlush
| ChClearStats
| ChPrintStats.
Arguments channel_op : clear implicits.

Section client.
Context {W Heap Static Callback Data Q : Type} {SK : Sockets W}.
Context {AB : AsyncBuffer (Msg Callback Data) Q} {AL : AsyncBufferLaws AB}.
Context (fuel : nat) (no_data : Data).
Abbreviation process := (Channel.process (W := W) (Heap := Heap) (Static := Static) (Q := Q)).
Context (run_callback : nat -> nat -> Callback -> str -> Data -> M process unit).
Context {RC : ReadyClient run_callback}.
Abbreviation all_ready := (all_ready (W := W) (Heap := Heap) (Static := Static) takes).
Abbreviation handler := (reply_handler fuel run_callback).

Lemma handler_ready c t m : ready takes m -> keeps all_ready (handler c t m).
Proof.
  intros Hm. unfold reply_handler. apply keeps_bind; [ready_auto|]. intros _.
  destruct (noreply m) eqn:Hn; [ready_auto|]. apply keeps_bind; [ready_auto|]. intros reply.
  destruct Hm as [?|(cb & -> & Hp)]; [congruence|]. by apply callback_ready.
Qed.

Lemma flush_ready c : keeps all_ready (flush fuel run_callback c).
Proof.
  apply (flush_keeps (buffer_of c) (handler c) all_ready (ready takes) (all_ready_pending takes c)
    (all_ready_take takes c)). intros t m. apply handler_ready.
Qed.

Lemma run_barrier_ready c block :
  (forall m, block = Some m -> ready takes m) ->
  keeps all_ready (run_barrier fuel run_callback c block).
Proof.
  apply (run_barrier_keeps (buffer_of c) (handler c) all_ready (ready takes)
    (all_ready_pending takes c) (all_ready_take takes c)). intros t m. apply handler_ready.
Qed.

Lemma barrier_ready c t : keeps all_ready (barrier fuel run_callback no_data c t).
Proof. unfold barrier, draw_rnd, draw. ready_auto. apply run_barrier_ready. intros m [= <-]. by left. Qed.

Lemma close_connection_ready c : keeps all_ready (close_connection fuel run_callback c).
Proof. unfold close_connection. apply keeps_bind; [by apply run_barrier_ready|]. intros _. ready_auto. Qed.

Lemma destroy_ready c : keeps all_ready (destroy fuel run_callback c).
Proof. unfold destroy. apply keeps_bind; [apply close_connection_ready|]. intros _. ready_auto. Qed.

Lemma turn_ready c t m s r s2 :
  all_ready s -> turn_ends (H0 := buffer_of c) (handler c) t m s r s2 ->
  wp True (fun _ => (r, s2)) (fun _ => all_ready) (fun _ => all_ready) s.
Proof.
  intros Hs Ht. apply (turn_wp (buffer_of c) (handler c) all_ready (ready takes)
    (all_ready_pending takes c) (all_ready_take takes c)) with (t := t) (m := m); [|exact Ht|done].
  intros u x. apply handler_ready.
Qed.

Lemma enqueue_ready c m d cb : takes cb d -> keeps all_ready (enqueue c m d cb).
Proof. intros Hp. apply enqueue_msg_ready. right. eauto. Qed.

Lemma enqueue_noreply_ready c m : keeps all_ready (enqueue_noreply no_data c m).
Proof. apply enqueue_msg_ready. by left. Qed.

(** ** The operations *)

(** [synchro] is run with a handler that does no more than look at the reply. *)
Definition run_channel (c t : nat) (o : channel_op Callback Data) : M process unit :=
  match o with
  | ChOpenConnection uri => open_connection fuel c t uri
  | ChCloseConnection => close_connection fuel run_callback c
  | ChEnqueue m d h => enqueue c m d h
  | ChEnqueueNoreply m => enqueue_noreply no_data c m
  | ChSynchro m => synchro fuel c t m (fun _ => mret tt)
  | ChBarrier => barrier fuel run_callback no_data c t
  | ChFlush => flush fuel run_callback c
  | ChClearStats => clear_stats c
  | ChPrintStats => _ ← print_stats c; mret tt
  end.

(** What the caller has to see to. *)
Definition channel_pre (o : channel_op Callback Data) : Prop :=
  match o with
  | ChOpenConnection uri => proper (parse_uri uri)
  | ChEnqueue _ d h => takes h d
  | _ => True
  end.

(** Every public operation of a channel whose client keeps its side keeps all
    messages ready and never meets undefined behaviour. *)
Theorem channel_ops_ready c t o :
  channel_pre o -> keeps all_ready (run_channel c t o).
Proof.
  destruct o; cbn [run_channel channel_pre]; intros Hp.
  - by apply open_connection_ready.
  - apply close_connection_ready.
  - by apply enqueue_ready.
  - apply enqueue_noreply_ready.
  - unfold synchro. ready_auto.
  - apply barrier_ready.
  - apply flush_ready.
  - apply clear_stats_ready.
  - apply keeps_bind; [apply print_stats_ready|]. intros _. apply keeps_ret.
Qed.
End client.

#[export] Hint Resolve flush_ready barrier_ready close_connection_ready destroy_ready
  enqueue_noreply_ready : keeps.
