(* ===== verification/ChannelSocket.v ===== *)
(** * The sockets of the threads

    The life of the [thread_local] socket of [CogChannel]: opening it on the
    first send, the probe of [open_connection], and what is left behind when the
    CogServer goes away or the channel is closed. *)
From stdpp Require Import pretty functions.
From S2P Require Import Prelude CxxString Effects Sockets RecvBuf Barrier Uri Atomese.
From S2P Require Import Msg Channel.

Section sockets.
Context {W Heap Static Callback Data Q : Type} {SK : Sockets W}.
Context {AB : AsyncBuffer (Msg Callback Data) Q}.
Abbreviation process := (Channel.process (W := W) (Heap := Heap) (Static := Static) (Q := Q)).
Implicit Types (s : process).
Context (fuel : nat).

Definition sockfd_of (t : nat) s : Z := (s.(tls) t).(_sockfd).

Lemma proc_world_id s : set_world s.(world) s = s.
Proof. by destruct s. Qed.

Lemma get_sockfd_bind {A} t (k : Z -> M process A) s :
  (get_sockfd t ≫= k) s = k (sockfd_of t s) s.
Proof. done. Qed.

(** ** Receiving *)

(** C25. Whatever chunks the network makes of a reply, with idle bytes around
    each, [do_recv] of a channel returns exactly the reply line and consumes
    exactly its chunks. *)
Theorem do_recv_reassembles t s cs w body :
  sockfd_of t s <> 0%Z -> recvs (sockfd_of t s) (8 * 1024) s.(world) cs w ->
  carries cs (body ++ [nl]) -> plain body -> length cs <= fuel ->
  do_recv fuel t false s = (Ok (body ++ [nl]), set_world w s).
Proof.
  intros Hfd Hr Hc Hb Hl. unfold do_recv. rewrite get_sockfd_bind.
  rewrite (proj2 (Z.eqb_neq 0 _)) by done.
  by apply (recv_loop_reply (fun s => (s.(tls) t).(_sockfd)) (8 * 1024) (on_eof t)
    ltac:(done) cs fuel true [] s w body).
Qed.

Lemma chan_recv_wp t garbage s (Q0 : str -> process -> Prop) (E : exn -> process -> Prop) :
  (forall r w, sockfd_of t s <> 0%Z -> Q0 r (set_world w s)) ->
  (sockfd_of t s = 0%Z -> E no_open_socket s) ->
  (forall m w, E (talk_error m) (set_world w s)) ->
  (forall w, E closed_error (set_world w s)) ->
  wp True (do_recv fuel t garbage) Q0 E s.
Proof.
  intros HQ H0 HT HC. unfold do_recv. apply wp_bind, wp_gets.
  change (_sockfd (tls s t)) with (sockfd_of t s).
  destruct (Z.eqb_spec 0 (sockfd_of t s)) as [Heq|Hne]; [wp_step; by apply H0|].
  eapply (wp_mono _ _ (fun _ s' => exists w, s' = set_world w s) _ E); [| |done].
  - apply recv_loop_safe.
    + intros r' w' s' [w ->] _. by exists w'.
    + intros m s' [w ->]. apply HT.
    + intros s' [w ->]. unfold on_eof. repeat wp_step. apply wp_gets. apply wp_on_pure.
      intros [] w' _. apply HC.
    + exists (world s). by rewrite proc_world_id.
  - intros r s' [w ->]. apply HQ. congruence.
Qed.

(** C40. When the CogServer closes the connection, [do_recv] closes the
    descriptor and throws, but the thread keeps the closed descriptor: the next
    send, on any channel, goes to that number instead of opening a socket. *)
Theorem eof_leaves_stale_socket c t garbage s w :
  let fd := sockfd_of t s in
  fd <> 0%Z -> sys_recv fd (8 * 1024) s.(world) = (RecvEof, w) -> 0 < fuel ->
  exists s', do_recv fuel t garbage s = (Throw closed_error, s') /\
    s'.(world) = sys_close fd w /\ sockfd_of t s' = fd /\
    forall m, (do_send fuel c t m s').2.(world) = (sys_send fd m true s'.(world)).2.
Proof.
  intros fd Hfd Hrecv Hf. destruct fuel as [|n]; [lia|].
  exists (set_world (sys_close fd w) (set_world w s)). split_and!; [|done|done|].
  - unfold do_recv. rewrite get_sockfd_bind. fold fd. rewrite (proj2 (Z.eqb_neq 0 _)) by done.
    cbn [recv_loop]. erewrite bind_ok by done.
    erewrite bind_ok.
    2: { unfold on_pure. change (the s) with (world s). fold (sockfd_of t s). fold fd.
         by rewrite Hrecv. }
    done.
  - intros m. unfold do_send. rewrite get_sockfd_bind.
    change (sockfd_of t (set_world (sys_close fd w) (set_world w s))) with fd.
    rewrite (proj2 (Z.eqb_neq 0 _)) by done. erewrite bind_ok by done.
    rewrite get_sockfd_bind. change (sockfd_of t (set_world (sys_close fd w) (set_world w s))) with fd.
    unfold mbind, M_bind, on_pure. change (the ?x) with (world x). cbn [world set_world].
    destruct (sys_send fd m true (sys_close fd w)) as [rc w2].
    by destruct (rc <? 0)%Z.
Qed.

(** ** One socket per thread, for all channels *)

(** A thread that has a socket uses it for every channel: a send or a
    synchronous request on channel [c1] is the same as on [c2], even when the
    socket was opened for the one and the other is connected elsewhere. *)
Theorem socket_shared_by_channels c1 c2 t s m A (handler : str -> M process A) :
  sockfd_of t s <> 0%Z ->
  do_send fuel c1 t m s = do_send fuel c2 t m s /\
  synchro fuel c1 t m handler s = synchro fuel c2 t m handler s.
Proof.
  intros Hfd.
  assert (do_send fuel c1 t m s = do_send fuel c2 t m s) as Heq.
  { unfold do_send. rewrite !get_sockfd_bind. by rewrite (proj2 (Z.eqb_neq 0 _)). }
  split; [done|]. unfold synchro. by apply bind_ext'.
Qed.

(** A send on a channel that is not connected, from a thread without a
    socket, throws and leaves the descriptor -1 in the thread; from then on
    every send of this thread throws, also on channels that are connected,
    because -1 is taken for an open socket. *)
Theorem closed_channel_poisons_thread c t m s :
  (forall m b w, ((sys_send (-1) m b w).1 < 0)%Z) ->
  (s.(chans) c).(_servinfo) = None -> sockfd_of t s = 0%Z ->
  exists e s1, do_send fuel c t m s = (Throw (talk_error e), s1) /\
    sockfd_of t s1 = (-1)%Z /\
    forall c' m' s2, sockfd_of t s2 = (-1)%Z -> exists e' s3,
      do_send fuel c' t m' s2 = (Throw (talk_error e'), s3) /\ sockfd_of t s3 = (-1)%Z.
Proof.
  intros Hbad Hserv Hfd.
  assert (forall c' m' s2, sockfd_of t s2 = (-1)%Z -> exists e' s3,
      do_send fuel c' t m' s2 = (Throw (talk_error e'), s3) /\ sockfd_of t s3 = (-1)%Z) as Hsend.
  { intros c' m' s2 H2. unfold do_send. rewrite get_sockfd_bind, H2.
    change (0 =? -1)%Z with false. erewrite bind_ok by done. rewrite get_sockfd_bind, H2.
    destruct (sys_send (-1) m' true s2.(world)) as [rc w2] eqn:Hs.
    pose proof (Hbad m' true s2.(world)) as Hrc. rewrite Hs in Hrc.
    erewrite bind_ok. 2: { unfold on_pure. change (the s2) with (world s2). by rewrite Hs. }
    rewrite (proj2 (Z.ltb_lt _ _)) by done. eexists _, (set_world w2 s2). by split. }
  set (s0 := set_tls t (mkTlso (-1) (_owner (tls s t))) s).
  assert (sockfd_of t s0 = (-1)%Z) as H0.
  { unfold sockfd_of, s0. cbn [tls set_tls]. by rewrite fn_lookup_insert. }
  destruct (Hsend c m s0 H0) as (e & s1 & Hrun & H1).
  exists e, s1. split_and!; [|done|done]. rewrite <- Hrun.
  unfold do_send. rewrite get_sockfd_bind, Hfd, get_sockfd_bind, H0.
  change (0 =? 0)%Z with true. change (0 =? -1)%Z with false. cbv iota.
  unfold mbind at 1 3, M_bind at 1 3. unfold open_sock.
  unfold mbind at 1, M_bind at 1. rewrite (bind_ok _ _ s (s.(chans) c) s) by done.
  rewrite Hserv. done.
Qed.

(** ** The probe of [open_connection] *)
Context (socket_nonzero : forall p w, (sys_socket p w).1 <> 0%Z).

Lemma connect_loop_wp ps : forall norr s,
  wp False (connect_loop ps norr)
    (fun r s' => (exists w, s' = set_world w s) /\ forall fd, r.1 = Some fd -> fd <> 0%Z)
    (fun _ _ => False) s.
Proof.
  induction ps as [|p ps IH]; intros norr s; cbn [connect_loop].
  { apply wp_ret. split; [exists s.(world); by rewrite proc_world_id|done]. }
  wp_step. apply wp_on_pure. intros fd w Hs.
  pose proof (socket_nonzero p s.(world)) as Hnz. change (the s) with (world s) in Hs.
  rewrite Hs in Hnz. cbn [fst] in Hnz.
  assert (forall n w, wp False (connect_loop ps n)
    (fun r s' => (exists w, s' = set_world w s) /\ forall fd, r.1 = Some fd -> fd <> 0%Z)
    (fun _ _ => False) (set_world w s)) as IH'.
  { intros n w'. eapply wp_mono; [apply IH| |done]. intros r s' [[w'' ->] H]. split; [by exists w''|done]. }
  destruct (fd <? 0)%Z; [apply IH'|].
  wp_step. apply wp_on_pure. intros rc w1 _. destruct (rc =? 0)%Z.
  - apply wp_ret. split; [by exists w1|]. by intros ? [= <-].
  - repeat wp_step. apply wp_on_pure. intros [] w2 _. apply IH'.
Qed.

(** What an operation on channel [c] and thread [t] may leave. *)
Definition nsocks_of (c : nat) s : Z := (s.(chans) c).(_nsocks).
Definition servinfo_of (c : nat) s := (s.(chans) c).(_servinfo).

Definition io_error (e : exn) : Prop := exists fmt args, e = IOException fmt args.

(** Opening the thread's socket for a connected channel: on success the thread
    has a socket and the channel counts one more. *)
Lemma open_sock_wp c t s i :
  servinfo_of c s = Some i ->
  wp True (open_sock fuel c t)
    (fun fd s' => fd <> 0%Z /\ servinfo_of c s' = Some i /\ nsocks_of c s' = (nsocks_of c s + 1)%Z /\
       s'.(tls) t = mkTlso fd (Some c))
    (fun e s' => io_error e /\ servinfo_of c s' = Some i) s.
Proof.
  intros Hi. unfold open_sock. apply wp_bind, wp_gets. unfold servinfo_of in Hi. rewrite Hi.
  wp_step. eapply wp_mono; [apply wp_weaken, connect_loop_wp| |done].
  intros [found norr] s1 [[w ->] Hnz]. cbn [fst snd] in *. destruct found as [fd|].
  2: { wp_step. split; [by do 2 eexists|done]. }
  specialize (Hnz fd eq_refl). wp_step. apply wp_on_pure. intros rc1 w1 _.
  wp_step. apply wp_on_pure. intros rc2 w2 _. wp_step. apply wp_on_pure. intros rc3 w3 _.
  destruct (rc3 <? 0)%Z.
  { repeat wp_step. split; [by do 2 eexists|done]. }
  repeat wp_step. apply chan_recv_wp.
  - intros r w4 _. unfold upd_chan. repeat wp_step.
    unfold servinfo_of, nsocks_of. cbn [chans set_chan tls]. rewrite !fn_lookup_insert.
    split_and!; try done. cbn [tls set_tls set_world put process_world]. by rewrite fn_lookup_insert.
  - intros H0. exfalso. unfold sockfd_of in H0. cbn [tls set_tls] in H0.
    by rewrite fn_lookup_insert in H0.
  - intros m w4. split; [by do 2 eexists|done].
  - intros w4. split; [by do 2 eexists|done].
Qed.

Lemma chan_send_wp c t m s i :
  servinfo_of c s = Some i -> sockfd_of t s = 0%Z ->
  wp True (do_send fuel c t m)
    (fun _ s' => sockfd_of t s' <> 0%Z /\ servinfo_of c s' = Some i /\
                 nsocks_of c s' = (nsocks_of c s + 1)%Z /\ (s'.(tls) t).(_owner) = Some c)
    (fun e s' => io_error e /\ servinfo_of c s' = Some i) s.
Proof.
  intros Hi Hfd. unfold do_send. apply wp_bind, wp_gets.
  change (_sockfd (tls s t)) with (sockfd_of t s). rewrite Hfd. change (0 =? 0)%Z with true. cbv iota.
  apply wp_bind, wp_bind. eapply wp_mono; [by apply open_sock_wp| |done].
  intros fd s1 (Hnz & Hi1 & Hn1 & Ht1). unfold set_sockfd, get_sockfd. wp_step. wp_step. wp_step. wp_step.
  apply wp_on_pure. intros rc w _. destruct (rc <? 0)%Z.
  - unfold throw_errno. repeat wp_step. split; [by do 2 eexists|done].
  - wp_step. unfold sockfd_of. cbn [tls set_tls add_wire put process_world set_world].
    rewrite fn_lookup_insert. split_and!; [done..|]. cbn [_owner]. by rewrite Ht1.
Qed.

Lemma drop_sock_wp N t s (E : exn -> process -> Prop) :
  wp N (drop_sock t) (fun _ s' => sockfd_of t s' = 0%Z /\ s'.(chans) = s.(chans)) E s.
Proof.
  unfold drop_sock. apply wp_bind, wp_gets. change (_sockfd (tls s t)) with (sockfd_of t s).
  destruct (Z.eqb_spec 0 (sockfd_of t s)); cbn [when negb].
  - by apply wp_ret.
  - apply wp_bind, wp_on_pure. intros [] w _. unfold set_sockfd. wp_step. split; [|done].
    unfold sockfd_of. cbn [tls set_tls]. by rewrite fn_lookup_insert.
Qed.

Lemma free_servinfo_wp N c s (E : exn -> process -> Prop) :
  wp N (free_servinfo c) (fun _ s' => servinfo_of c s' = None) E s.
Proof.
  unfold free_servinfo. apply wp_bind, wp_gets. apply wp_bind.
  assert (forall s, wp N (upd_chan c (with_servinfo None)) (fun _ s' => servinfo_of c s' = None) E s) as H.
  { intros s1. unfold upd_chan. wp_step. unfold servinfo_of. cbn [chans set_chan].
    by rewrite fn_lookup_insert. }
  destruct (_servinfo (chans s c)); [apply wp_on_pure; intros [] w _; apply H|wp_step; apply H].
Qed.

(** C34. [open_connection], from a thread without a socket: if it returns, the
    channel is connected and the thread has no socket any more, since the
    probe's socket is closed, but the channel's count of open sockets is one
    higher than before; if the probe fails, the channel is not connected and
    the thread has no socket; if the host is unknown, the channel stays as it
    was. *)
Theorem open_connection_outcomes c t uri u hp s :
  strncmp_eq uri scheme = true -> parse_uri uri = Ok (u, hp) -> sockfd_of t s = 0%Z ->
  wp True (open_connection fuel c t uri)
    (fun _ s' => servinfo_of c s' <> None /\ sockfd_of t s' = 0%Z /\
                 nsocks_of c s' = (nsocks_of c s + 1)%Z)
    (fun e s' => sockfd_of t s' = 0%Z /\
       (servinfo_of c s' = None \/
        servinfo_of c s' = servinfo_of c s /\
        exists a, e = IOException "Unknown host %s: %s" a)) s.
Proof.
  intros Hs Hp Hfd. unfold open_connection. rewrite Hs. cbn [negb].
  apply wp_bind. unfold wp at 1, lift_outcome. rewrite Hp. destruct hp as [host port].
  unfold upd_chan. wp_step. wp_step. wp_step. apply wp_on_pure. intros [rc i] w _.
  destruct (rc =? 0)%Z; cbn [negb].
  2: { wp_step. split; [done|]. right. split; [|eauto].
       unfold servinfo_of. cbn [chans set_chan put process_world set_world]. by rewrite fn_lookup_insert. }
  wp_step. wp_step.
  match goal with |- wp _ _ _ _ ?x => set (s1 := x) end.
  assert (servinfo_of c s1 = Some i) as Hi1.
  { unfold servinfo_of, s1. cbn [chans set_chan]. by rewrite fn_lookup_insert. }
  assert (nsocks_of c s1 = nsocks_of c s) as Hn1.
  { unfold nsocks_of, s1. cbn [chans set_chan put process_world set_world].
    by rewrite !fn_lookup_insert. }
  apply wp_bind, wp_on_ioexception.
  eapply (wp_mono _ _ (fun _ s' => servinfo_of c s' = Some i /\ nsocks_of c s' = (nsocks_of c s + 1)%Z)
    _ (fun e _ => io_error e)).
  - apply wp_bind. eapply wp_mono; [by apply (chan_send_wp c t _ s1 i)| |].
    + intros [] s2 (Hnz & Hi2 & Hn2 & _). apply wp_bind, chan_recv_wp.
      * intros r w1 _. wp_step. rewrite <- Hn1. done.
      * done.
      * intros m w1. by do 2 eexists.
      * intros w1. by do 2 eexists.
    + by intros e s2 [? _].
  - intros [] s2 [Hi2 Hn2]. wp_step. eapply wp_mono; [apply drop_sock_wp| |intros ? ? H; exact H].
    intros [] s3 [Hfd3 Hc3]. wp_step. split_and!.
    + unfold servinfo_of. cbn [chans set_chan]. rewrite fn_lookup_insert. cbn [_servinfo with_buffer].
      unfold servinfo_of in Hi2. rewrite Hc3, Hi2. done.
    + done.
    + unfold nsocks_of. cbn [chans set_chan]. rewrite fn_lookup_insert. cbn [_nsocks with_buffer].
      rewrite Hc3. exact Hn2.
  - intros e s2 (fmt & args & ->). apply wp_bind.
    eapply wp_mono; [apply free_servinfo_wp| |intros ? ? H; exact H]. intros [] s3 H3.
    eapply wp_mono; [apply drop_sock_wp| |intros ? ? H; exact H]. intros [] s4 [Hfd4 Hc4].
    split; [done|]. left. unfold servinfo_of. by rewrite Hc4.
Qed.

(** ** The end of a thread *)

(** C35. A thread that opened its socket for a channel, and outlives the channel,
    meets undefined behaviour when it ends: the destructor of its socket
    decrements the count of a channel that has been destroyed.  This is so for
    any thread of the program that has made a synchronous request. *)
Theorem exit_after_destruction c t m s s1 s2 :
  servinfo_of c s <> None -> sockfd_of t s = 0%Z ->
  do_send fuel c t m s = (Ok tt, s1) ->
  s2.(tls) t = s1.(tls) t -> c ∈ s2.(_destroyed) ->
  (thread_exit t s2).1 = Undef.
Proof.
  intros Hi Hfd Hrun Ht Hd. destruct (servinfo_of c s) as [i|] eqn:Hi'; [|done].
  pose proof (chan_send_wp c t m s i Hi' Hfd) as Hw. unfold wp in Hw. rewrite Hrun in Hw.
  destruct Hw as (Hnz & _ & _ & Ho). unfold thread_exit. rewrite get_sockfd_bind.
  unfold sockfd_of in *. rewrite Ht. rewrite (proj2 (Z.eqb_neq _ 0)) by done. cbn [negb when].
  erewrite bind_ok by done. erewrite bind_ok by done.
  cbn [tls set_world put process_world _destroyed]. rewrite Ht, Ho.
  by rewrite bool_decide_eq_true_2.
Qed.

(** A thread that ends while its channel lives gives its socket back and is no
    longer counted. *)
Lemma exit_counted c t s :
  sockfd_of t s <> 0%Z -> (s.(tls) t).(_owner) = Some c -> c ∉ s.(_destroyed) ->
  exists s', thread_exit t s = (Ok tt, s') /\ nsocks_of c s' = (nsocks_of c s - 1)%Z /\
    s'.(world) = sys_close (sockfd_of t s) s.(world).
Proof.
  intros Hnz Ho Hd. unfold thread_exit. rewrite get_sockfd_bind.
  rewrite (proj2 (Z.eqb_neq _ 0)) by done. cbn [negb when].
  erewrite bind_ok by done. erewrite bind_ok by done.
  cbn [tls set_world put process_world _destroyed]. rewrite Ho, bool_decide_eq_false_2 by done.
  eexists. split; [done|]. split; [|done]. unfold nsocks_of. cbn [chans set_chan].
  by rewrite fn_lookup_insert.
Qed.
End sockets.
