(* ===== verification/ChannelSync.v ===== *)
(** * Each thread's conversation stays in step

    The threads of a channel talk to the CogServer over a descriptor each.  Over
    descriptors that do not share replies, and as long as the flags of the queued messages
    tell which commands are answered, no turn of a writer leaves a reply
    unread, and each callback gets the reply to its own request. *)
From stdpp Require Import pretty functions.
From S2P Require Import Prelude CxxString Effects Sockets RecvBuf Barrier Uri Atomese.
From S2P Require Import ListUtils SimpleStorage SimpleIO SimpleSafety SimpleSync.
From S2P Require Import Msg Channel ChannelFacts ChannelSocket.

Section sync.
Context {W Heap Static Callback Data Q : Type} {SK : Sockets W}.
Context {AB : AsyncBuffer (Msg Callback Data) Q}.
Context (fuel : nat) {SS : SyncServer SK fuel} {DS : Descriptors SK SS}.
Abbreviation process := (Channel.process (W := W) (Heap := Heap) (Static := Static) (Q := Q)).
Implicit Types (s : process).

(** ** The invariant of the sockets *)

(** No thread that has a socket has a reply to read. *)
Definition all_in_sync (s : process) : Prop :=
  forall t, sockfd_of t s <> 0%Z -> inbox (sockfd_of t s) s.(world) = [].

(** The same, but for thread [t], which is talking on [fd]. *)
Definition others_in_sync (fd : Z) (s : process) : Prop :=
  forall t, sockfd_of t s <> 0%Z -> sockfd_of t s <> fd ->
    inbox (sockfd_of t s) s.(world) = [].

Lemma in_sync_others fd s : all_in_sync s -> others_in_sync fd s.
Proof. intros H t Ht _. by apply H. Qed.

Lemma others_in_sync_done fd s :
  others_in_sync fd s -> inbox fd s.(world) = [] -> all_in_sync s.
Proof. intros H Hfd t Ht. destruct (decide (sockfd_of t s = fd)) as [->|]; [done|by apply H]. Qed.

Lemma others_same_but fd s w :
  same_but fd s.(world) w -> others_in_sync fd s -> others_in_sync fd (set_world w s).
Proof. intros Hw H t Ht Hne. cbn [world set_world]. rewrite Hw by done. by apply H. Qed.

Lemma in_sync_same s w : same_inbox s.(world) w -> all_in_sync s -> all_in_sync (set_world w s).
Proof. intros Hw H t Ht. cbn [world set_world]. rewrite Hw. by apply H. Qed.

Lemma in_sync_set_tls t x s :
  (x.(_sockfd) <> 0%Z -> inbox x.(_sockfd) s.(world) = []) ->
  all_in_sync s -> all_in_sync (set_tls t x s).
Proof.
  intros Hx H u. unfold sockfd_of. cbn [tls set_tls world].
  destruct (decide (t = u)) as [->|]; [by rewrite fn_lookup_insert|].
  rewrite fn_lookup_insert_ne by done. apply H.
Qed.

Lemma others_set_tls t x s :
  others_in_sync x.(_sockfd) s -> others_in_sync x.(_sockfd) (set_tls t x s).
Proof.
  intros H u. unfold sockfd_of. cbn [tls set_tls world].
  destruct (decide (t = u)) as [->|]; [by rewrite fn_lookup_insert|].
  rewrite fn_lookup_insert_ne by done. apply H.
Qed.

(** ** Opening a socket *)

Lemma connect_loop_sync ps : forall norr s, all_in_sync s ->
  wp False (connect_loop ps norr)
    (fun r s' => match r.1 with
                 | Some fd => others_in_sync fd s' /\ inbox fd s'.(world) = []
                 | None => all_in_sync s'
                 end)
    (fun _ _ => False) s.
Proof.
  induction ps as [|p ps IH]; intros norr s Hs; cbn [connect_loop]; [by apply wp_ret|].
  wp_step. apply wp_on_pure. intros fd w Hw.
  assert (same_inbox s.(world) w) as Hsame.
  { pose proof (socket_inbox p (world s)) as H. change (the s) with (world s) in Hw.
    by rewrite Hw in H. }
  apply (in_sync_same s w Hsame) in Hs.
  destruct (fd <? 0)%Z; [by apply IH|].
  wp_step. apply wp_on_pure. intros rc w1 Hc. cbn [the put process_world set_world world] in Hc.
  assert (others_in_sync fd (set_world w1 (set_world w s))) as Ho.
  { apply others_same_but; [by eapply connect_others|by apply in_sync_others]. }
  destruct (Z.eqb_spec rc 0) as [->|Hrc].
  - apply wp_ret. split; [done|]. by eapply connected_empty.
  - repeat wp_step. apply wp_on_pure. intros [] w2 [= <-]. apply IH.
    eapply others_in_sync_done; [|apply closed_empty].
    apply others_same_but; [apply close_others|done].
Qed.

(** The prompt is thrown away: one read with [garbage] takes one chunk. *)
Lemma recv_prompt (N : Prop) t s g (Q0 : str -> process -> Prop) (E : exn -> process -> Prop) :
  (fuel = 0 -> N) -> sockfd_of t s <> 0%Z -> inbox (sockfd_of t s) s.(world) = [g] -> scrub_ref g <> None ->
  (forall r w, same_but (sockfd_of t s) s.(world) w -> inbox (sockfd_of t s) w = [] ->
     Q0 r (set_world w s)) ->
  wp N (do_recv fuel t true) Q0 E s.
Proof.
  intros HN Hfd Hin Hg HQ. unfold do_recv. apply wp_bind, wp_gets.
  change (_sockfd (tls s t)) with (sockfd_of t s). rewrite (proj2 (Z.eqb_neq 0 _)) by done.
  apply (recv_loop_prompt _ _ _ _ N g); [lia|exact HN|exact Hin|done|].
  intros r w Hr Hw. apply HQ; [by eapply recv_others|done].
Qed.

(** A thread without a socket opens one, with nothing left to read on it. *)
Lemma open_sock_sync (N : Prop) c t s : (fuel = 0 -> N) -> all_in_sync s ->
  wp N (open_sock fuel c t)
    (fun fd s' => all_in_sync s' /\ fd <> 0%Z /\ inbox fd s'.(world) = [])
    (fun _ s' => all_in_sync s') s.
Proof.
  intros HN Hs. unfold open_sock. apply wp_bind, wp_gets.
  destruct (_servinfo (chans s c)) as [i|].
  2: { apply wp_ret. split_and!; [done..|]. by apply invalid_empty. }
  wp_step. eapply wp_mono; [apply wp_weaken, connect_loop_sync, Hs| |done].
  intros [found norr] s1 H1. cbn [fst snd] in *. destruct found as [fd|]; [|by wp_step].
  destruct H1 as [Ho Hfd]. wp_step. apply wp_on_pure. intros rc1 w1 Hw1.
  wp_step. apply wp_on_pure. intros rc2 w2 Hw2. wp_step. apply wp_on_pure. intros rc w3 Hw3.
  change (the ?x) with (world x) in Hw1, Hw2, Hw3. cbn [put process_world set_world world] in *.
  assert (same_inbox s1.(world) w2) as Hsame.
  { intros fd'. pose proof (setsockopt_inbox fd TCP_NODELAY (world s1) fd') as A.
    rewrite Hw1 in A. pose proof (setsockopt_inbox fd TCP_QUICKACK w1 fd') as B.
    rewrite Hw2 in B. cbn [snd] in A, B. congruence. }
  set (s2 := set_world w2 (set_world w1 s1)).
  assert (others_in_sync fd s2) as Ho2.
  { intros u Hu Hne. cbn [world set_world s2]. rewrite Hsame. by apply Ho. }
  assert (inbox fd w2 = []) as Hfd2 by (by rewrite Hsame).
  assert (others_in_sync fd (set_world w3 s2)) as Ho3.
  { apply others_same_but; [by eapply send_others|done]. }
  destruct (Z.ltb_spec rc 0) as [Hrc|Hrc].
  { repeat wp_step. eapply others_in_sync_done; [done|]. cbn [world set_world].
    rewrite (send_silent _ _ _ _ _ _ Hw3) by auto. done. }
  destruct (greeting _ _ _ _ _ Hw3 Hrc Hfd2) as (g & Hg & Hscrub).
  wp_step. wp_step. set (s3 := set_tls t (mkTlso fd (Some c)) (set_world w3 s2)).
  assert (sockfd_of t s3 = fd) as Ht by (unfold sockfd_of, s3; cbn [tls set_tls]; by rewrite fn_lookup_insert).
  apply wp_bind. destruct (decide (fd = 0%Z)) as [Hz|Hnz].
  { unfold do_recv. apply wp_bind, wp_gets. change (_sockfd (tls s3 t)) with (sockfd_of t s3).
    rewrite Ht, Hz. apply wp_throw. intros u Hu.
    apply (others_set_tls t (mkTlso fd (Some c)) (set_world w3 s2) Ho3 u Hu).
    intros Heq. apply Hu. by rewrite <- Hz at 1. }
  apply (recv_prompt N t s3 g); [done|by rewrite Ht|by rewrite Ht|done|]. rewrite Ht.
  intros r w4 Hw4 Hin4. unfold upd_chan. repeat wp_step.
  assert (all_in_sync (set_world w4 s3)) as Hfin; [|by split_and!].
  eapply others_in_sync_done; [|exact Hin4]. apply others_same_but; [done|].
  by apply (others_set_tls t (mkTlso fd (Some c))).
Qed.

(** ** Sending and reading *)

(** A send of thread [t]: what it leaves to read is the reply, if there is one. *)
Lemma do_send_sync (N : Prop) c t m s :
  (fuel = 0 -> N) -> all_in_sync s ->
  wp N (do_send fuel c t m)
    (fun _ s' => others_in_sync (sockfd_of t s') s' /\
       (is_silent m = true -> inbox (sockfd_of t s') s'.(world) = []) /\
       (expects_reply m = true -> exists w cs, inbox (sockfd_of t s') s'.(world) = cs /\
          carries cs (answer m w ++ [nl]) /\ length cs <= fuel))
    (fun _ s' => all_in_sync s') s.
Proof.
  intros HN Hs. unfold do_send. apply wp_bind, wp_gets. apply wp_bind.
  change (_sockfd (tls s t)) with (sockfd_of t s).
  assert (forall s1, all_in_sync s1 -> inbox (sockfd_of t s1) s1.(world) = [] ->
    wp N (fd ← get_sockfd t; rc ← on_pure (sys_send fd m true);
             if (rc <? 0)%Z then throw_errno "Unable to talk to cogserver: %s"
             else modify (add_wire (t, fd, m)))
      (fun _ s' => others_in_sync (sockfd_of t s') s' /\
         (is_silent m = true -> inbox (sockfd_of t s') s'.(world) = []) /\
         (expects_reply m = true -> exists w cs, inbox (sockfd_of t s') s'.(world) = cs /\
            carries cs (answer m w ++ [nl]) /\ length cs <= fuel))
      (fun _ s' => all_in_sync s') s1) as Hgen.
  { intros s1 Hs1 Hin. apply wp_bind, wp_gets, wp_bind, wp_on_pure.
    change (_sockfd (tls s1 t)) with (sockfd_of t s1). change (the s1) with (world s1).
    intros rc w Hw.
    assert (others_in_sync (sockfd_of t s1) (set_world w s1)) as Ho.
    { apply others_same_but; [by eapply send_others|by apply in_sync_others]. }
    destruct (Z.ltb_spec rc 0) as [Hrc|Hrc].
    - unfold throw_errno. repeat wp_step. eapply others_in_sync_done; [done|]. cbn.
      rewrite (send_silent _ _ _ _ _ _ Hw) by auto. done.
    - wp_step. split_and!; [exact Ho| |]; cbn.
      + intros Hsil. rewrite (send_silent _ _ _ _ _ _ Hw) by auto. done.
      + intros Hexp. destruct (send_answered _ _ _ _ _ _ Hw Hrc Hexp) as (cs & Hcs & Hc & Hl).
        rewrite Hin in Hcs. by exists s1.(world), cs. }
  destruct (Z.eqb_spec 0 (sockfd_of t s)) as [Hz|Hnz]; [|wp_step; apply Hgen; auto].
  apply wp_bind. eapply wp_mono; [by apply open_sock_sync| |done].
  intros fd s1 (Hs1 & Hnz & Hfd). unfold set_sockfd. wp_step.
  match goal with |- wp _ _ _ _ ?x => set (s2 := x) end.
  assert (sockfd_of t s2 = fd) as Ht.
  { unfold sockfd_of, s2. cbn [tls set_tls]. by rewrite fn_lookup_insert. }
  apply Hgen; [by apply in_sync_set_tls|by rewrite Ht].
Qed.

(** A read when one line is under way returns that line. *)
Lemma do_recv_sync (N : Prop) t s cs body (Q0 : str -> process -> Prop) (E : exn -> process -> Prop) :
  others_in_sync (sockfd_of t s) s -> inbox (sockfd_of t s) s.(world) = cs ->
  carries cs (body ++ [nl]) -> plain body -> length cs <= fuel ->
  (forall w, all_in_sync (set_world w s) -> Q0 (body ++ [nl]) (set_world w s)) ->
  (sockfd_of t s = 0%Z -> all_in_sync s -> E no_open_socket s) ->
  wp N (do_recv fuel t false) Q0 E s.
Proof.
  intros Ho Hin Hc Hb Hl HQ HE. destruct (decide (sockfd_of t s = 0%Z)) as [Hz|Hnz].
  { unfold do_recv. apply wp_bind, wp_gets. change (_sockfd (tls s t)) with (sockfd_of t s).
    rewrite Hz. apply wp_throw, HE; [done|]. intros u Hu. apply Ho; [done|]. by rewrite Hz. }
  destruct (inbox_recvs fuel (8 * 1024) cs _ _ ltac:(lia) Hin) as (w & Hr & Hw).
  unfold wp.
  assert (do_recv fuel t false s = (Ok (body ++ [nl]), set_world w s)) as ->.
  { unfold do_recv. rewrite get_sockfd_bind. rewrite (proj2 (Z.eqb_neq 0 _)) by done.
    by apply (recv_loop_reply (fun s => (s.(tls) t).(_sockfd)) (8 * 1024) (on_eof t)
      ltac:(done) cs fuel true [] s w body). }
  apply HQ. eapply others_in_sync_done; [|exact Hw]. apply others_same_but; [|done].
  clear - Hr DS. revert Hr. generalize (sockfd_of t s) as fd, (world s) as w0. intros fd w0.
  induction 1 as [w0|w0 d w1 ds w2 H _ IH]; [done|]. intros fd' Hne.
  rewrite IH by done. by eapply recv_others.
Qed.

(** A request and its reply: on return the reply is read, whole. *)
Lemma exchange_sync c t m s (Q0 : str -> process -> Prop) :
  all_in_sync s -> expects_reply m = true ->
  (forall w s', all_in_sync s' -> Q0 (answer m w ++ [nl]) s') ->
  wp True (do_send fuel c t m;; do_recv fuel t false) Q0 (fun _ s' => all_in_sync s') s.
Proof.
  intros Hs Hm HQ. apply wp_bind. eapply wp_mono; [by apply do_send_sync| |done].
  intros [] s1 (Ho & _ & H). destruct (H Hm) as (w & cs & Hin & Hc & Hl).
  eapply do_recv_sync; try done; [apply answer_plain|]. intros w1 H1. by apply HQ.
Qed.

(** ** Opening a channel

    The probe is answered by something the code throws away, on a socket that
    is closed afterwards. *)

Lemma do_recv_others t garbage fd s :
  sockfd_of t s = fd -> others_in_sync fd s ->
  wp True (do_recv fuel t garbage) (fun _ s' => sockfd_of t s' = fd /\ others_in_sync fd s')
    (fun e s' => io_error e /\ sockfd_of t s' = fd /\ others_in_sync fd s') s.
Proof.
  intros Hfd Ho. unfold do_recv. apply wp_bind, wp_gets.
  destruct (0 =? _)%Z; [apply wp_throw; split_and!; [by do 2 eexists|done..]|].
  apply recv_loop_safe; [| | |done].
  - intros r w s1 [H1 H2] Hr. change (_sockfd (tls s1 t)) with (sockfd_of t s1) in Hr.
    rewrite H1 in Hr. split; [done|]. by apply others_same_but; [eapply recv_others|].
  - intros m s1 H1. split; [by do 2 eexists|done].
  - intros s1 [H1 H2]. unfold on_eof. apply wp_bind, wp_gets.
    change (_sockfd (tls s1 t)) with (sockfd_of t s1). rewrite H1. apply wp_on_pure.
    intros [] w [= <-]. split_and!; [by do 2 eexists|done|].
    by apply others_same_but; [apply close_others|].
Qed.

Lemma drop_sock_sync t s :
  others_in_sync (sockfd_of t s) s ->
  wp True (drop_sock t) (fun _ s' => all_in_sync s') (fun _ _ => False) s.
Proof.
  intros Ho. unfold drop_sock. apply wp_bind, wp_gets.
  change (_sockfd (tls s t)) with (sockfd_of t s).
  destruct (Z.eqb_spec 0 (sockfd_of t s)) as [Hz|Hnz]; cbn [when negb].
  - apply wp_ret. intros u Hu. apply Ho; [done|]. by rewrite <- Hz.
  - apply wp_bind, wp_on_pure. intros [] w [= <-]. unfold set_sockfd. wp_step.
    apply in_sync_set_tls; [done|]. eapply others_in_sync_done; [|apply closed_empty].
    by apply others_same_but; [apply close_others|].
Qed.

Lemma free_servinfo_world c s :
  exists w, (free_servinfo c s).1 = Ok tt /\ (free_servinfo c s).2.(world) = w /\
    same_inbox s.(world) w /\ (free_servinfo c s).2.(tls) = s.(tls).
Proof.
  unfold free_servinfo, get_chan, upd_chan, on_pure, modify, gets, mbind, M_bind, mret, M_ret.
  destruct (_servinfo (chans s c)); eexists; split_and!; try done.
  apply freeaddrinfo_inbox.
Qed.

Lemma free_servinfo_others c fd s :
  others_in_sync fd s ->
  wp True (free_servinfo c) (fun _ s' => others_in_sync fd s' /\ s'.(tls) = s.(tls))
    (fun _ _ => False) s.
Proof.
  intros Ho. destruct (free_servinfo_world c s) as (w & H1 & H2 & H3 & H4). unfold wp.
  destruct (free_servinfo c s) as [o s'] eqn:E. cbn [fst snd] in *. rewrite H1.
  split; [|done]. intros t. unfold sockfd_of. rewrite H4, H2, H3. apply Ho.
Qed.

Lemma open_connection_sync c t uri s :
  proper (parse_uri uri) -> all_in_sync s ->
  wp True (open_connection fuel c t uri) (fun _ s' => all_in_sync s') (fun _ s' => all_in_sync s') s.
Proof.
  intros Hp Hs. unfold open_connection. destruct (negb _); [by apply wp_throw|].
  apply wp_bind, wp_lift_proper; [done| |done]. intros [u [host port]] _. unfold upd_chan.
  wp_step. wp_step. wp_step. apply wp_on_pure. intros [rc i] w Hw.
  match goal with |- wp _ _ _ _ ?x => set (s1 := x) end.
  assert (all_in_sync s1) as Hs1.
  { intros fd Hfd. unfold s1. cbn [put process_world set_world world].
    change w with ((rc, i, w)).2. rewrite <- Hw.
    rewrite (getaddrinfo_inbox _ _ (world s)). by apply Hs. }
  destruct (negb _); [by apply wp_throw|]. wp_step. wp_step. apply wp_bind, wp_on_ioexception.
  assert (forall s2, others_in_sync (sockfd_of t s2) s2 ->
    wp True (drop_sock t) (fun _ s' => all_in_sync s') (fun _ s' => all_in_sync s') s2) as Hdrop.
  { intros s2 H2. eapply wp_mono; [by apply drop_sock_sync|done|done]. }
  assert (forall s2, others_in_sync (sockfd_of t s2) s2 -> forall e : exn,
    wp True (free_servinfo c;; drop_sock t) (fun _ s' => all_in_sync s')
      (fun _ s' => all_in_sync s') s2) as Hcatch.
  { intros s2 H2 e. apply wp_bind. eapply wp_mono; [by apply free_servinfo_others| |done].
    intros [] s3 [H3 Ht]. apply Hdrop. unfold sockfd_of. by rewrite Ht. }
  apply (wp_mono _ _ (fun _ s' => others_in_sync (sockfd_of t s') s') _
    (fun e s' => all_in_sync s' \/ io_error e /\ others_in_sync (sockfd_of t s') s')).
  - apply wp_bind. eapply wp_mono; [by apply do_send_sync| |].
    + intros [] s2 (H2 & _). apply wp_bind. eapply wp_mono; [by apply do_recv_others| |].
      * intros r s3 [H3 H4]. apply wp_ret. by rewrite H3.
      * intros e s3 (He & H3 & H4). right. by rewrite H3.
    + intros e s2 H2. by left.
  - intros [] s2 H2. wp_step. eapply wp_mono; [by apply Hdrop| |done].
    intros [] s3 H3. by wp_step.
  - intros e s2 [H2|[(fmt & args & ->) H2]].
    + destruct e; try done. eapply wp_mono; [apply (Hcatch s2 (in_sync_others _ s2 H2) no_open_socket)|done|done].
    + eapply wp_mono; [apply (Hcatch s2 H2 no_open_socket)|done|done].
Qed.

(** ** The invariant of the queues *)

(** The flag of a message tells whether the CogServer answers it, and there is
    a callback for each answer. *)
Definition well_flagged (m : Msg Callback Data) : Prop :=
  if m.(noreply) then is_silent m.(str_to_send) = true
  else expects_reply m.(str_to_send) = true /\ is_Some m.(callback).

Definition all_flagged (s : process) : Prop := all_queued well_flagged s.

(** What a thread says and hears changes neither queues nor atoms. *)
Definition only_talk (s s' : process) : Prop :=
  s'.(heap) = s.(heap) /\ s'.(statics) = s.(statics) /\
  s'.(_sequence_counter) = s.(_sequence_counter) /\
  forall c, (s'.(chans) c).(_msg_buffer) = (s.(chans) c).(_msg_buffer).

#[export] Instance only_talk_preorder : PreOrder only_talk.
Proof.
  split; [by intros s|]. intros s1 s2 s3 (A1 & A2 & A3 & A4) (B1 & B2 & B3 & B4).
  split_and!; congruence.
Qed.

Lemma only_talk_chan c x s :
  x.(_msg_buffer) = (s.(chans) c).(_msg_buffer) -> only_talk s (set_chan c x s).
Proof.
  intros Hx. split_and!; [done..|]. intros c'. cbn [chans set_chan].
  destruct (decide (c = c')) as [->|Hne]; [by rewrite fn_lookup_insert|by rewrite fn_lookup_insert_ne].
Qed.

Lemma only_talk_flagged s s' : only_talk s s' -> all_flagged s -> all_flagged s'.
Proof. intros (_ & _ & _ & Hq) H c m. unfold queued. rewrite Hq. apply H. Qed.

Lemma do_recv_talk t garbage : moves only_talk (do_recv fuel t garbage).
Proof.
  unfold do_recv, get_sockfd.
  repeat first [apply recv_loop_moves; [typeclasses eauto|done|unfold on_eof, get_sockfd] | moves_step | done].
Qed.

Lemma do_send_talk c t m : moves only_talk (do_send fuel c t m).
Proof.
  unfold do_send, set_sockfd, get_sockfd, throw_errno, open_sock, get_chan, upd_chan.
  assert (forall ps norr, moves only_talk (connect_loop ps norr)) as Hconn.
  { induction ps as [|p ps IH]; intros norr; cbn [connect_loop];
      repeat first [apply IH | moves_step | done]. }
  repeat first [apply Hconn | apply do_recv_talk | moves_step | done | by apply only_talk_chan].
Qed.

Lemma do_recv_flagged t garbage : stays all_flagged (do_recv fuel t garbage).
Proof. eapply moves_stays; [apply only_talk_flagged|apply do_recv_talk]. Qed.

Lemma do_send_flagged c t m : stays all_flagged (do_send fuel c t m).
Proof. eapply moves_stays; [apply only_talk_flagged|apply do_send_talk]. Qed.

(** ** A turn of a writer *)
Context (run_callback : nat -> nat -> Callback -> str -> Data -> M process unit).

(** All conversations are in step, and will be. *)
Definition in_step (s : process) : Prop := all_in_sync s /\ all_flagged s.

Lemma exchange_stays {A} c t m (k : str -> M process A) :
  expects_reply m = true -> (forall r, stays in_step (k r)) ->
  stays in_step (do_send fuel c t m;; (do_recv fuel t false ≫= k)).
Proof.
  intros Hm Hk. apply stays_assoc; [|done]. apply stays_and.
  - apply wp_stays. intros s Hs. by apply exchange_sync.
  - apply stays_bind; [apply do_send_flagged|]. intros _. apply do_recv_flagged.
Qed.

Lemma handler_stays c t m :
  (forall cb r d, stays in_step (run_callback c t cb r d)) ->
  well_flagged m -> stays in_step (reply_handler fuel run_callback c t m).
Proof.
  intros Hcb Hm. unfold reply_handler, well_flagged in *. destruct (noreply m).
  - apply stays_bind; [|intros; apply stays_ret]. apply stays_and; [|apply do_send_flagged].
    apply wp_stays. intros s Hs. eapply wp_mono; [by apply do_send_sync| |done].
    intros [] s' (Ho & Hin & _). eapply others_in_sync_done; [done|by apply Hin].
  - destruct Hm as [Hm [cb Hc]]. apply exchange_stays; [done|]. intros r. rewrite Hc. apply Hcb.
Qed.

(** Opening, closing and ending threads. *)
Lemma free_servinfo_stays c : stays in_step (free_servinfo c).
Proof.
  apply stays_and.
  - apply wp_stays. intros s Hs.
    eapply wp_mono; [by apply (free_servinfo_others c 0), in_sync_others| |done].
    intros [] s' [H _] t Ht. by apply H.
  - unfold free_servinfo, get_chan, upd_chan.
    repeat first [stays_step | apply stays_modify; intros; by apply all_queued_chan].
Qed.

Lemma open_connection_stays {AL : AsyncBufferLaws AB} c t uri :
  stays in_step (open_connection fuel c t uri).
Proof.
  apply stays_and.
  - intros s Hs. destruct (parse_uri uri) as [p|e| | |] eqn:Hp;
      try (unfold open_connection; destruct (negb _); [done|];
           unfold mbind, M_bind, lift_outcome; rewrite Hp; done);
      (refine (wp_stays all_in_sync _ _ s Hs); intros s1 H1; apply open_connection_sync; [|done];
       rewrite Hp; [left + right; eauto]).
  - unfold open_connection, upd_chan, drop_sock, free_servinfo, get_chan, get_sockfd, set_sockfd.
    repeat first [apply do_send_flagged | apply do_recv_flagged | stays_step
      | apply stays_modify; intros; apply all_queued_chan; [cbn; by rewrite ?open_pending|done]].
Qed.

Lemma stop_in_step {AL : AsyncBufferLaws AB} c s : in_step s -> in_step (stop_writers c s).
Proof.
  intros [H1 H2]. split; [exact H1|]. apply all_queued_chan; [|done]. intros m. apply close_pending.
Qed.

Lemma thread_exit_stays t : stays in_step (thread_exit t).
Proof.
  apply stays_and.
  - intros s Hs. unfold thread_exit. rewrite get_sockfd_bind.
    destruct (sockfd_of t s =? 0)%Z; cbn [negb when]; [done|].
    assert (all_in_sync (set_world (sys_close (sockfd_of t s) s.(world)) s)) as Hs1.
    { eapply others_in_sync_done; [|apply closed_empty].
      apply others_same_but; [apply close_others|by apply in_sync_others]. }
    erewrite bind_ok by done. erewrite bind_ok by done. cbn [tls set_world put process_world].
    destruct (_owner _) as [c|]; [|done]. by destruct (bool_decide _).
  - unfold thread_exit, get_sockfd, upd_chan.
    repeat first [stays_step | apply stays_modify; intros; by apply all_queued_chan].
Qed.

(** A turn that returns has run the callback on the reply to its own message,
    on atoms and queues as they were before. *)
Lemma handler_reads c t m cb s s' :
  in_step s -> well_flagged m -> m.(noreply) = false -> m.(callback) = Some cb ->
  reply_handler fuel run_callback c t m s = (Ok tt, s') ->
  exists w s1, in_step s1 /\ only_talk s s1 /\
    run_callback c t cb (answer m.(str_to_send) w ++ [nl]) m.(data) s1 = (Ok tt, s').
Proof.
  intros [Hs Hf] Hm Hnr Hc Hrun. unfold well_flagged in Hm. rewrite Hnr in Hm.
  unfold reply_handler in Hrun. rewrite Hnr, Hc in Hrun.
  apply bind_inv in Hrun as ([] & s1 & H1 & Hrun). apply bind_inv in Hrun as (r & s2 & H2 & Hrun).
  assert (only_talk s s2) as Htalk.
  { etrans; [by eapply moves_ok; [apply do_send_talk|]|by eapply moves_ok; [apply do_recv_talk|]]. }
  assert (wp True (do_send fuel c t (str_to_send m);; do_recv fuel t false)
    (fun r s' => all_in_sync s' /\ exists w, r = answer (str_to_send m) w ++ [nl])
    (fun _ s' => all_in_sync s') s) as Hw by (apply exchange_sync; [done|apply Hm|eauto]).
  unfold wp in Hw. erewrite bind_ok in Hw by exact H1. rewrite H2 in Hw.
  destruct Hw as [Hs2 [w ->]]. exists w, s2. split_and!; [|done|done].
  split; [done|]. by eapply only_talk_flagged.
Qed.
End sync.
