(* ===== verification/ChannelUp.v ===== *)
(** * A channel whose CogServer stays up

    [UpServer] says of a network that connections succeed and stay open.  On
    such a network, and with the conversations in step, sending never throws and
    the exchange of a request and its reply always ends with that reply: these
    are the facts behind the progress of the writers. *)
From stdpp Require Import pretty functions.
From S2P Require Import Prelude CxxString Effects Sockets RecvBuf Barrier Uri Atomese.
From S2P Require Import ListUtils SimpleStorage SimpleIO SimpleSafety SimpleSync.
From S2P Require Import Msg Channel ChannelFacts ChannelSocket ChannelSync.

(** [live fd w]: the descriptor is a connection that works. *)
Class UpServer {W} (SK : Sockets W) := {
  live : Z -> W -> Prop;
  up_socket : forall p w fd w', sys_socket p w = (fd, w') ->
    (0 < fd)%Z /\ forall f, live f w -> live f w';
  up_connect : forall p w fd w' rc w'', sys_socket p w = (fd, w') ->
    sys_connect fd p w' = (rc, w'') -> rc = 0%Z /\ live fd w'' /\ forall f, live f w' -> live f w'';
  up_setsockopt : forall fd o w f, live f w -> live f (sys_setsockopt fd o w).2;
  up_send : forall fd m b w rc w', live fd w -> sys_send fd m b w = (rc, w') ->
    (0 <= rc)%Z /\ forall f, live f w -> live f w';
  up_recv : forall fd k w r w' f, live f w -> sys_recv fd k w = (r, w') -> live f w';
}.

Section up.
Context {W Heap Static Callback Data Q : Type} {SK : Sockets W}.
Context {AB : AsyncBuffer (Msg Callback Data) Q}.
Context (fuel : nat) {SS : SyncServer SK fuel} {DS : Descriptors SK SS} {UP : UpServer SK}.
Abbreviation process := (Channel.process (W := W) (Heap := Heap) (Static := Static) (Q := Q)).
Implicit Types (s : process).
Context (Hfuel : 0 < fuel).

(** The sockets the threads have all work. *)
Definition all_live (s : process) : Prop :=
  forall t, sockfd_of t s <> 0%Z -> live (sockfd_of t s) s.(world).

(** Channel [c] is connected, and its server has an address. *)
Definition reachable (c : nat) (s : process) : Prop :=
  exists p ps, (s.(chans) c).(_servinfo) = Some (p :: ps).

Definition up (c : nat) (s : process) : Prop := all_live s /\ reachable c s.

Lemma all_live_world w s :
  (forall f, live f s.(world) -> live f w) -> all_live s -> all_live (set_world w s).
Proof. intros Hw H t Ht. by apply Hw, H. Qed.

Lemma all_live_tls t x s :
  (x.(_sockfd) <> 0%Z -> live x.(_sockfd) s.(world)) -> all_live s -> all_live (set_tls t x s).
Proof.
  intros Hx H u. unfold sockfd_of. cbn [tls set_tls world].
  destruct (decide (t = u)) as [->|]; [by rewrite fn_lookup_insert|].
  rewrite fn_lookup_insert_ne by done. apply H.
Qed.

(** The first address answers. *)
Lemma connect_up p ps norr s :
  exists fd w, connect_loop (p :: ps) norr s = (Ok (Some fd, norr), set_world w s) /\
    (0 < fd)%Z /\ live fd w /\ inbox fd w = [] /\ forall f, live f s.(world) -> live f w.
Proof.
  cbn [connect_loop]. unfold mbind, M_bind, on_pure. change (the s) with (world s).
  destruct (sys_socket p (world s)) as [fd w1] eqn:H1.
  destruct (up_socket _ _ _ _ H1) as [Hfd Hl1]. rewrite (proj2 (Z.ltb_ge fd 0)) by lia.
  cbn [put process_world set_world the world].
  destruct (sys_connect fd p w1) as [rc w2] eqn:H2.
  destruct (up_connect _ _ _ _ _ _ H1 H2) as (-> & Hfd2 & Hl2). rewrite Z.eqb_refl.
  exists fd, w2. split_and!; [by destruct s|done|done|by eapply connected_empty|auto].
Qed.

(** A receive that returns leaves the connections open. *)
Lemma do_recv_live t garbage s :
  wp True (do_recv fuel t garbage)
    (fun _ s' => exists w, s' = set_world w s /\ forall f, live f s.(world) -> live f w)
    (fun _ _ => True) s.
Proof.
  unfold do_recv. apply wp_bind, wp_gets. destruct (0 =? _)%Z; [by apply wp_throw|].
  apply (recv_loop_safe _ _ _
    (fun s' => exists w, s' = set_world w s /\ forall f, live f s.(world) -> live f w)); [|done| |].
  - intros r w s1 (w1 & -> & Hl) Hr. exists w. split; [done|]. intros f Hf.
    by eapply up_recv, Hr; apply Hl.
  - intros s1 _. unfold on_eof. apply wp_bind, wp_gets. by apply wp_on_pure.
  - exists s.(world). by rewrite proc_world_id.
Qed.

(** A thread without a socket gets one that works. *)
Lemma open_sock_up c t s :
  all_in_sync fuel s -> all_live s -> reachable c s ->
  wp False (open_sock fuel c t)
    (fun fd s' => (0 < fd)%Z /\ live fd s'.(world) /\ all_live s' /\ reachable c s')
    (fun _ _ => False) s.
Proof.
  intros Hsync Hs (p & ps & Hi). unfold open_sock. apply wp_bind, wp_gets. rewrite Hi.
  destruct (connect_up p ps 0 s) as (fd & w1 & Hrun & Hfd & Hlive & Hin & Hl1).
  apply wp_bind. unfold wp at 1. rewrite Hrun. cbn [fst].
  wp_step. apply wp_on_pure. intros rc1 w2 H2. wp_step. apply wp_on_pure. intros rc2 w3 H3.
  wp_step. apply wp_on_pure. intros rc w4 H4. change (the ?x) with (world x) in H2, H3, H4.
  cbn [put process_world set_world world] in *.
  pose proof (up_setsockopt fd TCP_NODELAY w1) as L2. pose proof (setsockopt_inbox fd TCP_NODELAY w1 fd) as I2.
  rewrite H2 in L2, I2. pose proof (up_setsockopt fd TCP_QUICKACK w2) as L3.
  pose proof (setsockopt_inbox fd TCP_QUICKACK w2 fd) as I3. rewrite H3 in L3, I3. cbn [snd] in *.
  destruct (up_send _ _ _ _ _ _ (L3 _ (L2 _ Hlive)) H4) as [Hrc L4].
  rewrite (proj2 (Z.ltb_ge rc 0)) by done.
  destruct (greeting _ _ _ _ _ H4 Hrc) as (g & Hg & Hscrub); [congruence|].
  wp_step. wp_step. apply wp_bind.
  match goal with |- wp _ _ _ _ ?x => set (s1 := x) end.
  assert (sockfd_of t s1 = fd) as Ht by (unfold sockfd_of, s1; cbn [tls set_tls]; by rewrite fn_lookup_insert).
  assert (live fd w4 /\ all_live s1) as [Hfd4 Hs1].
  { split; [auto|]. apply all_live_tls; [by auto|]. apply (all_live_world w4 s); [auto|done]. }
  eapply wp_mono; [apply (wp_both False False True)| |].
  - apply (recv_prompt fuel False t s1 g (fun _ _ => True) (fun _ _ => False)); [lia|lia|..].
    + by rewrite Ht.
    + done.
    + done.
  - apply do_recv_live.
  - done.
  - intros r s2 [_ (w & -> & Hl)]. unfold upd_chan. repeat wp_step. split_and!; [done|by apply Hl| |].
    + intros u Hu. apply Hl, Hs1, Hu.
    + exists p, ps. cbn [chans set_chan]. rewrite fn_lookup_insert. cbn [_servinfo with_nsocks].
      unfold s1. cbn [chans set_tls set_world]. exact Hi.
  - by intros e s2 [? _].
Qed.

(** Sending never throws. *)
Lemma do_send_up c t m s :
  all_in_sync fuel s -> up c s ->
  wp False (do_send fuel c t m)
    (fun _ s' => sockfd_of t s' <> 0%Z /\ up c s') (fun _ _ => False) s.
Proof.
  intros Hsync [Hs Hr].
  assert (forall s1, up c s1 -> sockfd_of t s1 <> 0%Z ->
    wp False (fd ← get_sockfd t; rc ← on_pure (sys_send fd m true);
              if (rc <? 0)%Z then throw_errno "Unable to talk to cogserver: %s"
              else modify (add_wire (t, fd, m)))
      (fun _ s' => sockfd_of t s' <> 0%Z /\ up c s') (fun _ _ => False) s1) as Hgen.
  { intros s1 [H1 R1] Hnz. apply wp_bind, wp_gets, wp_bind, wp_on_pure.
    change (_sockfd (tls s1 t)) with (sockfd_of t s1). change (the s1) with (world s1).
    intros rc w Hw. destruct (up_send _ _ _ _ _ _ (H1 t Hnz) Hw) as [Hrc Hl].
    rewrite (proj2 (Z.ltb_ge rc 0)) by done. wp_step. split; [done|]. split; [|done].
    intros u Hu. by apply Hl, H1. }
  unfold do_send. apply wp_bind, wp_gets, wp_bind. change (_sockfd (tls s t)) with (sockfd_of t s).
  destruct (Z.eqb_spec 0 (sockfd_of t s)) as [Hz|Hnz]; [|wp_step; by apply Hgen].
  apply wp_bind. eapply wp_mono; [by apply open_sock_up| |done].
  intros fd s1 (Hfd & Hlive & Hs1 & Hr1). unfold set_sockfd. wp_step. apply Hgen.
  - split; [|exact Hr1]. by apply all_live_tls.
  - unfold sockfd_of. cbn [tls set_tls]. rewrite fn_lookup_insert. cbn. lia.
Qed.

(** The exchange of a request and its reply ends, with the reply. *)
Lemma exchange_up c t m s :
  all_in_sync fuel s -> up c s -> expects_reply m = true ->
  wp False (do_send fuel c t m;; do_recv fuel t false)
    (fun r s' => all_in_sync fuel s' /\ up c s' /\ exists w, r = answer m w ++ [nl])
    (fun _ _ => False) s.
Proof.
  intros Hsync Hs Hm. apply wp_bind.
  eapply wp_mono; [eapply wp_conj; [apply (do_send_sync fuel False); [lia|done]|by apply do_send_up]| |].
  2: by intros e s1 [_ ?].
  intros [] s1 [(Ho & _ & Hexp) [Hnz [Hs1 Hr1]]]. destruct (Hexp Hm) as (w & cs & Hin & Hc & Hl).
  eapply wp_mono; [apply (wp_both False False True); [|apply do_recv_live|done]| |].
  - apply (do_recv_sync fuel False t s1 cs (answer m w)
      (fun r s' => all_in_sync fuel s' /\ r = answer m w ++ [nl]) (fun _ _ => False));
      [done|done|done|apply answer_plain|done| |done]. by intros w1 H1.
  - intros r s2 [[H2 ->] (w2 & -> & Hl2)]. split; [done|]. split; [|eauto]. split; [|exact Hr1].
    intros u Hu. by apply Hl2, Hs1.
  - by intros e s2 [? _].
Qed.

(** ** Handlers *)
Context (run_callback : nat -> nat -> Callback -> str -> Data -> M process unit).

(** Handling a message returns if its callback does, on whatever the CogServer
    answers. *)
Lemma handler_up c t m (Q0 : process -> Prop) s :
  in_step fuel s -> up c s -> well_flagged m ->
  (forall s1, in_step fuel s1 -> up c s1 -> only_talk s s1 ->
     if m.(noreply) then Q0 s1
     else forall cb w, m.(callback) = Some cb ->
       wp False (run_callback c t cb (answer m.(str_to_send) w ++ [nl]) m.(data))
         (fun _ => Q0) (fun _ _ => False) s1) ->
  wp False (reply_handler fuel run_callback c t m) (fun _ => Q0) (fun _ _ => False) s.
Proof.
  intros [Hs Hf] Hup Hm HQ. unfold reply_handler, well_flagged in *.
  assert (forall {A} (k : M process A) (P : A -> process -> Prop), moves only_talk k ->
    wp False k P (fun _ _ => False) s ->
    wp False k (fun a s' => P a s' /\ only_talk s s') (fun _ _ => False) s) as Htalk.
  { intros A k P Hk Hw. specialize (Hk s). unfold wp in *. by destruct (k s) as [[] ?]. }
  destruct (noreply m) eqn:Hn.
  - apply wp_bind. eapply wp_mono; [apply Htalk; [apply do_send_talk|]| |done].
    + eapply wp_mono; [eapply wp_conj; [apply (do_send_sync fuel False); [lia|done]|by apply do_send_up]|
        intros a s' H; exact H|by intros e s1 [_ ?]].
    + intros [] s1 [[(Ho & Hin & _) [_ Hup1]] Ht]. apply wp_ret. apply HQ; [|done|done].
      split; [eapply others_in_sync_done; [exact Ho|by apply Hin]|]. by eapply only_talk_flagged.
  - destruct Hm as [Hm [cb Hc]]. rewrite Hc.
    assert (forall k : str -> M process unit,
      (do_send fuel c t (str_to_send m);; reply ← do_recv fuel t false; k reply) s =
      ((do_send fuel c t (str_to_send m);; do_recv fuel t false) ≫= k) s) as Hassoc.
    { intros k. unfold mbind, M_bind. by destruct (do_send _ _ _ _ s) as [[] ?]. }
    unfold wp. rewrite Hassoc. fold (wp False ((do_send fuel c t (str_to_send m);; do_recv fuel t false)
      ≫= (fun reply => run_callback c t cb reply (data m))) (fun _ => Q0) (fun _ _ => False) s).
    apply wp_bind. eapply wp_mono; [apply Htalk; [|by apply exchange_up]| |done].
    + apply moves_bind; [typeclasses eauto|apply do_send_talk|]. intros _. apply do_recv_talk.
    + intros r s1 [(H1 & Hup1 & w & ->) Ht]. apply HQ; [|done|done|done].
      split; [done|]. by eapply only_talk_flagged.
Qed.
End up.
