(* ===== verification/FdTable.v ===== *)
(** * Descriptors opened and closed

    [FdTable] states which descriptors each system call opens and closes.  Under
    it, every descriptor the two clients open while they connect is accounted
    for: closed, held by the client, or lost. *)
From stdpp Require Import pretty functions.
From S2P Require Import Prelude CxxString Effects Sockets RecvBuf Barrier Uri Atomese.
From S2P Require Import SimpleStorage SimpleLife Msg Channel ChannelSocket.

Class FdTable {W} (SK : Sockets W) := {
  fds : W -> gset Z;
  socket_fds : forall p w fd w', sys_socket p w = (fd, w') -> (0 <= fd)%Z ->
    (fd ∉ fds w) /\ fds w' = ({[fd]} ∪ fds w);
  socket_fails : forall p w fd w', sys_socket p w = (fd, w') -> (fd < 0)%Z -> fds w' = fds w;
  close_fds : forall fd w, fds (sys_close fd w) = (fds w ∖ {[fd]});
  connect_fds : forall fd p w, fds (snd (sys_connect fd p w)) = fds w;
  setsockopt_fds : forall fd o w, fds (snd (sys_setsockopt fd o w)) = fds w;
  send_fds : forall fd m b w, fds (snd (sys_send fd m b w)) = fds w;
  recv_fds : forall fd n w, fds (snd (sys_recv fd n w)) = fds w;
  getaddrinfo_fds : forall h p w, fds (snd (sys_getaddrinfo h p w)) = fds w;
  freeaddrinfo_fds : forall i w, fds (sys_freeaddrinfo i w) = fds w;
}.

(** One descriptor [fd] more is open in [w'] than in [w]. *)
Definition opened `{FdTable W} (fd : Z) (w w' : W) : Prop :=
  (fd ∉ fds w) /\ fds w' = ({[fd]} ∪ fds w).

Section fds.
Context {W : Type} {SK : Sockets W} {FT : FdTable SK}.

Lemma opened_closed fd w w' : opened fd w w' -> fds (sys_close fd w') = fds w.
Proof. intros [H1 H2]. rewrite close_fds, H2. set_solver+H1. Qed.

Lemma opened_same fd w w' w'' : fds w'' = fds w' -> opened fd w w' -> opened fd w w''.
Proof. unfold opened. by intros ->. Qed.

(** *** The single-socket client *)
Section simple.
Context {Heap : Type} {AT : Atomese Heap}.
Abbreviation St := (SimpleStorage.CogSimpleStorage (W := W) (Heap := Heap)).
Context (fuel : nat).
Context (socket_nonzero : forall p (w : W), (sys_socket p w).1 <> 0%Z).

(** The client's descriptor, while it is connected, is the only one that is
    open besides those in [F]. *)
Definition tracks (F : gset Z) (s : St) : Prop :=
  if (0 <? s.(SimpleStorage._sockfd))%Z
  then (s.(SimpleStorage._sockfd) ∉ F) /\
       fds s.(SimpleStorage.world) = ({[s.(SimpleStorage._sockfd)]} ∪ F)
  else fds s.(SimpleStorage.world) = F.

Lemma tracks_world F w s :
  fds w = fds s.(SimpleStorage.world) -> tracks F s -> tracks F (SimpleStorage.set_world w s).
Proof. unfold tracks. cbn. by intros ->. Qed.

Lemma tracks_off F fd s :
  (fd <= 0)%Z -> fds s.(SimpleStorage.world) = F -> tracks F (SimpleStorage.set_sockfd fd s).
Proof. intros Hfd H. unfold tracks. cbn. by rewrite (proj2 (Z.ltb_ge _ _)). Qed.

Lemma tracks_closed F fd s :
  tracks F s -> (0 < s.(SimpleStorage._sockfd))%Z -> (fd <= 0)%Z ->
  tracks F (SimpleStorage.set_sockfd fd
    (SimpleStorage.set_world (sys_close s.(SimpleStorage._sockfd) s.(SimpleStorage.world)) s)).
Proof.
  intros H Hs Hfd. apply tracks_off; [done|]. unfold tracks in H.
  rewrite (proj2 (Z.ltb_lt _ _)) in H by done. cbn. destruct H as [H1 H2].
  rewrite close_fds, H2. set_solver+H1.
Qed.

Lemma tracks_pure F {A : Type} N (f : W -> A * W) s Q (E : exn -> St -> Prop) :
  (forall w, fds (snd (f w)) = fds w) -> tracks F s ->
  (forall a w, tracks F (SimpleStorage.set_world w s) -> Q a (SimpleStorage.set_world w s)) ->
  wp N (on_pure f) Q E s.
Proof.
  intros Hf Hs HQ. apply wp_on_pure. intros a w Ha. apply HQ, tracks_world; [|done].
  change (the s) with (SimpleStorage.world s) in Ha.
  by rewrite <- (Hf (SimpleStorage.world s)), Ha.
Qed.

Lemma simple_send_fds F N m s : tracks F s ->
  wp N (SimpleStorage.do_send m) (fun _ => tracks F) (fun _ => tracks F) s.
Proof.
  intros Hs. unfold SimpleStorage.do_send, throw_errno. apply wp_bind, wp_gets.
  destruct (0 <? SimpleStorage._sockfd s)%Z; cbn [negb]; [|by wp_step].
  repeat wp_step. apply (tracks_pure F); [intros; apply send_fds|done|]. intros rc w Hw.
  destruct (rc <? 0)%Z; by repeat wp_step.
Qed.

Lemma simple_recv_fds F garbage s : tracks F s ->
  wp True (SimpleStorage.do_recv fuel garbage)
    (fun _ s' => tracks F s' /\ (0 < s'.(SimpleStorage._sockfd))%Z) (fun _ => tracks F) s.
Proof.
  intros Hs. unfold SimpleStorage.do_recv. apply wp_bind, wp_gets.
  destruct (Z.ltb_spec 0 s.(SimpleStorage._sockfd)) as [Hfd|Hfd]; cbn [negb]; [|by wp_step].
  apply wp_bind.
  eapply (wp_mono _ _ (fun _ s' => tracks F s' /\ (0 < s'.(SimpleStorage._sockfd))%Z) _
    (fun _ => tracks F)); [| |done].
  - apply recv_loop_safe; [| | |done].
    + intros r w s1 [H1 H2] Hr. split; [|done]. apply tracks_world; [|done].
      change (the s1) with (SimpleStorage.world s1) in Hr.
      pose proof (recv_fds (SimpleStorage._sockfd s1) 4096 s1.(SimpleStorage.world)) as Hf.
      by rewrite Hr in Hf.
    + by intros m s1 [H1 _].
    + intros s1 [H1 H2]. unfold SimpleStorage.on_eof. repeat wp_step.
      apply wp_on_pure. intros [] w [= <-]. wp_step. by apply tracks_closed.
  - intros r s1 [H1 H2]. by repeat wp_step.
Qed.

Lemma simple_connect_fds F ps : forall norr s, tracks F s -> (s.(SimpleStorage._sockfd) <= 0)%Z ->
  wp False (SimpleStorage.connect_loop ps norr)
    (fun r s' => tracks F s' /\ (r.1 = false -> (s'.(SimpleStorage._sockfd) <= 0)%Z))
    (fun _ _ => False) s.
Proof.
  induction ps as [|p ps IH]; intros norr s Hs Hfd; cbn [SimpleStorage.connect_loop]; [by wp_step|].
  assert (fds s.(SimpleStorage.world) = F) as HF.
  { unfold tracks in Hs. by rewrite (proj2 (Z.ltb_ge _ _)) in Hs. }
  wp_step. apply wp_on_pure. intros fd w Hsock. pose proof (socket_nonzero p s.(SimpleStorage.world)) as Hnz.
  change (the s) with (SimpleStorage.world s) in Hsock. rewrite Hsock in Hnz. cbn [fst] in Hnz.
  wp_step. wp_step. destruct (Z.ltb_spec fd 0) as [H|H].
  - apply IH; [|cbn; lia]. apply tracks_off; [lia|]. cbn. by rewrite (socket_fails _ _ _ _ Hsock H).
  - destruct (socket_fds _ _ _ _ Hsock H) as [Hnew Hw].
    wp_step. apply wp_on_pure. intros rc w1 Hc. pose proof (connect_fds fd p w) as Hcf.
    cbn in Hc. rewrite Hc in Hcf. cbn in Hcf. destruct (rc =? 0)%Z.
    + wp_step. split; [|done]. unfold tracks. cbn.
      rewrite (proj2 (Z.ltb_lt _ _)), Hcf, Hw, HF by lia. rewrite HF in Hnew. done.
    + repeat wp_step. apply wp_on_pure. intros [] w2 [= <-]. repeat wp_step. apply IH; [|cbn; lia].
      apply tracks_off; [lia|]. cbn. rewrite close_fds, Hcf, Hw, HF. rewrite HF in Hnew. set_solver+Hnew.
Qed.

Lemma simple_open_fds F s : SimpleStorage.uri_ok s.(SimpleStorage._uri) ->
  s.(SimpleStorage._mtx) = false -> tracks F s ->
  wp True (SimpleStorage.open fuel) (fun _ => tracks F) (fun _ => tracks F) s.
Proof.
  intros Huri Hm Hs. unfold SimpleStorage.open. apply wp_bind, wp_gets.
  destruct (Z.ltb_spec 0 s.(SimpleStorage._sockfd)) as [|Hfd]; [by wp_step|].
  apply wp_with_lock; [done|]. apply wp_bind, wp_gets, wp_bind.
  destruct (SimpleStorage.endpoint_ok _ Huri) as [[host port] Hep].
  unfold wp, lift_outcome. change (SimpleStorage._uri (set_held true s)) with (SimpleStorage._uri s).
  rewrite Hep. apply wp_bind, (tracks_pure F); [intros; apply getaddrinfo_fds|done|].
  intros [rc servinfo] w Hw. destruct (rc =? 0)%Z; cbn [negb]; [|by wp_step].
  wp_step. eapply wp_mono; [by apply wp_weaken, (simple_connect_fds F)| |done].
  intros [found norr] s1 [Hs1 _]. cbn [fst snd].
  wp_step. apply (tracks_pure F); [intros; apply freeaddrinfo_fds|done|]. intros [] w1 Hw1.
  destruct found; cbn [negb]; [|by wp_step]. wp_step. wp_step.
  wp_step. apply (tracks_pure F); [intros; apply setsockopt_fds|done|]. intros rc1 w2 Hw2.
  wp_step. apply (tracks_pure F); [intros; apply setsockopt_fds|done|]. intros rc2 w3 Hw3.
  wp_step. apply (tracks_pure F); [intros; apply send_fds|done|]. intros rc3 w4 Hw4.
  destruct (rc3 <? 0)%Z; [by repeat wp_step|]. wp_step.
  eapply wp_mono; [by apply (simple_recv_fds F)| |done]. intros r s2 [Hs2 _]. by wp_step.
Qed.

Lemma simple_close_fds F s : s.(SimpleStorage._mtx) = false -> tracks F s ->
  wp True (SimpleStorage.close fuel) (fun _ s' => fds s'.(SimpleStorage.world) = F)
    (fun _ => tracks F) s.
Proof.
  intros Hm Hs. unfold SimpleStorage.close. apply wp_bind, wp_gets.
  destruct (0 <? SimpleStorage._sockfd s)%Z eqn:Hfd; wp_step.
  2: { cbn [when]. repeat wp_step. unfold tracks in Hs. by rewrite Hfd in Hs. }
  cbn [when]. apply wp_bind. unfold SimpleStorage.proxy_close, SimpleStorage.barrier, SimpleStorage.draw_rnd, SimpleStorage.draw.
  repeat wp_step. apply wp_with_lock; [done|].
  eapply wp_mono; [by apply (simple_send_fds F)| |done]. intros [] s1 Hs1.
  wp_step. eapply wp_mono; [by apply (simple_send_fds F)| |done]. intros [] s2 Hs2.
  wp_step. eapply wp_mono; [by apply (simple_recv_fds F)| |done]. intros r s3 [Hs3 Hfd3].
  repeat wp_step. apply wp_on_pure. intros [] w [= <-]. wp_step.
  apply (tracks_closed F (-1)%Z) in Hs3; [|done..]. exact Hs3.
Qed.

(** C32. The single-socket client loses no descriptor.  While it is connected,
    its own is the only one open besides those that were open before; no failure
    of [open], [do_send] or [do_recv] changes that, and a [close] that returns
    gives the descriptor back. *)
Theorem no_descriptor_lost F s : SimpleStorage.uri_ok s.(SimpleStorage._uri) ->
  s.(SimpleStorage._mtx) = false -> tracks F s ->
  wp True (SimpleStorage.open fuel) (fun _ => tracks F) (fun _ => tracks F) s /\
  (forall m, wp True (SimpleStorage.do_send m) (fun _ => tracks F) (fun _ => tracks F) s) /\
  (forall g, wp True (SimpleStorage.do_recv fuel g) (fun _ => tracks F) (fun _ => tracks F) s) /\
  wp True (SimpleStorage.close fuel) (fun _ s' => fds s'.(SimpleStorage.world) = F)
    (fun _ => tracks F) s.
Proof.
  intros Huri Hm Hs. split_and!.
  - by apply simple_open_fds.
  - intros m. by apply simple_send_fds.
  - intros g. eapply wp_mono; [by apply (simple_recv_fds F)|by intros r s' [? _]|done].
  - by apply simple_close_fds.
Qed.
End simple.

(** *** The multi-threaded client *)
Section channel.
Context {Heap Static Callback Data Q : Type} {AB : AsyncBuffer (Msg Callback Data) Q}.
Abbreviation process := (Channel.process (W := W) (Heap := Heap) (Static := Static) (Q := Q)).
Implicit Types (s : process).
Context (fuel : nat).

Lemma connect_loop_fds ps w0 : forall norr s, fds s.(world) = fds w0 ->
  wp False (connect_loop ps norr)
    (fun r s' => s'.(tls) = s.(tls) /\ match r.1 with
                 | Some fd => opened fd w0 s'.(world)
                 | None => fds s'.(world) = fds w0
                 end) (fun _ _ => False) s.
Proof.
  induction ps as [|p ps IH]; intros norr s Hs; cbn [connect_loop]; [by wp_step|].
  wp_step. apply wp_on_pure. intros fd w Hsock. change (the s) with (world s) in Hsock.
  assert (forall n s1, s1.(tls) = s.(tls) -> fds s1.(world) = fds w0 ->
    wp False (connect_loop ps n)
      (fun r s' => s'.(tls) = s.(tls) /\ match r.1 with
                   | Some fd => opened fd w0 s'.(world)
                   | None => fds s'.(world) = fds w0
                   end) (fun _ _ => False) s1) as IH'.
  { intros n s1 Ht H1. eapply wp_mono; [by apply IH| |done]. intros r s2 [H2 H3].
    split; [congruence|done]. }
  destruct (Z.ltb_spec fd 0) as [Hfd|Hfd].
  { apply IH'; [done|]. cbn. by rewrite (socket_fails _ _ _ _ Hsock Hfd). }
  assert (opened fd w0 w) as Ho.
  { unfold opened. rewrite <- Hs. exact (socket_fds _ _ _ _ Hsock Hfd). }
  wp_step. apply wp_on_pure. intros rc w1 Hc. cbn [the put process_world world set_world] in Hc.
  assert (opened fd w0 w1) as Ho1.
  { eapply opened_same; [|exact Ho]. by rewrite <- (connect_fds fd p w), Hc. }
  destruct (rc =? 0)%Z; [by wp_step|].
  repeat wp_step. apply wp_on_pure. intros [] w2 [= <-]. apply IH'; [done|]. by apply opened_closed.
Qed.

(** What [open_sock] may leave of the descriptor it opened, when it throws. *)
Inductive open_sock_failure (t : nat) (s : process) : exn -> process -> Prop :=
| nobody_answers a s' :                  (* every descriptor was closed again *)
    fds s'.(world) = fds s.(world) -> s'.(tls) = s.(tls) ->
    open_sock_failure t s (IOException "Unable to connect to host %s: %s" a) s'
| lost_descriptor fd a s' :              (* open, and known to nobody *)
    opened fd s.(world) s'.(world) -> s'.(tls) = s.(tls) ->
    open_sock_failure t s (IOException "Unable to talk to cogserver at host %s: %s" a) s'
| prompt_failed fd m s' :                (* open, and held by the thread *)
    opened fd s.(world) s'.(world) -> sockfd_of t s' = fd ->
    open_sock_failure t s (talk_error m) s'
| prompt_closed fd s' :                  (* closed, and still held *)
    fds s'.(world) = fds s.(world) -> sockfd_of t s' = fd -> fd <> 0%Z ->
    open_sock_failure t s closed_error s'
| descriptor_zero s' :
    opened 0 s.(world) s'.(world) -> open_sock_failure t s no_open_socket s'.

Lemma prompt_fds c t fd s0 s :
  opened fd s0.(world) s.(world) -> s.(tls) t = mkTlso fd (Some c) ->
  wp True (do_recv fuel t true)
    (fun _ s' => opened fd s0.(world) s'.(world) /\ s'.(tls) t = mkTlso fd (Some c))
    (open_sock_failure t s0) s.
Proof.
  intros Ho Ht. unfold do_recv. apply wp_bind, wp_gets. rewrite Ht. cbn [_sockfd].
  destruct (Z.eqb_spec 0 fd) as [<-|Hne]; [wp_step; by apply descriptor_zero|].
  apply recv_loop_safe.
  - intros r w s1 [Ho1 Ht1] Hr. split; [|done]. revert Ho1. apply opened_same.
    pose proof (recv_fds (_sockfd (tls s1 t)) (8 * 1024) s1.(world)) as Hf.
    change (the s1) with (world s1) in Hr. rewrite Hr in Hf. exact Hf.
  - intros m s1 [Ho1 Ht1]. apply (prompt_failed _ _ fd); [done|]. unfold sockfd_of. by rewrite Ht1.
  - intros s1 [Ho1 Ht1]. unfold on_eof. apply wp_bind, wp_gets. rewrite Ht1.
    apply wp_on_pure. intros [] w [= <-].
    apply (prompt_closed _ _ fd); [by apply opened_closed| |done].
    unfold sockfd_of. cbn [tls set_world put process_world]. by rewrite Ht1.
  - done.
Qed.

(** C33. Opening the thread's socket changes the descriptor table by exactly
    one entry when it succeeds.  When it fails, every descriptor the connection
    attempts opened is closed again if no address answers; but if the greeting
    cannot be sent, the descriptor stays open and nobody holds it. *)
Theorem open_sock_descriptors c t s i :
  (s.(chans) c).(_servinfo) = Some i ->
  wp True (open_sock fuel c t)
    (fun fd s' => opened fd s.(world) s'.(world) /\ s'.(tls) t = mkTlso fd (Some c))
    (open_sock_failure t s) s.
Proof.
  intros Hi. unfold open_sock. apply wp_bind, wp_gets. rewrite Hi.
  wp_step. eapply wp_mono; [by apply wp_weaken, (connect_loop_fds i s.(world))| |done].
  intros [found norr] s1 [Ht Hf]. cbn [fst snd] in *. destruct found as [fd|].
  2: { wp_step. by apply nobody_answers. }
  wp_step. apply wp_on_pure. intros rc1 w1 H1. wp_step. apply wp_on_pure. intros rc2 w2 H2.
  wp_step. apply wp_on_pure. intros rc3 w3 H3.
  cbn [the put process_world world set_world] in *.
  assert (opened fd s.(world) w3) as Ho.
  { revert Hf. apply opened_same.
    pose proof (setsockopt_fds fd TCP_NODELAY s1.(world)) as Ho1. rewrite H1 in Ho1.
    pose proof (setsockopt_fds fd TCP_QUICKACK w1) as Ho2. rewrite H2 in Ho2.
    pose proof (send_fds fd (lit "sexpr" ++ [nl]) false w2) as Ho3. rewrite H3 in Ho3.
    cbn [snd] in *. congruence. }
  destruct (rc3 <? 0)%Z.
  { repeat wp_step. by apply (lost_descriptor _ _ fd). }
  repeat wp_step. eapply wp_mono; [eapply (prompt_fds c t fd s)| |done].
  - done.
  - cbn [tls set_tls]. by rewrite fn_lookup_insert.
  - intros r s2 [Ho2 Ht2]. unfold upd_chan. by repeat wp_step.
Qed.
End channel.
End fds.
