(* ===== verification/SimpleRaces.v ===== *)
(** * What the mutexes of the single-socket client do not cover

    [open] looks at the descriptor before it takes [_mtx] and does not look
    again: two threads that find the client not connected both connect, and the
    descriptor of the first is lost. *)
From S2P Require Import Prelude CxxString Effects Sockets RecvBuf Barrier Uri Atomese.
From S2P Require Import SimpleStorage SimpleLife Threads SimpleThreads.
From S2P Require Import Msg Channel ChannelFacts ChannelSocket FdTable.

Section open.
Context {W Heap : Type} {SK : Sockets W} {AT : Atomese Heap} {FT : FdTable SK}.
Context (fuel : nat) (socket_nonzero : forall p (w : W), (sys_socket p w).1 <> 0%Z).
Abbreviation St := (SimpleStorage.CogSimpleStorage (W := W) (Heap := Heap)).
Abbreviation unconnected := (SimpleStorage.set_sockfd (-1)%Z).

(** What [open] does under its lock does not depend on the descriptor. *)
Lemma connect_fresh ps norr (s : St) norr' s' :
  SimpleStorage.connect_loop ps norr s = (Ok (true, norr'), s') ->
  SimpleStorage.connect_loop ps norr (unconnected s) = (Ok (true, norr'), s').
Proof.
  destruct ps as [|p ps]; [discriminate|]. cbn [SimpleStorage.connect_loop].
  unfold mbind, M_bind, on_pure, modify. cbn. by destruct (sys_socket p (SimpleStorage.world s)).
Qed.

Lemma open_locked_fresh (s s' : St) :
  SimpleStorage.open_locked fuel s = (Ok tt, s') ->
  SimpleStorage.open_locked fuel (unconnected s) = (Ok tt, s').
Proof.
  unfold SimpleStorage.open_locked. intros (u & ? & [= <- <-] & Hrun)%bind_inv.
  rewrite (bind_ok _ _ (unconnected s) s.(SimpleStorage._uri) (unconnected s)) by done.
  unfold lift_outcome in *. destruct (SimpleStorage.endpoint s.(SimpleStorage._uri)) as [[host port]|e| | |] eqn:Hep;
    try discriminate Hrun.
  rewrite (bind_ok _ _ s (host, port) s) in Hrun by done.
  rewrite (bind_ok _ _ (unconnected s) (host, port) (unconnected s)) by done.
  apply bind_inv in Hrun as (gai & s1 & Hg & Hrun). unfold on_pure in Hg. cbn in Hg.
  destruct (sys_getaddrinfo (c_str host) (c_str port) (SimpleStorage.world s)) as [[rc i] w] eqn:Hga.
  injection Hg as <- <-.
  rewrite (bind_ok _ _ (unconnected s) (rc, i) (unconnected (SimpleStorage.set_world w s)))
    by (unfold on_pure; cbn; by rewrite Hga).
  destruct (negb (rc =? 0)%Z); [discriminate Hrun|].
  apply bind_inv in Hrun as ([found norr] & s2 & Hc & Hrun). destruct found.
  - by rewrite (bind_ok _ _ _ (true, norr) s2) by by apply connect_fresh.
  - apply bind_inv in Hrun as ([] & s3 & _ & Hrun). discriminate Hrun.
Qed.

Definition same_uri (s s' : St) : Prop := s'.(SimpleStorage._uri) = s.(SimpleStorage._uri).
#[local] Instance same_uri_order : PreOrder same_uri.
Proof. split; [done|]. intros s1 s2 s3 H1 H2. unfold same_uri in *. congruence. Qed.

Lemma connect_uri ps : forall norr, moves same_uri (SimpleStorage.connect_loop ps norr).
Proof. induction ps as [|p ps IH]; intros norr; cbn [SimpleStorage.connect_loop]; repeat first [apply IH | moves_step | done]. Qed.

Lemma open_locked_uri : moves same_uri (SimpleStorage.open_locked fuel).
Proof.
  unfold SimpleStorage.open_locked, SimpleStorage.do_recv, SimpleStorage.connected.
  repeat first [apply connect_uri | apply recv_loop_moves; [typeclasses eauto|done|unfold SimpleStorage.on_eof]
               | moves_step | done].
Qed.

(** [open] once it has found the client not connected. *)
Definition locked_open : M St unit := with_lock SimpleStorage.mtx (SimpleStorage.open_locked fuel).

Lemma locked_open_inv (s s' : St) :
  locked_open s = (Ok tt, s') ->
  s.(SimpleStorage._mtx) = false /\ s'.(SimpleStorage._mtx) = false /\
  s'.(SimpleStorage._uri) = s.(SimpleStorage._uri).
Proof.
  unfold locked_open, with_lock. cbn. destruct (SimpleStorage._mtx s) eqn:Hm; [done|].
  destruct (SimpleStorage.open_locked fuel (SimpleStorage.set_mtx true s)) as [o s1] eqn:Ho.
  intros [= -> <-]. split; [done|]. split; [done|]. exact (moves_ok _ _ _ _ _ open_locked_uri Ho).
Qed.

(** From a client without a descriptor it is [open] itself. *)
Lemma locked_open_fresh (s s' : St) :
  locked_open s = (Ok tt, s') -> SimpleStorage.open fuel (unconnected s) = (Ok tt, s').
Proof.
  unfold SimpleStorage.open, locked_open. intros Hrun.
  rewrite (bind_ok _ _ (unconnected s) false (unconnected s)) by done.
  unfold with_lock in *. cbn in *. destruct (SimpleStorage._mtx s); [done|].
  destruct (SimpleStorage.open_locked fuel (SimpleStorage.set_mtx true s)) as [o s1] eqn:Ho.
  injection Hrun as -> <-. apply open_locked_fresh in Ho.
  by rewrite (Ho : SimpleStorage.open_locked fuel (SimpleStorage.set_mtx true (unconnected s)) = _).
Qed.

(** C29. Two threads that both call [open], and both find the client not
    connected before one of them has the lock, both connect.  Both calls return,
    the descriptor of the first connection stays open, and the client has
    forgotten it, so that no [close] will ever give it back. *)
Theorem second_open_leaks (s s1 s2 : St) :
  SimpleStorage.uri_ok s.(SimpleStorage._uri) ->
  locked_open s = (Ok tt, s1) -> locked_open s1 = (Ok tt, s2) ->
  (0 < s1.(SimpleStorage._sockfd))%Z /\ s1.(SimpleStorage._sockfd) ∈ fds s2.(SimpleStorage.world) /\
  s2.(SimpleStorage._sockfd) <> s1.(SimpleStorage._sockfd).
Proof.
  intros Hu H1 H2.
  destruct (locked_open_inv _ _ H1) as (Hm & Hm1 & Hu1). apply locked_open_fresh in H1, H2.
  pose proof (open_returns_connected socket_nonzero fuel (unconnected s) s1 Hu Hm H1) as Hp1.
  assert (SimpleStorage.uri_ok (SimpleStorage._uri (unconnected s1))) as Hu' by by rewrite <- Hu1 in Hu.
  pose proof (open_returns_connected socket_nonzero fuel (unconnected s1) s2 Hu' Hm1 H2) as Hp2.
  assert (tracks (fds s.(SimpleStorage.world)) s1) as Ht1.
  { exact (wp_ok _ _ _ _ _ _ _ (simple_open_fds fuel socket_nonzero (fds s.(SimpleStorage.world))
      (unconnected s) Hu Hm eq_refl) H1). }
  pose proof (wp_ok _ _ _ _ _ _ _ (simple_open_fds fuel socket_nonzero (fds s1.(SimpleStorage.world))
      (unconnected s1) Hu' Hm1 eq_refl) H2) as Ht2.
  unfold tracks in Ht1, Ht2. rewrite (proj2 (Z.ltb_lt _ _) Hp1) in Ht1.
  rewrite (proj2 (Z.ltb_lt _ _) Hp2) in Ht2.
  destruct Ht1 as [_ Hf1], Ht2 as [Hn2 Hf2].
  assert (SimpleStorage._sockfd s1 ∈ fds (SimpleStorage.world s1)) as Hin by (rewrite Hf1; set_solver+).
  split; [done|]. split; [rewrite Hf2; set_solver+Hin|]. congruence.
Qed.
End open.
