(* ===== verification/ThreadTalk.v ===== *)
(** * Threads that talk at the same time

    The exchanges of the threads interleave: while one waits for its reply,
    others send and read on their own sockets, or open them.  [micro] is one
    send, one read, or any change of the queues and atoms, of any thread; under
    it every thread still reads, whole, the reply to its own command.  This
    is what lets [StorageSteps] take a turn of a writer as one step. *)
From stdpp Require Import pretty functions.
From S2P Require Import Prelude CxxString Effects Sockets RecvBuf Barrier Uri Atomese.
From S2P Require Import ListUtils SimpleStorage SimpleIO SimpleSafety SimpleSync SimpleLife.
From S2P Require Import Msg Channel ChannelFacts ChannelSocket ChannelSync FdTable.

Section threads.
Context {W Heap Static Callback Data Q : Type} {SK : Sockets W}.
Context {AB : AsyncBuffer (Msg Callback Data) Q}.
Context (fuel : nat) {SS : SyncServer SK fuel} {DS : Descriptors SK SS} {FT : FdTable SK}.
Abbreviation process := (Channel.process (W := W) (Heap := Heap) (Static := Static) (Q := Q)).
Implicit Types (s : process) (T : nat -> option str).

(** ** The state of a conversation *)

(** A thread on [fd] that has sent [m] has the reply to [m] under way, and
    nothing else; one that waits for nothing has nothing to read. *)
Definition hears (o : option str) (fd : Z) (w : W) : Prop :=
  match o with
  | Some m => fd <> 0%Z /\ exists w0, carries (inbox fd w) (answer m w0 ++ [nl]) /\
                                      length (inbox fd w) <= fuel
  | None => fd <> 0%Z -> inbox fd w = []
  end.

(** Descriptors the threads hold are open, and each is held by one thread. *)
Definition apart (s : process) : Prop :=
  forall t, sockfd_of t s <> 0%Z -> (0 <= sockfd_of t s)%Z ->
    sockfd_of t s ∈ fds s.(world) /\ forall u, u <> t -> sockfd_of u s <> sockfd_of t s.

(** [T t] is the command thread [t] waits on. *)
Definition talking (T : nat -> option str) (s : process) : Prop :=
  apart s /\ forall t, hears (T t) (sockfd_of t s) s.(world).

Lemma hears_same o fd w w' : inbox fd w' = inbox fd w -> hears o fd w -> hears o fd w'.
Proof. unfold hears. by intros ->. Qed.

Lemma hears_invalid fd w w' o : (fd < 0)%Z -> hears o fd w -> hears o fd w'.
Proof. intros Hfd. apply hears_same. by rewrite !invalid_empty. Qed.

(** [w'] has the open descriptors of [w], with the same unread replies. *)
Definition kept (w w' : W) : Prop :=
  fds w ⊆ fds w' /\ forall fd, fd ∈ fds w -> inbox fd w' = inbox fd w.

Lemma kept_trans w1 w2 w3 : kept w1 w2 -> kept w2 w3 -> kept w1 w3.
Proof. intros [A1 A2] [B1 B2]. split; [set_solver|]. intros fd H. rewrite B2 by set_solver. by apply A2. Qed.

(** The conversation of a thread, when the others move the world on. *)
Lemma hears_kept T t s w : talking T s -> kept s.(world) w -> hears (T t) (sockfd_of t s) w.
Proof.
  intros [Ha Hh] [_ Hk]. destruct (decide (sockfd_of t s = 0%Z)) as [Hz|Hnz].
  { specialize (Hh t). rewrite Hz in *. unfold hears in *. destruct (T t); [by destruct Hh|done]. }
  destruct (Z.le_gt_cases 0 (sockfd_of t s)) as [Hp|Hn].
  - apply (hears_same _ _ s.(world)); [|apply Hh]. by apply Hk, Ha.
  - eapply hears_invalid; [lia|apply Hh].
Qed.

(** ** Opening a socket *)

(** One more descriptor is open, with nothing to read. *)
Definition fresh_fd (fd : Z) (w w' : W) : Prop :=
  opened fd w w' /\ inbox fd w' = [] /\ kept w w'.

Lemma fresh_step fd w w1 w2 :
  fds w2 = fds w1 -> same_but fd w1 w2 -> inbox fd w2 = [] -> fresh_fd fd w w1 -> fresh_fd fd w w2.
Proof.
  intros Hf Hs Hin ([Ho1 Ho2] & _ & [K1 K2]). split_and!; [split; [done|congruence]|done|].
  split; [by rewrite Hf|]. intros fd' H. rewrite Hs; [by apply K2|]. intros ->. done.
Qed.

Lemma connect_loop_fresh ps w0 : forall norr s,
  fds s.(world) = fds w0 -> kept w0 s.(world) ->
  wp False (connect_loop ps norr)
    (fun r s' => s'.(tls) = s.(tls) /\
       match r.1 with Some fd => fresh_fd fd w0 s'.(world) | None => True end)
    (fun _ _ => False) s.
Proof.
  induction ps as [|p ps IH]; intros norr s Hf Hk; cbn [connect_loop]; [by wp_step|].
  wp_step. apply wp_on_pure. intros fd w Hsock. change (the s) with (world s) in Hsock.
  assert (same_inbox s.(world) w) as Hsame.
  { pose proof (socket_inbox p (world s)) as H. by rewrite Hsock in H. }
  assert (forall n s1, s1.(tls) = s.(tls) -> fds s1.(world) = fds w0 -> kept w0 s1.(world) ->
    wp False (connect_loop ps n)
      (fun r s' => s'.(tls) = s.(tls) /\
         match r.1 with Some fd => fresh_fd fd w0 s'.(world) | None => True end)
      (fun _ _ => False) s1) as IH'.
  { intros n s1 <- H1 H2. by apply IH. }
  destruct (Z.ltb_spec fd 0) as [Hfd|Hfd].
  { pose proof (socket_fails _ _ _ _ Hsock Hfd) as Hw. apply IH'; cbn; [done|congruence|].
    split; [by rewrite Hw, Hf|]. intros fd' H. rewrite Hsame. by apply Hk. }
  assert (opened fd w0 w) as Ho.
  { unfold opened. rewrite <- Hf. exact (socket_fds _ _ _ _ Hsock Hfd). }
  wp_step. apply wp_on_pure. intros rc w1 Hc. cbn [the put process_world world set_world] in Hc.
  pose proof (connect_fds fd p w) as Hf1. rewrite Hc in Hf1. cbn [snd] in Hf1.
  assert (opened fd w0 w1) as Ho1 by (by eapply opened_same).
  assert (forall fd', fd' ∈ fds w0 -> inbox fd' w1 = inbox fd' w0) as Hin1.
  { intros fd' H. rewrite (connect_others _ _ _ _ _ Hc), Hsame; [by apply Hk|].
    intros ->. by apply Ho. }
  destruct (Z.eqb_spec rc 0) as [->|Hrc].
  - apply wp_ret. cbn. split_and!; [done|]. split; [done|]. split; [by eapply connected_empty|].
    split; [|done]. destruct Ho1 as [_ ->]. set_solver.
  - repeat wp_step. apply wp_on_pure. intros [] w2 [= <-]. apply IH'; cbn; [done|by eapply opened_closed|].
    split; [by rewrite (opened_closed fd w0)|]. intros fd' H. rewrite close_others; [by apply Hin1|].
    intros ->. by apply Ho.
Qed.

Lemma recv_keeps_fds t g s :
  wp True (do_recv fuel t g) (fun _ s' => fds s'.(world) = fds s.(world)) (fun _ _ => True) s.
Proof.
  unfold do_recv. apply wp_bind, wp_gets. destruct (0 =? _)%Z; [by wp_step|].
  apply (recv_loop_safe _ _ _ (fun s' => fds s'.(world) = fds s.(world))); [|done| |done].
  - intros r w s1 H1 Hr. change (the s1) with (world s1) in Hr. rewrite <- H1.
    cbn. pose proof (recv_fds (_sockfd (tls s1 t)) (8 * 1024) s1.(world)) as F. by rewrite Hr in F.
  - intros s1 _. unfold on_eof, get_sockfd. repeat wp_step. apply wp_on_pure. by intros [] w _.
Qed.

Lemma open_sock_fresh c t s :
  wp True (open_sock fuel c t)
    (fun fd s' => fd <> 0%Z /\ (forall u, u <> t -> s'.(tls) u = s.(tls) u) /\
       ((fd < 0)%Z /\ s'.(world) = s.(world) \/ fresh_fd fd s.(world) s'.(world)))
    (fun _ _ => True) s.
Proof.
  unfold open_sock. apply wp_bind, wp_gets. destruct (_servinfo (chans s c)) as [i|].
  2: { apply wp_ret. split_and!; [done|done|by left]. }
  wp_step. eapply wp_mono; [apply wp_weaken, (connect_loop_fresh i s.(world)); [done|]| |done].
  { split; [done|]. by intros. }
  intros [found norr] s1 [Ht Hf]. cbn [fst snd] in *. destruct found as [fd|]; [|by wp_step].
  wp_step. apply wp_on_pure. intros rc1 w1 H1. wp_step. apply wp_on_pure. intros rc2 w2 H2.
  wp_step. apply wp_on_pure. intros rc3 w3 H3.
  cbn [the put process_world world set_world] in *.
  assert (fresh_fd fd s.(world) w2) as Hw2.
  { pose proof (setsockopt_fds fd TCP_NODELAY s1.(world)) as F1. rewrite H1 in F1.
    pose proof (setsockopt_fds fd TCP_QUICKACK w1) as F2. rewrite H2 in F2.
    pose proof (setsockopt_inbox fd TCP_NODELAY s1.(world)) as I1. rewrite H1 in I1.
    pose proof (setsockopt_inbox fd TCP_QUICKACK w1) as I2. rewrite H2 in I2. cbn [snd] in *.
    eapply fresh_step; [|intros x _; apply I2| |]; [done|rewrite I2, I1; apply Hf|].
    eapply fresh_step; [|intros x _; apply I1| |exact Hf]; [done|rewrite I1; apply Hf]. }
  destruct (Z.ltb_spec rc3 0) as [Hrc|Hrc]; [by repeat wp_step|].
  destruct (greeting _ _ _ _ _ H3 Hrc (proj1 (proj2 Hw2))) as (g & Hg & Hscrub).
  pose proof (send_fds fd (lit "sexpr" ++ [nl]) false w2) as F3. rewrite H3 in F3. cbn [snd] in F3.
  wp_step. wp_step. set (s3 := set_tls t (mkTlso fd (Some c)) _).
  assert (sockfd_of t s3 = fd) as Hfd by (unfold sockfd_of, s3; cbn [tls set_tls]; by rewrite fn_lookup_insert).
  assert (forall u, u <> t -> s3.(tls) u = s.(tls) u) as Hu.
  { intros u Hne. unfold s3. cbn [tls set_tls set_world put process_world].
    rewrite fn_lookup_insert_ne by done. by rewrite Ht. }
  apply wp_bind. destruct (decide (fd = 0%Z)) as [Hz|Hnz].
  { unfold do_recv. apply wp_bind, wp_gets. change (_sockfd (tls s3 t)) with (sockfd_of t s3).
    rewrite Hfd, Hz. by apply wp_throw. }
  eapply (wp_mono _ _ (fun _ s' => (exists w, s' = set_world w s3 /\ same_but fd w3 w /\ inbox fd w = [])
    /\ fds s'.(world) = fds w3) _ (fun _ _ => True /\ True)); [apply wp_conj| |done].
  - apply (recv_prompt fuel True t s3 g); rewrite ?Hfd; [done|done|done|done|].
    intros r w Hsame Hin. by exists w.
  - apply (recv_keeps_fds t true s3).
  - intros r s4 [(w & -> & Hsame & Hin) Hfds]. unfold upd_chan. repeat wp_step.
    split_and!; [done|done|right]. eapply (fresh_step fd _ w2); [|intros x Hx|exact Hin|exact Hw2].
    + cbn. rewrite <- F3. exact Hfds.
    + cbn. rewrite Hsame by done. by rewrite (send_others _ _ _ _ _ _ H3).
Qed.

(** ** Sending *)

(** Thread [t] goes on with descriptor [fd] and waits for [o]; the others are
    where they were. *)
Lemma talking_next t o fd T s s' :
  talking T s -> sockfd_of t s' = fd -> (forall u, u <> t -> sockfd_of u s' = sockfd_of u s) ->
  (forall u, u <> t -> hears (T u) (sockfd_of u s) s'.(world)) -> hears o fd s'.(world) ->
  fds s.(world) ⊆ fds s'.(world) ->
  (fd <> 0%Z -> (0 <= fd)%Z -> fd ∈ fds s'.(world) /\
     (fd = sockfd_of t s \/ (fd ∉ fds s.(world)))) ->
  talking (<[t := o]> T) s'.
Proof.
  intros [Ha Hh] Ht Hu Hhu Ho Hsub Hfd. split.
  - intros u. destruct (decide (u = t)) as [->|Hne].
    + rewrite Ht. intros Hnz Hp. destruct (Hfd Hnz Hp) as [Hin Hnew]. split; [done|].
      intros v Hv. rewrite Hu by done. intros Heq. destruct Hnew as [->|Hnew].
      * by destruct (Ha t Hnz Hp) as [_ Hd]; apply (Hd v).
      * destruct (Ha v) as [Hv' _]; [congruence|lia|]. congruence.
    + rewrite Hu by done. intros Hnz Hp. destruct (Ha u Hnz Hp) as [Hin Hd]. split; [set_solver|].
      intros v Hv. destruct (decide (v = t)) as [->|Hvt]; [|rewrite Hu by done; by apply Hd].
      rewrite Ht. intros Heq. destruct Hfd as [_ [->|Hnew]]; [congruence|lia| |congruence].
      by apply (Hd t).
  - intros u. destruct (decide (u = t)) as [->|Hne].
    + by rewrite fn_lookup_insert, Ht.
    + rewrite fn_lookup_insert_ne, Hu by done. by apply Hhu.
Qed.

(** What a call on the descriptor of [t] alone does to the other threads. *)
Lemma others_hear t T s w :
  talking T s -> sockfd_of t s <> 0%Z -> same_but (sockfd_of t s) s.(world) w ->
  forall u, u <> t -> hears (T u) (sockfd_of u s) w.
Proof.
  intros [Ha Hh] Hnz Hw u Hu. destruct (decide (sockfd_of u s = sockfd_of t s)) as [Heq|Hne].
  - destruct (Z.le_gt_cases 0 (sockfd_of t s)) as [Hp|Hn].
    + by destruct (Ha t Hnz Hp) as [_ Hd]; destruct (Hd u Hu).
    + eapply hears_invalid; [lia|apply Hh].
  - eapply hears_same; [by apply Hw|apply Hh].
Qed.

(** What a thread waits for after sending [m]. *)
Definition waits (m : str) : option str := if expects_reply m then Some m else None.

Lemma send_talking t m T s :
  talking T s -> sockfd_of t s <> 0%Z -> T t = None ->
  expects_reply m = true \/ is_silent m = true ->
  wp True (fd ← get_sockfd t; rc ← on_pure (sys_send fd m true);
           if (rc <? 0)%Z then throw_errno "Unable to talk to cogserver: %s"
           else modify (add_wire (t, fd, m)))
    (fun _ s' => talking (<[t := waits m]> T) s') (fun _ _ => True) s.
Proof.
  intros Hs Hnz HT Hm. apply wp_bind, wp_gets, wp_bind, wp_on_pure.
  change (_sockfd (tls s t)) with (sockfd_of t s). change (the s) with (world s).
  intros rc w Hw. destruct (Z.ltb_spec rc 0) as [Hrc|Hrc]; [by unfold throw_errno; repeat wp_step|].
  pose proof (proj2 Hs t) as Hin. rewrite HT in Hin. specialize (Hin Hnz).
  pose proof (send_fds (sockfd_of t s) m true s.(world)) as Hf. rewrite Hw in Hf. cbn [snd] in Hf.
  wp_step. apply (talking_next t _ (sockfd_of t s) T s); [done|done|done| | | |].
  - apply (others_hear t); [done..|]. by eapply send_others.
  - unfold waits, hears. destruct Hm as [Hm|Hm].
    + rewrite Hm. destruct (send_answered _ _ _ _ _ _ Hw Hrc Hm) as (cs & Hcs & Hc & Hl).
      split; [done|]. exists s.(world). cbn. rewrite Hcs, Hin. done.
    + unfold expects_reply. rewrite Hm, andb_false_r. intros _. cbn.
      by rewrite (send_silent _ _ _ _ _ _ Hw) by auto.
  - cbn. by rewrite Hf.
  - cbn. rewrite Hf. intros _ Hp. split; [by apply Hs|by left].
Qed.

Lemma do_send_talking c t m T s :
  talking T s -> T t = None -> expects_reply m = true \/ is_silent m = true ->
  wp True (do_send fuel c t m) (fun _ s' => talking (<[t := waits m]> T) s') (fun _ _ => True) s.
Proof.
  intros Hs HT Hm. unfold do_send. apply wp_bind, wp_gets. apply wp_bind.
  change (_sockfd (tls s t)) with (sockfd_of t s).
  destruct (Z.eqb_spec 0 (sockfd_of t s)) as [Hz|Hnz]; [|wp_step; by apply send_talking].
  apply wp_bind. eapply wp_mono; [apply open_sock_fresh| |done].
  intros fd s1 (Hnz & Hu & Hw). unfold set_sockfd. wp_step.
  match goal with |- wp _ _ _ _ ?x => set (s2 := x) end.
  assert (sockfd_of t s2 = fd) as Ht.
  { unfold sockfd_of, s2. cbn [tls set_tls]. by rewrite fn_lookup_insert. }
  assert (forall u, u <> t -> sockfd_of u s2 = sockfd_of u s) as Hu2.
  { intros u Hne. unfold sockfd_of, s2. cbn [tls set_tls]. rewrite fn_lookup_insert_ne by done. by rewrite Hu. }
  assert (world s2 = world s1) as Hw2 by done.
  assert (kept s.(world) s1.(world)) as Hk.
  { destruct Hw as [[_ ->]|Hw]; [split; [done|]; by intros|apply Hw]. }
  assert (talking (<[t := None]> T) s2) as Hs2.
  { apply (talking_next t None fd T s); try done.
    - intros u _. rewrite Hw2. by apply hears_kept.
    - intros _. rewrite Hw2. destruct Hw as [[Hn _]|Hw]; [by apply invalid_empty|apply Hw].
    - apply Hk.
    - intros _ Hp. rewrite Hw2. destruct Hw as [[Hn _]|[[Hn ->] _]]; [lia|]. split; [set_solver|by right]. }
  eapply wp_mono; [apply (send_talking t m (<[t := None]> T)); [done|by rewrite Ht| |done]| |done].
  - by rewrite fn_lookup_insert.
  - intros [] s3 [A B]. split; [exact A|]. intros u. specialize (B u).
    destruct (decide (t = u)) as [<-|Hne]; rewrite ?fn_lookup_insert, ?fn_lookup_insert_ne in * by done; done.
Qed.

(** ** Reading *)

Lemma recvs_others fd n w cs w' : recvs fd n w cs w' -> same_but fd w w' /\ fds w' = fds w.
Proof.
  induction 1 as [w0|w0 d w1 ds w2 H _ [IH1 IH2]]; [done|]. split.
  - intros fd' Hne. rewrite IH1 by done. by eapply recv_others.
  - rewrite IH2. pose proof (recv_fds fd n w0) as F. by rewrite H in F.
Qed.

Lemma do_recv_talking t m T s :
  talking T s -> T t = Some m ->
  exists w0 w, do_recv fuel t false s = (Ok (answer m w0 ++ [nl]), set_world w s) /\
    talking (<[t := None]> T) (set_world w s).
Proof.
  intros Hs HT. pose proof (proj2 Hs t) as Hin. rewrite HT in Hin.
  destruct Hin as (Hnz & w0 & Hc & Hl).
  destruct (inbox_recvs fuel (8 * 1024) _ (sockfd_of t s) s.(world) ltac:(lia) eq_refl)
    as (w & Hr & Hw).
  exists w0, w. split.
  - unfold do_recv. rewrite get_sockfd_bind. rewrite (proj2 (Z.eqb_neq 0 _)) by done.
    apply (recv_loop_reply (fun s => (s.(tls) t).(_sockfd)) (8 * 1024) (on_eof t)
      ltac:(done) (inbox (sockfd_of t s) s.(world)) fuel true [] s w (answer m w0)); [exact Hr|exact Hc|apply answer_plain|done|done].
  - destruct (recvs_others _ _ _ _ _ Hr) as [Hsame Hf].
    apply (talking_next t None (sockfd_of t s) T s); cbn; [done|done|done| |done|by rewrite Hf|].
    + by apply (others_hear t).
    + rewrite Hf. intros _ Hp. split; [by apply Hs|by left].
Qed.

(** ** Interleaving *)

(** The process, and what each thread waits for.  A thread that waits for a
    reply does nothing but read it; all else, callbacks, queues and atoms, any
    thread may change at any time. *)
Inductive micro : process * (nat -> option str) -> process * (nat -> option str) -> Prop :=
| micro_send c t m s s' T :
    T t = None -> expects_reply m = true \/ is_silent m = true ->
    do_send fuel c t m s = (Ok tt, s') -> micro (s, T) (s', <[t := waits m]> T)
| micro_recv t m r s s' T :
    T t = Some m -> do_recv fuel t false s = (Ok r, s') -> micro (s, T) (s', <[t := None]> T)
| micro_other s s' T :
    s'.(world) = s.(world) -> s'.(tls) = s.(tls) -> micro (s, T) (s', T).

Lemma micro_talking x y : micro x y -> talking x.2 x.1 -> talking y.2 y.1.
Proof.
  destruct 1 as [c t m s s' T HT Hm Hrun|t m r s s' T HT Hrun|s s' T Hw Ht]; cbn; intros Hs.
  - pose proof (do_send_talking c t m T s Hs HT Hm) as H. unfold wp in H. by rewrite Hrun in H.
  - destruct (do_recv_talking t m T s Hs HT) as (w0 & w & H & Hs'). rewrite H in Hrun.
    by injection Hrun as _ <-.
  - unfold talking, apart, sockfd_of. rewrite Hw, Ht. exact Hs.
Qed.

(** C6. However the sends, the reads, the openings of sockets and the changes of
    the queues interleave among the threads: a thread that has sent a command
    reads, whole, the reply to that command, without an error, and all others
    still have theirs to read. *)
Theorem threads_hear_their_replies s0 T0 s T t m :
  talking T0 s0 -> rtc micro (s0, T0) (s, T) -> T t = Some m ->
  exists w0 w, do_recv fuel t false s = (Ok (answer m w0 ++ [nl]), set_world w s) /\
    talking (<[t := None]> T) (set_world w s).
Proof.
  intros Hs Hsteps. apply do_recv_talking. change (talking (s, T).2 (s, T).1).
  change (talking (s0, T0).2 (s0, T0).1) in Hs. revert Hsteps Hs. generalize (s, T), (s0, T0).
  induction 1 as [x|x y z Hxy _ IH]; [done|]. intros Hx. by apply IH, (micro_talking x).
Qed.
End threads.
