(* ===== verification/Storage.v ===== *)
(** * CogStorage.cc and CogIO.cc: the multi-threaded client

    A [CogStorage] node owns one [CogChannel].  Its operations check that the
    channel is open and queue messages; replies come back in the writer
    threads, to the callbacks below.  Node number [c] owns channel number [c]. *)
From stdpp Require Import pretty functions.
From S2P Require Import Prelude CxxString Effects Sockets RecvBuf Barrier Uri Atomese.
From S2P Require Import ListUtils Msg Channel.

(** The member functions used as callbacks. *)
Inductive client_callback :=
| noop_const
| cb_decode_atom_list
| cb_decode_value
| cb_decode_kvp_list_const.

Section Storage.
Context {W Heap Q : Type} {SK : Sockets W} {AT : Atomese Heap}.

(** [struct Pkt]; a null pointer or an undefined handle is [None]. *)
Record Pkt := mkPkt {
  table : option AtomSpace;
  pkt_h : option Handle;
  pkt_key : option Handle;
}.

Definition no_pkt : Pkt := mkPkt None None None.

Context {AB : AsyncBuffer (Msg client_callback Pkt) Q}.

(** A node: the name it was made with and the URI [init] left. *)
Record CogStorage := mkStorage { _name : str; node_uri : str }.

(** The static variable is the [_fid_map] of [decode_atom_list]. *)
Abbreviation process := (Channel.process (W := W) (Heap := Heap) (Static := gmap str Handle)
  (Q := Q)).
Abbreviation Proc := (M process).

(** ** Construction *)

Definition init (uri : str) : outcome str :=
  if negb (strncmp_eq uri scheme) then Throw (unknown_uri (c_str uri))
  else
    let _uri := c_str uri in
    let parg := find qmark _uri 0 in
    if negb (parg =? npos)%Z then
      args ← or_throw OutOfRange (substr_from _uri (wadd parg 1));
      refuse_args args
    else Ok _uri.

Definition construct (uri : str) : outcome CogStorage :=
  u ← init uri;
  Ok (mkStorage uri u).

(** The two constructors of the node class, which pass the URI on. *)
Definition CogStorageNode (uri : str) : outcome CogStorage := construct uri.

Context (fuel : nat) (nodes : nat -> CogStorage).

Definition connected (c : nat) : Proc bool := Channel.connected c.

(** [CHECK_OPEN] *)
Definition not_open (c : nat) : exn :=
  IOException "CogStorageNode is not open!  '%s'\n" [FStr (c_str (nodes c).(_name))].

Definition check_open (c : nat) : Proc unit :=
  b ← connected c;
  if b : bool then mret tt else throw (not_open c).

(** ** Callbacks *)

Definition enqueue (c : nat) (m : str) (p : Pkt) (cb : client_callback) : Proc unit :=
  Channel.enqueue c m p cb.
Definition enqueue_noreply (c : nat) (m : str) : Proc unit :=
  Channel.enqueue_noreply no_pkt c m.

Definition decode_value (reply : str) (pkt : Pkt) : Proc unit :=
  vp ← on (Atomese.decode_value reply 0);
  match pkt.(pkt_h), pkt.(pkt_key) with
  | Some h, Some key =>
      as_ ← gets (fun s => getAtomSpace h s.(heap));
      vp ← (match as_ with
            | Some a => on (sexpr_add_atoms a vp.1)
            | None => mret vp.1
            end);
      on_pure (fun w => (tt, setValue h key vp w))
  | _, _ => undef
  end.

Definition decode_kvp_list_const (reply : str) (pkt : Pkt) : Proc unit :=
  match pkt.(pkt_h) with
  | Some h => ro_decode_alist fuel pkt.(table) h reply
  | None => undef
  end.

Fixpoint atom_list_loop (n c : nat) (tbl : option AtomSpace) (expr : str)
    (l r end_ : Z) : Proc unit :=
  match n with
  | 0 => nofuel
  | S n =>
      nx ← lift_outcome (get_next_expr expr l r 0);
      let '(pcnt, (l, r)) := nx in
      if (l =? r)%Z then mret tt
      else if (0 <? pcnt)%Z then mret tt
      else
        h0 ← on (decode_atom_lr expr l r 0);
        h ← on (add_nocheck tbl h0);
        e ← lift_outcome (or_throw OutOfRange (substr expr l (wadd (wsub r l) 1)));
        enqueue c (lit "(cog-keys->alist " ++ e ++ lit ")" ++ [nl])
          (mkPkt None (Some h) None) cb_decode_kvp_list_const;;
        atom_list_loop n c tbl expr (wadd r 1) end_ end_
  end.

Definition decode_atom_list (c : nat) (expr : str) (pkt : Pkt) : Proc unit :=
  let l := wadd (find lparen expr 0) 1 in
  let end_ := rfind rparen expr in
  if (l =? end_)%Z then mret tt
  else atom_list_loop fuel c pkt.(table) expr l end_ end_.

Definition run_callback (c t : nat) (cb : client_callback) (reply : str) (pkt : Pkt)
    : Proc unit :=
  match cb with
  | noop_const => mret tt
  | cb_decode_atom_list => decode_atom_list c reply pkt
  | cb_decode_value => decode_value reply pkt
  | cb_decode_kvp_list_const => decode_kvp_list_const reply pkt
  end.

Definition io_barrier (c t : nat) : Proc unit := Channel.barrier fuel run_callback no_pkt c t.

(** ** Opening and closing *)

Definition barrier (c t : nat) : Proc unit := io_barrier c t.

Definition proxy_open (c t : nat) : Proc unit :=
  io_barrier c t;;
  enqueue c (lit "(cog-proxy-open)" ++ [nl]) no_pkt noop_const;;
  io_barrier c t.

Definition proxy_close (c t : nat) : Proc unit :=
  io_barrier c t;;
  enqueue c (lit "(cog-proxy-close)" ++ [nl]) no_pkt noop_const;;
  io_barrier c t.

Definition open (c t : nat) : Proc unit :=
  b ← connected c;
  if b : bool then mret tt
  else open_connection fuel c t (c_str (nodes c).(node_uri)).

Definition close (c t : nat) : Proc unit :=
  b ← connected c;
  if b : bool then
    proxy_close c t;;
    io_barrier c t;;
    close_connection fuel run_callback c
  else mret tt.

(** The destructor, and that of the member [_io_queue] after it. *)
Definition destroy (c t : nat) : Proc fate :=
  noexcept (close c t;; Channel.destroy fuel run_callback c).

Definition monitor (c : nat) : Proc str :=
  stats ← print_stats c;
  mret (lit "CogStorageNode I/O Queue Stats:" ++ [nl] ++ stats).

(** ** Storing *)

Definition tv_clobber : str :=
  lit "(Predicate " ++ [dq] ++ lit "*-TruthValueKey-*" ++ [dq] ++ lit ") #f)".

Definition storeAtom (c : nat) (h : Handle) : Proc unit :=
  check_open c;;
  w ← gets heap;
  let msg :=
    if haveValues h w then
      lit "(cog-set-values! " ++ encode_atom h false w ++ encode_atom_values h w ++
      lit ")" ++ [nl]
    else
      lit "(cog-set-value! " ++ encode_atom h false w ++ tv_clobber ++ [nl] in
  enqueue_noreply c msg.

Definition storeValue (c : nat) (h key : Handle) : Proc unit :=
  check_open c;;
  w ← gets heap;
  let msg := lit "(cog-set-value! " ++ encode_atom h false w ++ encode_atom key false w ++
             encode_value (getValue h key w) w ++ lit ")" ++ [nl] in
  enqueue_noreply c msg.

Definition updateValue (c : nat) (h key : Handle) (delta : Value) : Proc unit :=
  check_open c;;
  w ← gets heap;
  let msg := lit "(cog-update-value! " ++ encode_atom h false w ++ encode_atom key false w ++
             encode_value delta w ++ lit ")" ++ [nl] in
  enqueue_noreply c msg.

Definition removeAtom (c : nat) (frame : option AtomSpace) (h : Handle) (recursive : bool)
    : Proc unit :=
  check_open c;;
  w ← gets heap;
  let msg :=
    if recursive then lit "(cog-extract-recursive! " ++ encode_atom h false w ++ lit ")" ++ [nl]
    else lit "(cog-extract! " ++ encode_atom h false w ++ lit ")" ++ [nl] in
  enqueue c msg no_pkt noop_const.

Definition set_proxy (c t : nat) (h : Handle) : Proc unit :=
  check_open c;;
  storeAtom c h;;
  barrier c t;;
  w ← gets heap;
  let msg := lit "(cog-set-proxy! " ++ encode_atom h false w ++ lit ")" ++ [nl] in
  enqueue c msg no_pkt noop_const;;
  io_barrier c t.

Definition storeAtomSpace (c t : nat) (tbl : AtomSpace) : Proc unit :=
  check_open c;;
  all_atoms ← gets (fun s => get_all_handles tbl s.(heap));
  for_each (storeAtom c) all_atoms;;
  io_barrier c t.

Definition kill_data (c t : nat) : Proc unit :=
  check_open c;;
  io_barrier c t;;
  enqueue c (lit "(cog-atomspace-clear)" ++ [nl]) no_pkt noop_const;;
  io_barrier c t.

(** ** Fetching *)

Definition loadValue (c : nat) (h key : Handle) : Proc unit :=
  check_open c;;
  w ← gets heap;
  let msg := lit "(cog-value " ++ encode_atom h false w ++ encode_atom key false w ++
             lit ")" ++ [nl] in
  enqueue c msg (mkPkt None (Some h) (Some key)) cb_decode_value.

Definition typena (h : Handle) (w : Heap) : str :=
  getTypeName (get_type h) ++ lit " " ++
  (if is_node h then [dq] ++ get_name h ++ [dq]
   else concat (map (fun ho => encode_atom ho false w) (getOutgoingSet h))).

Definition iknow (h : Handle) (w : Heap) : str :=
  (if is_node h then lit "(cog-node '" else lit "(cog-link '") ++ typena h w ++
  lit ")" ++ [nl].

Definition get_keys (h : Handle) (w : Heap) : str :=
  lit "(cog-keys->alist (" ++ typena h w ++ lit "))" ++ [nl].

(** What is known of the pointer [pkt.table]: is it non-null?  [None] is an
    indeterminate pointer, which must not be looked at. *)
Definition pointer := option bool.

Definition is_ok (tbl : pointer) (reply : str) : pointer :=
  if compare_eq reply 2 (lit "()") then tbl else Some true.

(** [Pkt pkt;] leaves [pkt.table] uninitialised.  For the language its value is
    indeterminate, [junk] is [None], and testing it is undefined behaviour; a
    compiled program may find a null pointer there, or another one: [junk] is
    then [Some false] or [Some true]. *)
Definition getAtom (junk : pointer) (c t : nat) (h : Handle) : Proc unit :=
  check_open c;;
  w ← gets heap;
  tbl ← synchro fuel c t (iknow h w) (fun reply => mret (is_ok junk reply));
  match tbl with
  | None => undef
  | Some false => mret tt
  | Some true => enqueue c (get_keys h w) (mkPkt None (Some h) None) cb_decode_kvp_list_const
  end.

Definition fetchIncomingSet (c : nat) (tbl : option AtomSpace) (h : Handle) : Proc unit :=
  check_open c;;
  w ← gets heap;
  let msg := lit "(cog-incoming-set " ++ encode_atom h false w ++ lit ")" ++ [nl] in
  enqueue c msg (mkPkt tbl None None) cb_decode_atom_list.

Definition fetchIncomingByType (c : nat) (tbl : option AtomSpace) (h : Handle) (ty : AtomType)
    : Proc unit :=
  check_open c;;
  w ← gets heap;
  let msg := lit "(cog-incoming-by-type " ++ encode_atom h false w ++ lit " '" ++
             getTypeName ty ++ lit ")" ++ [nl] in
  enqueue c msg (mkPkt tbl None None) cb_decode_atom_list.

Definition loadAtomSpace (c t : nat) (tbl : option AtomSpace) : Proc unit :=
  check_open c;;
  enqueue c (lit "(cog-get-atoms 'Node #t)" ++ [nl]) (mkPkt tbl None None) cb_decode_atom_list;;
  flush fuel run_callback c;;
  enqueue c (lit "(cog-get-atoms 'Link #t)" ++ [nl]) (mkPkt tbl None None) cb_decode_atom_list;;
  io_barrier c t.

Definition loadType (c : nat) (tbl : option AtomSpace) (ty : AtomType) : Proc unit :=
  check_open c;;
  enqueue c (lit "(cog-get-atoms '" ++ getTypeName ty ++ lit ")" ++ [nl])
    (mkPkt tbl None None) cb_decode_atom_list.

Definition query_text (query key : Handle) (meta : option Handle) (fresh : bool)
    (w : Heap) : str :=
  lit "(cog-execute-cache! " ++ encode_atom query false w ++ encode_atom key false w ++
  (match meta with
   | Some m => encode_atom m false w ++ (if fresh then lit " #t" else [])
   | None => []
   end) ++ lit ")" ++ [nl].

Definition runQuery (c : nat) (query key : Handle) (meta : option Handle) (fresh : bool)
    : Proc unit :=
  check_open c;;
  w ← gets heap;
  enqueue c (query_text query key meta fresh w) (mkPkt None (Some query) (Some key))
    cb_decode_value.
End Storage.
