(* ===== verification/StorageFacts.v ===== *)
(** * The two clients speak the same language

    The requests of the multi-threaded client against those of the
    single-socket client, the flags that tell the writers whether to wait for a
    reply, and what the multi-threaded client does around its queue. *)
From stdpp Require Import pretty functions.
From S2P Require Import Prelude CxxString Effects Sockets RecvBuf Barrier Uri Atomese.
From S2P Require Import ListUtils SimpleStorage SimpleIO SimpleSafety SimpleSync.
From S2P Require Import SimpleSpec SimpleFetch Msg Channel ChannelFacts ChannelSocket.
From S2P Require Import Storage.

(** ** Endpoints *)

Section endpoint.
Context {Heap : Type} {AT : Atomese Heap}.

Lemma parse_uri_ok u :
  uri_ok u ->
  exists hp, SimpleStorage.endpoint u = Ok hp /\ Channel.parse_uri u = Ok (u, hp).
Proof.
  intros (Hfit & Hnul & [t ->] & Hq). apply Forall_app in Hnul as [_ Hnul].
  exists (before is_sep t, port_ref (rest_after is_sep t)).
  split; [by apply endpoint_spec|]. unfold parse_uri.
  apply find_qmark in Hq; [|done]. rewrite Hq, Z.eqb_refl. cbn [mbind outcome_bind].
  change URIX_LEN with (size scheme). rewrite substr_from_at by done.
  cbn [mbind outcome_bind or_throw]. rewrite host_of_spec.
  - cbn [mbind outcome_bind]. destruct (before_split is_sep t) as (Ht & _).
    assert (port_of (scheme ++ t) (before is_sep t) = Ok (port_ref (rest_after is_sep t))) as ->; [|done].
    rewrite Ht at 1. apply port_of_spec. by rewrite <- Ht.
  - unfold fits in *. rewrite size_app, size_scheme in Hfit. unfold URIX_LEN in Hfit. lia.
Qed.

(** For every URI a node keeps, the channel connects to the same host and
    port as the single-socket client: the documented one. *)
Theorem same_endpoint u :
  uri_ok u ->
  exists hp, SimpleStorage.endpoint u = Ok hp /\ Channel.parse_uri u = Ok (u, hp).
Proof. apply parse_uri_ok. Qed.
End endpoint.

(** ** Requests *)

Section requests.
Context {W Heap Q : Type} {SK : Sockets W} {AT : Atomese Heap}.
Context {AB : AsyncBuffer (Msg client_callback Pkt) Q}.
Context (fuel : nat) (nodes : nat -> CogStorage).
Abbreviation process := (Channel.process (W := W) (Heap := Heap) (Static := gmap str Handle)
  (Q := Q)).
Abbreviation Simple := (CogSimpleStorage (W := W) (Heap := Heap)).

(** The operations that are one request. *)
Inductive request :=
| RStoreAtom (h : Handle)
| RStoreValue (h key : Handle)
| RUpdateValue (h key : Handle) (delta : Value)
| RLoadValue (h key : Handle)
| RRemoveAtom (frame : option AtomSpace) (h : Handle) (recursive : bool)
| RFetchIncomingSet (table : option AtomSpace) (h : Handle)
| RFetchIncomingByType (table : option AtomSpace) (h : Handle) (t : AtomType)
| RLoadType (table : option AtomSpace) (t : AtomType)
| RRunQuery (query key : Handle) (meta : option Handle) (fresh : bool).

Definition queue_request (c : nat) (r : request) : M process unit :=
  match r with
  | RStoreAtom h => Storage.storeAtom nodes c h
  | RStoreValue h key => Storage.storeValue nodes c h key
  | RUpdateValue h key delta => Storage.updateValue nodes c h key delta
  | RLoadValue h key => Storage.loadValue nodes c h key
  | RRemoveAtom f h rec => Storage.removeAtom nodes c f h rec
  | RFetchIncomingSet tbl h => Storage.fetchIncomingSet nodes c tbl h
  | RFetchIncomingByType tbl h t => Storage.fetchIncomingByType nodes c tbl h t
  | RLoadType tbl t => Storage.loadType nodes c tbl t
  | RRunQuery query key meta fresh => Storage.runQuery nodes c query key meta fresh
  end.

Definition simple_request (r : request) : simple_op :=
  match r with
  | RStoreAtom h => OpStoreAtom h
  | RStoreValue h key => OpStoreValue h key
  | RUpdateValue h key delta => OpUpdateValue h key delta
  | RLoadValue h key => OpLoadValue h key
  | RRemoveAtom f h rec => OpRemoveAtom f h rec
  | RFetchIncomingSet tbl h => OpFetchIncomingSet tbl h
  | RFetchIncomingByType tbl h t => OpFetchIncomingByType tbl h t
  | RLoadType tbl t => OpLoadType tbl t
  | RRunQuery query key meta fresh => OpRunQuery query key meta fresh
  end.

(** The reference text of each request, and what its reply is for. *)
Definition request_text (r : request) (w : Heap) : str :=
  match r with
  | RStoreAtom h => SimpleIO.store_text h false w
  | RStoreValue h key =>
      lit "(cog-set-value! " ++ encode_atom h false w ++ encode_atom key false w ++
      encode_value (getValue h key w) w ++ lit ")" ++ [nl]
  | RUpdateValue h key delta =>
      lit "(cog-update-value! " ++ encode_atom h false w ++ encode_atom key false w ++
      encode_value delta w ++ lit ")" ++ [nl]
  | RLoadValue h key =>
      lit "(cog-value " ++ encode_atom h false w ++ encode_atom key false w ++ lit ")" ++ [nl]
  | RRemoveAtom _ h rec =>
      if rec : bool then lit "(cog-extract-recursive! " ++ encode_atom h false w ++ lit ")" ++ [nl]
      else lit "(cog-extract! " ++ encode_atom h false w ++ lit ")" ++ [nl]
  | RFetchIncomingSet _ h => lit "(cog-incoming-set " ++ encode_atom h false w ++ lit ")" ++ [nl]
  | RFetchIncomingByType _ h t =>
      lit "(cog-incoming-by-type " ++ encode_atom h false w ++ lit " '" ++ getTypeName t ++
      lit ")" ++ [nl]
  | RLoadType _ t => lit "(cog-get-atoms '" ++ getTypeName t ++ lit ")" ++ [nl]
  | RRunQuery query key meta fresh => SimpleIO.query_text query key meta fresh w
  end.

Definition request_reply (r : request) : option (client_callback * Pkt) :=
  match r with
  | RStoreAtom _ | RStoreValue _ _ | RUpdateValue _ _ _ => None
  | RLoadValue h key => Some (cb_decode_value, mkPkt None (Some h) (Some key))
  | RRemoveAtom _ _ _ => Some (noop_const, no_pkt)
  | RFetchIncomingSet tbl _ | RFetchIncomingByType tbl _ _ | RLoadType tbl _ =>
      Some (cb_decode_atom_list, mkPkt tbl None None)
  | RRunQuery query key _ _ => Some (cb_decode_value, mkPkt None (Some query) (Some key))
  end.

(** The message a request makes. *)
Definition request_msg (r : request) (s : process) : Msg client_callback Pkt * Z :=
  let text := request_text r s.(Channel.heap) in
  match request_reply r with
  | None => new_msg None true text no_pkt s.(_sequence_counter)
  | Some (cb, p) => new_msg (Some cb) false text p s.(_sequence_counter)
  end.

Definition is_open (c : nat) (s : process) : Prop :=
  is_Some (s.(chans) c).(_servinfo).

Lemma check_open_ok c s : is_open c s -> check_open nodes c s = (Ok tt, s).
Proof.
  intros Ho. unfold check_open, connected, Channel.connected, mbind, M_bind, gets.
  by rewrite bool_decide_eq_true_2.
Qed.

Lemma check_open_closed c s : ~ is_open c s -> check_open nodes c s = (Throw (not_open nodes c), s).
Proof.
  intros Ho. unfold check_open, connected, Channel.connected, mbind, M_bind, gets.
  by rewrite bool_decide_eq_false_2.
Qed.

Lemma queue_request_run c r s :
  is_open c s ->
  queue_request c r s =
    (Ok tt, set_chan c (with_buffer (buf_insert (request_msg r s).1 (s.(chans) c).(_msg_buffer))
              (s.(chans) c)) (set_counter (request_msg r s).2 s)).
Proof.
  intros Ho. destruct r; cbn [queue_request];
    unfold Storage.storeAtom, Storage.storeValue, Storage.updateValue, Storage.loadValue,
      Storage.removeAtom, Storage.fetchIncomingSet, Storage.fetchIncomingByType,
      Storage.loadType, Storage.runQuery;
    by rewrite (bind_ok _ _ s tt s (check_open_ok c s Ho)).
Qed.

Lemma queue_request_closed c r s :
  ~ is_open c s -> queue_request c r s = (Throw (not_open nodes c), s).
Proof.
  intros Ho. destruct r; cbn [queue_request];
    unfold Storage.storeAtom, Storage.storeValue, Storage.updateValue, Storage.loadValue,
      Storage.removeAtom, Storage.fetchIncomingSet, Storage.fetchIncomingByType,
      Storage.loadType, Storage.runQuery;
    apply (bind_throw _ _ s _ s), check_open_closed; done.
Qed.

(** C19. A request on an open channel queues exactly one message: its text is
    the request, it carries the callback and the packet its reply needs, and it
    is marked as needing no reply exactly when the CogServer sends none, so the
    writers read one line for each line they are owed.  Nothing else of the
    process changes. *)
Theorem request_queues_one_message c r s :
  is_open c s ->
  let m := request_msg r s in
  queue_request c r s =
    (Ok tt, set_chan c (with_buffer (buf_insert m.1 (s.(chans) c).(_msg_buffer)) (s.(chans) c))
              (set_counter m.2 s)) /\
  m.1.(str_to_send) = request_text r s.(Channel.heap) /\
  m.1.(noreply) = negb (expects_reply (request_text r s.(Channel.heap))).
Proof.
  intros Ho m. split.
  - by apply queue_request_run.
  - unfold m, request_msg. split.
    + destruct (request_reply r) as [[cb p]|]; apply new_msg_fields.
    + assert (expects_reply (request_text r (Channel.heap s)) =
        match request_reply r with Some _ => true | None => false end) as ->.
      { destruct r; cbn [request_text request_reply]; try done;
          [unfold SimpleIO.store_text; by destruct (haveValues _ _)|by destruct recursive]. }
      destruct (request_reply r) as [[cb p]|]; apply (proj1 (proj2 (new_msg_fields _ _ _ _ _))).
Qed.

(** On a channel that is not open, every request throws that the node is
    not open, and changes nothing. *)
Theorem request_needs_open c r s :
  ~ is_open c s -> queue_request c r s = (Throw (not_open nodes c), s).
Proof. apply queue_request_closed. Qed.

(** ** The single-socket client sends the same text *)

(** The trace only grows. *)
Definition traces (s s' : Simple) : Prop := exists rest, s'.(_trace) = s.(_trace) ++ rest.

#[local] Instance traces_preorder : PreOrder traces.
Proof.
  split; [intros s; exists []; by rewrite app_nil_r|].
  intros s1 s2 s3 [r1 H1] [r2 H2]. exists (r1 ++ r2). by rewrite H2, H1, <- app_assoc.
Qed.

Lemma traces_same (s s' : Simple) : s'.(_trace) = s.(_trace) -> traces s s'.
Proof. intros H. exists []. by rewrite app_nil_r. Qed.

Ltac traces_auto :=
  repeat first [moves_step | by apply traces_same | by eexists].

Lemma send_moves m : moves traces (SimpleStorage.do_send (W := W) (Heap := Heap) m).
Proof. unfold SimpleStorage.do_send, SimpleStorage.connected, throw_errno. traces_auto. Qed.

Lemma recv_moves garbage : moves traces (SimpleStorage.do_recv (W := W) (Heap := Heap) fuel garbage).
Proof.
  unfold SimpleStorage.do_recv, SimpleStorage.connected, SimpleStorage.on_eof.
  repeat first [apply recv_loop_moves; [typeclasses eauto|intros; by apply traces_same|]
    | moves_step | by apply traces_same | by eexists].
Qed.

Lemma alist_moves as_ h msg : moves traces (ro_decode_alist (S := Simple) fuel as_ h msg).
Proof. apply ro_decode_alist_moves; [typeclasses eauto|]. intros. by apply traces_same. Qed.

Lemma atom_list_moves n tbl expr e : forall l r,
  moves traces (SimpleIO.atom_list_loop (W := W) fuel n tbl expr l r e).
Proof.
  induction n as [|n IH]; intros l r; cbn [SimpleIO.atom_list_loop];
    repeat first [apply IH | apply send_moves | apply recv_moves | apply alist_moves
                 | moves_step | by apply traces_same].
Qed.

(** A locked operation that starts with a send. *)
Lemma send_first {A} m (k : unit -> M Simple A) s a s' :
  s.(SimpleStorage._mtx) = false -> (forall u, moves traces (k u)) ->
  with_lock mtx (SimpleStorage.do_send m ≫= k) s = (Ok a, s') ->
  exists rest, s'.(_trace) = s.(_trace) ++ IoSend true m :: rest.
Proof.
  intros Hm Hk. unfold with_lock. cbn [held mtx]. rewrite Hm.
  destruct ((SimpleStorage.do_send m ≫= k) (set_held true s)) as [o s1] eqn:Hrun.
  intros [= -> <-]. apply bind_inv in Hrun as ([] & s2 & Hs & Hk2).
  destruct (moves_ok _ _ _ _ _ (Hk _) Hk2) as [rest Hrest].
  assert (_trace s2 = _trace s ++ [IoSend true m]) as H2.
  { pose proof (SimpleStorage.do_send_wp False m (set_mtx true s)
      (fun _ x => _trace x = _trace s ++ [IoSend true m]) (fun _ _ => True)) as Hw.
    specialize (Hw (fun _ => eq_refl) (fun _ _ => I)). unfold wp in Hw.
    change (set_held true s) with (set_mtx true s) in Hs. by rewrite Hs in Hw. }
  exists rest. cbn. rewrite Hrest, H2. by rewrite <- app_assoc.
Qed.

(** The atom a request is about, for the requests that store. *)
Definition stored_atom (r : request) : option Handle :=
  match r with
  | RStoreAtom h | RStoreValue h _ | RUpdateValue h _ _ => Some h
  | _ => None
  end.

Lemma store_guards b h (s : Simple) :
  s.(_multi_space) = false -> getAtomSpace h s.(SimpleStorage.heap) = s.(_atom_space) ->
  set_multi_if b h s = (Ok tt, s) /\ write_frame_if h s = (Ok tt, s).
Proof.
  intros Hmulti Hhome. split.
  - unfold set_multi_if, mbind, M_bind, gets. rewrite Hmulti, Hhome.
    rewrite (bool_decide_eq_false_2 (_atom_space s <> _atom_space s)) by congruence.
    by rewrite andb_false_r.
  - unfold write_frame_if, mbind, M_bind, gets. by rewrite Hmulti.
Qed.

(** C20. While one AtomSpace is involved, the single-socket client and the
    multi-threaded client send the same text for the same operation on the same
    atoms: what the one sends first is what the other queues. *)
Theorem clients_send_same_text r (s s' : Simple) :
  s.(SimpleStorage._mtx) = false -> s.(_multi_space) = false ->
  (forall h, stored_atom r = Some h ->
     getAtomSpace h s.(SimpleStorage.heap) = s.(_atom_space)) ->
  run_op fuel (simple_request r) s = (Ok tt, s') ->
  exists rest, s'.(_trace) = s.(_trace) ++
    IoSend true (request_text r s.(SimpleStorage.heap)) :: rest.
Proof.
  intros Hm Hmulti Hhome.
  assert (forall m k, (forall u, moves traces (k u)) ->
    with_lock mtx (SimpleStorage.do_send m ≫= k) s = (Ok tt, s') ->
    exists rest, _trace s' = _trace s ++ IoSend true m :: rest) as Hfirst
    by (intros; by eapply send_first).
  assert (forall m, with_lock mtx (SimpleStorage.do_send m) s = (Ok tt, s') ->
    exists rest, _trace s' = _trace s ++ IoSend true m :: rest) as Hsend.
  { intros m Hrun. apply (Hfirst m mret); [intros u; moves_step|].
    rewrite <- Hrun. unfold with_lock. destruct (held s); [done|].
    unfold mbind, M_bind. by destruct (SimpleStorage.do_send m _) as [[] ?]. }
  destruct r; cbn [simple_request run_op stored_atom request_text] in *;
    try (destruct (store_guards true h s Hmulti (Hhome h eq_refl)) as [G1 G2]);
    try (destruct (store_guards false h s Hmulti (Hhome h eq_refl)) as [G3 _]).
  - unfold SimpleIO.storeAtom. rewrite (bind_ok _ _ s tt s G1), (bind_ok _ _ s tt s G2).
    erewrite bind_ok by done. erewrite bind_ok by done. rewrite Hmulti. apply Hsend.
  - unfold SimpleIO.storeValue. rewrite (bind_ok _ _ s tt s G3), (bind_ok _ _ s tt s G2).
    erewrite bind_ok by done. erewrite bind_ok by done. rewrite Hmulti. apply Hsend.
  - unfold SimpleIO.updateValue. rewrite (bind_ok _ _ s tt s G3), (bind_ok _ _ s tt s G2).
    erewrite bind_ok by done. erewrite bind_ok by done. rewrite Hmulti. apply Hsend.
  - apply Hfirst. intros _. unfold adopt_value.
    repeat first [apply recv_moves | moves_step | by apply traces_same].
  - apply Hfirst. intros _. repeat first [apply recv_moves | moves_step].
  - apply Hfirst. intros _. unfold SimpleIO.decode_atom_list.
    repeat first [apply recv_moves | apply atom_list_moves | moves_step].
  - apply Hfirst. intros _. unfold SimpleIO.decode_atom_list.
    repeat first [apply recv_moves | apply atom_list_moves | moves_step].
  - apply Hfirst. intros _. unfold SimpleIO.decode_atom_list.
    repeat first [apply recv_moves | apply atom_list_moves | moves_step].
  - unfold SimpleIO.runQuery. intros Hrun. apply bind_inv in Hrun as (w & s1 & [= <- <-] & Hrun).
    apply bind_inv in Hrun as (rply & s2 & H2 & Hrun).
    apply send_first in H2 as [rest Hrest]; [|done|intros; apply recv_moves].
    assert (traces s2 s') as [rest' Hrest'].
    { revert Hrun. match goal with |- ?m s2 = _ -> _ => enough (moves traces m) as Hmv by by apply moves_ok end.
      unfold adopt_value. repeat first [moves_step | by apply traces_same]. }
    exists (rest ++ rest'). by rewrite Hrest', Hrest, <- app_assoc.
Qed.
End requests.
