(* ===== verification/StorageQueue.v ===== *)
(** * Fencing and callbacks of the multi-threaded client

    [barrier] delivers what was queued; [set_proxy], [storeAtomSpace] and
    [kill_data] return only when their messages are on the wire; the callbacks
    that handle replies; [getAtom]. *)
From stdpp Require Import pretty functions.
From S2P Require Import Prelude CxxString Effects Sockets RecvBuf Barrier Uri Atomese.
From S2P Require Import ListUtils SimpleStorage SimpleIO SimpleSafety SimpleSync.
From S2P Require Import SimpleSpec SimpleFetch Msg Channel ChannelFacts ChannelSocket.
From S2P Require Import Storage StorageFacts.
#[local] Existing Instance self_has.

Section queue.
Context {W Heap Q : Type} {SK : Sockets W} {AT : Atomese Heap}.
Context {AB : AsyncBuffer (Msg client_callback Pkt) Q} {AL : AsyncBufferLaws AB}.
Context (fuel : nat) (nodes : nat -> CogStorage).
Abbreviation process := (Channel.process (W := W) (Heap := Heap) (Static := gmap str Handle)
  (Q := Q)).
Implicit Types (s : process).

(** ** The callbacks only add to the queue *)

Lemma atom_list_loop_moves c c' n tbl expr e : forall l r,
  moves (grows c) (Storage.atom_list_loop (W := W) (Heap := Heap) (Q := Q) n c' tbl expr l r e).
Proof.
  induction n as [|n IH]; intros l r; cbn [Storage.atom_list_loop]; unfold Storage.enqueue, Channel.enqueue;
    repeat first [apply IH | apply enqueue_moves | moves_step | done].
Qed.

Lemma callback_moves c c' t cb reply pkt :
  moves (grows c) (run_callback (W := W) (Heap := Heap) (Q := Q) fuel c' t cb reply pkt).
Proof.
  destruct cb; cbn [run_callback];
    unfold decode_atom_list, Storage.decode_value, decode_kvp_list_const.
  - moves_step.
  - cbv zeta. moves_step; [moves_step|apply atom_list_loop_moves].
  - repeat first [moves_step | done].
  - moves_step; [apply ro_decode_alist_moves; [typeclasses eauto|done]|moves_step].
Qed.

(** ** Fences *)

Lemma io_barrier_delivers c t s s' :
  io_barrier fuel c t s = (Ok tt, s') ->
  later s s' /\ forall m, m ∈ queued c s -> sent m.(str_to_send) s s'.
Proof.
  unfold io_barrier. intros Hrun.
  apply (barrier_spec fuel) in Hrun as (s1 & H1 & H2 & Hm & _);
    [|exact callback_moves].
  split; [by etrans|]. intros m Hq. eapply sent_later; [by apply Hm|done].
Qed.

(** A message with text [text] is queued on channel [c]. *)
Definition owed (c : nat) (text : str) s : Prop :=
  exists m, m ∈ queued c s /\ m.(str_to_send) = text.

Lemma owed_grows c text s s' : grows c s s' -> owed c text s -> owed c text s'.
Proof. intros (_ & G2 & _) (m & Hm & Ht). exists m. eauto. Qed.

Lemma owed_barrier c t text s s' :
  owed c text s -> io_barrier fuel c t s = (Ok tt, s') -> sent text s s'.
Proof. intros (m & Hm & <-) [_ H]%io_barrier_delivers. by apply H. Qed.

(** A message with no sequence number is owed once it is inserted, also when it
    is merged with one that is pending. *)
Lemma insert_owed c m s :
  m.(sequence) = 0%Z ->
  owed c m.(str_to_send)
    (set_chan c (with_buffer (buf_insert m (s.(chans) c).(_msg_buffer)) (s.(chans) c)) s).
Proof.
  intros Hseq. unfold owed, queued. cbn [chans set_chan]. rewrite fn_lookup_insert.
  cbn [_msg_buffer with_buffer]. set (q := _msg_buffer (chans s c)).
  destruct (insert_cases m q) as [Hp|[-> (y & Hy & Heq)]];
    [exists m; split; [rewrite Hp; by left|done]|].
  exists y. split; [done|]. apply msg_equiv_spec in Heq as [_ Heq]. symmetry. auto.
Qed.

Lemma enqueue_wire c m p cb s s' :
  Storage.enqueue c m p cb s = (Ok tt, s') -> s'.(_wire) = s.(_wire).
Proof.
  unfold Storage.enqueue, Channel.enqueue, enqueue_msg, upd_chan, mbind, M_bind, gets, modify.
  by intros [= <-].
Qed.

(** A command with a reply, queued as one that has no data. *)
Lemma enqueue_owed c m p cb s s' :
  compare_eq m 19 (lit "(cog-update-value!") = false ->
  Storage.enqueue c m p cb s = (Ok tt, s') -> owed c m s'.
Proof.
  intros Hc. unfold Storage.enqueue, Channel.enqueue, enqueue_msg, upd_chan, mbind, M_bind, gets, modify.
  intros [= <-]. pose proof (new_msg_fields (Some cb) false m p (_sequence_counter s)) as Hf.
  destruct Hf as (_ & _ & Hf & _).
  set (b := new_msg _ _ _ _ _) in *. rewrite <- Hf. apply (insert_owed c b.1 (set_counter b.2 s)).
  unfold b, new_msg. by rewrite Hc.
Qed.

Lemma request_msg_text r s : str_to_send (request_msg r s).1 = request_text r s.(Channel.heap).
Proof. unfold request_msg. destruct (request_reply r) as [[cb p]|]; apply new_msg_fields. Qed.

(** No request gets a sequence number. *)
Lemma request_sequence r s : sequence (request_msg r s).1 = 0%Z.
Proof.
  assert (compare_eq (request_text r (Channel.heap s)) 19 (lit "(cog-update-value!") = false) as Hc.
  { destruct r; cbn [request_text]; try reflexivity;
      [unfold SimpleIO.store_text; by destruct (haveValues _ _)|by destruct recursive]. }
  unfold request_msg, new_msg. rewrite Hc. by destruct (request_reply r) as [[]|].
Qed.

Lemma request_owed c r s s' :
  queue_request nodes c r s = (Ok tt, s') -> owed c (request_text r s.(Channel.heap)) s'.
Proof.
  intros Hrun. destruct (decide (is_Some (s.(chans) c).(_servinfo))) as [Ho|Ho].
  - rewrite queue_request_run in Hrun by done. injection Hrun as <-.
    rewrite <- request_msg_text.
    apply (insert_owed c (request_msg r s).1 (set_counter (request_msg r s).2 s)), request_sequence.
  - by rewrite queue_request_closed in Hrun.
Qed.

(** What was queued before a barrier has been sent when it returns, and not
    before it was queued. *)
Lemma barrier_sends_request c t r s s1 s2 s' :
  queue_request nodes c r s = (Ok tt, s1) -> no_loss c s1 s2 ->
  Storage.barrier fuel c t s2 = (Ok tt, s') ->
  sent (request_text r s.(Channel.heap)) s1 s'.
Proof.
  intros (m & Hm & <-)%request_owed [P1 P2] Hb.
  pose proof (io_barrier_delivers _ _ _ _ Hb) as [Hl Hd].
  destruct (P2 m Hm) as [H|H]; [|by eapply sent_later].
  eapply sent_earlier; [done|by apply Hd].
Qed.

(** What the clients do between two barriers only adds to the queue. *)
Lemma storeAtom_moves c h : moves (grows c) (Storage.storeAtom (W := W) (Q := Q) nodes c h).
Proof.
  unfold Storage.storeAtom, check_open, connected, Channel.connected, Storage.enqueue_noreply, Channel.enqueue_noreply.
  repeat first [moves_step | apply enqueue_moves].
Qed.

Lemma check_open_inv c s a s' : check_open nodes c s = (Ok a, s') -> s' = s /\ is_open c s.
Proof.
  unfold check_open, connected, Channel.connected. intros (b & ? & [= <- <-] & H)%bind_inv.
  case_bool_decide as Ho; [|done]. by injection H.
Qed.

Lemma storeAtom_owed c h s s' :
  Storage.storeAtom nodes c h s = (Ok tt, s') ->
  owed c (SimpleIO.store_text h false s.(Channel.heap)) s' /\
  s'.(Channel.heap) = s.(Channel.heap).
Proof.
  change (Storage.storeAtom nodes c h) with (queue_request nodes c (RStoreAtom h)).
  intros Hrun. split; [by apply (request_owed c (RStoreAtom h))|].
  destruct (decide (is_Some (s.(chans) c).(_servinfo))) as [Ho|Ho].
  - rewrite queue_request_run in Hrun by done. by injection Hrun as <-.
  - by rewrite queue_request_closed in Hrun.
Qed.

Lemma stores_owed c h hs : forall s s',
  for_each (Storage.storeAtom nodes c) hs s = (Ok tt, s') -> h ∈ hs ->
  owed c (SimpleIO.store_text h false s.(Channel.heap)) s'.
Proof.
  induction hs as [|x hs IH]; intros s s' Hrun Hh; [by apply elem_of_nil in Hh|].
  apply bind_inv in Hrun as ([] & s1 & Hx & Hrun). apply storeAtom_owed in Hx as [Hx Hheap].
  apply elem_of_cons in Hh as [->|Hh]; [|rewrite <- Hheap; by apply IH].
  eapply owed_grows; [|exact Hx]. eapply moves_ok; [|exact Hrun].
  apply moves_for_each; [typeclasses eauto|apply storeAtom_moves].
Qed.

(** [storeAtomSpace] returns only when every atom of the AtomSpace has been
    sent during the call: for each, the text that stores it with all its
    values. *)
Theorem storeAtomSpace_flushes c t tbl s s' h :
  Storage.storeAtomSpace fuel nodes c t tbl s = (Ok tt, s') ->
  h ∈ get_all_handles tbl s.(Channel.heap) ->
  sent (SimpleIO.store_text h false s.(Channel.heap)) s s'.
Proof.
  unfold Storage.storeAtomSpace. intros ([] & s1 & [-> _]%check_open_inv & Hrun)%bind_inv Hh.
  apply bind_inv in Hrun as (hs & s1 & [= <- <-] & Hrun).
  apply bind_inv in Hrun as ([] & s2 & Hstore & Hrun).
  destruct (moves_ok _ _ _ _ _ (moves_for_each (grows c) _ _ (storeAtom_moves c)) Hstore) as [Hl _].
  eapply sent_earlier; [exact Hl|]. eapply owed_barrier; [by eapply stores_owed|exact Hrun].
Qed.

(** [kill_data] clears the CogServer behind everything queued before it:
    what is sent during the call splits into a first part, with every message
    that was pending, and a second part, with the command that clears. *)
Theorem kill_data_fenced c t s s' :
  Storage.kill_data fuel nodes c t s = (Ok tt, s') ->
  exists w1 w2, s'.(_wire) = s.(_wire) ++ w1 ++ w2 /\
    (forall m, m ∈ queued c s -> exists t' fd, (t', fd, m.(str_to_send)) ∈ w1) /\
    exists t' fd, (t', fd, lit "(cog-atomspace-clear)" ++ [nl]) ∈ w2.
Proof.
  unfold Storage.kill_data. intros ([] & s0 & [-> _]%check_open_inv & Hrun)%bind_inv.
  apply bind_inv in Hrun as ([] & s1 & H1 & Hrun). apply bind_inv in Hrun as ([] & s2 & H2 & H3).
  apply io_barrier_delivers in H1 as [[w1 Hw1] Hm].
  assert (_wire s2 = _wire s1) as Hw2 by (eapply enqueue_wire; exact H2).
  apply enqueue_owed in H2; [|done]. eapply owed_barrier in H3 as (t' & w2 & fd & Hw & Hin); [|exact H2].
  exists w1, w2. split_and!.
  - by rewrite Hw, Hw2, Hw1, app_assoc.
  - intros m Hq. destruct (Hm m Hq) as (u & w & fd' & Hw' & Hin'). exists u, fd'.
    rewrite Hw1 in Hw'. by apply app_inv_head in Hw' as ->.
  - by exists t', fd.
Qed.

(** [set_proxy] names its proxy to a CogServer that has it: the atom is
    sent first, with its values, and the proxy command after it. *)
Theorem set_proxy_fenced c t h s s' :
  Storage.set_proxy fuel nodes c t h s = (Ok tt, s') ->
  exists w1 w2 w, s'.(_wire) = s.(_wire) ++ w1 ++ w2 /\
    (exists t' fd, (t', fd, SimpleIO.store_text h false s.(Channel.heap)) ∈ w1) /\
    exists t' fd, (t', fd, lit "(cog-set-proxy! " ++ encode_atom h false w ++ lit ")" ++ [nl]) ∈ w2.
Proof.
  unfold Storage.set_proxy. intros ([] & s0 & [-> _]%check_open_inv & Hrun)%bind_inv.
  apply bind_inv in Hrun as ([] & s1 & H1 & Hrun). apply bind_inv in Hrun as ([] & s2 & H2 & Hrun).
  apply bind_inv in Hrun as (w & s2' & [= <- <-] & Hrun). apply bind_inv in Hrun as ([] & s3 & H3 & H4).
  destruct (moves_ok _ _ _ _ _ (storeAtom_moves c h) H1) as [Hl _].
  apply storeAtom_owed in H1 as [H1 _]. eapply owed_barrier in H2; [|exact H1].
  eapply sent_earlier in H2 as (t1 & w1 & fd1 & Hw1 & Hin1); [|exact Hl].
  assert (_wire s3 = _wire s2) as Hw3 by (eapply enqueue_wire; exact H3).
  apply enqueue_owed in H3; [|done]. eapply owed_barrier in H4 as (t2 & w2 & fd2 & Hw & Hin2); [|exact H3].
  exists w1, w2, (Channel.heap s2). split_and!; [|by exists t1, fd1|by exists t2, fd2].
  by rewrite Hw, Hw3, Hw1, app_assoc.
Qed.

(** ** Replies *)

(** [getAtom] of the multi-threaded client, for an atom the CogServer does
    not have, tests an uninitialised pointer: undefined behaviour.  Where the
    compiled program finds a null pointer, nothing more is sent; where it finds
    another one, the client asks for the keys of the unknown atom all the same. *)
Theorem getAtom_unknown_undefined c t h s s1 s2 :
  is_open c s ->
  do_send fuel c t (Storage.iknow h s.(Channel.heap)) s = (Ok tt, s1) ->
  do_recv fuel t false s1 = (Ok (lit "()" ++ [nl]), s2) ->
  Storage.getAtom fuel nodes None c t h s = (Undef, s2) /\
  Storage.getAtom fuel nodes (Some false) c t h s = (Ok tt, s2) /\
  Storage.getAtom fuel nodes (Some true) c t h s =
    Channel.enqueue c (Storage.get_keys h s.(Channel.heap)) (mkPkt None (Some h) None)
      cb_decode_kvp_list_const s2.
Proof.
  intros Ho Hs Hr. unfold Storage.getAtom.
  rewrite !(bind_ok _ _ s tt s (check_open_ok nodes c s Ho)).
  rewrite !(bind_ok _ _ s s.(Channel.heap) s) by done.
  assert (forall junk, synchro fuel c t (Storage.iknow h (Channel.heap s))
    (fun reply => mret (is_ok junk reply)) s = (Ok junk, s2)) as Hsyn.
  { intros junk. unfold synchro. rewrite (bind_ok _ _ _ _ _ Hs), (bind_ok _ _ _ _ _ Hr). done. }
  split_and!; by rewrite (bind_ok _ _ _ _ _ (Hsyn _)).
Qed.

Context {CL : CodecLaws AT}.

Lemma value_callback c t h key v wv s :
  run_callback fuel c t cb_decode_value (encode_value v wv ++ [nl])
    (mkPkt None (Some h) (Some key)) s = on (adopt_ref h key v) s.
Proof.
  cbn [run_callback]. unfold Storage.decode_value.
  erewrite bind_ok. 2: { apply on_same. apply (decode_encode_value v wv _ []). }
  cbn [pkt_h pkt_key fst]. unfold adopt_ref. rewrite on_gets_bind.
  change (the s) with (Channel.heap s). unfold mbind at 1, M_bind at 1, gets.
  destruct (getAtomSpace h (Channel.heap s)) as [a|].
  - by rewrite on_bind.
  - by rewrite on_ret_bind.
Qed.

Lemma keys_callback c t tbl h wk kvs s :
  length kvs < fuel -> fits (alist_text wk kvs) ->
  run_callback fuel c t cb_decode_kvp_list_const (alist_text wk kvs)
    (mkPkt tbl (Some h) None) s = on (alist_ref tbl h kvs) s.
Proof.
  intros Hl Hfit. cbn [run_callback]. unfold decode_kvp_list_const. cbn [pkt_h table].
  by apply (alist_on_gen fuel tbl h wk kvs).
Qed.

(** The callbacks of the multi-threaded client do to the atoms what the
    single-socket client does with the same reply: a value reply goes through
    [adopt_ref], a reply of keys and values through [alist_ref] with the packet's
    AtomSpace. *)
Theorem callbacks_adopt c t tbl h key v wv wk kvs s :
  length kvs < fuel -> fits (alist_text wk kvs) ->
  run_callback fuel c t cb_decode_value (encode_value v wv ++ [nl])
    (mkPkt None (Some h) (Some key)) s = on (adopt_ref h key v) s /\
  run_callback fuel c t cb_decode_kvp_list_const (alist_text wk kvs)
    (mkPkt tbl (Some h) None) s = on (alist_ref tbl h kvs) s.
Proof. intros Hl Hfit. split; [apply value_callback|by apply keys_callback]. Qed.

(** *** Lists of atoms *)
Context {LL : ListLaws AT}.

(** What a list of atoms does: each one joins the table, and a request for its
    keys is queued, in the order of the list. *)
Definition fetch_queue_ref (c : nat) (tbl : option AtomSpace) (wl : Heap) (hs : list Handle)
    : M process unit :=
  for_each (fun h =>
    h' ← on (add_nocheck tbl h);
    Channel.enqueue c (keys_request wl h) (mkPkt None (Some h') None) cb_decode_kvp_list_const) hs.

Lemma queue_list_turn n c tbl wl expr pre h rest s :
  expr = pre ++ encode_atom h false wl ++ rest -> fits expr -> (2 <= size rest)%Z ->
  Storage.atom_list_loop (S n) c tbl expr (size pre) (size expr - 2) (size expr - 2) s =
  ((h' ← on (add_nocheck tbl h);
    Channel.enqueue c (keys_request wl h) (mkPkt None (Some h') None) cb_decode_kvp_list_const);;
   Storage.atom_list_loop n c tbl expr (size (pre ++ encode_atom h false wl))
     (size expr - 2) (size expr - 2)) s.
Proof.
  intros Hexpr Hfit Hrest. set (e := encode_atom h false wl) in *.
  pose proof (encode_atom_two (AT := AT) h wl) as Htwo. fold e in Htwo.
  pose proof (size_nonneg pre) as Hp.
  assert (size expr = size pre + size e + size rest)%Z as Hsz by (rewrite Hexpr, !size_app; lia).
  unfold fits in Hfit. cbn [Storage.atom_list_loop].
  assert (get_next_expr expr (size pre) (size expr - 2) 0
    = Ok (0%Z, (size pre, (size pre + size e - 1)%Z))) as ->.
  { rewrite Hexpr at 1. apply next_expr_atom. fold e. lia. }
  erewrite bind_ok by done. cbv beta iota.
  rewrite (proj2 (Z.eqb_neq _ _)) by lia. change (0 <? 0)%Z with false. cbv iota.
  erewrite bind_ok. 2: { apply on_same. rewrite Hexpr. apply decode_lr_atom. }
  assert (or_throw OutOfRange (substr expr (size pre) (wadd (wsub (size pre + size e - 1) (size pre)) 1))
    = Ok e) as ->.
  { rewrite wsub_small, wadd_small by (unfold size_mod; lia).
    replace (size pre + size e - 1 - size pre + 1)%Z with (size e) by lia.
    by rewrite Hexpr, substr_at. }
  unfold mbind, M_bind. destruct (on (add_nocheck tbl h) s) as [[h'|x| | |] s1]; try done.
  unfold lift_outcome, Storage.enqueue, keys_request. fold e.
  rewrite wadd_small, size_app by (unfold size_mod; lia).
  by replace (size pre + size e - 1 + 1)%Z with (size pre + size e)%Z by lia.
Qed.

(** The reply to a fetch of atoms, a list, is taken apart completely: every
    atom of it joins the table and has its keys requested, in order, and the
    callback returns; one turn of its loop per atom suffices. *)
Theorem decode_atom_list_queues c t tbl wl hs s :
  length hs < fuel -> fits (list_text wl hs) ->
  run_callback fuel c t cb_decode_atom_list (list_text wl hs) (mkPkt tbl None None) s
  = fetch_queue_ref c tbl wl hs s.
Proof.
  intros Hl Hfit. cbn [run_callback]. unfold decode_atom_list. cbn [table].
  rewrite list_text_left, list_text_right.
  destruct (size [lparen] =? size (list_text wl hs) - 2)%Z eqn:Heq.
  { apply Z.eqb_eq in Heq. by rewrite (list_text_empty wl hs Heq). }
  clear Heq. revert Hl. generalize fuel as n.
  assert (forall hs pre n s expr, expr = pre ++ concat (map (fun h => encode_atom h false wl) hs) ++ [rparen; nl] ->
    fits expr -> length hs < n ->
    Storage.atom_list_loop n c tbl expr (size pre) (size expr - 2) (size expr - 2) s
    = fetch_queue_ref c tbl wl hs s) as Hgen.
  { clear - LL. induction hs as [|h hs IH]; intros pre [|n] s expr Hexpr Hfit Hn; simpl in Hn; try lia.
    - rewrite atom_list_text in Hexpr. cbn [Storage.atom_list_loop].
      assert (size pre = size expr - 2)%Z as ->.
      { rewrite Hexpr, size_app. change (size [rparen; nl]) with 2%Z. lia. }
      rewrite next_expr_end. erewrite bind_ok by done. cbv beta iota. by rewrite Z.eqb_refl.
    - rewrite atom_list_text in Hexpr.
      rewrite (queue_list_turn n c tbl wl expr pre h _ s Hexpr Hfit).
      + apply bind_ext. intros [] s1 _. apply (IH (pre ++ encode_atom h false wl)); [|done|lia].
        by rewrite <- app_assoc.
      + rewrite size_app. pose proof (size_nonneg (concat (map (fun h => encode_atom h false wl) hs))).
        change (size [rparen; nl]) with 2%Z. lia. }
  intros n Hn. by apply (Hgen hs [lparen]).
Qed.
End queue.
