(* ===== verification/StorageSteps.v ===== *)
(** * The multi-threaded client as a step relation

    Client threads queue requests and exchange messages of their own while the
    writer threads take turns: [step] is one such move of the process, for any
    channel and any thread, so that a sequence of steps is any interleaving of
    calls and turns.  Every operation of a [CogStorage] is such a sequence; no
    sequence loses a queued message, or leaves a reply unread; and a message is
    handled, its callback run on its own reply, before a barrier returns. *)
From stdpp Require Import pretty functions.
From S2P Require Import Prelude CxxString Effects Sockets RecvBuf Barrier Uri Atomese.
From S2P Require Import ListUtils SimpleStorage SimpleIO SimpleSafety SimpleSync.
From S2P Require Import SimpleSpec SimpleFetch Msg Channel ChannelFacts ChannelSocket.
From S2P Require Import ChannelSync Storage StorageFacts StorageQueue.

Section steps.
Context {W Heap Q : Type} {SK : Sockets W} {AT : Atomese Heap}.
Context {AB : AsyncBuffer (Msg client_callback Pkt) Q} {AL : AsyncBufferLaws AB}.
Context (fuel : nat) (nodes : nat -> CogStorage).
Abbreviation process := (Channel.process (W := W) (Heap := Heap) (Static := gmap str Handle)
  (Q := Q)).
Implicit Types (s : process).

(** ** Steps *)

(** The writer of a channel. *)
Abbreviation handler := (reply_handler fuel (run_callback fuel)).

(** A turn of writer thread [t] of channel [c] on the message [m]. *)
Definition channel_turn (c t : nat) (m : Msg client_callback Pkt) (s s' : process) : Prop :=
  turn (H0 := buffer_of c) (handler c) t m s s'.

Inductive step : process -> process -> Prop :=
| step_turn c t m s s' : channel_turn c t m s s' -> step s s'
| step_fence c t b s s' :                (* a writer sends a barrier message *)
    b.(noreply) = true -> is_silent b.(str_to_send) = true ->
    handler c t b s = (Ok tt, s') -> step s s'
| step_request c r s o s' : queue_request nodes c r s = (o, s') -> proper o -> step s s'
| step_command c m p cb s s' :           (* a command with a reply *)
    expects_reply m = true -> compare_eq m 19 (lit "(cog-update-value!") = false ->
    Storage.enqueue c m p cb s = (Ok tt, s') -> step s s'
| step_getAtom junk c t h s o s' :       (* a client thread's own exchange *)
    Storage.getAtom fuel nodes junk c t h s = (o, s') -> proper o -> step s s'
| step_open c t s o s' :                 (* opening, and the probe of the server *)
    Storage.open fuel nodes c t s = (o, s') -> proper o -> step s s'
| step_stop c s :                        (* the end of closing, behind a barrier *)
    queued c s = [] -> step s (stop_writers c s)
| step_free c s s' : free_servinfo c s = (Ok tt, s') -> step s s'
| step_destroyed c s : step s (add_destroyed c s)
| step_exit t s s' : thread_exit t s = (Ok tt, s') -> step s s'
| step_draw t x s : step s (set_rng t x s)
| step_count n s : step s (set_counter n s)
| step_client w s : step s (Channel.set_heap w s).  (* the program changes its atoms *)

Abbreviation steps := (rtc step).
Hint Constructors step : cog.

Lemma steps_once s s' : step s s' -> steps s s'.
Proof. apply rtc_once. Qed.

(** ** The operations are sequences of steps *)

(** The public operations of [CogStorage]. *)
Inductive storage_op :=
| SOpen
| SClose
| SRequest (r : request)
| SGetAtom (h : Handle)
| SLoadAtomSpace (table : option AtomSpace)
| SStoreAtomSpace (table : AtomSpace)
| SSetProxy (h : Handle)
| SProxyOpen
| SProxyClose
| SCreate
| SDestroy
| SErase
| SKillData
| SBarrier
| SMonitor.

Definition run_storage (junk : pointer) (c t : nat) (o : storage_op) : M process unit :=
  match o with
  | SOpen => Storage.open fuel nodes c t
  | SClose => Storage.close fuel c t
  | SRequest r => queue_request nodes c r
  | SGetAtom h => Storage.getAtom fuel nodes junk c t h
  | SLoadAtomSpace table => Storage.loadAtomSpace fuel nodes c t table
  | SStoreAtomSpace table => Storage.storeAtomSpace fuel nodes c t table
  | SSetProxy h => Storage.set_proxy fuel nodes c t h
  | SProxyOpen => Storage.proxy_open fuel c t
  | SProxyClose => Storage.proxy_close fuel c t
  | SCreate => mret tt
  | SDestroy | SErase | SKillData => Storage.kill_data fuel nodes c t
  | SBarrier => Storage.barrier fuel c t
  | SMonitor => _ ← Storage.monitor c; mret tt
  end.

Lemma turns_steps c s s' :
  turns (H0 := buffer_of c) (handler c) s s' -> steps s s'.
Proof.
  induction 1 as [s|s s1 s2 (t & m & H) _ IH]; [done|].
  eapply rtc_l; [by eapply (step_turn c t m)|done].
Qed.

Lemma fences_steps c b ts : b.(noreply) = true -> is_silent b.(str_to_send) = true ->
  forall s s', for_each (fun t => handler c t b) ts s = (Ok tt, s') -> steps s s'.
Proof.
  intros Hn Hb. induction ts as [|t ts IH]; intros s s' Hrun; cbn [for_each] in Hrun.
  - by injection Hrun as <-.
  - apply bind_inv in Hrun as ([] & s1 & H1 & Hrun).
    eapply rtc_l; [by eapply (step_fence c t b)|by apply IH].
Qed.

(** A barrier empties the queue of its channel, by turns, and goes on by fences. *)
Lemma barrier_steps c t s s' :
  io_barrier fuel c t s = (Ok tt, s') ->
  exists s1, steps s s1 /\ queued c s1 = [] /\ steps s1 s'.
Proof.
  unfold io_barrier, Channel.barrier, draw_rnd, draw. intros Hrun.
  apply bind_inv in Hrun as (rnd & s0 & H0 & Hrun).
  apply bind_inv in H0 as (a & s1 & H1 & H0). apply bind_inv in H0 as (b & s2 & H2 & H0).
  apply bind_inv in H0 as (l & ? & [= <- <-] & [= <- <-]).
  apply bind_inv in Hrun as (n & s3 & [= <- <-] & Hrun).
  apply bind_inv in Hrun as ([] & s4 & [= <-] & Hrun).
  apply bind_inv in H1 as (? & ? & [= <-] & [= <- <-]).
  apply bind_inv in H2 as (? & ? & [= <-] & [= <- <-]).
  subst. unfold run_barrier in Hrun.
  apply (barrier_drains process (buffer_of c)) in Hrun as (s5 & [Hturns Hq] & Hfence).
  exists s5. split_and!; [|done|].
  - eapply rtc_l; [apply step_draw|]. eapply rtc_l; [apply step_draw|].
    eapply rtc_l; [apply step_count|]. by eapply turns_steps.
  - match type of Hfence with context [new_msg ?cb ?nr ?m ?d ?n] =>
      destruct (new_msg_fields cb nr m d n) as (_ & Hn & Hm & _) end.
    revert Hfence. apply fences_steps; [done|]. rewrite Hm. change (lit "4") with ["4"%char].
    by rewrite snprintf_barrier.
Qed.

Lemma io_barrier_steps c t s s' : io_barrier fuel c t s = (Ok tt, s') -> steps s s'.
Proof. intros (s1 & H1 & _ & H2)%barrier_steps. by etrans. Qed.

Lemma request_steps c r s s' : queue_request nodes c r s = (Ok tt, s') -> steps s s'.
Proof. intros H. apply steps_once. eapply step_request; [exact H|left; eauto]. Qed.

Lemma command_steps c m p cb s s' :
  expects_reply m = true -> compare_eq m 19 (lit "(cog-update-value!") = false ->
  Storage.enqueue c m p cb s = (Ok tt, s') -> steps s s'.
Proof. intros Hm Hc H. apply steps_once. by eapply step_command. Qed.

Lemma close_connection_steps c s s' :
  close_connection fuel (run_callback fuel) c s = (Ok tt, s') -> steps s s'.
Proof.
  unfold close_connection. intros ([] & s1 & H1 & H2)%bind_inv. unfold run_barrier in H1.
  apply (barrier_drains process (buffer_of c)) in H1 as (s2 & [Hturns Hq] & ->).
  etrans; [by eapply turns_steps|]. apply bind_inv in H2 as ([] & s3 & [= <-] & H3).
  eapply rtc_l; [by apply (step_stop c)|]. apply steps_once. by eapply step_free.
Qed.

Lemma proxy_close_steps c t s s' : Storage.proxy_close fuel c t s = (Ok tt, s') -> steps s s'.
Proof.
  unfold Storage.proxy_close. intros ([] & s3 & H1 & Hrun)%bind_inv.
  apply bind_inv in Hrun as ([] & s4 & H2 & H3). apply io_barrier_steps in H1, H3.
  apply command_steps in H2; [|done..]. by do 2 (etrans; [done|]).
Qed.

Lemma close_steps c t s s' : Storage.close fuel c t s = (Ok tt, s') -> steps s s'.
Proof.
  unfold Storage.close, connected, Channel.connected. intros (b & s0 & [= <- <-] & Hrun)%bind_inv.
  case_bool_decide; [|by injection Hrun as <-].
  apply bind_inv in Hrun as ([] & s1 & H1 & Hrun). apply bind_inv in Hrun as ([] & s2 & H2 & H3).
  apply proxy_close_steps in H1. apply io_barrier_steps in H2. apply close_connection_steps in H3.
  by do 2 (etrans; [done|]).
Qed.

(** So is the destructor of a node and its channel. *)
Lemma destroy_steps c t s s' : Storage.destroy fuel c t s = (Ok Finished, s') -> steps s s'.
Proof.
  unfold Storage.destroy, noexcept. destruct ((Storage.close fuel c t;; _) s) as [o s1] eqn:Hrun.
  destruct o as [[]|e| | |]; try done. intros [= <-].
  apply bind_inv in Hrun as ([] & s2 & H1%close_steps & Hrun).
  unfold Channel.destroy in Hrun. apply bind_inv in Hrun as ([] & s3 & H2%close_connection_steps & Hrun).
  apply bind_inv in Hrun as ([] & s4 & H3 & [= <-]). do 2 (etrans; [done|]).
  eapply rtc_l; [by eapply step_free|]. apply steps_once, step_destroyed.
Qed.

(** C15. Every operation of a [CogStorage] that returns is a sequence of steps:
    what holds of all interleavings of steps holds of the client. *)
Theorem operations_are_steps junk c t o s s' :
  run_storage junk c t o s = (Ok tt, s') -> steps s s'.
Proof.
  assert (forall h s s', Storage.storeAtom nodes c h s = (Ok tt, s') -> steps s s') as Hstore.
  { intros h s0 s1 H. by apply (request_steps c (RStoreAtom h)). }
  assert (forall s s', Storage.kill_data fuel nodes c t s = (Ok tt, s') -> steps s s') as Hkill.
  { intros s0 s1. unfold Storage.kill_data. intros ([] & s2 & [-> _]%check_open_inv & Hrun)%bind_inv.
    apply bind_inv in Hrun as ([] & s3 & H1 & Hrun). apply bind_inv in Hrun as ([] & s4 & H2 & H3).
    apply io_barrier_steps in H1, H3. apply command_steps in H2; [|done..]. by do 2 (etrans; [done|]). }
  destruct o; cbn [run_storage]; try (by apply Hkill).
  - intros H. apply steps_once. eapply step_open; [exact H|left; eauto].
  - apply close_steps.
  - apply request_steps.
  - intros H. apply steps_once. eapply step_getAtom; [exact H|left; eauto].
  - unfold Storage.loadAtomSpace. intros ([] & s2 & [-> _]%check_open_inv & Hrun)%bind_inv.
    apply bind_inv in Hrun as ([] & s3 & H1 & Hrun). apply bind_inv in Hrun as ([] & s4 & H2 & Hrun).
    apply bind_inv in Hrun as ([] & s5 & H3 & H4). apply command_steps in H1, H3; [|done..].
    apply (flush_turns process (buffer_of c)), turns_steps in H2. apply io_barrier_steps in H4.
    by do 3 (etrans; [done|]).
  - unfold Storage.storeAtomSpace. intros ([] & s2 & [-> _]%check_open_inv & Hrun)%bind_inv.
    apply bind_inv in Hrun as (hs & s3 & [= <- <-] & Hrun).
    apply bind_inv in Hrun as ([] & s4 & H1 & H2). etrans; [|by eapply io_barrier_steps].
    revert H1. generalize (get_all_handles table s.(Channel.heap)) as hs.
    intros hs. clear H2 Hkill. revert s. induction hs as [|h hs IH]; intros s H1; cbn [for_each] in H1.
    + by injection H1 as <-.
    + apply bind_inv in H1 as ([] & s5 & H1 & H2). etrans; [by eapply Hstore|by apply IH].
  - unfold Storage.set_proxy. intros ([] & s2 & [-> _]%check_open_inv & Hrun)%bind_inv.
    apply bind_inv in Hrun as ([] & s3 & H1 & Hrun). apply bind_inv in Hrun as ([] & s4 & H2 & Hrun).
    apply bind_inv in Hrun as (w & s5 & [= <- <-] & Hrun). apply bind_inv in Hrun as ([] & s6 & H3 & H4).
    apply Hstore in H1. apply io_barrier_steps in H2, H4. apply command_steps in H3; [|done..].
    by do 3 (etrans; [done|]).
  - unfold Storage.proxy_open. intros ([] & s3 & H1 & Hrun)%bind_inv.
    apply bind_inv in Hrun as ([] & s4 & H2 & H3). apply io_barrier_steps in H1, H3.
    apply command_steps in H2; [|done..]. by do 2 (etrans; [done|]).
  - apply proxy_close_steps.
  - by intros [= <-].
  - apply io_barrier_steps.
  - by intros [= <-].
Qed.

(** ** Nothing is lost *)

Lemma request_moves c c' r : moves (grows c) (queue_request nodes c' r).
Proof.
  intros s. destruct (decide (is_Some (s.(chans) c').(_servinfo))) as [Ho|Ho].
  - rewrite queue_request_run by done. etrans; [by apply grows_counter|].
    by eapply moves_ok; [apply (insert_moves c c' (request_msg r s).1)|].
  - by rewrite queue_request_closed.
Qed.

Lemma command_moves c c' m p cb : moves (grows c) (Storage.enqueue (W := W) (Heap := Heap) (Q := Q) c' m p cb).
Proof. apply enqueue_moves. Qed.

Lemma getAtom_moves c c' junk t h : moves (grows c) (Storage.getAtom fuel nodes junk c' t h).
Proof.
  unfold Storage.getAtom, check_open, connected, Channel.connected, synchro.
  repeat first [apply do_send_moves | apply do_recv_moves | apply command_moves | moves_step].
Qed.

Lemma proper_moves {A : Type} (R : process -> process -> Prop) (m : M process A) s o s' :
  moves R m -> m s = (o, s') -> proper o -> R s s'.
Proof. intros Hm Hrun Ho. specialize (Hm s). rewrite Hrun in Hm. by destruct Ho as [[? ->]|[? ->]]. Qed.

(** A step either keeps what is queued, or is a turn, which takes one message. *)
Lemma step_cases c s s' :
  step s s' -> holds c s s' \/ exists t m, channel_turn c t m s s'.
Proof.
  assert (forall A (m : M process A) s o s', moves (grows c) m -> m s = (o, s') -> proper o ->
    holds c s s') as Hg.
  { intros A m s0 o s1 Hm Hrun Ho. by eapply grows_holds, proper_moves. }
  assert (forall c' t m, moves (grows c) (handler c' t m)) as Hh.
  { intros c' t m. apply reply_handler_moves, callback_moves. }
  destruct 1 as [c' t m s s' H|c' t b s s' _ _ H|c' r s o s' H Ho|c' m p cb s s' _ _ H
    |junk c' t h s o s' H Ho|c' t s o s' H Ho|c' s Hq|c' s s' H|c' s|t s s' H|t x s|n s|w s];
    try (by left).
  - destruct (decide (c' = c)) as [->|Hne]; [right; eauto|left].
    destruct H as (q & _ & _ & _ & Hrun).
    etrans; [|eapply Hg; [apply Hh|exact Hrun|left; eauto]].
    cbn [put buffer_of]. split; [done|]. unfold queued. cbn [chans set_chan].
    by rewrite fn_lookup_insert_ne.
  - left. eapply Hg; [apply Hh|exact H|left; eauto].
  - left. eapply Hg; [apply request_moves|exact H|done].
  - left. eapply Hg; [apply command_moves|exact H|left; eauto].
  - left. eapply Hg; [apply getAtom_moves|exact H|done].
  - left. eapply (proper_moves (holds c)); [|exact H|done]. unfold Storage.open, connected, Channel.connected.
    repeat first [apply open_connection_holds; typeclasses eauto | moves_step].
  - left. by apply stop_holds.
  - left. eapply (proper_moves (holds c)); [apply free_servinfo_holds|exact H|left; eauto].
  - left. eapply (proper_moves (holds c)); [apply thread_exit_holds|exact H|left; eauto].
Qed.

(** Whatever the interleaving, a queued message stays queued until it is
    sent, and what was sent stays sent. *)
Lemma step_no_loss c s s' : step s s' -> no_loss c s s'.
Proof.
  intros [H|(t & m & H)]%(step_cases c); [by apply holds_no_loss|].
  eapply turn_progress; [|exact H]. apply callback_moves.
Qed.

Lemma steps_no_loss c s s' : steps s s' -> no_loss c s s'.
Proof. induction 1 as [|s s1 s2 H _ IH]; [done|]. etrans; [by apply step_no_loss|done]. Qed.

(** C11. Whatever request was queued before a barrier, storing, fetching or
    removing, its text has been sent by the time the barrier returns, and not
    before the request was made: also when it was merged with an equal one, and
    whatever the writers and other threads did between the two calls. *)
Theorem requests_before_barrier c t r s s1 s2 s' :
  queue_request nodes c r s = (Ok tt, s1) -> steps s1 s2 ->
  Storage.barrier fuel c t s2 = (Ok tt, s') ->
  sent (request_text r s.(Channel.heap)) s1 s'.
Proof. intros H1 H2. apply (barrier_sends_request _ _ _ _ _ _ _ _ _ H1), steps_no_loss, H2. Qed.

(** A step takes no message but the one it handles. *)
Definition handled (c : nat) (m : Msg client_callback Pkt) (s s' : process) : Prop :=
  exists t s1 s2, steps s s1 /\ channel_turn c t m s1 s2 /\ steps s2 s'.

Lemma step_takes c m s s' :
  step s s' -> m ∈ queued c s ->
  m ∈ queued c s' \/ exists t, channel_turn c t m s s'.
Proof.
  intros [H|(t & x & H)]%(step_cases c) Hm; [left; by apply H|].
  pose proof H as (q & _ & Hp & _ & Hrun). cbn [the buffer_of] in Hp.
  unfold queued in Hm. rewrite Hp in Hm. apply elem_of_cons in Hm as [->|Hm]; [right; eauto|left].
  apply moves_ok with (R := grows c) in Hrun; [|apply reply_handler_moves, callback_moves].
  apply Hrun. unfold queued. cbn [put buffer_of chans set_chan]. by rewrite fn_lookup_insert.
Qed.

Lemma steps_handle c m s s' :
  steps s s' -> m ∈ queued c s -> m ∈ queued c s' \/ handled c m s s'.
Proof.
  induction 1 as [s|s s1 s2 H1 H2 IH]; intros Hm; [by left|].
  destruct (step_takes c m s s1 H1 Hm) as [Hm1|[t Ht]].
  - destruct (IH Hm1) as [|(t & s3 & s4 & A & B & C)]; [by left|right].
    exists t, s3, s4. split_and!; [by eapply rtc_l|done|done].
  - right. exists t, s, s1. split_and!; [done|done|done].
Qed.

(** A barrier handles whatever is queued, now or before. *)
Lemma barrier_handles c t m s s1 s' :
  m ∈ queued c s -> steps s s1 -> io_barrier fuel c t s1 = (Ok tt, s') -> handled c m s s'.
Proof.
  intros Hm Hs (s2 & H1 & Hq & H2)%barrier_steps.
  destruct (steps_handle c m s s2 ltac:(by etrans) Hm) as [H|(u & s3 & s4 & A & B & C)].
  - rewrite Hq in H. by apply elem_of_nil in H.
  - exists u, s3, s4. split_and!; [done|done|by etrans].
Qed.
End steps.
