(* ===== verification/StorageReplies.v ===== *)
(** * Replies of the multi-threaded client

    Against a CogServer that answers as [SyncServer] says, over descriptors
    kept apart as [Descriptors] says, every interleaving of steps keeps all
    conversations in step; so the callback of each request runs on the reply to
    that request, and what was asked for is there when a barrier returns. *)
From stdpp Require Import pretty functions.
From S2P Require Import Prelude CxxString Effects Sockets RecvBuf Barrier Uri Atomese.
From S2P Require Import ListUtils SimpleStorage SimpleIO SimpleSafety SimpleSync.
From S2P Require Import SimpleSpec SimpleFetch Msg Channel ChannelFacts ChannelSocket.
From S2P Require Import ChannelSync Storage StorageFacts StorageQueue StorageSteps.
#[local] Existing Instance self_has.

Section replies.
Context {W Heap Q : Type} {SK : Sockets W} {AT : Atomese Heap}.
Context {AB : AsyncBuffer (Msg client_callback Pkt) Q} {AL : AsyncBufferLaws AB}.
Context (fuel : nat) (nodes : nat -> CogStorage).
Context {SS : SyncServer SK fuel} {DS : Descriptors SK SS}.
Abbreviation process := (Channel.process (W := W) (Heap := Heap) (Static := gmap str Handle)
  (Q := Q)).
Implicit Types (s : process).
Abbreviation in_step := (in_step (Heap := Heap) (Static := gmap str Handle) (AB := AB) fuel).
Abbreviation step := (step (SK := SK) (AT := AT) (AB := AB) fuel nodes).

(** ** Every step keeps the conversations in step *)

Lemma in_step_insert c (m : Msg client_callback Pkt) n s :
  well_flagged m -> in_step s ->
  in_step (set_chan c (with_buffer (buf_insert m (s.(chans) c).(_msg_buffer)) (s.(chans) c))
    (set_counter n s)).
Proof. intros Hm [H1 H2]. split; [exact H1|]. by apply (all_queued_insert _ c m (set_counter n s)). Qed.

Lemma enqueue_in_step c m p cb :
  expects_reply m = true -> stays in_step (Storage.enqueue (W := W) (Heap := Heap) c m p cb).
Proof.
  intros Hm s Hs. unfold Storage.enqueue, Channel.enqueue, enqueue_msg, upd_chan.
  unfold mbind, M_bind, gets, modify.
  destruct (new_msg_fields (Some cb) false m p (_sequence_counter s)) as (H1 & H2 & H3 & _).
  apply (in_step_insert c _ _ s); [|done]. unfold well_flagged. rewrite H2, H3, H1. eauto.
Qed.

Lemma request_flagged r s : well_flagged (request_msg r s).1.
Proof.
  unfold well_flagged, request_msg.
  destruct r; cbn [request_reply];
    match goal with |- context [new_msg ?cb ?nr ?m ?d ?n] =>
      destruct (new_msg_fields cb nr m d n) as (-> & -> & -> & _) end; cbn [request_text]; try done;
    try (split; [|eauto]); try done.
  - unfold SimpleIO.store_text. by destruct (haveValues _ _).
  - by destruct recursive.
Qed.

Lemma alist_in_step as_ h msg : stays in_step (ro_decode_alist (S := process) fuel as_ h msg).
Proof.
  unfold ro_decode_alist. repeat stays_step.
  generalize (find lparen msg (wadd (find_first_not_of blanks msg 0) 1)).
  generalize fuel at 2. intros k. induction k as [|k IH]; intros pos; cbn [alist_loop];
    unfold store_kv; repeat first [apply IH | stays_step].
Qed.

Lemma callback_in_step c t cb reply pkt :
  stays in_step (run_callback (W := W) (Heap := Heap) (Q := Q) fuel c t cb reply pkt).
Proof.
  destruct cb; cbn [run_callback]; unfold decode_atom_list, Storage.decode_value, decode_kvp_list_const.
  - stays_step.
  - cbv zeta. stays_step; [stays_step|].
    generalize (wadd (find lparen reply 0) 1), (rfind rparen reply) at 1.
    generalize fuel at 2. intros k. induction k as [|k IH]; intros l r; cbn [Storage.atom_list_loop];
      repeat first [apply IH | apply enqueue_in_step; done | stays_step].
  - repeat stays_step.
  - stays_step; [apply alist_in_step|stays_step].
Qed.

Lemma in_step_take c m (q : Q) s :
  in_step s -> pending (the (Has := buffer_of c) s) ≡ₚ m :: pending q ->
  well_flagged m /\ in_step (put (Has := buffer_of c) q s).
Proof.
  intros [H1 H2] Hp. destruct (all_queued_take _ c m q s Hp H2). by split_and!.
Qed.

Lemma step_in_step s s' : step s s' -> in_step s -> in_step s'.
Proof.
  assert (forall c t m s o s', well_flagged m -> in_step s ->
    reply_handler fuel (run_callback fuel) c t m s = (o, s') -> proper o -> in_step s') as Hh.
  { intros c t m s0 o s1 Hm Hs Hrun Ho.
    pose proof (handler_stays fuel (run_callback fuel) c t m (callback_in_step c t) Hm s0 Hs) as H.
    rewrite Hrun in H. by destruct Ho as [[? ->]|[? ->]]. }
  destruct 1 as [c t m s s' H|c t b s s' Hn Hb H|c r s o s' H Ho|c m p cb s s' Hm _ H
    |junk c t h s o s' H Ho|c t s o s' H Ho|c s Hq|c s s' H|c s|t s s' H|t x s|n s|w s];
    intros Hs; try done.
  - destruct H as (q & _ & Hp & _ & Hrun). destruct (in_step_take c m q s Hs Hp) as [Hm Hq].
    by eapply Hh; [exact Hm|exact Hq|exact Hrun|left; eauto].
  - eapply Hh; [|exact Hs|exact H|left; eauto]. unfold well_flagged. by rewrite Hn.
  - destruct (decide (is_Some (s.(chans) c).(_servinfo))) as [Hop|Hop].
    + rewrite queue_request_run in H by done. injection H as _ <-.
      apply (in_step_insert c _ _ s); [apply request_flagged|done].
    + rewrite queue_request_closed in H by done. by injection H as _ <-.
  - pose proof (enqueue_in_step c m p cb Hm s Hs) as Hk. by rewrite H in Hk.
  - assert (stays in_step (Storage.getAtom fuel nodes junk c t h)) as Hk.
    { unfold Storage.getAtom, check_open, connected, Channel.connected, synchro.
      do 2 (stays_step; [repeat stays_step|]). stays_step; [|repeat first [apply enqueue_in_step; done|stays_step]].
      apply (exchange_stays fuel c t (Storage.iknow h a0) (fun reply => mret (is_ok junk reply)));
        [unfold Storage.iknow; by destruct (is_node h)|intros r]. apply stays_ret. }
    specialize (Hk s Hs). rewrite H in Hk. by destruct Ho as [[? ->]|[? ->]].
  - assert (stays in_step (Storage.open fuel nodes c t)) as Hk.
    { unfold Storage.open, connected, Channel.connected.
      repeat first [apply open_connection_stays; typeclasses eauto | stays_step]. }
    specialize (Hk s Hs). rewrite H in Hk. by destruct Ho as [[? ->]|[? ->]].
  - by apply stop_in_step.
  - pose proof (free_servinfo_stays fuel c s Hs) as Hk. by rewrite H in Hk.
  - pose proof (thread_exit_stays fuel t s Hs) as Hk. by rewrite H in Hk.
Qed.

Lemma steps_in_step s s' : rtc step s s' -> in_step s -> in_step s'.
Proof. induction 1 as [|s s1 s2 H _ IH]; [done|]. intros Hs. by apply IH, (step_in_step s). Qed.

(** C7. From a state where no reply is unread and the flags are right, such as
    that of a process whose channels are empty and whose threads have no socket
    yet, every interleaving of calls and turns keeps it so: no thread, writer
    or client, ever has a reply left over from an earlier command, whichever
    threads open their sockets on the way. *)
Theorem steps_stay_in_step s s' : rtc step s s' -> in_step s -> in_step s'.
Proof. apply steps_in_step. Qed.

(** ** What was asked for arrives *)

(** Between [s] and [s'], a writer has run the callback [cb] with the packet [p]
    on the reply to [text]. *)
Definition answered (c : nat) (cb : client_callback) (p : Pkt) (text : str) (s s' : process)
    : Prop :=
  exists u w sa sb sc, rtc step s sa /\ sb.(Channel.heap) = sa.(Channel.heap) /\
    run_callback fuel c u cb (answer text w ++ [nl]) p sb = (Ok tt, sc) /\ rtc step sc s'.

Lemma handled_answered c m cb s s' :
  in_step s -> m.(noreply) = false -> m.(callback) = Some cb ->
  handled fuel nodes c m s s' -> answered c cb m.(data) m.(str_to_send) s s'.
Proof.
  intros Hs Hn Hc (t & s1 & s2 & H1 & (q & _ & Hp & _ & Hrun) & H2).
  pose proof (steps_in_step _ _ H1 Hs) as Hs1.
  destruct (in_step_take c m q s1 Hs1 Hp) as [Hm Hq].
  apply (handler_reads fuel _ c t m cb) in Hrun as (w & s3 & _ & Htalk & Hrun); [|done..].
  exists t, w, s1, s3, s2. split_and!; [done|apply Htalk|done|done].
Qed.

(** A request that is not merged is queued as its own message. *)
Lemma request_queued c r s s1 :
  (forall x, x ∈ queued c s -> x.(str_to_send) <> request_text r s.(Channel.heap)) ->
  queue_request nodes c r s = (Ok tt, s1) -> (request_msg r s).1 ∈ queued c s1.
Proof.
  intros Hfresh Hrun. destruct (decide (is_Some (s.(chans) c).(_servinfo))) as [Ho|Ho].
  2: { by rewrite queue_request_closed in Hrun. }
  rewrite queue_request_run in Hrun by done. injection Hrun as <-.
  unfold queued. cbn [chans set_chan]. rewrite fn_lookup_insert. cbn [_msg_buffer with_buffer].
  rewrite insert_fresh; [by left|]. intros x Hx. destruct (msg_equiv _ x) eqn:E; [|done].
  apply msg_equiv_spec in E as [_ E]. destruct (Hfresh x Hx).
  rewrite <- E; [|by apply request_sequence]. apply request_msg_text.
Qed.

Lemma request_answered_aux c t r cb p s s1 s2 s' :
  in_step s -> request_reply r = Some (cb, p) ->
  (forall x, x ∈ queued c s -> x.(str_to_send) <> request_text r s.(Channel.heap)) ->
  queue_request nodes c r s = (Ok tt, s1) -> rtc step s1 s2 ->
  Storage.barrier fuel c t s2 = (Ok tt, s') ->
  answered c cb p (request_text r s.(Channel.heap)) s1 s'.
Proof.
  intros Hs Hr Hfresh Hq Hsteps Hb. pose proof (request_queued c r s s1 Hfresh Hq) as Hm.
  pose proof (barrier_handles fuel nodes c t _ s1 s2 s' Hm Hsteps Hb) as Hh.
  assert (in_step s1) as Hs1.
  { apply (step_in_step s); [|done]. eapply step_request; [exact Hq|left; eauto]. }
  revert Hh Hm. unfold request_msg. rewrite Hr.
  match goal with |- context [new_msg ?cb ?nr ?m ?d ?n] =>
    destruct (new_msg_fields cb nr m d n) as (H1 & H2 & H3 & H4) end.
  intros Hh _. apply (handled_answered c _ cb) in Hh; [|done..]. by rewrite H3, H4 in Hh.
Qed.

(** C18. A request with a reply, queued while no equal one is pending: when a
    later barrier returns, whatever happened in between, some writer has run
    the request's callback on the reply to the request's own text. *)
Theorem requests_answered c t r cb p s s1 s2 s' :
  in_step s -> request_reply r = Some (cb, p) ->
  (forall x, x ∈ queued c s -> x.(str_to_send) <> request_text r s.(Channel.heap)) ->
  queue_request nodes c r s = (Ok tt, s1) -> rtc step s1 s2 ->
  Storage.barrier fuel c t s2 = (Ok tt, s') ->
  answered c cb p (request_text r s.(Channel.heap)) s1 s'.
Proof. apply request_answered_aux. Qed.

(** The value asked for is there when the barrier returns: at some point
    before, it was put on its atom, as the single-socket client puts it. *)
Theorem value_arrives {CL : CodecLaws AT} c t h key v wv s s1 s2 s' :
  let msg := request_text (RLoadValue h key) s.(Channel.heap) in
  in_step s -> (forall x, x ∈ queued c s -> x.(str_to_send) <> msg) ->
  (forall w, answer msg w = encode_value v wv) ->
  Storage.loadValue nodes c h key s = (Ok tt, s1) -> rtc step s1 s2 ->
  Storage.barrier fuel c t s2 = (Ok tt, s') ->
  exists sa sc, rtc step s1 sa /\
    adopt_ref h key v sa.(Channel.heap) = (Ok tt, sc.(Channel.heap)) /\ rtc step sc s'.
Proof.
  intros msg Hs Hfresh Ha Hq Hsteps Hb.
  destruct (request_answered_aux c t (RLoadValue h key) cb_decode_value _ s s1 s2 s' Hs eq_refl
    Hfresh Hq Hsteps Hb) as (u & w & sa & sb & sc & H1 & Hheap & Hrun & H2).
  fold msg in Hrun. rewrite Ha in Hrun. erewrite value_callback in Hrun; [|exact CL].
  exists sa, sc. split_and!; [done| |done]. rewrite <- Hheap. revert Hrun. unfold on.
  change (the sb) with (Channel.heap sb).
  destruct (adopt_ref h key v (Channel.heap sb)) as [o x]. by intros [= -> <-].
Qed.
End replies.
