(* ===== verification/StorageDrain.v ===== *)
(** * The writers finish

    A reply that lists atoms queues more requests, whose replies queue nothing.
    So the turns of the writers of a channel always come to an end, whatever the
    network does; and on a network that stays up they end with an empty queue,
    whichever order the writers take the messages in. *)
From stdpp Require Import pretty functions.
From S2P Require Import Prelude CxxString Effects Sockets RecvBuf Barrier Uri Atomese.
From S2P Require Import ListUtils SimpleStorage SimpleIO SimpleSafety SimpleSync.
From S2P Require Import SimpleSpec SimpleFetch Msg Channel ChannelFacts ChannelSocket.
From S2P Require Import ChannelSync ChannelUp Storage StorageFacts StorageQueue StorageSteps.
From S2P Require Import StorageReplies.
#[local] Existing Instance self_has.

#[export] Instance client_callback_eq_dec : EqDecision client_callback.
Proof. solve_decision. Defined.

(** ** Turns come to an end *)

Section terminate.
Context {W Heap Q : Type} {SK : Sockets W} {AT : Atomese Heap}.
Context {AB : AsyncBuffer (Msg client_callback Pkt) Q} {AL : AsyncBufferLaws AB}.
Context (fuel : nat).
Abbreviation process := (Channel.process (W := W) (Heap := Heap) (Static := gmap str Handle)
  (Q := Q)).
Abbreviation handler := (reply_handler fuel (run_callback fuel)).
Implicit Types (s : process).

(** Some writer takes a turn on channel [c]. *)
Definition some_turn (c : nat) (s s' : process) : Prop :=
  exists t m, channel_turn fuel c t m s s'.

(** A message whose reply queues more messages. *)
Definition is_list (m : Msg client_callback Pkt) : Prop :=
  m.(callback) = Some cb_decode_atom_list.
#[local] Instance is_list_dec m : Decision (is_list m).
Proof. unfold is_list. apply _. Defined.

Definition lists_in (c : nat) (s : process) : nat := length (filter is_list (queued c s)).

(** What handling a reply does to the queue of its channel. *)
Definition same_queue (c : nat) (s s' : process) : Prop :=
  (s'.(chans) c).(_msg_buffer) = (s.(chans) c).(_msg_buffer).
Definition no_more_lists (c : nat) (s s' : process) : Prop := lists_in c s' <= lists_in c s.

#[local] Instance same_queue_preorder c : PreOrder (same_queue c).
Proof. unfold same_queue. split; [by intros s|]. intros s1 s2 s3. congruence. Qed.
#[local] Instance no_more_lists_preorder c : PreOrder (no_more_lists c).
Proof. unfold no_more_lists. split; [by intros s|]. intros s1 s2 s3. lia. Qed.

#[local] Hint Extern 0 (no_more_lists _ _ _) => exact (le_n _) : core.

Lemma same_queue_lists c s s' : same_queue c s s' -> lists_in c s' = lists_in c s.
Proof. unfold same_queue, lists_in, queued. by intros ->. Qed.

Lemma insert_no_list c m :
  ~ is_list m ->
  moves (no_more_lists c) (upd_chan c (fun x => with_buffer (buf_insert m x.(_msg_buffer)) x)).
Proof.
  intros Hm. unfold upd_chan. moves_step. unfold no_more_lists, lists_in, queued.
  cbn [chans set_chan]. rewrite fn_lookup_insert. cbn [_msg_buffer with_buffer].
  set (q := _msg_buffer (chans s c)).
  destruct (insert_cases m q) as [->|[-> _]]; [by rewrite filter_cons_False|done].
Qed.

Lemma keys_no_list c m p :
  moves (no_more_lists c) (Storage.enqueue (W := W) (Heap := Heap) c m p cb_decode_kvp_list_const).
Proof.
  unfold Storage.enqueue, Channel.enqueue, enqueue_msg.
  moves_step; [moves_step|]. cbv zeta. moves_step; [moves_step; done|].
  apply insert_no_list. unfold is_list.
  by destruct (new_msg_fields (Some cb_decode_kvp_list_const) false m p a) as [-> _].
Qed.

Lemma list_callback_lists c t reply p :
  moves (no_more_lists c) (run_callback (W := W) (Heap := Heap) fuel c t cb_decode_atom_list reply p).
Proof.
  cbn [run_callback]. unfold decode_atom_list. cbv zeta. moves_step; [moves_step|].
  generalize (wadd (find lparen reply 0) 1), (rfind rparen reply) at 1.
  generalize fuel. intros k. induction k as [|k IH]; intros l r; cbn [Storage.atom_list_loop];
    repeat first [apply IH | apply keys_no_list | moves_step | done].
Qed.

Lemma other_callback_quiet c t cb reply p :
  cb <> cb_decode_atom_list ->
  moves (same_queue c) (run_callback (W := W) (Heap := Heap) (Q := Q) fuel c t cb reply p).
Proof.
  intros Hcb. destruct cb; cbn [run_callback]; unfold Storage.decode_value, decode_kvp_list_const;
    try done; repeat first [apply ro_decode_alist_moves; [typeclasses eauto|done] | moves_step | done].
Qed.

(** A turn takes its message from the queue; only a message that wanted a list
    puts any there, and no list among them. *)
Lemma turn_shrinks c t m s s' :
  channel_turn fuel c t m s s' ->
  lists_in c s' < lists_in c s \/
  lists_in c s' = lists_in c s /\ length (queued c s') < length (queued c s).
Proof.
  intros (q & _ & Hp & _ & Hrun). cbn [the buffer_of] in Hp.
  set (s0 := put (Has := buffer_of c) q s) in Hrun.
  assert (queued c s0 = pending q) as Hq.
  { unfold s0, queued. cbn [put buffer_of chans set_chan]. by rewrite fn_lookup_insert. }
  assert (length (queued c s) = S (length (queued c s0))) as Hlen.
  { rewrite Hq. unfold queued. by rewrite Hp. }
  assert (lists_in c s = (if decide (is_list m) then 1 else 0) + lists_in c s0) as Hlists.
  { unfold lists_in. rewrite Hq. unfold queued at 1. rewrite Hp. by rewrite filter_cons; destruct (decide _). }
  assert (forall s1, only_talk s0 s1 -> same_queue c s0 s1) as Htalk by (intros s1 (_ & _ & _ & H); apply H).
  unfold reply_handler in Hrun. apply bind_inv in Hrun as ([] & s1 & H1 & Hrun).
  apply moves_ok with (R := only_talk) in H1; [|apply do_send_talk]. apply Htalk in H1.
  assert (forall s2, same_queue c s0 s2 -> s' = s2 -> is_list m \/ ~ is_list m ->
    lists_in c s' < lists_in c s \/
    lists_in c s' = lists_in c s /\ length (queued c s') < length (queued c s)) as Hsame.
  { intros s2 H2 -> _. assert (length (queued c s2) = length (queued c s0)) as Hl2.
    { unfold queued. by rewrite H2. }
    apply same_queue_lists in H2. destruct (decide (is_list m)); lia. }
  destruct (noreply m); [injection Hrun as ->; apply (Hsame s'); [done|done|destruct (decide (is_list m)); auto]|].
  apply bind_inv in Hrun as (r & s2 & H2 & Hrun).
  apply moves_ok with (R := only_talk) in H2; [|apply do_recv_talk].
  assert (same_queue c s0 s2) as Hs2.
  { etrans; [exact H1|]. destruct H2 as (_ & _ & _ & H2). apply H2. }
  destruct (callback m) as [cb|] eqn:Hcb; [|done].
  destruct (decide (cb = cb_decode_atom_list)) as [->|Hne].
  - left. apply moves_ok with (R := no_more_lists c) in Hrun; [|apply list_callback_lists].
    apply same_queue_lists in Hs2. unfold no_more_lists in Hrun.
    rewrite decide_True in Hlists by done. lia.
  - apply moves_ok with (R := same_queue c) in Hrun; [|by apply other_callback_quiet].
    apply (Hsame s'); [by etrans|done|destruct (decide (is_list m)); auto].
Qed.

Lemma turns_sn c s : sn (some_turn c) s.
Proof.
  remember (lists_in c s) as n eqn:Hn. revert s Hn. induction n as [n IHn] using lt_wf_ind.
  intros s. remember (length (queued c s)) as k eqn:Hk. revert s Hk.
  induction k as [k IHk] using lt_wf_ind. intros s Hk Hn. constructor. intros s' (t & m & Ht).
  destruct (turn_shrinks c t m s s' Ht) as [H|[H1 H2]].
  - by apply (IHn (lists_in c s')); [lia|].
  - by apply (IHk (length (queued c s'))); [lia| |lia].
Qed.

(** C17. The turns of the writers of a channel come to an end: from any state,
    with any network and any number of writers, there is no infinite sequence of
    turns, although handling a reply may queue more requests. *)
Theorem turns_terminate c s : sn (some_turn c) s.
Proof. apply turns_sn. Qed.
End terminate.

(** ** The queue empties *)

Section drain.
Context {W Heap Q : Type} {SK : Sockets W} {AT : Atomese Heap}.
Context {AB : AsyncBuffer (Msg client_callback Pkt) Q} {AL : AsyncBufferLaws AB}.
Context (fuel : nat) (Hfuel : 0 < fuel).
Context {SS : SyncServer SK fuel} {DS : Descriptors SK SS} {UP : UpServer SK}.
Abbreviation process := (Channel.process (W := W) (Heap := Heap) (Static := gmap str Handle)
  (Q := Q)).
Abbreviation in_step := (in_step (Heap := Heap) (Static := gmap str Handle) (AB := AB) fuel).
Abbreviation handler := (reply_handler fuel (run_callback fuel)).
Implicit Types (s : process).

(** Callbacks leave the network alone. *)
Definition same_net (c : nat) (s s' : process) : Prop :=
  s'.(world) = s.(world) /\ s'.(tls) = s.(tls) /\ servinfo_of c s' = servinfo_of c s.

#[local] Instance same_net_preorder c : PreOrder (same_net c).
Proof. split; [by intros s|]. intros s1 s2 s3 (A1 & A2 & A3) (B1 & B2 & B3). split_and!; congruence. Qed.

Lemma same_net_buffer c c' q s :
  same_net c s (set_chan c' (with_buffer q (s.(chans) c')) s).
Proof.
  split_and!; [done..|]. unfold servinfo_of. cbn [chans set_chan].
  destruct (decide (c' = c)) as [->|Hne]; [by rewrite fn_lookup_insert|by rewrite fn_lookup_insert_ne].
Qed.

Lemma callback_net c t cb reply p :
  moves (same_net c) (run_callback (W := W) (Heap := Heap) fuel c t cb reply p).
Proof.
  destruct cb; cbn [run_callback];
    unfold decode_atom_list, Storage.decode_value, decode_kvp_list_const.
  - moves_step.
  - cbv zeta. moves_step; [moves_step|].
    generalize (wadd (find lparen reply 0) 1), (rfind rparen reply) at 1.
    generalize fuel. intros k. induction k as [|k IH]; intros l r; cbn [Storage.atom_list_loop];
      unfold Storage.enqueue, Channel.enqueue, enqueue_msg, upd_chan;
      repeat first [apply IH | moves_step | done | apply same_net_buffer].
  - repeat first [moves_step | done].
  - moves_step; [apply ro_decode_alist_moves; [typeclasses eauto|done]|moves_step].
Qed.

Lemma same_net_up c s s' : same_net c s s' -> up c s -> up c s'.
Proof.
  intros (H1 & H2 & H3) [Hl (p & ps & Hi)]. split.
  - intros t. unfold sockfd_of. rewrite H1, H2. apply Hl.
  - exists p, ps. unfold servinfo_of in H3. by rewrite H3.
Qed.

(** The client can use the CogServer's answers: on atoms in [hinv], which they
    stay in, the callback of each [good] message returns, whatever the answer to
    the message may be, and queues good messages only. *)
Definition usable (c : nat) (hinv : Heap -> Prop) (good : Msg client_callback Pkt -> Prop) : Prop :=
  forall m cb t w s,
    good m -> m.(noreply) = false -> m.(callback) = Some cb -> hinv s.(Channel.heap) ->
    wp False (run_callback (Q := Q) fuel c t cb (answer m.(str_to_send) w ++ [nl]) m.(data))
      (fun _ s' => hinv s'.(Channel.heap) /\ forall x, x ∈ queued c s' -> x ∈ queued c s \/ good x)
      (fun _ _ => False) s.

Context (c : nat) (hinv : Heap -> Prop) (good : Msg client_callback Pkt -> Prop).
Context (Huse : usable c hinv good).

(** Everything is as it should be, and the queue holds good messages. *)
Definition at_work (s : process) : Prop :=
  in_step s /\ up c s /\ hinv s.(Channel.heap) /\ forall m, m ∈ queued c s -> good m.

Lemma turn_returns t m q s :
  at_work s -> pending (s.(chans) c).(_msg_buffer) ≡ₚ m :: pending q ->
  wp False (handler c t m) (fun _ => at_work) (fun _ _ => False) (put (Has := buffer_of c) q s).
Proof.
  intros (Hs & [Hl Hr] & Hh & Hq) Hp. destruct (in_step_take fuel c m q s Hs Hp) as [Hm Hs0].
  set (s0 := put q s) in *.
  assert (good m) as Hg by (apply Hq; unfold queued; rewrite Hp; by left).
  assert (forall x, x ∈ queued c s0 -> good x) as Hq0.
  { intros x. unfold s0, queued. cbn [put buffer_of chans set_chan]. rewrite fn_lookup_insert.
    intros Hx. apply Hq. unfold queued. rewrite Hp. by right. }
  assert (up c s0) as Hup0.
  { apply (same_net_up c s); [apply same_net_buffer|done]. }
  apply (handler_up fuel Hfuel); [done..|]. intros s1 Hs1 Hup1 (Th & _ & _ & Tq).
  assert (forall x, x ∈ queued c s1 -> good x) as Hq1.
  { intros x. unfold queued. rewrite Tq. apply Hq0. }
  assert (hinv s1.(Channel.heap)) as Hh1 by (rewrite Th; exact Hh).
  destruct (noreply m) eqn:Hn; [by split_and!|]. intros cb w Hcb.
  pose proof (Huse m cb t w s1 Hg Hn Hcb Hh1) as Hw.
  pose proof (callback_in_step fuel c t cb (answer (str_to_send m) w ++ [nl]) (data m) s1 Hs1) as Hstep.
  pose proof (callback_net c t cb (answer (str_to_send m) w ++ [nl]) (data m) s1) as Hnet.
  unfold wp in *. destruct (run_callback _ _ _ _ _ _ s1) as [[[]|e| | |] s2]; try done.
  destruct Hw as [Hh2 Hq2]. split_and!; [done|by eapply same_net_up|done|].
  intros x [Hx|Hx]%Hq2; [by apply Hq1|done].
Qed.

Lemma turn_at_work s s' : some_turn fuel c s s' -> at_work s -> at_work s'.
Proof.
  intros (t & m & q & _ & Hp & _ & Hrun) Hs.
  pose proof (turn_returns t m q s Hs Hp) as Hw. unfold wp in Hw.
  change (put q s) with (put (Has := buffer_of c) q s) in Hrun. by rewrite Hrun in Hw.
Qed.

Lemma turn_writers s s' :
  some_turn fuel c s s' -> same_writers c s s'.
Proof.
  intros (t & m & Ht). by eapply turn_progress; [apply callback_moves|].
Qed.

Lemma turn_possible s t :
  at_work s -> t ∈ writers (s.(chans) c).(_msg_buffer) -> queued c s <> [] ->
  exists s', some_turn fuel c s s'.
Proof.
  intros Hs Ht Hq. destruct (take_one _ Hq) as (m & q & Hp & Hw).
  pose proof (turn_returns t m q s Hs Hp) as Hrun. unfold wp in Hrun.
  destruct (handler c t m _) as [[[]|e| | |] s'] eqn:E; try done.
  exists s', t, m, q. split_and!; done.
Qed.

Lemma drains_aux s t :
  at_work s -> t ∈ writers (s.(chans) c).(_msg_buffer) ->
  sn (some_turn fuel c) s /\
  forall s', rtc (some_turn fuel c) s s' ->
    at_work s' /\ (nf (some_turn fuel c) s' -> queued c s' = []).
Proof.
  intros Hs Ht. split; [apply turns_sn|]. intros s' Hsteps.
  assert (at_work s' /\ t ∈ writers (s'.(chans) c).(_msg_buffer)) as [Hs' Ht'].
  { induction Hsteps as [s|s s1 s2 H _ IH]; [done|]. apply IH; [by eapply turn_at_work|].
    by apply (turn_writers s s1 H). }
  split; [done|]. intros Hnf. destruct (queued c s') as [|m ms] eqn:E; [done|]. destruct Hnf.
  apply (turn_possible s' t Hs' Ht'). by rewrite E.
Qed.
End drain.

(** ** Answers the client can use *)

Section usable.
Context {W Heap Q : Type} {SK : Sockets W} {AT : Atomese Heap} {CL : CodecLaws AT} {LL : ListLaws AT}.
Context {AB : AsyncBuffer (Msg client_callback Pkt) Q} {AL : AsyncBufferLaws AB}.
Context (fuel : nat) (Hfuel : 0 < fuel).
Context {SS : SyncServer SK fuel} {DS : Descriptors SK SS} {UP : UpServer SK}.
Abbreviation process := (Channel.process (W := W) (Heap := Heap) (Static := gmap str Handle)
  (Q := Q)).
Implicit Types (s : process).

(** An operation on the atoms always returns, with the atoms in [hinv]. *)
Definition returns {A : Type} (hinv : Heap -> Prop) (m : M Heap A) : Prop :=
  forall w, hinv w -> wp False m (fun _ => hinv) (fun _ _ => False) w.

(** The AtomSpace takes whatever it is given. *)
Definition accepting (hinv : Heap -> Prop) : Prop :=
  (forall a h, returns hinv (add_nocheck (Some a) h)) /\
  (forall a v, returns hinv (as_add_atoms a v)) /\
  (forall a v, returns hinv (sexpr_add_atoms a v)) /\
  (forall h key v w, hinv w -> hinv (setValue h key v w)).

(** The CogServer answers [text] with a list of keys and values. *)
Definition answers_alist (text : str) : Prop := forall w, exists wk kvs,
  answer text w ++ [nl] = alist_text wk kvs /\ length kvs < fuel /\ fits (alist_text wk kvs).

(** It answers the message with what its callback reads. *)
Definition answered_well (m : Msg client_callback Pkt) : Prop :=
  m.(noreply) = true \/
  match m.(callback) with
  | None => False
  | Some noop_const => True
  | Some cb_decode_value => exists h key v wv, m.(data) = mkPkt None (Some h) (Some key) /\
      forall w, answer m.(str_to_send) w = encode_value v wv
  | Some cb_decode_kvp_list_const => exists tbl h, m.(data) = mkPkt tbl (Some h) None /\
      answers_alist m.(str_to_send)
  | Some cb_decode_atom_list => exists tbl, m.(data) = mkPkt (Some tbl) None None /\
      forall w, exists wl hs, answer m.(str_to_send) w ++ [nl] = list_text wl hs /\
        length hs < fuel /\ fits (list_text wl hs) /\
        forall h, h ∈ hs -> answers_alist (keys_request wl h)
  end.

Lemma returns_bind {A B : Type} (hinv : Heap -> Prop) (m : M Heap A) (f : A -> M Heap B) :
  returns hinv m -> (forall a, returns hinv (f a)) -> returns hinv (m ≫= f).
Proof.
  intros Hm Hf w Hw. apply wp_bind. eapply wp_mono; [by apply Hm| |done].
  intros a w1 H1. by apply Hf.
Qed.

Lemma returns_on {A : Type} (hinv : Heap -> Prop) (m : M Heap A) (Q0 : A -> process -> Prop)
    (E : exn -> process -> Prop) s :
  returns hinv m -> hinv s.(Channel.heap) ->
  (forall a w, hinv w -> Q0 a (Channel.set_heap w s)) -> wp False (on m) Q0 E s.
Proof.
  intros Hm Hs HQ. specialize (Hm _ Hs). unfold wp, on in *. change (the s) with (Channel.heap s).
  destruct (m (Channel.heap s)) as [[] w]; try done. by apply HQ.
Qed.

Lemma store_kv_returns (hinv : Heap -> Prop) as_ atom key v :
  accepting hinv -> returns hinv (store_kv (S := Heap) as_ atom key v).
Proof.
  intros (H1 & H2 & _ & H4). unfold store_kv.
  assert (forall h k x, returns hinv (on_pure (S := Heap) (fun w : Heap => (tt, setValue h k x w)))) as Hset.
  { intros h k x w Hw. apply wp_on_pure. intros [] w' [= <-]. by apply H4. }
  assert (forall A (m : M Heap A), returns hinv m -> returns hinv (on (S := Heap) m)) as Hon.
  { intros A m Hm w Hw. specialize (Hm w Hw). unfold wp, on in *. change (the w) with w.
    by destruct (m w) as [[] w']. }
  destruct as_ as [a|]; [|apply Hset].
  apply returns_bind; [apply Hon, H1|]. intros k. apply returns_bind; [apply Hon, H2|]. intros x.
  apply returns_bind; [apply Hset|]. intros _. apply returns_bind; [apply Hon, H1|].
  intros h w Hw. by apply wp_ret.
Qed.

Lemma alist_returns (hinv : Heap -> Prop) tbl h kvs : accepting hinv -> returns hinv (alist_ref tbl h kvs).
Proof.
  intros Ha. unfold alist_ref. apply returns_bind; [by destruct tbl; intros w Hw|].
  intros home w Hw. apply wp_for_each; [done|]. intros kv w1 _ H1. by apply store_kv_returns.
Qed.

Lemma adopt_returns (hinv : Heap -> Prop) h key v : accepting hinv -> returns hinv (adopt_ref h key v).
Proof.
  intros (_ & _ & H3 & H4). unfold adopt_ref. apply returns_bind; [by intros w Hw|].
  intros as_. apply returns_bind; [destruct as_; [apply H3|by intros w Hw]|].
  intros x w Hw. apply wp_modify. by apply H4.
Qed.

Lemma enqueue_wp (c : nat) (m : str) (p : Pkt) (cb : client_callback) (Q0 : unit -> process -> Prop) (E : exn -> process -> Prop) s :
  (forall x n, x = (new_msg (Some cb) false m p n).1 ->
     Q0 tt (set_chan c (with_buffer (buf_insert x (s.(chans) c).(_msg_buffer)) (s.(chans) c))
       (set_counter (new_msg (Some cb) false m p n).2 s))) ->
  wp False (Channel.enqueue c m p cb) Q0 E s.
Proof.
  intros HQ. unfold Channel.enqueue, enqueue_msg, upd_chan. repeat wp_step. by apply (HQ _ _ eq_refl).
Qed.

(** A list of atoms: each one joins the table, and its keys are asked for. *)
Lemma list_usable (c : nat) (hinv : Heap -> Prop) tbl wl hs s :
  accepting hinv -> (forall h, h ∈ hs -> answers_alist (keys_request wl h)) ->
  hinv s.(Channel.heap) ->
  wp False (fetch_queue_ref (W := W) (Q := Q) c (Some tbl) wl hs)
    (fun _ s' => hinv s'.(Channel.heap) /\
       forall x, x ∈ queued c s' -> x ∈ queued c s \/ answered_well x)
    (fun _ _ => False) s.
Proof.
  intros Hacc Hk Hs. unfold fetch_queue_ref.
  apply (wp_for_each False _ (fun s' => hinv s'.(Channel.heap) /\
    forall x, x ∈ queued c s' -> x ∈ queued c s \/ answered_well x)).
  { split; [done|]. by left. }
  intros h s1 Hh [H1 Hq1]. apply wp_bind. eapply returns_on; [apply Hacc|exact H1|].
  intros h' w Hw. apply enqueue_wp. intros x n ->. split; [exact Hw|]. intros x.
  unfold queued at 1. cbn [chans set_chan]. rewrite fn_lookup_insert. cbn [_msg_buffer with_buffer].
  intros [->|Hx]%insert_elem; [right|by apply Hq1]. unfold answered_well.
  destruct (new_msg_fields (Some cb_decode_kvp_list_const) false (keys_request wl h)
    (mkPkt None (Some h') None) n) as (-> & _ & -> & ->).
  right. exists None, h'. split; [done|by apply Hk].
Qed.

Lemma answered_usable (c : nat) (hinv : Heap -> Prop) :
  accepting hinv -> usable (Q := Q) fuel c hinv answered_well.
Proof.
  intros Hacc m cb t w s Hm Hn Hcb Hs. unfold answered_well in Hm. rewrite Hn, Hcb in Hm.
  destruct Hm as [?|Hm]; [done|]. unfold wp. destruct cb.
  - cbn. split; [done|]. by left.
  - destruct Hm as (tbl & -> & Ha). destruct (Ha w) as (wl & hs & -> & Hl & Hfit & Hk).
    rewrite decode_atom_list_queues by done. by apply (list_usable c hinv tbl wl hs s).
  - destruct Hm as (h & key & v & wv & -> & Ha). rewrite Ha, value_callback by done.
    apply (returns_on hinv (adopt_ref h key v)); [by apply adopt_returns|done|].
    intros a w' Hw'. split; [done|]. by left.
  - destruct Hm as (tbl & h & -> & Ha). destruct (Ha w) as (wk & kvs & -> & Hl & Hfit).
    rewrite keys_callback by done.
    apply (returns_on hinv (alist_ref tbl h kvs)); [by apply alist_returns|done|].
    intros a w' Hw'. split; [done|]. by left.
Qed.

(** C4. On a network that stays up, when the CogServer answers each queued
    message with what its callback reads, and the AtomSpace accepts what
    arrives: with at least one writer, every sequence of turns comes to an end,
    and where none can go on the queue is empty.  So in whatever order the
    writers take the messages, all that was queued is handled, and so is all
    that the replies to lists of atoms queue on the way. *)
Theorem queue_drains (c : nat) (hinv : Heap -> Prop) s t :
  accepting hinv -> at_work fuel c hinv answered_well s ->
  t ∈ writers (s.(chans) c).(_msg_buffer) ->
  sn (some_turn fuel c) s /\
  forall s', rtc (some_turn fuel c) s s' ->
    at_work fuel c hinv answered_well s' /\ (nf (some_turn fuel c) s' -> queued c s' = []).
Proof. intros Hacc. by apply drains_aux, answered_usable. Qed.
End usable.
