(* ===== verification/StorageFetch.v ===== *)
(** * Fetching with the multi-threaded client

    A reply that lists atoms queues a request for the keys of each one, and the
    writers handle those in turn.  When the barrier returns the queue is empty,
    so by then every atom of the list has joined the AtomSpace and the reply to
    its keys has been handled. *)
From stdpp Require Import pretty functions.
From S2P Require Import Prelude CxxString Effects Sockets RecvBuf Barrier Uri Atomese.
From S2P Require Import ListUtils SimpleStorage SimpleIO SimpleSafety SimpleSync.
From S2P Require Import SimpleSpec SimpleFetch Msg Channel ChannelFacts ChannelSocket.
From S2P Require Import ChannelSync Storage StorageFacts StorageQueue StorageSteps StorageReplies.
#[local] Existing Instance self_has.

Section fetch.
Context {W Heap Q : Type} {SK : Sockets W} {AT : Atomese Heap} {LL : ListLaws AT}.
Context {AB : AsyncBuffer (Msg client_callback Pkt) Q} {AL : AsyncBufferLaws AB}.
Context (fuel : nat) (nodes : nat -> CogStorage).
Context {SS : SyncServer SK fuel} {DS : Descriptors SK SS}.
Abbreviation process := (Channel.process (W := W) (Heap := Heap) (Static := gmap str Handle)
  (Q := Q)).
Implicit Types (s : process).
Abbreviation in_step := (in_step (Heap := Heap) (Static := gmap str Handle) (AB := AB) fuel).
Abbreviation step := (step (SK := SK) (AT := AT) (AB := AB) fuel nodes).
Abbreviation handled := (handled (SK := SK) (AT := AT) (AB := AB) fuel nodes).

(** ** What a list of atoms leaves behind *)

(** The atoms of a list join the table, in order. *)
Definition add_all (tbl : option AtomSpace) (hs : list Handle) : M Heap unit :=
  for_each (fun h => _ ← add_nocheck tbl h; mret tt) hs.

Lemma fetch_queue_effect c tbl wl hs : forall s s',
  fetch_queue_ref c tbl wl hs s = (Ok tt, s') ->
  add_all tbl hs s.(Channel.heap) = (Ok tt, s'.(Channel.heap)) /\ grows c s s' /\
  forall h, h ∈ hs -> owed c (keys_request wl h) s'.
Proof.
  unfold fetch_queue_ref, add_all. induction hs as [|h hs IH]; intros s s'; cbn [for_each].
  { intros [= <-]. split_and!; [done|done|]. by intros h H%elem_of_nil. }
  intros ([] & s2 & (h' & s1 & Hadd & Henq)%bind_inv & Hrun)%bind_inv.
  destruct (IH s2 s' Hrun) as (Hheap & Hgrow & Howed).
  assert (owed c (keys_request wl h) s2) as H2 by (by eapply (enqueue_owed c); [|exact Henq]).
  assert (s2.(Channel.heap) = s1.(Channel.heap)) as Hh.
  { revert Henq. unfold Channel.enqueue, enqueue_msg, upd_chan, mbind, M_bind, gets, modify.
    by intros [= <-]. }
  unfold on in Hadd. change (the s) with (Channel.heap s) in Hadd.
  destruct (add_nocheck tbl h (Channel.heap s)) as [o x] eqn:Hx. injection Hadd as -> <-.
  split_and!.
  - erewrite bind_ok; [exact Hheap|]. rewrite (bind_ok _ _ _ _ _ Hx). by rewrite Hh.
  - etrans; [|exact Hgrow]. etrans; [|by eapply (moves_ok (grows c)); [apply enqueue_moves|exact Henq]].
    done.
  - intros h0 [->|H]%elem_of_cons; [by eapply owed_grows|by apply Howed].
Qed.

(** ** The queue is empty when a barrier returns *)

Lemma fences_queue c b ts : b.(noreply) = true -> forall s s',
  for_each (fun t => reply_handler fuel (run_callback fuel) c t b) ts s = (Ok tt, s') ->
  queued c s' = queued c s.
Proof.
  intros Hn. induction ts as [|t ts IH]; intros s s'; cbn [for_each]; [by intros [= <-]|].
  intros ([] & s1 & H1 & Hrun)%bind_inv. rewrite (IH _ _ Hrun).
  unfold reply_handler in H1. rewrite Hn in H1. apply bind_inv in H1 as ([] & s2 & H1 & [= <-]).
  unfold queued. f_equal. by apply (moves_ok _ _ _ _ _ (do_send_talk fuel c t _) H1).
Qed.

Lemma barrier_empties c t s s' : io_barrier fuel c t s = (Ok tt, s') -> queued c s' = [].
Proof.
  unfold io_barrier, Channel.barrier, draw_rnd, draw. intros Hrun.
  apply bind_inv in Hrun as (rnd & s2 & _ & Hrun).
  apply bind_inv in Hrun as (n & s3 & _ & Hrun). apply bind_inv in Hrun as ([] & s4 & _ & Hrun).
  unfold run_barrier in Hrun.
  apply (barrier_drains process (buffer_of c)) in Hrun as (s5 & [_ Hq] & Hfence).
  rewrite (fences_queue c _ _ (proj1 (proj2 (new_msg_fields _ _ _ _ _))) _ _ Hfence). exact Hq.
Qed.

(** What is queued now is handled by the time the queue is empty. *)
Lemma emptied_handles c m s s' :
  m ∈ queued c s -> rtc step s s' -> queued c s' = [] -> handled c m s s'.
Proof.
  intros Hm Hs Hq. destruct (steps_handle fuel nodes c m s s' Hs Hm) as [H|H]; [|done].
  rewrite Hq in H. by apply elem_of_nil in H.
Qed.

(** ** What was asked for arrives *)
Abbreviation answered := (answered (SK := SK) (AT := AT) (AB := AB) fuel nodes).

(** Between [s] and [s'], the atoms [hs] have joined the table, and after that
    the reply to the keys request of each of them has been handled. *)
Definition list_arrives (c : nat) (tbl : option AtomSpace) (wl : Heap) (hs : list Handle)
    (s s' : process) : Prop :=
  exists sa sc, rtc step s sa /\ add_all tbl hs sa.(Channel.heap) = (Ok tt, sc.(Channel.heap)) /\
    rtc step sc s' /\
    forall h, h ∈ hs -> exists cb p, answered c cb p (keys_request wl h) sc s'.

(** A message queued for a list of atoms. *)
Definition asks_list (tbl : option AtomSpace) (text : str) (m : Msg client_callback Pkt) : Prop :=
  m.(noreply) = false /\ m.(callback) = Some cb_decode_atom_list /\
  m.(data) = mkPkt tbl None None /\ m.(str_to_send) = text.

Lemma keys_answered c wl h s s' :
  in_step s -> owed c (keys_request wl h) s -> rtc step s s' -> queued c s' = [] ->
  exists cb p, answered c cb p (keys_request wl h) s s'.
Proof.
  intros Hs (m & Hm & Ht) Hsteps Hq. pose proof (proj2 Hs c m Hm) as Hf.
  pose proof (emptied_handles c m s s' Hm Hsteps Hq) as Hh.
  unfold well_flagged in Hf. rewrite Ht in Hf. destruct (noreply m) eqn:Hn; [done|].
  destruct Hf as [_ [cb Hcb]]. exists cb, m.(data). rewrite <- Ht. by apply handled_answered.
Qed.

Lemma list_message_arrives c tbl wl hs text m s s' :
  in_step s -> asks_list tbl text m -> (forall w, answer text w ++ [nl] = list_text wl hs) ->
  length hs < fuel -> fits (list_text wl hs) ->
  m ∈ queued c s -> rtc step s s' -> queued c s' = [] ->
  list_arrives c tbl wl hs s s'.
Proof.
  intros Hs (Hn & Hc & Hd & <-) Ha Hl Hfit Hm Hsteps Hq.
  pose proof (emptied_handles c m s s' Hm Hsteps Hq) as (t & s1 & s2 & H1 & Hturn & H2).
  pose proof (steps_in_step fuel nodes _ _ H1 Hs) as Hs1.
  assert (in_step s2) as Hs2 by (by apply (step_in_step fuel nodes s1); [eapply step_turn|]).
  destruct Hturn as (q & _ & Hp & _ & Hrun).
  destruct (in_step_take fuel c m q s1 Hs1 Hp) as [Hf Hq1].
  apply (handler_reads fuel _ c t m cb_decode_atom_list) in Hrun as (w & s3 & _ & Htalk & Hrun); [|done..].
  rewrite Ha, Hd, decode_atom_list_queues in Hrun by done.
  destruct (fetch_queue_effect c tbl wl hs _ _ Hrun) as (Hadd & _ & Howed).
  exists s1, s2. split_and!; [done| |done|].
  - rewrite <- Hadd. f_equal. symmetry. apply Htalk.
  - intros h Hh. apply keys_answered; [done|by apply Howed|done|done].
Qed.

(** C12. Fetching an incoming set, or all atoms of a type, and then a barrier:
    when the barrier returns, every atom the CogServer listed has joined the
    AtomSpace, in order, and after that the reply with its keys and values has
    been handled, although the request for it was only queued by the callback of
    the list, perhaps while the barrier was already waiting. *)
Theorem fetched_list_arrives c t r tbl wl hs s s1 s2 s' :
  in_step s -> request_reply r = Some (cb_decode_atom_list, mkPkt tbl None None) ->
  (forall x, x ∈ queued c s -> x.(str_to_send) <> request_text r s.(Channel.heap)) ->
  (forall w, answer (request_text r s.(Channel.heap)) w ++ [nl] = list_text wl hs) ->
  length hs < fuel -> fits (list_text wl hs) ->
  queue_request nodes c r s = (Ok tt, s1) -> rtc step s1 s2 ->
  Storage.barrier fuel c t s2 = (Ok tt, s') ->
  list_arrives c tbl wl hs s1 s'.
Proof.
  intros Hs Hr Hfresh Ha Hl Hfit Hq Hsteps Hb.
  pose proof (request_queued nodes c r s s1 Hfresh Hq) as Hm.
  assert (in_step s1) as Hs1.
  { apply (step_in_step fuel nodes s); [|done]. eapply step_request; [exact Hq|left; eauto]. }
  eapply list_message_arrives; [done| |exact Ha|done|done|exact Hm| |by eapply barrier_empties].
  - unfold asks_list, request_msg. rewrite Hr.
    match goal with |- context [new_msg ?cb ?nr ?m ?d ?n] =>
      destruct (new_msg_fields cb nr m d n) as (H1 & H2 & H3 & H4) end. by split_and!.
  - etrans; [exact Hsteps|]. by eapply io_barrier_steps.
Qed.

(** ** Loading everything *)

(** No message with text [text] is queued. *)
Definition no_text (c : nat) (text : str) s : Prop :=
  forall m, m ∈ queued c s -> m.(str_to_send) <> text.

Definition same_queues (s s' : process) : Prop := forall c, queued c s' = queued c s.

#[local] Instance same_queues_preorder : PreOrder same_queues.
Proof. split; [by intros s c|]. intros s1 s2 s3 H1 H2 c. by rewrite H2. Qed.

Lemma same_queues_no_text {A : Type} (c : nat) (text : str) (m : M process A) :
  moves same_queues m -> stays (no_text c text) m.
Proof. apply moves_stays. intros s s' H Hs x. rewrite H. apply Hs. Qed.

Lemma talk_queues s s' : only_talk s s' -> same_queues s s'.
Proof. intros (_ & _ & _ & H) c. unfold queued. by rewrite H. Qed.

Lemma talk_no_text {A : Type} (c : nat) (text : str) (m : M process A) :
  moves only_talk m -> stays (no_text c text) m.
Proof. intros Hm. apply moves_stays with (R := only_talk); [|done]. intros s s' H Hs x. rewrite (talk_queues _ _ H). apply Hs. Qed.

Lemma enqueue_no_text (c c' : nat) (text m : str) p cb :
  m <> text -> stays (no_text c text) (Storage.enqueue (W := W) (Heap := Heap) (Q := Q) c' m p cb).
Proof.
  intros Hm s Hs. unfold Storage.enqueue, Channel.enqueue, enqueue_msg, upd_chan, mbind, M_bind, gets, modify.
  intros x. unfold queued. cbn [chans set_chan].
  destruct (decide (c' = c)) as [->|Hne]; [rewrite fn_lookup_insert|rewrite fn_lookup_insert_ne by done; apply Hs].
  cbn [_msg_buffer with_buffer].
  destruct (new_msg_fields (Some cb) false m p (_sequence_counter s)) as (_ & _ & Ht & _).
  intros [->|Hx]%insert_elem; [by rewrite Ht|by apply Hs].
Qed.

Lemma callback_no_text (c c' t : nat) (text : str) cb reply pkt :
  (forall e, lit "(cog-keys->alist " ++ e <> text) ->
  stays (no_text c text) (run_callback (W := W) (Heap := Heap) (Q := Q) fuel c' t cb reply pkt).
Proof.
  intros Htext.
  destruct cb; cbn [run_callback]; unfold decode_atom_list, Storage.decode_value, decode_kvp_list_const.
  - stays_step.
  - cbv zeta. stays_step; [stays_step|].
    generalize (wadd (find lparen reply 0) 1), (rfind rparen reply) at 1.
    generalize fuel. intros k. induction k as [|k IH]; intros l r; cbn [Storage.atom_list_loop];
      repeat first [apply IH | apply enqueue_no_text, Htext | stays_step].
  - repeat stays_step.
  - stays_step; [|stays_step].
    apply same_queues_no_text, ro_decode_alist_moves; [typeclasses eauto|done].
Qed.

Lemma turns_no_text (c : nat) (text : str) s s' :
  (forall e, lit "(cog-keys->alist " ++ e <> text) ->
  turns (H0 := buffer_of c) (reply_handler fuel (run_callback fuel) c) s s' ->
  no_text c text s -> no_text c text s'.
Proof.
  intros Htext. induction 1 as [s|s s1 s2 (t & m & q & _ & Hp & _ & Hrun) _ IH]; [done|].
  intros Hs. apply IH. cbn [the buffer_of] in Hp.
  assert (no_text c text (put (Has := buffer_of c) q s)) as Hq.
  { intros x. unfold queued. cbn [put buffer_of chans set_chan]. rewrite fn_lookup_insert.
    intros Hx. apply Hs. unfold queued. rewrite Hp. by right. }
  assert (stays (no_text c text) (reply_handler fuel (run_callback fuel) c t m)) as Hh.
  { unfold reply_handler. repeat first [apply talk_no_text, do_send_talk | apply talk_no_text, do_recv_talk
      | by apply callback_no_text | stays_step]. }
  specialize (Hh _ Hq). by rewrite Hrun in Hh.
Qed.

(** A command with a reply that is not merged is queued as its own message. *)
Lemma command_queued (c : nat) (text : str) p cb s s' :
  compare_eq text 19 (lit "(cog-update-value!") = false -> no_text c text s ->
  Storage.enqueue c text p cb s = (Ok tt, s') ->
  exists m, m ∈ queued c s' /\ m.(noreply) = false /\ m.(callback) = Some cb /\
    m.(data) = p /\ m.(str_to_send) = text.
Proof.
  intros Hc Hfresh. unfold Storage.enqueue, Channel.enqueue, enqueue_msg, upd_chan, mbind, M_bind, gets, modify.
  intros [= <-]. pose proof (new_msg_fields (Some cb) false text p (_sequence_counter s)) as (H1 & H2 & H3 & H4).
  assert (sequence (new_msg (Some cb) false text p (_sequence_counter s)).1 = 0%Z) as Hseq.
  { unfold new_msg. by rewrite Hc. }
  set (b := new_msg _ _ _ _ _) in *. exists b.1. split_and!; [|done..].
  unfold queued. cbn [chans set_chan]. rewrite fn_lookup_insert. cbn [_msg_buffer with_buffer].
  rewrite insert_fresh; [by left|]. intros x Hx. destruct (msg_equiv _ x) eqn:E; [|done].
  apply msg_equiv_spec in E as [_ E]. destruct (Hfresh x Hx). by rewrite <- E, H3.
Qed.

(** C3. Loading a whole AtomSpace through the queue: when [loadAtomSpace]
    returns, every node and then every link the CogServer listed has joined the
    table, and the keys and values of each have been handled. *)
Theorem loadAtomSpace_arrives c t tbl wn wl ns ls s s' :
  let nodes_text := lit "(cog-get-atoms 'Node #t)" ++ [nl] in
  let links_text := lit "(cog-get-atoms 'Link #t)" ++ [nl] in
  in_step s -> no_text c nodes_text s -> no_text c links_text s ->
  (forall w, answer nodes_text w ++ [nl] = list_text wn ns) ->
  (forall w, answer links_text w ++ [nl] = list_text wl ls) ->
  length ns < fuel -> fits (list_text wn ns) -> length ls < fuel -> fits (list_text wl ls) ->
  Storage.loadAtomSpace fuel nodes c t tbl s = (Ok tt, s') ->
  list_arrives c tbl wn ns s s' /\ list_arrives c tbl wl ls s s'.
Proof.
  intros nt lt Hs Hfn Hfl Han Hal Hln Hfitn Hll Hfitl Hrun. unfold Storage.loadAtomSpace in Hrun.
  apply bind_inv in Hrun as ([] & s0 & [-> _]%check_open_inv & Hrun).
  apply bind_inv in Hrun as ([] & s1 & H1 & Hrun). apply bind_inv in Hrun as ([] & s2 & H2 & Hrun).
  apply bind_inv in Hrun as ([] & s3 & H3 & H4). fold nt in H1. fold lt in H3.
  destruct (command_queued c nt _ _ s s1 eq_refl Hfn H1) as (mn & Hmn & Hmn').
  assert (no_text c lt s1) as Hfl1.
  { pose proof (enqueue_no_text c c lt nt (mkPkt tbl None None) cb_decode_atom_list ltac:(discriminate) s Hfl) as H.
    by rewrite H1 in H. }
  apply (flush_turns process (buffer_of c)) in H2.
  pose proof (turns_no_text c lt s1 s2 ltac:(discriminate) H2 Hfl1) as Hfl2.
  destruct (command_queued c lt _ _ s2 s3 eq_refl Hfl2 H3) as (ml & Hml & Hml').
  apply (turns_steps fuel nodes) in H2. apply (command_steps fuel nodes) in H1, H3; [|done..].
  pose proof (barrier_empties _ _ _ _ H4) as Hq. apply (io_barrier_steps fuel nodes) in H4.
  pose proof (steps_in_step fuel nodes _ _ H1 Hs) as Hs1.
  assert (in_step s3) as Hs3 by (eapply (steps_in_step fuel nodes); [|exact Hs1]; by etrans).
  assert (forall w hs a, rtc step s a -> list_arrives c tbl w hs a s' -> list_arrives c tbl w hs s s') as Hext.
  { intros w hs a Ha (sa & sc & A & B & C & D). exists sa, sc. split_and!; [by etrans|done..]. }
  split.
  - apply (Hext _ _ s1); [done|].
    apply (list_message_arrives c tbl wn ns nt mn); try done. by do 2 (etrans; [done|]).
  - apply (Hext _ _ s3); [by do 2 (etrans; [done|])|].
    by apply (list_message_arrives c tbl wl ls lt ml).
Qed.
End fetch.
