(* ===== verification/PersistSCM.v ===== *)
(** * CogSimplePersistSCM.cc and CogPersistSCM.cc: opening from Scheme

    The old-style commands [cog-simple-open], [cog-storage-open] and their
    closing counterparts: a global slot that holds the one storage node opened
    this way.  The two files differ in the names and in the class of the node,
    so the model is stated once, over an interface to the node. *)
From stdpp Require Import functions.
From S2P Require Import Prelude CxxString Effects Sockets RecvBuf Barrier Uri Atomese.
From S2P Require Import SimpleStorage SimpleLife.

(** ** The interface *)

(** The AtomSpace operations are those of the atomspace repository, [env_as] is
    guile's; the node operations are the client's.  [Space] and [Node] stand for
    non-null pointers. *)
Class StorageNodes (S Space Node : Type) := {
  env_as : string -> S -> option Space;
  get_read_only : Space -> S -> bool;
  (** [add_node] with the class's type, which runs its constructor *)
  add_storage_node : Space -> str -> S -> outcome Node * S;
  extract_atom : Space -> Node -> S -> S;
  node_open : Node -> M S unit;
  node_close : Node -> M S unit;
  node_connected : Node -> S -> bool;
}.

(** What a client promises to this code: on states in [pre], [open] that
    returns leaves the node connected, and [close] that returns leaves it
    unconnected. *)
Class OpenContract {S} (opn cls : M S unit) (conn : S -> bool) (pre : S -> Prop) : Prop := {
  open_connects : forall s s', pre s -> opn s = (Ok tt, s') -> conn s' = true;
  close_disconnects : forall s s', pre s -> cls s = (Ok tt, s') -> conn s' = false;
}.

(** ** The commands *)

Section SCM.
Context {S Space Node : Type} {SN : StorageNodes S Space Node}.

Record PersistSCM := mkSCM {
  system : S;
  _as : option Space;
  _storage : option Node;
}.

#[export] Instance scm_system : Has S PersistSCM :=
  {| the := system; put := fun x s => mkSCM x s.(_as) s.(_storage) |}.

Definition set_as (a : option Space) (s : PersistSCM) : PersistSCM :=
  mkSCM s.(system) a s.(_storage).
Definition set_storage (n : option Node) (s : PersistSCM) : PersistSCM :=
  mkSCM s.(system) s.(_as) n.

(** The command names in the messages, the names the commands are registered
    under, and the module's. *)
Record names := mkNames {
  open_name : string; close_name : string;
  open_cmd : string; close_cmd : string;
  module_name : string;
}.
Definition simple_names : names :=
  mkNames "cog-simple-open" "cog-simple-close" "cog-simple-open" "cog-simple-close"
    "persist-cog-simple".
Definition cog_names : names :=
  mkNames "cogserver-open" "cogserver-close" "cog-storage-open" "cog-storage-close" "persist-cog".

Definition error (cmd msg : string) : exn := RuntimeException (cmd ++ msg).
Definition already_connected : string := ": Error: Already connected to a database!".

Definition do_open (nm : names) (uri : str) : M PersistSCM unit :=
  st ← gets _storage;
  match st with
  | Some _ => throw (error nm.(open_name) already_connected)
  | None =>
      asp ← gets (fun s => env_as nm.(open_name) s.(system));
      when (bool_decide (is_Some asp)) (modify (set_as asp));;
      a ← gets _as;
      match a with
      | None => throw (error nm.(open_name) ": Error: Can't find the atomspace!")
      | Some a =>
          ro ← gets (fun s => get_read_only a s.(system));
          if ro : bool then throw (error nm.(open_name) ": Error: AtomSpace is read-only!")
          else
            hsn ← on (add_storage_node a uri);
            modify (set_storage (Some hsn));;
            on (node_open hsn);;
            c ← gets (fun s => node_connected hsn s.(system));
            if negb c then
              on_pure (fun w => (tt, extract_atom a hsn w));;
              modify (set_storage None);;
              throw (error nm.(open_name) ": Error: Unable to connect to the database")
            else mret tt
      end
  end.

Definition do_close (nm : names) : M PersistSCM unit :=
  st ← gets _storage;
  match st with
  | None => throw (error nm.(close_name) ": Error: AtomSpace not connected to CogServer!")
  | Some n =>
      on (node_close n);;
      a ← gets _as;
      match a with
      | None => undef
      | Some a => on_pure (fun w => (tt, extract_atom a n w));; modify (set_storage None)
      end
  end.

(** ** Properties *)

(** The node is kept with the AtomSpace it was put in. *)
Definition slot_ok (s : PersistSCM) : Prop := s.(_storage) <> None -> s.(_as) <> None.

Context (pre : S -> Prop)
  {OC : forall n, OpenContract (node_open n) (node_close n) (node_connected n) pre}.
Context (Hadd : forall a u s n s', pre s -> add_storage_node a u s = (Ok n, s') -> pre s').

(** C38. [do_open] on an empty slot: if it returns, the slot holds a connected
    node; if opening the node throws, the exception passes through but the slot
    keeps the node, so that the next [do_open] is refused as already connected;
    the branch that reports "Unable to connect" is never reached. *)
Theorem do_open_outcomes nm uri a s :
  s.(_storage) = None -> env_as nm.(open_name) s.(system) = Some a ->
  get_read_only a s.(system) = false -> pre s.(system) ->
  match do_open nm uri s with
  | (Ok _, s') => exists n, s'.(_storage) = Some n /\ s'.(_as) = Some a /\
                            node_connected n s'.(system) = true
  | (Throw e, s') =>
      slot_ok s' /\
      ((exists w, add_storage_node a uri s.(system) = (Throw e, w)) /\ s'.(_storage) = None \/
       (exists n w w', add_storage_node a uri s.(system) = (Ok n, w) /\
          node_open n w = (Throw e, w') /\ s'.(_storage) = Some n /\
          forall uri', do_open nm uri' s' =
            (Throw (error nm.(open_name) already_connected), s')))
  | _ => True
  end.
Proof.
  intros Hst Has Hro Hpre. unfold do_open at 1.
  rewrite (bind_ok _ _ s None s) by (unfold gets; by rewrite Hst).
  rewrite (bind_ok _ _ s (Some a) s) by (unfold gets; by rewrite Has).
  rewrite (bind_ok _ _ s tt (set_as (Some a) s)) by done.
  rewrite (bind_ok _ _ (set_as (Some a) s) (Some a) (set_as (Some a) s)) by done.
  cbv beta iota. rewrite (bind_ok _ _ _ false (set_as (Some a) s)) by (unfold gets; simpl; by rewrite Hro).
  cbv iota. unfold mbind at 1, M_bind at 1, on at 1. change (the (set_as (Some a) s)) with (system s).
  destruct (add_storage_node a uri (system s)) as [[n|e| | |] w] eqn:Hn; try done.
  2: { split; [by intros H|]. left. split; [by exists w|done]. }
  erewrite bind_ok by done. unfold mbind at 1, M_bind at 1, on at 1.
  match goal with |- context [node_open n (the ?x)] => change (the x) with w; set (s1 := x) end.
  destruct (node_open n w) as [[[]|e| | |] w1] eqn:Hopen; try done.
  - assert (node_connected n w1 = true) as Hc by (eapply open_connects; [by eapply Hadd|done]).
    rewrite (bind_ok _ _ _ true (put w1 s1)) by (unfold gets; simpl; by rewrite Hc).
    cbn [negb]. by exists n.
  - split; [by intros H|]. right. exists n, w, w1. by split_and!.
Qed.

(** [do_close] that returns empties the slot, after the node has
    disconnected and has been taken out of its AtomSpace; one that throws keeps
    the node in the slot, and without a node it throws and changes nothing. *)
Theorem do_close_outcomes nm s :
  slot_ok s -> pre s.(system) ->
  match do_close nm s with
  | (Ok _, s') => s'.(_storage) = None /\ exists n a w,
      s.(_storage) = Some n /\ s.(_as) = Some a /\ node_connected n w = false /\
      s'.(system) = extract_atom a n w
  | (Throw _, s') => s'.(_storage) = s.(_storage)
  | (Undef, _) => exists n, s.(_storage) = Some n /\ (node_close n s.(system)).1 = Undef
  | _ => True
  end.
Proof.
  intros Hslot Hpre. unfold do_close.
  rewrite (bind_ok _ _ s s.(_storage) s) by done.
  destruct (_storage s) as [n|] eqn:Hst; [|done].
  unfold mbind at 1, M_bind at 1, on. change (the s) with (system s).
  destruct (node_close n (system s)) as [[[]|e| | |] w] eqn:Hc; try done.
  - rewrite (bind_ok _ _ _ s.(_as) (put w s)) by done.
    unfold slot_ok in Hslot. rewrite Hst in Hslot.
    destruct (_as s) as [a|] eqn:Ha; [|by destruct Hslot].
    erewrite bind_ok by done. split; [done|]. exists n, a, w. split_and!; try done.
    by eapply close_disconnects.
  - exists n. by rewrite Hc.
Qed.
End SCM.

(** ** Registering the commands

    The objects of one of the two classes, and what guile knows of them. *)

Inductive method := Do_open | Do_close.

(** What the code uses of guile: [bound g n] is the method and the object that
    the command [n] calls.  [with_guile] calls its argument, and so does
    [define_module], in a module that it makes or finds. *)
Class Guile (G : Type) := {
  bound : G -> string -> option (method * nat);
  define_scheme_primitive : string -> method -> nat -> string -> G -> G;
  use_module : string -> G -> G;
  define_module : forall {S} `{!Has G S}, string -> M S unit -> M S unit;
  with_guile : forall {S} `{!Has G S}, M S unit -> M S unit;
  define_bound n m o md g n' :
    bound (define_scheme_primitive n m o md g) n' =
      if String.eqb n n' then Some (m, o) else bound g n';
  use_module_bound n g : bound (use_module n g) = bound g;
  define_module_runs {S} `{!Has G S, !HasLaws G S} n (m : M S unit) s :
    exists g f, bound g = bound (the s) /\ (forall g', bound (f g') = bound g') /\
      define_module n m s = let '(r, s1) := m (put g s) in (r, put (f (the s1)) s1);
  with_guile_runs {S} `{!Has G S} (m : M S unit) s : with_guile m s = m s;
}.

Section register.
Context {S Space Node G : Type} {SN : StorageNodes S Space Node} {GL : Guile G}.
Context (nm : names).

(** The fields of the objects, the static flag of the constructor, guile, and
    the system the nodes live in. *)
Record shell := mkShell {
  sys : S;
  objects : nat -> option Space * option Node;
  is_init : bool;
  guile : G;
}.

#[export] Instance shell_guile : Has G shell :=
  {| the := guile; put := fun g s => mkShell s.(sys) s.(objects) s.(is_init) g |}.

#[export] Instance shell_guile_laws : HasLaws G shell.
Proof. split; [done|done|by intros []]. Qed.

Definition set_object (o : nat) (x : option Space * option Node) (s : shell) : shell :=
  mkShell s.(sys) (<[o := x]> s.(objects)) s.(is_init) s.(guile).
Definition set_init (s : shell) : shell := mkShell s.(sys) s.(objects) true s.(guile).

Definition init (self : nat) : M shell unit :=
  on_pure (fun g => (tt, define_scheme_primitive nm.(open_cmd) Do_open self nm.(module_name) g));;
  on_pure (fun g => (tt, define_scheme_primitive nm.(close_cmd) Do_close self nm.(module_name) g)).

Definition init_in_module (data : nat) : M shell unit := init data.

Definition init_in_guile (self : nat) : M shell unit :=
  define_module (String.append "opencog " nm.(module_name)) (init_in_module self);;
  on_pure (fun g => (tt, use_module (String.append "opencog " nm.(module_name)) g)).

(** The constructor of the object [self]; a null pointer is [None]. *)
Definition construct (self : nat) (asp : option Space) : M shell unit :=
  modify (set_object self (asp, None));;
  i ← gets is_init;
  if i : bool then mret tt
  else
    modify set_init;;
    with_guile (init_in_guile self).

(** The extension's entry point, which makes one object without an AtomSpace. *)
Definition extension_init (patty : nat) : M shell unit := construct patty None.

Definition destruct_scm (self : nat) : M shell unit :=
  modify (fun s => set_object self ((s.(objects) self).1, None) s).

(** The object [o], with the system it acts on. *)
Definition object (o : nat) (s : shell) : PersistSCM (S := S) (Space := Space) (Node := Node) :=
  mkSCM s.(sys) (s.(objects) o).1 (s.(objects) o).2.
Definition with_object (o : nat) (x : PersistSCM (S := S) (Space := Space) (Node := Node))
    (s : shell) : shell :=
  mkShell x.(system) (<[o := (x.(_as), x.(_storage))]> s.(objects)) s.(is_init) s.(guile).

(** What guile does for a command: the method of the object bound to it.  The
    exception is raised in Scheme; the object and the system keep what the
    method did to them. *)
Definition command (n : string) (uri : str) : M shell unit := fun s =>
  match bound s.(guile) n with
  | None => (Ok tt, s)
  | Some (m, o) =>
      let '(r, x) := match m with
                     | Do_open => do_open nm uri (object o s)
                     | Do_close => do_close nm (object o s)
                     end in
      (r, with_object o x s)
  end.

(** What may happen to the objects: [o] is built, where there is none; it is
    destroyed; a command returns or throws. *)
Inductive event : shell -> shell -> Prop :=
| constructed o asp s s' : construct o asp s = (Ok tt, s') -> event s s'
| destroyed o s s' : destruct_scm o s = (Ok tt, s') -> event s s'
| returned n uri s s' : command n uri s = (Ok tt, s') -> event s s'
| raised n uri e s s' : command n uri s = (Throw e, s') -> event s s'.

(** *** Which object the commands reach *)

(** The commands of the class, their names being distinct, call [o]. *)
Definition commands_call (o : nat) (g : G) : Prop :=
  bound g nm.(open_cmd) = Some (Do_open, o) /\ bound g nm.(close_cmd) = Some (Do_close, o).

Lemma init_in_guile_run o s :
  nm.(open_cmd) <> nm.(close_cmd) ->
  exists g, init_in_guile o s = (Ok tt, mkShell s.(sys) s.(objects) s.(is_init) g) /\
    commands_call o g /\
    forall n, n <> nm.(open_cmd) -> n <> nm.(close_cmd) -> bound g n = bound s.(guile) n.
Proof.
  intros Hne. unfold init_in_guile.
  destruct (define_module_runs (S := shell) (String.append "opencog " nm.(module_name))
    (init_in_module o) s) as (g0 & f & Hg0 & Hf & Hrun).
  eexists. split; [erewrite bind_ok by (rewrite Hrun; reflexivity); reflexivity|].
  cbn [the put shell_guile guile]. unfold commands_call.
  rewrite !use_module_bound, !Hf, !define_bound, !String.eqb_refl.
  split; [split; [|done]|].
  - apply String.eqb_neq in Hne. rewrite (String.eqb_sym (close_cmd nm)), Hne. done.
  - intros n H1 H2. rewrite !define_bound.
    rewrite !(proj2 (String.eqb_neq _ _)) by congruence. by rewrite Hg0.
Qed.

(** [o] is the object the commands call, and the only one with a node. *)
Definition serves (o : nat) (s : shell) : Prop :=
  s.(is_init) = true /\ commands_call o s.(guile) /\
  (forall n m o', bound s.(guile) n = Some (m, o') -> o' = o) /\
  forall o', o' <> o -> (s.(objects) o').2 = None.

Lemma construct_again o o' asp s :
  serves o s -> exists s', construct o' asp s = (Ok tt, s') /\ serves o s'.
Proof.
  intros (Hi & Hc & Hb & Ho). unfold construct.
  erewrite bind_ok by done. erewrite bind_ok by done.
  cbn [is_init set_object]. rewrite Hi. eexists. split; [done|]. split_and!; [done..|].
  intros o2 H2. cbn [objects set_object]. destruct (decide (o' = o2)) as [<-|Hne].
  - by rewrite fn_lookup_insert.
  - rewrite fn_lookup_insert_ne by done. by apply Ho.
Qed.

Lemma command_bound n uri s r s' :
  command n uri s = (r, s') -> s'.(guile) = s.(guile) /\ s'.(is_init) = s.(is_init) /\
  forall o, (forall m o', bound s.(guile) n = Some (m, o') -> o' <> o) ->
    s'.(objects) o = s.(objects) o.
Proof.
  unfold command. destruct (bound (guile s) n) as [[m o]|]; [|by intros [= <- <-]].
  destruct (match m with Do_open => _ | Do_close => _ end) as [r0 x].
  intros [= <- <-]. split_and!; [done..|]. intros o2 Hne. cbn [objects with_object].
  by rewrite fn_lookup_insert_ne by (by eapply Hne).
Qed.

Lemma event_serves o s s' : serves o s -> event s s' -> serves o s'.
Proof.
  intros Hs He.
  assert (forall n uri r s1, command n uri s = (r, s1) -> serves o s1) as Hcmd.
  { intros n uri r s1 H. destruct Hs as (Hi & [Hc1 Hc2] & Hb & Ho).
    destruct (command_bound _ _ _ _ _ H) as (Hg & Hi1 & Ho1).
    unfold serves, commands_call. rewrite Hg, Hi1. split_and!; [done..|].
    intros o' Hne. rewrite Ho1; [by apply Ho|]. intros m o2 H2. apply Hb in H2. congruence. }
  destruct He as [o' asp s s' H|o' s s' H|n uri s s' H|n uri e s s' H]; [| |by eapply Hcmd..].
  - destruct (construct_again o o' asp s Hs) as (s1 & H1 & Hs1). congruence.
  - injection H as <-. destruct Hs as (Hi & Hc & Hb & Ho). split_and!; [done..|].
    intros o2 H2. cbn [objects set_object]. destruct (decide (o' = o2)) as [<-|Hne].
    + by rewrite fn_lookup_insert.
    + rewrite fn_lookup_insert_ne by done. by apply Ho.
Qed.

(** The commands are registered once, for the object that is built first.
    However objects are built and destroyed afterwards and whatever commands
    run, the commands act on that object: it is registered under both names,
    and no other object ever holds a storage node. *)
Theorem commands_reach_first_object o asp s0 s s' :
  nm.(open_cmd) <> nm.(close_cmd) ->
  s0.(is_init) = false -> (forall n, bound s0.(guile) n = None) ->
  (forall o', (s0.(objects) o').2 = None) ->
  construct o asp s0 = (Ok tt, s) -> rtc event s s' ->
  bound s'.(guile) nm.(open_cmd) = Some (Do_open, o) /\
  bound s'.(guile) nm.(close_cmd) = Some (Do_close, o) /\
  forall o', o' <> o -> (s'.(objects) o').2 = None.
Proof.
  intros Hne Hi0 Hb0 Ho0 Hrun Hev.
  enough (serves o s') as (_ & [Hc1 Hc2] & _ & Ho) by done.
  assert (serves o s) as Hs.
  { unfold construct in Hrun. erewrite bind_ok in Hrun by done. erewrite bind_ok in Hrun by done.
    cbn [is_init set_object] in Hrun. rewrite Hi0 in Hrun. erewrite bind_ok in Hrun by done.
    rewrite with_guile_runs in Hrun.
    destruct (init_in_guile_run o (set_init (set_object o (asp, None) s0)) Hne)
      as (g & Hg & Hc & Hoth).
    rewrite Hg in Hrun. injection Hrun as <-. split_and!; [done..| |].
    - intros n m o' Hn. cbn [guile] in Hn. destruct Hc as [Hc1 Hc2].
      destruct (decide (n = nm.(open_cmd))) as [->|H1]; [congruence|].
      destruct (decide (n = nm.(close_cmd))) as [->|H2]; [congruence|].
      rewrite Hoth in Hn by done. cbn [guile set_init set_object] in Hn. by rewrite Hb0 in Hn.
    - intros o' H'. cbn [objects set_init set_object].
      rewrite fn_lookup_insert_ne by congruence. apply Ho0. }
  clear Hrun. induction Hev as [s|s s1 s' He _ IH]; [done|]. apply IH. by eapply event_serves.
Qed.
End register.

(** ** The two classes

    CogSimplePersistSCM and CogPersistSCM are the same code under the two sets
    of names. *)

Section classes.
Context {S Space Node G : Type} {SN : StorageNodes S Space Node} {GL : Guile G}.
Abbreviation Object := (PersistSCM (S := S) (Space := Space) (Node := Node)).
Abbreviation Shell := (shell (S := S) (Space := Space) (Node := Node) (G := G)).

Definition cog_simple_open (uri : str) : M Object unit := do_open simple_names uri.
Definition cog_simple_close : M Object unit := do_close simple_names.
Definition cog_simple_init (patty : nat) : M Shell unit := extension_init simple_names patty.

(** The objects of the second class have the fields of the first. *)
Definition CogPersistSCM : Type := Object.

Definition cog_storage_open (uri : str) : M Object unit := do_open cog_names uri.
Definition cog_storage_close : M Object unit := do_close cog_names.
Definition cog_construct (self : nat) (asp : option Space) : M Shell unit :=
  construct cog_names self asp.
Definition cog_init_in_guile (self : nat) : M Shell unit := init_in_guile cog_names self.
Definition cog_init_in_module (data : nat) : M Shell unit := init_in_module cog_names data.
Definition cog_destruct (self : nat) : M Shell unit := destruct_scm self.
Definition cog_init (self : nat) : M Shell unit := init cog_names self.
Definition cog_storage_init (patty : nat) : M Shell unit := extension_init cog_names patty.

(** The commands of the one class are not those of the other. *)
Lemma names_apart n1 n2 :
  n1 ∈ [simple_names.(open_cmd); simple_names.(close_cmd)] ->
  n2 ∈ [cog_names.(open_cmd); cog_names.(close_cmd)] -> n1 <> n2.
Proof.
  intros H1 H2 ->. repeat (apply elem_of_cons in H1 as [->|H1]); try by apply elem_of_nil in H1.
  all: repeat (apply elem_of_cons in H2 as [H2|H2]; [discriminate|]); by apply elem_of_nil in H2.
Qed.
End classes.

(** ** The single-socket client keeps the contract *)

#[export] Instance simple_contract {W Heap : Type} {SK : Sockets W} {AT : Atomese Heap} fuel
    (socket_nonzero : forall p w, (sys_socket p w).1 <> 0%Z) :
  OpenContract (open (W := W) (Heap := Heap) fuel) (close fuel)
    (fun s => (0 <? s.(_sockfd))%Z) (fun s => uri_ok s.(_uri) /\ s.(_mtx) = false).
Proof.
  split; intros s s' [Huri Hm] Hrun; apply Z.ltb_lt || apply Z.ltb_ge.
  - eapply open_returns_connected; eauto.
  - eapply close_returns_closed in Hrun; [lia|done].
Qed.
