(* ===== verification/SampleServer.v ===== *)
(** * Sample server and sample buffer

    A CogServer that answers from a table and delivers its replies byte by byte,
    and a message buffer kept in a list: concrete instances of [SyncServer],
    [ListLaws] and [AsyncBufferLaws], on which the witnesses evaluate the
    development.  They model no code of the repository. *)
From S2P Require Import Prelude CxxString Effects Sockets RecvBuf Barrier Uri Atomese.
From S2P Require Import Samples SimpleStorage SimpleIO SimpleSafety SimpleSync.
From S2P Require Import SimpleSpec SimpleFetch Msg.

(** ** A server with a table of answers *)

Fixpoint lookup_answer (tbl : list (str * str)) (m : str) : str :=
  match tbl with
  | [] => lit "()"
  | (q, a) :: tbl => if decide (q = m) then a else lookup_answer tbl m
  end.

Definition line_recv (fd : Z) (n : nat) (w : str) : recv_result * str :=
  match w, n with
  | [], _ => (RecvEof, w)
  | _, 0 => (RecvError, w)
  | c :: w, _ => (RecvData [c], w)
  end.

#[export] Program Instance line_sockets (tbl : list (str * str)) : Sockets str := {|
  addrinfo := unit;
  sys_getaddrinfo host port w := ((0%Z, [tt]), w);
  sys_freeaddrinfo _ w := w;
  sys_socket _ w := (5%Z, w);
  sys_connect _ _ w := (0%Z, w);
  sys_setsockopt _ _ w := (0%Z, w);
  sys_send fd m _ w :=
    (size m, if expects_reply m then w ++ lookup_answer tbl m ++ [nl] else w);
  sys_recv := line_recv;
  sys_close _ w := w;
  sys_errno _ := 111%Z;
  strerror _ := lit "error";
  left_first _ := true;
|}.
Next Obligation.
  intros tbl fd n w d w'. unfold line_recv. destruct w as [|c w], n as [|n]; try done.
  intros [= <- _]. simpl. lia.
Qed.

(** Every answer is one plain line that fits the fuel. *)
Definition table_ok (fuel : nat) (tbl : list (str * str)) : Prop :=
  Forall (fun qa => plain qa.2 /\ length qa.2 + 1 <= fuel) tbl /\ 3 <= fuel.

#[export] Instance plain_dec body : Decision (plain body).
Proof. unfold plain. apply _. Defined.
#[export] Instance table_ok_dec fuel tbl : Decision (table_ok fuel tbl).
Proof. unfold table_ok. apply _. Defined.

Lemma lookup_answer_ok fuel tbl m :
  table_ok fuel tbl -> plain (lookup_answer tbl m) /\ length (lookup_answer tbl m) + 1 <= fuel.
Proof.
  intros [Ht Hf]. induction Ht as [|[q a] tbl [Hp Hl] _ IH]; simpl.
  - split; [|lia]. repeat constructor; discriminate.
  - case_decide; [done|apply IH].
Qed.

Lemma bytes_carry body : plain body -> carries (map (fun c => [c]) (body ++ [nl])) (body ++ [nl]).
Proof.
  intros Hb. exists (map (fun c => [c]) body), [nl]. split; [by rewrite map_app|]. split; [done|].
  rewrite !map_app, concat_app. f_equal.
  induction Hb as [|c body (H1 & H2 & H3) _ IH]; [done|]. cbn [map concat].
  rewrite IH. assert (strip [c] = [c]) as ->; [|done].
  apply (strip_core 0 [c] 0). split; simpl; congruence.
Qed.

#[export] Program Instance line_server fuel tbl (Hok : table_ok fuel tbl) :
    SyncServer (line_sockets tbl) fuel := {|
  inbox _ w := map (fun c => [c]) w;
  answer m _ := lookup_answer tbl m;
|}.
Next Obligation.
  intros fuel tbl _ fd n w d ds Hn. destruct w as [|c w], n as [|n]; try done; [lia|].
  intros [= <- <-]. by exists w.
Qed.
Next Obligation. intros fuel tbl Hok m w. by apply (lookup_answer_ok fuel). Qed.
Next Obligation.
  intros fuel tbl Hok fd m nosig w rc w' [= <- <-] _ Hm. rewrite Hm.
  destruct (lookup_answer_ok fuel tbl m Hok) as [Hp Hl].
  exists (map (fun c => [c]) (lookup_answer tbl m ++ [nl])). split_and!.
  - by rewrite map_app.
  - by apply bytes_carry.
  - rewrite length_map, length_app. simpl. lia.
Qed.
Next Obligation.
  intros fuel tbl Hok fd m nosig w rc w' [= <- <-] [Hrc|Hm]; [pose proof (size_nonneg m); lia|].
  unfold expects_reply. by rewrite Hm, andb_false_r.
Qed.

Lemma line_send_ok tbl (fd : Z) (m : str) (b : bool) (w : str) :
  (0 <= (sys_send (Sockets := line_sockets tbl) fd m b w).1)%Z.
Proof. apply size_nonneg. Qed.

Lemma line_socket_nonzero tbl p w : (sys_socket (Sockets := line_sockets tbl) p w).1 <> 0%Z.
Proof. discriminate. Qed.

(** ** Lists of sample atoms *)

Lemma code_size tag n : size (code tag n) = (2 + size tag + Z.of_nat n)%Z.
Proof.
  unfold code, letters. rewrite size_cons, !size_app. unfold size.
  rewrite length_replicate. simpl. lia.
Qed.

#[export] Instance store_lists : ListLaws store_atomese.
Proof.
  split.
  - intros h w pre post r n. change (encode_atom h false w) with (code [] h).
    rewrite code_size, size_nil. intros Hr.
    change (get_next_expr ?s ?l ?x n) with (Ok (A := Z * (Z * Z)) (next_expr s l x)).
    unfold next_expr. rewrite drop_size.
    assert (code [] h ++ post = "("%char :: letters h ++ ")"%char :: post) as ->
      by (unfold code; simpl; by rewrite <- app_assoc).
    rewrite index_of_app by (done || by apply Forall_replicate).
    rewrite chareq_refl, (proj2 (Z.ltb_lt _ _)) by lia. cbn [andb].
    unfold letters. rewrite length_replicate. repeat f_equal. lia.
  - intros s r n. change (get_next_expr ?s ?l ?x n) with (Ok (A := Z * (Z * Z)) (next_expr s l x)).
    unfold next_expr. rewrite Z.ltb_irrefl. repeat case_match; try done.
    by rewrite andb_false_r in *.
  - intros h w pre post n x. change (encode_atom h false w) with (code [] h).
    change (decode_atom_lr ?s ?l ?r n x) with ((np ← parse_code s l; Ok np.1 : outcome nat), x).
    rewrite parse_code_spec by auto. done.
  - intros h w. change (encode_atom h false w) with (code [] h). rewrite code_size, size_nil. lia.
Qed.

(** ** A buffer in a list *)

Section buffer.
Context {Callback Data : Type}.
Abbreviation Msg := (Msg Callback Data).

Definition list_insert (m : Msg) (q : list Msg * list nat) : list Msg * list nat :=
  if decide (Exists (fun x => msg_equiv m x = true) q.1) then q else (m :: q.1, q.2).

(** The first writer takes everything, for at most a thousand messages. *)
Fixpoint list_drain {S} (HS : Has (list Msg * list nat) S) (writer : nat -> Msg -> M S unit)
    (n : nat) : M S unit := fun s =>
  match n with
  | 0 => (NoFuel, s)
  | Datatypes.S n =>
      match (the s).1, (the s).2 with
      | [], _ => (Ok tt, s)
      | e :: es, t :: ts => (writer t e;; list_drain HS writer n) (put (es, t :: ts) s)
      | _, [] => (NoFuel, s)
      end
  end.

Definition list_barrier {S} (HS : Has (list Msg * list nat) S) (writer : nat -> Msg -> M S unit)
    (block : option Msg) : M S unit :=
  list_drain HS writer 1000;;
  match block with
  | None => mret tt
  | Some m => ts ← gets (fun s => (the s).2); for_each (fun t => writer t m) ts
  end.

#[export] Instance list_buffer : AsyncBuffer Msg (list Msg * list nat) := {|
  pending q := q.1;
  writers q := q.2;
  buf_insert := list_insert;
  buf_open n q := (q.1, seq 1 n);
  buf_close q := (q.1, []);
  buf_clear_stats q := q;
  buf_flush S HS writer := list_drain HS writer 1000;
  buf_barrier S HS writer block := list_barrier HS writer block;
  buf_stat _ _ := [];
|}.

Lemma list_drain_fails {S} (HS : Has (list Msg * list nat) S) writer n : forall s o s',
  list_drain HS writer n s = (o, s') -> fails o ->
  exists s1 t e, turns writer s s1 /\ turn_ends writer t e s1 o s'.
Proof.
  induction n as [|n IH]; intros s o s' Hrun Ho; cbn [list_drain] in Hrun.
  { by injection Hrun as <- <-. }
  destruct (the s) as [[|e es] ts] eqn:E; cbn [fst snd] in Hrun; [by injection Hrun as <- <-|].
  destruct ts as [|t ts]; [by injection Hrun as <- <-|].
  assert (forall r s1, writer t e (put (es, t :: ts) s) = (r, s1) -> turn_ends writer t e s r s1) as Hturn.
  { intros r s1 H. exists (es, t :: ts). rewrite E. split_and!; [by constructor|done..]. }
  unfold mbind, M_bind in Hrun.
  destruct (writer t e (put (es, t :: ts) s)) as [r s1] eqn:Hw.
  destruct r as [[]|x| | |]; try (injection Hrun as <- <-; exists s, t, e; split;
    [apply rtc_refl|by apply Hturn]; fail).
  destruct (IH _ _ _ Hrun Ho) as (s2 & t2 & e2 & Hr & H2). exists s2, t2, e2. split; [|done].
  eapply rtc_l; [|exact Hr]. exists t, e. by apply (Hturn (Ok tt)).
Qed.

Lemma list_drain_drains {S} (HS : Has (list Msg * list nat) S) writer n : forall s s',
  list_drain HS writer n s = (Ok tt, s') -> drains writer s s'.
Proof.
  induction n as [|n IH]; intros s s' Hrun; [done|]. cbn [list_drain] in Hrun.
  destruct (the s) as [[|e es] ts] eqn:E; cbn [fst snd] in Hrun.
  - injection Hrun as <-. split; [apply rtc_refl|by rewrite E].
  - destruct ts as [|t ts]; [done|]. apply bind_inv in Hrun as ([] & s1 & Hw & Hrun).
    destruct (IH _ _ Hrun) as [Hr Hp]. split; [|done]. eapply rtc_l; [|exact Hr].
    exists t, e, (es, t :: ts). rewrite E. split_and!; [by constructor|done..].
Qed.

#[export] Instance list_buffer_laws : AsyncBufferLaws list_buffer.
Proof.
  split.
  - intros m [q ws] Hq. cbn in *. unfold list_insert. rewrite decide_False; [done|].
    intros (x & Hx & He)%Exists_exists. by rewrite Hq in He.
  - intros m x [q ws] Hx He. cbn in *. unfold list_insert. rewrite decide_True; [done|].
    apply Exists_exists. eauto.
  - intros [[|m q] ws] Hq; [done|]. by exists m, (q, ws).
  - intros m [q ws]. cbn. unfold list_insert. by case_decide.
  - done.
  - done.
  - done.
  - done.
  - intros S HS writer s s' Hrun. by apply list_drain_drains in Hrun as [? _].
  - intros S HS writer block s s' Hrun. change (list_barrier HS writer block s = (Ok tt, s')) in Hrun. unfold list_barrier in Hrun.
    apply bind_inv in Hrun as ([] & s1 & Hd & Hb). exists s1. split; [by eapply list_drain_drains|].
    destruct block as [m|]; [exact Hb|]. by injection Hb as <-.
  - intros S HS writer s o s' Hrun Ho. change (list_drain HS writer 1000 s = (o, s')) in Hrun.
    exact (list_drain_fails HS writer _ _ _ _ Hrun Ho).
  - intros S HS writer block s o s' Hrun Ho.
    change (list_barrier HS writer block s = (o, s')) in Hrun. unfold list_barrier, mbind, M_bind in Hrun.
    destruct (list_drain HS writer 1000 s) as [r s1] eqn:Hd.
    destruct r as [[]|x| | |]; try (injection Hrun as <- <-;
      destruct (list_drain_fails HS writer _ _ _ _ Hd Ho) as (s2 & t & e & H1 & H2);
      exists s2; split; [done|left; by exists t, e]; fail).
    exists s1. split; [by apply list_drain_drains in Hd as [? _]|]. right. destruct block as [m|]; [by exists m|].
    by injection Hrun as <- <-.
Qed.
End buffer.

(** The result of a run is named by running it. *)
Lemma run_fst {S A} (m : M S A) s a : (m s).1 = Ok a -> m s = (Ok a, (m s).2).
Proof. destruct (m s). by intros [= ->]. Qed.
