(* ===== verification/SampleNet.v ===== *)
(** * Sample network with a descriptor table

    A network that keeps the unread bytes of each open descriptor, with a
    CogServer that greets and answers from a table: a concrete instance of
    [SyncServer], [Descriptors] and [FdTable].  It models no code of the
    repository. *)
From stdpp Require Import functions.
From S2P Require Import Prelude CxxString Effects Sockets RecvBuf Barrier Uri Atomese.
From S2P Require Import Samples SimpleStorage SimpleIO SimpleSafety SimpleSync.
From S2P Require Import SimpleSpec SimpleFetch SampleServer SimpleLife Msg Channel ChannelFacts.
From S2P Require Import ChannelSocket ChannelSync ChannelUp FdTable.

(** ** The table *)

Abbreviation table := (gmap Z str).

(** The least descriptor above all that are open, and above 2. *)
Definition next_fd (w : table) : Z := (foldr Z.max 2 (map fst (map_to_list w)) + 1)%Z.

Lemma next_fd_above (ks : list Z) k : k ∈ ks -> (k <= foldr Z.max 2 ks)%Z.
Proof. induction ks as [|x ks IH]; [by intros H%elem_of_nil|]. intros [->|H]%elem_of_cons; simpl; [lia|]. apply IH in H. lia. Qed.

Lemma foldr_max_pos (ks : list Z) : (2 <= foldr Z.max 2 ks)%Z.
Proof. induction ks; simpl; lia. Qed.

Lemma next_fd_pos w : (2 < next_fd w)%Z.
Proof. unfold next_fd. pose proof (foldr_max_pos (map fst (map_to_list w))). lia. Qed.

Lemma next_fd_fresh w : w !! next_fd w = None.
Proof.
  destruct (w !! next_fd w) as [x|] eqn:E; [|done].
  assert (next_fd w ∈ map fst (map_to_list w)) as H.
  { apply list_elem_of_fmap. exists (next_fd w, x). split; [done|]. by apply elem_of_map_to_list. }
  apply next_fd_above in H. unfold next_fd in H at 1. lia.
Qed.

Definition unread (fd : Z) (w : table) : option str :=
  if (fd <? 0)%Z then None else w !! fd.

(** ** The calls *)

(** The prompt is one byte. *)
Definition reply_to (tbl : list (str * str)) (m : str) : str :=
  if expects_reply m then lookup_answer tbl m ++ [nl]
  else if is_silent m then [] else [">"%char].

Definition table_send (tbl : list (str * str)) (fd : Z) (m : str) (w : table) : Z * table :=
  match unread fd w with
  | Some d => (size m, <[fd := d ++ reply_to tbl m]> w)
  | None => ((-1)%Z, w)
  end.

Definition table_recv (fd : Z) (n : nat) (w : table) : recv_result * table :=
  match unread fd w, n with
  | None, _ | _, 0 => (RecvError, w)
  | Some [], _ => (RecvEof, w)
  | Some (c :: d), _ => (RecvData [c], <[fd := d]> w)
  end.

Definition table_connect (fd : Z) (w : table) : Z * table :=
  match unread fd w with
  | Some _ => (0%Z, <[fd := []]> w)
  | None => ((-1)%Z, w)
  end.

#[export] Program Instance table_sockets (tbl : list (str * str)) : Sockets table := {|
  addrinfo := unit;
  sys_getaddrinfo host port w := ((0%Z, [tt]), w);
  sys_freeaddrinfo _ w := w;
  sys_socket _ w := (next_fd w, <[next_fd w := []]> w);
  sys_connect fd _ w := table_connect fd w;
  sys_setsockopt _ _ w := (0%Z, w);
  sys_send fd m _ w := table_send tbl fd m w;
  sys_recv := table_recv;
  sys_close fd w := delete fd w;
  sys_errno _ := 111%Z;
  strerror _ := lit "error";
  left_first _ := true;
|}.
Next Obligation.
  intros tbl fd n w d w'. unfold table_recv. destruct (unread fd w) as [[|c x]|], n as [|n]; try done.
  intros [= <- _]. simpl. lia.
Qed.

Lemma table_socket_nonzero tbl p w : (sys_socket (Sockets := table_sockets tbl) p w).1 <> 0%Z.
Proof. cbn. pose proof (next_fd_pos w). lia. Qed.

Definition bytes (fd : Z) (w : table) : list str :=
  map (fun c => [c]) (default [] (unread fd w)).

Lemma bytes_insert fd d w :
  bytes fd (<[fd := d]> w) = if (fd <? 0)%Z then [] else map (fun c => [c]) d.
Proof. unfold bytes, unread. destruct (fd <? 0)%Z; [done|]. by rewrite lookup_insert_eq. Qed.

Lemma bytes_insert_ne fd fd' d w : fd' <> fd -> bytes fd' (<[fd := d]> w) = bytes fd' w.
Proof. intros H. unfold bytes, unread. by rewrite lookup_insert_ne by congruence. Qed.

Lemma unread_pos fd w d : unread fd w = Some d -> (fd <? 0)%Z = false /\ w !! fd = Some d.
Proof. unfold unread. by destruct (fd <? 0)%Z. Qed.

#[export] Program Instance table_server fuel tbl (Hok : table_ok fuel tbl) :
    SyncServer (table_sockets tbl) fuel := {|
  inbox := bytes;
  answer m _ := lookup_answer tbl m;
|}.
Next Obligation.
  intros fuel tbl _ fd n w d ds Hn Hw. change (bytes fd w = d :: ds) in Hw.
  cbn. unfold table_recv, bytes in *. destruct (unread fd w) as [[|c x]|] eqn:Hu, n as [|n]; try done; try lia.
  injection Hw as <- <-. eexists. split; [done|].
  change (bytes fd (<[fd := x]> w) = map (fun c => [c]) x).
  rewrite bytes_insert. by apply unread_pos in Hu as [-> _].
Qed.
Next Obligation. intros fuel tbl Hok m w. by apply (lookup_answer_ok fuel). Qed.
Next Obligation.
  intros fuel tbl Hok fd m nosig w rc w' Hsend Hrc Hm. cbn in Hsend. unfold table_send in Hsend.
  destruct (unread fd w) as [d|] eqn:Hu; injection Hsend as <- <-; [|lia].
  unfold reply_to. rewrite Hm. destruct (lookup_answer_ok fuel tbl m Hok) as [Hp Hl].
  exists (map (fun c => [c]) (lookup_answer tbl m ++ [nl])). split_and!.
  - rewrite bytes_insert. pose proof (unread_pos _ _ _ Hu) as [-> _]. rewrite map_app.
    unfold bytes. by rewrite Hu.
  - by apply bytes_carry.
  - rewrite length_map, length_app. simpl. lia.
Qed.
Next Obligation.
  intros fuel tbl Hok fd m nosig w rc w' Hsend Hm. cbn in Hsend. unfold table_send in Hsend.
  destruct (unread fd w) as [d|] eqn:Hu; injection Hsend as <- <-; [|done].
  destruct Hm as [Hrc|Hm]; [pose proof (size_nonneg m); lia|].
  unfold reply_to, expects_reply. rewrite Hm, andb_false_r, app_nil_r.
  apply unread_pos in Hu as [Hfd Hu]. change (bytes fd (<[fd := d]> w) = bytes fd w). f_equal.
  by apply insert_id.
Qed.

#[export] Instance table_descriptors fuel tbl Hok :
  Descriptors (table_sockets tbl) (table_server fuel tbl Hok).
Proof.
  split.
  - intros fd m b w rc w' Hs fd' Hne. cbn in Hs. unfold table_send in Hs.
    destruct (unread fd w); injection Hs as <- <-; [|done]. by apply bytes_insert_ne.
  - intros fd k w r w' Hs fd' Hne. cbn in Hs. unfold table_recv in Hs.
    destruct (unread fd w) as [[|c x]|], k as [|k]; injection Hs as <- <-; try done.
    by apply bytes_insert_ne.
  - intros fd p w rc w' Hs fd' Hne. cbn in Hs. unfold table_connect in Hs.
    destruct (unread fd w); injection Hs as <- <-; [|done]. by apply bytes_insert_ne.
  - intros fd w fd' Hne. cbn. unfold bytes, unread. by rewrite lookup_delete_ne by congruence.
  - intros p w fd. cbn. destruct (decide (fd = next_fd w)) as [->|Hne].
    + rewrite bytes_insert. unfold bytes, unread. rewrite next_fd_fresh. by destruct (_ <? 0)%Z.
    + by apply bytes_insert_ne.
  - done.
  - done.
  - done.
  - intros fd p w w' Hs. cbn in Hs. unfold table_connect in Hs.
    destruct (unread fd w); [|done]. injection Hs as <-. cbn. rewrite bytes_insert. by destruct (fd <? 0)%Z.
  - intros fd w. cbn. unfold bytes, unread. rewrite lookup_delete_eq. by destruct (fd <? 0)%Z.
  - intros fd w Hfd. cbn. unfold bytes, unread. by rewrite (proj2 (Z.ltb_lt _ _)).
  - intros fd b w rc w' Hs Hrc Hempty. cbn in Hs. unfold table_send in Hs.
    destruct (unread fd w) as [d|] eqn:Hu; injection Hs as <- <-; [|lia].
    exists [">"%char]. split; [|vm_compute; discriminate].
    pose proof (unread_pos _ _ _ Hu) as [Hfd _]. cbn. rewrite bytes_insert, Hfd.
    change (bytes fd w = []) in Hempty. unfold bytes in Hempty. rewrite Hu in Hempty.
    by destruct d.
Qed.

(** The server of the table stays up. *)
#[export] Instance table_up tbl : UpServer (table_sockets tbl).
Proof.
  assert (forall fd x f (w : table), (0 <= fd)%Z -> is_Some (unread f w) -> is_Some (unread f (<[fd := x]> w))) as Hins.
  { intros fd x f w Hfd. unfold unread. destruct (f <? 0)%Z; [done|].
    destruct (decide (f = fd)) as [->|Hne]; [by rewrite lookup_insert_eq|by rewrite lookup_insert_ne]. }
  refine {| live := fun fd (w : table) => is_Some (unread fd w) |}.
  - intros p w fd w' [= <- <-]. pose proof (next_fd_pos w). split; [lia|]. intros f. apply Hins. lia.
  - intros p w fd w' rc w'' [= <- <-] Hc. cbn in Hc. unfold table_connect in Hc.
    pose proof (next_fd_pos w).
    assert (unread (next_fd w) (<[next_fd w := []]> w) = Some []) as Hu.
    { unfold unread. rewrite (proj2 (Z.ltb_ge _ 0)) by lia. by rewrite lookup_insert_eq. }
    rewrite Hu in Hc. injection Hc as <- <-. split_and!; [done| |].
    + unfold unread. rewrite (proj2 (Z.ltb_ge _ 0)) by lia. rewrite lookup_insert_eq. eauto.
    + intros f. apply Hins. lia.
  - done.
  - intros fd m b w rc w' [d Hd] Hs. cbn in Hs. unfold table_send in Hs. rewrite Hd in Hs.
    injection Hs as <- <-. apply unread_pos in Hd as [Hfd _]. apply Z.ltb_ge in Hfd.
    split; [apply size_nonneg|]. intros f. by apply Hins.
  - intros fd k w r w' f Hf Hr. cbn in Hr. unfold table_recv in Hr.
    destruct (unread fd w) as [[|c x]|] eqn:Hu, k as [|k]; injection Hr as <- <-; try done.
    apply unread_pos in Hu as [Hfd _]. apply Z.ltb_ge in Hfd. by apply Hins.
Defined.

#[export] Instance table_fds tbl : FdTable (table_sockets tbl).
Proof.
  refine {| fds := fun w : table => dom w |}.
  - intros p w fd w' [= <- <-] _. split; [|by rewrite dom_insert_L].
    apply not_elem_of_dom. apply next_fd_fresh.
  - intros p w fd w' [= <- <-] H. pose proof (next_fd_pos w). lia.
  - intros fd w. apply dom_delete_L.
  - intros fd p w. cbn. unfold table_connect. destruct (unread fd w) eqn:Hu; [|done].
    apply unread_pos in Hu as [_ Hu]. cbn. rewrite dom_insert_lookup_L; eauto.
  - done.
  - intros fd m b w. cbn. unfold table_send. destruct (unread fd w) eqn:Hu; [|done].
    apply unread_pos in Hu as [_ Hu]. cbn. rewrite dom_insert_lookup_L; eauto.
  - intros fd n w. cbn. unfold table_recv.
    destruct (unread fd w) as [[|c x]|] eqn:Hu, n as [|n]; try done.
    apply unread_pos in Hu as [_ Hu]. cbn. rewrite dom_insert_lookup_L; eauto.
  - done.
  - done.
Defined.
