(* ===== verification/SimpleWitness.v ===== *)
(** * Witnesses for the single-socket client

    Each property of the single-socket client, applied to sample atoms and a
    sample server on which its hypotheses hold. *)
From S2P Require Import Prelude CxxString Effects Sockets RecvBuf Barrier Uri Atomese.
From S2P Require Import Samples ListUtils SimpleStorage SimpleIO SimpleSafety.
From S2P Require Import SimpleSync SimpleSpec SimpleFetch SimpleStore SimpleLife Msg.
From S2P Require Import SimpleFrames SampleServer.

(** ** The sample *)

(** Atoms 2, 4 and 6 live in AtomSpace 0, atom 10 in AtomSpace 8; atom 2 has the
    value 3 under the key 4. *)
Definition heap0 : store :=
  mkStore (<[(2, 4) := 3]> ∅) (<[2 := 0]> (<[4 := 0]> (<[6 := 0]> (<[10 := 8]> ∅))))
    (<[0 := [2; 4; 6]]> (<[8 := [10]]> ∅)).

Definition local_uri : str := lit "cog://localhost:17001/name".

Definition client : CogSimpleStorage (W := str) (Heap := store) :=
  mkSimple [] heap0 local_uri (Some 0) local_uri 5 false ∅ ∅ false false 1 [].

Definition space0 : option (AtomSpace (Heap := store)) := Some 0.

Definition kvs0 (h : nat) : list (nat * nat) := if decide (h = 2) then [(4, 3); (6, 1)] else [].

Definition without_nl (s : str) : str := take (length s - 1) s.

Definition value_request : str :=
  lit "(cog-value " ++ encode_atom 2 false heap0 ++ encode_atom 4 false heap0 ++ lit ")" ++ [nl].
Definition incoming_request : str :=
  lit "(cog-incoming-set " ++ encode_atom 2 false heap0 ++ lit ")" ++ [nl].
Definition node_request : str := lit "(cog-get-atoms 'Node #t)" ++ [nl].
Definition link_request : str := lit "(cog-get-atoms 'Link #t)" ++ [nl].

Definition answers : list (str * str) :=
  [(value_request, encode_value 3 heap0);
   (query_text 2 4 (Some 6) true heap0, encode_value 3 heap0);
   (iknow 2 heap0, encode_atom 2 false heap0);
   (get_keys 2 heap0, without_nl (alist_text heap0 (kvs0 2)));
   (incoming_request, without_nl (list_text heap0 [2; 12]));
   (lit "(cog-atomspace)" ++ [nl], encode_atom 8 false heap0);
   (node_request, without_nl (list_text heap0 [2; 4]));
   (link_request, without_nl (list_text heap0 [12]));
   (keys_request heap0 2, without_nl (alist_text heap0 (kvs0 2)));
   (keys_request heap0 4, without_nl (alist_text heap0 []));
   (keys_request heap0 12, without_nl (alist_text heap0 []))].

Lemma answers_ok : table_ok 100 answers.
Proof. apply (bool_decide_unpack _). by vm_compute. Defined.

#[local] Instance sample_sockets : Sockets str := line_sockets answers.
#[local] Instance sample_server : SyncServer sample_sockets 100 :=
  line_server 100 answers answers_ok.

Lemma client_ready : ready 100 client.
Proof. done. Defined.

Lemma uri_ok_local : uri_ok local_uri.
Proof.
  split; [done|]. split; [by apply (bool_decide_unpack _); vm_compute|].
  split; [by exists (lit "localhost:17001/name")|]. by apply (bool_decide_unpack _); vm_compute.
Defined.

(** Case analysis of a member of a concrete list. *)
Ltac each_member H :=
  repeat (apply elem_of_cons in H as [->|H]); [..|by apply elem_of_nil in H].

(** ** Loading *)

Lemma loadValue_loads_witness :
  does 100 (loadValue 100 2 4) client (Ok tt) (st_set 2 4 3 heap0)
    [IoSend true value_request; IoRecv true (encode_value 3 heap0 ++ [nl])].
Proof.
  apply (loadValue_loads 100 (line_send_ok answers) client 2 4 3 heap0);
    [exact client_ready|reflexivity|vm_compute; reflexivity].
Defined.

Lemma runQuery_caches_witness :
  does 100 (runQuery 100 2 4 (Some 6) true) client (Ok tt) (st_set 2 4 3 heap0)
    [IoSend true (query_text 2 4 (Some 6) true heap0);
     IoRecv true (encode_value 3 heap0 ++ [nl])].
Proof.
  apply (runQuery_caches 100 (line_send_ok answers) client 2 4 (Some 6) true 3 heap0);
    [exact client_ready|reflexivity|vm_compute; reflexivity].
Defined.

Lemma getAtom_known_witness :
  does 100 (getAtom 100 2) client (alist_ref (Some 0) 2 (kvs0 2) heap0).1
    (alist_ref (Some 0) 2 (kvs0 2) heap0).2
    [IoSend true (iknow 2 heap0); IoRecv true (lookup_answer answers (iknow 2 heap0) ++ [nl]);
     IoSend true (get_keys 2 heap0); IoRecv true (alist_text heap0 (kvs0 2))].
Proof.
  apply (getAtom_known (SS := sample_server) 100 (line_send_ok answers) client 2 heap0 (kvs0 2));
    [exact client_ready|reflexivity|vm_compute; reflexivity|intros w; vm_compute; reflexivity|
     vm_compute; lia|vm_compute; reflexivity].
Defined.

Lemma sample_serves msg hs (s : CogSimpleStorage (W := str) (Heap := store)) :
  lookup_answer answers msg ++ [nl] = list_text heap0 hs -> hs ⊆ [2; 4; 12] -> length hs < 90 ->
  fits (list_text heap0 hs) -> serves 100 msg s hs kvs0.
Proof.
  intros Ha Hs Hl Hf. exists heap0, heap0. split; [exact Ha|]. split; [exact Hf|]. split; [lia|].
  split.
  - intros h w Hh. apply Hs in Hh. each_member Hh; vm_compute; reflexivity.
  - intros h Hh. apply Hs in Hh. each_member Hh; (split; [vm_compute; lia|vm_compute; reflexivity]).
Defined.

Lemma fetchIncomingSet_fetches_witness :
  exists evs, does 100 (fetchIncomingSet 100 space0 2) client
    (fetch_ref space0 kvs0 [2; 12] heap0).1 (fetch_ref space0 kvs0 [2; 12] heap0).2 evs.
Proof.
  apply (fetchIncomingSet_fetches 100 (line_send_ok answers) space0 client 2 [2; 12] kvs0);
    [exact client_ready|reflexivity|].
  apply sample_serves; [vm_compute; reflexivity|by apply (bool_decide_unpack _); vm_compute|vm_compute; lia|vm_compute; reflexivity].
Defined.

Lemma loadAtomSpace_loads_witness :
  exists evs, does 100 (loadAtomSpace 100 space0) client
    (fetch_ref space0 kvs0 [2; 4; 12] heap0).1 (fetch_ref space0 kvs0 [2; 4; 12] heap0).2 evs.
Proof.
  apply (loadAtomSpace_loads 100 (line_send_ok answers) space0 client [2; 4] [12] kvs0);
    [exact client_ready|reflexivity|..].
  - apply sample_serves; [vm_compute; reflexivity|by apply (bool_decide_unpack _); vm_compute|vm_compute; lia|vm_compute; reflexivity].
  - intros s'. apply sample_serves; [vm_compute; reflexivity|by apply (bool_decide_unpack _); vm_compute|vm_compute; lia|vm_compute; reflexivity].
Defined.

(** ** Association lists *)

Lemma ro_decode_alist_roundtrip_witness :
  ro_decode_alist (AT := store_atomese) (S := CogSimpleStorage (W := str) (Heap := store)) 5 None 2
    (alist_text heap0 (kvs0 2)) client =
  for_each (fun kv => store_kv (AT := store_atomese) (getAtomSpace 2 heap0) 2 kv.1 kv.2)
    (kvs0 2) client.
Proof.
  refine (ro_decode_alist_roundtrip (AT := store_atomese) 5 None 2 heap0 (kvs0 2) client _ _);
    [vm_compute; lia|vm_compute; reflexivity].
Defined.

(** ((B)(D)) to an atom without an AtomSpace, and to one in AtomSpace 0. *)
Lemma ro_decode_alist_dotless_diverges_witness :
  (ro_decode_alist (AT := store_atomese) (S := CogSimpleStorage (W := str) (Heap := store)) 1000 None 12
    (dotless_text heap0 2 4 [rparen; rparen; nl]) client).1 = NoFuel /\
  (ro_decode_alist (AT := store_atomese) (S := CogSimpleStorage (W := str) (Heap := store)) 1000 (Some 0) 2
    (dotless_text heap0 2 4 [rparen; rparen; nl]) client).1 = NoFuel.
Proof.
  split; [apply (ro_decode_alist_dotless_diverges (AT := store_atomese) 1000 None 12 heap0 2 4)
         |apply (ro_decode_alist_dotless_diverges (AT := store_atomese) 1000 (Some 0) 2 heap0 2 4)];
    [vm_compute; reflexivity|vm_compute; reflexivity| |vm_compute; reflexivity|vm_compute; reflexivity|].
  - intros k v s'. reflexivity.
  - intros k v s'. cbn. unfold mbind, M_bind, on, on_pure. cbn. unfold st_add.
    repeat case_match; simplify_eq/=; reflexivity.
Defined.

(** ** Frame caches *)

Lemma insert_letters (fids : gmap str nat) n :
  well_named (AT := store_atomese) fids ->
  well_named (AT := store_atomese) (<[letters n := n]> fids).
Proof. intros H. by apply map_Forall_insert_2. Defined.

#[local] Instance store_frames : FrameLaws store_atomese.
Proof.
  split.
  - done.
  - intros top s p x Hx. cbn. unfold st_decode_frame. destruct (parse_code s p); try done.
    by apply insert_letters.
Defined.

(** The frame graph is loaded, with frame 8 on top, which is then named. *)
Lemma writeFrame_names_frame_witness :
  let s1 := (run_op 100 (OpLoadFrameDAG (AT := store_atomese)) client).2 in
  s1.(_frame_map) !! 8 = Some (frame_shorty (letters 8)) /\
  frame_shorty (letters 8) = frame_shorty (get_name (Atomese := store_atomese) 8) /\
  frames_ok (writeFrame (AT := store_atomese) (Some 8) s1).2.
Proof.
  split; [vm_compute; reflexivity|].
  apply (writeFrame_names_frame 100 client
    (run_op 100 (OpLoadFrameDAG (AT := store_atomese)) client).2 8); [reflexivity|reflexivity|..].
  - eapply (session_step 100 client client (OpLoadFrameDAG (AT := store_atomese)) (Ok tt));
      [apply session_start|apply run_fst; vm_compute; reflexivity|left; by exists tt].
  - apply run_fst. vm_compute. reflexivity.
Defined.

(** ** Locks *)

(** Atom 12 is in no AtomSpace: the client stores it while it is outside all
    AtomSpaces itself, and goes on. *)
Definition loose : CogSimpleStorage (W := str) (Heap := store) :=
  mkSimple client.(world) heap0 client.(_name) None client.(_uri) client.(_sockfd) false ∅ ∅
    false false client.(rng) [].

Definition loose_stored : CogSimpleStorage (W := str) (Heap := store) := (storeAtom 12 loose).2.

Lemma session_never_stuck_witness :
  match run_op 100 (OpStoreAtom (AT := store_atomese) 2) loose_stored with
  | (Ok _, s2) | (Throw _, s2) => s2.(_mtx) = false /\ s2.(_mtx_frame) = false
  | (Undef, _) | (Deadlock, _) => ~ op_pre (OpStoreAtom (AT := store_atomese) 2) loose_stored.(heap)
  | (NoFuel, _) => True
  end.
Proof.
  apply (session_never_stuck 100 loose loose_stored (OpStoreAtom (AT := store_atomese) 2));
    [reflexivity|reflexivity|exact uri_ok_local|].
  eapply (session_step 100 loose loose (OpStoreAtom (AT := store_atomese) 12) (Ok tt));
    [apply session_start|apply run_fst; vm_compute; reflexivity|left; by exists tt].
Defined.

(** From a client in an AtomSpace the same atom is undefined behaviour. *)
Lemma homeless_store_undefined_witness : (storeAtom 12 client).1 = Undef.
Proof. vm_compute. reflexivity. Defined.

Lemma io_under_lock_witness :
  wp True (run_op 100 (OpGetAtom (AT := store_atomese) 2)) (fun _ => all_locked) (fun _ => all_locked) client.
Proof.
  apply (io_under_lock 100 (OpGetAtom (AT := store_atomese) 2) client);
    [reflexivity|exact I|reflexivity|reflexivity|exact uri_ok_local|constructor].
Defined.

Lemma proxy_calls_unlocked_witness :
  exists r, (proxy_open 100 client).2.(_trace) =
    [IoSend false (lit "(cog-proxy-open)" ++ [nl]); IoRecv false r].
Proof.
  apply (proj1 (proxy_calls_unlocked 100 client (proxy_open 100 client).2 eq_refl)).
  apply run_fst. vm_compute. reflexivity.
Defined.

Definition busy : CogSimpleStorage (W := str) (Heap := store) := (do_send value_request client).2.
Definition robbed : CogSimpleStorage (W := str) (Heap := store) := (proxy_open 100 busy).2.

Lemma proxy_open_steals_reply_witness :
  exists s1' w s3,
    do_send (lit "(cog-proxy-open)" ++ [nl]) busy = (Ok tt, s1') /\
    do_recv 100 false s1' = (Ok (answer value_request client.(world) ++ [nl]), robbed) /\
    do_recv 100 false robbed = (Ok (answer (lit "(cog-proxy-open)" ++ [nl]) w ++ [nl]), s3).
Proof.
  apply (proxy_open_steals_reply 100 value_request client busy robbed);
    [reflexivity|reflexivity|apply run_fst; vm_compute; reflexivity|].
  refine (run_fst (proxy_open 100) busy tt _). vm_compute. reflexivity.
Defined.

(** ** Storing *)

Lemma storeAtomSpace_messages_witness :
  does 100 (storeAtomSpace 0) client (Ok tt) heap0
    [IoSend true (store_text 2 false heap0); IoSend true (store_text 4 false heap0);
     IoSend true (store_text 6 false heap0)].
Proof.
  apply (storeAtomSpace_messages (AT := store_atomese) 100 (line_send_ok answers) client 0);
    [exact client_ready|reflexivity|].
  intros h Hh. change (h ∈ [2; 4; 6]) in Hh.
  each_member Hh; (split; [reflexivity|right; reflexivity]).
Defined.

Lemma cacheFrame_caches_all_witness :
  exists s', cacheFrame 10 9 client = (Ok tt, s') /\
    only_caches client s' /\ caches_grow client s' /\ cached_below 9 s'.
Proof. apply (cacheFrame_caches_all (AT := store_atomese) 9 client). reflexivity. Defined.

Lemma writeFrame_sends_once_witness :
  exists s1 t, writeFrame (Some 9) client = (Ok (frame_shorty (letters 9)), s1) /\
    s1.(_trace) = [IoSend true (frame_text (code [] 9))] /\
    s1.(_multi_space) = true /\ writeFrame (Some 8) s1 = (Ok t, s1).
Proof.
  apply (writeFrame_sends_once (AT := store_atomese) 100 (line_send_ok answers) 9 8 (code [] 9) client);
    [exact client_ready|reflexivity|reflexivity|reflexivity|reflexivity|].
  apply (below_step (AT := store_atomese) 9 8 8); [by constructor|constructor].
Defined.

(** The frame is defined with the first atom of the other AtomSpace, and not
    again with the second. *)
Definition client_stored : CogSimpleStorage (W := str) (Heap := store) := (storeAtom 10 client).2.

Lemma client_stored_ready : ready 100 client_stored.
Proof. vm_compute. split; reflexivity. Qed.

Lemma storeAtom_other_space_witness :
  (exists s', storeAtom 10 client = (Ok tt, s') /\
     s'.(_trace) = [IoSend true (frame_text (code [] 8)); IoSend true (store_text 10 true heap0)] /\
     s'.(_multi_space) = true /\ s'.(heap) = heap0 /\ is_Some (s'.(_frame_map) !! 8) /\
     (client.(_frame_map) !! 8 = None -> cached_below 8 s')) /\
  (exists s', storeAtom 10 client_stored = (Ok tt, s') /\
     s'.(_trace) = client_stored.(_trace) ++ [] ++ [IoSend true (store_text 10 true heap0)] /\
     s'.(_multi_space) = true /\ s'.(heap) = client_stored.(heap) /\ is_Some (s'.(_frame_map) !! 8) /\
     (client_stored.(_frame_map) !! 8 = None -> cached_below 8 s')).
Proof.
  split.
  - apply (storeAtom_other_space (AT := store_atomese) 100 (line_send_ok answers) 10 8 (code [] 8) client);
      [exact client_ready|reflexivity|reflexivity|discriminate|reflexivity|discriminate|reflexivity].
  - apply (storeAtom_other_space (AT := store_atomese) 100 (line_send_ok answers) 10 8 (code [] 8) client_stored);
      [exact client_stored_ready|vm_compute; reflexivity|vm_compute; reflexivity|vm_compute; discriminate
      |vm_compute; reflexivity|vm_compute; discriminate|vm_compute; reflexivity].
Defined.

Lemma kill_data_resets_witness :
  exists s', kill_data 100 client = (Ok tt, s') /\
    s'.(_trace) = [IoSend true (lit "(cog-atomspace-clear)" ++ [nl]); IoRecv true (lit "()" ++ [nl])] /\
    s'.(_multi_space) = false /\ s'.(_frame_map) = ∅ /\ s'.(_fid_map) = ∅ /\
    s'.(heap) = heap0 /\ ready 100 s' /\ s'.(_mtx) = false /\ s'.(_mtx_frame) = false.
Proof.
  apply (kill_data_resets (SS := sample_server) 100 (line_send_ok answers) client);
    [exact client_ready|reflexivity|reflexivity].
Defined.

(** ** Opening, closing and fencing *)

Lemma init_outcomes_witness :
  init local_uri = Ok local_uri /\
  init (lit "cog://h?a&b") = Throw (unknown_config (lit "a")) /\
  init (lit "file://h") = Throw (unknown_uri (lit "file://h")).
Proof.
  split; [|split].
  - apply (proj1 (proj2 (init_outcomes local_uri eq_refl)) (lit "localhost:17001/name"));
      [vm_compute; reflexivity|by apply (bool_decide_unpack _); vm_compute].
  - apply (proj2 (proj2 (init_outcomes (lit "cog://h?a&b") eq_refl)) (lit "h?a&b")
      (lit "cog://h") (lit "a&b"));
      [vm_compute; reflexivity|vm_compute; reflexivity|by apply (bool_decide_unpack _); vm_compute].
  - apply (proj1 (init_outcomes (lit "file://h") eq_refl)). intros t Ht. discriminate Ht.
Defined.

Lemma endpoint_documented_witness :
  endpoint (lit "cog://h") = Ok (lit "h", lit "17001") /\
  endpoint (lit "cog://h/n") = Ok (lit "h", lit "17001") /\
  endpoint (lit "cog://h:80/n") = Ok (lit "h", lit "80").
Proof.
  apply (endpoint_documented (lit "h") (lit "80") (lit "n"));
    [vm_compute; reflexivity|by apply (bool_decide_unpack _); vm_compute..].
Defined.

Lemma endpoint_colon_in_name_witness :
  endpoint (lit "cog://h/a:b") = Ok (lit "h", lit "b").
Proof.
  apply (endpoint_colon_in_name (lit "h") (lit "a") (lit "b"));
    [vm_compute; reflexivity|by apply (bool_decide_unpack _); vm_compute..].
Defined.

Lemma open_outcomes_witness :
  wp True (open 100) (fun _ s' => (0 < s'.(_sockfd))%Z) open_failure (set_sockfd (-1) client).
Proof.
  apply (proj2 (open_outcomes (AT := store_atomese) (line_socket_nonzero answers) 100 (set_sockfd (-1) client)
    uri_ok_local eq_refl)). vm_compute. discriminate.
Defined.

Lemma close_outcomes_witness :
  wp True (close 100)
    (fun _ s' => s'.(_sockfd) = (-1)%Z /\
       ((0 < 5)%Z -> exists w, s'.(world) = sys_close 5 w) /\
       ((5 <= 0)%Z -> s'.(world) = []))
    (fun e s' => (s'.(_sockfd) = 5%Z /\ (0 < 5)%Z) \/
       (s'.(_sockfd) = 0%Z /\ e = closed_error)) client.
Proof. apply (close_outcomes 100 client). reflexivity. Defined.

Lemma barriers_distinct_witness :
  exists s1 s2 m1 m2, barrier client = (Ok tt, s1) /\ barrier s1 = (Ok tt, s2) /\
    s2.(_trace) = [IoSend true m1; IoSend true m2] /\
    m1 = barrier_text (lit "1") (next_id client) /\ length m1 < 64 /\ m1 <> m2.
Proof.
  apply (barriers_distinct (AT := store_atomese) client);
    [apply line_send_ok|reflexivity|reflexivity|vm_compute; split; [discriminate|reflexivity]].
Defined.
