(* ===== verification/StorageWitness.v ===== *)
(** * Witnesses for the multi-threaded client

    Each property of the channel, of the multi-threaded client and of the Scheme
    commands, applied to a sample process on which its hypotheses hold. *)
From stdpp Require Import pretty functions.
From S2P Require Import Prelude CxxString Effects Sockets RecvBuf Barrier Uri Atomese.
From S2P Require Import Samples ListUtils SimpleStorage SimpleIO SimpleSafety.
From S2P Require Import SimpleSync SimpleSpec SimpleFetch SimpleStore SimpleLife Msg.
From S2P Require Import Channel ChannelFacts ChannelSocket Storage StorageFacts.
From S2P Require Import StorageQueue PersistSCM SampleServer SimpleWitness.

(** ** The sample *)

Abbreviation sample_buffer := (list (Msg client_callback (Pkt (AT := store_atomese))) * list nat)%type.
Abbreviation sample_process W :=
  (process (W := W) (Heap := store) (Static := gmap str nat) (Q := sample_buffer)).

(** Channel 0 is open, with its four writers and an empty buffer; every thread
    holds descriptor [fd]. *)
Definition channel0 {W} {SK : Sockets W} (i : option (list addrinfo)) :
    CogChannel (SK := SK) (Q := sample_buffer) :=
  mkChannel local_uri (lit "localhost") (lit "17001") i 0 ([], [1; 2; 3; 4]).

Definition process0 {W} {SK : Sockets W} (w : W) (fd : Z) (i : option (list addrinfo)) :
    sample_process W :=
  mkProcess w heap0 (fun _ => mkTlso fd (Some 0)) (fun _ => 1%Z) (fun _ => channel0 i) 0 ∅ [] [].

#[local] Instance sample_sockets : Sockets str := line_sockets answers.

Definition proc : sample_process str := process0 [] 5 (Some [tt]).

Definition nodes0 (c : nat) : Storage.CogStorage := mkStorage local_uri local_uri.

(** A network whose server closes the connection, or has the given chunks
    under way. *)
Definition quiet_net (inbox : list str) : net := mkNet inbox (fun _ => []) [] true false 5 [].
Definition net_proc (inbox : list str) (fd : Z) (i : option (list unit)) : sample_process net :=
  process0 (SK := net_sockets) (quiet_net inbox) fd i.

(** ** Messages *)

Definition sample_msg (n : Z) (s : string) : Msg nat nat := mkMsg None n true (lit s) 0.

Lemma msg_lt_strict_weak_order_witness :
  msg_ltb (sample_msg 0 "a") (sample_msg 0 "c") = true.
Proof.
  apply (proj1 (proj2 (msg_lt_strict_weak_order (sample_msg 0 "a") (sample_msg 0 "b")
    (sample_msg 0 "c") ltac:(split; [discriminate|reflexivity])
    ltac:(split; [discriminate|reflexivity]) ltac:(split; [discriminate|reflexivity]))));
    vm_compute; reflexivity.
Defined.

Definition pending_update : Msg nat nat :=
  (new_msg None true (update_prefix ++ lit "(Concept) 1)") 0 7).1.

Lemma equal_updates_merged_witness :
  pending (buf_insert pending_update ([pending_update], [1])) = [pending_update].
Proof.
  apply (equal_updates_merged (AB := list_buffer) ([pending_update], [1]) 0 0 7 (lit "(Concept) 1)")).
  vm_compute. left.
Defined.

(** ** Sockets *)

Lemma do_recv_reassembles_witness :
  do_recv 5 1 false (net_proc [[syn; "("%char]; [syn]; [")"%char; nl; syn]] 5 None) =
  (Ok (lit "()" ++ [nl]), set_world (quiet_net []) (net_proc [[syn; "("%char]; [syn]; [")"%char; nl; syn]] 5 None)).
Proof.
  apply (do_recv_reassembles 5 1 (net_proc [[syn; "("%char]; [syn]; [")"%char; nl; syn]] 5 None)
    [[syn; "("%char]; [syn]; [")"%char; nl; syn]] (quiet_net []) (lit "()")).
  - discriminate.
  - repeat (eapply recvs_cons; [vm_compute; reflexivity|]). apply recvs_nil.
  - exists [[syn; "("%char]; [syn]], [")"%char; nl; syn]. split; [reflexivity|].
    split; [vm_compute; discriminate|vm_compute; reflexivity].
  - apply (bool_decide_unpack _). vm_compute. exact I.
  - vm_compute. lia.
Defined.

Lemma eof_leaves_stale_socket_witness :
  exists s', do_recv 5 1 false (net_proc [] 5 None) = (Throw closed_error, s') /\
    s'.(world) = sys_close 5 (quiet_net []) /\ sockfd_of 1 s' = 5%Z /\
    forall m, (do_send 5 0 1 m s').2.(world) = (sys_send 5 m true s'.(world)).2.
Proof.
  apply (eof_leaves_stale_socket 5 0 1 false (net_proc [] 5 None) (quiet_net []));
    [discriminate|vm_compute; reflexivity|lia].
Defined.

Lemma socket_shared_by_channels_witness :
  do_send 5 0 1 (lit "x") proc = do_send 5 7 1 (lit "x") proc.
Proof.
  apply (socket_shared_by_channels 5 0 7 1 proc (lit "x") unit (fun _ => mret tt)). discriminate.
Defined.

Lemma closed_channel_poisons_thread_witness :
  exists e s1, do_send 5 0 1 (lit "x") (net_proc [] 0 None) = (Throw (talk_error e), s1) /\
    sockfd_of 1 s1 = (-1)%Z /\
    forall c' m' (s2 : sample_process net), sockfd_of 1 s2 = (-1)%Z -> exists e' s3,
      do_send 5 c' 1 m' s2 = (Throw (talk_error e'), s3) /\ sockfd_of 1 s3 = (-1)%Z.
Proof.
  apply (closed_channel_poisons_thread 5 0 1 (lit "x") (net_proc [] 0 None));
    [|reflexivity|reflexivity].
  intros m b w. cbn. unfold net_send. rewrite orb_true_r. reflexivity.
Defined.

Lemma open_connection_outcomes_witness :
  wp True (open_connection 100 0 1 local_uri)
    (fun _ s' => servinfo_of 0 s' <> None /\ sockfd_of 1 s' = 0%Z /\ nsocks_of 0 s' = 1%Z)
    (fun e s' => sockfd_of 1 s' = 0%Z /\
       (servinfo_of 0 s' = None \/ servinfo_of 0 s' = None /\
        exists a, e = IOException "Unknown host %s: %s" a))
    (process0 [] 0 None).
Proof.
  apply (open_connection_outcomes 100 (line_socket_nonzero answers) 0 1 local_uri local_uri
    (lit "localhost", lit "17001") (process0 [] 0 None)); vm_compute; reflexivity.
Defined.

Lemma same_endpoint_witness :
  exists hp, SimpleStorage.endpoint local_uri = Ok hp /\ parse_uri local_uri = Ok (local_uri, hp).
Proof. apply (same_endpoint local_uri uri_ok_local). Defined.

(** ** Requests *)

Lemma proc_open : is_open 0 proc.
Proof. by exists [tt]. Defined.

Lemma request_queues_one_message_witness :
  let m := request_msg (RLoadValue (AT := store_atomese) 2 4) proc in
  m.1.(str_to_send) = value_request /\ m.1.(noreply) = false.
Proof.
  split; apply (proj2 (request_queues_one_message nodes0 0 (RLoadValue (AT := store_atomese) 2 4) proc proc_open)).
Defined.

Lemma clients_send_same_text_witness :
  exists rest, (run_op 100 (OpLoadValue (AT := store_atomese) 2 4) client).2.(_trace) =
    IoSend true value_request :: rest.
Proof.
  apply (clients_send_same_text 100 (RLoadValue (AT := store_atomese) 2 4) client (run_op 100 (OpLoadValue (AT := store_atomese) 2 4) client).2);
    [reflexivity|reflexivity|discriminate|].
  apply run_fst. vm_compute. reflexivity.
Defined.

Definition queued_proc : sample_process str := (queue_request nodes0 0 (RStoreAtom (AT := store_atomese) 2) proc).2.

Definition fenced_proc : sample_process str :=
  (Channel.barrier 100 (run_callback (AT := store_atomese) 100) (no_pkt (AT := store_atomese)) 0 9
    queued_proc).2.

Lemma fenced_run :
  Channel.barrier 100 (run_callback (AT := store_atomese) 100) (no_pkt (AT := store_atomese)) 0 9
    queued_proc = (Ok tt, fenced_proc).
Proof.
  refine (run_fst (Channel.barrier 100 (run_callback (AT := store_atomese) 100)
    (no_pkt (AT := store_atomese)) 0 9) queued_proc tt _).
  vm_compute. reflexivity.
Qed.

Lemma barrier_delivers_witness :
  exists w1 w2, fenced_proc.(_wire) = queued_proc.(_wire) ++ w1 ++ w2 /\
    exists t fd, (t, fd, SimpleIO.store_text 2 false heap0) ∈ w1.
Proof.
  destruct (barrier_delivers 100 (run_callback (AT := store_atomese) 100)
    (no_pkt (AT := store_atomese))
    (callback_moves (AT := store_atomese) 100) 0 9 queued_proc
    fenced_proc fenced_run) as (w1 & w2 & Hw & Hm & _).
  exists w1, w2. split; [exact Hw|].
  apply (Hm (request_msg (RStoreAtom (AT := store_atomese) 2) proc).1).
  refine (list_elem_of_here _ []).
Defined.

Lemma storeAtomSpace_flushes_witness :
  sent (SimpleIO.store_text 4 false heap0) proc
    (Storage.storeAtomSpace (AT := store_atomese) 100 nodes0 0 9 0 proc).2.
Proof.
  apply (storeAtomSpace_flushes (AT := store_atomese) 100 nodes0 0 9 0 proc (Storage.storeAtomSpace (AT := store_atomese) 100 nodes0 0 9 0 proc).2 4);
    [apply run_fst; vm_compute; reflexivity|].
  change (4 ∈ [2; 4; 6]). apply (bool_decide_unpack _). vm_compute. exact I.
Defined.

Lemma kill_data_fenced_witness :
  exists w1 w2, (Storage.kill_data (AT := store_atomese) 100 nodes0 0 9 queued_proc).2.(_wire)
      = queued_proc.(_wire) ++ w1 ++ w2 /\
    (exists t fd, (t, fd, SimpleIO.store_text 2 false heap0) ∈ w1) /\
    exists t fd, (t, fd, lit "(cog-atomspace-clear)" ++ [nl]) ∈ w2.
Proof.
  destruct (kill_data_fenced (AT := store_atomese) 100 nodes0 0 9 queued_proc
    (Storage.kill_data (AT := store_atomese) 100 nodes0 0 9 queued_proc).2
    ltac:(apply run_fst; vm_compute; reflexivity)) as (w1 & w2 & Hw & Hm & Hc).
  exists w1, w2. split; [exact Hw|]. split; [|exact Hc].
  apply (Hm (request_msg (RStoreAtom (AT := store_atomese) 2) proc).1).
  refine (list_elem_of_here _ []).
Defined.

Lemma set_proxy_fenced_witness :
  exists w1 w2, (Storage.set_proxy (AT := store_atomese) 100 nodes0 0 9 2 proc).2.(_wire)
      = proc.(_wire) ++ w1 ++ w2 /\
    exists t fd, (t, fd, SimpleIO.store_text 2 false heap0) ∈ w1.
Proof.
  destruct (set_proxy_fenced (AT := store_atomese) 100 nodes0 0 9 2 proc
    (Storage.set_proxy (AT := store_atomese) 100 nodes0 0 9 2 proc).2
    ltac:(apply run_fst; vm_compute; reflexivity)) as (w1 & w2 & w & Hw & H1 & _).
  exists w1, w2. split; [exact Hw|exact H1].
Defined.

(** ** Replies *)

Lemma callbacks_adopt_witness :
  run_callback (AT := store_atomese) 100 0 1 cb_decode_value (encode_value 3 heap0 ++ [nl]) (mkPkt (AT := store_atomese) None (Some 2) (Some 4)) proc
  = on (H := process_heap) (adopt_ref (AT := store_atomese) 2 4 3) proc.
Proof.
  apply (proj1 (callbacks_adopt (AT := store_atomese) 100 0 1 space0 2 4 3 heap0 heap0 (kvs0 2) proc
    ltac:(vm_compute; lia) ltac:(vm_compute; reflexivity))).
Defined.

Lemma decode_atom_list_queues_witness :
  run_callback (AT := store_atomese) 100 0 1 cb_decode_atom_list (list_text heap0 [2; 12]) (mkPkt space0 None None) proc
  = fetch_queue_ref 0 space0 heap0 [2; 12] proc.
Proof.
  apply (decode_atom_list_queues (AT := store_atomese) 100 0 1 space0 heap0 [2; 12] proc);
    [vm_compute; lia|vm_compute; reflexivity].
Defined.

Lemma getAtom_unknown_undefined_witness :
  let s1 := (do_send 100 0 1 (Storage.iknow (AT := store_atomese) 10 heap0) proc).2 in
  let s2 := (do_recv 100 1 false s1).2 in
  Storage.getAtom (AT := store_atomese) 100 nodes0 None 0 1 10 proc = (Undef, s2) /\
  Storage.getAtom (AT := store_atomese) 100 nodes0 (Some false) 0 1 10 proc = (Ok tt, s2) /\
  Storage.getAtom (AT := store_atomese) 100 nodes0 (Some true) 0 1 10 proc =
    Channel.enqueue 0 (Storage.get_keys (AT := store_atomese) 10 heap0) (mkPkt (AT := store_atomese) None (Some 10) None)
      cb_decode_kvp_list_const s2.
Proof.
  apply (getAtom_unknown_undefined (AT := store_atomese) 100 nodes0 0 1 10 proc
    (do_send 100 0 1 (Storage.iknow (AT := store_atomese) 10 heap0) proc).2);
    [exact proc_open|apply run_fst; vm_compute; reflexivity|apply run_fst; vm_compute; reflexivity].
Defined.

(** ** The Scheme commands *)

#[export] Instance one_node : StorageNodes (CogSimpleStorage (W := str) (Heap := store)) unit unit := {|
  env_as _ _ := Some tt;
  get_read_only _ _ := false;
  add_storage_node _ _ s := (Ok tt, s);
  extract_atom _ _ s := s;
  node_open _ := SimpleStorage.open 100;
  node_close _ := SimpleStorage.close 100;
  node_connected _ s := (0 <? SimpleStorage._sockfd s)%Z;
|}.

Definition scm0 : PersistSCM (S := CogSimpleStorage (W := str) (Heap := store)) (Space := unit)
  (Node := unit) := mkSCM client None None.

Lemma scm_opens : (do_open simple_names local_uri scm0).1 = Ok tt.
Proof. vm_compute. reflexivity. Qed.

Lemma do_open_outcomes_witness :
  (do_open simple_names local_uri scm0).1 = Ok tt /\
  match do_open simple_names local_uri scm0 with
  | (Ok _, s') => exists n, s'.(_storage) = Some n /\ s'.(_as) = Some tt /\
                            node_connected n s'.(system) = true
  | _ => True
  end.
Proof.
  split; [exact scm_opens|].
  pose proof (do_open_outcomes (SN := one_node)
    (fun s => uri_ok s.(SimpleStorage._uri) /\ s.(SimpleStorage._mtx) = false)
    (OC := fun n => simple_contract 100 (line_socket_nonzero answers))
    ltac:(intros a u s n s' Hp [= <- <-]; exact Hp)
    simple_names local_uri tt scm0 eq_refl eq_refl eq_refl (conj uri_ok_local eq_refl)) as H.
  destruct (do_open simple_names local_uri scm0) as [[] ?]; done.
Defined.
