(* ===== verification/StepsWitness.v ===== *)
(** * Witnesses for the interleavings, the descriptors and the commands

    The properties of the step relation, of the replies, of the descriptor table
    and of the registered commands, applied to the sample network with a
    descriptor table. *)
From stdpp Require Import pretty functions.
From S2P Require Import Prelude CxxString Effects Sockets RecvBuf Barrier Uri Atomese.
From S2P Require Import Samples ListUtils SimpleStorage SimpleIO SimpleSafety.
From S2P Require Import SimpleSync SimpleSpec SimpleFetch SimpleStore SimpleLife Msg.
From S2P Require Import Channel ChannelFacts ChannelSocket ChannelSync FdTable ThreadTalk.
From S2P Require Import Storage StorageFacts StorageQueue StorageSteps StorageReplies.
From S2P Require Import ChannelUp ChannelSafety StorageSafety StorageDrain StorageFetch.
From S2P Require Import PersistSCM.
From S2P Require Import SampleServer SampleNet SimpleWitness.
From S2P Require Import StorageWitness.

(** ** The sample *)

#[local] Instance steps_sockets : Sockets table := table_sockets answers.
#[local] Instance steps_server : SyncServer steps_sockets 100 :=
  table_server 100 answers answers_ok.
#[local] Instance steps_descriptors : Descriptors steps_sockets steps_server :=
  table_descriptors 100 answers answers_ok.
#[local] Instance steps_fds : FdTable steps_sockets := table_fds answers.

(** The atoms of [heap0], without the value. *)
Definition heap1 : store := mkStore ∅ heap0.(st_homes) heap0.(st_spaces).

(** Channel 0 is open, with four writers; no thread has a socket yet. *)
Definition idle : sample_process table :=
  mkProcess ∅ heap1 (fun _ => mkTlso 0 None) (fun _ => 1%Z)
    (fun _ => mkChannel local_uri (lit "localhost") (lit "17001") (Some [tt]) 0 ([], [1; 2; 3; 4]))
    0 ∅ [] [].

Lemma idle_in_step : in_step (AB := list_buffer) 100 idle.
Proof.
  split; [intros t Ht; by destruct Ht|]. intros c m Hm. by apply elem_of_nil in Hm.
Defined.

Definition value_op : request (AT := store_atomese) := RLoadValue (AT := store_atomese) 2 4.

Definition asked : sample_process table := (queue_request nodes0 0 value_op idle).2.
Lemma asked_run : queue_request nodes0 0 value_op idle = (Ok tt, asked).
Proof. apply run_fst. vm_compute. reflexivity. Qed.

Definition got : sample_process table := (Storage.barrier (AT := store_atomese) 100 0 9 asked).2.
Lemma got_run : Storage.barrier (AT := store_atomese) 100 0 9 asked = (Ok tt, got).
Proof.
  refine (run_fst (Storage.barrier (AT := store_atomese) 100 0 9) asked tt _).
  vm_compute. reflexivity.
Qed.

Lemma got_steps : rtc (step (AT := store_atomese) 100 nodes0) asked got.
Proof. exact (io_barrier_steps (AT := store_atomese) 100 nodes0 0 9 asked got got_run). Qed.

(** ** Steps *)

Lemma operations_are_steps_witness : rtc (step (AT := store_atomese) 100 nodes0) asked got.
Proof.
  apply (operations_are_steps (AT := store_atomese) 100 nodes0 None 0 9
    (SBarrier (AT := store_atomese)) asked got). exact got_run.
Defined.

Lemma requests_before_barrier_witness : sent value_request asked got.
Proof.
  apply (requests_before_barrier (AT := store_atomese) 100 nodes0 0 9 value_op idle asked asked got);
    [exact asked_run|apply rtc_refl|exact got_run].
Defined.

Lemma asked_in_step : in_step (AB := list_buffer) 100 asked.
Proof.
  apply (step_in_step (AT := store_atomese) 100 nodes0 idle); [|exact idle_in_step].
  eapply step_request; [exact asked_run|left; by exists tt].
Defined.

Lemma steps_stay_in_step_witness : in_step (AB := list_buffer) 100 got.
Proof.
  apply (steps_stay_in_step (AT := store_atomese) 100 nodes0 asked got got_steps asked_in_step).
Defined.

Lemma requests_answered_witness :
  answered (AT := store_atomese) 100 nodes0 0 cb_decode_value
    (mkPkt (AT := store_atomese) None (Some 2) (Some 4)) value_request asked got.
Proof.
  apply (requests_answered (AT := store_atomese) 100 nodes0 0 9 value_op cb_decode_value _ idle asked asked got);
    [exact idle_in_step|reflexivity|intros x Hx; by apply elem_of_nil in Hx|exact asked_run|apply rtc_refl|exact got_run].
Defined.

Lemma value_arrives_witness :
  exists sa sc, rtc (step (AT := store_atomese) 100 nodes0) asked sa /\
    adopt_ref (AT := store_atomese) 2 4 3 sa.(Channel.heap) = (Ok tt, sc.(Channel.heap)) /\
    rtc (step (AT := store_atomese) 100 nodes0) sc got.
Proof.
  apply (value_arrives (AT := store_atomese) 100 nodes0 0 9 2 4 3 heap0 idle asked asked got);
    [exact idle_in_step|intros x Hx; by apply elem_of_nil in Hx|intros w; vm_compute; reflexivity|
     exact asked_run|apply rtc_refl|exact got_run].
Defined.

(** The value is there afterwards. *)
Example got_value : getValue (Atomese := store_atomese) 2 4 got.(Channel.heap) = 3.
Proof. vm_compute. reflexivity. Qed.

(** ** Lists of atoms *)

Definition incoming_op : request (AT := store_atomese) := RFetchIncomingSet (AT := store_atomese) space0 2.

Definition fetching : sample_process table := (queue_request nodes0 0 incoming_op idle).2.
Lemma fetching_run : queue_request nodes0 0 incoming_op idle = (Ok tt, fetching).
Proof. apply run_fst. vm_compute. reflexivity. Qed.

Definition fetched : sample_process table := (Storage.barrier (AT := store_atomese) 100 0 9 fetching).2.
Lemma fetched_run : Storage.barrier (AT := store_atomese) 100 0 9 fetching = (Ok tt, fetched).
Proof.
  refine (run_fst (Storage.barrier (AT := store_atomese) 100 0 9) fetching tt _).
  vm_compute. reflexivity.
Qed.

Lemma fetched_list_arrives_witness :
  list_arrives (AT := store_atomese) 100 nodes0 0 space0 heap0 [2; 12] fetching fetched.
Proof.
  apply (fetched_list_arrives (AT := store_atomese) 100 nodes0 0 9 incoming_op space0 heap0 [2; 12]
    idle fetching fetching fetched);
    [exact idle_in_step|reflexivity|intros x Hx; by apply elem_of_nil in Hx|
     intros w; vm_compute; reflexivity|vm_compute; lia|vm_compute; reflexivity|
     exact fetching_run|apply rtc_refl|exact fetched_run].
Defined.

Definition loaded : sample_process table :=
  (Storage.loadAtomSpace (AT := store_atomese) 100 nodes0 0 9 space0 idle).2.
Lemma loaded_run : Storage.loadAtomSpace (AT := store_atomese) 100 nodes0 0 9 space0 idle = (Ok tt, loaded).
Proof.
  refine (run_fst (Storage.loadAtomSpace (AT := store_atomese) 100 nodes0 0 9 space0) idle tt _).
  vm_compute. reflexivity.
Qed.

Lemma loadAtomSpace_arrives_witness :
  list_arrives (AT := store_atomese) 100 nodes0 0 space0 heap0 [2; 4] idle loaded /\
  list_arrives (AT := store_atomese) 100 nodes0 0 space0 heap0 [12] idle loaded.
Proof.
  apply (loadAtomSpace_arrives (AT := store_atomese) 100 nodes0 0 9 space0 heap0 heap0 [2; 4] [12]
    idle loaded);
    [exact idle_in_step|intros x Hx; by apply elem_of_nil in Hx|intros x Hx; by apply elem_of_nil in Hx|
     intros w; vm_compute; reflexivity|intros w; vm_compute; reflexivity|vm_compute; lia|
     vm_compute; reflexivity|vm_compute; lia|vm_compute; reflexivity|exact loaded_run].
Defined.

(** Atom 12 and the value of atom 2 have come in. *)
Example loaded_value :
  getValue (Atomese := store_atomese) 2 4 loaded.(Channel.heap) = 3 /\
  12 ∈ get_all_handles (Atomese := store_atomese) 0 loaded.(Channel.heap).
Proof. split; [vm_compute; reflexivity|]. apply (bool_decide_unpack _). vm_compute. exact I. Qed.

(** ** Safety and progress *)




#[local] Instance steps_up : UpServer steps_sockets := table_up answers.

Lemma turns_terminate_witness : sn (some_turn (AT := store_atomese) 100 0) fetching.
Proof. apply (turns_terminate (AT := store_atomese) 100 0 fetching). Defined.

Lemma store_accepting : accepting (AT := store_atomese) (fun _ => True).
Proof.
  split_and!; [|by intros a v w _..|done].
  intros a h w _. unfold wp. cbn. unfold st_add.
  by match goal with |- context [match ?x with Some _ => _ | None => _ end] => destruct x end.
Qed.

Lemma fetching_at_work :
  at_work (AT := store_atomese) 100 0 (fun _ => True) (answered_well (AT := store_atomese) 100) fetching.
Proof.
  split_and!.
  - apply (step_in_step (AT := store_atomese) 100 nodes0 idle); [|exact idle_in_step].
    eapply step_request; [exact fetching_run|left; by exists tt].
  - split; [intros t Ht; by destruct Ht|]. by exists tt, [].
  - done.
  - intros m Hm.
    change (queued 0 fetching) with [mkMsg (Some cb_decode_atom_list) 0 false incoming_request
      (mkPkt (AT := store_atomese) (Some 0) None None)] in Hm.
    apply list_elem_of_singleton in Hm as ->. right. exists 0. split; [done|]. intros w.
    exists heap0, [2; 12]. split_and!; [vm_compute; reflexivity|vm_compute; lia|vm_compute; reflexivity|].
    intros h Hh. intros w'. apply elem_of_cons in Hh as [->|Hh];
      [exists heap0, (kvs0 2)|apply list_elem_of_singleton in Hh as ->; exists heap0, []];
      (split_and!; [vm_compute; reflexivity|vm_compute; lia|vm_compute; reflexivity]).
Qed.

Lemma queue_drains_witness :
  sn (some_turn (AT := store_atomese) 100 0) fetching.
Proof.
  apply (queue_drains (AT := store_atomese) 100 ltac:(lia) 0 (fun _ => True) fetching 1
    store_accepting fetching_at_work). apply (list_elem_of_here 1 [2; 3; 4]).
Defined.

(** ** Threads *)

(** Threads 1 and 2 have both sent a command when thread 1 reads. *)
Definition sent1 : sample_process table := (do_send 100 0 1 value_request idle).2.
Definition sent2 : sample_process table := (do_send 100 0 2 incoming_request sent1).2.

Lemma sent1_run : do_send 100 0 1 value_request idle = (Ok tt, sent1).
Proof. refine (run_fst (do_send 100 0 1 value_request) idle tt _). vm_compute. reflexivity. Qed.
Lemma sent2_run : do_send 100 0 2 incoming_request sent1 = (Ok tt, sent2).
Proof. refine (run_fst (do_send 100 0 2 incoming_request) sent1 tt _). vm_compute. reflexivity. Qed.

Definition waiting : nat -> option str := <[2 := waits incoming_request]> (<[1 := waits value_request]> (fun _ => None)).

Lemma threads_hear_their_replies_witness :
  exists w0 w, do_recv 100 1 false sent2 = (Ok (answer value_request w0 ++ [nl]), set_world w sent2) /\
    talking 100 (<[1 := None]> waiting) (set_world w sent2).
Proof.
  apply (threads_hear_their_replies 100 idle (fun _ => None) sent2 waiting 1 value_request).
  - split; [intros t Ht; by destruct Ht|intros t Ht; by destruct Ht].
  - eapply rtc_l.
    + eapply (micro_send 100 0 1 value_request idle sent1); [reflexivity|left; reflexivity|exact sent1_run].
    + apply rtc_once.
      apply (micro_send 100 0 2 incoming_request sent1 sent2); [reflexivity|left; reflexivity|exact sent2_run].
  - reflexivity.
Defined.

(** ** Descriptors *)

Definition talking : sample_process table := (do_send 100 0 1 value_request idle).2.

(** Thread 1 has opened its socket for channel 0, which is then destroyed. *)
Lemma exit_after_destruction_witness :
  (thread_exit 1 (add_destroyed 0 talking)).1 = Undef.
Proof.
  apply (exit_after_destruction 100 (table_socket_nonzero answers) 0 1 value_request idle talking);
    [discriminate|reflexivity| |reflexivity|apply (list_elem_of_here 0 [])].
  refine (run_fst (do_send 100 0 1 value_request) idle tt _). vm_compute. reflexivity.
Defined.

Lemma open_sock_descriptors_witness :
  wp True (open_sock 100 0 1)
    (fun fd s' => opened fd ∅ s'.(Channel.world) /\ s'.(tls) 1 = mkTlso fd (Some 0))
    (open_sock_failure 1 idle) idle.
Proof. apply (open_sock_descriptors 100 0 1 idle [tt]). reflexivity. Defined.

(** A client on the table, not connected, and the network with one descriptor
    in use. *)
Definition offline : CogSimpleStorage (W := table) (Heap := store) :=
  mkSimple {[0%Z := []]} heap0 local_uri (Some 0) local_uri (-1) false ∅ ∅ false false 1 [].

Lemma no_descriptor_lost_witness :
  wp True (SimpleStorage.open 100) (fun _ => tracks {[0%Z]}) (fun _ => tracks {[0%Z]}) offline /\
  0%Z ∈ fds (SimpleStorage.open 100 offline).2.(SimpleStorage.world) /\
  3%Z ∈ fds (SimpleStorage.open 100 offline).2.(SimpleStorage.world).
Proof.
  split; [|split; apply (bool_decide_unpack _); vm_compute; exact I].
  apply (no_descriptor_lost (AT := store_atomese) 100 (table_socket_nonzero answers) {[0%Z]} offline
    uri_ok_local eq_refl). apply dom_singleton_L.
Defined.

(** The client opens its connection and asks for the value of atom 2. *)
Definition online : CogSimpleStorage (W := table) (Heap := store) :=
  (SimpleStorage.open 100 offline).2.
Definition knows : CogSimpleStorage (W := table) (Heap := store) :=
  (SimpleIO.loadValue 100 2 4 online).2.

Lemma online_run : run_op 100 (OpOpen (AT := store_atomese)) offline = (Ok tt, online).
Proof. refine (run_fst (SimpleStorage.open 100) offline tt _). vm_compute. reflexivity. Qed.
Lemma knows_run : run_op 100 (OpLoadValue (AT := store_atomese) 2 4) online = (Ok tt, knows).
Proof. refine (run_fst (SimpleIO.loadValue 100 2 4) online tt _). vm_compute. reflexivity. Qed.

Lemma operations_stay_in_sync_witness : SimpleSync.in_sync 100 knows.
Proof.
  apply (operations_stay_in_sync 100 (table_socket_nonzero answers) offline knows); [|reflexivity].
  pose proof (session_start (AT := store_atomese) 100 offline) as H0.
  pose proof (session_step (AT := store_atomese) 100 offline offline (OpOpen (AT := store_atomese))
    (Ok tt) online H0 online_run (proper_ok tt)) as H1.
  exact (session_step (AT := store_atomese) 100 offline online
    (OpLoadValue (AT := store_atomese) 2 4) (Ok tt) knows H1 knows_run (proper_ok tt)).
Defined.

(** The CogServer is gone: descriptor 5 of the client is not open. *)
Definition stranded : CogSimpleStorage (W := table) (Heap := store) :=
  SimpleStorage.set_sockfd 5 offline.

Lemma destroy_outcomes_witness :
  exists s', SimpleStorage.destroy 100 stranded = (Ok Terminated, s').
Proof.
  apply (proj2 (proj2 (destroy_outcomes (AT := store_atomese) 100 stranded eq_refl)));
    [vm_compute; reflexivity|intros m; vm_compute; reflexivity].
Defined.

(** ** The Scheme commands *)

(** Guile as a list of bindings, the latest first. *)
Fixpoint lookup_binding (g : list (string * (method * nat))) (n : string) : option (method * nat) :=
  match g with
  | [] => None
  | (k, x) :: g => if String.eqb k n then Some x else lookup_binding g n
  end.

#[local] Program Instance list_guile : Guile (list (string * (method * nat))) := {|
  bound := lookup_binding;
  define_scheme_primitive n m o md g := (n, (m, o)) :: g;
  use_module _ g := g;
  define_module S _ _ m := m;
  with_guile S _ m := m;
|}.
Next Obligation. done. Qed.
Next Obligation. done. Qed.
Next Obligation.
  intros S HS HL n m s. exists (the s), (fun g => g). split_and!; [done|done|].
  rewrite put_the. destruct (m s) as [r s1]. by rewrite put_the.
Qed.
Next Obligation. done. Qed.

Abbreviation sample_shell := (shell (S := CogSimpleStorage (W := str) (Heap := store)) (Space := unit)
  (Node := unit) (G := list (string * (method * nat)))).

Definition shell0 : sample_shell := mkShell client (fun _ => (None, None)) false [].
Definition shell1 : sample_shell := (construct simple_names 0 None shell0).2.
Definition shell2 : sample_shell := (construct simple_names 1 (Some tt) shell1).2.
Definition shell3 : sample_shell := (command simple_names "cog-simple-open" local_uri shell2).2.

Lemma commands_reach_first_object_witness :
  bound shell3.(guile) "cog-simple-close" = Some (Do_close, 0) /\ (shell3.(objects) 1).2 = None.
Proof.
  destruct (commands_reach_first_object simple_names 0 None shell0 shell1 shell3) as (_ & H1 & H2);
    [discriminate|reflexivity|reflexivity|reflexivity|reflexivity| |].
  - eapply rtc_l; [eapply (constructed _ 1 (Some tt) shell1 shell2); reflexivity|].
    apply rtc_once. apply (returned _ "cog-simple-open" local_uri).
    refine (run_fst (command simple_names "cog-simple-open" local_uri) shell2 tt _).
    vm_compute. reflexivity.
  - split; [exact H1|apply H2; discriminate].
Defined.
