(* ===== verification/ThreadsWitness.v ===== *)
(** * Threads that share a client: witnesses, and what the locks do not cover

    The properties of [SimpleTalk], [SimpleHomes] and [SimpleGuards] at two
    threads on the sample network; and three interleavings the source does not
    exclude: the frame caches are written under two different mutexes,
    [_multi_space] is read and written under none, and two threads that both call
    [open] each connect. *)
From stdpp Require Import functions.
From S2P Require Import Prelude CxxString Effects Sockets RecvBuf Barrier Uri Atomese.
From S2P Require Import Samples ListUtils SimpleStorage SimpleIO SimpleSafety.
From S2P Require Import SimpleSync FdTable SampleServer SampleNet SimpleWitness.
From S2P Require Import Threads SimpleThreads SimpleTalk SimpleHomes SimpleGuards SimpleRaces.

(** ** The sample *)

#[local] Instance net_sockets : Sockets table := table_sockets answers.
#[local] Instance net_server : SyncServer net_sockets 100 := table_server 100 answers answers_ok.
#[local] Instance net_fds : FdTable net_sockets := table_fds answers.

Abbreviation Object := (CogSimpleStorage (W := table) (Heap := store)).
Abbreviation Pool := (pool (act (W := table) (Heap := store)) simple_lock Z Object).
Abbreviation Prog := (prog (act (W := table) (Heap := store)) simple_lock).

#[local] Instance sample_handler : Handler act (comm table) Object :=
  simple_handler (AT := store_atomese) 100.

Definition object (fd : Z) (net : table) : Object :=
  mkSimple net heap0 local_uri (Some 0) local_uri fd false ∅ ∅ false false 1 [].

(** Two threads, each with its generator. *)
Definition two_threads (s : Object) : Pool :=
  mkPool s [mkThread 1%Z [] Idle; mkThread 2%Z [] Idle].

Definition the_call (o : simple_op (AT := store_atomese)) : Prog :=
  match op_code (AT := store_atomese) (W := table) 100 o with
  | Some c => flatten c (fun _ => Return)
  | None => Return
  end.

(** The pool after some moves. *)
Definition after (ms : list (move (act (W := table) (Heap := store)) simple_lock)) (p : Pool)
    : list (nat * comm table) * Pool :=
  match play ms p with Some r => r | None => ([], p) end.

Definition plays ms (p : Pool) : bool := match play ms p with Some _ => true | None => false end.

Lemma after_runs calls ms (p : Pool) :
  Forall (only calls) ms -> plays ms p = true -> runs calls p (after ms p).1 (after ms p).2.
Proof.
  unfold plays, after. intros Hms Hp. destruct (play ms p) as [[tr q]|] eqn:H; [|done].
  apply (play_runs calls p ms p [] tr q); [done|apply runs_start|done].
Defined.

Lemma is_call o (s : Object) : locked_op o = true -> simple_call 100 s (the_call o).
Proof.
  intros Ho. unfold simple_call, the_call. exists o.
  destruct (op_code 100 o) as [c|] eqn:Hc; [by exists c|by destruct o].
Defined.

Definition turns (i n : nat) : list (move (act (W := table) (Heap := store)) simple_lock) :=
  Nat.iter n (cons (Turn i)) [].

Lemma turns_only (calls : Object -> Prog -> Prop) i n : Forall (only calls) (turns i n).
Proof. induction n; [apply Forall_nil_2|]. by apply Forall_cons_2. Qed.

Definition started : Pool := two_threads (object 5 {[5%Z := []]}).

Lemma started_rest : at_rest started.
Proof.
  split; [|done]. intros [|[|i]] t Hi; [by injection Hi as <-..|done].
Defined.

Definition Load : simple_op (AT := store_atomese) := OpLoadValue (AT := store_atomese) 2 4.
Definition Store : simple_op (AT := store_atomese) := OpStoreAtom (AT := store_atomese) 10.

(** Thread 0 has sent its request, and thread 1 waits for [_mtx]. *)
Definition overlapped : list (move (act (W := table) (Heap := store)) simple_lock) :=
  [Call 0 (the_call Load); Call 1 (the_call Store);
   Turn 0; Turn 1; Turn 0; Turn 1; Turn 0; Turn 1; Turn 1; Turn 1; Turn 1; Turn 1; Turn 1;
   Turn 1; Turn 1; Turn 1; Turn 1].

Lemma overlapped_plays : plays overlapped started = true.
Proof. vm_compute. reflexivity. Qed.

Definition overlap : Pool := (after overlapped started).2.

Lemma overlap_runs : runs (simple_call 100) started (after overlapped started).1 overlap.
Proof.
  apply after_runs; [|exact overlapped_plays].
  repeat first [apply Forall_nil_2 | apply Forall_cons_2; [first [exact I | by intros s; apply is_call]|]].
Qed.

Lemma started_sync : in_sync 100 started.(shared).
Proof. vm_compute. reflexivity. Qed.

(** ** The properties of the pool *)

Lemma one_conversation_witness :
  (paired 100 (after overlapped started).1 /\ in_sync 100 overlap.(shared)) \/
  (exists tr0 i m w, (after overlapped started).1 = tr0 ++ [(i, Said m w)] /\ paired 100 tr0 /\
     expects_reply m = true /\ has_lock overlap i LMtx).
Proof.
  exact (one_conversation (AT := store_atomese) 100 started _ overlap started_rest started_sync overlap_runs).
Defined.





Definition load_alone : Object := (run_op (AT := store_atomese) 100 Load (object 5 {[5%Z := []]})).2.

Lemma load_alone_run : run_op 100 Load (object 5 {[5%Z := []]}) = (Ok tt, load_alone).
Proof.
  refine (run_fst (run_op (AT := store_atomese) 100 Load) (object 5 {[5%Z := []]}) tt _).
  vm_compute. reflexivity.
Qed.

Lemma calls_are_operations_witness :
  exists c, op_code 100 Load = Some c /\
    rtc some_turn (alone (object 5 {[5%Z := []]}) [] (Running (flatten c (fun _ => Return))))
      (alone load_alone [] Idle).
Proof.
  refine (calls_are_operations (AT := store_atomese) 100 Load (object 5 {[5%Z := []]}) (Ok tt) load_alone
    eq_refl load_alone_run _).
  left. by exists tt.
Defined.

(** ** No undefined behaviour *)

Lemma st_set_homes h k v (w : store) : more_homes (AT := store_atomese) w (st_set h k v w).
Proof. by split. Qed.

Lemma st_add_homes a h (w : store) : more_homes (AT := store_atomese) w (st_add a h w).2.
Proof.
  unfold st_add. destruct a as [a|]; [|by split]. destruct (st_homes w !! h) as [b|] eqn:Hh; [by split|].
  assert (forall h', homed (AT := store_atomese) w h' ->
    homed (AT := store_atomese) (mkStore (st_values w) (<[h := a]> (st_homes w))
      (<[a := default [] (st_spaces w !! a) ++ [h]]> (st_spaces w))) h') as Hhome.
  { intros h' H. unfold homed in *. cbn in *. destruct (decide (h' = h)) as [->|Hne];
      [by rewrite lookup_insert_eq|by rewrite lookup_insert_ne]. }
  split; [exact Hhome|]. intros Hl b h'. cbn. destruct (decide (b = a)) as [->|Hne].
  - rewrite lookup_insert_eq. cbn. rewrite elem_of_app, list_elem_of_singleton.
    intros [H|H]; [by apply Hhome, (Hl a)|]. rewrite H. unfold homed. cbn. by rewrite lookup_insert_eq.
  - rewrite lookup_insert_ne by done. intros H. by apply Hhome, (Hl b).
Qed.

#[local] Instance store_homes : HomesStay store_atomese.
Proof.
  split; intros; cbn; first [apply st_set_homes | apply st_add_homes | exact same_homes
    | unfold st_decode_frame; destruct (parse_code _ _); exact same_homes].
Qed.














(** ** What the mutexes do not cover *)

Definition Dag : simple_op (AT := store_atomese) := OpLoadFrameDAG (AT := store_atomese).

(** Thread 1 is in [cacheFrame] with [_mtx_frame], thread 0 in [loadFrameDAG] with
    [_mtx]. *)
Definition racing : list (move (act (W := table) (Heap := store)) simple_lock) :=
  [Call 0 (the_call Dag); Call 1 (the_call Store)] ++ turns 1 17 ++ turns 0 4.

Lemma racing_only : Forall (only (simple_call 100)) racing.
Proof.
  apply Forall_app. split; [|apply Forall_app; split; apply turns_only].
  repeat first [apply Forall_nil_2 | apply Forall_cons_2; [by intros s; apply is_call|]].
Qed.

(** The test of [race], evaluated. *)
Definition conflicts (m : member) (a b : access member) : bool :=
  match a, b with
  | Writes x, Writes y | Writes x, Reads y | Reads x, Writes y =>
      bool_decide (x = m) && bool_decide (y = m)
  | Reads _, Reads _ => false
  end.

Definition races (m : member) (p : Pool) (i j : nat) : bool :=
  match p.(threads) !! i, p.(threads) !! j with
  | Some t, Some u =>
      existsb (fun a => existsb (conflicts m a) (accesses_next u)) (accesses_next t)
  | _, _ => false
  end.

Lemma conflicts_conflict m a b : conflicts m a b = true -> conflict m a b.
Proof.
  destruct a, b; cbn; try done; intros [->%bool_decide_eq_true ->%bool_decide_eq_true]%andb_true_iff;
    unfold conflict; auto.
Qed.

Lemma races_race m p i j : i <> j -> races m p i j = true -> race m p i j.
Proof.
  unfold races, race. intros Hne. split; [done|].
  destruct (threads p !! i) as [t|]; [|done]. destruct (threads p !! j) as [u|]; [|done].
  apply existsb_exists in H as (a & Ha & (b & Hb & Hc)%existsb_exists).
  exists t, u, a, b. split_and!; try done; [by apply list_elem_of_In..|by apply conflicts_conflict].
Qed.

(** Thread [i] holds the mutex [l]. *)
Definition holds_lock (i : nat) (l : simple_lock) (p : Pool) : bool :=
  match p.(threads) !! i with Some t => bool_decide (l ∈ t.(holds)) | None => false end.

Lemma holds_has_lock i l p : holds_lock i l p = true -> has_lock p i l.
Proof.
  unfold holds_lock, has_lock. destruct (threads p !! i) as [t|]; [|done].
  intros H%bool_decide_eq_true. by exists t.
Qed.

(** The frame caches are written under two different mutexes: [cacheFrame]
    and [kill_data] hold [_mtx_frame], while the decoders of [loadFrameDAG] and
    of the fetched lists write to [_fid_map] under [_mtx] alone.  Two threads
    that load the frame graph and store an atom come to a point where both
    write to the map next. *)
Theorem frame_maps_race :
  exists p tr p', at_rest p /\ in_sync 100 p.(shared) /\
    runs (simple_call 100) p tr p' /\ race MFidMap p' 0 1 /\
    has_lock p' 0 LMtx /\ has_lock p' 1 LMtxFrame.
Proof.
  exists started, (after racing started).1, (after racing started).2.
  split; [exact started_rest|]. split; [exact started_sync|]. split.
  - apply after_runs; [exact racing_only|]. vm_compute. reflexivity.
  - split; [apply races_race; [done|vm_compute; reflexivity]|].
    split; apply holds_has_lock; vm_compute; reflexivity.
Qed.

(** Two threads that store atoms: one is about to read [_multi_space] for its
    message, the other to set it. *)
Definition storing_both : list (move (act (W := table) (Heap := store)) simple_lock) :=
  [Call 0 (the_call Store); Call 1 (the_call Store)] ++ turns 1 3.

Theorem multi_space_race :
  exists p tr p', at_rest p /\ in_sync 100 p.(shared) /\
    runs (simple_call 100) p tr p' /\ race MMulti p' 0 1.
Proof.
  exists started, (after storing_both started).1, (after storing_both started).2.
  split; [exact started_rest|]. split; [exact started_sync|]. split.
  - apply after_runs; [|vm_compute; reflexivity]. apply Forall_app. split; [|apply turns_only].
    repeat first [apply Forall_nil_2 | apply Forall_cons_2; [by intros s; apply is_call|]].
  - apply races_race; [done|vm_compute; reflexivity].
Qed.

(** Two threads that call [open] at once: each looks at the descriptor, then
    both connect. *)
Definition open_prog : Prog := flatten (open_code (AT := store_atomese) 100) (fun _ => Return).

Definition offline : Pool := two_threads (object (-1) ∅).

Definition both_opening : list (move (act (W := table) (Heap := store)) simple_lock) :=
  [Call 0 open_prog; Call 1 open_prog; Turn 0; Turn 1] ++ turns 0 4 ++ turns 1 4.

Definition both_open : Pool := (after both_opening offline).2.

Lemma both_open_runs : runs (fun _ pr => pr = open_prog) offline (after both_opening offline).1 both_open.
Proof.
  apply after_runs; [|vm_compute; reflexivity].
  apply Forall_app. split; [|apply Forall_app; split; apply turns_only].
  repeat first [apply Forall_nil_2 | apply Forall_cons_2; [done|]].
Qed.

(** Two descriptors are open, and the client knows one. *)
Lemma both_open_descriptors :
  dom both_open.(shared).(world) = {[3%Z; 4%Z]} /\ both_open.(shared).(_sockfd) = 4%Z.
Proof. split; vm_compute; reflexivity. Qed.

Definition opened_once : Object := (locked_open (AT := store_atomese) 100 (object (-1) ∅)).2.
Definition opened_twice : Object := (locked_open (AT := store_atomese) 100 opened_once).2.

Lemma opened_once_run : locked_open 100 (object (-1) ∅) = (Ok tt, opened_once).
Proof.
  refine (run_fst (locked_open (AT := store_atomese) 100) (object (-1) ∅) tt _). vm_compute. reflexivity.
Qed.
Lemma opened_twice_run : locked_open 100 opened_once = (Ok tt, opened_twice).
Proof.
  refine (run_fst (locked_open (AT := store_atomese) 100) opened_once tt _). vm_compute. reflexivity.
Qed.

Lemma second_open_leaks_witness :
  (0 < opened_once.(_sockfd))%Z /\ opened_once.(_sockfd) ∈ fds opened_twice.(world) /\
  opened_twice.(_sockfd) <> opened_once.(_sockfd).
Proof.
  exact (second_open_leaks (AT := store_atomese) 100 (table_socket_nonzero answers) (object (-1) ∅)
    opened_once opened_twice uri_ok_local opened_once_run opened_twice_run).
Defined.
